(* ===== verification/_CoqProject ===== *)
-Q . S2P
Prelude.v
Framing.v
OutboundQueue.v
SendCursor.v
MemoryPool.v
SessionHandle.v
RoomRegistry.v
Utf8.v
Base64.v
Sha1.v
WebSocketDecoder.v
Handshake.v
ServerTypes.v
Router.v
SessionRegistry.v
Affinity.v
Owners.v
Server.v
ServerInbound.v
ServerInvariant.v
Operations.v
ServerReceive.v
ServerSteps.v
ServerStream.v
ServerProperties.v
ServerInduction.v
ServerApplication.v
Publishing.v
Timer.v
Wire.v
InboundLeak.v
Delivery.v
RateLimit.v
Concurrency.v
InboundRace.v
Disconnecting.v
WritePath.v
Shutdown.v
Lifecycle.v
Main.v
Callbacks.v
Program.v
StopSignal.v
