(* ===== verification/Prelude.v ===== *)
(** * A verification library for the IOCP Engine

    The IOCP Engine is a realtime server for Windows: clients connect over raw
    TCP with length-prefixed messages, or over WebSocket; they authenticate,
    join rooms and publish FlatBuffers messages to the rooms' subscribers.  The
    sources are under src/src/.  This library translates the program's logic
    into Rocq functions and proves what makes it correct.

    ** How the parts interact

    A completion port hands each finished operation to a worker, which runs
    [HandleAccept], [HandleRead] or [HandleWrite] of [IocpServer::Impl].  A read
    goes through transport detection (the handshake parser decides on WebSocket)
    into one of the two decoders; each decoded message goes to the registered
    handler, the protocol router, which updates the room registry and calls
    [Send] on the server; [Send] queues on the session, and one overlapped write
    per session drains its queue.  A timer thread enforces the timeouts.

    ** Files

    - [Prelude]: bytes as [Byte.byte], machine integers as [Z] with the
      wrap-around written out (scope [u64]), sizes, big-endian words, sums over
      maps, and the tactics [split_if], [u64_simpl] and [size_simpl].
    - [Framing]: [LengthPrefixedAccumulator] (protocol/framing.hpp).
    - [OutboundQueue]: [GlobalQueueBudget], [OutboundQueue]
      (core/outbound_queue.hpp).
    - [SendCursor]: [SendCursor] (core/send_cursor.hpp).
    - [MemoryPool]: [TypedObjectPool] (core/memory_pool.hpp), slots as an array
      of states, with the debug checks and without; undefined behaviour is an
      outcome of its own.
    - [SessionHandle]: the handle and its hash (core/session_handle.hpp).
    - [RoomRegistry]: [RoomRegistry] (pubsub/room_registry.hpp), the two hash
      maps as [gmap]s.
    - [Utf8], [Base64], [Sha1], [WebSocketDecoder], [Handshake]: the parts of
      transport/websocket_transport.{hpp,cpp}.
    - [ServerTypes]: the public types of core/iocp_server.hpp and the interface
      [Application] between the server and its handlers.
    - [Router]: [ProtocolRouter] (application/protocol_router.{hpp,cpp}) and the
      tables of schema/protocol.fbs; an instance of [Application].
    - [SessionRegistry]: [ShardedSessionRegistry] (core/iocp_server.cpp); the
      interface [SessionTable], and its instance.
    - [Server], [ServerInbound]: [IocpServer::Impl] (core/iocp_server.cpp).  The
      record [Server] is the state; a [shared_ptr<ClientSession>] is the
      session's id, a key of [heap]; [reads], [writes] and [accepts] are the
      operations at the completion port.
    - [Affinity]: the processor a worker is bound to ([WorkerLoop]).
    - [Owners]: [UniqueSocket] and [UniqueHandle].
    - [Operations]: the operations behind an [OVERLAPPED], the buffers
      [PostRead] and [PostWrite] pass, the dispatch of [WorkerLoop].
    - [ServerInvariant], [ServerReceive], [ServerSteps], [ServerStream]: the
      invariant of the accounting and the write path; the receive path with the
      termination of its loops; the server as a transition system
      [server_step]; each connection's outbound bytes.
    - [ServerProperties]: what holds in every reachable state.
    - [Timer]: a round of [TimerLoop]; [InboundLeak]: bytes counted for good.
    - [ServerInduction]: one traversal of the operations for every invariant of
      the sessions and the application ([closed]).
    - [ServerApplication]: what an application may keep about a session (the
      class [Tidy]), and the router as such an application.
    - [RateLimit]: the rate window of [DeliverMessage], with the times at which the
      handler is given a connection's messages.
    - [Publishing]: a published message from [DeliverMessage] to the outbound
      streams of the subscribers; [Wire]: the same from the read that completes
      the publisher's message.
    - [Delivery]: the bytes a connection received against the messages handed to
      the application, over whole runs.
    - [Concurrency], [InboundRace], [Disconnecting], [WritePath]: the accesses of
      shared memory as steps, interleaved: the loop of [ReserveGlobalQueued] and
      the checks of [HandleAccept]; [UpdateInboundAccounting]; [Disconnect]
      against [PostRead], [PostWrite] and the table of open sockets; the whole
      write path.
    - [Shutdown]: the wait of [Stop].
    - [Lifecycle]: [Initialize], [Start], [Stop], the handle and socket owners,
      the sockets of accepts; what is open at each point.
    - [Main]: [ParseSize], [ConstantTimeEqual], the command line and the wiring
      of main.cpp.
    - [Callbacks]: the registered handlers, and those [main] registers.
    - [Program]: [main] from its arguments to its exit code as a step relation,
      with the workers and the completions between its steps, against the
      interface [ServerImpl] of a server and its laws [ServerLaws]; the Windows
      server implements both, the one of the other platforms the interface.
    - [StopSignal]: [RequestStop] against the loop of [main], each access a step.

    ** What the theorems show

    - Delivery (C1 to C3): in every run the messages the application gets from a
      connection are exactly those on the wire, and the read that completes a
      published message adds it to exactly the streams of the room's subscribers.
    - Decoding (C9, C20, C38): the WebSocket decoder delivers exactly the
      messages on the wire, independent of the boundaries of the reads; a frame
      is read exactly when it is the RFC 6455 encoding of a valid frame; what is
      built is read back.  [Framing.raw_stream_delivery] and
      [WebSocketDecoder.ws_violations] are the raw decoder's theorem and the
      status of each violation.
    - Handshake (C21, C27): the parser accepts exactly the valid upgrade
      requests, SHA-1 is FIPS 180-4.
    - The server (C4, C5, C10, C11, C13, C22, C24, C28): exact byte accounting
      within the limits, in-order output, one write and one read per connection,
      an exact count of outstanding operations, a registry that is the set of
      connected sessions, termination of every read, timeouts and pings, the
      rate limit; what is posted to the system, and how it comes back (C37).
    - Preemption (C6 to C8, C25, C26, C33, C36): the write path under any
      interleaving keeps its limits and drains; a session is disconnected once,
      by any number of threads; the reservation is linearizable; where the code
      is not safe, by how much.
    - Starting and stopping (C12, C17 to C19, C40): [Stop] returns; what is open
      at each point; [main] is never stuck, every fair run of it exits once a stop
      is requested, with the right exit code, leaving open only the sockets of C35.
    - The application (C14 to C16, C23, C31, C32): access control, fan-out,
      subscriptions that end with the connection, every refusal with its answer,
      validation, and authentication with the token of [main].
    - The containers (C29, C30): session registry and object pool; the queue
      budget, rooms, the send cursor and the owners of sockets
      ([Owners.owners_conserve]) are proved in their files.
    - Configuration (C39): the command line against a reference reading of it.
    - Findings: C26 (admission), C28 (two bursts in one second), C33 and C34
      (inbound accounting), C35 (sockets of failed accepts), C36 (a socket used
      after it was closed and reused), C40 (a lost notification), C32 (malformed
      FlatBuffers that are not answered) and
      [Router.reauthentication_keeps_rooms] state behaviour the code or its
      documents do not mean to have.

    ** Abstract specifications

    [Framing.next_spec] and [Framing.drains], [WebSocketDecoder.encode_frame],
    [assemble] and [drains], [Handshake.request_ok] and [head_of],
    [Sha1.fips_sha1], [Utf8.utf8_string], [RoomRegistry.subscribed],
    [MemoryPool] as a set of live objects, [SessionRegistry.run_map],
    [ServerStream.outbound], [Router.documented_domain], [Delivery]'s account of
    a connection's bytes, [Concurrency.atomic_step] and [Program.ServerImpl] are
    written independently of the code and related to it by the theorems.

    ** Bounds and fuel

    Sizes are 64-bit.  The fuel of [WebSocketDecoder.Next], of the receive loops
    and of the string scans is one more than the length of the buffer they
    consume; [server_read_terminates] and the decoders' theorems prove that it
    never runs out; the fuel of [Affinity.find_group] is the number of groups.
    [ServerInvariant.config_ok] bounds the configuration: a message limit of at
    most 4 GiB (above it [EncodeLength] throws), an inbound limit of at most 2^62
    bytes.  A run accepts fewer than 2^64 connections; in [Program] fewer than 2^64
    operations are outstanding at once, as each is an object in memory.

    ** What is not modelled, and why

    - The Windows calls: what [WSASend], [WSARecv], [AcceptEx], [setsockopt],
      [CreateIoCompletionPort] or a [nothrow] allocation answers is an oracle
      ([os], [sys]), asked once per call, and so is the clock; every theorem
      holds for every oracle.  Their arguments are left out.  Logging and the
      text of the lines [main] writes have no logic of their own.
    - Preemption outside of the write path, disconnecting and posting, the
      reservation, the inbound accounting, the admission of connections and the
      stop request: elsewhere a handler is one step, and these parts are
      interleaved each on its own.  [Server] is the program with each handler
      one step, so the reuse of a socket (C36) is not a behaviour of [Server].  An
      accept decides on any value the load of [active_connections] may have given
      ([seen]): no theorem takes that load to be current (the race is C26).
      The memory model is sequential consistency.
    - The handlers' own calls of [Send] are made when the handler has returned;
      the router makes none whose result it looks at.  A server without a message
      handler takes messages and drops them, as the code does.
    - The generated FlatBuffers code (verifier, accessors, builder): parameters
      of [Router]. *)

From Stdlib Require Export ZArith Lia Bool.
From Stdlib Require Strings.Byte.
From Stdlib Require Export Strings.String.
From stdpp Require Export base tactics option numbers list gmap.

Open Scope Z_scope.

(** ** Bytes *)

Abbreviation byte := Corelib.Init.Byte.byte.

Definition b2z (b : byte) : Z := Z.of_N (Byte.to_N b).

Definition z2b (z : Z) : byte :=
  match Byte.of_N (Z.to_N (z mod 256)) with
  | Some b => b
  | None => Byte.x00
  end.

#[export] Instance byte_eq_decision : EqDecision byte.
Proof. intros x y. exact (Byte.byte_eq_dec x y). Defined.

#[export] Instance byte_inhabited : Inhabited byte := populate Byte.x00.

#[export] Instance byte_countable : Countable byte :=
  inj_countable Byte.to_N Byte.of_N Byte.of_to_N.

(** The bytes of a string literal of the source. *)
Definition bstr (s : String.string) : list byte := String.list_byte_of_string s.

(** ** Machine integers

    A [w]-bit unsigned integer is a [Z]; the wrap-around of each operation is
    written out.  [size_t] is 64 bits wide: the server is built for x64. *)

Definition u8 (z : Z) : Z := z mod 256.
Definition u16 (z : Z) : Z := z mod 65536.
Definition u32 (z : Z) : Z := z mod 4294967296.
Definition u64 (z : Z) : Z := z mod 18446744073709551616.

Definition size_max : Z := 18446744073709551615.

Definition uadd (a b : Z) : Z := u64 (a + b).
Definition usub (a b : Z) : Z := u64 (a - b).
Definition umul (a b : Z) : Z := u64 (a * b).

Definition is_u64 (z : Z) : Prop := 0 <= z <= size_max.

Declare Scope u64_scope.
Delimit Scope u64_scope with u64.
Arguments uadd (a b)%_u64_scope.
Arguments usub (a b)%_u64_scope.
Arguments umul (a b)%_u64_scope.
Infix "+" := uadd : u64_scope.
Infix "-" := usub : u64_scope.
Infix "*" := umul : u64_scope.

(** [v.size()] of a vector, span or string. *)
Definition size_of {A} (l : list A) : Z := Z.of_nat (length l).
Definition ztake {A} (n : Z) (l : list A) : list A := take (Z.to_nat n) l.
Definition zdrop {A} (n : Z) (l : list A) : list A := drop (Z.to_nat n) l.

(** ** Tactics

    [split_if] splits on the first boolean test of the goal, turning the usual
    comparisons into propositions; [split_ifs] repeats it. *)

Create HintDb engine.
Create Rewrite HintDb engine.

Ltac prop_of H :=
  repeat first
    [ rewrite Z.ltb_lt in H | rewrite Z.ltb_ge in H
    | rewrite Z.leb_le in H | rewrite Z.leb_gt in H
    | rewrite Z.eqb_eq in H | rewrite Z.eqb_neq in H
    | rewrite Z.gtb_gt in H | rewrite Z.geb_ge in H
    | rewrite orb_true_iff in H | rewrite orb_false_iff in H
    | rewrite andb_true_iff in H | rewrite andb_false_iff in H
    | rewrite negb_true_iff in H | rewrite negb_false_iff in H
    | rewrite bool_decide_eq_true in H | rewrite bool_decide_eq_false in H ].

Ltac split_if :=
  match goal with
  | |- context [if ?b then _ else _] =>
      let H := fresh "Hif" in destruct b eqn:H; prop_of H
  end.

Ltac split_if_in K :=
  match type of K with
  | context [if ?b then _ else _] =>
      let H := fresh "Hif" in destruct b eqn:H; prop_of H
  end.

(** ** Bytes and machine integers: lemmas *)

Lemma b2z_range b : 0 <= b2z b < 256.
Proof. unfold b2z. pose proof (Byte.to_N_bounded b). lia. Qed.

Lemma z2b_b2z b : z2b (b2z b) = b.
Proof.
  unfold z2b. rewrite Z.mod_small by apply b2z_range.
  unfold b2z. rewrite N2Z.id, Byte.of_to_N. done.
Qed.

Lemma b2z_z2b z : b2z (z2b z) = z mod 256.
Proof.
  unfold z2b. assert (0 <= z mod 256 < 256) by (apply Z.mod_pos_bound; lia).
  destruct (Byte.of_N (Z.to_N (z mod 256))) eqn:E.
  - unfold b2z. apply Byte.to_of_N in E. rewrite E. lia.
  - apply Byte.of_N_None_iff in E. lia.
Qed.

Lemma b2z_z2b_small z : 0 <= z < 256 -> b2z (z2b z) = z.
Proof. intros. rewrite b2z_z2b. by apply Z.mod_small. Qed.

Lemma b2z_inj b c : b2z b = b2z c -> b = c.
Proof. intros H. rewrite <-(z2b_b2z b), <-(z2b_b2z c). congruence. Qed.

Lemma z2b_mod z : z2b (z mod 256) = z2b z.
Proof. apply b2z_inj. rewrite !b2z_z2b. rewrite Z.mod_mod; lia. Qed.

Lemma u64_small z : is_u64 z -> u64 z = z.
Proof. unfold is_u64, u64, size_max. intros. apply Z.mod_small. lia. Qed.

Lemma u64_range z : is_u64 (u64 z).
Proof.
  unfold is_u64, u64, size_max.
  pose proof (Z.mod_pos_bound z 18446744073709551616). lia.
Qed.

Lemma u32_small z : 0 <= z < 4294967296 -> u32 z = z.
Proof. intros. apply Z.mod_small. lia. Qed.

Lemma u32_range z : 0 <= u32 z < 4294967296.
Proof. apply Z.mod_pos_bound. lia. Qed.

Lemma uadd_small a b : 0 <= a + b <= size_max -> (a + b)%u64 = a + b.
Proof. intros. apply u64_small. done. Qed.

Lemma usub_small a b : 0 <= b <= a -> a <= size_max -> (a - b)%u64 = a - b.
Proof. intros. apply u64_small. unfold is_u64. lia. Qed.

Lemma umul_small a b : 0 <= a * b <= size_max -> (a * b)%u64 = a * b.
Proof. intros. apply u64_small. done. Qed.

(** [u64_simpl] removes every wrap-around whose operands are in range. *)
Ltac u64_side := unfold is_u64, size_max in *; lia.
Ltac u64_simpl :=
  repeat first
    [ rewrite usub_small by u64_side | rewrite uadd_small by u64_side
    | rewrite umul_small by u64_side | rewrite u64_small by u64_side ].
Ltac u64_simpl_in H :=
  repeat first
    [ rewrite usub_small in H by u64_side | rewrite uadd_small in H by u64_side
    | rewrite umul_small in H by u64_side | rewrite u64_small in H by u64_side ].

(** ** Lists measured in [Z] *)

Section zlist.
Context {A : Type}.
Implicit Types l k : list A.

Lemma size_nonneg l : 0 <= size_of l.
Proof. unfold size_of. lia. Qed.

Lemma size_cons (x : A) l : size_of (x :: l) = 1 + size_of l.
Proof. unfold size_of. simpl. lia. Qed.

Lemma size_single (x : A) : size_of [x] = 1.
Proof. done. Qed.

Lemma size_app l k : size_of (l ++ k) = size_of l + size_of k.
Proof. unfold size_of. rewrite length_app. lia. Qed.

Lemma size_zdrop n l : 0 <= n <= size_of l -> size_of (zdrop n l) = size_of l - n.
Proof. unfold size_of, zdrop. rewrite length_drop. lia. Qed.

Lemma size_ztake n l : 0 <= n <= size_of l -> size_of (ztake n l) = n.
Proof. unfold size_of, ztake. rewrite length_take. lia. Qed.

Lemma size_ztake_le n l : size_of (ztake n l) <= Z.max 0 n /\ size_of (ztake n l) <= size_of l.
Proof. unfold size_of, ztake. rewrite length_take. lia. Qed.

Lemma size_zero_nil l : size_of l = 0 -> l = [].
Proof. unfold size_of. destruct l; simpl; [done | lia]. Qed.

Lemma zdrop_0 l : zdrop 0 l = l.
Proof. done. Qed.

Lemma zdrop_all l : zdrop (size_of l) l = [].
Proof. unfold zdrop, size_of. rewrite Nat2Z.id. apply drop_all. Qed.

Lemma zdrop_zdrop n m l : 0 <= n -> 0 <= m -> zdrop n (zdrop m l) = zdrop (m + n) l.
Proof. intros. unfold zdrop. rewrite drop_drop. f_equal. lia. Qed.

Lemma zdrop_app_le n l k :
  0 <= n <= size_of l -> zdrop n (l ++ k) = zdrop n l ++ k.
Proof. unfold zdrop, size_of. intros. apply drop_app_le. lia. Qed.

Lemma ztake_app_le n l k :
  0 <= n <= size_of l -> ztake n (l ++ k) = ztake n l.
Proof. unfold ztake, size_of. intros. apply take_app_le. lia. Qed.

Lemma ztake_zdrop n l : ztake n l ++ zdrop n l = l.
Proof. apply take_drop. Qed.

Lemma ztake_plus n m l :
  0 <= n -> 0 <= m -> ztake (n + m) l = ztake n l ++ ztake m (zdrop n l).
Proof.
  intros. unfold ztake, zdrop. rewrite Z2Nat.inj_add by done.
  rewrite <-(take_drop (Z.to_nat n) l) at 1. rewrite take_app.
  rewrite take_ge by (rewrite length_take; lia). rewrite length_take. f_equal.
  destruct (decide (Z.to_nat n <= length l)%nat).
  - f_equal. lia.
  - rewrite drop_ge by lia. rewrite !take_nil. done.
Qed.

Lemma ztake_clamp n l : ztake (Z.min (size_of l) n) l = ztake n l.
Proof.
  unfold ztake. destruct (Z.le_ge_cases (size_of l) n).
  - rewrite !take_ge; [done| |]; unfold size_of in *; lia.
  - f_equal. lia.
Qed.

Lemma ztake_ge n l : size_of l <= n -> ztake n l = l.
Proof. intros. unfold ztake. apply take_ge. unfold size_of in *. lia. Qed.

Lemma zdrop_app_ge n l k :
  size_of l <= n -> zdrop n (l ++ k) = zdrop (n - size_of l) k.
Proof.
  intros. unfold zdrop. rewrite drop_app_ge by (unfold size_of in *; lia).
  f_equal. unfold size_of. lia.
Qed.

Lemma zdrop_app_exact n l k : size_of l = n -> zdrop n (l ++ k) = k.
Proof. intros <-. unfold zdrop, size_of. rewrite Nat2Z.id. apply drop_app_length. Qed.

Lemma ztake_app_exact n l k : size_of l = n -> ztake n (l ++ k) = l.
Proof. intros <-. unfold ztake, size_of. rewrite Nat2Z.id. apply take_app_length. Qed.
End zlist.

#[export] Hint Rewrite @size_app @size_single @size_cons @zdrop_0 : engine.
#[export] Hint Resolve size_nonneg b2z_range : engine.

(** [size_simpl] computes the size of appends, conses and the empty list. *)
Ltac size_simpl :=
  autorewrite with engine;
  repeat match goal with
         | |- context [size_of (@nil ?A)] => change (size_of (@nil A)) with 0
         end.

(** ** Bits as arithmetic *)

Lemma land_255 z : Z.land z 255 = z mod 256.
Proof. change 255 with (Z.ones 8). rewrite Z.land_ones by lia. done. Qed.

Lemma lor_mul_add a b n :
  0 <= n -> 0 <= b < 2 ^ n -> Z.lor (a * 2 ^ n) b = a * 2 ^ n + b.
Proof.
  intros Hn Hb. rewrite <-Z.shiftl_mul_pow2 by done.
  assert (Hdisj : Z.land (Z.shiftl a n) b = 0).
  { apply Z.bits_inj'. intros i Hi. rewrite Z.land_spec, Z.bits_0.
    destruct (Z.lt_ge_cases i n).
    - rewrite Z.shiftl_spec_low by done. done.
    - rewrite <-(Z.mod_small b (2 ^ n)) by done.
      rewrite Z.mod_pow2_bits_high by lia. apply andb_false_r. }
  rewrite <-Z.lxor_lor by done. rewrite <-Z.add_nocarry_lxor by done. lia.
Qed.

Lemma lor_shiftl_8 a b : 0 <= b < 256 -> Z.lor (Z.shiftl a 8) b = a * 256 + b.
Proof. intros. rewrite Z.shiftl_mul_pow2 by lia. apply (lor_mul_add a b 8); lia. Qed.

Lemma bits_range w z :
  0 <= w -> (forall i, w <= i -> Z.testbit z i = false) -> 0 <= z < 2 ^ w.
Proof.
  intros Hw Hb. assert (z = z mod 2 ^ w) as ->; [|apply Z.mod_pos_bound; lia].
  apply Z.bits_inj'. intros i Hi. destruct (Z.lt_ge_cases i w).
  - rewrite Z.mod_pow2_bits_low by done. done.
  - rewrite Z.mod_pow2_bits_high by lia. by apply Hb.
Qed.

Lemma range_bits w z i : 0 <= z < 2 ^ w -> w <= i -> Z.testbit z i = false.
Proof.
  intros Hz Hi. destruct (Z.lt_ge_cases w 0); [rewrite Z.pow_neg_r in Hz; lia|].
  rewrite <-(Z.mod_small z (2 ^ w)) by done. apply Z.mod_pow2_bits_high. lia.
Qed.

Section word_range.
Context (w a b : Z) (Hw : 0 <= w) (Ha : 0 <= a < 2 ^ w) (Hb : 0 <= b < 2 ^ w).

Lemma lxor_range : 0 <= Z.lxor a b < 2 ^ w.
Proof.
  apply bits_range; [done|]. intros i Hi.
  rewrite Z.lxor_spec, (range_bits w a), (range_bits w b) by done. done.
Qed.

Lemma lor_range : 0 <= Z.lor a b < 2 ^ w.
Proof.
  apply bits_range; [done|]. intros i Hi.
  rewrite Z.lor_spec, (range_bits w a), (range_bits w b) by done. done.
Qed.
End word_range.

Lemma land_range_l w a b : 0 <= w -> 0 <= a < 2 ^ w -> 0 <= Z.land a b < 2 ^ w.
Proof.
  intros Hw Ha. apply bits_range; [done|]. intros i Hi.
  rewrite Z.land_spec, (range_bits w a) by done. done.
Qed.

(** ** Big-endian numbers *)

Definition be_decode (l : list byte) : Z :=
  foldl (fun acc b => acc * 256 + b2z b) 0 l.

Fixpoint be_encode (n : nat) (z : Z) : list byte :=
  match n with
  | O => []
  | S n => z2b (z / 256 ^ Z.of_nat n) :: be_encode n z
  end.

Lemma be_decode_snoc l b : be_decode (l ++ [b]) = be_decode l * 256 + b2z b.
Proof. unfold be_decode. rewrite foldl_app. done. Qed.

Lemma be_foldl_acc l acc :
  foldl (fun acc b => acc * 256 + b2z b) acc l = acc * 256 ^ size_of l + be_decode l.
Proof.
  revert acc. induction l as [|b l IH] using rev_ind; intros acc.
  - unfold be_decode, size_of. simpl. lia.
  - rewrite be_decode_snoc, foldl_app, IH. simpl.
    rewrite size_app, size_single, Z.pow_add_r by (try apply size_nonneg; lia).
    lia.
Qed.

Lemma be_decode_cons b l :
  be_decode (b :: l) = b2z b * 256 ^ size_of l + be_decode l.
Proof. unfold be_decode at 1. simpl. rewrite be_foldl_acc. lia. Qed.

Lemma be_decode_range l : 0 <= be_decode l < 256 ^ size_of l.
Proof.
  induction l as [|b l IH] using rev_ind; [done|].
  rewrite be_decode_snoc, size_app, size_single.
  rewrite Z.pow_add_r by (try apply size_nonneg; lia).
  pose proof (b2z_range b). lia.
Qed.

Lemma length_be_encode n z : length (be_encode n z) = n.
Proof. induction n; simpl; congruence. Qed.

Lemma be_decode_encode n z : be_decode (be_encode n z) = z mod 256 ^ Z.of_nat n.
Proof.
  induction n as [|n IH]; simpl be_encode.
  - rewrite Z.mod_1_r. done.
  - rewrite be_decode_cons, b2z_z2b, IH. unfold size_of. rewrite length_be_encode.
    rewrite Nat2Z.inj_succ, Z.pow_succ_r by lia.
    rewrite (Z.mul_comm 256), Z.rem_mul_r by lia. lia.
Qed.

Lemma be_encode_decode l : be_encode (length l) (be_decode l) = l.
Proof.
  assert (Hgen : forall l q, be_encode (length l) (be_decode l + q * 256 ^ size_of l) = l).
  { clear l. induction l as [|b l IH]; intros q; [done|]. simpl be_encode. f_equal.
    - rewrite be_decode_cons, size_cons. fold (size_of l).
      pose proof (be_decode_range l). pose proof (size_nonneg l).
      rewrite Z.pow_add_r by lia. apply b2z_inj. rewrite b2z_z2b.
      replace (b2z b * 256 ^ size_of l + be_decode l + q * (256 ^ 1 * 256 ^ size_of l))
        with (be_decode l + (b2z b + q * 256) * 256 ^ size_of l) by lia.
      rewrite Z.div_add, Z.div_small, Z.add_0_l, Z.mod_add by lia.
      apply Z.mod_small, b2z_range.
    - rewrite be_decode_cons, size_cons. pose proof (size_nonneg l).
      rewrite Z.pow_add_r by lia.
      replace (b2z b * 256 ^ size_of l + be_decode l + q * (256 ^ 1 * 256 ^ size_of l))
        with (be_decode l + (b2z b + q * 256) * 256 ^ size_of l) by lia.
      apply IH. }
  specialize (Hgen l 0). rewrite Z.mul_0_l, Z.add_0_r in Hgen. done.
Qed.

(** Four bytes assembled with shifts are the big-endian number. *)
Lemma be_word b0 b1 b2 b3 :
  Z.lor (Z.lor (Z.lor (u32 (Z.shiftl (b2z b0) 24)) (u32 (Z.shiftl (b2z b1) 16)))
               (u32 (Z.shiftl (b2z b2) 8))) (b2z b3) = be_decode [b0; b1; b2; b3].
Proof.
  unfold be_decode. simpl.
  pose proof (b2z_range b0). pose proof (b2z_range b1).
  pose proof (b2z_range b2). pose proof (b2z_range b3).
  rewrite !Z.shiftl_mul_pow2 by lia. rewrite !u32_small by lia.
  rewrite (lor_mul_add (b2z b0) _ 24) by lia.
  replace (b2z b0 * 2 ^ 24 + b2z b1 * 2 ^ 16) with ((b2z b0 * 256 + b2z b1) * 2 ^ 16) by lia.
  rewrite (lor_mul_add _ _ 16) by lia.
  replace ((b2z b0 * 256 + b2z b1) * 2 ^ 16 + b2z b2 * 2 ^ 8)
    with (((b2z b0 * 256 + b2z b1) * 256 + b2z b2) * 2 ^ 8) by lia.
  rewrite (lor_mul_add _ _ 8) by lia. lia.
Qed.

(** ** Boolean tests of every element *)

Lemma forallb_Forall {A} (f : A -> bool) l :
  forallb f l = true <-> Forall (fun x => f x = true) l.
Proof.
  induction l as [|x l IH]; simpl; [done|].
  rewrite andb_true_iff, IH, Forall_cons. done.
Qed.

(** ** Sums over a map *)

Section map_sum.
Context {A : Type} (f : A -> Z).

Definition map_sum (m : gmap Z A) : Z := map_fold (fun _ x acc => f x + acc) 0 m.

Lemma map_sum_empty : map_sum ∅ = 0.
Proof. apply map_fold_empty. Qed.

Lemma map_sum_insert m k x : m !! k = None -> map_sum (<[k := x]> m) = f x + map_sum m.
Proof.
  intros H. unfold map_sum. rewrite map_fold_insert_L; [done| |done].
  intros; lia.
Qed.

Lemma map_sum_delete m k y : m !! k = Some y -> map_sum m = f y + map_sum (delete k m).
Proof.
  intros H. rewrite <-(insert_delete_id m k y H) at 1.
  rewrite map_sum_insert; [done|]. apply lookup_delete_eq.
Qed.

Lemma map_sum_update m k x y :
  m !! k = Some y -> map_sum (<[k := x]> m) = map_sum m - f y + f x.
Proof.
  intros H. rewrite <-insert_delete_eq, map_sum_insert by apply lookup_delete_eq.
  rewrite (map_sum_delete m k y H). lia.
Qed.

Lemma map_sum_nonneg m : (forall k x, m !! k = Some x -> 0 <= f x) -> 0 <= map_sum m.
Proof.
  induction m as [|k x m Hk IH] using map_ind; intros H; [rewrite map_sum_empty; lia|].
  rewrite map_sum_insert by done. assert (0 <= f x) by (apply (H k); apply lookup_insert_eq).
  assert (0 <= map_sum m); [|lia]. apply IH. intros k' x' H'.
  apply (H k'). rewrite lookup_insert_ne; [done|]. intros ->. congruence.
Qed.

Lemma map_sum_lookup m k y :
  (forall k x, m !! k = Some x -> 0 <= f x) -> m !! k = Some y -> f y <= map_sum m.
Proof.
  intros H Hy. rewrite (map_sum_delete m k y Hy).
  assert (0 <= map_sum (delete k m)); [|lia]. apply map_sum_nonneg.
  intros k' x. rewrite lookup_delete. case_decide; [done|]. apply H.
Qed.

Lemma map_sum_zero m : (forall k x, m !! k = Some x -> f x = 0) -> map_sum m = 0.
Proof.
  induction m as [|k x m Hk IH] using map_ind; intros H; [apply map_sum_empty|].
  rewrite map_sum_insert, (H k x) by (done || apply lookup_insert_eq). apply IH.
  intros k' x' H'. apply (H k'). rewrite lookup_insert_ne; [done|]. intros ->. congruence.
Qed.
End map_sum.

(** Wrap-around is a congruence. *)
Lemma u64_add_l a b : u64 (u64 a + b) = u64 (a + b).
Proof. unfold u64. apply Zplus_mod_idemp_l. Qed.

Lemma u64_sub_l a b : u64 (u64 a - b) = u64 (a - b).
Proof. unfold u64. apply Zminus_mod_idemp_l. Qed.

(** ** Sums over a list *)

Section list_sum.
Context {A : Type}.
Implicit Types (f g : A -> Z) (l : list A).

Definition list_sum f l : Z := foldr (fun x acc => f x + acc) 0 l.

Lemma list_sum_app f l k : list_sum f (l ++ k) = list_sum f l + list_sum f k.
Proof. induction l as [|x l IH]; simpl; [done|]. rewrite IH. lia. Qed.

Lemma list_sum_insert f l i x y :
  l !! i = Some x -> list_sum f (<[i := y]> l) = list_sum f l - f x + f y.
Proof.
  revert i. induction l as [|z l IH]; intros [|i] H; simpl in *; simplify_eq; [lia|].
  rewrite (IH i) by done. lia.
Qed.

Lemma list_sum_nonneg f l : (forall x, 0 <= f x) -> 0 <= list_sum f l.
Proof. intros H. induction l as [|x l IH]; simpl; [done|]. specialize (H x). lia. Qed.

Lemma list_sum_le f g l : (forall x, f x <= g x) -> list_sum f l <= list_sum g l.
Proof. intros H. induction l as [|x l IH]; simpl; [done|]. specialize (H x). lia. Qed.

Lemma list_sum_lookup f l i x : (forall y, 0 <= f y) -> l !! i = Some x -> f x <= list_sum f l.
Proof.
  intros H. revert i. induction l as [|z l IH]; intros [|i] Hi; simpl in *; simplify_eq.
  - pose proof (list_sum_nonneg f l H). lia.
  - specialize (IH i Hi). specialize (H z). lia.
Qed.

(** When [x] alone carries the weight [g], it alone carries any weight below. *)
Lemma list_sum_only f g l i x :
  (forall y, 0 <= f y) -> (forall y, 0 <= g y) -> (forall y, g y = 0 -> f y = 0) ->
  l !! i = Some x -> list_sum g l <= g x -> list_sum f l = f x.
Proof.
  intros Hf Hg H. revert i. induction l as [|z l IH]; intros [|i] Hi L; simpl in *; simplify_eq.
  - pose proof (list_sum_nonneg g l Hg). assert (Z : list_sum g l = 0) by lia.
    assert (list_sum f l = 0); [|lia]. clear -Z Hg H. induction l as [|y l IH]; simpl in *; [done|].
    pose proof (list_sum_nonneg g l Hg). pose proof (Hg y). rewrite (H y), IH by lia. done.
  - pose proof (list_sum_lookup g l i x Hg Hi). pose proof (Hg z). rewrite (H z), (IH i) by (done || lia).
    lia.
Qed.

Lemma list_sum_two f l i j x y :
  (forall z, 0 <= f z) -> i <> j -> l !! i = Some x -> l !! j = Some y -> f x + f y <= list_sum f l.
Proof.
  intros H. revert i j. induction l as [|z l IH]; intros [|i] [|j] Hij Hi Hj; simpl in *; simplify_eq.
  - pose proof (list_sum_lookup f l j y H Hj). lia.
  - pose proof (list_sum_lookup f l i x H Hi). lia.
  - specialize (IH i j ltac:(lia) Hi Hj). specialize (H z). lia.
Qed.

Lemma list_sum_Forall_zero f l : Forall (fun x => f x = 0) l -> list_sum f l = 0.
Proof. induction 1 as [|x l H F IH]; simpl; [done|]. by rewrite H, IH. Qed.

Lemma list_sum_positive f l : 0 < list_sum f l -> exists i x, l !! i = Some x /\ 0 < f x.
Proof.
  induction l as [|z l IH]; simpl; intros H; [lia|]. destruct (Z_lt_dec 0 (f z)).
  - by exists 0%nat, z.
  - destruct IH as (i & x & Hi & Hx); [lia|]. by exists (S i), x.
Qed.

Lemma list_sum_zero f l : (forall y, 0 <= f y) -> (forall x, x ∈ l -> f x = 0) <-> list_sum f l <= 0.
Proof.
  intros Hf. induction l as [|y l IH]; simpl.
  { split; [done|]. intros _ x H. by apply not_elem_of_nil in H. }
  pose proof (list_sum_nonneg f l Hf). pose proof (Hf y). split.
  - intros H1. rewrite (H1 y) by left. apply IH. intros x Hx. apply H1. by right.
  - intros H1 x Hx. apply elem_of_cons in Hx as [->|Hx]; [lia|]. apply IH; [lia|done].
Qed.
End list_sum.
