(* ===== verification/Framing.v ===== *)
(** * Raw TCP framing: [LengthPrefixedAccumulator] (src/src/protocol/framing.hpp)

    The accumulator keeps the received bytes in [buffer_]; [cursor_] is the
    number of bytes of [buffer_] already handed out.  The abstract state is
    [pending], the bytes behind the cursor; [Next] refines [next_spec], a
    function of the pending bytes alone. *)

From S2P Require Import Prelude.

Inductive FrameDecodeStatus :=
  NeedMoreData | MessageReady | InvalidLength | BufferLimitExceeded.

#[export] Instance FrameDecodeStatus_eq_dec : EqDecision FrameDecodeStatus.
Proof. solve_decision. Defined.

Record LengthPrefixedAccumulator := mkAccumulator {
  max_message_bytes_ : Z;
  max_buffered_bytes_ : Z;
  buffer_ : list byte;
  cursor_ : Z;
  limit_exceeded_ : bool;
}.

Definition HeaderSize : Z := 4.

Definition construct (max_message_bytes max_buffered_bytes : Z) :=
  mkAccumulator max_message_bytes max_buffered_bytes [] 0 false.

Definition set_data (buf : list byte) (cur : Z) (a : LengthPrefixedAccumulator) :=
  mkAccumulator (max_message_bytes_ a) (max_buffered_bytes_ a) buf cur (limit_exceeded_ a).

Definition set_limit_exceeded (b : bool) (a : LengthPrefixedAccumulator) :=
  mkAccumulator (max_message_bytes_ a) (max_buffered_bytes_ a) (buffer_ a) (cursor_ a) b.

Definition BufferedBytes (a : LengthPrefixedAccumulator) : Z :=
  (size_of (buffer_ a) - cursor_ a)%u64.

Definition CompactIfUseful (a : LengthPrefixedAccumulator) : LengthPrefixedAccumulator :=
  if cursor_ a =? 0 then a
  else if cursor_ a =? size_of (buffer_ a) then set_data [] 0 a
  else if (4096 <=? cursor_ a) && (size_of (buffer_ a) <=? (cursor_ a * 2)%u64)
  then set_data (zdrop (cursor_ a) (buffer_ a)) 0 a
  else a.

Definition Append (bytes : list byte) (a : LengthPrefixedAccumulator)
  : bool * LengthPrefixedAccumulator :=
  let a := CompactIfUseful a in
  let available := (size_of (buffer_ a) - cursor_ a)%u64 in
  if (max_buffered_bytes_ a <? size_of bytes)
     || ((max_buffered_bytes_ a - size_of bytes)%u64 <? available)
  then (false, set_limit_exceeded true a)
  else (true, set_data (buffer_ a ++ bytes) (cursor_ a) a).

(** [header[0] << 24 | header[1] << 16 | header[2] << 8 | header[3]] *)
Definition decode_length (header : list byte) : Z :=
  Z.lor (Z.lor (Z.lor (u32 (Z.shiftl (b2z (header !!! 0%nat)) 24))
                      (u32 (Z.shiftl (b2z (header !!! 1%nat)) 16)))
               (u32 (Z.shiftl (b2z (header !!! 2%nat)) 8)))
        (b2z (header !!! 3%nat)).

Definition Next (a : LengthPrefixedAccumulator)
  : FrameDecodeStatus * list byte * LengthPrefixedAccumulator :=
  if limit_exceeded_ a then (BufferLimitExceeded, [], a) else
  let available := (size_of (buffer_ a) - cursor_ a)%u64 in
  if available <? HeaderSize then (NeedMoreData, [], a) else
  let header := zdrop (cursor_ a) (buffer_ a) in
  let length := decode_length header in
  if (length =? 0) || (max_message_bytes_ a <? length) then (InvalidLength, [], a) else
  if (available - HeaderSize)%u64 <? length then (NeedMoreData, [], a) else
  let payload := ztake length (zdrop HeaderSize header) in
  (MessageReady, payload,
   set_data (buffer_ a) (cursor_ a + (HeaderSize + length))%u64 a).

Definition Reset (a : LengthPrefixedAccumulator) : LengthPrefixedAccumulator :=
  set_limit_exceeded false (set_data [] 0 a).

(** [None] is the thrown [std::length_error]. *)
Definition EncodeLength (length : Z) : option (list byte) :=
  if 4294967295 <? length then None else
  let value := u32 length in
  Some [ z2b (Z.land (Z.shiftr value 24) 255);
         z2b (Z.land (Z.shiftr value 16) 255);
         z2b (Z.land (Z.shiftr value 8) 255);
         z2b (Z.land value 255) ].

(** ** Abstract specification: a function of the pending bytes *)

Definition pending (a : LengthPrefixedAccumulator) : list byte :=
  zdrop (cursor_ a) (buffer_ a).

Definition next_spec (max : Z) (p : list byte) : FrameDecodeStatus * list byte * list byte :=
  if size_of p <? 4 then (NeedMoreData, [], p) else
  let n := be_decode (take 4 p) in
  if (n =? 0) || (max <? n) then (InvalidLength, [], p) else
  if size_of p <? 4 + n then (NeedMoreData, [], p) else
  (MessageReady, ztake n (zdrop 4 p), zdrop (4 + n) p).

(** The wire form of one message. *)
Definition frame (m : list byte) : list byte := be_encode 4 (size_of m) ++ m.

Definition valid_message (max : Z) (m : list byte) : Prop :=
  1 <= size_of m <= max /\ size_of m <= 4294967295.

(** [drains max p ms st r]: taking frames off [p] until [Next] does not return
    a message gives the messages [ms], stops with [st] and leaves [r]. *)
Inductive drains (max : Z) : list byte -> list (list byte) -> FrameDecodeStatus -> list byte -> Prop :=
| drains_stop p st m r :
    next_spec max p = (st, m, r) -> st <> MessageReady -> drains max p [] st r
| drains_message p m p' ms st r :
    next_spec max p = (MessageReady, m, p') ->
    drains max p' ms st r -> drains max p (m :: ms) st r.

(** ** Invariant

    The cursor stays inside the buffer, the pending bytes are within the
    buffered-bytes limit, and the storage is at most twice that limit (or the
    limit plus the 4095 bytes compaction may leave behind). *)
Record wf (a : LengthPrefixedAccumulator) : Prop := {
  wf_max_message : is_u64 (max_message_bytes_ a);
  wf_max_buffered : 0 <= max_buffered_bytes_ a <= 4611686018427387904;
  wf_cursor : 0 <= cursor_ a <= size_of (buffer_ a);
  wf_pending : size_of (buffer_ a) - cursor_ a <= max_buffered_bytes_ a;
  wf_storage : size_of (buffer_ a) <=
    max_buffered_bytes_ a + Z.max 4095 (max_buffered_bytes_ a);
}.

Definition same_config (a b : LengthPrefixedAccumulator) : Prop :=
  max_message_bytes_ a = max_message_bytes_ b /\
  max_buffered_bytes_ a = max_buffered_bytes_ b.

Ltac wf_inv H := destruct H as [? ? ? ? ?].

(** ** Lemmas *)

Lemma decode_length_be header :
  (4 <= length header)%nat -> decode_length header = be_decode (take 4 header).
Proof.
  destruct header as [|b0 [|b1 [|b2 [|b3 r]]]]; simpl; try lia. intros _.
  unfold decode_length. cbn [take]. rewrite <-be_word. done.
Qed.

Lemma EncodeLength_be n :
  0 <= n <= 4294967295 -> EncodeLength n = Some (be_encode 4 n).
Proof.
  intros Hn. unfold EncodeLength. split_if; [lia|].
  rewrite u32_small by lia. unfold be_encode. f_equal.
  rewrite !land_255, !z2b_mod, !Z.shiftr_div_pow2 by lia.
  repeat (f_equal; try lia). rewrite Z.div_1_r. done.
Qed.

Lemma size_pending a : wf a -> size_of (pending a) = size_of (buffer_ a) - cursor_ a.
Proof. intros H. wf_inv H. apply size_zdrop. lia. Qed.

Lemma accumulator_construct_wf mm mb :
  is_u64 mm -> 0 <= mb <= 4611686018427387904 -> wf (construct mm mb).
Proof. intros. constructor; simpl; try done; size_simpl; lia. Qed.

(** What compaction may leave: the cursor is below 4096 or below the number of
    pending bytes. *)
Lemma CompactIfUseful_spec a :
  wf a ->
  wf (CompactIfUseful a) /\ same_config a (CompactIfUseful a) /\
  pending (CompactIfUseful a) = pending a /\
  limit_exceeded_ (CompactIfUseful a) = limit_exceeded_ a /\
  cursor_ (CompactIfUseful a) <=
    Z.max 4095 (size_of (buffer_ (CompactIfUseful a)) - cursor_ (CompactIfUseful a)).
Proof.
  intros H. pose proof H as W. wf_inv H. unfold CompactIfUseful, same_config.
  split_if; [split_and!; try done; lia|].
  split_if.
  - split_and!; simpl; try done; size_simpl; try lia.
    + constructor; simpl; size_simpl; try done; lia.
    + unfold pending. simpl. rewrite Hif0. symmetry. apply zdrop_all.
  - rewrite umul_small by u64_side. split_if.
    + split_and!; simpl; try done; rewrite ?size_zdrop by lia; try lia.
      constructor; simpl; rewrite ?size_zdrop by lia; try done; lia.
    + split_and!; try done. simpl in *. destruct Hif1; lia.
Qed.

Lemma Append_spec a bytes :
  wf a ->
  let '(ok, a') := Append bytes a in
  wf a' /\ same_config a a' /\
  if ok then
    size_of (pending a) + size_of bytes <= max_buffered_bytes_ a /\
    pending a' = pending a ++ bytes /\ limit_exceeded_ a' = limit_exceeded_ a
  else
    max_buffered_bytes_ a < size_of (pending a) + size_of bytes /\
    pending a' = pending a /\ limit_exceeded_ a' = true.
Proof.
  intros H. destruct (CompactIfUseful_spec a H) as (W & [S1 S2] & P & L & C).
  pose proof (size_pending _ W) as SP. rewrite P in SP.
  unfold Append. remember (CompactIfUseful a) as c. wf_inv W.
  pose proof (size_nonneg bytes).
  rewrite (usub_small (size_of (buffer_ c))) by u64_side.
  split_if.
  - split; [constructor; done|]. split; [split; done|].
    rewrite S2. split; [|split; [exact P|done]].
    destruct Hif as [Hif|Hif]; [lia|].
    destruct (Z.lt_ge_cases (max_buffered_bytes_ c) (size_of bytes)); [lia|].
    u64_simpl_in Hif. lia.
  - destruct Hif as [Hif1 Hif2]. u64_simpl_in Hif2. split.
    + constructor; simpl; rewrite ?size_app; u64_side.
    + split; [split; done|]. rewrite S2. split; [lia|]. split; [|exact L].
      unfold pending at 1. simpl. rewrite zdrop_app_le by lia. rewrite <-P. done.
Qed.

(** [Next] computes [next_spec] of the pending bytes and keeps the invariant. *)
Lemma Next_spec a :
  wf a -> limit_exceeded_ a = false ->
  let '(st, m, a') := Next a in
  next_spec (max_message_bytes_ a) (pending a) = (st, m, pending a') /\
  wf a' /\ same_config a a' /\ limit_exceeded_ a' = false.
Proof.
  intros H L. pose proof H as W. pose proof (size_pending a H) as SP. wf_inv H.
  unfold Next, next_spec, HeaderSize. rewrite L. fold (pending a).
  rewrite usub_small by u64_side. rewrite <-SP. split_if; [done|].
  assert (4 <= length (pending a))%nat by (unfold size_of in *; lia).
  rewrite decode_length_be by done.
  remember (be_decode (take 4 (pending a))) as n eqn:Hn.
  assert (0 <= n < 4294967296).
  { subst n. pose proof (be_decode_range (take 4 (pending a))) as B.
    unfold size_of in B. rewrite length_take_le in B by lia. lia. }
  split_if; [done|]. rewrite (usub_small (size_of (pending a))) by u64_side.
  destruct (size_of (pending a) - 4 <? n) eqn:E1;
    destruct (size_of (pending a) <? 4 + n) eqn:E2; prop_of E1; prop_of E2; try lia; [done|].
  rewrite (uadd_small 4) by u64_side. rewrite uadd_small by u64_side.
  split; [|split; [constructor; simpl; u64_side|done]].
  f_equal. unfold pending at 1 2. simpl. rewrite zdrop_zdrop by lia. done.
Qed.

(** ** Streams of frames *)

(** The receive loop of [ProcessRaw]: take messages until [Next] has none.
    [None] means the fuel ran out. *)
Fixpoint drain (fuel : nat) (a : LengthPrefixedAccumulator)
  : option (list (list byte) * FrameDecodeStatus * LengthPrefixedAccumulator) :=
  match fuel with
  | O => None
  | S fuel =>
      match Next a with
      | (MessageReady, m, a') =>
          '(ms, st, a'') ← drain fuel a'; Some (m :: ms, st, a'')
      | (st, _, a') => Some ([], st, a')
      end
  end.

(** One [Append] and one receive loop per chunk read from the socket. *)
Fixpoint feed (chunks : list (list byte)) (a : LengthPrefixedAccumulator)
  : option (list (list byte) * FrameDecodeStatus * LengthPrefixedAccumulator) :=
  match chunks with
  | [] => Some ([], NeedMoreData, a)
  | c :: chunks =>
      let '(ok, a1) := Append c a in
      if negb ok then Some ([], BufferLimitExceeded, a1) else
      '(ms, st, a2) ← drain (S (length (buffer_ a1))) a1;
      match st with
      | NeedMoreData => '(ms', st', a3) ← feed chunks a2; Some (ms ++ ms', st', a3)
      | _ => Some (ms, st, a2)
      end
  end.

Lemma frame_length_prefix m k :
  size_of m <= 4294967295 -> take 4 (frame m ++ k) = be_encode 4 (size_of m).
Proof. intros. unfold frame. rewrite <-app_assoc. apply take_app_length'. done. Qed.

Lemma next_spec_frame max m k :
  valid_message max m -> next_spec max (frame m ++ k) = (MessageReady, m, k).
Proof.
  intros [[H1 H2] H3]. pose proof (size_nonneg k). unfold next_spec.
  assert (S : size_of (frame m) = 4 + size_of m).
  { unfold frame. rewrite size_app. unfold size_of at 1. rewrite length_be_encode. done. }
  rewrite frame_length_prefix, be_decode_encode by done.
  rewrite Z.mod_small by (change (256 ^ Z.of_nat 4) with 4294967296; lia).
  rewrite size_app, S. split_if; [lia|]. split_if; [lia|]. split_if; [lia|].
  rewrite (zdrop_app_exact (4 + size_of m)) by done. unfold frame. rewrite <-app_assoc.
  rewrite (zdrop_app_exact 4) by (unfold size_of; rewrite length_be_encode; done).
  rewrite ztake_app_exact by done. done.
Qed.

(** A message taken is a frame taken off. *)
Lemma next_spec_ready max p m p' :
  next_spec max p = (MessageReady, m, p') -> p = frame m ++ p' /\ valid_message max m.
Proof.
  unfold next_spec. intros H. repeat (split_if_in H; try congruence).
  set (n := be_decode (take 4 p)) in *.
  assert (L : (4 <= length p)%nat) by (unfold size_of in *; lia).
  assert (L4 : length (take 4 p) = 4%nat) by (rewrite length_take; lia).
  pose proof (be_decode_range (take 4 p)) as B. unfold size_of in B at 1. rewrite L4 in B. fold n in B.
  change (256 ^ Z.of_nat 4) with 4294967296 in B.
  injection H as <- <-.
  assert (S : size_of (ztake n (zdrop 4 p)) = n)
    by (rewrite size_ztake; [done|rewrite size_zdrop by lia; lia]).
  split; [|unfold valid_message; rewrite S; lia].
  unfold frame. rewrite S. unfold n at 1. rewrite <-L4 at 1. rewrite be_encode_decode, <-app_assoc.
  replace (zdrop (4 + n) p) with (zdrop n (zdrop 4 p)) by (rewrite zdrop_zdrop by lia; f_equal; lia).
  rewrite ztake_zdrop. symmetry. apply take_drop.
Qed.

Lemma next_spec_app max p q st m p' :
  next_spec max p = (st, m, p') -> st <> NeedMoreData ->
  next_spec max (p ++ q) = (st, m, p' ++ q).
Proof.
  unfold next_spec. intros H Hst. pose proof (size_nonneg q). rewrite size_app.
  destruct (size_of p <? 4) eqn:E4; prop_of E4; [congruence|].
  assert (L : (4 <= length p)%nat) by (unfold size_of in *; lia).
  rewrite take_app_le by done. split_if; [lia|].
  pose proof (be_decode_range (take 4 p)).
  split_if; [simplify_eq; done|].
  destruct (size_of p <? 4 + be_decode (take 4 p)) eqn:E; prop_of E; [congruence|].
  split_if; [lia|]. simplify_eq.
  rewrite !zdrop_app_le by lia. rewrite ztake_app_le; [done|].
  rewrite size_zdrop by lia. lia.
Qed.

Lemma next_spec_stop_rest max p st m r :
  next_spec max p = (st, m, r) -> st <> MessageReady -> r = p.
Proof. unfold next_spec. repeat split_if; congruence. Qed.

Lemma next_spec_need_more_size max p m r :
  0 <= max -> next_spec max p = (NeedMoreData, m, r) -> size_of p < 4 + Z.max max 1.
Proof.
  unfold next_spec. intros. repeat (split_if_in H0; try congruence); lia.
Qed.

Lemma next_spec_shrinks max p m r :
  next_spec max p = (MessageReady, m, r) -> (length r < length p)%nat.
Proof.
  unfold next_spec. intros H. repeat (split_if_in H; try congruence). simplify_eq.
  pose proof (be_decode_range (take 4 p)).
  unfold zdrop. rewrite length_drop. unfold size_of in *. lia.
Qed.

Lemma drains_app max p q ms ms' r st r' :
  drains max p ms NeedMoreData r -> drains max (r ++ q) ms' st r' ->
  drains max (p ++ q) (ms ++ ms') st r'.
Proof.
  remember NeedMoreData as s eqn:Hs. induction 1 as [p ? m ? N Hst|p m p' ms ? r N D IH]; intros D'.
  - rewrite (next_spec_stop_rest _ _ _ _ _ N Hst) in D'. done.
  - simpl. eapply drains_message; [|by apply IH].
    eapply next_spec_app; [exact N|done].
Qed.

Lemma drains_stop_app max p q ms st r :
  drains max p ms st r -> st <> NeedMoreData -> drains max (p ++ q) ms st (r ++ q).
Proof.
  induction 1 as [p st m r N Hst|p m p' ms st r N D IH]; intros Hnm.
  - eapply drains_stop; [|done]. eapply next_spec_app; done.
  - eapply drains_message; [|by apply IH]. eapply next_spec_app; done.
Qed.

Lemma drains_det max p ms st r ms' st' r' :
  drains max p ms st r -> drains max p ms' st' r' -> ms = ms' /\ st = st' /\ r = r'.
Proof.
  intros D. revert ms' st' r'.
  induction D as [p st m r N Hst|p m p' ms st r N D IH]; intros ms' st' r' D';
    inversion D' as [? ? ? ? N' Hst'|? ? ? ? ? ? N' D'']; subst;
    rewrite N in N'; simplify_eq; try done.
  destruct (IH _ _ _ D'') as (-> & -> & ->). done.
Qed.

Lemma drains_split max p q ms1 r1 ms st r :
  drains max p ms1 NeedMoreData r1 -> drains max (p ++ q) ms st r ->
  exists ms2, ms = ms1 ++ ms2 /\ drains max (r1 ++ q) ms2 st r.
Proof.
  remember NeedMoreData as s eqn:Hs. intros D1. revert ms.
  induction D1 as [p ? m r0 N Hst|p m p' ms1 ? r0 N D1 IH]; intros ms D.
  - pose proof (next_spec_stop_rest _ _ _ _ _ N Hst). subst. eauto.
  - apply (next_spec_app _ _ q) in N; [|done].
    inversion D as [? ? ? ? N' Hst|? ? ? ? ? ? N' D']; subst;
      rewrite N in N'; simplify_eq.
    destruct (IH eq_refl _ D') as (ms2 & -> & D2). eauto.
Qed.

Lemma drains_frames max ps tail :
  Forall (valid_message max) ps -> next_spec max tail = (NeedMoreData, [], tail) ->
  drains max (concat (map frame ps) ++ tail) ps NeedMoreData tail.
Proof.
  induction 1 as [|m ps Hm _ IH]; intros Ht; simpl.
  - eapply drains_stop; [exact Ht|done].
  - rewrite <-app_assoc. eapply drains_message; [by apply next_spec_frame|]. by apply IH.
Qed.

Lemma drains_rest_need_more max p ms r :
  drains max p ms NeedMoreData r -> exists m, next_spec max r = (NeedMoreData, m, r).
Proof.
  remember NeedMoreData as s eqn:Hs. induction 1 as [p st m r N Hst|]; [|eauto].
  pose proof (next_spec_stop_rest _ _ _ _ _ N Hst). subst. eauto.
Qed.

(** The loop terminates within its fuel and computes [drains]. *)
Lemma drain_spec fuel a :
  wf a -> limit_exceeded_ a = false -> (length (pending a) < fuel)%nat ->
  exists ms st a',
    drain fuel a = Some (ms, st, a') /\
    drains (max_message_bytes_ a) (pending a) ms st (pending a') /\
    wf a' /\ same_config a a' /\ limit_exceeded_ a' = false.
Proof.
  revert a. induction fuel as [|fuel IH]; intros a W L Hf; [lia|].
  simpl. pose proof (Next_spec a W L) as N. destruct (Next a) as [[st m] a1].
  destruct N as (N & W1 & C1 & L1).
  destruct (decide (st = MessageReady)) as [->|Hst].
  - destruct (IH a1 W1 L1) as (ms & st' & a2 & E & D & W2 & C2 & L2).
    { apply next_spec_shrinks in N. lia. }
    rewrite E. simpl. eexists _, _, _. split; [done|].
    destruct C1 as [C1 ?], C2 as [C2 ?]. rewrite C1 in *.
    split; [by eapply drains_message|]. split_and!; try done. split; congruence.
  - exists [], st, a1. split; [by destruct st|].
    split; [by eapply drains_stop|]. done.
Qed.

Lemma pending_length a : (length (pending a) <= length (buffer_ a))%nat.
Proof. unfold pending, zdrop. rewrite length_drop. lia. Qed.

(** Feeding chunks of at most [k] bytes, [k + max_message + 4] within the
    buffer limit, computes [drains] of the concatenated stream. *)
Lemma feed_spec chunks k a ms r :
  wf a -> limit_exceeded_ a = false ->
  Forall (fun c => size_of c <= k) chunks ->
  k + Z.max (max_message_bytes_ a) 1 + 4 <= max_buffered_bytes_ a ->
  (exists m, next_spec (max_message_bytes_ a) (pending a) = (NeedMoreData, m, pending a)) ->
  drains (max_message_bytes_ a) (pending a ++ concat chunks) ms NeedMoreData r ->
  exists a', feed chunks a = Some (ms, NeedMoreData, a') /\
    pending a' = r /\ wf a' /\ limit_exceeded_ a' = false.
Proof.
  intros W L F K. revert a ms W L K.
  induction F as [|c chunks Hc F IH]; intros a ms W L K [m0 N0] D; cbn [feed].
  - simpl in D. rewrite app_nil_r in D. destruct (drains_det _ _ _ _ _ [] NeedMoreData (pending a) D)
      as (-> & _ & ->); [by eapply drains_stop|]. eauto.
  - pose proof (Append_spec a c W) as A. destruct (Append c a) as [ok a1].
    destruct A as (W1 & [C1 C1'] & A).
    apply next_spec_need_more_size in N0; [|apply W].
    destruct ok; [|lia]. destruct A as (_ & P1 & L1). cbn [negb].
    destruct (drain_spec (S (length (buffer_ a1))) a1) as (ms1 & st & a2 & E & D1 & W2 & [C2 C2'] & L2);
      [done|congruence|pose proof (pending_length a1); lia|].
    rewrite E. simpl. simpl in D. rewrite app_assoc, <-P1, C1 in D.
    destruct (decide (st = NeedMoreData)) as [->|Hst].
    + destruct (drains_rest_need_more _ _ _ _ D1) as [m1 N1].
      destruct (drains_split _ _ _ _ _ _ _ _ D1 D) as (ms2 & -> & D2).
      rewrite C2 in *.
      destruct (IH a2 ms2) as (a3 & E3 & P3 & W3 & L3); try done; [lia|eauto|].
      rewrite E3. simpl. eauto 10.
    + destruct (drains_det _ _ _ _ _ _ _ _ D (drains_stop_app _ _ (concat chunks) _ _ _ D1 Hst))
        as (_ & <- & _). done.
Qed.

(** ** Properties *)

(** Raw TCP framing delivers exactly the messages sent, whatever the chunk
    boundaries: any split of the wire form of valid messages [ps] followed by
    an incomplete frame [tail] into reads of at most [k] bytes makes the
    receive loop deliver [ps] in order, never trip the buffer limit, and keep
    exactly [tail] pending. *)
Theorem raw_stream_delivery mm mb k chunks ps tail :
  is_u64 mm -> 0 <= mb <= 4611686018427387904 ->
  k + Z.max mm 1 + 4 <= mb ->
  Forall (fun c => size_of c <= k) chunks ->
  Forall (valid_message mm) ps ->
  next_spec mm tail = (NeedMoreData, [], tail) ->
  concat chunks = concat (map frame ps) ++ tail ->
  exists a, feed chunks (construct mm mb) = Some (ps, NeedMoreData, a) /\ pending a = tail.
Proof.
  intros Hm Hb Hk Hc Hps Ht E.
  destruct (feed_spec chunks k (construct mm mb) ps tail) as (a & F & P & _);
    [by apply accumulator_construct_wf|done|done|done|by exists []| |by eauto].
  change (pending (construct mm mb)) with (@nil byte). simpl. rewrite E. by apply drains_frames.
Qed.

(** Every operation keeps the invariant: the cursor stays in the buffer,
    the pending bytes within [max_buffered_bytes], the storage within twice
    that limit (or the limit plus 4095). *)
Theorem framing_invariant a bytes :
  wf a ->
  wf (Append bytes a).2 /\ wf (Next a).2 /\ wf (Reset a) /\
  BufferedBytes a = size_of (pending a) /\ BufferedBytes a <= max_buffered_bytes_ a.
Proof.
  intros W. pose proof (Append_spec a bytes W) as A.
  destruct (Append bytes a) as [ok a1]. simpl.
  split_and!; [apply A| | | |].
  - destruct (limit_exceeded_ a) eqn:L.
    + unfold Next. rewrite L. done.
    + pose proof (Next_spec a W L) as N. destruct (Next a) as [[st m] a2]. apply N.
  - wf_inv W. constructor; simpl; size_simpl; try done; lia.
  - rewrite size_pending by done. wf_inv W. unfold BufferedBytes. u64_simpl. done.
  - wf_inv W. unfold BufferedBytes. u64_simpl. done.
Qed.

(** The two framing failures are reported and stay: a refused [Append]
    means the limit would be passed, consumes nothing, and makes every later
    [Next] return [BufferLimitExceeded] until [Reset]; a zero or oversized
    length prefix gives [InvalidLength] whatever follows it, and the frame is
    not consumed. *)
Theorem framing_errors a bytes :
  wf a ->
  (forall a', Append bytes a = (false, a') ->
     max_buffered_bytes_ a < size_of (pending a) + size_of bytes /\
     pending a' = pending a /\ Next a' = (BufferLimitExceeded, [], a') /\
     limit_exceeded_ (Reset a') = false) /\
  (forall a', Append bytes a = (true, a') -> limit_exceeded_ a = false ->
     4 <= size_of (pending a) ->
     let n := be_decode (take 4 (pending a)) in
     (n = 0 \/ max_message_bytes_ a < n) ->
     Next a = (InvalidLength, [], a) /\ Next a' = (InvalidLength, [], a')).
Proof.
  intros W. pose proof (Append_spec a bytes W) as A. split; intros a' E; rewrite E in A;
    destruct A as (W' & [C1 C2] & A1 & A2 & A3).
  - split_and!; try done. unfold Next. rewrite A3. done.
  - intros L S n Hn.
    assert (H : forall c, wf c -> limit_exceeded_ c = false -> 4 <= size_of (pending c) ->
      take 4 (pending c) = take 4 (pending a) -> max_message_bytes_ c = max_message_bytes_ a ->
      Next c = (InvalidLength, [], c)).
    { intros c Wc Lc Sc Tc Mc. pose proof (size_pending c Wc) as SP. unfold Next, HeaderSize.
      rewrite Lc. wf_inv Wc. rewrite usub_small by u64_side.
      rewrite <-SP. split_if; [lia|]. fold (pending c).
      rewrite decode_length_be by (unfold size_of in *; lia). rewrite Tc, Mc. fold n.
      split_if; [done|lia]. }
    split; apply H; try done; try congruence.
    + rewrite A2, size_app. pose proof (size_nonneg bytes). lia.
    + rewrite A2. apply take_app_le. unfold size_of in *. lia.
Qed.

(** The length prefix round-trips: [EncodeLength] of a payload size is
    decoded by [Next] to the same size, and throws exactly when the size does
    not fit 32 bits. *)
Theorem length_prefix_roundtrip n :
  0 <= n ->
  (EncodeLength n = None <-> 4294967295 < n) /\
  (forall h rest, EncodeLength n = Some h -> length h = 4%nat /\ decode_length (h ++ rest) = n).
Proof.
  intros Hn. split.
  - unfold EncodeLength. split_if; split; intros; done || lia.
  - intros h rest E. destruct (Z.lt_ge_cases 4294967295 n) as [Hgt|Hle].
    + unfold EncodeLength in E. split_if_in E; [done|lia].
    + rewrite EncodeLength_be in E by lia. simplify_eq. split; [done|].
      rewrite decode_length_be by (rewrite length_app, length_be_encode; lia).
      rewrite take_app_length' by done. rewrite be_decode_encode. apply Z.mod_small.
      change (256 ^ Z.of_nat 4) with 4294967296. lia.
Qed.

(** ** Witnesses *)

Lemma raw_stream_delivery_witness :
  exists a, feed [frame (bstr "hi") ++ take 5 (frame (bstr "abc"));
                  drop 5 (frame (bstr "abc")) ++ bstr "x"] (construct 16 64)
            = Some ([bstr "hi"; bstr "abc"], NeedMoreData, a) /\ pending a = bstr "x".
Proof.
  apply (raw_stream_delivery 16 64 20); try (unfold is_u64, size_max; lia); try reflexivity;
    repeat constructor; vm_compute; intuition congruence.
Defined.

Lemma framing_invariant_witness :
  let a := (Append (frame (bstr "hi")) (construct 16 64)).2 in
  wf (Next a).2 /\ BufferedBytes a = 6.
Proof.
  simpl. destruct (framing_invariant (Append (frame (bstr "hi")) (construct 16 64)).2 [])
    as (_ & W & _).
  - constructor; vm_compute; intuition congruence.
  - split; [exact W|reflexivity].
Defined.

Lemma framing_errors_witness :
  (exists a', Append (replicate 65 Byte.x00) (construct 16 64) = (false, a') /\
     Next a' = (BufferLimitExceeded, [], a')) /\
  (let a := (Append (bstr "GET / HTTP/1.1") (construct 16 64)).2 in
   Next a = (InvalidLength, [], a)).
Proof.
  assert (W0 : wf (construct 16 64)) by (constructor; vm_compute; intuition congruence).
  split.
  - exists (set_limit_exceeded true (construct 16 64)). split; [reflexivity|].
    apply (proj1 (framing_errors (construct 16 64) (replicate 65 Byte.x00) W0)). reflexivity.
  - pose (a := (Append (bstr "GET / HTTP/1.1") (construct 16 64)).2).
    assert (W : wf a) by (constructor; vm_compute; intuition congruence).
    destruct (proj2 (framing_errors a [] W) a) as [H _]; try exact H; try reflexivity.
    + vm_compute. congruence.
    + right. vm_compute. reflexivity.
Defined.

Lemma length_prefix_roundtrip_witness :
  EncodeLength 4294967296 = None /\ decode_length (be_encode 4 70000) = 70000.
Proof.
  split.
  - apply (proj1 (length_prefix_roundtrip 4294967296 ltac:(lia))). lia.
  - apply (proj2 (length_prefix_roundtrip 70000 ltac:(lia)) (be_encode 4 70000) []). reflexivity.
Defined.
