(* ===== verification/OutboundQueue.v ===== *)
(** * Bounded outbound queues (src/src/core/outbound_queue.hpp)

    Several [OutboundQueue]s share one [GlobalQueueBudget].  Every operation
    runs under the queue's mutex, so a run is a sequence of whole operations,
    each on one of the queues: [step]. *)

From S2P Require Import Prelude.

(** [std::shared_ptr<const std::vector<uint8_t>>]; [None] is the null pointer. *)
Abbreviation SharedBuffer := (option (list byte)).

Inductive QueueResult := Accepted | SessionLimitExceeded | GlobalLimitExceeded | Closed.

#[export] Instance QueueResult_eq_dec : EqDecision QueueResult.
Proof. solve_decision. Defined.

Record GlobalQueueBudget := mkBudget { limit_ : Z; used_ : Z }.

Definition TryReserve (bytes : Z) (g : GlobalQueueBudget) : bool * GlobalQueueBudget :=
  if (limit_ g <? bytes) || ((limit_ g - bytes)%u64 <? used_ g) then (false, g)
  else (true, mkBudget (limit_ g) (used_ g + bytes)%u64).

Definition Release (bytes : Z) (g : GlobalQueueBudget) : GlobalQueueBudget :=
  mkBudget (limit_ g) (if used_ g <? bytes then 0 else (used_ g - bytes)%u64).

Record OutboundQueue := mkQueue {
  session_limit_ : Z;
  queue_ : list (list byte);   (** [std::deque<SharedBuffer>], no null inside *)
  queued_bytes_ : Z;
  closed_ : bool;
}.

Definition construct (session_limit : Z) : OutboundQueue := mkQueue session_limit [] 0 false.

Definition Push (buffer : SharedBuffer) (q : OutboundQueue) (g : GlobalQueueBudget)
  : QueueResult * OutboundQueue * GlobalQueueBudget :=
  match buffer with
  | None => (Closed, q, g)
  | Some buffer =>
      let bytes := size_of buffer in
      if closed_ q then (Closed, q, g) else
      if (session_limit_ q <? bytes) || ((session_limit_ q - bytes)%u64 <? queued_bytes_ q)
      then (SessionLimitExceeded, q, g) else
      let '(ok, g) := TryReserve bytes g in
      if negb ok then (GlobalLimitExceeded, q, g) else
      (Accepted,
       mkQueue (session_limit_ q) (queue_ q ++ [buffer]) (queued_bytes_ q + bytes)%u64 (closed_ q),
       g)
  end.

Definition Pop (q : OutboundQueue) (g : GlobalQueueBudget)
  : SharedBuffer * OutboundQueue * GlobalQueueBudget :=
  match queue_ q with
  | [] => (None, q, g)
  | value :: rest =>
      (Some value,
       mkQueue (session_limit_ q) rest (queued_bytes_ q - size_of value)%u64 (closed_ q),
       Release (size_of value) g)
  end.

Definition Close (q : OutboundQueue) (g : GlobalQueueBudget) : OutboundQueue * GlobalQueueBudget :=
  (mkQueue (session_limit_ q) [] 0 true,
   foldl (fun g buffer => Release (size_of buffer) g) g (queue_ q)).

(** ** A system of queues and its steps *)

Record system := mkSystem { budget : GlobalQueueBudget; queues : list OutboundQueue }.

Inductive step : system -> system -> Prop :=
| step_push g qs i q b r q' g' :
    qs !! i = Some q -> Push b q g = (r, q', g') ->
    step (mkSystem g qs) (mkSystem g' (<[i := q']> qs))
| step_pop g qs i q b q' g' :
    qs !! i = Some q -> Pop q g = (b, q', g') ->
    step (mkSystem g qs) (mkSystem g' (<[i := q']> qs))
| step_close g qs i q q' g' :
    qs !! i = Some q -> Close q g = (q', g') ->
    step (mkSystem g qs) (mkSystem g' (<[i := q']> qs))
| step_new g qs limit :
    is_u64 limit -> step (mkSystem g qs) (mkSystem g (qs ++ [construct limit])).

Definition initial (limit : Z) : system := mkSystem (mkBudget limit 0) [].

Definition total (l : list (list byte)) : Z := foldr (fun b acc => size_of b + acc) 0 l.
Definition sum_queued (qs : list OutboundQueue) : Z :=
  foldr (fun q acc => queued_bytes_ q + acc) 0 qs.

Record queue_wf (q : OutboundQueue) : Prop := {
  qwf_limit : is_u64 (session_limit_ q);
  qwf_bytes : queued_bytes_ q = total (queue_ q);
  qwf_bound : queued_bytes_ q <= session_limit_ q;
  qwf_closed : closed_ q = true -> queue_ q = [];
}.

Record system_wf (s : system) : Prop := {
  swf_limit : is_u64 (limit_ (budget s));
  swf_used : used_ (budget s) = sum_queued (queues s);
  swf_bound : used_ (budget s) <= limit_ (budget s);
  swf_queues : Forall queue_wf (queues s);
}.

Lemma total_nonneg l : 0 <= total l.
Proof. induction l as [|b l IH]; simpl; [lia|]. pose proof (size_nonneg b). lia. Qed.

Lemma total_app l k : total (l ++ k) = total l + total k.
Proof. induction l; simpl; lia. Qed.

Lemma sum_queued_insert qs i q q' :
  qs !! i = Some q ->
  sum_queued (<[i := q']> qs) = sum_queued qs - queued_bytes_ q + queued_bytes_ q'.
Proof.
  revert i. induction qs as [|x qs IH]; intros [|i] H; simpl in *; simplify_eq; [lia|].
  rewrite IH by done. lia.
Qed.

Lemma sum_queued_lookup qs i q :
  Forall queue_wf qs -> qs !! i = Some q -> 0 <= queued_bytes_ q <= sum_queued qs.
Proof.
  intros F. revert i. induction F as [|x qs Hx F IH]; intros [|i] H; simpl in *; simplify_eq.
  - destruct Hx as [_ -> _ _]. split; [apply total_nonneg|].
    assert (0 <= sum_queued qs); [|lia].
    clear -F. induction F as [|y qs [_ Hy _ _] F IH]; simpl; [lia|].
    pose proof (total_nonneg (queue_ y)). lia.
  - specialize (IH _ H). destruct Hx as [_ Hx _ _]. pose proof (total_nonneg (queue_ x)). lia.
Qed.

Lemma Release_all l g :
  total l <= used_ g -> used_ g <= size_max ->
  foldl (fun g buffer => Release (size_of buffer) g) g l
    = mkBudget (limit_ g) (used_ g - total l).
Proof.
  revert g. induction l as [|m l IH]; intros g Ht Hu; simpl in *.
  { destruct g. simpl. f_equal. lia. }
  pose proof (size_nonneg m). pose proof (total_nonneg l).
  assert (R : Release (size_of m) g = mkBudget (limit_ g) (used_ g - size_of m)).
  { unfold Release. split_if; [lia|]. u64_simpl. done. }
  rewrite R, IH; simpl; [f_equal| |]; lia.
Qed.

(** ** Each operation against the accounting invariant *)

Section operations.
Context (q : OutboundQueue) (g : GlobalQueueBudget).
Context (Wq : queue_wf q) (Hlim : is_u64 (limit_ g)) (Hused : 0 <= used_ g <= limit_ g).
Context (Hin : queued_bytes_ q <= used_ g).

Lemma Push_spec b :
  let '(r, q', g') := Push b q g in
  queue_wf q' /\ limit_ g' = limit_ g /\
  used_ g' - used_ g = queued_bytes_ q' - queued_bytes_ q /\
  0 <= used_ g' <= limit_ g /\
  match r with
  | Accepted => exists m, b = Some m /\ closed_ q = false /\
      queue_ q' = queue_ q ++ [m] /\ used_ g' = used_ g + size_of m /\
      queued_bytes_ q + size_of m <= session_limit_ q
  | SessionLimitExceeded => exists m, b = Some m /\ closed_ q = false /\ q' = q /\ g' = g /\
      session_limit_ q < queued_bytes_ q + size_of m
  | GlobalLimitExceeded => exists m, b = Some m /\ closed_ q = false /\ q' = q /\ g' = g /\
      queued_bytes_ q + size_of m <= session_limit_ q /\ limit_ g < used_ g + size_of m
  | Closed => (b = None \/ closed_ q = true) /\ q' = q /\ g' = g
  end.
Proof.
  unfold Push. destruct b as [m|]; [|split_and!; try done; try lia; by left].
  destruct (closed_ q) eqn:C; [split_and!; try done; try lia; by right|].
  pose proof (size_nonneg m). pose proof Wq as [L B Bd _].
  pose proof (total_nonneg (queue_ q)).
  split_if.
  { split_and!; try done; try lia. exists m. split_and!; try done.
    destruct (Z.lt_ge_cases (session_limit_ q) (size_of m)); [lia|].
    destruct Hif as [?|Hif]; [lia|]. u64_simpl_in Hif. lia. }
  destruct Hif as [Hs1 Hs2]. u64_simpl_in Hs2.
  unfold TryReserve. split_if; simpl.
  { split_and!; try done; try lia. exists m. split_and!; try done; [lia|].
    destruct (Z.lt_ge_cases (limit_ g) (size_of m)); [lia|].
    destruct Hif as [?|Hif]; [lia|]. u64_simpl_in Hif. lia. }
  destruct Hif as [Hg1 Hg2]. u64_simpl_in Hg2. u64_simpl.
  split_and!; try done; try lia; [|exists m; split_and!; done || lia].
  constructor; simpl; rewrite ?total_app; simpl; try done; lia.
Qed.

Lemma Pop_spec :
  let '(b, q', g') := Pop q g in
  queue_wf q' /\ limit_ g' = limit_ g /\
  used_ g' - used_ g = queued_bytes_ q' - queued_bytes_ q /\
  0 <= used_ g' <= limit_ g /\
  queue_ q = match b with Some m => m :: queue_ q' | None => [] end /\
  closed_ q' = closed_ q.
Proof.
  unfold Pop. pose proof Wq as [L B Bd C]. destruct (queue_ q) as [|m rest] eqn:E.
  { split_and!; try done; lia. }
  simpl in B. pose proof (size_nonneg m). pose proof (total_nonneg rest).
  unfold Release. simpl. split_if; [lia|]. u64_simpl.
  split_and!; try done; try lia. constructor; simpl; try done; try lia.
  intros Hc. specialize (C Hc). done.
Qed.

Lemma Close_spec :
  let '(q', g') := Close q g in
  queue_wf q' /\ limit_ g' = limit_ g /\
  used_ g' - used_ g = queued_bytes_ q' - queued_bytes_ q /\
  0 <= used_ g' <= limit_ g /\ queue_ q' = [] /\ closed_ q' = true.
Proof.
  unfold Close. pose proof Wq as [L B Bd C].
  rewrite Release_all by (unfold is_u64 in *; lia). simpl.
  pose proof (total_nonneg (queue_ q)). split_and!; try done; try lia.
  constructor; simpl; try done. unfold is_u64 in *. lia.
Qed.
End operations.

(** An operation that changes one queue and moves the budget by the same amount
    keeps the system well-formed. *)
Lemma system_wf_update g qs i q q' g' :
  system_wf (mkSystem g qs) -> qs !! i = Some q -> queue_wf q' -> limit_ g' = limit_ g ->
  used_ g' - used_ g = queued_bytes_ q' - queued_bytes_ q -> 0 <= used_ g' <= limit_ g ->
  system_wf (mkSystem g' (<[i := q']> qs)).
Proof.
  intros [L U Bd F] Hi Wq' Hl Hd Hb. simpl in *. constructor; simpl.
  - rewrite Hl. done.
  - rewrite (sum_queued_insert _ _ _ _ Hi). lia.
  - lia.
  - apply Forall_insert; done.
Qed.

Lemma step_wf s s' : system_wf s -> step s s' -> system_wf s'.
Proof.
  intros W St. pose proof W as [L U Bd F].
  assert (Hin : forall i q, queues s !! i = Some q ->
    queue_wf q /\ 0 <= used_ (budget s) <= limit_ (budget s) /\ queued_bytes_ q <= used_ (budget s)).
  { intros i q Hi. pose proof (sum_queued_lookup _ _ _ F Hi).
    split; [by eapply Forall_lookup_1|]. lia. }
  destruct St as [g qs i q b r q' g' Hi E|g qs i q b q' g' Hi E|g qs i q q' g' Hi E|g qs l Hl];
    simpl in *.
  - destruct (Hin _ _ Hi) as (Wq & Hu & Hle). pose proof (Push_spec q g Wq L Hu Hle b) as P.
    rewrite E in P. destruct P as (? & ? & ? & ? & _). by eapply system_wf_update.
  - destruct (Hin _ _ Hi) as (Wq & Hu & Hle). pose proof (Pop_spec q g Wq L Hu Hle) as P.
    rewrite E in P. destruct P as (? & ? & ? & ? & _). by eapply system_wf_update.
  - destruct (Hin _ _ Hi) as (Wq & Hu & Hle). pose proof (Close_spec q g Wq L Hu Hle) as P.
    rewrite E in P. destruct P as (? & ? & ? & ? & _). by eapply system_wf_update.
  - constructor; simpl; try done.
    + rewrite U. clear. induction qs; simpl; lia.
    + apply Forall_app. split; [done|]. constructor; [|done].
      constructor; simpl; try done. unfold is_u64 in Hl. lia.
Qed.

(** Backpressure accounting: in every reachable state of any number of
    queues sharing one budget, under any order of operations, the global
    counter is the sum of the queues' counters, each queue's counter is the
    number of bytes it holds and within its limit, the global counter is
    within the global limit, and closed queues are empty. *)
Theorem budget_accounting limit s :
  is_u64 limit -> rtc step (initial limit) s -> system_wf s.
Proof.
  intros Hl R. assert (W : system_wf (initial limit)).
  { constructor; simpl; try done. unfold is_u64 in Hl. lia. }
  induction R as [|s1 s2 s3 St R IH]; [done|]. apply IH. by eapply step_wf.
Qed.

(** [Push] returns exactly the reason that applies: [Closed] for a null
    buffer or a closed queue, then the session limit, then the global limit,
    and changes nothing unless it accepts; an accepted buffer goes to the back
    and [Pop] takes from the front. *)
Theorem push_pop_results q g m :
  queue_wf q -> is_u64 (limit_ g) -> 0 <= used_ g <= limit_ g -> queued_bytes_ q <= used_ g ->
  let '(r, q', g') := Push (Some m) q g in
  (r = Closed <-> closed_ q = true) /\
  (r = SessionLimitExceeded <->
     closed_ q = false /\ session_limit_ q < queued_bytes_ q + size_of m) /\
  (r = GlobalLimitExceeded <->
     closed_ q = false /\ queued_bytes_ q + size_of m <= session_limit_ q /\
     limit_ g < used_ g + size_of m) /\
  (r <> Accepted -> q' = q /\ g' = g) /\
  (r = Accepted -> queue_ q' = queue_ q ++ [m] /\ used_ g' = used_ g + size_of m /\
     (Pop q' g').1.1 = head (queue_ q ++ [m])).
Proof.
  intros Wq Hl Hu Hin. pose proof (Push_spec q g Wq Hl Hu Hin (Some m)) as P.
  destruct (Push (Some m) q g) as [[r q'] g'].
  destruct P as (W' & E1 & E2 & B & P).
  destruct r; simplify_eq;
    [destruct P as (m' & ? & ? & Q & U & ?)|destruct P as (m' & ? & ? & ? & ? & ?)
    |destruct P as (m' & ? & ? & ? & ? & ? & ?)|destruct P as ([?|?] & ? & ?)];
    simplify_eq; split_and!; try (split; intros; try done; lia || (destruct_and!; congruence || lia));
    try (intros; done).
  intros _. split_and!; try done. unfold Pop. rewrite Q. by destruct (queue_ q).
Qed.

Lemma budget_accounting_witness :
  let q0 := construct 8 in
  let '(r, q1, g1) := Push (Some (bstr "hello")) q0 (mkBudget 6 0) in
  r = Accepted /\ system_wf (mkSystem g1 [q1]).
Proof.
  simpl. split; [reflexivity|]. apply (budget_accounting 6).
  - unfold is_u64, size_max. lia.
  - eapply rtc_l; [apply (step_new _ _ 8); unfold is_u64, size_max; lia|].
    eapply rtc_l; [eapply (step_push _ _ 0%nat (construct 8) (Some (bstr "hello"))); reflexivity|].
    apply rtc_refl.
Defined.

Lemma push_pop_results_witness :
  let '(r, q', g') := Push (Some (bstr "toolong")) (construct 8) (mkBudget 6 0) in
  r = GlobalLimitExceeded /\ q' = construct 8.
Proof.
  pose proof (push_pop_results (construct 8) (mkBudget 6 0) (bstr "toolong")) as H.
  destruct (Push (Some (bstr "toolong")) (construct 8) (mkBudget 6 0)) as [[r q'] g'] eqn:E.
  destruct H as (_ & _ & G & K & _); try (simpl; lia).
  - constructor; vm_compute; intuition congruence.
  - unfold is_u64, size_max. simpl. lia.
  - split; [apply G; vm_compute; intuition congruence|].
    apply K. vm_compute in E. congruence.
Defined.
