(* ===== verification/SendCursor.v ===== *)
(** * [SendCursor] (src/src/core/send_cursor.hpp)

    The position of a partial overlapped write inside a header of at most 16
    bytes followed by a shared payload. *)

From S2P Require Import Prelude OutboundQueue.

Record SendCursor := mkSendCursor {
  header_ : list byte;      (** [std::array<std::uint8_t, 16>] *)
  header_size_ : Z;
  payload_ : SharedBuffer;
  sent_ : Z;
}.

(** [None] is the thrown [std::length_error]. *)
Definition construct (header : list byte) (payload : SharedBuffer) : option SendCursor :=
  if 16 <? size_of header then None
  else Some (mkSendCursor (header ++ replicate (16 - length header) Byte.x00)
               (size_of header) payload 0).

Definition TotalSize (c : SendCursor) : Z :=
  (header_size_ c + match payload_ c with Some p => size_of p | None => 0 end)%u64.

Definition Remaining (c : SendCursor) : Z := (TotalSize c - sent_ c)%u64.

Definition Complete (c : SendCursor) : bool := Remaining c =? 0.

Definition Consume (bytes : Z) (c : SendCursor) : SendCursor :=
  let remaining := Remaining c in
  mkSendCursor (header_ c) (header_size_ c) (payload_ c)
    (sent_ c + if remaining <? bytes then remaining else bytes)%u64.

Definition HeaderRemainder (c : SendCursor) : list byte :=
  if header_size_ c <=? sent_ c then []
  else zdrop (sent_ c) (ztake (header_size_ c) (header_ c)).

Definition PayloadRemainder (c : SendCursor) : list byte :=
  match payload_ c with
  | None => []
  | Some p =>
      let payload_sent :=
        if header_size_ c <? sent_ c then (sent_ c - header_size_ c)%u64 else 0 in
      zdrop payload_sent p
  end.

(** ** Specification: the bytes of the message on the wire *)

Definition payload_bytes (p : SharedBuffer) : list byte := default [] p.

Definition wire (c : SendCursor) : list byte :=
  ztake (header_size_ c) (header_ c) ++ payload_bytes (payload_ c).

Record wf (c : SendCursor) : Prop := {
  wf_array : length (header_ c) = 16%nat;
  wf_header : 0 <= header_size_ c <= 16;
  wf_payload : size_of (payload_bytes (payload_ c)) <= size_max - 16;
  wf_sent : 0 <= sent_ c <= header_size_ c + size_of (payload_bytes (payload_ c));
}.

(** What a sequence of overlapped writes transmits: each is handed the two
    remainders, the kernel takes the first [n] bytes of them (or fewer when
    fewer remain) and the completion is recorded with [Consume]. *)
Fixpoint transmit (counts : list Z) (c : SendCursor) : list byte * SendCursor :=
  match counts with
  | [] => ([], c)
  | n :: counts =>
      let buffers := HeaderRemainder c ++ PayloadRemainder c in
      let '(rest, c') := transmit counts (Consume n c) in
      (ztake n buffers ++ rest, c')
  end.

Lemma size_wire c : wf c -> size_of (wire c) = header_size_ c + size_of (payload_bytes (payload_ c)).
Proof.
  intros [A H P S]. unfold wire. rewrite size_app, size_ztake; [done|].
  unfold size_of. rewrite A. lia.
Qed.

Lemma TotalSize_wire c : wf c -> TotalSize c = size_of (wire c).
Proof.
  intros W. rewrite (size_wire c W). destruct W as [A H P S].
  unfold TotalSize, payload_bytes in *. destruct (payload_ c); simpl in *;
    pose proof (size_nonneg (default [] (payload_ c))); u64_simpl; try done;
    pose proof (size_nonneg l); u64_simpl; done.
Qed.

Lemma Remaining_wire c : wf c -> Remaining c = size_of (wire c) - sent_ c.
Proof.
  intros W. unfold Remaining. rewrite TotalSize_wire by done.
  pose proof (size_wire c W). destruct W as [A H' P S]. u64_simpl. done.
Qed.

Lemma remainders_wire c : wf c -> HeaderRemainder c ++ PayloadRemainder c = zdrop (sent_ c) (wire c).
Proof.
  intros W. pose proof W as [A H P S]. unfold HeaderRemainder, PayloadRemainder, wire.
  assert (T : size_of (ztake (header_size_ c) (header_ c)) = header_size_ c).
  { apply size_ztake. unfold size_of. rewrite A. lia. }
  split_if.
  - rewrite zdrop_app_ge, T by lia. destruct (payload_ c); simpl.
    + split_if; u64_simpl; [done|]. f_equal. lia.
    + unfold zdrop. rewrite drop_nil. done.
  - rewrite zdrop_app_le by lia. f_equal. destruct (payload_ c); simpl; [|done].
    split_if; [lia|]. done.
Qed.

Lemma Consume_spec n c :
  wf c -> 0 <= n <= size_max ->
  wf (Consume n c) /\ wire (Consume n c) = wire c /\
  sent_ (Consume n c) = Z.min (size_of (wire c)) (sent_ c + n).
Proof.
  intros W Hn. pose proof (Remaining_wire c W) as R. pose proof (size_wire c W) as SW.
  pose proof W as [A H P S]. unfold Consume. rewrite R.
  assert (E : (sent_ c + (if size_of (wire c) - sent_ c <? n then size_of (wire c) - sent_ c else n)%Z)%u64
              = Z.min (size_of (wire c)) (sent_ c + n)).
  { split_if; u64_simpl; lia. }
  rewrite E. split_and!; [|done|done]. constructor; simpl; try done. lia.
Qed.

Lemma transmit_spec counts c :
  wf c -> Forall (fun n => 0 <= n <= size_max) counts ->
  let '(out, c') := transmit counts c in
  wf c' /\ wire c' = wire c /\
  ztake (sent_ c) (wire c) ++ out = ztake (sent_ c') (wire c).
Proof.
  intros W F. revert c W. induction F as [|n counts Hn F IH]; intros c W; simpl.
  - rewrite app_nil_r. done.
  - destruct (Consume_spec n c W Hn) as (W1 & Hw1 & S1).
    specialize (IH (Consume n c) W1). destruct (transmit counts (Consume n c)) as [rest c'].
    destruct IH as (W' & Hw' & IH). rewrite Hw1 in *. split_and!; try done.
    rewrite remainders_wire by done. rewrite S1, ztake_clamp in IH.
    destruct W as [? ? ? HS]. rewrite app_assoc, <-ztake_plus by lia. done.
Qed.

Lemma cursor_construct_wf header payload c :
  construct header payload = Some c ->
  size_of (payload_bytes payload) <= size_max - 16 ->
  wf c /\ wire c = header ++ payload_bytes payload /\ sent_ c = 0.
Proof.
  unfold construct. split_if; [done|]. intros E P. simplify_eq.
  pose proof (size_nonneg header). pose proof (size_nonneg (payload_bytes payload)).
  split_and!; [constructor; simpl; try done|unfold wire; simpl|done].
  - rewrite length_app, length_replicate. unfold size_of in *. lia.
  - lia.
  - rewrite ztake_app_exact; done.
Qed.

(** Partial writes send the message exactly once: for any sequence of
    completion counts, the bytes handed to the kernel and taken by it are the
    prefix of header ++ payload of the recorded length, nothing repeated or
    skipped, and the cursor is complete exactly when all of it was taken. *)
Theorem send_exactly_once header payload counts c :
  construct header payload = Some c ->
  size_of (payload_bytes payload) <= size_max - 16 ->
  Forall (fun n => 0 <= n <= size_max) counts ->
  let '(out, c') := transmit counts c in
  out = ztake (sent_ c') (header ++ payload_bytes payload) /\
  (Complete c' = true <-> out = header ++ payload_bytes payload).
Proof.
  intros E P F. destruct (cursor_construct_wf _ _ _ E P) as (W & Hw & S0).
  pose proof (transmit_spec counts c W F) as T. destruct (transmit counts c) as [out c'].
  destruct T as (W' & Hw' & T). rewrite S0 in T. simpl in T. rewrite <-Hw.
  split; [done|]. unfold Complete. rewrite Remaining_wire, Hw', Z.eqb_eq by done.
  pose proof (size_wire c' W') as SW. destruct W' as [? ? ? HS]. rewrite Hw' in SW. split.
  - intros. rewrite T. apply ztake_ge. lia.
  - intros Ho. rewrite T in Ho. apply (f_equal size_of) in Ho.
    rewrite size_ztake in Ho by lia. lia.
Qed.

(** The cursor refuses exactly the headers longer than its 16-byte array,
    and [Consume] clamps: no completion count moves the position past the end
    of the message or makes [Remaining] wrap around. *)
Theorem cursor_bounds header payload :
  (construct header payload = None <-> 16 < size_of header) /\
  (forall c n, construct header payload = Some c ->
     size_of (payload_bytes payload) <= size_max - 16 -> 0 <= n <= size_max ->
     Remaining (Consume n c) = Z.max 0 (TotalSize c - n) /\
     TotalSize (Consume n c) = TotalSize c).
Proof.
  split.
  - unfold construct. split_if; split; intros; done || lia.
  - intros c n E P Hn. destruct (cursor_construct_wf _ _ _ E P) as (W & Hw & S0).
    destruct (Consume_spec n c W Hn) as (W1 & Hw1 & S1).
    rewrite Remaining_wire, !TotalSize_wire by done. rewrite S1, S0, Hw1. lia.
Qed.

Lemma send_exactly_once_witness :
  exists c, construct (bstr "AB") (Some (bstr "hello")) = Some c /\
    let '(out, c') := transmit [3; 2; 9] c in
    out = ztake (sent_ c') (bstr "ABhello") /\ (Complete c' = true <-> out = bstr "ABhello").
Proof.
  eexists. split; [reflexivity|].
  apply (send_exactly_once (bstr "AB") (Some (bstr "hello")) [3; 2; 9]);
    [reflexivity | vm_compute; congruence | repeat constructor; vm_compute; congruence].
Defined.

Lemma cursor_bounds_witness :
  construct (replicate 17 Byte.x00) None = None /\
  exists c, construct (bstr "AB") (Some (bstr "hello")) = Some c /\
    Remaining (Consume 100 c) = 0.
Proof.
  split; [apply (proj1 (cursor_bounds (replicate 17 Byte.x00) None)); reflexivity|].
  eexists. split; [reflexivity|].
  apply (proj2 (cursor_bounds (bstr "AB") (Some (bstr "hello"))) _ 100 eq_refl);
    vm_compute; intuition congruence.
Defined.
