(* ===== verification/MemoryPool.v ===== *)
(** * [TypedObjectPool] (src/src/core/memory_pool.hpp)

    A fixed array of slots; a free slot holds the link to the next free slot in
    the storage of the object it would hold (the [union Slot]).  A pointer is a
    byte address; slot [i] starts at [slots_ + i * slot_size].  Reading the link
    of a slot that holds an object, and destroying an object that is not there,
    are undefined behaviour in C++: both are outcomes of the model, so the
    theorems show that they do not happen. *)

From S2P Require Import Prelude.

Section pool.
Context {T : Type}.

(** [union Slot { storage; Slot* next; }]: which member was written last. *)
Inductive Slot :=
| storage (object : T)
| next (link : option nat).

Record TypedObjectPool := mkPool {
  capacity_ : Z;
  slot_size : Z;              (** [sizeof(Slot)] *)
  slots_ : Z;                 (** address of the first slot *)
  memory : list Slot;
  free_head_ : option nat;    (** the slot [free_head_] points to *)
  ndebug : bool;              (** [NDEBUG] is defined *)
  allocated_ : list bool;     (** kept only when [NDEBUG] is not defined *)
}.

Definition set_list (m : list Slot) (h : option nat) (p : TypedObjectPool) :=
  mkPool (capacity_ p) (slot_size p) (slots_ p) m h (ndebug p) (allocated_ p).

Definition set_allocated (i : nat) (b : bool) (p : TypedObjectPool) :=
  mkPool (capacity_ p) (slot_size p) (slots_ p) (memory p) (free_head_ p) (ndebug p)
    (if ndebug p then allocated_ p else <[i := b]> (allocated_ p)).

Inductive error := invalid_argument | length_error | logic_error.

(** The constructor, with [operator new[]] returning [base]. *)
Definition construct (size base : Z) (nd : bool) (capacity : Z) : error + TypedObjectPool :=
  if capacity =? 0 then inl invalid_argument else
  if size_max / size <? capacity then inl length_error else
  let n := Z.to_nat capacity in
  inr (mkPool capacity size base
         (map (fun i => next (if (S i <? n)%nat then Some (S i) else None)) (seq 0 n))
         (Some 0%nat) nd (if nd then [] else replicate n false)).

Definition address (p : TypedObjectPool) (i : nat) : Z := slots_ p + Z.of_nat i * slot_size p.

(** [slot - slots_], defined for the address of a slot only. *)
Definition slot_index (p : TypedObjectPool) (slot : Z) : option nat :=
  let i := Z.to_nat ((slot - slots_ p) / slot_size p) in
  if bool_decide (slot = address p i) && (i <? length (memory p))%nat then Some i else None.

(** [allocated_[index]]: undefined out of range; with [NDEBUG] it is not read. *)
Definition debug_read (p : TypedObjectPool) (index : nat) (expected : bool) : option bool :=
  if ndebug p then Some expected else allocated_ p !! index.

Inductive create_result :=
| Created (object : Z)
| NullPointer
| Corrupted            (** [std::logic_error] *)
| ConstructorThrew     (** the exception of [T]'s constructor, rethrown *)
| CreateUndefined.

(** [Create(args)]; [ctor] is what [T]'s constructor does: an object, or a throw. *)
Definition Create (ctor : option T) (p : TypedObjectPool) : create_result * TypedObjectPool :=
  match free_head_ p with
  | None => (NullPointer, p)
  | Some slot =>
      match memory p !! slot with
      | Some (next link) =>
          let p := set_list (memory p) link p in
          match debug_read p slot false with
          | None => (CreateUndefined, p)
          | Some true => (Corrupted, p)
          | Some false =>
              let p := set_allocated slot true p in
              match ctor with
              | Some object => (Created (address p slot),
                                set_list (<[slot := storage object]> (memory p)) (free_head_ p) p)
              | None =>
                  let p := set_allocated slot false p in
                  (ConstructorThrew,
                   set_list (<[slot := next (free_head_ p)]> (memory p)) (Some slot) p)
              end
          end
      | _ => (CreateUndefined, p)
      end
  end.

Inductive destroy_result :=
| Destroyed
| DestroyNull
| NotInPool            (** [std::invalid_argument] *)
| NotAtBoundary        (** [std::invalid_argument] *)
| DoubleFree           (** [std::logic_error] *)
| DestroyUndefined.

Definition Destroy (object : option Z) (p : TypedObjectPool) : destroy_result * TypedObjectPool :=
  match object with
  | None => (DestroyNull, p)
  | Some bytes =>
      let begin_ := slots_ p in
      let end_ := begin_ + (capacity_ p * slot_size p)%u64 in
      if (bytes <? begin_) || (end_ <=? bytes) then (NotInPool, p) else
      let offset := (bytes - begin_)%u64 in
      if negb (offset mod slot_size p =? 0) then (NotAtBoundary, p) else
      match slot_index p bytes with
      | None => (DestroyUndefined, p)
      | Some slot =>
          match debug_read p slot true with
          | None => (DestroyUndefined, p)
          | Some false => (DoubleFree, p)
          | Some true =>
              let p := set_allocated slot false p in
              match memory p !! slot with
              | Some (storage _) =>
                  (Destroyed, set_list (<[slot := next (free_head_ p)]> (memory p)) (Some slot) p)
              | _ => (DestroyUndefined, p)
              end
          end
      end
  end.

Definition Capacity (p : TypedObjectPool) : Z := capacity_ p.

(** ** Invariant: the free list *)

(** [chain m h l]: following the links of [m] from [h] visits [l] and ends. *)
Fixpoint chain (m : list Slot) (h : option nat) (l : list nat) : Prop :=
  match l with
  | [] => h = None
  | i :: l => h = Some i /\ exists link, m !! i = Some (next link) /\ chain m link l
  end.

(** [wf p free]: the free list of [p] is [free], without repetition; every other
    slot holds an object, and the debug map says so. *)
Record wf (p : TypedObjectPool) (free : list nat) : Prop := {
  wf_capacity : Z.of_nat (length (memory p)) = capacity_ p;
  wf_size : 1 <= slot_size p;
  wf_bytes : capacity_ p * slot_size p <= size_max;
  wf_chain : chain (memory p) (free_head_ p) free;
  wf_nodup : NoDup free;
  wf_live : forall i, (i < length (memory p))%nat -> i ∉ free ->
    exists object, memory p !! i = Some (storage object);
  wf_allocated : ndebug p = false ->
    length (allocated_ p) = length (memory p) /\
    forall i, (i < length (memory p))%nat -> allocated_ p !! i = Some (bool_decide (i ∉ free));
}.

(** The objects the pool holds, by slot. *)
Definition object_at (p : TypedObjectPool) (i : nat) : option T :=
  match memory p !! i with Some (storage object) => Some object | _ => None end.

Lemma chain_lookup m h l i : chain m h l -> i ∈ l -> exists link, m !! i = Some (next link).
Proof.
  revert h. induction l as [|j l IH]; intros h C Hi; [by apply not_elem_of_nil in Hi|].
  destruct C as (_ & link & E & C). apply elem_of_cons in Hi as [->|Hi]; eauto.
Qed.

Lemma chain_insert m h l i s : chain m h l -> i ∉ l -> chain (<[i := s]> m) h l.
Proof.
  revert h. induction l as [|j l IH]; intros h C Hi; [done|].
  destruct C as (-> & link & E & C). apply not_elem_of_cons in Hi as [Hj Hi].
  split; [done|]. exists link. rewrite list_lookup_insert_ne by done. eauto.
Qed.

Lemma object_at_live p free i :
  wf p free -> (i < length (memory p))%nat -> (is_Some (object_at p i) <-> i ∉ free).
Proof.
  intros W Hi. split.
  - intros [o Ho] Hf. unfold object_at in Ho.
    destruct (chain_lookup _ _ _ _ (wf_chain _ _ W) Hf) as [link E]. rewrite E in Ho. done.
  - intros Hf. destruct (wf_live _ _ W i Hi Hf) as [o E]. unfold object_at. rewrite E. eauto.
Qed.

Lemma chain_head m h i l : chain m h (i :: l) -> h = Some i /\ (i < length m)%nat.
Proof. intros (-> & link & E & _). split; [done|]. by eapply lookup_lt_Some. Qed.

Lemma wf_head_free p i free : wf p (i :: free) -> (i < length (memory p))%nat /\ i ∉ free.
Proof.
  intros W. destruct (chain_head _ _ _ _ (wf_chain _ _ W)).
  pose proof (wf_nodup _ _ W) as N. apply NoDup_cons in N as [? _]. done.
Qed.

Lemma set_allocated_length i b p :
  length (allocated_ (set_allocated i b p)) = length (allocated_ p).
Proof. unfold set_allocated. simpl. destruct (ndebug p); [done|]. apply length_insert. Qed.

(** The debug map after slot [i] changed hands. *)
Lemma wf_allocated_update p free i b m h (free' : list nat) :
  wf p free -> (i < length (memory p))%nat -> length m = length (memory p) ->
  (forall j, (j < length (memory p))%nat -> j <> i -> (j ∉ free' <-> j ∉ free)) ->
  b = bool_decide (i ∉ free') ->
  ndebug p = false ->
  length (allocated_ (set_list m h (set_allocated i b p))) = length m /\
  forall j, (j < length m)%nat ->
    allocated_ (set_list m h (set_allocated i b p)) !! j = Some (bool_decide (j ∉ free')).
Proof.
  intros W Hi Hm Hf -> Hd. destruct (wf_allocated _ _ W Hd) as [Hl Ha].
  split; [simpl; rewrite Hd, length_insert; lia|]. intros j Hj. simpl. rewrite Hd.
  destruct (decide (i = j)) as [->|Hne].
  - rewrite list_lookup_insert_eq by lia. done.
  - rewrite list_lookup_insert_ne, Ha by lia. f_equal. apply bool_decide_ext.
    rewrite Hf by lia. done.
Qed.

Lemma Create_empty ctor p : wf p [] -> Create ctor p = (NullPointer, p).
Proof. intros W. pose proof (wf_chain _ _ W) as C. simpl in C. unfold Create. rewrite C. done. Qed.

Lemma Create_throws p i free : wf p (i :: free) -> Create None p = (ConstructorThrew, p).
Proof.
  intros W. destruct (wf_head_free _ _ _ W) as [Hi Hni].
  pose proof (wf_chain _ _ W) as (H & link & E & C). unfold Create, debug_read. rewrite H, E. cbn zeta.
  change (ndebug (set_list _ _ _)) with (ndebug p).
  change (allocated_ (set_list _ _ _)) with (allocated_ p).
  destruct p as [cap sz base mem hd nd al]; simpl in *. subst hd.
  destruct nd; simpl.
  - f_equal. unfold set_list, set_allocated. simpl. f_equal. by apply list_insert_id.
  - destruct (wf_allocated _ _ W eq_refl) as [Hl Ha]. simpl in *.
    pose proof (Ha i Hi) as Hai. rewrite bool_decide_eq_false_2 in Hai by (intros Hn; apply Hn, list_elem_of_here).
    rewrite Hai. simpl. f_equal. unfold set_list, set_allocated. simpl. f_equal.
    + by apply list_insert_id.
    + rewrite list_insert_insert_eq. by apply list_insert_id.
Qed.

Lemma Create_object p i free object :
  wf p (i :: free) ->
  exists p', Create (Some object) p = (Created (address p i), p') /\ wf p' free /\
    capacity_ p' = capacity_ p /\ slot_size p' = slot_size p /\ slots_ p' = slots_ p /\
    object_at p' i = Some object /\
    forall j, j <> i -> object_at p' j = object_at p j.
Proof.
  intros W. destruct (wf_head_free _ _ _ W) as [Hi Hni].
  pose proof (wf_chain _ _ W) as (H & link & E & C). unfold Create. rewrite H, E. cbn zeta.
  assert (A : debug_read (set_list (memory p) link p) i false = Some false).
  { unfold debug_read. simpl. destruct (ndebug p) eqn:D; [done|]. destruct (wf_allocated _ _ W D) as [_ Ha].
    rewrite Ha by done. rewrite bool_decide_eq_false_2; [done|]. intros Hn. apply Hn, list_elem_of_here. }
  rewrite A. eexists. split; [done|]. pose proof W as [Wc Ws Wb _ Wn Wl _].
  split_and!; try done.
  - constructor; simpl; rewrite ?length_insert; try done.
    + by apply chain_insert.
    + by apply NoDup_cons in Wn as [_ ?].
    + intros j Hj Hnf. destruct (decide (i = j)) as [->|Hne].
      * rewrite list_lookup_insert_eq by done. eauto.
      * rewrite list_lookup_insert_ne by done. apply Wl; [done|].
        apply not_elem_of_cons. done.
    + intros D. rewrite <-(length_insert (memory p) i (storage object)).
      eapply (wf_allocated_update p (i :: free) i true _ None free); rewrite ?length_insert; try done.
      * intros j Hj Hne. rewrite not_elem_of_cons. tauto.
      * rewrite bool_decide_eq_true_2; done.
  - unfold object_at. simpl. rewrite list_lookup_insert_eq by done. done.
  - intros j Hj. unfold object_at. simpl. rewrite list_lookup_insert_ne by done. done.
Qed.

Lemma wf_extent p free :
  wf p free -> 0 <= capacity_ p * slot_size p /\ (capacity_ p * slot_size p)%u64 = capacity_ p * slot_size p.
Proof.
  intros [Wc Ws Wb _ _ _ _]. assert (0 <= capacity_ p * slot_size p) by nia.
  split; [done|]. apply umul_small. done.
Qed.

(** What [Destroy] does before it looks at the slot. *)
Lemma Destroy_checks p free bytes :
  wf p free ->
  let inside := bool_decide (slots_ p <= bytes < slots_ p + capacity_ p * slot_size p) in
  ((bytes <? slots_ p) || (slots_ p + (capacity_ p * slot_size p)%u64 <=? bytes)) = negb inside /\
  (inside = true -> (bytes - slots_ p)%u64 = bytes - slots_ p).
Proof.
  intros W. destruct (wf_extent p free W) as [E0 E]. rewrite E. pose proof (wf_bytes _ _ W). cbv zeta. split.
  - case_bool_decide; simpl; lia.
  - rewrite bool_decide_eq_true. intros Hr. apply u64_small. unfold is_u64. lia.
Qed.

(** [Destroy]'s address checks find the slot of a pointer into the pool. *)
Lemma address_checks p free i :
  wf p free -> (i < length (memory p))%nat ->
  ((address p i <? slots_ p) || (slots_ p + (capacity_ p * slot_size p)%u64 <=? address p i)) = false /\
  ((address p i - slots_ p)%u64 mod slot_size p =? 0) = true /\
  slot_index p (address p i) = Some i.
Proof.
  intros W Hi. pose proof W as [Wc Ws _ _ _ _ _].
  assert (D : address p i - slots_ p = Z.of_nat i * slot_size p) by (unfold address; lia).
  destruct (Destroy_checks p free (address p i) W) as [E1 E2].
  assert (In : bool_decide (slots_ p <= address p i < slots_ p + capacity_ p * slot_size p) = true)
    by (apply bool_decide_eq_true; nia).
  rewrite In in E1, E2. rewrite E1, E2, D, Z.mod_mul by (done || lia). split_and!; [done..|].
  unfold slot_index. rewrite D, Z.div_mul, Nat2Z.id, bool_decide_eq_true_2 by (done || lia).
  apply Nat.ltb_lt in Hi. by rewrite Hi.
Qed.

Lemma Destroy_live p free i :
  wf p free -> (i < length (memory p))%nat -> i ∉ free ->
  exists p', Destroy (Some (address p i)) p = (Destroyed, p') /\ wf p' (i :: free) /\
    capacity_ p' = capacity_ p /\ slot_size p' = slot_size p /\ slots_ p' = slots_ p /\
    object_at p' i = None /\
    forall j, j <> i -> object_at p' j = object_at p j.
Proof.
  intros W Hi Hf. destruct (address_checks p free i W Hi) as (A1 & A2 & A3).
  destruct (wf_live _ _ W i Hi Hf) as [o E].
  unfold Destroy. rewrite A1, A2, A3. cbn [negb].
  assert (A : debug_read p i true = Some true).
  { unfold debug_read. destruct (ndebug p) eqn:D; [done|]. destruct (wf_allocated _ _ W D) as [_ Ha].
    by rewrite Ha, bool_decide_eq_true_2 by done. }
  rewrite A. cbn zeta. change (memory (set_allocated i false p)) with (memory p). rewrite E.
  eexists. split; [done|]. pose proof W as [Wc Ws Wb Wch Wn Wl _]. split_and!; try done.
  - constructor; simpl; rewrite ?length_insert; try done.
    + split; [done|]. exists (free_head_ p). rewrite list_lookup_insert_eq by done.
      split; [done|]. by apply chain_insert.
    + by apply NoDup_cons.
    + intros j Hj Hnf. apply not_elem_of_cons in Hnf as [Hne Hnf].
      rewrite list_lookup_insert_ne by done. by apply Wl.
    + intros D. rewrite <-(length_insert (memory p) i (next (free_head_ p))).
      eapply (wf_allocated_update p free i false _ None (i :: free)); rewrite ?length_insert; try done.
      * intros j Hj Hne. rewrite not_elem_of_cons. tauto.
      * rewrite bool_decide_eq_false_2; [done|]. intros Hn. apply Hn, list_elem_of_here.
  - unfold object_at. simpl. rewrite list_lookup_insert_eq by done. done.
  - intros j Hj. unfold object_at. simpl. rewrite list_lookup_insert_ne by done. done.
Qed.

(** A pointer that passes both address checks is the address of a slot. *)
Lemma address_complete p free bytes :
  wf p free ->
  slots_ p <= bytes < slots_ p + capacity_ p * slot_size p ->
  (bytes - slots_ p) mod slot_size p = 0 ->
  exists i, (i < length (memory p))%nat /\ bytes = address p i.
Proof.
  intros [Wc Ws _ _ _ _ _] Hr Hm. exists (Z.to_nat ((bytes - slots_ p) / slot_size p)).
  unfold address. pose proof (Z.div_mod (bytes - slots_ p) (slot_size p)).
  assert (0 <= (bytes - slots_ p) / slot_size p < capacity_ p).
  { split; [apply Z.div_pos; lia|]. apply Z.div_lt_upper_bound; lia. }
  split; [lia|]. rewrite Z2Nat.id by lia. lia.
Qed.

Lemma chain_initial n k r :
  (k + r = n)%nat ->
  chain (map (fun i => next (if (S i <? n)%nat then Some (S i) else None)) (seq 0 n))
    (if (k <? n)%nat then Some k else None) (seq k r).
Proof.
  revert k. induction r as [|r IH]; intros k Hk; simpl.
  - destruct (Nat.ltb_spec k n); [lia|done].
  - destruct (Nat.ltb_spec k n); [|lia]. split; [done|]. eexists. split.
    + rewrite list_lookup_fmap, lookup_seq_lt by lia. simpl. done.
    + apply IH. lia.
Qed.

Lemma pool_construct_wf size base nd capacity p :
  1 <= size -> 0 <= capacity -> construct size base nd capacity = inr p ->
  wf p (seq 0 (Z.to_nat capacity)) /\ capacity_ p = capacity /\ ndebug p = nd.
Proof.
  intros Hs Hc. unfold construct. split_if; [done|]. split_if; [done|]. intros E. simplify_eq.
  assert (B : capacity * size <= size_max).
  { pose proof (Z.mul_div_le size_max size ltac:(lia)). nia. }
  split; [|done]. set (n := Z.to_nat capacity) in *.
  constructor; simpl; rewrite ?length_map, ?length_seq; try done; try lia.
  - pose proof (chain_initial n 0 n eq_refl) as C. destruct (Nat.ltb_spec 0 n); [done|lia].
  - apply NoDup_seq.
  - intros i Hi Hn. destruct Hn. apply elem_of_seq. lia.
  - intros ->. rewrite length_replicate. split; [done|]. intros i Hi.
    rewrite lookup_replicate_2 by done. rewrite bool_decide_eq_false_2; [done|].
    intros Hn. apply Hn, elem_of_seq. lia.
Qed.

(** One call on the pool by a client. *)
Inductive call := CallCreate (ctor : option T) | CallDestroy (object : option Z).

Definition perform (c : call) (p : TypedObjectPool) : TypedObjectPool :=
  match c with
  | CallCreate ctor => (Create ctor p).2
  | CallDestroy object => (Destroy object p).2
  end.

(** The outcomes that mean the free list is broken. *)
Definition sound (c : call) (p : TypedObjectPool) : Prop :=
  match c with
  | CallCreate ctor => (Create ctor p).1 <> Corrupted /\ (Create ctor p).1 <> CreateUndefined
  | CallDestroy object => (Destroy object p).1 <> DestroyUndefined
  end.

(** Destroying [object] is safe: the build checks it, or it is null, rejected
    by the address checks, or a live object. *)
Definition safe_destroy (object : option Z) (p : TypedObjectPool) : Prop :=
  ndebug p = false \/
  forall i, (i < length (memory p))%nat -> object = Some (address p i) -> is_Some (object_at p i).

Lemma Destroy_free p free i :
  wf p free -> (i < length (memory p))%nat -> i ∈ free -> ndebug p = false ->
  Destroy (Some (address p i)) p = (DoubleFree, p).
Proof.
  intros W Hi Hf D. destruct (address_checks p free i W Hi) as (A1 & A2 & A3).
  unfold Destroy. rewrite A1, A2, A3. cbn [negb]. unfold debug_read. rewrite D.
  destruct (wf_allocated _ _ W D) as [_ Ha]. rewrite Ha by done.
  by rewrite bool_decide_eq_false_2 by (intros Hn; done).
Qed.

(** A pointer that is no slot's address is rejected. *)
Lemma Destroy_rejects p free bytes :
  wf p free -> (forall i, (i < length (memory p))%nat -> bytes <> address p i) ->
  Destroy (Some bytes) p =
    (if bool_decide (slots_ p <= bytes < slots_ p + capacity_ p * slot_size p) then NotAtBoundary else NotInPool, p).
Proof.
  intros W Hn. destruct (Destroy_checks p free bytes W) as [E1 E2].
  unfold Destroy. rewrite E1. case_bool_decide as In; cbn [negb]; [|done]. rewrite (E2 eq_refl).
  destruct ((bytes - slots_ p) mod slot_size p =? 0) eqn:M; [|done]. apply Z.eqb_eq in M.
  destruct (address_complete p free bytes W In M) as (i & Hi & ->). by destruct (Hn i Hi).
Qed.

Lemma address_or_not p bytes :
  (exists i, (i < length (memory p))%nat /\ bytes = address p i) \/
  (forall i, (i < length (memory p))%nat -> bytes <> address p i).
Proof.
  destruct (decide (Exists (fun i => bytes = address p i) (seq 0 (length (memory p))))) as [E|E].
  - left. apply Exists_exists in E as (i & Hi & ->). exists i. apply elem_of_seq in Hi. split; [lia|done].
  - right. intros i Hi ->. apply E, Exists_exists. exists i. split; [apply elem_of_seq; lia|done].
Qed.

Lemma Destroy_cases p free object :
  wf p free -> safe_destroy object p ->
  (Destroy object p).1 <> DestroyUndefined /\ exists free', wf (Destroy object p).2 free'.
Proof.
  intros W Hs. destruct object as [bytes|]; [|simpl; eauto].
  destruct (address_or_not p bytes) as [(i & Hi & ->)|Hn].
  - destruct (decide (i ∈ free)) as [Hf|Hf].
    + destruct Hs as [Hd|Hs]; [by rewrite (Destroy_free p free i W Hi Hf Hd); eauto|].
      specialize (Hs i Hi eq_refl). by apply (object_at_live p free i W Hi) in Hs.
    + destruct (Destroy_live p free i W Hi Hf) as (p' & -> & W' & _). simpl. eauto.
  - rewrite (Destroy_rejects p free bytes W Hn). simpl. case_bool_decide; eauto.
Qed.

Lemma Create_cases ctor p free :
  wf p free ->
  (Create ctor p).1 <> Corrupted /\ (Create ctor p).1 <> CreateUndefined /\
  exists free', wf (Create ctor p).2 free'.
Proof.
  intros W. destruct free as [|i free].
  - rewrite Create_empty by done. simpl. eauto.
  - destruct ctor as [o|].
    + destruct (Create_object p i free o W) as (p' & -> & W' & _). simpl. eauto.
    + rewrite (Create_throws p i free W). simpl. eauto.
Qed.

(** The object at a pointer, if it points to one. *)
Definition pointee (p : TypedObjectPool) (bytes : Z) (o : option T) : Prop :=
  exists i, (i < length (memory p))%nat /\ bytes = address p i /\ object_at p i = o.

(** What [Destroy] answers to a pointer, with the debug checks. *)
Record destroy_answers (p : TypedObjectPool) (bytes : Z) : Prop := {
  da_foreign : (Destroy (Some bytes) p).1 = NotInPool <->
    ~ (slots_ p <= bytes < slots_ p + capacity_ p * slot_size p);
  da_misaligned : (Destroy (Some bytes) p).1 = NotAtBoundary <->
    slots_ p <= bytes < slots_ p + capacity_ p * slot_size p /\ (bytes - slots_ p) mod slot_size p <> 0;
  da_twice : (Destroy (Some bytes) p).1 = DoubleFree <-> pointee p bytes None;
  da_live : (Destroy (Some bytes) p).1 = Destroyed <-> exists o, pointee p bytes (Some o);
  da_defined : (Destroy (Some bytes) p).1 <> DestroyUndefined;
  da_rejected : (Destroy (Some bytes) p).1 <> Destroyed -> (Destroy (Some bytes) p).2 = p;
  da_effect i : (Destroy (Some bytes) p).1 = Destroyed ->
    object_at (Destroy (Some bytes) p).2 i = if bool_decide (bytes = address p i) then None else object_at p i;
}.

(** What [Create] answers: null exactly when every slot holds an object; else an
    object in a slot that held none, every other one untouched, or the pool as it
    was when the constructor throws. *)
Record create_answers (p : TypedObjectPool) : Prop := {
  ca_full ctor : (forall i, (i < length (memory p))%nat -> is_Some (object_at p i)) ->
    Create ctor p = (NullPointer, p);
  ca_object i object : (i < length (memory p))%nat -> object_at p i = None ->
    exists j p', (j < length (memory p))%nat /\ object_at p j = None /\
      Create (Some object) p = (Created (address p j), p') /\ object_at p' j = Some object /\
      forall k, k <> j -> object_at p' k = object_at p k;
  ca_throws i : (i < length (memory p))%nat -> object_at p i = None ->
    Create None p = (ConstructorThrew, p);
}.

Lemma address_in p free i :
  wf p free -> (i < length (memory p))%nat ->
  slots_ p <= address p i < slots_ p + capacity_ p * slot_size p /\
  (address p i - slots_ p) mod slot_size p = 0.
Proof.
  intros [Wc Ws _ _ _ _ _] Hi. unfold address. split; [nia|].
  replace (slots_ p + Z.of_nat i * slot_size p - slots_ p) with (Z.of_nat i * slot_size p) by lia.
  apply Z.mod_mul. lia.
Qed.

Lemma address_inj p free i j : wf p free -> address p i = address p j -> i = j.
Proof. intros [_ Ws _ _ _ _ _]. unfold address. nia. Qed.

Lemma wf_answers p free bytes : wf p free -> ndebug p = false -> destroy_answers p bytes.
Proof.
  intros W D. destruct (address_or_not p bytes) as [(i & Hi & ->)|Hn].
  - destruct (address_in p free i W Hi) as [In Al].
    assert (P : forall o, pointee p (address p i) o <-> object_at p i = o).
    { intros o. split; [intros (j & _ & ->%(address_inj p free) & E); done|by exists i]. }
    destruct (decide (i ∈ free)) as [Hf|Hf].
    + assert (N : object_at p i = None).
      { destruct (object_at p i) eqn:E; [|done].
        by destruct (proj1 (object_at_live p free i W Hi) (ltac:(by rewrite E))). }
      pose proof (Destroy_free p free i W Hi Hf D) as E.
      constructor; rewrite E; simpl; try setoid_rewrite P; rewrite ?N; naive_solver.
    + destruct (proj2 (object_at_live p free i W Hi) Hf) as [o N].
      destruct (Destroy_live p free i W Hi Hf) as (p' & E & _ & _ & _ & _ & Ni & Oj).
      constructor; rewrite E; simpl; try setoid_rewrite P; rewrite ?N; try naive_solver.
      intros k _. case_bool_decide as B; [apply (address_inj p free i k W) in B; by subst|].
      apply Oj. by intros ->.
  - assert (P : forall o, ~ pointee p bytes o) by (intros o (i & Hi & E & _); by apply (Hn i)).
    pose proof (Destroy_rejects p free bytes W Hn) as E.
    constructor; rewrite E; simpl; case_bool_decide as In; try naive_solver.
    split; [|done]. intros _. split; [done|]. intros M.
    destruct (address_complete p free bytes W In M) as (i & Hi & ->). by apply (Hn i).
Qed.

Lemma wf_creates p free : wf p free -> create_answers p.
Proof.
  intros W. assert (F : forall i, (i < length (memory p))%nat -> object_at p i = None -> i ∈ free).
  { intros i Hi N. destruct (decide (i ∈ free)) as [|Hf]; [done|].
    apply (object_at_live p free i W Hi) in Hf as [o E]. congruence. }
  destruct free as [|j free].
  - constructor; [intros ctor _; by apply Create_empty| |]; intros i.
    + intros object Hi N. by apply F, elem_of_nil in N.
    + intros Hi N. by apply F, elem_of_nil in N.
  - destruct (wf_head_free _ _ _ W) as [Hj _].
    assert (Nj : object_at p j = None).
    { destruct (object_at p j) eqn:E; [|done].
      destruct (proj1 (object_at_live p _ j W Hj) (ltac:(by rewrite E))). apply list_elem_of_here. }
    constructor.
    + intros ctor A. specialize (A j Hj). rewrite Nj in A. by destruct A.
    + intros i object _ _. destruct (Create_object p j free object W) as (p' & E & _ & _ & _ & _ & O1 & O2).
      by exists j, p'.
    + intros i _ _. by eapply Create_throws.
Qed.

(** C30. In a build with the debug checks, no sequence of [Create] and [Destroy]
    calls with arbitrary pointers corrupts the pool or reaches undefined
    behaviour, and every pointer is told apart: one outside the array is refused
    as foreign, one inside but off a slot boundary as misaligned, the address of
    a free slot as a double free, each leaving the pool as it was; exactly a live
    object is destroyed, and no other.  [Create] gives a slot that held no object,
    and null only when there is none. *)
Theorem pool_never_corrupted size base capacity p calls c :
  1 <= size -> 0 <= capacity -> construct size base false capacity = inr p ->
  let p' := foldl (fun p c => perform c p) p calls in
  sound c p' /\ create_answers p' /\ forall bytes, destroy_answers p' bytes.
Proof.
  intros Hs Hc E. destruct (pool_construct_wf _ _ _ _ _ Hs Hc E) as (W & _ & D).
  assert (G : forall calls p free, wf p free -> ndebug p = false ->
    exists free', wf (foldl (fun p c => perform c p) p calls) free' /\
      ndebug (foldl (fun p c => perform c p) p calls) = false).
  { clear. intros calls. induction calls as [|c calls IH]; intros p free W D; simpl; [eauto|].
    assert (exists free', wf (perform c p) free' /\ ndebug (perform c p) = false)
      as (free' & W' & D'); [|by eapply IH].
    destruct c as [ctor|object]; simpl.
    - destruct (Create_cases ctor p free W) as (_ & _ & free' & W'). exists free'.
      split; [done|]. unfold Create. repeat case_match; done.
    - destruct (Destroy_cases p free object W (or_introl D)) as (_ & free' & W'). exists free'.
      split; [done|]. unfold Destroy. repeat case_match; done. }
  destruct (G calls p _ W D) as (free' & W' & D'). cbv zeta.
  split; [|split; [by eapply wf_creates|intros bytes; by eapply wf_answers]].
  destruct c as [ctor|object]; simpl.
  - destruct (Create_cases ctor _ free' W') as (? & ? & _). done.
  - apply (Destroy_cases _ free' object W' (or_introl D')).
Qed.

End pool.

Arguments TypedObjectPool : clear implicits.
Arguments Slot : clear implicits.

(** ** Witnesses: a pool of two slots of 8 bytes at address 4096 *)

Definition example_pool : TypedObjectPool nat :=
  mkPool 2 8 4096 [next (Some 1%nat); next None] (Some 0%nat) false [false; false].

Lemma pool_never_corrupted_witness :
  construct (T := nat) 8 4096 false 2 = inr example_pool /\
  let p := foldl (fun p c => perform c p) example_pool
    [CallCreate (Some 7%nat); CallDestroy (Some 4096); CallDestroy (Some 5); CallCreate (Some 8%nat)] in
  (Destroy (Some 4104) p).1 = DoubleFree /\ (Destroy (Some 4112) p).1 = NotInPool /\
  (Destroy (Some 4097) p).1 = NotAtBoundary /\ (Destroy (Some 4096) p).1 = Destroyed.
Proof.
  split; [reflexivity|]. cbv zeta.
  destruct (pool_never_corrupted (T := nat) 8 4096 2 example_pool
    [CallCreate (Some 7%nat); CallDestroy (Some 4096); CallDestroy (Some 5); CallCreate (Some 8%nat)]
    (CallDestroy None) ltac:(lia) ltac:(lia) eq_refl) as (_ & _ & A).
  split_and!.
  - apply (da_twice _ _ (A 4104)). exists 1%nat. split_and!; [simpl; lia|reflexivity..].
  - apply (da_foreign _ _ (A 4112)). simpl. lia.
  - apply (da_misaligned _ _ (A 4097)). simpl. split; [lia|done].
  - apply (da_live _ _ (A 4096)). exists 8%nat, 0%nat. split_and!; [simpl; lia|reflexivity..].
Defined.
