(* ===== verification/SessionHandle.v ===== *)
(** * [SessionHandle] (src/src/core/session_handle.hpp)

    A session's identity: an id that is never zero for a real session and a
    generation, compared together. *)

From S2P Require Import Prelude.

Record SessionHandle := mkHandle { id : Z; generation : Z }.

(** [operator==] is member-wise. *)
#[export] Instance SessionHandle_eq_dec : EqDecision SessionHandle.
Proof. solve_decision. Defined.

#[export] Instance SessionHandle_countable : Countable SessionHandle :=
  inj_countable' (fun h => (id h, generation h)) (fun p => mkHandle p.1 p.2)
    (fun h => match h with mkHandle _ _ => eq_refl end).

#[export] Instance SessionHandle_inhabited : Inhabited SessionHandle := populate (mkHandle 0 0).

(** [explicit operator bool] *)
Definition operator_bool (h : SessionHandle) : bool := negb (id h =? 0).

(** [SessionHandleHash]; [hash] is [std::hash<std::uint64_t>], which the
    implementation of the standard library chooses. *)
Definition SessionHandleHash (hash : Z -> Z) (value : SessionHandle) : Z :=
  let first := u64 (hash (id value)) in
  let second := u64 (hash (generation value)) in
  Z.lxor first
    (second + 11400714819323198485 + u64 (Z.shiftl first 6) + Z.shiftr first 2)%u64.

(** The hash is a 64-bit value whatever [std::hash] is, and it separates
    the generations of one id: with an injective 64-bit [std::hash], two handles
    with the same id and the same hash are equal. *)
Theorem handle_hash_separates_generations hash (h k : SessionHandle) :
  is_u64 (SessionHandleHash hash h) /\
  ((forall a b, is_u64 a -> is_u64 b -> u64 (hash a) = u64 (hash b) -> a = b) ->
   is_u64 (generation h) -> is_u64 (generation k) ->
   id h = id k -> SessionHandleHash hash h = SessionHandleHash hash k -> h = k).
Proof.
  split.
  - unfold SessionHandleHash, is_u64, size_max.
    match goal with |- 0 <= Z.lxor ?a ?b <= _ => assert (0 <= Z.lxor a b < 2 ^ 64); [|lia] end.
    apply lxor_range; [lia| |];
      match goal with |- 0 <= ?z < _ => assert (is_u64 z) as Hz by apply u64_range end;
      unfold is_u64, size_max in Hz; lia.
  - intros Hinj Hh Hk Hid He. destruct h as [i g], k as [i' g']. simpl in *. subst i'. f_equal.
    apply Hinj; try done. unfold SessionHandleHash in He. simpl in He.
    apply (f_equal (Z.lxor (u64 (hash i)))) in He.
    rewrite <-!Z.lxor_assoc, Z.lxor_nilpotent, !Z.lxor_0_l in He.
    pose proof (u64_range (hash g)). pose proof (u64_range (hash g')).
    unfold uadd, u64, is_u64, size_max in *. Z.div_mod_to_equations. lia.
Qed.

Lemma handle_hash_separates_generations_witness :
  SessionHandleHash (fun z => z) (mkHandle 1 2) <> SessionHandleHash (fun z => z) (mkHandle 1 3).
Proof.
  intros E.
  assert (mkHandle 1 2 = mkHandle 1 3) as D; [|discriminate D].
  apply (proj2 (handle_hash_separates_generations (fun z => z) (mkHandle 1 2) (mkHandle 1 3))).
  - intros a b Ha Hb. rewrite !u64_small by done. done.
  - unfold is_u64, size_max. simpl. lia.
  - unfold is_u64, size_max. simpl. lia.
  - reflexivity.
  - exact E.
Defined.
