(* ===== verification/RoomRegistry.v ===== *)
(** * [RoomRegistry] (src/src/pubsub/room_registry.hpp)

    Two indexes, room to sessions and session to rooms.  The abstract state is
    one relation, [subscribed]; the invariant says the two indexes hold the same
    relation and never keep an empty set. *)

From S2P Require Import Prelude SessionHandle.

Abbreviation room_name := (list byte).

Inductive RoomResult := Ok | InvalidRoom | Unauthorized | AlreadySubscribed | NotSubscribed.

#[export] Instance RoomResult_eq_dec : EqDecision RoomResult.
Proof. solve_decision. Defined.

(** [std::function<bool(SessionHandle, const std::string&, bool)>]; [None] is
    the empty function.  The registry's authorizer reads state of its owner, so
    it is an argument of each call: what it answers at that time. *)
Abbreviation Authorizer := (option (SessionHandle -> room_name -> bool -> bool)).

Record RoomRegistry := mkRegistry {
  room_to_sessions_ : gmap room_name (gset SessionHandle);
  session_to_rooms_ : gmap SessionHandle (gset room_name);
}.

Definition construct : RoomRegistry := mkRegistry ∅ ∅.

Definition prefixes : list room_name :=
  map bstr ["match:"; "facility:"; "court:"; "equipment:"; "booking:user:"]%string.

Definition starts_with (s prefix : list byte) : bool :=
  bool_decide (take (length prefix) s = prefix).

Definition room_char (c : byte) : bool :=
  let value := b2z c in
  ((97 <=? value) && (value <=? 122)) || ((65 <=? value) && (value <=? 90)) ||
  ((48 <=? value) && (value <=? 57)) ||
  (value =? 58) || (value =? 45) || (value =? 95) || (value =? 46).

Definition IsValidRoom (room : room_name) : bool :=
  if (size_of room =? 0) || (160 <? size_of room) then false else
  let valid_prefix := existsb (fun prefix => starts_with room prefix) prefixes in
  if negb valid_prefix then false else forallb room_char room.

Definition authorized (authorizer : Authorizer) (session : SessionHandle) (room : room_name)
  (publishing : bool) : bool :=
  match authorizer with Some f => f session room publishing | None => true end.

Definition Join (authorizer : Authorizer) (session : SessionHandle) (room : room_name)
  (reg : RoomRegistry) : RoomResult * RoomRegistry :=
  if negb (IsValidRoom room) then (InvalidRoom, reg) else
  if negb (authorized authorizer session room false) then (Unauthorized, reg) else
  (* [session_to_rooms_[session]] creates an empty set when there is none *)
  let rooms := default ∅ (session_to_rooms_ reg !! session) in
  if bool_decide (room ∈ rooms) then
    (AlreadySubscribed,
     mkRegistry (room_to_sessions_ reg) (<[session := rooms]> (session_to_rooms_ reg)))
  else
    (Ok,
     mkRegistry
       (<[room := {[session]} ∪ default ∅ (room_to_sessions_ reg !! room)]> (room_to_sessions_ reg))
       (<[session := {[room]} ∪ rooms]> (session_to_rooms_ reg))).

(** Erase [session] from the set of [room], and the set when it becomes empty. *)
Definition erase_member (session : SessionHandle) (room : room_name)
  (r2s : gmap room_name (gset SessionHandle)) : gmap room_name (gset SessionHandle) :=
  match r2s !! room with
  | None => r2s
  | Some members =>
      let members := members ∖ {[session]} in
      if bool_decide (members = ∅) then delete room r2s else <[room := members]> r2s
  end.

Definition Leave (session : SessionHandle) (room : room_name) (reg : RoomRegistry)
  : RoomResult * RoomRegistry :=
  match session_to_rooms_ reg !! session with
  | None => (NotSubscribed, reg)
  | Some rooms =>
      if bool_decide (room ∉ rooms) then (NotSubscribed, reg) else
      let rooms := rooms ∖ {[room]} in
      let s2r := if bool_decide (rooms = ∅) then delete session (session_to_rooms_ reg)
                 else <[session := rooms]> (session_to_rooms_ reg) in
      (Ok, mkRegistry (erase_member session room (room_to_sessions_ reg)) s2r)
  end.

Definition AuthorizePublish (authorizer : Authorizer) (session : SessionHandle) (room : room_name)
  (reg : RoomRegistry) : RoomResult :=
  if negb (IsValidRoom room) then InvalidRoom else
  if negb (authorized authorizer session room true) then Unauthorized else
  match session_to_rooms_ reg !! session with
  | None => NotSubscribed
  | Some rooms => if bool_decide (room ∉ rooms) then NotSubscribed else Ok
  end.

(** The order of an [unordered_set]'s elements is unspecified; [elements] picks one. *)
Definition Snapshot (room : room_name) (reg : RoomRegistry) : list SessionHandle :=
  match room_to_sessions_ reg !! room with
  | None => []
  | Some members => elements members
  end.

Definition RemoveSession (session : SessionHandle) (reg : RoomRegistry) : RoomRegistry :=
  match session_to_rooms_ reg !! session with
  | None => reg
  | Some rooms =>
      mkRegistry
        (foldl (fun r2s room => erase_member session room r2s) (room_to_sessions_ reg) (elements rooms))
        (delete session (session_to_rooms_ reg))
  end.

(** ** Abstract state and invariant *)

Definition subscribed (reg : RoomRegistry) (s : SessionHandle) (r : room_name) : Prop :=
  exists rooms, session_to_rooms_ reg !! s = Some rooms /\ r ∈ rooms.

Definition member (r2s : gmap room_name (gset SessionHandle)) (s : SessionHandle) (r : room_name) : Prop :=
  exists members, r2s !! r = Some members /\ s ∈ members.

Record wf (reg : RoomRegistry) : Prop := {
  wf_agree : forall s r, member (room_to_sessions_ reg) s r <-> subscribed reg s r;
  wf_rooms_nonempty : forall r members, room_to_sessions_ reg !! r = Some members -> members <> ∅;
  wf_sessions_nonempty : forall s rooms, session_to_rooms_ reg !! s = Some rooms -> rooms <> ∅;
  wf_valid : forall s r, subscribed reg s r -> IsValidRoom r = true;
}.

Lemma member_empty s r : ~ member ∅ s r.
Proof. intros (m & E & _). rewrite lookup_empty in E. done. Qed.

Lemma erase_member_member s r r2s s' r' :
  member (erase_member s r r2s) s' r' <-> member r2s s' r' /\ ~ (s' = s /\ r' = r).
Proof.
  unfold erase_member, member. destruct (r2s !! r) as [ms|] eqn:E.
  - destruct (decide (r' = r)) as [->|Hr].
    + rewrite E. case_bool_decide as He.
      * rewrite lookup_delete_eq. split; [intros (m & Em & _); done|].
        intros [(m & Em & Hm) Hn]. injection Em as <-. exfalso.
        assert (s' ∈ ms ∖ {[s]}) as Hin by set_solver. rewrite He in Hin. set_solver.
      * rewrite lookup_insert_eq. split.
        -- intros (m & Em & Hm). injection Em as <-. apply elem_of_difference in Hm as [Hm Hs].
           split; [eauto|]. intros [-> _]. set_solver.
        -- intros [(m & Em & Hm) Hn]. injection Em as <-. eexists. split; [done|]. set_solver.
    + case_bool_decide as Hb; [rewrite lookup_delete_ne by done|rewrite lookup_insert_ne by done];
        split; intros H; try (split; [exact H|]; intros [_ ?]; done); apply H.
  - split; [|intros [H _]; exact H]. intros (m & Em & Hm). split; [eauto|].
    intros [-> ->]. congruence.
Qed.

Lemma erase_member_nonempty s r r2s :
  (forall r members, r2s !! r = Some members -> members <> ∅) ->
  forall r' members, erase_member s r r2s !! r' = Some members -> members <> ∅.
Proof.
  intros H r' m. unfold erase_member. destruct (r2s !! r) as [ms|] eqn:E; [|by apply H].
  case_bool_decide as He.
  - rewrite lookup_delete. case_decide; [done|apply H].
  - rewrite lookup_insert. case_decide; [naive_solver|apply H].
Qed.

Lemma erase_all s l r2s s' r' :
  member (foldl (fun r2s room => erase_member s room r2s) r2s l) s' r' <->
  member r2s s' r' /\ ~ (s' = s /\ r' ∈ l).
Proof.
  revert r2s. induction l as [|r l IH]; intros r2s; simpl.
  - pose proof (not_elem_of_nil r'). tauto.
  - rewrite IH, erase_member_member, elem_of_cons. tauto.
Qed.

Lemma erase_all_nonempty s l r2s :
  (forall r members, r2s !! r = Some members -> members <> ∅) ->
  forall r' members,
    foldl (fun r2s room => erase_member s room r2s) r2s l !! r' = Some members -> members <> ∅.
Proof.
  revert r2s. induction l as [|r l IH]; intros r2s H; simpl; [done|].
  apply IH. by apply erase_member_nonempty.
Qed.

(** ** Refinement: each operation on the subscription relation *)

Lemma subscribed_insert r2s s2r s rooms s' r' :
  subscribed (mkRegistry r2s (<[s := rooms]> s2r)) s' r' <->
  (s' = s /\ r' ∈ rooms) \/ (s' <> s /\ subscribed (mkRegistry r2s s2r) s' r').
Proof.
  unfold subscribed. simpl. rewrite lookup_insert. case_decide as H.
  - subst. split; [intros (x & E & Hx); simplify_eq; by left|].
    intros [[_ ?]|[? _]]; [eauto|done].
  - split; [intros; right; done|]. intros [[? _]|[_ ?]]; [congruence|done].
Qed.

Lemma subscribed_delete r2s s2r s s' r' :
  subscribed (mkRegistry r2s (delete s s2r)) s' r' <->
  s' <> s /\ subscribed (mkRegistry r2s s2r) s' r'.
Proof.
  unfold subscribed. simpl. rewrite lookup_delete. case_decide as H.
  - subst. split; [intros (x & E & _); done|tauto].
  - split; [intros; split; [congruence|done]|tauto].
Qed.

Lemma Join_refines a s r reg :
  wf reg ->
  let '(res, reg') := Join a s r reg in
  wf reg' /\
  (res = InvalidRoom <-> IsValidRoom r = false) /\
  (res = Unauthorized <-> IsValidRoom r = true /\ authorized a s r false = false) /\
  (res = AlreadySubscribed <->
     IsValidRoom r = true /\ authorized a s r false = true /\ subscribed reg s r) /\
  (res = Ok <-> IsValidRoom r = true /\ authorized a s r false = true /\ ~ subscribed reg s r) /\
  (forall s' r', subscribed reg' s' r' <->
     subscribed reg s' r' \/ (res = Ok /\ s' = s /\ r' = r)).
Proof.
  intros W. unfold Join.
  destruct (IsValidRoom r) eqn:V; [|simpl; split_and!; try done; naive_solver].
  destruct (authorized a s r false) eqn:Au; [|simpl; split_and!; try done; naive_solver].
  cbn [negb]. case_bool_decide as Hin.
  - destruct (session_to_rooms_ reg !! s) as [rooms|] eqn:E; simpl in *; [|set_solver].
    assert (Hsub : subscribed reg s r) by (exists rooms; done).
    assert (Hid : mkRegistry (room_to_sessions_ reg) (<[s := rooms]> (session_to_rooms_ reg)) = reg).
    { rewrite insert_id by done. by destruct reg. }
    rewrite Hid. split_and!; try done; naive_solver.
  - assert (Hsub : ~ subscribed reg s r).
    { intros (rooms & E & Hr). apply Hin. rewrite E. done. }
    set (rooms := default ∅ (session_to_rooms_ reg !! s)) in *.
    assert (Hs : forall s' r',
      subscribed (mkRegistry
        (<[r := {[s]} ∪ default ∅ (room_to_sessions_ reg !! r)]> (room_to_sessions_ reg))
        (<[s := {[r]} ∪ rooms]> (session_to_rooms_ reg))) s' r' <->
      subscribed reg s' r' \/ (s' = s /\ r' = r)).
    { intros s' r'. rewrite subscribed_insert, elem_of_union, elem_of_singleton.
      destruct (decide (s' = s)) as [->|Hne].
      - assert (r' ∈ rooms <-> subscribed reg s r').
        { unfold rooms, subscribed. destruct (session_to_rooms_ reg !! s); simpl;
            [naive_solver|]. split; [set_solver|naive_solver]. }
        unfold subscribed in *. simpl. tauto.
      - unfold subscribed. simpl. tauto. }
    split_and!; try done; try naive_solver.
    destruct W as [Wa Wr Ws Wv]. constructor.
    + intros s' r'. rewrite Hs, <-Wa. unfold member. simpl. rewrite lookup_insert.
      case_decide as Hr; [subst r'|naive_solver].
      split.
      * intros (m & Em & Hm). simplify_eq. apply elem_of_union in Hm as [Hm|Hm].
        -- apply elem_of_singleton in Hm. naive_solver.
        -- left. destruct (room_to_sessions_ reg !! r); simpl in Hm; [eauto|set_solver].
      * intros [(m & Em & Hm)|[-> _]]; eexists; (split; [done|]); rewrite ?Em; set_solver.
    + simpl. intros r' m. rewrite lookup_insert. case_decide; [|apply Wr].
      intros; simplify_eq. set_solver.
    + simpl. intros s' m. rewrite lookup_insert. case_decide; [|apply Ws].
      intros; simplify_eq. set_solver.
    + intros s' r' [H|[-> ->]]%Hs; [by eapply Wv|done].
Qed.

Lemma Leave_refines s r reg :
  wf reg ->
  let '(res, reg') := Leave s r reg in
  wf reg' /\
  (res = Ok <-> subscribed reg s r) /\ (res = NotSubscribed <-> ~ subscribed reg s r) /\
  (forall s' r', subscribed reg' s' r' <-> subscribed reg s' r' /\ ~ (s' = s /\ r' = r)).
Proof.
  intros W. unfold Leave. destruct (session_to_rooms_ reg !! s) as [rooms|] eqn:E.
  2: { assert (N : forall r', ~ subscribed reg s r') by (intros r' (x & Ex & _); congruence).
       split_and!; try done.
       - split; [done|]. intros H. by apply N in H.
       - intros s' r'. split; [|tauto]. intros H. split; [done|]. intros [-> ->]. by apply N in H. }
  assert (Hrooms : forall r', r' ∈ rooms <-> subscribed reg s r').
  { intros r'. unfold subscribed. rewrite E. split; [eauto|]. intros (x & Ex & Hx). congruence. }
  case_bool_decide as Hin.
  { rewrite Hrooms in Hin. split_and!; try done.
    intros s' r'. split; [|tauto]. intros H. split; [done|]. intros [-> ->]. done. }
  rewrite Hrooms in Hin.
  set (s2r := if bool_decide (rooms ∖ {[r]} = ∅) then _ else _).
  assert (Hs : forall r2s s' r', subscribed (mkRegistry r2s s2r) s' r' <->
    subscribed reg s' r' /\ ~ (s' = s /\ r' = r)).
  { intros r2s s' r'. unfold s2r. case_bool_decide as He.
    - rewrite subscribed_delete. change (subscribed (mkRegistry _ _)) with (subscribed reg).
      split; [tauto|]. intros [Hs Hn]. split; [|done]. intros ->. apply Hrooms in Hs.
      assert (r' ∈ rooms ∖ {[r]}) as Hd by set_solver. rewrite He in Hd. set_solver.
    - rewrite subscribed_insert. change (subscribed (mkRegistry _ _)) with (subscribed reg).
      destruct (decide (s' = s)) as [->|Hne]; [|tauto].
      rewrite elem_of_difference, elem_of_singleton, Hrooms. tauto. }
  split_and!; try done.
  destruct W as [Wa Wr Ws Wv]. constructor; simpl.
  - intros s' r'. rewrite erase_member_member, Hs, Wa. done.
  - by apply erase_member_nonempty.
  - intros s' m. unfold s2r. case_bool_decide as He.
    + rewrite lookup_delete. case_decide; [done|apply Ws].
    + rewrite lookup_insert. case_decide; [|apply Ws]. intros; simplify_eq. done.
  - intros s' r' [H _]%Hs. by eapply Wv.
Qed.

Lemma RemoveSession_refines s reg :
  wf reg ->
  wf (RemoveSession s reg) /\ session_to_rooms_ (RemoveSession s reg) !! s = None /\
  (forall s' r', subscribed (RemoveSession s reg) s' r' <-> subscribed reg s' r' /\ s' <> s).
Proof.
  intros W. unfold RemoveSession. destruct (session_to_rooms_ reg !! s) as [rooms|] eqn:E.
  2: { split_and!; try done. intros s' r'. split; [|tauto]. intros H. split; [done|].
       intros ->. destruct H as (x & Ex & _). congruence. }
  assert (Hs : forall r2s s' r', subscribed (mkRegistry r2s (delete s (session_to_rooms_ reg))) s' r' <->
    subscribed reg s' r' /\ s' <> s).
  { intros. rewrite subscribed_delete. change (subscribed (mkRegistry _ _)) with (subscribed reg). tauto. }
  split_and!; [|apply lookup_delete_eq|done]. destruct W as [Wa Wr Ws Wv]. constructor; simpl.
  - intros s' r'. rewrite erase_all, Hs, Wa, elem_of_elements. split; [|tauto].
    intros [H Hn]. split; [done|]. intros ->. apply Hn. split; [done|].
    destruct H as (x & Ex & Hx). congruence.
  - by apply erase_all_nonempty.
  - intros s' m. rewrite lookup_delete. case_decide; [done|apply Ws].
  - intros s' r' [H _]%Hs. by eapply Wv.
Qed.

Lemma Snapshot_members r reg s : wf reg -> s ∈ Snapshot r reg <-> subscribed reg s r.
Proof.
  intros W. rewrite <-(wf_agree _ W). unfold Snapshot, member.
  destruct (room_to_sessions_ reg !! r) as [ms|] eqn:E.
  - rewrite elem_of_elements. split; [eauto|]. intros (m & Em & Hm). congruence.
  - split; [intros H; by apply not_elem_of_nil in H|]. intros (m & Em & _). done.
Qed.

Lemma Snapshot_nodup r reg : NoDup (Snapshot r reg).
Proof. unfold Snapshot. case_match; [apply NoDup_elements|constructor]. Qed.

Lemma registry_construct_wf : wf construct.
Proof.
  constructor; simpl; intros *; rewrite ?lookup_empty; try done.
  - split; [intros H; by apply member_empty in H|]. intros (x & E & _).
    simpl in E. rewrite lookup_empty in E. done.
  - intros (x & E & _). simpl in E. rewrite lookup_empty in E. done.
Qed.

Lemma AuthorizePublish_ok a s r reg :
  AuthorizePublish a s r reg = Ok <->
  IsValidRoom r = true /\ authorized a s r true = true /\ subscribed reg s r.
Proof.
  unfold AuthorizePublish, subscribed.
  destruct (IsValidRoom r); [|naive_solver]. destruct (authorized a s r true); [|naive_solver].
  simpl. destruct (session_to_rooms_ reg !! s) as [rooms|]; [|naive_solver].
  case_bool_decide as H; naive_solver.
Qed.

(** ** Runs of the registry *)

Inductive room_call :=
| CallJoin (a : Authorizer) (s : SessionHandle) (r : room_name)
| CallLeave (s : SessionHandle) (r : room_name)
| CallRemove (s : SessionHandle).

Definition perform (c : room_call) (reg : RoomRegistry) : RoomRegistry :=
  match c with
  | CallJoin a s r => (Join a s r reg).2
  | CallLeave s r => (Leave s r reg).2
  | CallRemove s => RemoveSession s reg
  end.

Lemma perform_wf c reg : wf reg -> wf (perform c reg).
Proof.
  intros W. destruct c as [a s r|s r|s]; simpl.
  - pose proof (Join_refines a s r reg W) as H. destruct (Join a s r reg). apply H.
  - pose proof (Leave_refines s r reg W) as H. destruct (Leave s r reg). apply H.
  - by apply RemoveSession_refines.
Qed.

Lemma performs_wf calls reg : wf reg -> wf (foldl (fun reg c => perform c reg) reg calls).
Proof. revert reg. induction calls as [|c calls IH]; intros reg W; [done|]. by apply IH, perform_wf. Qed.

(** In every reachable registry the two indexes hold the same subscription
    relation, no room or session keeps an empty set (so neither index leaks),
    every subscribed room name is valid, and a room's snapshot lists exactly
    its subscribers, each once. *)
Theorem registry_consistent calls :
  let reg := foldl (fun reg c => perform c reg) construct calls in
  wf reg /\
  forall r, NoDup (Snapshot r reg) /\ forall s, s ∈ Snapshot r reg <-> subscribed reg s r.
Proof.
  pose proof (performs_wf calls construct registry_construct_wf) as W. split; [done|].
  intros r. split; [apply Snapshot_nodup|]. intros s. by apply Snapshot_members.
Qed.

(** [Join] answers with the first reason that applies (invalid room, not
    authorized, already subscribed) and adds exactly the pair it accepted;
    [Leave] succeeds exactly for a subscribed pair and removes only it;
    [RemoveSession] removes exactly the session's pairs. *)
Theorem registry_operations calls a s r :
  let reg := foldl (fun reg c => perform c reg) construct calls in
  let '(j, joined) := Join a s r reg in
  let '(l, gone) := Leave s r reg in
  (j = Ok <-> IsValidRoom r = true /\ authorized a s r false = true /\ ~ subscribed reg s r) /\
  (j = InvalidRoom <-> IsValidRoom r = false) /\
  (j = Unauthorized <-> IsValidRoom r = true /\ authorized a s r false = false) /\
  (forall s' r', subscribed joined s' r' <-> subscribed reg s' r' \/ (j = Ok /\ s' = s /\ r' = r)) /\
  (l = Ok <-> subscribed reg s r) /\
  (forall s' r', subscribed gone s' r' <-> subscribed reg s' r' /\ ~ (s' = s /\ r' = r)) /\
  (forall s' r', subscribed (RemoveSession s reg) s' r' <-> subscribed reg s' r' /\ s' <> s).
Proof.
  pose proof (performs_wf calls construct registry_construct_wf) as W. cbv zeta.
  set (reg := foldl _ _ _) in *.
  pose proof (Join_refines a s r reg W) as J. destruct (Join a s r reg) as [j joined].
  pose proof (Leave_refines s r reg W) as L. destruct (Leave s r reg) as [l gone].
  pose proof (RemoveSession_refines s reg W) as R. tauto.
Qed.

(** Publishing is authorized exactly when the room name is valid, the
    authorizer allows publishing and the session is subscribed: then the
    publisher itself is in the snapshot that is sent to. *)
Theorem publish_requires_subscription calls a s r :
  let reg := foldl (fun reg c => perform c reg) construct calls in
  AuthorizePublish a s r reg = Ok <->
  IsValidRoom r = true /\ authorized a s r true = true /\ s ∈ Snapshot r reg.
Proof.
  pose proof (performs_wf calls construct registry_construct_wf) as W. cbv zeta.
  rewrite Snapshot_members by done. apply AuthorizePublish_ok.
Qed.

(** The names the documentation calls valid. *)
Definition documented_room (r : room_name) : Prop :=
  (exists p rest, p ∈ prefixes /\ r = p ++ rest) /\ 1 <= size_of r <= 160 /\
  Forall (fun c => room_char c = true) r.

(** [IsValidRoom] accepts exactly the documented room names: a known prefix,
    1 to 160 bytes, and only letters, digits, colon, dash, underscore, dot. *)
Theorem valid_room_documented r : IsValidRoom r = true <-> documented_room r.
Proof.
  unfold IsValidRoom, documented_room. pose proof (size_nonneg r). split_if.
  { split; [done|]. intros (_ & ? & _). lia. }
  assert (Hp : existsb (fun prefix => starts_with r prefix) prefixes = true <->
    exists p rest, p ∈ prefixes /\ r = p ++ rest).
  { rewrite existsb_exists. unfold starts_with. setoid_rewrite bool_decide_eq_true. split.
    - intros (p & Hin & E). exists p, (drop (length p) r). split; [by apply list_elem_of_In|].
      rewrite <-E at 1. symmetry. apply take_drop.
    - intros (p & rest & Hin & ->). exists p. split; [by apply list_elem_of_In|].
      apply take_app_length. }
  rewrite <-Hp, <-(forallb_Forall room_char r). destruct (existsb _ prefixes); simpl.
  - split; [intros; split_and!; try done; lia|tauto].
  - split; [done|]. intros [? _]. done.
Qed.
