(* ===== verification/Utf8.v ===== *)
(** * UTF-8 validation: [IsValidUtf8] (src/src/transport/websocket_transport.cpp)

    The scanner is modelled on the bytes behind its [index].  It is proved to
    accept exactly the encodings of sequences of Unicode scalar values. *)

From S2P Require Import Prelude.

(** The [for] loop over the trailing bytes: the code point and the rest, or
    [None] for [return false].  The caller has checked that the bytes exist. *)
Fixpoint trailing_bytes (trailing : nat) (codepoint : Z) (rest : list byte)
  : option (Z * list byte) :=
  match trailing with
  | O => Some (codepoint, rest)
  | S trailing =>
      match rest with
      | [] => None
      | next :: rest =>
          if negb (Z.land (b2z next) 192 =? 128) then None
          else trailing_bytes trailing
                 (Z.lor (u32 (Z.shiftl codepoint 6)) (Z.land (b2z next) 63)) rest
      end
  end.

(** The number of trailing bytes and the first bits of the code point. *)
Definition lead_byte (first : Z) : option (nat * Z) :=
  if Z.land first 224 =? 192 then Some (1%nat, Z.land first 31)
  else if Z.land first 240 =? 224 then Some (2%nat, Z.land first 15)
  else if Z.land first 248 =? 240 then Some (3%nat, Z.land first 7)
  else None.

Definition bad_codepoint (trailing : nat) (codepoint : Z) : bool :=
  ((trailing =? 1)%nat && (codepoint <? 128)) ||
  ((trailing =? 2)%nat && (codepoint <? 2048)) ||
  ((trailing =? 3)%nat && (codepoint <? 65536)) ||
  (1114111 <? codepoint) || ((55296 <=? codepoint) && (codepoint <=? 57343)).

(** The [while] loop; [None] means the fuel ran out. *)
Fixpoint IsValidUtf8_loop (fuel : nat) (bytes : list byte) : option bool :=
  match fuel with
  | O => None
  | S fuel =>
      match bytes with
      | [] => Some true
      | first :: rest =>
          if b2z first <=? 127 then IsValidUtf8_loop fuel rest else
          match lead_byte (b2z first) with
          | None => Some false
          | Some (trailing, codepoint) =>
              if (length rest <? trailing)%nat then Some false else
              match trailing_bytes trailing codepoint rest with
              | None => Some false
              | Some (codepoint, rest) =>
                  if bad_codepoint trailing codepoint then Some false
                  else IsValidUtf8_loop fuel rest
              end
          end
      end
  end.

Definition IsValidUtf8 (bytes : list byte) : bool :=
  default false (IsValidUtf8_loop (S (length bytes)) bytes).

(** ** Specification: the encoding of scalar values *)

Definition scalar (c : Z) : Prop :=
  0 <= c <= 1114111 /\ ~ (55296 <= c <= 57343).

Definition utf8_encode (c : Z) : list byte :=
  if c <? 128 then [z2b c]
  else if c <? 2048 then [z2b (192 + c / 64); z2b (128 + c mod 64)]
  else if c <? 65536 then
    [z2b (224 + c / 4096); z2b (128 + c / 64 mod 64); z2b (128 + c mod 64)]
  else [z2b (240 + c / 262144); z2b (128 + c / 4096 mod 64);
        z2b (128 + c / 64 mod 64); z2b (128 + c mod 64)].

Definition utf8_string (bytes : list byte) : Prop :=
  exists cs, Forall scalar cs /\ bytes = concat (map utf8_encode cs).

(** ** The bit tests as intervals *)

Lemma is_trailing b : (Z.land (b2z b) 192 =? 128) = (128 <=? b2z b) && (b2z b <? 192).
Proof. destruct b; reflexivity. Qed.

Lemma trailing_value b : 128 <= b2z b < 192 -> Z.land (b2z b) 63 = b2z b - 128.
Proof. destruct b; vm_compute; intros [? ?]; try done; congruence. Qed.

Lemma lead_byte_spec b :
  lead_byte (b2z b) =
    if (192 <=? b2z b) && (b2z b <? 224) then Some (1%nat, b2z b - 192)
    else if (224 <=? b2z b) && (b2z b <? 240) then Some (2%nat, b2z b - 224)
    else if (240 <=? b2z b) && (b2z b <? 248) then Some (3%nat, b2z b - 240)
    else None.
Proof. destruct b; reflexivity. Qed.

Lemma push_bits cp t : 0 <= cp < 67108864 -> 0 <= t < 64 ->
  Z.lor (u32 (Z.shiftl cp 6)) t = cp * 64 + t.
Proof.
  intros. rewrite Z.shiftl_mul_pow2 by lia. rewrite u32_small by lia.
  apply (lor_mul_add cp t 6); lia.
Qed.

(** Reading [n] trailing bytes, as arithmetic. *)
Lemma trailing_bytes_cons n cp b rest :
  0 <= cp < 67108864 ->
  trailing_bytes (S n) cp (b :: rest) =
    if (128 <=? b2z b) && (b2z b <? 192)
    then trailing_bytes n (cp * 64 + (b2z b - 128)) rest else None.
Proof.
  intros. cbn [trailing_bytes]. rewrite is_trailing.
  destruct ((128 <=? b2z b) && (b2z b <? 192)) eqn:E; [|done]. simpl.
  apply andb_true_iff in E. rewrite Z.leb_le, Z.ltb_lt in E.
  rewrite trailing_value, push_bits by lia. done.
Qed.

Lemma trailing_bytes_length n cp rest cp' rest' :
  trailing_bytes n cp rest = Some (cp', rest') -> (length rest' <= length rest)%nat.
Proof.
  revert cp rest. induction n as [|n IH]; intros cp rest; simpl; [naive_solver|].
  destruct rest as [|b rest]; [done|]. split_if; [done|]. intros H%IH. simpl. lia.
Qed.

(** The loop has enough fuel. *)
Lemma IsValidUtf8_loop_total fuel bytes :
  (length bytes < fuel)%nat -> is_Some (IsValidUtf8_loop fuel bytes).
Proof.
  revert bytes. induction fuel as [|fuel IH]; intros bytes H; [lia|]. simpl.
  destruct bytes as [|b rest]; [eauto|]. simpl in H. split_if; [apply IH; lia|].
  destruct (lead_byte (b2z b)) as [[n cp]|]; [|eauto]. split_if; [eauto|].
  destruct (trailing_bytes n cp rest) as [[cp' rest']|] eqn:E; [|eauto].
  apply trailing_bytes_length in E. split_if; [eauto|]. apply IH. lia.
Qed.

#[local] Ltac Zify.zify_post_hook ::= Z.div_mod_to_equations.

(** One character.  [utf8_step n cp b0 rest cp' rest']: the lead byte [b0]
    announces [n] trailing bytes, which give [cp'] and leave [rest']. *)
Lemma loop_multibyte fuel b0 rest n cp cp' rest' :
  127 < b2z b0 -> lead_byte (b2z b0) = Some (n, cp) -> (n <= length rest)%nat ->
  trailing_bytes n cp rest = Some (cp', rest') -> bad_codepoint n cp' = false ->
  IsValidUtf8_loop (S fuel) (b0 :: rest) = IsValidUtf8_loop fuel rest'.
Proof.
  intros H0 Hl Hn Ht Hb. cbn [IsValidUtf8_loop]. split_if; [lia|]. rewrite Hl.
  destruct (Nat.ltb_spec (length rest) n); [lia|]. rewrite Ht, Hb. done.
Qed.

Lemma trailing_encode n cp t rest :
  0 <= cp < 67108864 -> 0 <= t < 64 ->
  trailing_bytes (S n) cp (z2b (128 + t) :: rest) = trailing_bytes n (cp * 64 + t) rest.
Proof.
  intros. rewrite trailing_bytes_cons by done. rewrite b2z_z2b_small by lia.
  split_if; [f_equal; lia|]. lia.
Qed.

Lemma loop_encode fuel c rest :
  scalar c ->
  IsValidUtf8_loop (S fuel) (utf8_encode c ++ rest) = IsValidUtf8_loop fuel rest.
Proof.
  intros [Hr Hs]. unfold utf8_encode.
  split_if; [|split_if; [|split_if]]; cbn [app].
  - cbn [IsValidUtf8_loop]. rewrite b2z_z2b_small by lia. split_if; [done|lia].
  - apply (loop_multibyte fuel _ _ 1 (c / 64) c); rewrite ?b2z_z2b_small by lia;
      [lia| |simpl; lia| |].
    + rewrite <-(b2z_z2b_small (192 + c / 64)) by lia.
      rewrite lead_byte_spec, b2z_z2b_small by lia. split_if; [do 2 f_equal; lia|lia].
    + rewrite trailing_encode by lia. simpl. do 2 f_equal. lia.
    + unfold bad_codepoint. simpl. lia.
  - apply (loop_multibyte fuel _ _ 2 (c / 4096) c); rewrite ?b2z_z2b_small by lia;
      [lia| |simpl; lia| |].
    + rewrite <-(b2z_z2b_small (224 + c / 4096)) by lia.
      rewrite lead_byte_spec, b2z_z2b_small by lia. split_if; [lia|].
      split_if; [do 2 f_equal; lia|lia].
    + rewrite !trailing_encode by lia. simpl. do 2 f_equal. lia.
    + unfold bad_codepoint. simpl. lia.
  - apply (loop_multibyte fuel _ _ 3 (c / 262144) c); rewrite ?b2z_z2b_small by lia;
      [lia| |simpl; lia| |].
    + rewrite <-(b2z_z2b_small (240 + c / 262144)) by lia.
      rewrite lead_byte_spec, b2z_z2b_small by lia. split_if; [lia|]. split_if; [lia|].
      split_if; [do 2 f_equal; lia|lia].
    + rewrite !trailing_encode by lia. simpl. do 2 f_equal. lia.
    + unfold bad_codepoint. simpl. lia.
Qed.

Lemma z2b_of b z : z = b2z b -> z2b z = b.
Proof. intros ->. apply z2b_b2z. Qed.

(** Conversely, a character the loop accepts is the encoding of a scalar value. *)
Lemma decode_char b0 rest n cp cp' rest' :
  127 < b2z b0 -> lead_byte (b2z b0) = Some (n, cp) ->
  trailing_bytes n cp rest = Some (cp', rest') -> bad_codepoint n cp' = false ->
  scalar cp' /\ b0 :: rest = utf8_encode cp' ++ rest'.
Proof.
  intros H0 Hl Ht Hb. rewrite lead_byte_spec in Hl. pose proof (b2z_range b0).
  split_if_in Hl; [|split_if_in Hl; [|split_if_in Hl; [|done]]]; simplify_eq.
  - destruct rest as [|b1 rest]; [done|]. rewrite trailing_bytes_cons in Ht by lia.
    split_if_in Ht; [|done]. simpl in Ht. simplify_eq. unfold bad_codepoint in Hb. simpl in Hb.
    set (c := (b2z b0 - 192) * 64 + (b2z b1 - 128)) in *.
    split; [unfold scalar; lia|]. unfold utf8_encode. split_if; [lia|]. split_if; [|lia].
    simpl. rewrite (z2b_of b0), (z2b_of b1) by (unfold c; lia). done.
  - destruct rest as [|b1 rest]; [done|]. rewrite trailing_bytes_cons in Ht by lia.
    split_if_in Ht; [|done]. destruct rest as [|b2 rest]; [done|].
    rewrite trailing_bytes_cons in Ht by lia. split_if_in Ht; [|done].
    simpl in Ht. simplify_eq. unfold bad_codepoint in Hb. simpl in Hb.
    set (c := _ * 64 + (b2z b2 - 128)) in *.
    split; [unfold scalar; lia|]. unfold utf8_encode. split_if; [lia|]. split_if; [lia|].
    split_if; [|lia].
    simpl. rewrite (z2b_of b0), (z2b_of b1), (z2b_of b2) by (unfold c; lia). done.
  - destruct rest as [|b1 rest]; [done|]. rewrite trailing_bytes_cons in Ht by lia.
    split_if_in Ht; [|done]. destruct rest as [|b2 rest]; [done|].
    rewrite trailing_bytes_cons in Ht by lia. split_if_in Ht; [|done].
    destruct rest as [|b3 rest]; [done|].
    rewrite trailing_bytes_cons in Ht by lia. split_if_in Ht; [|done].
    simpl in Ht. simplify_eq. unfold bad_codepoint in Hb. simpl in Hb.
    set (c := _ * 64 + (b2z b3 - 128)) in *.
    split; [unfold scalar; lia|]. unfold utf8_encode. split_if; [lia|]. split_if; [lia|].
    split_if; [lia|].
    simpl. rewrite (z2b_of b0), (z2b_of b1), (z2b_of b2), (z2b_of b3) by (unfold c; lia). done.
Qed.

Lemma utf8_encode_nonempty c : (1 <= length (utf8_encode c))%nat.
Proof. unfold utf8_encode. repeat split_if; simpl; lia. Qed.

Lemma loop_complete cs fuel :
  Forall scalar cs -> (length (concat (map utf8_encode cs)) < fuel)%nat ->
  IsValidUtf8_loop fuel (concat (map utf8_encode cs)) = Some true.
Proof.
  intros F. revert fuel. induction F as [|c cs Hc F IH]; intros fuel Hf; simpl in *.
  - destruct fuel; [lia|]. done.
  - rewrite length_app in Hf. pose proof (utf8_encode_nonempty c).
    destruct fuel as [|fuel]; [lia|]. rewrite loop_encode by done. apply IH. lia.
Qed.

Lemma utf8_string_cons c bytes :
  scalar c -> utf8_string bytes -> utf8_string (utf8_encode c ++ bytes).
Proof. intros Hc (cs & F & ->). exists (c :: cs). split; [by constructor|done]. Qed.

Lemma loop_sound fuel bytes : IsValidUtf8_loop fuel bytes = Some true -> utf8_string bytes.
Proof.
  revert bytes. induction fuel as [|fuel IH]; intros bytes; [done|]. cbn [IsValidUtf8_loop].
  destruct bytes as [|b rest]; [intros _; by exists []|].
  pose proof (b2z_range b). split_if.
  - intros S%IH. assert (E : [b] = utf8_encode (b2z b)).
    { unfold utf8_encode. split_if; [|lia]. rewrite z2b_b2z. done. }
    change (b :: rest) with ([b] ++ rest). rewrite E. apply utf8_string_cons; [|done].
    unfold scalar. lia.
  - destruct (lead_byte (b2z b)) as [[n cp]|] eqn:L; [|done].
    destruct (length rest <? n)%nat; [done|].
    destruct (trailing_bytes n cp rest) as [[cp' rest']|] eqn:T; [|done].
    destruct (bad_codepoint n cp') eqn:B; [done|]. intros S%IH.
    destruct (decode_char b rest n cp cp' rest') as [Hs ->]; [lia|done|done|done|].
    by apply utf8_string_cons.
Qed.

Lemma IsValidUtf8_iff bytes : IsValidUtf8 bytes = true <-> utf8_string bytes.
Proof.
  destruct (IsValidUtf8_loop_total (S (length bytes)) bytes) as [v E]; [lia|].
  unfold IsValidUtf8. rewrite E. simpl. split.
  - intros ->. by eapply loop_sound.
  - intros (cs & F & ->). rewrite loop_complete in E; [congruence|done|lia].
Qed.

(** [IsValidUtf8] accepts exactly the UTF-8 encodings of sequences of
    Unicode scalar values: overlong forms, surrogates, values above U+10FFFF,
    stray and missing trailing bytes are all rejected, and the loop ends. *)
Theorem utf8_exact bytes :
  is_Some (IsValidUtf8_loop (S (length bytes)) bytes) /\
  (IsValidUtf8 bytes = true <-> utf8_string bytes).
Proof. split; [apply IsValidUtf8_loop_total; lia|apply IsValidUtf8_iff]. Qed.
