(* ===== verification/Base64.v ===== *)
(** * Base64 (src/src/transport/websocket_transport.cpp)

    [Base64Encode], [Base64Value] and the check of a client's
    [Sec-WebSocket-Key]. *)

From S2P Require Import Prelude.

Definition Alphabet : list byte :=
  bstr "ABCDEFGHIJKLMNOPQRSTUVWXYZabcdefghijklmnopqrstuvwxyz0123456789+/".

(** One round of the [for] loop: [data[index]], and [data[index + 1]],
    [data[index + 2]] when they exist. *)
Definition encode_group (b0 : byte) (b1 b2 : option byte) : list byte :=
  let value := u32 (Z.shiftl (b2z b0) 16) in
  let value := match b1 with Some b => Z.lor value (u32 (Z.shiftl (b2z b) 8)) | None => value end in
  let value := match b2 with Some b => Z.lor value (b2z b) | None => value end in
  [ Alphabet !!! Z.to_nat (Z.land (Z.shiftr value 18) 63);
    Alphabet !!! Z.to_nat (Z.land (Z.shiftr value 12) 63);
    match b1 with
    | Some _ => Alphabet !!! Z.to_nat (Z.land (Z.shiftr value 6) 63)
    | None => z2b 61
    end;
    match b2 with
    | Some _ => Alphabet !!! Z.to_nat (Z.land value 63)
    | None => z2b 61
    end ].

Fixpoint Base64Encode (data : list byte) : list byte :=
  match data with
  | [] => []
  | [b0] => encode_group b0 None None
  | [b0; b1] => encode_group b0 (Some b1) None
  | b0 :: b1 :: b2 :: rest => encode_group b0 (Some b1) (Some b2) ++ Base64Encode rest
  end.

Definition Base64Value (value : Z) : Z :=
  if (65 <=? value) && (value <=? 90) then value - 65
  else if (97 <=? value) && (value <=? 122) then value - 97 + 26
  else if (48 <=? value) && (value <=? 57) then value - 48 + 52
  else if value =? 43 then 62
  else if value =? 47 then 63
  else -1.

(** The loop of [IsValidWebSocketKey]; [None] is [return false]. *)
Fixpoint key_loop (key : list byte) (decoded bits accumulator : Z) : option Z :=
  match key with
  | [] => Some decoded
  | value :: key =>
      if b2z value =? 61 then Some decoded else
      let digit := Base64Value (b2z value) in
      if digit <? 0 then None else
      let accumulator := Z.lor (u32 (Z.shiftl accumulator 6)) (u32 digit) in
      let bits := bits + 6 in
      if 8 <=? bits then key_loop key (decoded + 1)%u64 (bits - 8) accumulator
      else key_loop key decoded bits accumulator
  end.

Definition IsValidWebSocketKey (key : list byte) : bool :=
  if negb (size_of key =? 24) || negb (b2z (key !!! 22%nat) =? 61)
     || negb (b2z (key !!! 23%nat) =? 61) then false else
  match key_loop key 0 0 0 with
  | None => false
  | Some decoded => decoded =? 16
  end.

(** ** Specification *)

(** The inverse: four digits to three bytes, as RFC 4648 reads them. *)
Definition decode_group (d0 d1 d2 d3 : byte) : list byte :=
  let v c := Base64Value (b2z c) in
  let b0 := z2b (v d0 * 4 + v d1 / 16) in
  let b1 := z2b (v d1 * 16 + v d2 / 4) in
  let b2 := z2b (v d2 * 64 + v d3) in
  if b2z d2 =? 61 then [b0] else if b2z d3 =? 61 then [b0; b1] else [b0; b1; b2].

Fixpoint base64_decode (s : list byte) : list byte :=
  match s with
  | d0 :: d1 :: d2 :: d3 :: rest => decode_group d0 d1 d2 d3 ++ base64_decode rest
  | _ => []
  end.

Definition base64_digit (c : byte) : bool := 0 <=? Base64Value (b2z c).

(** ** Lemmas *)

(** The alphabet and [Base64Value] are inverse on the 64 digits. *)
Lemma alphabet_value n :
  0 <= n < 64 -> Base64Value (b2z (Alphabet !!! Z.to_nat n)) = n /\
    b2z (Alphabet !!! Z.to_nat n) <> 61.
Proof.
  intros H.
  assert (F : forallb (fun k => (Base64Value (b2z (Alphabet !!! k)) =? Z.of_nat k)
                        && negb (b2z (Alphabet !!! k) =? 61)) (seq 0 64) = true) by reflexivity.
  rewrite forallb_forall in F. specialize (F (Z.to_nat n)).
  rewrite in_seq, andb_true_iff, negb_true_iff, Z.eqb_eq, Z.eqb_neq, Z2Nat.id in F by lia.
  apply F. lia.
Qed.

Lemma land_63 z : Z.land z 63 = z mod 64.
Proof. change 63 with (Z.ones 6). rewrite Z.land_ones by lia. done. Qed.

#[local] Ltac Zify.zify_post_hook ::= Z.div_mod_to_equations.

(** Each digit of a group is six bits of the 24-bit value. *)
Lemma encode_group_digits b0 b1 b2 :
  let value := b2z b0 * 65536 + match b1 with Some b => b2z b * 256 | None => 0 end
               + match b2 with Some b => b2z b | None => 0 end in
  encode_group b0 b1 b2 =
    [ Alphabet !!! Z.to_nat (value / 262144 mod 64); Alphabet !!! Z.to_nat (value / 4096 mod 64);
      match b1 with Some _ => Alphabet !!! Z.to_nat (value / 64 mod 64) | None => z2b 61 end;
      match b2 with Some _ => Alphabet !!! Z.to_nat (value mod 64) | None => z2b 61 end ].
Proof.
  intros value. unfold encode_group.
  assert (Hv : (let value := u32 (Z.shiftl (b2z b0) 16) in
    let value := match b1 with Some b => Z.lor value (u32 (Z.shiftl (b2z b) 8)) | None => value end in
    match b2 with Some b => Z.lor value (b2z b) | None => value end) = value).
  { cbv zeta. pose proof (b2z_range b0). rewrite !Z.shiftl_mul_pow2 by lia.
    rewrite (u32_small (b2z b0 * _)) by lia. unfold value.
    destruct b1 as [b1|]; [pose proof (b2z_range b1); rewrite Z.shiftl_mul_pow2, u32_small by lia;
      rewrite (lor_mul_add (b2z b0) _ 16) by lia;
      replace (b2z b0 * 2 ^ 16 + b2z b1 * 2 ^ 8) with ((b2z b0 * 256 + b2z b1) * 2 ^ 8) by lia|
      replace (b2z b0 * 2 ^ 16) with ((b2z b0 * 256) * 2 ^ 8) by lia];
      (destruct b2 as [b2|]; [pose proof (b2z_range b2); rewrite lor_mul_add by lia|]; lia). }
  cbv zeta in Hv. cbv zeta. rewrite Hv. rewrite !land_63, !Z.shiftr_div_pow2 by lia. done.
Qed.

Lemma length_encode_group b0 b1 b2 : length (encode_group b0 b1 b2) = 4%nat.
Proof. done. Qed.

Lemma decode_encode_group b0 b1 b2 rest :
  (b1 = None -> b2 = None) ->
  base64_decode (encode_group b0 b1 b2 ++ rest) =
    b0 :: option_list b1 ++ option_list b2 ++ base64_decode rest.
Proof.
  intros Hn. rewrite encode_group_digits. set (value := _ + _). cbn [app base64_decode].
  pose proof (b2z_range b0).
  assert (H1 : 0 <= match b1 with Some b => b2z b * 256 | None => 0 end <= 65280).
  { destruct b1 as [b|]; [pose proof (b2z_range b)|]; lia. }
  assert (H2 : 0 <= match b2 with Some b => b2z b | None => 0 end < 256).
  { destruct b2 as [b|]; [pose proof (b2z_range b)|]; lia. }
  destruct (alphabet_value (value / 262144 mod 64)) as [D0 _]; [lia|].
  destruct (alphabet_value (value / 4096 mod 64)) as [D1 _]; [lia|].
  destruct (alphabet_value (value / 64 mod 64)) as [D2 N2]; [lia|].
  destruct (alphabet_value (value mod 64)) as [D3 N3]; [lia|].
  assert (B0 : z2b (value / 262144 mod 64 * 4 + value / 4096 mod 64 / 16) = b0).
  { apply b2z_inj. rewrite b2z_z2b. unfold value. lia. }
  unfold decode_group. destruct b1 as [b1|].
  - pose proof (b2z_range b1).
    assert (B1 : z2b (value / 4096 mod 64 * 16 + value / 64 mod 64 / 4) = b1).
    { apply b2z_inj. rewrite b2z_z2b. unfold value. lia. }
    destruct b2 as [b2|].
    + pose proof (b2z_range b2).
      assert (B2 : z2b (value / 64 mod 64 * 64 + value mod 64) = b2).
      { apply b2z_inj. rewrite b2z_z2b. unfold value. lia. }
      rewrite D0, D1, D2, D3, B0, B1, B2. split_if; [done|]. split_if; [done|]. done.
    + rewrite D0, D1, D2, B0, B1. split_if; [done|].
      rewrite b2z_z2b_small by lia. done.
  - rewrite (Hn eq_refl). rewrite D0, D1, B0, b2z_z2b_small by lia. done.
Qed.

(** Induction three bytes at a time. *)
Lemma triple_ind {A} (P : list A -> Prop) :
  P [] -> (forall a, P [a]) -> (forall a b, P [a; b]) ->
  (forall a b c l, P l -> P (a :: b :: c :: l)) -> forall l, P l.
Proof.
  intros H0 H1 H2 H3 l.
  remember (length l) as n eqn:Hn. revert l Hn.
  induction n as [n IH] using lt_wf_ind. intros [|a [|b [|c l]]] Hn; auto.
  apply H3. eapply IH; [|done]. simpl in Hn. lia.
Qed.

Lemma encode_spec data :
  base64_decode (Base64Encode data) = data /\
  size_of (Base64Encode data) = 4 * ((size_of data + 2) / 3).
Proof.
  induction data as [|b0|b0 b1|b0 b1 b2 rest [IH1 IH2]] using triple_ind.
  - done.
  - split; [|done]. cbn [Base64Encode]. rewrite <-(app_nil_r (encode_group _ _ _)).
    rewrite decode_encode_group; done.
  - split; [|done]. cbn [Base64Encode]. rewrite <-(app_nil_r (encode_group _ _ _)).
    rewrite decode_encode_group; done.
  - cbn [Base64Encode]. rewrite decode_encode_group, IH1 by done. split; [done|].
    rewrite size_app, IH2, !size_cons. unfold size_of at 1. rewrite length_encode_group. lia.
Qed.

(** Base64 round-trips: decoding what [Base64Encode] produced gives the data
    back, and the output has four characters for each started group of three. *)
Theorem base64_roundtrip data :
  base64_decode (Base64Encode data) = data /\
  size_of (Base64Encode data) = 4 * ((size_of data + 2) / 3).
Proof. apply encode_spec. Qed.

(** ** The client's key *)

(** The loop counts the bytes in the digits before the padding. *)
Lemma key_loop_digits key decoded bits acc d :
  0 <= bits < 8 -> 0 <= decoded -> decoded + size_of key <= size_max ->
  key_loop key decoded bits acc = Some d <->
  exists ds rest, key = ds ++ rest /\ Forall (fun c => base64_digit c = true) ds /\
    (rest = [] \/ exists rest', rest = z2b 61 :: rest') /\
    d = decoded + (bits + 6 * size_of ds) / 8.
Proof.
  revert decoded bits acc. induction key as [|c key IH]; intros decoded bits acc Hb Hd Hs.
  - simpl. split.
    + intros [= <-]. exists [], []. split_and!; auto. size_simpl.
      rewrite Z.mul_0_r, Z.add_0_r, Z.div_small; lia.
    + intros ([|? ds] & rest & ? & _ & _ & ->); [|done]. f_equal. size_simpl.
      rewrite Z.mul_0_r, Z.add_0_r, Z.div_small; lia.
  - cbn [key_loop]. rewrite size_cons in Hs. pose proof (size_nonneg key).
    destruct (b2z c =? 61) eqn:E; prop_of E.
    + split.
      * intros [= <-]. exists [], (c :: key). split_and!; auto.
        { right. exists key. f_equal. apply b2z_inj. rewrite E. done. }
        { size_simpl. rewrite Z.mul_0_r, Z.add_0_r, Z.div_small; lia. }
      * intros ([|c' ds] & rest & Hk & F & _ & ->).
        { f_equal. size_simpl. rewrite Z.mul_0_r, Z.add_0_r, Z.div_small; lia. }
        simplify_eq/=. apply Forall_cons in F as [F _]. unfold base64_digit in F.
        rewrite E in F. done.
    + destruct (Base64Value (b2z c) <? 0) eqn:V.
      { split; [done|]. intros ([|c' ds] & rest & Hk & F & R & _); simplify_eq/=.
        - destruct R as [?|[rest' R]]; simplify_eq.
        - apply Forall_cons in F as [F _]. unfold base64_digit in F. lia. }
      assert (C : forall P : list byte -> list byte -> Prop,
        (exists ds rest, c :: key = ds ++ rest /\ Forall (fun c => base64_digit c = true) ds /\
          (rest = [] \/ exists rest', rest = z2b 61 :: rest') /\ P ds rest) <->
        (exists ds rest, key = ds ++ rest /\ Forall (fun c => base64_digit c = true) ds /\
          (rest = [] \/ exists rest', rest = z2b 61 :: rest') /\ P (c :: ds) rest)).
      { intros P. split; intros (ds & rest & Hk & F & R & HP).
        - destruct ds as [|c' ds]; simplify_eq/=.
          + destruct R as [?|[rest' R]]; simplify_eq.
          + apply Forall_cons in F as [_ F]. eauto 10.
        - exists (c :: ds), rest. split_and!; auto; [by subst|].
          apply Forall_cons. split; [|done]. unfold base64_digit. lia. }
      cbv zeta. rewrite C. split_if.
      * rewrite uadd_small by u64_side. rewrite IH by lia.
        repeat (apply exist_proper; intros ?). rewrite size_cons.
        do 3 (apply and_iff_compat_l). split; intros ->; lia.
      * rewrite IH by lia. repeat (apply exist_proper; intros ?). rewrite size_cons.
        do 3 (apply and_iff_compat_l). split; intros ->; do 2 f_equal; lia.
Qed.

Lemma digit_not_pad c : base64_digit c = true -> (b2z c =? 61) = false.
Proof. destruct c; done. Qed.

Lemma alphabet_digit n : base64_digit (Alphabet !!! Z.to_nat (n mod 64)) = true.
Proof. unfold base64_digit. destruct (alphabet_value (n mod 64)) as [-> _]; lia. Qed.

Lemma encode_group_full b0 b1 b2 :
  Forall (fun c => base64_digit c = true) (encode_group b0 (Some b1) (Some b2)).
Proof. rewrite encode_group_digits. repeat constructor; apply alphabet_digit. Qed.

Lemma encode_group_single b0 :
  exists d0 d1, encode_group b0 None None = [d0; d1; z2b 61; z2b 61] /\
    base64_digit d0 = true /\ base64_digit d1 = true.
Proof. rewrite encode_group_digits. eauto using alphabet_digit. Qed.

Lemma key_shape key :
  IsValidWebSocketKey key = true <->
  exists ds, size_of ds = 22 /\ Forall (fun c => base64_digit c = true) ds /\
    key = ds ++ [z2b 61; z2b 61].
Proof.
  unfold IsValidWebSocketKey. split.
  - split_if; [done|]. destruct Hif as [[H1 H2] H3].
    destruct (key_loop key 0 0 0) as [d|] eqn:K; [|done]. rewrite Z.eqb_eq. intros ->.
    apply key_loop_digits in K as (ds & rest & -> & F & _ & D); [|u64_side..].
    rewrite size_app in H1. assert (S : size_of ds = 22) by lia.
    exists ds. split_and!; [done..|]. f_equal.
    assert (L : length ds = 22%nat) by (unfold size_of in S; lia).
    rewrite !lookup_total_app_r in H2, H3 by lia. rewrite L in H2, H3.
    destruct rest as [|a [|b [|c rest]]]; rewrite ?size_cons in H1;
      try (change (size_of []) with 0 in H1; lia).
    + simpl in H2, H3. rewrite <-(z2b_b2z a), <-(z2b_b2z b), H2, H3. done.
    + pose proof (size_nonneg rest). lia.
  - intros (ds & S & F & ->).
    assert (L : length ds = 22%nat) by (unfold size_of in S; lia).
    rewrite !lookup_total_app_r by lia. rewrite L, size_app, S. simpl.
    assert (K : key_loop (ds ++ [z2b 61; z2b 61]) 0 0 0 = Some 16).
    { apply key_loop_digits; [lia| |rewrite size_app, S; vm_compute; congruence|]; [lia|].
      exists ds, [z2b 61; z2b 61]. rewrite S. split_and!; eauto. }
    rewrite K. done.
Qed.

Lemma key_valid_nonce nonce :
  size_of nonce = 16 -> IsValidWebSocketKey (Base64Encode nonce) = true.
Proof.
  intros S. apply key_shape. unfold size_of in S.
  do 16 (destruct nonce as [|? nonce]; [simpl in S; lia|]).
  destruct nonce; [|simpl in S; lia]. cbn [Base64Encode].
  match goal with |- context [encode_group ?b None None] =>
    destruct (encode_group_single b) as (d0 & d1 & -> & ? & ?) end.
  match goal with |- context [?g1 ++ ?g2 ++ ?g3 ++ ?g4 ++ ?g5 ++ [d0; d1; _; _]] =>
    exists (g1 ++ g2 ++ g3 ++ g4 ++ g5 ++ [d0; d1]);
    pose proof (encode_group_full) as G end.
  rewrite <-!app_assoc. rewrite !Forall_app. split_and!; auto.
Qed.

(** A [Sec-WebSocket-Key] is accepted exactly when it is 22 Base64 digits and
    two padding characters; such a key decodes to 16 bytes, and the encoding of
    every 16-byte nonce is accepted. *)
Theorem websocket_key_exact key :
  (IsValidWebSocketKey key = true <->
    exists ds, size_of ds = 22 /\ Forall (fun c => base64_digit c = true) ds /\
      key = ds ++ [z2b 61; z2b 61]) /\
  (IsValidWebSocketKey key = true -> size_of (base64_decode key) = 16) /\
  (forall nonce, size_of nonce = 16 -> IsValidWebSocketKey (Base64Encode nonce) = true).
Proof.
  split; [apply key_shape|]. split.
  - intros (ds & S & F & ->)%key_shape. unfold size_of in S.
    do 22 (destruct ds as [|? ds]; [simpl in S; lia|]).
    destruct ds; [|simpl in S; lia]. repeat apply Forall_cons in F as [? F].
    cbn [app base64_decode]. unfold decode_group.
    rewrite !digit_not_pad by done. done.
  - apply key_valid_nonce.
Qed.
