(* ===== verification/Sha1.v ===== *)
(** * SHA-1 and the accept key (src/src/transport/websocket_transport.cpp)

    [Sha1] is modelled with its padded vector, its 80-word array and its
    five-variable rounds; it is proved equal to the algorithm of FIPS 180-4,
    written independently over blocks, a message schedule and [Ch]/[Maj]. *)

From S2P Require Import Prelude Base64.

Definition RotateLeft (value count : Z) : Z :=
  Z.lor (u32 (Z.shiftl value count)) (Z.shiftr value (32 - count)).

(** [+] on [std::uint32_t]. *)
Definition add32 (a b : Z) : Z := u32 (a + b).

(** [while (padded_size % 64 != 56) ++padded_size;] *)
Fixpoint pad_loop (fuel : nat) (padded_size : Z) : option Z :=
  match fuel with
  | O => None
  | S fuel =>
      if negb (padded_size mod 64 =? 56) then pad_loop fuel (padded_size + 1)%u64
      else Some padded_size
  end.

(** The eight length bytes, written from the last one backwards. *)
Definition store_length (bit_length : Z) (padded_size : Z) (padded : list byte) : list byte :=
  foldl (fun padded (index : nat) =>
    <[Z.to_nat (padded_size - 1 - Z.of_nat index) :=
        z2b (Z.shiftr bit_length (Z.of_nat index * 8))]> padded) padded (seq 0 8).

(** The padded message; [None] only if the padding loop does not end. *)
Definition pad (data : list byte) : option (list byte) :=
  let bit_length := (size_of data * 8)%u64 in
  padded_size ← pad_loop 64 (size_of data + 1)%u64;
  let padded_size := (padded_size + 8)%u64 in
  let padded := replicate (Z.to_nat padded_size) (z2b 0) in
  let padded := data ++ drop (length data) padded in
  let padded := <[length data := z2b 128]> padded in
  Some (store_length bit_length padded_size padded).

(** [words[index]] for the first 16 words of the block at [offset]. *)
Definition load_word (padded : list byte) (offset : nat) (index : nat) : Z :=
  let base := (offset + index * 4)%nat in
  Z.lor (Z.lor (Z.lor (u32 (Z.shiftl (b2z (padded !!! base)) 24))
                      (u32 (Z.shiftl (b2z (padded !!! (base + 1)%nat)) 16)))
               (u32 (Z.shiftl (b2z (padded !!! (base + 2)%nat)) 8)))
        (b2z (padded !!! (base + 3)%nat)).

Definition load_words (padded : list byte) (offset : nat) : list Z :=
  foldl (fun words index => <[index := load_word padded offset index]> words)
    (replicate 80 0) (seq 0 16).

Definition expand_words (words : list Z) : list Z :=
  foldl (fun words index =>
    <[index := RotateLeft
        (Z.lxor (Z.lxor (Z.lxor (words !!! (index - 3)%nat) (words !!! (index - 8)%nat))
                        (words !!! (index - 14)%nat)) (words !!! (index - 16)%nat)) 1]> words)
    words (seq 16 64).

(** The variables [a] to [e], and [h0] to [h4]. *)
Record Five := mkFive { va : Z; vb : Z; vc : Z; vd : Z; ve : Z }.

Definition round_function (index : nat) (b c d : Z) : Z * Z :=
  if (index <? 20)%nat then
    (Z.lor (Z.land b c) (Z.land (u32 (Z.lnot b)) d), 1518500249)
  else if (index <? 40)%nat then (Z.lxor (Z.lxor b c) d, 1859775393)
  else if (index <? 60)%nat then
    (Z.lor (Z.lor (Z.land b c) (Z.land b d)) (Z.land c d), 2400959708)
  else (Z.lxor (Z.lxor b c) d, 3395469782).

Definition round (words : list Z) (s : Five) (index : nat) : Five :=
  let '(function, constant) := round_function index (vb s) (vc s) (vd s) in
  let temporary :=
    add32 (add32 (add32 (add32 (RotateLeft (va s) 5) function) (ve s)) constant)
          (words !!! index) in
  mkFive temporary (va s) (RotateLeft (vb s) 30) (vc s) (vd s).

Definition process_block (padded : list byte) (offset : nat) (h : Five) : Five :=
  let words := expand_words (load_words padded offset) in
  let s := foldl (round words) h (seq 0 80) in
  mkFive (add32 (va h) (va s)) (add32 (vb h) (vb s)) (add32 (vc h) (vc s))
         (add32 (vd h) (vd s)) (add32 (ve h) (ve s)).

(** [for (offset = 0; offset < padded.size(); offset += 64)] *)
Fixpoint block_loop (fuel : nat) (padded : list byte) (offset : nat) (h : Five) : option Five :=
  match fuel with
  | O => None
  | S fuel =>
      if (offset <? length padded)%nat
      then block_loop fuel padded (offset + 64) (process_block padded offset h)
      else Some h
  end.

Definition initial : Five :=
  mkFive 1732584193 4023233417 2562383102 271733878 3285377520.

Definition store_value (v : Z) : list byte :=
  [ z2b (Z.shiftr v 24); z2b (Z.shiftr v 16); z2b (Z.shiftr v 8); z2b v ].

Definition Sha1 (data : list byte) : option (list byte) :=
  padded ← pad data;
  h ← block_loop (S (length padded)) padded 0 initial;
  Some (store_value (va h) ++ store_value (vb h) ++ store_value (vc h) ++
        store_value (vd h) ++ store_value (ve h)).

Definition Guid : list byte := bstr "258EAFA5-E914-47DA-95CA-C5AB0DC85B11".

Definition ComputeAcceptKey (client_key : list byte) : option (list byte) :=
  digest ← Sha1 (client_key ++ Guid); Some (Base64Encode digest).

(** The example of RFC 6455, section 1.3, and the FIPS vector for "abc". *)
Example accept_key_rfc6455 :
  ComputeAcceptKey (bstr "dGhlIHNhbXBsZSBub25jZQ==") =
    Some (bstr "s3pPLMBiTxaQ9kYGzzhZRbK+xOo=").
Proof. vm_compute. reflexivity. Qed.

Example sha1_abc :
  Sha1 (bstr "abc") =
    Some (concat (map (be_encode 4)
      [2845392438; 1191608682; 3124634993; 2018558572; 2630932637])).
Proof. vm_compute. reflexivity. Qed.

(** ** Specification: FIPS 180-4, sections 4.1.1, 4.2.1, 5.1.1, 5.2.1 and 6.1 *)

Definition fips_pad (m : list byte) : list byte :=
  m ++ [z2b 128] ++ replicate (Z.to_nat ((55 - size_of m) mod 64)) (z2b 0)
    ++ be_encode 8 (8 * size_of m).

Definition ROTL (n x : Z) : Z := (x * 2 ^ n) mod 2 ^ 32 + x / 2 ^ (32 - n).

Definition Ch (x y z : Z) : Z :=
  Z.lxor (Z.land x y) (Z.land (Z.lxor x 4294967295) z).
Definition Parity (x y z : Z) : Z := Z.lxor (Z.lxor x y) z.
Definition Maj (x y z : Z) : Z :=
  Z.lxor (Z.lxor (Z.land x y) (Z.land x z)) (Z.land y z).

Definition fips_f (t : nat) : Z -> Z -> Z -> Z :=
  if (t <? 20)%nat then Ch else if (t <? 40)%nat then Parity
  else if (t <? 60)%nat then Maj else Parity.

Definition fips_K (t : nat) : Z :=
  if (t <? 20)%nat then 0x5a827999 else if (t <? 40)%nat then 0x6ed9eba1
  else if (t <? 60)%nat then 0x8f1bbcdc else 0xca62c1d6.

(** [W_0 .. W_15] are the words of the block; each later word is computed from
    four earlier ones. *)
Fixpoint schedule (n : nat) (M : list Z) : list Z :=
  match n with
  | O => M
  | S n =>
      let W := schedule n M in
      let t := (16 + n)%nat in
      W ++ [ROTL 1 (Z.lxor (Z.lxor (Z.lxor (W !!! (t - 3)%nat) (W !!! (t - 8)%nat))
                                   (W !!! (t - 14)%nat)) (W !!! (t - 16)%nat))]
  end.

Definition fips_round (W : list Z) (s : Five) (t : nat) : Five :=
  mkFive ((ROTL 5 (va s) + fips_f t (vb s) (vc s) (vd s) + ve s + fips_K t + W !!! t) mod 2 ^ 32)
         (va s) (ROTL 30 (vb s)) (vc s) (vd s).

Definition block_words (block : list byte) : list Z :=
  map (fun i => be_decode (take 4 (drop (i * 4) block))) (seq 0 16).

Definition fips_compress (H : Five) (block : list byte) : Five :=
  let s := foldl (fips_round (schedule 64 (block_words block))) H (seq 0 80) in
  mkFive ((va H + va s) mod 2 ^ 32) ((vb H + vb s) mod 2 ^ 32) ((vc H + vc s) mod 2 ^ 32)
         ((vd H + vd s) mod 2 ^ 32) ((ve H + ve s) mod 2 ^ 32).

Fixpoint parse (n : nat) (m : list byte) : list (list byte) :=
  match n with
  | O => []
  | S n => take 64 m :: parse n (drop 64 m)
  end.

Definition fips_digest (H : Five) : list byte :=
  concat (map (be_encode 4) [va H; vb H; vc H; vd H; ve H]).

Definition fips_sha1 (m : list byte) : list byte :=
  let p := fips_pad m in
  fips_digest (foldl fips_compress initial (parse (length p / 64) p)).

(** ** Words *)

Definition word (x : Z) : Prop := 0 <= x < 2 ^ 32.

Lemma RotateLeft_ROTL x n : word x -> 0 < n < 32 -> RotateLeft x n = ROTL n x.
Proof.
  unfold word, RotateLeft, ROTL, u32. intros Hx Hn.
  change 4294967296 with (2 ^ 32). rewrite Z.shiftl_mul_pow2, Z.shiftr_div_pow2 by lia.
  assert (E : 2 ^ 32 = 2 ^ (32 - n) * 2 ^ n) by (rewrite <-Z.pow_add_r by lia; f_equal; lia).
  rewrite E at 1 2. rewrite Z.mul_mod_distr_r by lia. rewrite lor_mul_add; [done|lia|].
  split; [apply Z.div_pos; lia|]. apply Z.div_lt_upper_bound; lia.
Qed.

Lemma RotateLeft_word x n : word x -> 0 < n < 32 -> word (RotateLeft x n).
Proof.
  intros Hx Hn. apply lor_range; [lia|apply u32_range|]. rewrite Z.shiftr_div_pow2 by lia.
  unfold word in Hx. split; [apply Z.div_pos; lia|]. apply Z.div_lt_upper_bound; [lia|].
  assert (1 <= 2 ^ (32 - n)) by (pose proof (Z.pow_pos_nonneg 2 (32 - n)); lia). nia.
Qed.

Lemma add32_word a b : word (add32 a b).
Proof. apply u32_range. Qed.

Lemma choose_Ch b c d : word d -> Z.lor (Z.land b c) (Z.land (u32 (Z.lnot b)) d) = Ch b c d.
Proof.
  intros Hd. apply Z.bits_inj'. intros i Hi. unfold Ch.
  rewrite Z.lor_spec, Z.lxor_spec, !Z.land_spec, Z.lxor_spec.
  change 4294967295 with (Z.ones 32). unfold u32. change 4294967296 with (2 ^ 32).
  destruct (Z.lt_ge_cases i 32).
  - rewrite Z.mod_pow2_bits_low, Z.lnot_spec, Z.ones_spec_low by lia.
    destruct (Z.testbit b i), (Z.testbit c i), (Z.testbit d i); done.
  - rewrite (range_bits 32 d) by done. rewrite !andb_false_r, orb_false_r, xorb_false_r. done.
Qed.

Lemma majority_Maj b c d :
  Z.lor (Z.lor (Z.land b c) (Z.land b d)) (Z.land c d) = Maj b c d.
Proof.
  apply Z.bits_inj'. intros i Hi. unfold Maj.
  rewrite !Z.lor_spec, !Z.lxor_spec, !Z.land_spec.
  destruct (Z.testbit b i), (Z.testbit c i), (Z.testbit d i); done.
Qed.

Lemma round_function_fips t b c d :
  word d -> round_function t b c d = (fips_f t b c d, fips_K t).
Proof.
  intros. unfold round_function, fips_f, fips_K.
  repeat split_if; rewrite ?choose_Ch, ?majority_Maj by done; done.
Qed.

Record words5 (s : Five) : Prop := {
  w_a : word (va s); w_b : word (vb s); w_c : word (vc s); w_d : word (vd s); w_e : word (ve s)
}.

Lemma round_fips W s t : words5 s -> round W s t = fips_round W s t /\ words5 (round W s t).
Proof.
  intros [? ? ? ? ?]. unfold round. rewrite round_function_fips by done. split.
  - unfold fips_round. rewrite !RotateLeft_ROTL by (done || lia). f_equal.
    unfold add32, u32. change 4294967296 with (2 ^ 32).
    do 3 (rewrite Zplus_mod_idemp_l; rewrite <-!Z.add_assoc). done.
  - constructor; simpl; auto using add32_word. apply RotateLeft_word; [done|lia].
Qed.

Lemma rounds_fips W ts s :
  words5 s -> foldl (round W) s ts = foldl (fips_round W) s ts.
Proof.
  revert s. induction ts as [|t ts IH]; intros s Hs; simpl; [done|].
  destruct (round_fips W s t Hs) as [E Hs']. rewrite <-E. auto.
Qed.

(** ** The message schedule *)

Lemma load_word_be padded offset i :
  (offset + i * 4 + 4 <= length padded)%nat ->
  load_word padded offset i = be_decode (take 4 (drop (offset + i * 4) padded)).
Proof.
  intros H. unfold load_word. set (base := (offset + i * 4)%nat) in *.
  assert (E : forall k, padded !!! (base + k)%nat = drop base padded !!! k).
  { intros k. rewrite !list_lookup_total_alt, lookup_drop. done. }
  rewrite <-(Nat.add_0_r base) at 1. rewrite !E.
  assert (L : (4 <= length (drop base padded))%nat) by (rewrite length_drop; lia).
  destruct (drop base padded) as [|b0 [|b1 [|b2 [|b3 r]]]]; simpl in L; try lia.
  cbn [take]. rewrite <-be_word. done.
Qed.

Lemma load_words_spec padded offset :
  load_words padded offset = map (load_word padded offset) (seq 0 16) ++ replicate 64 0.
Proof. unfold load_words. generalize (load_word padded offset). intros f. reflexivity. Qed.

Lemma length_schedule n M : length M = 16%nat -> length (schedule n M) = (16 + n)%nat.
Proof. intros. induction n as [|n IH]; simpl; [done|]. rewrite length_app, IH. simpl. lia. Qed.

Lemma Forall_lookup_total (P : Z -> Prop) l i : P inhabitant -> Forall P l -> P (l !!! i).
Proof.
  intros H0 HF. rewrite list_lookup_total_alt.
  destruct (l !! i) as [x|] eqn:E; [|done]. simpl. by eapply Forall_lookup_1.
Qed.

Lemma lxor_word a b : word a -> word b -> word (Z.lxor a b).
Proof. apply lxor_range. lia. Qed.

Lemma schedule_word n M : Forall word M -> Forall word (schedule n M).
Proof.
  intros HM. induction n as [|n IH]; simpl; [done|]. apply Forall_app. split; [done|].
  apply Forall_singleton. assert (word inhabitant) by (split; done).
  rewrite <-RotateLeft_ROTL by (repeat apply lxor_word; try apply Forall_lookup_total; done || lia).
  apply RotateLeft_word; [|lia]. repeat apply lxor_word; apply Forall_lookup_total; done.
Qed.

Lemma expand_words_spec M n :
  length M = 16%nat -> Forall word M -> (n <= 64)%nat ->
  foldl (fun words index =>
    <[index := RotateLeft
        (Z.lxor (Z.lxor (Z.lxor (words !!! (index - 3)%nat) (words !!! (index - 8)%nat))
                        (words !!! (index - 14)%nat)) (words !!! (index - 16)%nat)) 1]> words)
    (M ++ replicate 64 0) (seq 16 n) = schedule n M ++ replicate (64 - n) 0.
Proof.
  intros HM HW. induction n as [|n IH]; intros Hn; [done|].
  rewrite seq_S, foldl_app, IH by lia. cbn [foldl].
  pose proof (length_schedule n M HM) as HL. pose proof (schedule_word n M HW) as HS.
  assert (word inhabitant) by (split; done).
  rewrite !lookup_total_app_l by lia.
  rewrite RotateLeft_ROTL
    by (repeat apply lxor_word; try apply Forall_lookup_total; done || lia).
  replace (64 - n)%nat with (S (64 - S n)) by lia. cbn [replicate schedule].
  rewrite insert_app_r_alt by lia. rewrite HL, Nat.sub_diag, <-app_assoc. done.
Qed.

(** ** Blocks *)

Lemma block_words_word block :
  length block = 64%nat -> Forall word (block_words block) /\ length (block_words block) = 16%nat.
Proof.
  intros L. split; [|done]. unfold block_words. apply Forall_map, Forall_forall.
  intros i [_ Hi]%elem_of_seq. unfold word.
  pose proof (be_decode_range (take 4 (drop (i * 4) block))) as H.
  unfold size_of in H. rewrite length_take_le in H by (rewrite length_drop; lia). done.
Qed.

Lemma load_words_block padded offset :
  (offset + 64 <= length padded)%nat ->
  map (load_word padded offset) (seq 0 16) = block_words (take 64 (drop offset padded)).
Proof.
  intros H. apply map_ext_in. intros i Hi. apply in_seq in Hi.
  rewrite load_word_be by lia. rewrite skipn_firstn_comm, take_take, drop_drop.
  f_equal. f_equal. lia.
Qed.

Lemma process_block_fips padded offset h :
  words5 h -> (offset + 64 <= length padded)%nat ->
  process_block padded offset h = fips_compress h (take 64 (drop offset padded)) /\
  words5 (process_block padded offset h).
Proof.
  intros Hh Hl. split; [|constructor; apply add32_word].
  assert (L : length (take 64 (drop offset padded)) = 64%nat)
    by (rewrite length_take_le; [done|rewrite length_drop; lia]).
  destruct (block_words_word _ L) as [HW HL].
  unfold process_block, fips_compress. rewrite load_words_spec, load_words_block by done.
  assert (E : expand_words (block_words (take 64 (drop offset padded)) ++ replicate 64 0)
              = schedule 64 (block_words (take 64 (drop offset padded)))).
  { unfold expand_words. rewrite expand_words_spec by done. apply app_nil_r. }
  rewrite E, rounds_fips by done. done.
Qed.

Lemma block_loop_fips n fuel padded offset h :
  words5 h -> length padded = (offset + 64 * n)%nat -> (n < fuel)%nat ->
  block_loop fuel padded offset h =
    Some (foldl fips_compress h (parse n (drop offset padded))).
Proof.
  revert fuel offset h. induction n as [|n IH]; intros [|fuel] offset h Hh HL Hf; try lia.
  - simpl. destruct (Nat.ltb_spec offset (length padded)); [lia|done].
  - cbn [block_loop parse foldl]. destruct (Nat.ltb_spec offset (length padded)); [|lia].
    destruct (process_block_fips padded offset h) as [E Hw]; [done|lia|].
    rewrite IH by (done || lia). rewrite E, drop_drop. done.
Qed.

(** ** Padding *)

#[local] Ltac Zify.zify_post_hook ::= Z.div_mod_to_equations.

Lemma pad_loop_spec fuel n :
  0 <= n <= 4611686018427387904 -> (56 - n) mod 64 < Z.of_nat fuel ->
  Z.of_nat fuel <= 64 -> pad_loop fuel n = Some (n + (56 - n) mod 64).
Proof.
  assert (G : forall fuel n, 0 <= n <= 4611686018427387904 + 64 - Z.of_nat fuel ->
    (56 - n) mod 64 < Z.of_nat fuel -> Z.of_nat fuel <= 64 ->
    pad_loop fuel n = Some (n + (56 - n) mod 64)).
  { clear. induction fuel as [|fuel IH]; intros n H1 H2 H3; [lia|].
    cbn [pad_loop]. split_if.
    - rewrite uadd_small by (unfold size_max; lia). rewrite IH by lia. f_equal. lia.
    - f_equal. lia. }
  intros. apply G; lia.
Qed.

Lemma store_length_spec P (L : Z) :
  store_length L (size_of P + 8) (P ++ replicate 8 (z2b 0)) = P ++ be_encode 8 L.
Proof.
  unfold store_length. cbn [seq foldl].
  assert (E : forall k : nat, (k < 8)%nat ->
    Z.to_nat (size_of P + 8 - 1 - Z.of_nat k) = (length P + (7 - k))%nat)
    by (intros; unfold size_of; lia).
  rewrite !E by lia. rewrite !insert_app_r. f_equal. cbn.
  rewrite !Z.shiftr_div_pow2 by lia. change (256 ^ Z.of_nat 0) with 1. rewrite !Z.div_1_r. repeat apply (f_equal2 cons); reflexivity.
Qed.

Lemma pad_fips data :
  size_of data < 2305843009213693952 -> pad data = Some (fips_pad data).
Proof.
  intros H. pose proof (size_nonneg data). unfold pad.
  rewrite umul_small by (unfold size_max; lia).
  rewrite uadd_small by (unfold size_max; lia).
  rewrite pad_loop_spec by lia. cbn [mbind option_bind].
  rewrite uadd_small by (unfold size_max; lia).
  set (k := Z.to_nat ((55 - size_of data) mod 64)).
  set (P := data ++ [z2b 128] ++ replicate k (z2b 0)).
  assert (SP : size_of P + 8 = size_of data + 1 + (56 - (size_of data + 1)) mod 64 + 8).
  { unfold P. rewrite !size_app, size_single. unfold size_of at 2.
    rewrite length_replicate. unfold k. lia. }
  rewrite <-SP, drop_replicate.
  replace (Z.to_nat (size_of P + 8) - length data)%nat with (S (k + 8)).
  2: { unfold P, size_of. rewrite !length_app, length_replicate. simpl. lia. }
  cbn [replicate]. rewrite <-(Nat.add_0_r (length data)) at 1. rewrite insert_app_r.
  cbn [list_insert insert]. rewrite replicate_add.
  replace (data ++ z2b 128 :: replicate k (z2b 0) ++ replicate 8 (z2b 0))
    with (P ++ replicate 8 (z2b 0)) by (unfold P; rewrite <-!app_assoc; done).
  rewrite store_length_spec. unfold fips_pad, P, k. rewrite <-!app_assoc.
  do 5 f_equal. lia.
Qed.

Lemma length_fips_pad m : exists n, length (fips_pad m) = (64 * n)%nat.
Proof.
  assert (L : length (fips_pad m) =
    (length m + 1 + Z.to_nat ((55 - size_of m) mod 64) + 8)%nat).
  { unfold fips_pad. rewrite !length_app, length_replicate, length_be_encode. simpl. lia. }
  exists (Z.to_nat (Z.of_nat (length (fips_pad m)) / 64)). rewrite L. unfold size_of. lia.
Qed.

Lemma length_fips_digest H : length (fips_digest H) = 20%nat.
Proof. done. Qed.

Lemma store_value_be v : store_value v = be_encode 4 v.
Proof. unfold store_value. rewrite !Z.shiftr_div_pow2 by lia. cbn. rewrite Z.div_1_r. done. Qed.

(** [Sha1] returns the FIPS digest. *)
Lemma Sha1_fips data :
  size_of data < 2305843009213693952 -> Sha1 data = Some (fips_sha1 data).
Proof.
  intros H. unfold Sha1. rewrite pad_fips by done. cbn [mbind option_bind].
  destruct (length_fips_pad data) as [n Hn].
  rewrite (block_loop_fips n) by (try (constructor; split; done); lia).
  cbn [mbind option_bind]. unfold fips_sha1, fips_digest. rewrite Hn.
  rewrite (Nat.mul_comm 64 n), Nat.div_mul by lia. rewrite !store_value_be. simpl map.
  cbn [concat]. rewrite app_nil_r, drop_0. done.
Qed.

(** C27. [Sha1] computes SHA-1: the digest is that of FIPS 180-4 for every input
    whose bit length fits 64 bits, and always has 20 bytes; the accept key of a
    client key is the Base64 text, 28 characters long, of the digest of the key
    followed by the RFC 6455 GUID. *)
Theorem sha1_is_fips data (H : size_of data < 2305843009213693952 - 36) :
  Sha1 data = Some (fips_sha1 data) /\ size_of (fips_sha1 data) = 20 /\
  exists key, ComputeAcceptKey data = Some key /\ size_of key = 28 /\
    base64_decode key = fips_sha1 (data ++ Guid).
Proof.
  split; [apply Sha1_fips; lia|]. split; [done|].
  exists (Base64Encode (fips_sha1 (data ++ Guid))).
  unfold ComputeAcceptKey. rewrite Sha1_fips.
  2: { rewrite size_app. change (size_of Guid) with 36. lia. }
  split; [done|]. split; apply encode_spec.
Qed.

Lemma sha1_is_fips_witness :
  size_of (bstr "abc") < 2305843009213693952 - 36 /\
  size_of (fips_sha1 (bstr "abc")) = 20.
Proof.
  split; [reflexivity|].
  exact (proj1 (proj2 (sha1_is_fips (bstr "abc") eq_refl))).
Defined.
