(* ===== verification/WebSocketDecoder.v ===== *)
(** * WebSocket frames (src/src/transport/websocket_transport.{hpp,cpp})

    [WebSocketDecoder] with its buffer, cursor and fragment state, and the
    frame builder.  [Next] calls itself after a fragment: the model has the body
    ([NextBody]), which either returns or asks for another round, and [Next],
    the iteration of the body, whose fuel is proved sufficient.

    The specification is the wire format ([encode_frame]) together with the
    assembly of frames into events ([assemble]): the decoder recognises exactly
    the encodings of valid frames, and what it delivers does not depend on how
    the stream was cut into reads. *)

From S2P Require Import Prelude Utf8.

Inductive WsOpcode := Continuation | Text | Binary | Close | Ping | Pong.

Inductive WsParseStatus :=
  NeedMoreData | EventReady | ProtocolError | MessageTooLarge | BufferLimitExceeded.

Inductive WsEventType := BinaryMessage | PingEvent | PongEvent | CloseEvent.

#[export] Instance WsOpcode_eq_dec : EqDecision WsOpcode.
Proof. solve_decision. Defined.
#[export] Instance WsParseStatus_eq_dec : EqDecision WsParseStatus.
Proof. solve_decision. Defined.
#[export] Instance WsEventType_eq_dec : EqDecision WsEventType.
Proof. solve_decision. Defined.

Record WsEvent := mkEvent {
  ev_type : WsEventType;
  ev_payload : list byte;
  ev_close_code : Z;
}.

(** [event = {}] *)
Definition default_event : WsEvent := mkEvent BinaryMessage [] 1000.

Record WebSocketDecoder := mkDecoder {
  max_message_bytes_ : Z;
  max_buffered_bytes_ : Z;
  require_masking_ : bool;
  buffer_ : list byte;
  cursor_ : Z;
  fragmented_ : bool;
  fragmented_opcode_ : WsOpcode;
  fragmented_payload_ : list byte;
  limit_exceeded_ : bool;
}.

Definition construct (max_message_bytes max_buffered_bytes : Z) (require_masking : bool) :=
  mkDecoder max_message_bytes max_buffered_bytes require_masking [] 0 false Continuation [] false.

Definition set_data (buf : list byte) (cur : Z) (d : WebSocketDecoder) :=
  mkDecoder (max_message_bytes_ d) (max_buffered_bytes_ d) (require_masking_ d) buf cur
    (fragmented_ d) (fragmented_opcode_ d) (fragmented_payload_ d) (limit_exceeded_ d).

Definition set_fragment (fr : bool) (op : WsOpcode) (payload : list byte) (d : WebSocketDecoder) :=
  mkDecoder (max_message_bytes_ d) (max_buffered_bytes_ d) (require_masking_ d) (buffer_ d)
    (cursor_ d) fr op payload (limit_exceeded_ d).

Definition set_limit_exceeded (b : bool) (d : WebSocketDecoder) :=
  mkDecoder (max_message_bytes_ d) (max_buffered_bytes_ d) (require_masking_ d) (buffer_ d)
    (cursor_ d) (fragmented_ d) (fragmented_opcode_ d) (fragmented_payload_ d) b.

(** The value of an enumerator, and the enumerator of a value: a value cast to
    the enumeration may name none of them. *)
Definition opcode_value (op : WsOpcode) : Z :=
  match op with
  | Continuation => 0 | Text => 1 | Binary => 2 | Close => 8 | Ping => 9 | Pong => 10
  end.

Definition opcode_cast (v : Z) : option WsOpcode :=
  if v =? 0 then Some Continuation else if v =? 1 then Some Text
  else if v =? 2 then Some Binary else if v =? 8 then Some Close
  else if v =? 9 then Some Ping else if v =? 10 then Some Pong else None.

Definition IsControlOpcode (op : option WsOpcode) : bool :=
  match op with
  | Some Close | Some Ping | Some Pong => true
  | _ => false
  end.

Definition IsKnownOpcode (op : option WsOpcode) : bool :=
  match op with
  | Some Continuation | Some Text | Some Binary | Some Close | Some Ping | Some Pong => true
  | None => false
  end.

Definition IsValidCloseCode (code : Z) : bool :=
  if (code <? 1000) || (5000 <=? code) then false
  else if (code =? 1004) || (code =? 1005) || (code =? 1006) || (code =? 1015) then false
  else negb ((1016 <=? code) && (code <=? 2999)).

Definition BufferedBytes (d : WebSocketDecoder) : Z := (size_of (buffer_ d) - cursor_ d)%u64.

Definition Reset (d : WebSocketDecoder) : WebSocketDecoder :=
  set_limit_exceeded false (set_fragment false (fragmented_opcode_ d) [] (set_data [] 0 d)).

Definition CompactIfUseful (d : WebSocketDecoder) : WebSocketDecoder :=
  if cursor_ d =? 0 then d
  else if cursor_ d =? size_of (buffer_ d) then set_data [] 0 d
  else if (4096 <=? cursor_ d) && (size_of (buffer_ d) <=? (cursor_ d * 2)%u64)
  then set_data (zdrop (cursor_ d) (buffer_ d)) 0 d
  else d.

Definition Append (bytes : list byte) (d : WebSocketDecoder) : bool * WebSocketDecoder :=
  let d := CompactIfUseful d in
  let available := (size_of (buffer_ d) - cursor_ d)%u64 in
  if (max_buffered_bytes_ d <? size_of bytes)
     || ((max_buffered_bytes_ d - size_of bytes)%u64 <? available)
  then (false, set_limit_exceeded true d)
  else (true, set_data (buffer_ d ++ bytes) (cursor_ d) d).

(** ** [Next], up to the extraction of the payload *)

(** The header fields read from [data]: the outcome is an early return, or the
    frame with its opcode, its payload and its total size. *)
Inductive frame_outcome :=
| FrameReturn (st : WsParseStatus) (error : string)
| FrameRead (fin : bool) (op : option WsOpcode) (payload : list byte) (total_size : Z).

(** The length field: early return, or [(header_size, payload_size)]. *)
Definition read_length (length_code : Z) (available : Z) (data : list byte)
  : (WsParseStatus * string) + (Z * Z) :=
  if length_code =? 126 then
    if available <? 4 then inl (NeedMoreData, ""%string) else
    let payload_size := Z.lor (u64 (Z.shiftl (b2z (data !!! 2%nat)) 8)) (b2z (data !!! 3%nat)) in
    if payload_size <? 126
    then inl (ProtocolError, "non-canonical 16-bit WebSocket length"%string)
    else inr (4, payload_size)
  else if length_code =? 127 then
    if available <? 10 then inl (NeedMoreData, ""%string) else
    if negb (Z.land (b2z (data !!! 2%nat)) 128 =? 0)
    then inl (ProtocolError, "WebSocket 64-bit length has reserved high bit set"%string) else
    let payload_size := foldl (fun payload_size (index : nat) =>
      Z.lor (u64 (Z.shiftl payload_size 8)) (b2z (data !!! (2 + index)%nat))) 0 (seq 0 8) in
    if payload_size <=? 65535
    then inl (ProtocolError, "non-canonical 64-bit WebSocket length"%string)
    else inr (10, payload_size)
  else inr (2, length_code).

(** [payload[index] = source[index] ^ mask[index % 4]] *)
Definition unmask (mask source : list byte) : list byte :=
  imap (fun index b => z2b (Z.lxor (b2z b) (b2z (mask !!! (index mod 4)%nat)))) source.

Definition read_frame (require_masking : bool) (max_message_bytes : Z)
    (available : Z) (data : list byte) : frame_outcome :=
  if available <? 2 then FrameReturn NeedMoreData ""%string else
  let d0 := b2z (data !!! 0%nat) in
  let d1 := b2z (data !!! 1%nat) in
  let fin := negb (Z.land d0 128 =? 0) in
  let rsv_set := negb (Z.land d0 112 =? 0) in
  let op := opcode_cast (Z.land d0 15) in
  let masked := negb (Z.land d1 128 =? 0) in
  let length_code := Z.land d1 127 in
  if rsv_set || negb (IsKnownOpcode op)
  then FrameReturn ProtocolError "RSV bits or opcode are invalid"%string else
  if require_masking && negb masked
  then FrameReturn ProtocolError "client WebSocket frames must be masked"%string else
  if negb require_masking && masked
  then FrameReturn ProtocolError "server WebSocket frames must not be masked"%string else
  match read_length length_code available data with
  | inl (st, error) => FrameReturn st error
  | inr (header_size, payload_size) =>
      if IsControlOpcode op && (negb fin || (125 <? payload_size))
      then FrameReturn ProtocolError "fragmented or oversized WebSocket control frame"%string else
      if max_message_bytes <? payload_size
      then FrameReturn MessageTooLarge "WebSocket message exceeds configured limit"%string else
      let header_size := if masked then (header_size + 4)%u64 else header_size in
      if (size_max - header_size)%u64 <? payload_size
      then FrameReturn ProtocolError "WebSocket frame length overflows address space"%string else
      let total_size := (header_size + payload_size)%u64 in
      if available <? total_size then FrameReturn NeedMoreData ""%string else
      let mask := zdrop (header_size - 4) data in
      let source := ztake payload_size (zdrop header_size data) in
      FrameRead fin op (if masked then unmask mask source else source) total_size
  end.

(** ** [Next], from the payload on *)

(** [Return] is a [return]; [Recurse] is [return Next(event, error)]. *)
Inductive next_outcome :=
| Return (st : WsParseStatus) (event : WsEvent) (error : string)
| Recurse.

Definition close_event (payload : list byte) : next_outcome :=
  if size_of payload =? 1
  then Return ProtocolError default_event "WebSocket close payload cannot contain one byte"%string
  else if 2 <=? size_of payload then
    let close_code := Z.lor (u16 (Z.shiftl (b2z (payload !!! 0%nat)) 8)) (b2z (payload !!! 1%nat)) in
    let event := mkEvent CloseEvent payload close_code in
    if negb (IsValidCloseCode close_code) || negb (IsValidUtf8 (drop 2 payload))
    then Return ProtocolError event "WebSocket close code or reason is invalid"%string
    else Return EventReady event ""%string
  else Return EventReady (mkEvent CloseEvent payload 1000) ""%string.

Definition handle_frame (fin : bool) (op : option WsOpcode) (payload : list byte)
    (d : WebSocketDecoder) : next_outcome * WebSocketDecoder :=
  let fail st error := (Return st default_event error, d) in
  match op with
  | Some Text => fail ProtocolError "text messages are not supported; use binary FlatBuffers"%string
  | Some Continuation =>
      if negb (fragmented_ d)
      then fail ProtocolError "unexpected WebSocket continuation frame"%string else
      if (max_message_bytes_ d - size_of (fragmented_payload_ d))%u64 <? size_of payload
      then fail MessageTooLarge "assembled WebSocket message exceeds configured limit"%string else
      let assembled := fragmented_payload_ d ++ payload in
      if negb fin then (Recurse, set_fragment (fragmented_ d) (fragmented_opcode_ d) assembled d) else
      if negb (bool_decide (fragmented_opcode_ d = Binary))
      then (Return ProtocolError default_event "text messages are not supported"%string,
            set_fragment false (fragmented_opcode_ d) [] d)
      else (Return EventReady (mkEvent BinaryMessage assembled 1000) ""%string,
            set_fragment false (fragmented_opcode_ d) [] d)
  | Some Binary =>
      if negb fin then
        if fragmented_ d
        then fail ProtocolError "new data frame received during fragmented message"%string
        else (Recurse, set_fragment true Binary payload d)
      else
        if fragmented_ d
        then fail ProtocolError "new data frame received during fragmented message"%string
        else (Return EventReady (mkEvent BinaryMessage payload 1000) ""%string, d)
  | Some Ping => (Return EventReady (mkEvent PingEvent payload 1000) ""%string, d)
  | Some Pong => (Return EventReady (mkEvent PongEvent payload 1000) ""%string, d)
  | _ => (close_event payload, d)
  end.

Definition NextBody (d : WebSocketDecoder) : next_outcome * WebSocketDecoder :=
  if limit_exceeded_ d
  then (Return BufferLimitExceeded default_event "WebSocket receive buffer limit exceeded"%string, d)
  else
  let available := (size_of (buffer_ d) - cursor_ d)%u64 in
  match read_frame (require_masking_ d) (max_message_bytes_ d) available
                   (zdrop (cursor_ d) (buffer_ d)) with
  | FrameReturn st error => (Return st default_event error, d)
  | FrameRead fin op payload total_size =>
      handle_frame fin op payload (set_data (buffer_ d) (cursor_ d + total_size)%u64 d)
  end.

(** [None] means the fuel ran out. *)
Fixpoint Next_fuel (fuel : nat) (d : WebSocketDecoder)
  : option (WsParseStatus * WsEvent * string * WebSocketDecoder) :=
  match fuel with
  | O => None
  | S fuel =>
      match NextBody d with
      | (Return st event error, d') => Some (st, event, error, d')
      | (Recurse, d') => Next_fuel fuel d'
      end
  end.

(** One call consumes at least two bytes before it calls itself. *)
Definition Next (d : WebSocketDecoder) := Next_fuel (S (length (buffer_ d))) d.

(** ** The frame builder *)

(** The ten-byte array and [header_size]. *)
Definition BuildFrameHeader (op : WsOpcode) (payload_size : Z) : list byte * Z :=
  let header := replicate 10 (z2b 0) in
  let header := <[0%nat := z2b (Z.lor 128 (opcode_value op))]> header in
  if payload_size <=? 125 then (<[1%nat := z2b payload_size]> header, 2)
  else if payload_size <=? 65535 then
    let header := <[1%nat := z2b 126]> header in
    let header := <[2%nat := z2b (Z.land (Z.shiftr payload_size 8) 255)]> header in
    (<[3%nat := z2b (Z.land payload_size 255)]> header, 4)
  else
    let header := <[1%nat := z2b 127]> header in
    (foldl (fun header index =>
       <[(9 - index)%nat := z2b (Z.land (Z.shiftr payload_size (Z.of_nat index * 8)) 255)]> header)
       header (seq 0 8), 10).

Definition BuildFrame (op : WsOpcode) (payload : list byte) : list byte :=
  let '(header, header_size) := BuildFrameHeader op (size_of payload) in
  ztake header_size header ++ payload.

(** ** Specification: the wire format of RFC 6455, section 5.2 *)

Record ws_frame := mkFrame { f_fin : bool; f_op : WsOpcode; f_payload : list byte }.

(** The 7-bit code of a payload length and its extended bytes: always the
    shortest form. *)
Definition length_code (n : Z) : Z :=
  if n <=? 125 then n else if n <=? 65535 then 126 else 127.

Definition length_ext (n : Z) : list byte :=
  if n <=? 125 then [] else if n <=? 65535 then be_encode 2 n else be_encode 8 n.

Definition encode_header (masked : bool) (f : ws_frame) : list byte :=
  z2b ((if f_fin f then 128 else 0) + opcode_value (f_op f)) ::
  z2b ((if masked then 128 else 0) + length_code (size_of (f_payload f))) ::
  length_ext (size_of (f_payload f)).

(** A frame on the wire, masked with a key or not. *)
Definition encode_frame (key : option (list byte)) (f : ws_frame) : list byte :=
  match key with
  | Some k => encode_header true f ++ k ++ unmask k (f_payload f)
  | None => encode_header false f ++ f_payload f
  end.

(** Clients must mask, servers must not. *)
Definition key_ok (require_masking : bool) (key : option (list byte)) : Prop :=
  match key with
  | Some k => require_masking = true /\ size_of k = 4
  | None => require_masking = false
  end.

Record valid_frame (max : Z) (f : ws_frame) : Prop := {
  vf_max : size_of (f_payload f) <= max;
  vf_63 : size_of (f_payload f) < 9223372036854775808;
  vf_control : IsControlOpcode (Some (f_op f)) = true ->
    f_fin f = true /\ size_of (f_payload f) <= 125;
}.

(** What a frame does to the message being assembled: [None] is no fragment. *)
Inductive assembly :=
| Deliver (ev : WsEvent) (fragment : option (list byte))
| Continue (fragment : option (list byte))
| Refuse (st : WsParseStatus).

Definition close_ok (payload : list byte) : bool :=
  match payload with
  | [] => true
  | [_] => false
  | b0 :: b1 :: reason =>
      IsValidCloseCode (b2z b0 * 256 + b2z b1) && IsValidUtf8 reason
  end.

Definition close_code (payload : list byte) : Z :=
  match payload with
  | b0 :: b1 :: _ => b2z b0 * 256 + b2z b1
  | _ => 1000
  end.

Definition assemble (max : Z) (fragment : option (list byte)) (f : ws_frame) : assembly :=
  match f_op f with
  | Text => Refuse ProtocolError
  | Continuation =>
      match fragment with
      | None => Refuse ProtocolError
      | Some part =>
          if max <? size_of part + size_of (f_payload f) then Refuse MessageTooLarge
          else if f_fin f then Deliver (mkEvent BinaryMessage (part ++ f_payload f) 1000) None
          else Continue (Some (part ++ f_payload f))
      end
  | Binary =>
      match fragment with
      | Some _ => Refuse ProtocolError
      | None => if f_fin f then Deliver (mkEvent BinaryMessage (f_payload f) 1000) None
                else Continue (Some (f_payload f))
      end
  | Ping => Deliver (mkEvent PingEvent (f_payload f) 1000) fragment
  | Pong => Deliver (mkEvent PongEvent (f_payload f) 1000) fragment
  | Close =>
      if close_ok (f_payload f)
      then Deliver (mkEvent CloseEvent (f_payload f) (close_code (f_payload f))) fragment
      else Refuse ProtocolError
  end.

(** ** Reading the header *)

Lemma first_byte_fields b op :
  Z.land (b2z b) 112 = 0 -> opcode_cast (Z.land (b2z b) 15) = Some op ->
  b = z2b ((if negb (Z.land (b2z b) 128 =? 0) then 128 else 0) + opcode_value op).
Proof. destruct b; vm_compute; intros ? [= <-]; congruence. Qed.

Lemma first_byte_encode fin op :
  let b := z2b ((if fin : bool then 128 else 0) + opcode_value op) in
  negb (Z.land (b2z b) 128 =? 0) = fin /\ Z.land (b2z b) 112 = 0 /\
  opcode_cast (Z.land (b2z b) 15) = Some op.
Proof. destruct fin, op; vm_compute; auto. Qed.

Lemma second_byte_fields b :
  b = z2b ((if negb (Z.land (b2z b) 128 =? 0) then 128 else 0) + Z.land (b2z b) 127) /\
  0 <= Z.land (b2z b) 127 <= 127.
Proof. destruct b; vm_compute; intuition congruence. Qed.

Lemma second_byte_encode (masked : bool) c :
  0 <= c <= 127 ->
  let b := z2b ((if masked then 128 else 0) + c) in
  negb (Z.land (b2z b) 128 =? 0) = masked /\ Z.land (b2z b) 127 = c.
Proof.
  intros Hc. cbv zeta. rewrite b2z_z2b_small by (destruct masked; lia).
  assert (F : forallb (fun k => let c := Z.of_nat k in
      (Z.land (128 + c) 127 =? c) && (Z.land c 127 =? c)
      && (Z.land (128 + c) 128 =? 128) && (Z.land c 128 =? 0)) (seq 0 128) = true) by reflexivity.
  rewrite forallb_forall in F. specialize (F (Z.to_nat c)).
  rewrite in_seq, Z2Nat.id in F by lia. specialize (F ltac:(lia)). prop_of F.
  destruct F as [[[F1 F2] F3] F4].
  destruct masked; rewrite ?Z.add_0_l, ?F1, ?F2, ?F3, ?F4; done.
Qed.

Lemma shift_loop_be l :
  (length l <= 8)%nat ->
  foldl (fun acc b => Z.lor (u64 (Z.shiftl acc 8)) (b2z b)) 0 l = be_decode l.
Proof.
  induction l as [|b l IH] using rev_ind; [done|]. rewrite length_app. simpl. intros H.
  rewrite foldl_app, IH, be_decode_snoc by lia. simpl.
  pose proof (be_decode_range l). pose proof (b2z_range b).
  assert (256 ^ size_of l <= 256 ^ 7) by (apply Z.pow_le_mono_r; unfold size_of; lia).
  rewrite Z.shiftl_mul_pow2, u64_small by (unfold is_u64, size_max; lia).
  apply (lor_mul_add _ _ 8); lia.
Qed.

Lemma be2 b0 b1 : Z.lor (u64 (Z.shiftl (b2z b0) 8)) (b2z b1) = be_decode [b0; b1].
Proof. rewrite <-shift_loop_be by (simpl; lia). done. Qed.

Lemma be8 b0 b1 data c0 c1 c2 c3 c4 c5 c6 c7 r :
  data = b0 :: b1 :: c0 :: c1 :: c2 :: c3 :: c4 :: c5 :: c6 :: c7 :: r ->
  foldl (fun payload_size (index : nat) =>
    Z.lor (u64 (Z.shiftl payload_size 8)) (b2z (data !!! (2 + index)%nat))) 0 (seq 0 8)
  = be_decode [c0; c1; c2; c3; c4; c5; c6; c7].
Proof. intros ->. rewrite <-shift_loop_be by (simpl; lia). done. Qed.

Lemma high_bit b : (Z.land (b2z b) 128 =? 0) = (b2z b <? 128).
Proof. destruct b; done. Qed.

Lemma size_length_ext n :
  size_of (length_ext n) = if n <=? 125 then 0 else if n <=? 65535 then 2 else 8.
Proof. unfold length_ext. repeat split_if; done. Qed.

Lemma read_length_complete n b0 b1 r :
  0 <= n < 9223372036854775808 ->
  let data := b0 :: b1 :: length_ext n ++ r in
  read_length (length_code n) (size_of data) data = inr (2 + size_of (length_ext n), n).
Proof.
  intros Hn data. pose proof (size_nonneg r).
  assert (S : size_of data = 2 + size_of (length_ext n) + size_of r)
    by (unfold data; size_simpl; lia).
  unfold read_length. rewrite S, size_length_ext. unfold length_code.
  destruct (n <=? 125) eqn:E1; prop_of E1.
  { split_if; [lia|]. split_if; [lia|]. done. }
  assert (D : be_decode (length_ext n) = n).
  { unfold length_ext. split_if; [lia|]. split_if; rewrite be_decode_encode; apply Z.mod_small; lia. }
  unfold data, length_ext in *. rewrite (proj2 (Z.leb_gt n 125)) in * by lia.
  destruct (n <=? 65535) eqn:E2; prop_of E2; cbn [Z.eqb Pos.eqb].
  - split_if; [lia|]. cbn [be_encode app] in *. rewrite !lookup_total_cons_ne_0 by done.
    cbn [lookup_total Init.Nat.pred list_lookup_total]. rewrite be2, D.
    split_if; [lia|done].
  - split_if; [lia|].
    pose proof (be_decode_cons (z2b (n / 256 ^ Z.of_nat 7)) (be_encode 7 n)) as B.
    cbn [be_encode app] in *. rewrite D in B.
    erewrite be8 by reflexivity. rewrite D. cbn [lookup_total list_lookup_total].
    rewrite high_bit. pose proof (be_decode_range (be_encode 7 n)) as R.
    pose proof (b2z_range (z2b (n / 256 ^ Z.of_nat 7))).
    cbn [be_encode] in R. unfold size_of in R, B. cbn [length] in R, B.
    change (256 ^ Z.of_nat 7) with 72057594037927936 in *.
    split_if; [lia|]. split_if; [lia|done].
Qed.

Lemma read_length_sound c b0 b1 rest hs n :
  0 <= c <= 127 -> 
  read_length c (size_of (b0 :: b1 :: rest)) (b0 :: b1 :: rest) = inr (hs, n) ->
  c = length_code n /\ hs = 2 + size_of (length_ext n) /\ 0 <= n < 9223372036854775808 /\
  exists r, rest = length_ext n ++ r.
Proof.
  intros Hc. unfold read_length. rewrite size_length_ext. unfold length_code, length_ext.
  destruct (c =? 126) eqn:E1; prop_of E1; [|destruct (c =? 127) eqn:E2; prop_of E2].
  - split_if; [done|]. destruct rest as [|c0 [|c1 r]]; rewrite ?size_cons in Hif;
      try (change (size_of []) with 0 in Hif; lia).
    cbn [lookup_total list_lookup_total]. rewrite be2.
    pose proof (be_decode_range [c0; c1]) as R. unfold size_of in R. simpl in R.
    split_if; [done|]. intros [= <- <-]. rewrite (proj2 (Z.leb_gt _ 125)) by lia.
    rewrite (proj2 (Z.leb_le _ 65535)) by lia. split_and!; try lia. exists r.
    pose proof (be_encode_decode [c0; c1]) as BE. cbn [length] in BE. rewrite BE. done.
  - split_if; [done|].
    do 8 (destruct rest as [|? rest]; [rewrite ?size_cons in Hif;
      change (size_of []) with 0 in Hif; lia|]).
    erewrite be8 by reflexivity. cbn [lookup_total list_lookup_total].
    rewrite high_bit. split_if; [done|].
    match goal with |- context [be_decode ?l] =>
      pose proof (be_decode_range (tail l)) as R; pose proof (be_encode_decode l) as BE;
      pose proof (be_decode_cons b (tail l)) as B end.
    unfold size_of in R, B. cbn [tail length Z.of_nat Pos.of_succ_nat Pos.succ] in R, B, BE.
    pose proof (b2z_range b).
    split_if; [done|]. intros [= <- <-]. rewrite (proj2 (Z.leb_gt _ 125)) by lia.
    rewrite (proj2 (Z.leb_gt _ 65535)) by lia. split_and!; try lia.
    exists rest. rewrite BE. done.
  - intros [= <- <-]. split_if; [|lia]. split_and!; try lia. eauto.
Qed.

(** Masking twice with one key gives the payload back. *)
Lemma length_unmask k s : length (unmask k s) = length s.
Proof. apply length_imap. Qed.

Lemma size_unmask k s : size_of (unmask k s) = size_of s.
Proof. unfold size_of. rewrite length_unmask. done. Qed.

Lemma unmask_involutive k s : unmask k (unmask k s) = s.
Proof.
  unfold unmask.
  apply list_eq. intros i. rewrite !list_lookup_imap.
  destruct (s !! i) as [b|]; [|done]. cbn [fmap option_fmap option_map]. f_equal.
  apply b2z_inj. rewrite !b2z_z2b.
  pose proof (b2z_range b). pose proof (b2z_range (k !!! (i mod 4)%nat)).
  rewrite (Z.mod_small (Z.lxor (b2z b) _)) by (apply (lxor_range 8); lia).
  rewrite Z.lxor_assoc, Z.lxor_nilpotent, Z.lxor_0_r. apply Z.mod_small. done.
Qed.

(** Only the first four bytes of the key matter. *)
Lemma unmask_app k r s : size_of k = 4 -> unmask (k ++ r) s = unmask k s.
Proof.
  intros Hk. unfold unmask. apply imap_ext. intros i b _.
  rewrite lookup_total_app_l; [done|]. unfold size_of in Hk.
  pose proof (Nat.mod_upper_bound i 4). lia.
Qed.

Definition is_masked (key : option (list byte)) : bool :=
  match key with Some _ => true | None => false end.

Definition mask_size (key : option (list byte)) : Z := if is_masked key then 4 else 0.

(** A frame as its header and the bytes behind it. *)
Definition frame_body (key : option (list byte)) (payload : list byte) : list byte :=
  match key with Some k => k ++ unmask k payload | None => payload end.

Lemma encode_frame_split key f :
  encode_frame key f = encode_header (is_masked key) f ++ frame_body key (f_payload f).
Proof. destruct key; done. Qed.

Lemma size_encode_header m f :
  size_of (encode_header m f) = 2 + size_of (length_ext (size_of (f_payload f))).
Proof. unfold encode_header. size_simpl. lia. Qed.

Lemma size_encode_frame rm key f :
  key_ok rm key -> size_of (encode_frame key f) =
    2 + size_of (length_ext (size_of (f_payload f))) + mask_size key + size_of (f_payload f).
Proof.
  intros K. rewrite encode_frame_split, size_app, size_encode_header.
  destruct key as [k|]; simpl; [|unfold mask_size; simpl; lia].
  destruct K as [_ K]. rewrite size_app, size_unmask, K. unfold mask_size. simpl. lia.
Qed.

Lemma length_ext_bounds n : 0 <= size_of (length_ext n) <= 8.
Proof. rewrite size_length_ext. repeat split_if; lia. Qed.

Lemma length_code_range n : 0 <= n -> 0 <= length_code n <= 127.
Proof. intros. unfold length_code. repeat split_if; lia. Qed.

Section read_frame.
Context (rm : bool) (max : Z) (Hmax : is_u64 max).

Lemma read_frame_complete key f r :
  key_ok rm key -> valid_frame max f ->
  let p := encode_frame key f ++ r in
  read_frame rm max (size_of p) p =
    FrameRead (f_fin f) (Some (f_op f)) (f_payload f) (size_of (encode_frame key f)).
Proof.
  intros K [V1 V2 V3] p. set (n := size_of (f_payload f)) in *.
  pose proof (size_nonneg (f_payload f)) as Hn. fold n in Hn.
  pose proof (size_nonneg r). pose proof (length_ext_bounds n) as Hext.
  pose proof (size_encode_frame rm key f K) as SE. fold n in SE.
  assert (SP : size_of p = size_of (encode_frame key f) + size_of r) by apply size_app.
  assert (Hmask : 0 <= mask_size key <= 4) by (unfold mask_size; destruct key; simpl; lia).
  assert (EP : p = z2b ((if f_fin f then 128 else 0) + opcode_value (f_op f)) ::
    z2b ((if is_masked key then 128 else 0) + length_code n) ::
    length_ext n ++ (frame_body key (f_payload f) ++ r)).
  { unfold p. rewrite encode_frame_split. unfold encode_header. cbn [app].
    rewrite <-!app_assoc. done. }
  assert (RL : read_length (length_code n) (size_of p) p = inr (2 + size_of (length_ext n), n)).
  { rewrite EP. apply read_length_complete. lia. }
  assert (DB : zdrop (2 + size_of (length_ext n)) p = frame_body key (f_payload f) ++ r).
  { rewrite EP. rewrite !app_comm_cons. apply zdrop_app_exact. size_simpl. lia. }
  destruct (first_byte_encode (f_fin f) (f_op f)) as (F1 & F2 & F3).
  destruct (second_byte_encode (is_masked key) (length_code n)) as [G1 G2];
    [by apply length_code_range|].
  assert (P0 : p !!! 0%nat = z2b ((if f_fin f then 128 else 0) + opcode_value (f_op f)))
    by (rewrite EP; done).
  assert (P1 : p !!! 1%nat = z2b ((if is_masked key then 128 else 0) + length_code n))
    by (rewrite EP; done).
  unfold read_frame. rewrite P0, P1, F1, F2, F3, G1, G2, RL. cbv zeta.
  split_if; [lia|]. split_if; [destruct (f_op f); naive_solver|].
  split_if; [destruct key; simpl in *; naive_solver|].
  split_if; [destruct key; simpl in *; naive_solver|].
  split_if; [destruct Hif3 as [C [?|?]]; destruct (V3 C); congruence || lia|].
  split_if; [lia|].
  assert (HS : (if is_masked key then uadd (2 + size_of (length_ext n))%Z 4
                else (2 + size_of (length_ext n))%Z)
               = 2 + size_of (length_ext n) + mask_size key).
  { unfold mask_size. destruct (is_masked key); [|lia]. rewrite uadd_small; u64_side. }
  rewrite HS. rewrite usub_small by u64_side. split_if; [u64_side|].
  rewrite uadd_small by u64_side. split_if; [lia|]. f_equal; [|lia].
  destruct key as [k|]; simpl in *; unfold mask_size; simpl.
  - destruct K as [_ K]. rewrite Z.add_simpl_r, DB.
    rewrite <-zdrop_zdrop, DB by lia. rewrite <-!app_assoc.
    rewrite (zdrop_app_exact 4) by done. rewrite ztake_app_exact by (rewrite size_unmask; done).
    rewrite unmask_app, unmask_involutive by done. done.
  - rewrite Z.add_0_r, DB, ztake_app_exact by done. done.
Qed.

(** What is read is the encoding of a valid frame. *)
Lemma read_frame_sound p fin op payload total :
  read_frame rm max (size_of p) p = FrameRead fin op payload total ->
  exists key f, key_ok rm key /\ valid_frame max f /\ fin = f_fin f /\ op = Some (f_op f) /\
    payload = f_payload f /\ total = size_of (encode_frame key f) /\
    p = encode_frame key f ++ zdrop total p.
Proof.
  unfold read_frame. split_if; [done|].
  destruct p as [|b0 [|b1 rest]]; rewrite ?size_cons in Hif;
    try (change (size_of []) with 0 in Hif; lia).
  cbn [lookup_total list_lookup_total]. cbv zeta.
  split_if; [done|]. split_if; [done|]. split_if; [done|].
  destruct (second_byte_fields b1) as [B1 C1].
  destruct (read_length _ _ _) as [[? ?]|[hs n]] eqn:RL; [done|].
  apply read_length_sound in RL as (EC & -> & Hn & r & ->); [|done].
  destruct Hif0 as [Hrsv Hop].
  destruct (opcode_cast (Z.land (b2z b0) 15)) as [op'|] eqn:O; [|done].
  pose proof (first_byte_fields b0 op' Hrsv O) as B0.
  set (masked := negb (Z.land (b2z b1) 128 =? 0)) in *.
  set (fin' := negb (Z.land (b2z b0) 128 =? 0)) in *.
  split_if; [done|]. split_if; [done|].
  pose proof (length_ext_bounds n) as Hext. pose proof (size_nonneg r) as Hr.
  set (data := b0 :: b1 :: length_ext n ++ r).
  assert (SD : size_of data = 2 + size_of (length_ext n) + size_of r)
    by (unfold data; size_simpl; lia).
  assert (DB : zdrop (2 + size_of (length_ext n)) data = r).
  { unfold data. rewrite !app_comm_cons. apply zdrop_app_exact. size_simpl. lia. }
  set (hs := 2 + size_of (length_ext n)) in *.
  assert (HS : (if masked then (hs + 4)%u64 else hs) = hs + (if masked then 4 else 0)).
  { destruct masked; [rewrite uadd_small; u64_side|lia]. }
  rewrite HS. rewrite usub_small by (destruct masked; u64_side).
  split_if; [done|]. rewrite uadd_small by (destruct masked; u64_side).
  split_if; [done|]. intros [= <- <- <- <-].
  rewrite SD in Hif5.
  assert (Hv : forall pl, size_of pl = n -> valid_frame max (mkFrame fin' op' pl)).
  { intros pl Hpl. constructor; simpl; rewrite ?Hpl; try lia.
    intros Hc. change (IsControlOpcode (Some op') = true) in Hc. destruct Hif0 as [Hif0|[Hif0 ?]]; [congruence|]. split; [done|lia]. }
  assert (HE : forall pl, size_of pl = n ->
    encode_header masked (mkFrame fin' op' pl) = b0 :: b1 :: length_ext n).
  { intros pl Hpl. unfold encode_header. simpl. rewrite Hpl, <-EC, <-B0, <-B1. done. }
  destruct masked eqn:Hm; unfold masked in Hm; prop_of Hm.
  - pose (k := ztake 4 r). pose (s := ztake n (zdrop 4 r)).
    assert (Sk : size_of k = 4) by (apply size_ztake; lia).
    assert (Ss : size_of s = n) by (apply size_ztake; rewrite size_zdrop; lia).
    assert (D4 : zdrop (hs + 4) data = zdrop 4 r) by (rewrite <-zdrop_zdrop, DB by lia; done).
    rewrite Z.add_simpl_r, DB, D4. fold s.
    assert (ER : r = k ++ s ++ zdrop n (zdrop 4 r)) by (unfold k, s; rewrite !ztake_zdrop; done).
    assert (EU : unmask r s = unmask k s) by (rewrite ER, unmask_app by done; done).
    exists (Some k), (mkFrame fin' op' (unmask k s)).
    pose proof (size_unmask k s) as Su. rewrite Ss in Su.
    assert (K : key_ok rm (Some k)) by (simpl; destruct rm; naive_solver).
    pose proof (size_encode_frame rm (Some k) (mkFrame fin' op' (unmask k s)) K) as SE.
    cbn [f_payload mask_size is_masked] in SE. rewrite Su in SE. fold hs in SE.
    split_and!; try done; [by auto|].
    rewrite <-zdrop_zdrop, D4 by lia. cbn [encode_frame f_payload]. rewrite HE by done.
    rewrite unmask_involutive. unfold data. rewrite ER at 1. cbn [app].
    rewrite <-!app_assoc. done.
  - pose (s := ztake n r). assert (Ss : size_of s = n) by (apply size_ztake; lia).
    rewrite Z.add_0_r, DB. fold s. exists None, (mkFrame fin' op' s).
    assert (K : key_ok rm None) by (simpl; destruct rm; naive_solver).
    pose proof (size_encode_frame rm None (mkFrame fin' op' s) K) as SE.
    cbn [f_payload mask_size is_masked] in SE. rewrite Ss in SE. fold hs in SE.
    split_and!; try done; [by auto|rewrite SE; unfold mask_size; simpl; lia|].
    rewrite <-zdrop_zdrop, DB by lia. cbn [encode_frame f_payload]. rewrite HE by done.
    unfold data. cbn [app]. rewrite <-app_assoc. unfold s. rewrite ztake_zdrop. done.
Qed.

Lemma read_length_app c p q st e :
  read_length c (size_of p) p = inl (st, e) -> st <> NeedMoreData ->
  read_length c (size_of (p ++ q)) (p ++ q) = inl (st, e).
Proof.
  unfold read_length. intros H Hst. pose proof (size_nonneg q). rewrite size_app.
  destruct (c =? 126); [|destruct (c =? 127); [|done]]; split_if_in H; try congruence;
    (split_if; [lia|]).
  - assert (4 <= length p)%nat by (unfold size_of in *; lia).
    rewrite !lookup_total_app_l by lia. done.
  - do 10 (destruct p as [|? p]; [rewrite ?size_cons in Hif;
      change (size_of []) with 0 in Hif; lia|]). exact H.
Qed.

Lemma read_length_inr_app c p q hs n :
  2 <= size_of p -> 0 <= c <= 127 ->
  read_length c (size_of p) p = inr (hs, n) ->
  read_length c (size_of (p ++ q)) (p ++ q) = inr (hs, n).
Proof.
  intros Hp Hc H. destruct p as [|b0 [|b1 rest]]; rewrite ?size_cons in Hp;
    try (change (size_of []) with 0 in Hp; lia).
  apply read_length_sound in H as (-> & -> & Hn & r & ->); [|done].
  cbn [app]. rewrite <-app_assoc. apply read_length_complete. done.
Qed.

(** A refused frame stays refused whatever follows. *)
Lemma read_frame_return_app p q st e :
  read_frame rm max (size_of p) p = FrameReturn st e -> st <> NeedMoreData ->
  read_frame rm max (size_of (p ++ q)) (p ++ q) = FrameReturn st e.
Proof.
  unfold read_frame. intros H Hst. pose proof (size_nonneg q).
  split_if_in H; [congruence|].
  assert (2 <= length p)%nat by (unfold size_of in *; lia).
  rewrite !lookup_total_app_l by lia. split_if; [rewrite size_app in Hif0; lia|].
  cbv zeta in *.
  split_if_in H; [done|]. split_if_in H; [done|]. split_if_in H; [done|].
  destruct (read_length _ (size_of p) p) as [[st' e']|[hs n]] eqn:RL.
  - rewrite (read_length_app _ _ _ _ _ RL) by congruence. done.
  - rewrite (read_length_inr_app _ _ q _ _ Hif (proj2 (second_byte_fields _)) RL).
    split_if_in H; [done|]. split_if_in H; [done|].
    destruct (usub _ _ <? n); [done|]. destruct (size_of p <? _); congruence.
Qed.

(** An incomplete frame is shorter than a maximal one. *)
Lemma read_frame_need_more_size p e :
  read_frame rm max (size_of p) p = FrameReturn NeedMoreData e -> size_of p < 14 + max.
Proof.
  unfold read_frame, is_u64 in *. intros H. split_if_in H; [lia|]. cbv zeta in H.
  split_if_in H; [done|]. split_if_in H; [done|]. split_if_in H; [done|].
  destruct (read_length _ (size_of p) p) as [[st' e']|[hs n]] eqn:RL.
  - unfold read_length in RL. repeat (split_if_in RL; try congruence; try lia).
  - assert (Hh : 2 <= hs <= 10 /\ 0 <= n).
    { destruct p as [|b0 [|b1 rest]]; rewrite ?size_cons in Hif;
        try (change (size_of []) with 0 in Hif; lia).
      apply read_length_sound in RL as (_ & -> & Hn & _);
        [pose proof (length_ext_bounds n); lia|apply second_byte_fields]. }
    split_if_in H; [done|]. split_if_in H; [done|].
    destruct (usub _ _ <? n) eqn:O; [done|]. prop_of O.
    match type of H with context [uadd ?h n] =>
      assert (Hhs : 2 <= h <= 14) by (split_if; [rewrite uadd_small by u64_side|]; lia);
      remember h as hs' end.
    rewrite usub_small in O by u64_side. rewrite uadd_small in H by u64_side.
    split_if_in H; [lia|done].
Qed.
End read_frame.

(** ** The decoder: abstract state and invariant *)

Definition pending (d : WebSocketDecoder) : list byte := zdrop (cursor_ d) (buffer_ d).

Definition fragment (d : WebSocketDecoder) : option (list byte) :=
  if fragmented_ d then Some (fragmented_payload_ d) else None.

Record wf (d : WebSocketDecoder) : Prop := {
  wf_max_message : is_u64 (max_message_bytes_ d);
  wf_max_buffered : 0 <= max_buffered_bytes_ d <= 4611686018427387904;
  wf_cursor : 0 <= cursor_ d <= size_of (buffer_ d);
  wf_pending : size_of (buffer_ d) - cursor_ d <= max_buffered_bytes_ d;
  wf_storage : size_of (buffer_ d) <=
    max_buffered_bytes_ d + Z.max 4095 (max_buffered_bytes_ d);
  wf_fragment : fragmented_ d = true ->
    fragmented_opcode_ d = Binary /\ size_of (fragmented_payload_ d) <= max_message_bytes_ d;
  wf_idle : fragmented_ d = false -> fragmented_payload_ d = [];
}.

Ltac wf_inv H := destruct H as [? ? ? ? ? ? ?].

(** The configuration never changes. *)
Record same_config (a b : WebSocketDecoder) : Prop := {
  sc_message : max_message_bytes_ a = max_message_bytes_ b;
  sc_buffered : max_buffered_bytes_ a = max_buffered_bytes_ b;
  sc_masking : require_masking_ a = require_masking_ b;
}.

#[export] Instance same_config_preorder : PreOrder same_config.
Proof.
  split; [done|]. intros a b c [? ? ?] [? ? ?]. split; congruence.
Qed.

Lemma decoder_construct_wf mm mb rm :
  is_u64 mm -> 0 <= mb <= 4611686018427387904 -> wf (construct mm mb rm).
Proof. intros. constructor; simpl; try done; size_simpl; lia. Qed.

Lemma ws_size_pending d : wf d -> size_of (pending d) = size_of (buffer_ d) - cursor_ d.
Proof. intros H. wf_inv H. apply size_zdrop. lia. Qed.

Lemma ws_CompactIfUseful_spec d :
  wf d ->
  wf (CompactIfUseful d) /\ same_config d (CompactIfUseful d) /\
  pending (CompactIfUseful d) = pending d /\ fragment (CompactIfUseful d) = fragment d /\
  limit_exceeded_ (CompactIfUseful d) = limit_exceeded_ d /\
  cursor_ (CompactIfUseful d) <=
    Z.max 4095 (size_of (buffer_ (CompactIfUseful d)) - cursor_ (CompactIfUseful d)).
Proof.
  intros H. pose proof H as W. wf_inv H. unfold CompactIfUseful.
  split_if; [split_and!; try done; lia|].
  split_if.
  - split_and!; simpl; try done; size_simpl; try lia.
    + constructor; simpl; size_simpl; try done; lia.
    + unfold pending. simpl. rewrite Hif0. symmetry. apply zdrop_all.
  - rewrite umul_small by u64_side. split_if.
    + split_and!; simpl; try done; rewrite ?size_zdrop by lia; try lia.
      constructor; simpl; rewrite ?size_zdrop by lia; try done; lia.
    + split_and!; try done. simpl in *. destruct Hif1; lia.
Qed.

Lemma ws_Append_spec d bytes :
  wf d ->
  let '(ok, d') := Append bytes d in
  wf d' /\ same_config d d' /\ fragment d' = fragment d /\
  if ok then
    size_of (pending d) + size_of bytes <= max_buffered_bytes_ d /\
    pending d' = pending d ++ bytes /\ limit_exceeded_ d' = limit_exceeded_ d
  else
    max_buffered_bytes_ d < size_of (pending d) + size_of bytes /\
    pending d' = pending d /\ limit_exceeded_ d' = true.
Proof.
  intros H. destruct (ws_CompactIfUseful_spec d H) as (W & S & P & F & L & C).
  pose proof (ws_size_pending _ W) as SP. rewrite P in SP. destruct S as [S1 S2 S3].
  unfold Append. remember (CompactIfUseful d) as c. wf_inv W.
  pose proof (size_nonneg bytes). rewrite (usub_small (size_of (buffer_ c))) by u64_side.
  split_if.
  - split; [constructor; done|]. split; [split; done|]. split; [exact F|].
    rewrite S2. split; [|split; [exact P|done]].
    destruct Hif as [Hif|Hif]; [lia|].
    destruct (Z.lt_ge_cases (max_buffered_bytes_ c) (size_of bytes)); [lia|].
    u64_simpl_in Hif. lia.
  - destruct Hif as [Hif1 Hif2]. u64_simpl_in Hif2. split.
    + constructor; simpl; rewrite ?size_app; try done; u64_side.
    + split; [split; done|]. split; [exact F|]. rewrite S2. split; [lia|].
      split; [|exact L].
      unfold pending at 1. simpl. rewrite zdrop_app_le by lia. rewrite <-P. done.
Qed.

(** ** Frames into events *)

Lemma close_event_spec payload :
  if close_ok payload
  then close_event payload =
    Return EventReady (mkEvent CloseEvent payload (close_code payload)) ""%string
  else exists ev e, close_event payload = Return ProtocolError ev e.
Proof.
  unfold close_event. destruct payload as [|b0 [|b1 reason]]; simpl close_ok; cbn iota.
  - done.
  - simpl. eauto.
  - pose proof (size_nonneg reason). rewrite !size_cons.
    rewrite (proj2 (Z.eqb_neq _ 1)), (proj2 (Z.leb_le 2 _)) by lia.
    cbn [lookup_total list_lookup_total drop close_code].
    pose proof (b2z_range b0). pose proof (b2z_range b1).
    assert (E : Z.lor (u16 (Z.shiftl (b2z b0) 8)) (b2z b1) = b2z b0 * 256 + b2z b1).
    { rewrite Z.shiftl_mul_pow2 by lia. unfold u16. rewrite Z.mod_small by lia.
      apply (lor_mul_add _ _ 8); lia. }
    rewrite E, drop_0. destruct (IsValidCloseCode _), (IsValidUtf8 reason); simpl; eauto.
Qed.

(** [d'] is [d] with the fragment [fr]. *)
Definition moved (d d' : WebSocketDecoder) (fr : option (list byte)) : Prop :=
  wf d' /\ same_config d d' /\ pending d' = pending d /\ fragment d' = fr /\
  limit_exceeded_ d' = limit_exceeded_ d.

Lemma moved_refl d : wf d -> moved d d (fragment d).
Proof. done. Qed.

Lemma moved_set d b payload :
  wf d -> (b = true -> size_of payload <= max_message_bytes_ d) -> (b = false -> payload = []) ->
  moved d (set_fragment b Binary payload d) (if b then Some payload else None).
Proof.
  intros W Hb Hi. wf_inv W. unfold moved. split_and!; try done.
  constructor; simpl; try done. intros E. split; [done|auto].
Qed.

Lemma handle_frame_spec d f :
  wf d -> valid_frame (max_message_bytes_ d) f ->
  match assemble (max_message_bytes_ d) (fragment d) f with
  | Deliver ev fr => exists d', moved d d' fr /\
      handle_frame (f_fin f) (Some (f_op f)) (f_payload f) d = (Return EventReady ev ""%string, d')
  | Continue fr => exists d', moved d d' fr /\
      handle_frame (f_fin f) (Some (f_op f)) (f_payload f) d = (Recurse, d')
  | Refuse st => (st = ProtocolError \/ st = MessageTooLarge) /\ exists ev e,
      handle_frame (f_fin f) (Some (f_op f)) (f_payload f) d = (Return st ev e, d)
  end.
Proof.
  intros W [V _ _]. pose proof (moved_refl d W) as M. pose proof (size_nonneg (f_payload f)).
  pose proof (size_nonneg (fragmented_payload_ d)).
  unfold assemble, handle_frame, fragment in *. destruct (f_op f).
  - destruct (fragmented_ d) eqn:F; simpl; [|eauto].
    destruct (wf_fragment d W F) as [O S]. pose proof (wf_max_message d W).
    rewrite usub_small by u64_side.
    destruct (_ <? size_of (f_payload f)) eqn:E1; prop_of E1;
      (split_if; try lia; simpl); [eauto|].
    rewrite O, bool_decide_eq_true_2 by done. destruct (f_fin f); simpl.
    + eexists. split; [|done]. by apply (moved_set d false []).
    + eexists. split; [|done]. apply (moved_set d true); [done| |done].
      intros _. rewrite size_app. lia.
  - eauto.
  - destruct (fragmented_ d) eqn:F, (f_fin f); simpl; eauto.
    eexists. split; [|done]. by apply (moved_set d true).
  - pose proof (close_event_spec (f_payload f)) as C.
    destruct (close_ok (f_payload f)); [rewrite C; eauto|].
    destruct C as (ev & e & ->). eauto.
  - eauto.
  - eauto.
Qed.

(** ** One call of [Next], on the pending bytes and the fragment *)

Inductive outcome := Event (ev : WsEvent) | Stop (st : WsParseStatus).

Definition outcome_of (st : WsParseStatus) (ev : WsEvent) : outcome :=
  if bool_decide (st = EventReady) then Event ev else Stop st.

Section next_rel.
Context (rm : bool) (max : Z).

Inductive next_rel : list byte -> option (list byte) -> outcome ->
    list byte -> option (list byte) -> Prop :=
| next_stop p fr st e :
    read_frame rm max (size_of p) p = FrameReturn st e -> next_rel p fr (Stop st) p fr
| next_refuse key f r fr st :
    key_ok rm key -> valid_frame max f -> assemble max fr f = Refuse st ->
    next_rel (encode_frame key f ++ r) fr (Stop st) r fr
| next_deliver key f r fr ev fr' :
    key_ok rm key -> valid_frame max f -> assemble max fr f = Deliver ev fr' ->
    next_rel (encode_frame key f ++ r) fr (Event ev) r fr'
| next_continue key f r fr fr' o r' fr'' :
    key_ok rm key -> valid_frame max f -> assemble max fr f = Continue fr' ->
    next_rel r fr' o r' fr'' -> next_rel (encode_frame key f ++ r) fr o r' fr''.

(** Taking events until [Next] has none. *)
Inductive drains : list byte -> option (list byte) -> list WsEvent -> WsParseStatus ->
    list byte -> option (list byte) -> Prop :=
| drains_stop p fr st r fr' :
    next_rel p fr (Stop st) r fr' -> drains p fr [] st r fr'
| drains_event p fr ev p' fr' evs st r fr'' :
    next_rel p fr (Event ev) p' fr' -> drains p' fr' evs st r fr'' ->
    drains p fr (ev :: evs) st r fr''.

Context (Hmax : is_u64 max).

Lemma read_frame_status p st e :
  read_frame rm max (size_of p) p = FrameReturn st e ->
  st = NeedMoreData \/ st = ProtocolError \/ st = MessageTooLarge.
Proof.
  unfold read_frame. cbv zeta. intros H.
  do 4 (split_if_in H; [simplify_eq; auto|]).
  destruct (read_length _ _ _) as [[st' e']|[hs n]] eqn:RL.
  - unfold read_length in RL. repeat (split_if_in RL; simplify_eq; auto).
  - destruct (_ && _); [simplify_eq; auto|]. destruct (max <? n); [simplify_eq; auto|].
    destruct (usub _ _ <? n); [simplify_eq; auto|].
    destruct (size_of p <? _); simplify_eq; auto.
Qed.

Lemma encode_frame_not_stop key f r st e :
  key_ok rm key -> valid_frame max f ->
  read_frame rm max (size_of (encode_frame key f ++ r)) (encode_frame key f ++ r) <>
    FrameReturn st e.
Proof. intros K V. rewrite read_frame_complete by done. done. Qed.

Lemma encode_frame_inj key f r key' f' r' :
  key_ok rm key -> valid_frame max f -> key_ok rm key' -> valid_frame max f' ->
  encode_frame key f ++ r = encode_frame key' f' ++ r' -> f = f' /\ r = r'.
Proof.
  intros K V K' V' E.
  pose proof (read_frame_complete rm max key f r K V) as R.
  pose proof (read_frame_complete rm max key' f' r' K' V') as R'.
  cbv zeta in R, R'. rewrite E, R' in R. injection R as E1 E2 E3 E4.
  split; [destruct f, f'; simpl in *; congruence|].
  apply (f_equal (zdrop (size_of (encode_frame key f)))) in E.
  rewrite (zdrop_app_exact _ _ r) in E by done. rewrite <-E4, zdrop_app_exact in E by done. done.
Qed.

(** The relation is a function of the pending bytes and the fragment. *)
Lemma next_rel_det p fr o r fr' o2 r2 fr2 :
  next_rel p fr o r fr' -> next_rel p fr o2 r2 fr2 -> o = o2 /\ r = r2 /\ fr' = fr2.
Proof.
  intros N. revert o2 r2 fr2.
  induction N as [p fr st e R|key f r fr st K V A|key f r fr ev fr' K V A
                 |key f r fr fr' o r' fr'' K V A N IH]; intros o2 r2 fr2 N2;
    inversion N2 as [? ? ? ? R2|key2 f2 ? ? ? K2 V2 A2 E2|key2 f2 ? ? ? ? K2 V2 A2 E2
                    |key2 f2 ? ? ? ? ? ? K2 V2 A2 N2' E2]; subst;
    try (exfalso; eapply encode_frame_not_stop; eassumption);
    try (rewrite R in R2; simplify_eq; done);
    destruct (encode_frame_inj _ _ _ _ _ _ K V K2 V2 (eq_sym E2)) as [<- <-];
    rewrite A in A2; simplify_eq; auto.
Qed.

(** A longer stream gives the same result, once it is not [NeedMoreData]. *)
Lemma next_rel_app p fr o r fr' q :
  next_rel p fr o r fr' -> o <> Stop NeedMoreData -> next_rel (p ++ q) fr o (r ++ q) fr'.
Proof.
  induction 1 as [p fr st e R|? ? ? ? ? K V A|? ? ? ? ? ? K V A|? ? ? ? ? ? ? ? K V A N IH];
    intros Ho; rewrite <-?app_assoc; try (econstructor; eauto).
  apply (read_frame_return_app rm max) with (q := q) in R; [|congruence]. done.
Qed.

Lemma next_rel_resume p fr r fr' q o r2 fr2 :
  next_rel p fr (Stop NeedMoreData) r fr' -> next_rel (r ++ q) fr' o r2 fr2 ->
  next_rel (p ++ q) fr o r2 fr2.
Proof.
  remember (Stop NeedMoreData) as s eqn:Hs. intros N. revert Hs.
  induction N as [p fr st e R|? ? ? ? ? K V A|? ? ? ? ? ? K V A|? ? ? ? ? ? ? ? K V A N IH];
    intros Hs N2; simplify_eq; [done| |].
  - exfalso. unfold assemble in A. repeat case_match; simplify_eq.
  - rewrite <-app_assoc. eapply next_continue; eauto.
Qed.
End next_rel.

(** ** [Next] refines the relation *)

(** What one round of the body may do. *)
Definition body_result (d : WebSocketDecoder) (o : next_outcome) (d' : WebSocketDecoder) : Prop :=
  let rm := require_masking_ d in
  let max := max_message_bytes_ d in
  wf d' /\ same_config d d' /\ limit_exceeded_ d' = false /\
  match o with
  | Return st ev _ =>
      next_rel rm max (pending d) (fragment d) (outcome_of st ev) (pending d') (fragment d')
  | Recurse => exists key f, key_ok rm key /\ valid_frame max f /\
      pending d = encode_frame key f ++ pending d' /\
      assemble max (fragment d) f = Continue (fragment d')
  end.

Lemma NextBody_spec d :
  wf d -> limit_exceeded_ d = false -> body_result d (NextBody d).1 (NextBody d).2.
Proof.
  intros W L. pose proof (ws_size_pending d W) as SP. pose proof (wf_max_message d W) as HM.
  unfold NextBody. rewrite L. fold (pending d).
  assert (A : (size_of (buffer_ d) - cursor_ d)%u64 = size_of (pending d)).
  { rewrite SP. wf_inv W. apply usub_small; u64_side. }
  rewrite A. destruct (read_frame _ _ _ _) as [st e|fin op payload total] eqn:R.
  - split_and!; try done. simpl. destruct (read_frame_status _ _ _ _ _ R) as [->|[->| ->]];
      by eapply next_stop.
  - apply read_frame_sound in R as (key & f & K & V & -> & -> & -> & -> & EP).
    set (total := size_of (encode_frame key f)) in *.
    assert (HT : 0 <= total <= size_of (pending d)).
    { split; [apply size_nonneg|]. rewrite EP, size_app. fold total.
      pose proof (size_nonneg (zdrop total (pending d))). lia. }
    assert (UC : (cursor_ d + total)%u64 = cursor_ d + total)
      by (wf_inv W; apply uadd_small; u64_side).
    rewrite UC. set (d1 := set_data (buffer_ d) (cursor_ d + total) d).
    assert (W1 : wf d1) by (wf_inv W; constructor; simpl; try done; lia).
    assert (P1 : pending d1 = zdrop total (pending d)).
    { unfold pending, d1. simpl. rewrite zdrop_zdrop; [done|lia|]. apply W. }
    pose proof (handle_frame_spec d1 f W1 V) as HF.
    change (max_message_bytes_ d1) with (max_message_bytes_ d) in HF.
    change (fragment d1) with (fragment d) in HF.
    assert (C1 : same_config d d1) by done.
    destruct (assemble _ _ f) as [ev fr|fr|st] eqn:AS.
    + destruct HF as (d' & (W' & C' & P' & <- & L') & ->). simpl.
      split_and!; try done; [by transitivity d1|by rewrite L'|].
      simpl. rewrite EP, P', P1. by eapply next_deliver.
    + destruct HF as (d' & (W' & C' & P' & <- & L') & ->). simpl.
      split_and!; try done; [by transitivity d1|by rewrite L'|].
      exists key, f. rewrite P', P1. done.
    + destruct HF as (Hst & ev & e & ->). simpl. split_and!; try done. simpl.
      change (fragment d1) with (fragment d). rewrite EP at 1. rewrite P1.
      destruct Hst as [-> | ->]; by eapply next_refuse.
Qed.

(** The least number of bytes of a frame. *)
Definition min_frame (d : WebSocketDecoder) : Z := if require_masking_ d then 6 else 2.

Definition next_result (d : WebSocketDecoder) (st : WsParseStatus) (ev : WsEvent)
    (d' : WebSocketDecoder) : Prop :=
  next_rel (require_masking_ d) (max_message_bytes_ d) (pending d) (fragment d)
    (outcome_of st ev) (pending d') (fragment d') /\
  wf d' /\ same_config d d' /\ limit_exceeded_ d' = false.

Lemma Next_fuel_spec fuel d :
  wf d -> limit_exceeded_ d = false -> size_of (pending d) < min_frame d * Z.of_nat fuel ->
  exists st ev e d', Next_fuel fuel d = Some (st, ev, e, d') /\ next_result d st ev d'.
Proof.
  revert d. induction fuel as [|fuel IH]; intros d W L Hf.
  { pose proof (size_nonneg (pending d)). lia. }
  cbn [Next_fuel]. pose proof (NextBody_spec d W L) as B.
  destruct (NextBody d) as [[st ev e|] d1]; simpl in B; destruct B as (W1 & C1 & L1 & B).
  - eexists _, _, _, _. split; [done|]. done.
  - destruct B as (key & f & K & V & EP & A).
    destruct C1 as [CA CB CC].
    assert (M : min_frame d1 = min_frame d) by (unfold min_frame; rewrite CC; done).
    destruct (IH d1 W1 L1) as (st & ev & e & d2 & E & N & W2 & C2 & L2).
    { rewrite EP, size_app, (size_encode_frame _ _ _ K) in Hf. rewrite M.
      pose proof (size_nonneg (f_payload f)).
      pose proof (length_ext_bounds (size_of (f_payload f))).
      unfold min_frame, mask_size in *. destruct key; simpl in K;
        [destruct K as [K _]|]; rewrite K in *; simpl in *; lia. }
    eexists _, _, _, _. split; [done|]. unfold next_result. split_and!; try done.
    + rewrite EP. eapply next_continue; [done..|]. rewrite CA, CC. done.
    + transitivity d1; [split|]; done.
Qed.

Lemma ws_pending_length d : (length (pending d) <= length (buffer_ d))%nat.
Proof. unfold pending, zdrop. rewrite length_drop. lia. Qed.

Lemma ws_Next_spec d :
  wf d -> limit_exceeded_ d = false ->
  exists st ev e d', Next d = Some (st, ev, e, d') /\ next_result d st ev d'.
Proof.
  intros W L. apply Next_fuel_spec; [done..|]. pose proof (ws_pending_length d).
  unfold size_of, min_frame. destruct (require_masking_ d); lia.
Qed.

Lemma next_rel_shrinks rm max p fr o r fr' :
  next_rel rm max p fr o r fr' ->
  (length r <= length p)%nat /\ (forall ev, o = Event ev -> (length r < length p)%nat).
Proof.
  induction 1 as [|key f| key f|key f ? ? ? ? ? ? K V A N [IH1 IH2]];
    rewrite ?length_app, ?encode_frame_split; unfold encode_header; simpl;
    (split; [|intros ev0 Ho; try done]); try specialize (IH2 ev0 Ho); lia.
Qed.

(** ** Streams *)

(** The receive loop of [ProcessWebSocket] and one [Append] per read. *)
Fixpoint drain (fuel : nat) (d : WebSocketDecoder)
  : option (list WsEvent * WsParseStatus * WebSocketDecoder) :=
  match fuel with
  | O => None
  | S fuel =>
      '(st, ev, _, d') ← Next d;
      if bool_decide (st = EventReady)
      then '(evs, st, d'') ← drain fuel d'; Some (ev :: evs, st, d'')
      else Some ([], st, d')
  end.

Fixpoint feed (chunks : list (list byte)) (d : WebSocketDecoder)
  : option (list WsEvent * WsParseStatus * WebSocketDecoder) :=
  match chunks with
  | [] => Some ([], NeedMoreData, d)
  | c :: chunks =>
      let '(ok, d1) := Append c d in
      if negb ok then Some ([], BufferLimitExceeded, d1) else
      '(evs, st, d2) ← drain (S (length (buffer_ d1))) d1;
      if bool_decide (st = NeedMoreData)
      then '(evs', st', d3) ← feed chunks d2; Some (evs ++ evs', st', d3)
      else Some (evs, st, d2)
  end.

(** Frame by frame: the events and the fragment left, if no frame is refused. *)
Fixpoint assembles (max : Z) (fr : option (list byte)) (fs : list ws_frame)
  : option (list WsEvent * option (list byte)) :=
  match fs with
  | [] => Some ([], fr)
  | f :: fs =>
      match assemble max fr f with
      | Deliver ev fr' => '(evs, fr'') ← assembles max fr' fs; Some (ev :: evs, fr'')
      | Continue fr' => assembles max fr' fs
      | Refuse _ => None
      end
  end.

Section drains.
Context (rm : bool) (max : Z).
#[local] Abbreviation next_rel := (next_rel rm max).
#[local] Abbreviation drains := (drains rm max).

Lemma length_encode_frame key f r :
  (length r < length (encode_frame key f ++ r))%nat.
Proof. rewrite encode_frame_split. unfold encode_header. rewrite !length_app. simpl. lia. Qed.

(** Every state has a result. *)
Lemma next_rel_total p fr : exists o r fr', next_rel p fr o r fr'.
Proof.
  remember (length p) as n eqn:Hn. revert p fr Hn.
  induction n as [n IH] using lt_wf_ind. intros p fr ->.
  destruct (read_frame rm max (size_of p) p) as [st e|fin op pl total] eqn:R.
  - eexists _, _, _. by eapply next_stop.
  - apply read_frame_sound in R as (key & f & K & V & _ & _ & _ & _ & E).
    set (r := zdrop total p) in *. rewrite E.
    destruct (assemble max fr f) as [ev fr'|fr'|st] eqn:A.
    + eexists _, _, _. by eapply next_deliver.
    + edestruct (IH (length r)) as (o & r' & fr'' & N);
        [rewrite E; apply length_encode_frame|done|].
      eexists _, _, _. eapply next_continue; done.
    + eexists _, _, _. by eapply next_refuse.
Qed.

Lemma drains_total p fr : exists evs st r fr', drains p fr evs st r fr'.
Proof.
  remember (length p) as n eqn:Hn. revert p fr Hn.
  induction n as [n IH] using lt_wf_ind. intros p fr ->.
  destruct (next_rel_total p fr) as ([ev|st] & r & fr' & N).
  - edestruct (IH (length r)) as (evs & st & r' & fr'' & D); [|done|].
    { apply next_rel_shrinks in N as [_ H]. by eapply H. }
    eexists _, _, _, _. by eapply drains_event.
  - eexists _, _, _, _. by eapply drains_stop.
Qed.

Lemma ws_drains_det p fr evs st r fr' evs2 st2 r2 fr2 :
  drains p fr evs st r fr' -> drains p fr evs2 st2 r2 fr2 ->
  evs = evs2 /\ st = st2 /\ r = r2 /\ fr' = fr2.
Proof.
  intros D. revert evs2 st2 r2 fr2.
  induction D as [p fr st r fr' N|p fr ev p' fr' evs st r fr'' N D IH]; intros evs2 st2 r2 fr2 D2;
    inversion D2 as [? ? ? ? ? N2|? ? ? ? ? ? ? ? ? N2 D2']; subst;
    destruct (next_rel_det _ _ _ _ _ _ _ _ _ _ N N2) as (? & ? & ?); simplify_eq; [done|].
  destruct (IH _ _ _ _ D2') as (-> & -> & -> & ->). done.
Qed.

Lemma next_rel_resume_inv p fr r fr' q o r2 fr2 :
  next_rel p fr (Stop NeedMoreData) r fr' -> next_rel (p ++ q) fr o r2 fr2 ->
  next_rel (r ++ q) fr' o r2 fr2.
Proof.
  intros N N2. destruct (next_rel_total (r ++ q) fr') as (o' & r' & fr3 & N3).
  pose proof (next_rel_resume _ _ _ _ _ _ _ _ _ _ N N3) as N4.
  destruct (next_rel_det _ _ _ _ _ _ _ _ _ _ N2 N4) as (-> & -> & ->). done.
Qed.

Lemma ws_drains_split p fr q evs1 r1 fr1 evs st r fr' :
  drains p fr evs1 NeedMoreData r1 fr1 -> drains (p ++ q) fr evs st r fr' ->
  exists evs2, evs = evs1 ++ evs2 /\ drains (r1 ++ q) fr1 evs2 st r fr'.
Proof.
  remember NeedMoreData as s eqn:Hs. intros D1. revert evs Hs.
  induction D1 as [p fr s r1 fr1 N|p fr ev p' fr0 evs1 s r1 fr1 N D1 IH]; intros evs -> D.
  - exists evs. split; [done|].
    inversion D as [? ? ? ? ? N2|? ? ? ? ? ? ? ? ? N2 D2]; subst.
    + eapply drains_stop, next_rel_resume_inv; done.
    + eapply drains_event; [|done]. eapply next_rel_resume_inv; done.
  - apply (next_rel_app _ _ _ _ _ _ _ q) in N; [|done].
    inversion D as [? ? ? ? ? N2|? ? ? ? ? ? ? ? ? N2 D2]; subst;
      destruct (next_rel_det _ _ _ _ _ _ _ _ _ _ N N2) as (? & ? & ?); simplify_eq.
    destruct (IH _ eq_refl D2) as (evs2 & -> & D3). eauto.
Qed.

Lemma ws_drains_stop_app p fr q evs st r fr' :
  drains p fr evs st r fr' -> st <> NeedMoreData -> drains (p ++ q) fr evs st (r ++ q) fr'.
Proof.
  induction 1 as [p fr st r fr' N|p fr ev p' fr' evs st r fr'' N D IH]; intros Hst.
  - apply drains_stop, next_rel_app; [done|congruence].
  - eapply drains_event; [by apply next_rel_app|auto].
Qed.

Lemma drains_continue key f r fr fr' evs st r' fr'' :
  key_ok rm key -> valid_frame max f -> assemble max fr f = Continue fr' ->
  drains r fr' evs st r' fr'' -> drains (encode_frame key f ++ r) fr evs st r' fr''.
Proof.
  intros K V A D. inversion D as [? ? ? ? ? N|? ? ? ? ? ? ? ? ? N D']; subst.
  - eapply drains_stop, next_continue; done.
  - eapply drains_event; [|done]. eapply next_continue; done.
Qed.

(** What is left after [NeedMoreData] is an incomplete frame. *)
Lemma next_rel_incomplete p fr r fr' :
  next_rel p fr (Stop NeedMoreData) r fr' ->
  exists e, read_frame rm max (size_of r) r = FrameReturn NeedMoreData e.
Proof.
  remember (Stop NeedMoreData) as o eqn:Ho.
  induction 1 as [| ? ? ? ? ? ? ? A| |]; simplify_eq; eauto.
  unfold assemble in A. repeat case_match; simplify_eq.
Qed.

Lemma assembles_app fr fs1 fs2 evs1 fr1 evs2 fr2 :
  assembles max fr fs1 = Some (evs1, fr1) -> assembles max fr1 fs2 = Some (evs2, fr2) ->
  assembles max fr (fs1 ++ fs2) = Some (evs1 ++ evs2, fr2).
Proof.
  revert fr evs1. induction fs1 as [|f fs1 IH]; intros fr evs1 E1 E2; simpl in *; [by simplify_eq|].
  destruct (assemble max fr f) as [ev fr'|fr'|st]; [|by eapply IH|done].
  destruct (assembles max fr' fs1) as [[evs fr'']|] eqn:E; [|done]. simpl in E1. simplify_eq.
  by rewrite (IH _ _ E E2).
Qed.

Definition wire_frame (kf : option (list byte) * ws_frame) : Prop :=
  key_ok rm kf.1 /\ valid_frame max kf.2.

(** Up to an event, and up to the wait for more bytes, frames are taken off. *)
Lemma next_rel_frames p fr o r fr' :
  next_rel p fr o r fr' -> (forall st, o = Stop st -> st = NeedMoreData) ->
  exists kfs, Forall wire_frame kfs /\
    p = concat (map (fun kf => encode_frame kf.1 kf.2) kfs) ++ r /\
    assembles max fr (map snd kfs) = Some (match o with Event ev => [ev] | Stop _ => [] end, fr').
Proof.
  induction 1 as [p fr st e N|key f r fr st K V A|key f r fr ev fr' K V A|key f r fr fr' o r' fr'' K V A N IH];
    intros Ho.
  - by exists [].
  - specialize (Ho st eq_refl). subst st. unfold assemble in A. repeat case_match; simplify_eq.
  - exists [(key, f)]. split; [by apply Forall_singleton|]. simpl. rewrite app_nil_r, A. done.
  - destruct (IH Ho) as (kfs & F & -> & E). exists ((key, f) :: kfs).
    split; [by apply Forall_cons|]. simpl. rewrite <-app_assoc, A. done.
Qed.

Lemma drains_incomplete p fr evs r fr' :
  drains p fr evs NeedMoreData r fr' ->
  exists e, read_frame rm max (size_of r) r = FrameReturn NeedMoreData e.
Proof.
  remember NeedMoreData as s eqn:Hs.
  induction 1; simplify_eq; eauto using next_rel_incomplete.
Qed.
End drains.

Lemma ws_drains_frames rm max fr kfs evs fr' tail e :
  Forall (fun kf => key_ok rm kf.1 /\ valid_frame max kf.2) kfs ->
  assembles max fr (map snd kfs) = Some (evs, fr') ->
  read_frame rm max (size_of tail) tail = FrameReturn NeedMoreData e ->
  drains rm max (concat (map (fun kf => encode_frame kf.1 kf.2) kfs) ++ tail) fr
    evs NeedMoreData tail fr'.
Proof.
  intros F A R. revert fr evs A.
  induction F as [|[key f] kfs [K V] F IH]; intros fr evs A; simpl in *.
  - simplify_eq. eapply drains_stop, next_stop; done.
  - rewrite <-app_assoc. destruct (assemble max fr f) as [ev fr1|fr1|] eqn:AS; [| |done].
    + apply bind_Some in A as ([evs' fr2] & A & [= <- <-]).
      eapply drains_event; [|by apply IH]. eapply next_deliver; done.
    + eapply drains_continue; [done..|]. auto.
Qed.

(** The receive loop terminates within its fuel and computes [drains]. *)
Lemma ws_drain_spec fuel d :
  wf d -> limit_exceeded_ d = false -> (length (pending d) < fuel)%nat ->
  exists evs st d', drain fuel d = Some (evs, st, d') /\
    drains (require_masking_ d) (max_message_bytes_ d) (pending d) (fragment d)
      evs st (pending d') (fragment d') /\
    wf d' /\ same_config d d' /\ limit_exceeded_ d' = false.
Proof.
  revert d. induction fuel as [|fuel IH]; intros d W L Hf; [lia|].
  destruct (ws_Next_spec d W L) as (st & ev & e & d1 & E & N & W1 & C1 & L1).
  cbn [drain]. rewrite E. cbn [mbind option_bind]. unfold outcome_of in N.
  case_bool_decide as Hst.
  - destruct (IH d1 W1 L1) as (evs & st' & d2 & E2 & D & W2 & C2 & L2).
    { apply next_rel_shrinks in N as [_ H]. specialize (H ev eq_refl). lia. }
    rewrite E2. simpl. eexists _, _, _. split; [done|].
    pose proof C1 as [CA CB CC]. rewrite CA, CC in *.
    split_and!; try done; [by eapply drains_event|by transitivity d1].
  - eexists _, _, _. split; [done|]. split_and!; try done. by apply drains_stop.
Qed.

(** Reads of at most [k] bytes, with room for one more frame, never trip the
    buffer limit and compute [drains] of the whole stream. *)
Lemma ws_feed_spec chunks k d evs st r fr :
  wf d -> limit_exceeded_ d = false ->
  Forall (fun c => size_of c <= k) chunks ->
  k + max_message_bytes_ d + 14 <= max_buffered_bytes_ d ->
  (exists e, read_frame (require_masking_ d) (max_message_bytes_ d) (size_of (pending d)) (pending d)
     = FrameReturn NeedMoreData e) ->
  drains (require_masking_ d) (max_message_bytes_ d) (pending d ++ concat chunks) (fragment d)
    evs st r fr ->
  exists d', feed chunks d = Some (evs, st, d') /\
    (st = NeedMoreData -> pending d' = r /\ fragment d' = fr) /\ wf d'.
Proof.
  intros W L F. revert d evs W L.
  induction F as [|c chunks Hc F IH]; intros d evs W L K [e0 R0] D; cbn [feed].
  - simpl in D. rewrite app_nil_r in D.
    destruct (ws_drains_det _ _ _ _ _ _ _ _ [] NeedMoreData (pending d) (fragment d) D)
      as (-> & -> & -> & ->); [by eapply drains_stop, next_stop|]. eauto.
  - pose proof (ws_Append_spec d c W) as A. destruct (Append c d) as [ok d1].
    destruct A as (W1 & [CA CB CC] & F1 & A).
    apply read_frame_need_more_size in R0; [|apply W].
    destruct ok; [|lia]. destruct A as (_ & P1 & L1). cbn [negb].
    destruct (ws_drain_spec (S (length (buffer_ d1))) d1)
      as (evs1 & st1 & d2 & E & D1 & W2 & [CA2 CB2 CC2] & L2);
      [done|congruence|pose proof (ws_pending_length d1); lia|].
    rewrite E. cbn [mbind option_bind]. simpl in D. rewrite app_assoc, <-P1, <-F1, CA, CC in D.
    case_bool_decide as Hst.
    + subst st1. destruct (ws_drains_split _ _ _ _ _ _ _ _ _ _ _ _ D1 D) as (evs2 & -> & D2).
      pose proof (drains_incomplete _ _ _ _ _ _ _ D1) as R1.
      rewrite CA2, CC2 in *.
      destruct (IH d2 evs2) as (d3 & E3 & H3); try done; [lia|].
      rewrite E3. simpl. eauto.
    + destruct (ws_drains_det _ _ _ _ _ _ _ _ _ _ _ _ D
        (ws_drains_stop_app _ _ _ _ (concat chunks) _ _ _ _ D1 Hst)) as (-> & -> & -> & ->).
      eexists. split_and!; [done| |done]. done.
Qed.

(** ** Properties *)

(** C9. Frames arrive as the messages that were sent, whatever the chunk
    boundaries: for masked client frames whose assembly is defined (messages
    fragmented in any way, control frames in between), every split of the byte
    stream into reads of at most [k] bytes makes the decoder deliver exactly
    the assembled events in order, keep the incomplete tail pending and keep
    the fragment under assembly. *)
Theorem ws_stream_delivery mm mb k chunks kfs tail evs fr e :
  is_u64 mm -> 0 <= mb <= 4611686018427387904 -> k + mm + 14 <= mb ->
  Forall (fun c => size_of c <= k) chunks ->
  Forall (fun kf => key_ok true kf.1 /\ valid_frame mm kf.2) kfs ->
  assembles mm None (map snd kfs) = Some (evs, fr) ->
  read_frame true mm (size_of tail) tail = FrameReturn NeedMoreData e ->
  concat chunks = concat (map (fun kf => encode_frame kf.1 kf.2) kfs) ++ tail ->
  exists d, feed chunks (construct mm mb true) = Some (evs, NeedMoreData, d) /\
    pending d = tail /\ fragment d = fr.
Proof.
  intros Hm Hb Hk Hc Hf Ha Ht E.
  destruct (ws_feed_spec chunks k (construct mm mb true) evs NeedMoreData tail fr)
    as (d & F & P & _);
    [by apply decoder_construct_wf|done|done|done|by eexists| |by destruct (P eq_refl); eauto].
  change (pending (construct mm mb true)) with (@nil byte). cbn [app]. rewrite E.
  by eapply ws_drains_frames.
Qed.

(** The decoder does not depend on the chunk boundaries: any byte stream,
    valid or not, has one sequence of events and one final status, and every
    split of it into reads of at most [k] bytes produces them. *)
Theorem ws_chunking_independent mm mb k rm stream :
  is_u64 mm -> 0 <= mb <= 4611686018427387904 -> k + mm + 14 <= mb ->
  exists evs st, forall chunks,
    Forall (fun c => size_of c <= k) chunks -> concat chunks = stream ->
    exists d, feed chunks (construct mm mb rm) = Some (evs, st, d) /\ wf d.
Proof.
  intros Hm Hb Hk. destruct (drains_total rm mm stream None) as (evs & st & r & fr & D).
  exists evs, st. intros chunks Hc <-.
  destruct (ws_feed_spec chunks k (construct mm mb rm) evs st r fr) as (d & F & _ & W);
    [by apply decoder_construct_wf|done|done|done|by eexists|done|eauto].
Qed.

(** [Next] always returns: with [n] bytes pending it calls itself at most
    [n / 6] times when masking is required ([n / 2] times otherwise), which
    bounds the depth of its recursion. *)
Theorem ws_next_terminates d :
  wf d -> exists st ev e d', Next d = Some (st, ev, e, d') /\
    Next_fuel (S (Z.to_nat (size_of (pending d) / min_frame d))) d = Some (st, ev, e, d').
Proof.
  intros W. destruct (limit_exceeded_ d) eqn:L.
  { unfold Next. cbn [Next_fuel]. unfold NextBody. rewrite L. eauto 10. }
  set (m := Z.to_nat (size_of (pending d) / min_frame d)).
  assert (MF : 0 < min_frame d) by (unfold min_frame; destruct (require_masking_ d); lia).
  assert (Hm : size_of (pending d) < min_frame d * Z.of_nat (S m)).
  { unfold m. pose proof (size_nonneg (pending d)).
    pose proof (Z.div_mod (size_of (pending d)) (min_frame d)).
    pose proof (Z.mod_pos_bound (size_of (pending d)) (min_frame d)).
    rewrite Nat2Z.inj_succ, Z2Nat.id by (apply Z.div_pos; lia). lia. }
  destruct (Next_fuel_spec (S m) d W L Hm) as (st & ev & e & d' & E & _).
  exists st, ev, e, d'. split; [|done].
  assert (mono : forall n m d x, Next_fuel n d = Some x -> (n <= m)%nat -> Next_fuel m d = Some x).
  { clear. induction n as [|n IH]; intros [|m] d x H Hle; try done; try lia.
    cbn [Next_fuel] in *. destruct (NextBody d) as [[] d1]; [done|]. apply IH; [done|lia]. }
  eapply mono; [exact E|]. unfold m. pose proof (ws_pending_length d). unfold size_of in *.
  apply le_n_S. rewrite <-(Nat2Z.id (length (buffer_ d))). apply Z2Nat.inj_le; [|lia|].
  - apply Z.div_pos; lia.
  - transitivity (Z.of_nat (length (pending d))); [|lia]. apply Z.div_le_upper_bound; [lia|]. nia.
Qed.

(** What a delivered event promises to the server. *)
Definition rfc_close_code (c : Z) : Prop :=
  1000 <= c <= 1003 \/ 1007 <= c <= 1014 \/ 3000 <= c <= 4999.

Definition event_ok (max : Z) (ev : WsEvent) : Prop :=
  match ev_type ev with
  | BinaryMessage => size_of (ev_payload ev) <= max
  | PingEvent | PongEvent => size_of (ev_payload ev) <= 125
  | CloseEvent => size_of (ev_payload ev) <= 125 /\
      match ev_payload ev with
      | [] => ev_close_code ev = 1000
      | b0 :: rest => exists b1 reason, rest = b1 :: reason /\
          ev_close_code ev = be_decode [b0; b1] /\ rfc_close_code (ev_close_code ev) /\
          utf8_string reason
      end
  end.

Lemma IsValidCloseCode_rfc c : IsValidCloseCode c = true <-> rfc_close_code c.
Proof. unfold IsValidCloseCode, rfc_close_code. repeat split_if; lia. Qed.

Lemma assemble_event_ok max fr f :
  valid_frame max f -> (forall part, fr = Some part -> size_of part <= max) ->
  match assemble max fr f with
  | Deliver ev fr' => event_ok max ev /\ (forall part, fr' = Some part -> size_of part <= max)
  | Continue fr' => forall part, fr' = Some part -> size_of part <= max
  | Refuse _ => True
  end.
Proof.
  intros [V1 V2 V3] Hfr. unfold assemble. destruct (f_op f).
  - destruct fr as [part|]; [|done]. split_if; [done|]. destruct (f_fin f).
    + split; [|done]. unfold event_ok. simpl. rewrite size_app. lia.
    + intros ? [= <-]. rewrite size_app. lia.
  - done.
  - destruct fr; [done|]. destruct (f_fin f); [done|]. intros ? [= <-]. done.
  - destruct (V3 eq_refl) as [_ V4]. destruct (close_ok (f_payload f)) eqn:C; [|done].
    split; [|done]. unfold event_ok. simpl. split; [done|].
    destruct (f_payload f) as [|b0 [|b1 reason]]; [done..|].
    cbn [close_ok] in C. apply andb_true_iff in C as [C1 C2].
    exists b1, reason. split; [done|]. unfold be_decode. simpl.
    apply IsValidCloseCode_rfc in C1. apply IsValidUtf8_iff in C2. done.
  - destruct (V3 eq_refl). done.
  - destruct (V3 eq_refl). done.
Qed.

Lemma next_rel_event_ok rm max p fr ev r fr' :
  next_rel rm max p fr (Event ev) r fr' ->
  (forall part, fr = Some part -> size_of part <= max) -> event_ok max ev.
Proof.
  remember (Event ev) as o eqn:Ho. intros N. revert Ho.
  induction N as [| |? f ? fr0 ? ? K V A|? f ? fr0 ? ? ? ? K V A N IH]; intros Ho Hfr; simplify_eq;
    pose proof (assemble_event_ok max fr0 f V Hfr) as H; rewrite A in H; [apply H|auto].
Qed.

(** Every operation keeps the decoder well formed (cursor inside the
    buffer, pending bytes within the limit, fragments only of binary messages
    and within the message limit), and every event [Next] delivers is valid:
    messages within the limit, control payloads of at most 125 bytes, close
    codes that RFC 6455 allows with a UTF-8 reason. *)
Theorem ws_invariant d bytes :
  wf d ->
  wf (Append bytes d).2 /\ wf (Reset d) /\
  BufferedBytes d = size_of (pending d) /\ BufferedBytes d <= max_buffered_bytes_ d /\
  exists st ev e d', Next d = Some (st, ev, e, d') /\ wf d' /\
    BufferedBytes d' <= BufferedBytes d /\
    (st = EventReady -> event_ok (max_message_bytes_ d) ev /\ BufferedBytes d' < BufferedBytes d).
Proof.
  intros W. assert (BB : forall d, wf d -> BufferedBytes d = size_of (pending d)).
  { intros d0 W0. rewrite ws_size_pending by done. wf_inv W0. unfold BufferedBytes. u64_simpl. done. }
  split_and!.
  - pose proof (ws_Append_spec d bytes W) as A. destruct (Append bytes d). apply A.
  - wf_inv W. constructor; simpl; size_simpl; try done; lia.
  - by apply BB.
  - rewrite BB, ws_size_pending by done. apply W.
  - destruct (limit_exceeded_ d) eqn:L.
    { unfold Next. cbn [Next_fuel]. unfold NextBody. rewrite L. eexists _, _, _, _.
      split; [done|]. split_and!; done. }
    destruct (ws_Next_spec d W L) as (st & ev & e & d' & E & N & W' & _).
    exists st, ev, e, d'. rewrite !BB by done. unfold size_of.
    pose proof (next_rel_shrinks _ _ _ _ _ _ _ N) as [H1 H2].
    split_and!; [done..|lia|]. intros ->. specialize (H2 ev eq_refl). split; [|lia].
    eapply next_rel_event_ok; [exact N|]. unfold fragment.
    destruct (fragmented_ d) eqn:F; [|done]. intros ? [= <-]. by apply W.
Qed.

(** C20. The decoder recognises exactly the wire format: a frame is read if and
    only if the pending bytes start with the encoding of a valid frame (legal
    opcode, no reserved bits, masking as configured, shortest length form,
    control frames whole and short, payload within the limit), and then its
    fields, unmasked payload and size are those of that frame. *)
Theorem ws_frame_exact rm max p fin op payload total :
  read_frame rm max (size_of p) p = FrameRead fin op payload total <->
  exists key f r, key_ok rm key /\ valid_frame max f /\ p = encode_frame key f ++ r /\
    fin = f_fin f /\ op = Some (f_op f) /\ payload = f_payload f /\
    total = size_of (encode_frame key f).
Proof.
  split.
  - intros (key & f & K & V & -> & -> & -> & -> & E)%read_frame_sound. eauto 15.
  - intros (key & f & r & K & V & -> & -> & -> & -> & ->). by apply read_frame_complete.
Qed.

(** ** The frame builder *)

Lemma build_byte z i : 0 <= i -> z2b (Z.land (Z.shiftr z i) 255) = z2b (z / 2 ^ i).
Proof. intros. rewrite land_255, z2b_mod, Z.shiftr_div_pow2 by done. done. Qed.

Lemma BuildFrameHeader_encode op payload :
  size_of payload < 9223372036854775808 ->
  let '(header, header_size) := BuildFrameHeader op (size_of payload) in
  ztake header_size header = encode_header false (mkFrame true op payload) /\
  2 <= header_size <= 10 /\ length header = 10%nat.
Proof.
  intros H. pose proof (size_nonneg payload). unfold BuildFrameHeader, encode_header.
  cbn [f_payload f_fin f_op]. unfold length_code, length_ext.
  assert (E0 : z2b (Z.lor 128 (opcode_value op)) = z2b (128 + opcode_value op))
    by (destruct op; done).
  rewrite E0. split_if; [|split_if].
  - split_and!; done.
  - split_and!; try done. cbn. rewrite build_byte, land_255, z2b_mod by lia.
    change (256 ^ Z.of_nat 0) with 1. rewrite Z.div_1_r. done.
  - split_and!; try done. cbn [seq foldl]. rewrite !build_byte by lia.
    cbn. rewrite !Z.div_1_r. repeat apply (f_equal2 cons); reflexivity.
Qed.

Lemma BuildFrame_encode op payload :
  size_of payload < 9223372036854775808 ->
  BuildFrame op payload = encode_frame None (mkFrame true op payload).
Proof.
  intros H. pose proof (BuildFrameHeader_encode op payload H) as B. unfold BuildFrame.
  destruct (BuildFrameHeader _ _) as [header hs]. destruct B as [-> _]. done.
Qed.

Definition event_type (op : WsOpcode) : option WsEventType :=
  match op with
  | Binary => Some BinaryMessage | Ping => Some PingEvent | Pong => Some PongEvent
  | Close => Some CloseEvent | _ => None
  end.

(** C38. [BuildFrame] round-trips: a decoder of unmasked frames that has such a
    frame pending, whatever follows it, delivers the event of its opcode with
    its payload and consumes exactly the frame; the header takes 2 to 10 bytes
    of its array. *)
Theorem ws_build_roundtrip d op ty payload rest :
  wf d -> limit_exceeded_ d = false -> require_masking_ d = false -> fragment d = None ->
  event_type op = Some ty -> (op = Close -> close_ok payload = true) ->
  valid_frame (max_message_bytes_ d) (mkFrame true op payload) ->
  pending d = BuildFrame op payload ++ rest ->
  2 <= (BuildFrameHeader op (size_of payload)).2 <= 10 /\
  exists ev e d', Next d = Some (EventReady, ev, e, d') /\
    ev_type ev = ty /\ ev_payload ev = payload /\ pending d' = rest /\ wf d'.
Proof.
  intros W L M F T C V P. pose proof (vf_63 _ _ V) as V63. simpl in V63. split.
  { pose proof (BuildFrameHeader_encode op payload V63) as B.
    destruct (BuildFrameHeader _ _). apply B. }
  rewrite BuildFrame_encode in P by done.
  destruct (ws_Next_spec d W L) as (st & ev & e & d' & E & N & W' & _).
  rewrite P, M, F in N.
  assert (A : exists ev', assemble (max_message_bytes_ d) None (mkFrame true op payload)
    = Deliver ev' None /\ ev_type ev' = ty /\ ev_payload ev' = payload).
  { destruct op; simpl in T; simplify_eq; unfold assemble; simpl; eauto.
    rewrite C by done. eauto. }
  destruct A as (ev' & A & A1 & A2).
  assert (N' : next_rel false (max_message_bytes_ d)
    (encode_frame None (mkFrame true op payload) ++ rest) None (Event ev') rest None)
    by (eapply next_deliver; done).
  destruct (next_rel_det _ _ _ _ _ _ _ _ _ _ N N') as (O & <- & _).
  unfold outcome_of in O. case_bool_decide; simplify_eq. eauto 10.
Qed.

Lemma read_frame_too_large rm max f rest :
  IsControlOpcode (Some (f_op f)) = false ->
  max < size_of (f_payload f) < 9223372036854775808 ->
  let p := encode_header rm f ++ rest in
  exists e, read_frame rm max (size_of p) p = FrameReturn MessageTooLarge e.
Proof.
  intros C H p. set (n := size_of (f_payload f)) in *.
  assert (0 <= n) by apply size_nonneg. pose proof (size_nonneg rest).
  pose proof (length_ext_bounds n).
  assert (SP : size_of p = 2 + size_of (length_ext n) + size_of rest)
    by (unfold p; rewrite size_app, size_encode_header; done).
  assert (RL : read_length (length_code n) (size_of p) p = inr (2 + size_of (length_ext n), n))
    by (apply read_length_complete; lia).
  destruct (first_byte_encode (f_fin f) (f_op f)) as (F1 & F2 & F3).
  destruct (second_byte_encode rm (length_code n)) as [G1 G2]; [by apply length_code_range|].
  unfold read_frame.
  change (p !!! 0%nat) with (z2b ((if f_fin f then 128 else 0) + opcode_value (f_op f))).
  change (p !!! 1%nat) with (z2b ((if rm then 128 else 0) + length_code n)).
  rewrite F1, F2, F3, G1, G2, RL, C. cbv zeta.
  split_if; [lia|]. split_if; [destruct (f_op f); naive_solver|].
  rewrite !andb_negb_r, andb_false_l. rewrite (andb_comm (negb rm)), andb_negb_r.
  split_if; [eauto|lia].
Qed.

Lemma NextBody_read d :
  wf d -> limit_exceeded_ d = false ->
  NextBody d = match read_frame (require_masking_ d) (max_message_bytes_ d)
                      (size_of (pending d)) (pending d) with
  | FrameReturn st error => (Return st default_event error, d)
  | FrameRead fin op payload total_size =>
      handle_frame fin op payload (set_data (buffer_ d) (cursor_ d + total_size)%u64 d)
  end.
Proof.
  intros W L. unfold NextBody. rewrite L. fold (pending d).
  rewrite ws_size_pending by done. wf_inv W. rewrite usub_small by u64_side. done.
Qed.

(** Violations are reported: a refused [Append] makes every later [Next]
    report the limit until [Reset]; a client frame without a mask, with a
    reserved bit or an unknown opcode is a protocol error as soon as two bytes
    are there; a payload over the message limit is refused on its header alone,
    nothing being consumed; a text frame, a stray continuation and a data frame
    inside a fragmented message are refused. *)
Theorem ws_violations d :
  wf d ->
  (forall bytes d', Append bytes d = (false, d') ->
     max_buffered_bytes_ d < size_of (pending d) + size_of bytes /\ pending d' = pending d /\
     (exists ev e, Next d' = Some (BufferLimitExceeded, ev, e, d')) /\
     limit_exceeded_ (Reset d') = false) /\
  (forall b0 b1 rest, limit_exceeded_ d = false -> require_masking_ d = true ->
     pending d = b0 :: b1 :: rest ->
     b2z b1 < 128 \/ 16 <= b2z b0 mod 128 \/
       opcode_cast (b2z b0 mod 16) = None ->
     exists ev e, Next d = Some (ProtocolError, ev, e, d)) /\
  (forall f rest, limit_exceeded_ d = false -> IsControlOpcode (Some (f_op f)) = false ->
     max_message_bytes_ d < size_of (f_payload f) < 9223372036854775808 ->
     pending d = encode_header (require_masking_ d) f ++ rest ->
     exists ev e, Next d = Some (MessageTooLarge, ev, e, d)) /\
  (forall key f rest, limit_exceeded_ d = false -> key_ok (require_masking_ d) key ->
     valid_frame (max_message_bytes_ d) f -> pending d = encode_frame key f ++ rest ->
     f_op f = Text \/ f_op f = Continuation /\ fragment d = None \/
       f_op f = Binary /\ is_Some (fragment d) ->
     exists ev e d', Next d = Some (ProtocolError, ev, e, d') /\ pending d' = rest).
Proof.
  intros W. split_and!.
  - intros bytes d' E. pose proof (ws_Append_spec d bytes W) as A. rewrite E in A.
    destruct A as (W' & [CA CB CC] & F & A1 & A2 & A3). split_and!; try done.
    unfold Next. cbn [Next_fuel]. unfold NextBody. rewrite A3. eauto.
  - intros b0 b1 rest L M P H. unfold Next. cbn [Next_fuel]. rewrite NextBody_read by done.
    rewrite P, M. unfold read_frame.
    pose proof (size_nonneg rest). rewrite !size_cons. split_if; [lia|].
    cbn [lookup_total list_lookup_total]. cbv zeta. split_if; [eauto|].
    assert (B : forall b, Z.land (b2z b) 112 = 0 -> b2z b mod 128 < 16)
      by (intros b; destruct b; vm_compute; congruence).
    assert (B' : forall b, Z.land (b2z b) 15 = b2z b mod 16) by (intros b; by destruct b).
    assert (B1 : forall b, b2z b < 128 -> Z.land (b2z b) 128 = 0)
      by (intros b; destruct b; vm_compute; congruence).
    destruct Hif0 as [R O]. rewrite B' in O. specialize (B b0 R).
    destruct H as [H|[H|H]]; [|lia|rewrite H in O; done].
    rewrite (B1 b1 H). simpl. eauto.
  - intros f rest L C H P. unfold Next. cbn [Next_fuel]. rewrite NextBody_read by done.
    rewrite P. destruct (read_frame_too_large (require_masking_ d) _ f rest C H) as [e ->]. eauto.
  - intros key f rest L K V P H.
    destruct (ws_Next_spec d W L) as (st & ev & e & d' & E & N & _). rewrite P in N.
    assert (A : assemble (max_message_bytes_ d) (fragment d) f = Refuse ProtocolError).
    { unfold assemble. destruct H as [->|[[-> ->]|[-> [x ->]]]]; done. }
    destruct (next_rel_det _ _ _ _ _ _ _ _ _ _ N
      (next_refuse _ _ _ _ rest _ _ K V A)) as (O & P' & _).
    unfold outcome_of in O. case_bool_decide; simplify_eq. eauto 10.
Qed.

(** ** Witnesses *)

(** A binary message in two fragments with a ping in between. *)
Definition sample_frames : list (option (list byte) * ws_frame) :=
  [ (Some (bstr "abcd"), mkFrame false Binary (bstr "he"));
    (Some (bstr "wxyz"), mkFrame true Ping (bstr "p"));
    (Some (bstr "1234"), mkFrame true Continuation (bstr "llo")) ].

Definition sample_wire : list byte :=
  concat (map (fun kf => encode_frame kf.1 kf.2) sample_frames).

Ltac config_wf := constructor; vm_compute; intuition congruence.

Lemma ws_stream_delivery_witness :
  exists d, feed [take 9 sample_wire; drop 9 sample_wire ++ bstr "x"] (construct 16 64 true)
    = Some ([mkEvent PingEvent (bstr "p") 1000; mkEvent BinaryMessage (bstr "hello") 1000],
            NeedMoreData, d) /\ pending d = bstr "x" /\ fragment d = None.
Proof.
  apply (ws_stream_delivery 16 64 30 _ sample_frames (bstr "x") _ None ""%string);
    try (unfold is_u64, size_max; lia); try reflexivity.
  - repeat constructor; vm_compute; congruence.
  - repeat constructor; vm_compute; intuition congruence.
Defined.

Lemma ws_chunking_independent_witness :
  exists evs st, forall chunks,
    Forall (fun c => size_of c <= 30) chunks -> concat chunks = sample_wire ->
    exists d, feed chunks (construct 16 64 true) = Some (evs, st, d) /\ wf d.
Proof. apply ws_chunking_independent; unfold is_u64, size_max; lia. Defined.

Definition sample_decoder : WebSocketDecoder := (Append sample_wire (construct 16 64 true)).2.

Lemma ws_next_terminates_witness :
  exists st ev e d', Next sample_decoder = Some (st, ev, e, d') /\
    Next_fuel 5 sample_decoder = Some (st, ev, e, d').
Proof. apply (ws_next_terminates sample_decoder). config_wf. Defined.

Lemma ws_invariant_witness :
  wf (Append (bstr "more") sample_decoder).2.
Proof. apply (ws_invariant sample_decoder (bstr "more")). config_wf. Defined.

Lemma ws_build_roundtrip_witness :
  exists ev e d',
    Next (Append (BuildFrame Binary (bstr "hello")) (construct 16 64 false)).2
      = Some (EventReady, ev, e, d') /\ ev_payload ev = bstr "hello" /\ pending d' = [].
Proof.
  destruct (ws_build_roundtrip
    (Append (BuildFrame Binary (bstr "hello")) (construct 16 64 false)).2
    Binary BinaryMessage (bstr "hello") []) as (_ & ev & e & d' & E & _ & P & R & _);
    try reflexivity; try done; try config_wf. eauto 10.
Defined.

Lemma ws_violations_witness :
  exists ev e, Next (Append (BuildFrame Binary (bstr "hello")) (construct 16 64 true)).2
    = Some (ProtocolError, ev, e,
            (Append (BuildFrame Binary (bstr "hello")) (construct 16 64 true)).2).
Proof.
  eapply (proj1 (proj2 (ws_violations
    (Append (BuildFrame Binary (bstr "hello")) (construct 16 64 true)).2 _)));
    try reflexivity. left. vm_compute. reflexivity.
  Unshelve. config_wf.
Defined.
