(* ===== verification/Handshake.v ===== *)
(** * The WebSocket handshake (src/src/transport/websocket_transport.cpp)

    [ParseHandshake] and its string helpers, on positions as in the code.
    [std::string_view::npos] is [None].  The specification, [request_ok], works
    on the list of lines of the request head: the scanner with its positions,
    [unordered_map] and early returns is proved to accept exactly the requests
    the specification accepts. *)

From S2P Require Import Prelude Base64 Sha1.

(** ** Strings *)

Definition crlf : list byte := [z2b 13; z2b 10].
Definition space : byte := z2b 32.
Definition tab : byte := z2b 9.
Definition comma : byte := z2b 44.
Definition colon : byte := z2b 58.

Definition blank (c : byte) : bool := bool_decide (c = space) || bool_decide (c = tab).

(** The two loops of [Trim]; [remove_suffix] works from the end. *)
Fixpoint trim_front (value : list byte) : list byte :=
  match value with
  | c :: rest => if blank c then trim_front rest else value
  | [] => []
  end.

Definition trim_back (value : list byte) : list byte := reverse (trim_front (reverse value)).

Definition Trim (value : list byte) : list byte := trim_back (trim_front value).

(** [std::tolower] in the C locale. *)
Definition tolower (ch : byte) : byte :=
  if (65 <=? b2z ch) && (b2z ch <=? 90) then z2b (b2z ch + 32) else ch.

Definition Lower (value : list byte) : list byte := map tolower value.

(** [find] from the front and from a position. *)
Fixpoint is_prefix (needle hay : list byte) : bool :=
  match needle, hay with
  | [], _ => true
  | _ :: _, [] => false
  | a :: needle, b :: hay => bool_decide (a = b) && is_prefix needle hay
  end.

Fixpoint find (needle hay : list byte) : option nat :=
  if is_prefix needle hay then Some 0%nat else
  match hay with
  | [] => None
  | _ :: hay => S <$> find needle hay
  end.

Definition find_from (needle hay : list byte) (position : nat) : option nat :=
  Nat.add position <$> find needle (drop position hay).

Definition substr (s : list byte) (position count : nat) : list byte :=
  take count (drop position s).

(** The loop of [ContainsToken]; [None] means the fuel ran out. *)
Fixpoint ContainsToken_loop (fuel : nat) (value expected : list byte) : option bool :=
  match fuel with
  | O => None
  | S fuel =>
      match value with
      | [] => Some false
      | _ =>
          let separator := find [comma] value in
          let token := Trim (match separator with Some i => take i value | None => value end) in
          if bool_decide (Lower token = Lower expected) then Some true else
          match separator with
          | None => Some false
          | Some i => ContainsToken_loop fuel (drop (i + 1) value) expected
          end
      end
  end.

Definition ContainsToken (value expected : list byte) : bool :=
  default false (ContainsToken_loop (S (length value)) value expected).

(** ** [ParseHandshake] *)

Inductive HandshakeStatus := NeedMoreData | Accepted | Rejected.

#[export] Instance HandshakeStatus_eq_dec : EqDecision HandshakeStatus.
Proof. solve_decision. Defined.

Record HandshakeResult := mkResult {
  status : HandshakeStatus;
  consumed : Z;
  response : list byte;
  origin : list byte;
  error : string;
}.

(** Lines of a response, each ended by CR LF, and the empty line. *)
Definition http_lines (lines : list string) : list byte :=
  concat (map (fun s => bstr s ++ crlf) lines) ++ crlf.

Definition response_431 := http_lines
  ["HTTP/1.1 431 Request Header Fields Too Large"; "Connection: close"]%string.
Definition response_400 := http_lines ["HTTP/1.1 400 Bad Request"; "Connection: close"]%string.
Definition response_400_version := http_lines
  ["HTTP/1.1 400 Bad Request"; "Sec-WebSocket-Version: 13"; "Connection: close"]%string.
Definition response_403 := http_lines ["HTTP/1.1 403 Forbidden"; "Connection: close"]%string.
Definition response_101 (accept : list byte) : list byte :=
  concat (map (fun s => bstr s ++ crlf)
    ["HTTP/1.1 101 Switching Protocols"; "Upgrade: websocket"; "Connection: Upgrade"]%string)
  ++ bstr "Sec-WebSocket-Accept: " ++ accept ++ crlf ++ crlf.

Definition reject (consumed : Z) (origin : list byte) (error : string) (response : list byte) :=
  mkResult Rejected consumed response origin error.

(** The header loop: [None] means out of fuel, [inl] is a rejection's error.  A
    line end is always found: the loop stays before [header_end], where one is. *)
Fixpoint header_loop (fuel : nat) (request : list byte) (header_end position : nat)
    (headers : gmap (list byte) (list byte))
  : option (string + gmap (list byte) (list byte)) :=
  match fuel with
  | O => None
  | S fuel =>
      if (position <? header_end)%nat then
        let line_end := default (length request) (find_from crlf request position) in
        let line := substr request position (line_end - position) in
        match find [colon] line with
        | None => Some (inl "malformed HTTP header"%string)
        | Some i =>
            let name := Lower (Trim (take i line)) in
            match headers !! name with
            | Some _ => Some (inl "duplicate HTTP header"%string)
            | None => header_loop fuel request header_end (line_end + 2)
                        (<[name := Trim (drop (i + 1) line)]> headers)
            end
        end
      else Some (inr headers)
  end.

(** The request line: [GET <target> HTTP/1.1].  [first_space + 1] wraps to 0
    when there is no space. *)
Definition request_line_ok (request_line : list byte) : bool :=
  let first_space := find [space] request_line in
  let second_space := find_from [space] request_line
    (match first_space with Some i => i + 1 | None => 0 end)%nat in
  match first_space, second_space with
  | Some i, Some j =>
      bool_decide (take i request_line = bstr "GET") &&
      bool_decide (drop (j + 1) request_line = bstr "HTTP/1.1")
  | _, _ => false
  end.

(** The four mandatory headers; the key when they are right. *)
Definition upgrade_key (headers : gmap (list byte) (list byte)) : option (list byte) :=
  match headers !! bstr "upgrade", headers !! bstr "connection",
        headers !! bstr "sec-websocket-key", headers !! bstr "sec-websocket-version" with
  | Some upgrade, Some connection, Some key, Some version =>
      if bool_decide (Lower upgrade = bstr "websocket") &&
         ContainsToken connection (bstr "upgrade") &&
         IsValidWebSocketKey key && bool_decide (version = bstr "13")
      then Some key else None
  | _, _, _, _ => None
  end.

(** [None] means a loop ran out of fuel. *)
Definition ParseHandshake (bytes : list byte) (max_header_bytes : Z)
    (origin_validator : option (list byte -> bool)) : option HandshakeResult :=
  if max_header_bytes <? size_of bytes
  then Some (reject 0 [] "HTTP upgrade headers exceed configured limit"%string response_431) else
  match find (crlf ++ crlf) bytes with
  | None => Some (mkResult NeedMoreData 0 [] [] ""%string)
  | Some header_end =>
      let consumed := Z.of_nat header_end + 4 in
      match find crlf bytes with
      | None => Some (reject consumed [] "missing HTTP request line"%string response_400)
      | Some request_line_end =>
          if negb (request_line_ok (take request_line_end bytes))
          then Some (reject consumed [] "WebSocket upgrade requires GET over HTTP/1.1"%string
                       response_400) else
          outcome ← header_loop (S header_end) bytes header_end (request_line_end + 2) ∅;
          match outcome with
          | inl error => Some (reject consumed [] error response_400)
          | inr headers =>
              match upgrade_key headers with
              | None => Some (reject consumed []
                  "required WebSocket upgrade headers are missing or invalid"%string
                  response_400_version)
              | Some key =>
                  let origin := default [] (headers !! bstr "origin") in
                  if match origin_validator with Some v => negb (v origin) | None => false end
                  then Some (reject consumed origin "WebSocket Origin is not allowed"%string
                               response_403) else
                  accept ← ComputeAcceptKey key;
                  Some (mkResult Accepted consumed (response_101 accept) origin ""%string)
              end
          end
      end
  end.

(** ** Specification *)

(** The lines of the head: what stands between CR LF pairs. *)
Fixpoint split_crlf (l : list byte) : list (list byte) :=
  match l with
  | [] => [[]]
  | a :: l' =>
      let rest := match split_crlf l' with [] => [[a]] | x :: xs => (a :: x) :: xs end in
      match l' with
      | b :: l'' =>
          if bool_decide (a = z2b 13) && bool_decide (b = z2b 10) then [] :: split_crlf l''
          else rest
      | [] => rest
      end
  end.

Definition parse_field (line : list byte) : option (list byte * list byte) :=
  i ← find [colon] line; Some (Lower (Trim (take i line)), Trim (drop (i + 1) line)).

(** The elements of a comma-separated list. *)
Fixpoint split_on (c : byte) (l : list byte) : list (list byte) :=
  match l with
  | [] => [[]]
  | x :: l =>
      if bool_decide (c = x) then [] :: split_on c l
      else match split_on c l with [] => [[x]] | y :: ys => (x :: y) :: ys end
  end.

Definition has_token (value token : list byte) : Prop :=
  exists t, t ∈ split_on comma value /\ Lower (Trim t) = token.

(** The head is an upgrade request with this key and origin. *)
Record request_ok (head key origin : list byte) : Prop := {
  request_parts : exists target lines fs upgrade connection,
    split_crlf head = (bstr "GET " ++ target ++ bstr " HTTP/1.1") :: lines /\
    (space ∉ target) /\
    mapM parse_field lines = Some fs /\ NoDup (fs.*1) /\
    (bstr "upgrade", upgrade) ∈ fs /\ Lower upgrade = bstr "websocket" /\
    (bstr "connection", connection) ∈ fs /\ has_token connection (bstr "upgrade") /\
    (bstr "sec-websocket-key", key) ∈ fs /\ IsValidWebSocketKey key = true /\
    (bstr "sec-websocket-version", bstr "13") ∈ fs /\
    ((bstr "origin", origin) ∈ fs \/ (bstr "origin" ∉ fs.*1) /\ origin = []);
}.

(** [head] is followed by the first empty line of [bytes]. *)
Record head_of (bytes head rest : list byte) : Prop := {
  head_split : bytes = head ++ crlf ++ crlf ++ rest;
  head_first : forall i, (i < length head)%nat -> is_prefix (crlf ++ crlf) (drop i bytes) = false;
}.

(** ** Searching *)

Lemma is_prefix_spec n h : is_prefix n h = true <-> exists k, h = n ++ k.
Proof.
  revert h. induction n as [|a n IH]; intros [|b h]; simpl.
  - split; eauto.
  - split; eauto.
  - split; [done|]. by intros [k ?].
  - rewrite andb_true_iff, bool_decide_eq_true, IH. split.
    + intros [-> [k ->]]. eauto.
    + intros [k [= -> ->]]. eauto.
Qed.

Lemma is_prefix_app n k : is_prefix n (n ++ k) = true.
Proof. apply is_prefix_spec. eauto. Qed.

Lemma find_unfold n h :
  find n h = if is_prefix n h then Some 0%nat
             else match h with [] => None | _ :: h => S <$> find n h end.
Proof. by destruct h. Qed.

Lemma find_Some n h i :
  find n h = Some i <->
  is_prefix n (drop i h) = true /\ (i <= length h)%nat /\
  (forall j, (j < i)%nat -> is_prefix n (drop j h) = false).
Proof.
  revert i. induction h as [|b h IH]; intros i; rewrite find_unfold.
  - destruct (is_prefix n []) eqn:E.
    + split; [intros [= <-]; simpl; split_and!; [done|lia|lia]|].
      simpl. intros (_ & ? & _). f_equal. lia.
    + split; [done|]. simpl. intros (H & ? & _). assert (i = 0)%nat as -> by lia. simpl in H. congruence.
  - destruct (is_prefix n (b :: h)) eqn:E.
    + split; [intros [= <-]; simpl; split_and!; [done|lia|lia]|].
      intros (_ & _ & H). f_equal. destruct i as [|i]; [done|].
      specialize (H 0%nat ltac:(lia)). simpl in H. congruence.
    + rewrite fmap_Some. split.
      * intros (i' & (H1 & H2 & H3)%IH & ->). simpl. split_and!; [done|lia|].
        intros [|j] Hj; simpl; [done|]. apply H3. lia.
      * intros (H1 & H2 & H3). destruct i as [|i]; [simpl in H1; congruence|].
        exists i. split; [|done]. apply IH. simpl in *. split_and!; [done|lia|].
        intros j Hj. apply (H3 (S j)). lia.
Qed.

Lemma find_None n h j : find n h = None -> is_prefix n (drop j h) = false.
Proof.
  revert j. induction h as [|b h IH]; intros j; rewrite find_unfold.
  - destruct (is_prefix n []) eqn:E; [done|]. by rewrite drop_nil.
  - destruct (is_prefix n (b :: h)) eqn:E; [done|]. rewrite fmap_None. intros H.
    destruct j as [|j]; simpl; auto.
Qed.

(** The character at the first occurrence of a one-byte needle. *)
Lemma find_char c h i :
  find [c] h = Some i <-> exists a b, h = a ++ c :: b /\ length a = i /\ c ∉ a.
Proof.
  revert i. induction h as [|x h IH]; intros i; rewrite find_unfold; cbn [is_prefix].
  - split; [done|]. by intros ([|??] & ? & ? & _).
  - rewrite andb_true_r. case_bool_decide as E.
    + subst x. split.
      * intros [= <-]. exists [], h. split_and!; [done..|]. apply not_elem_of_nil.
      * intros ([|y a] & b & Hh & <- & Hn); [done|]. simplify_eq/=. set_solver.
    + rewrite fmap_Some. setoid_rewrite IH. split.
      * intros (i' & (a & b & -> & <- & Hn) & ->). exists (x :: a), b.
        split_and!; [done..|]. set_solver.
      * intros ([|y a] & b & Hh & <- & Hn); simplify_eq/=.
        exists (length a). split; [|done]. exists a, b. set_solver.
Qed.

Lemma find_char_None c h : find [c] h = None <-> c ∉ h.
Proof.
  induction h as [|x h IH]; rewrite find_unfold; cbn [is_prefix].
  - split; [intros _; apply not_elem_of_nil|done].
  - rewrite andb_true_r. case_bool_decide as E.
    + subst. split; [done|]. set_solver.
    + rewrite fmap_None, IH. set_solver.
Qed.

(** ** Tokens *)

Lemma split_on_find c l :
  split_on c l = match find [c] l with
                 | None => [l]
                 | Some i => take i l :: split_on c (drop (i + 1) l)
                 end.
Proof.
  induction l as [|x l IH]; [done|]. rewrite find_unfold. cbn [is_prefix split_on].
  rewrite andb_true_r. case_bool_decide; [done|]. rewrite IH. destruct (find [c] l); done.
Qed.

Lemma ContainsToken_loop_spec fuel value expected :
  (length value < fuel)%nat -> Lower expected <> [] ->
  exists b, ContainsToken_loop fuel value expected = Some b /\
    (b = true <-> has_token value (Lower expected)).
Proof.
  intros Hf He. revert value Hf.
  induction fuel as [|fuel IH]; intros value Hf; [lia|]. cbn [ContainsToken_loop].
  destruct value as [|x v] eqn:Ev.
  { eexists. split; [done|]. split; [done|].
    intros (t & ->%list_elem_of_singleton & H). simpl in H. congruence. }
  rewrite <-Ev in *. unfold has_token. rewrite split_on_find.
  destruct (find [comma] value) as [i|] eqn:F; case_bool_decide as E.
  - eexists. split; [done|]. split; [|done]. intros _. exists (take i value). set_solver.
  - apply find_char in F as (a & b & Eb & <- & _).
    destruct (IH (drop (length a + 1) value)) as (r & Er & Hr).
    { rewrite length_drop. destruct value; simpl in *; [done|lia]. }
    exists r. split; [done|]. rewrite Hr. unfold has_token. set_solver.
  - eexists. split; [done|]. split; [|done]. intros _. exists value. set_solver.
  - eexists. split; [done|]. split; [done|]. set_solver.
Qed.

Lemma ContainsToken_spec value expected :
  Lower expected <> [] ->
  ContainsToken value expected = true <-> has_token value (Lower expected).
Proof.
  intros He. unfold ContainsToken.
  destruct (ContainsToken_loop_spec (S (length value)) value expected) as (b & -> & H);
    [lia|done|]. done.
Qed.

(** ** Lines *)

Lemma split_crlf_nonempty l : split_crlf l <> [].
Proof.
  destruct l as [|a [|b l]]; simpl; [done..|]. split_if; [done|].
  destruct (match l with [] => _ | _ => _ end); done.
Qed.

Lemma split_crlf_step a l :
  is_prefix crlf (a :: l) = false ->
  split_crlf (a :: l) = match split_crlf l with [] => [[a]] | x :: xs => (a :: x) :: xs end.
Proof.
  intros H. destruct l as [|b l]; [done|]. unfold crlf in H. cbn [is_prefix] in H.
  rewrite andb_true_r in H. cbn [split_crlf].
  rewrite (bool_decide_ext (a = z2b 13) (z2b 13 = a)) by (split; congruence).
  rewrite (bool_decide_ext (b = z2b 10) (z2b 10 = b)) by (split; congruence). rewrite H. done.
Qed.

Lemma split_crlf_cut l : split_crlf (crlf ++ l) = [] :: split_crlf l.
Proof. done. Qed.

Lemma split_crlf_find l :
  split_crlf l = match find crlf l with
                 | None => [l]
                 | Some i => take i l :: split_crlf (drop (i + 2) l)
                 end.
Proof.
  induction l as [|a l IH]; [done|]. rewrite find_unfold.
  destruct (is_prefix crlf (a :: l)) eqn:E.
  - apply is_prefix_spec in E as [k E]. rewrite E. done.
  - rewrite split_crlf_step, IH by done. destruct (find crlf l); done.
Qed.

(** CR LF never straddles the end of a text that CR LF follows. *)
Lemma find_crlf_app l k :
  find crlf (l ++ crlf ++ k) =
    match find crlf l with None => Some (length l) | Some i => Some i end.
Proof.
  induction l as [|a l IH].
  - done.
  - change ((a :: l) ++ crlf ++ k) with (a :: (l ++ crlf ++ k)).
    rewrite (find_unfold _ (a :: l)), (find_unfold _ (a :: (l ++ _))), IH.
    assert (E : is_prefix crlf (a :: l ++ crlf ++ k) = is_prefix crlf (a :: l)).
    { destruct l as [|b l]; [|done]. unfold crlf. cbn [is_prefix app].
      rewrite andb_false_r. cbn. rewrite andb_false_r. done. }
    rewrite E. destruct (is_prefix crlf (a :: l)); [done|]. destruct (find crlf l); done.
Qed.

Lemma find_crlf_bounds l i :
  find crlf l = Some i -> (i + 2 <= length l)%nat /\ l = take i l ++ crlf ++ drop (i + 2) l.
Proof.
  intros (H1 & H2 & _)%find_Some. apply is_prefix_spec in H1 as [k H1].
  assert (L : length (drop i l) = (2 + length k)%nat) by (rewrite H1; done).
  rewrite length_drop in L. split; [lia|].
  rewrite <-(take_drop i l) at 1. f_equal. rewrite <-drop_drop, H1. done.
Qed.

(** ** The header loop on lines *)

Fixpoint loop_lines (lines : list (list byte)) (headers : gmap (list byte) (list byte))
  : string + gmap (list byte) (list byte) :=
  match lines with
  | [] => inr headers
  | line :: lines =>
      match parse_field line with
      | None => inl "malformed HTTP header"%string
      | Some (name, value) =>
          match headers !! name with
          | Some _ => inl "duplicate HTTP header"%string
          | None => loop_lines lines (<[name := value]> headers)
          end
      end
  end.

Section head.
Context (bytes head rest : list byte) (Hh : head_of bytes head rest).

Lemma head_drop p :
  (p <= length head)%nat -> drop p bytes = drop p head ++ crlf ++ crlf ++ rest.
Proof. intros. rewrite (head_split _ _ _ Hh). by rewrite drop_app_le. Qed.

(** The head does not end with CR LF: the empty line would be earlier. *)
Lemma head_no_trailing i l :
  (i + 2 <= length head)%nat -> drop i head = crlf ++ l -> l <> [].
Proof.
  intros Hi E ->. pose proof (head_first _ _ _ Hh i ltac:(lia)) as F.
  rewrite head_drop, E in F by lia. done.
Qed.

Lemma header_loop_lines fuel p headers :
  (p < length head)%nat -> (length head - p < fuel)%nat ->
  header_loop fuel bytes (length head) p headers =
    Some (loop_lines (split_crlf (drop p head)) headers).
Proof.
  revert p headers. induction fuel as [|fuel IH]; intros p headers Hp Hf; [lia|].
  cbn [header_loop]. destruct (Nat.ltb_spec p (length head)); [|lia].
  unfold find_from. rewrite (head_drop p) by lia. rewrite find_crlf_app.
  rewrite split_crlf_find. unfold substr. rewrite (head_drop p) by lia.
  set (l := drop p head).
  assert (Ll : length l = (length head - p)%nat) by apply length_drop.
  destruct (find crlf l) as [i|] eqn:F; cbn [fmap option_fmap option_map default from_option id loop_lines].
  - destruct (find_crlf_bounds _ _ F) as [Hi El].
    replace (p + i - p)%nat with i by lia. rewrite take_app_le by lia.
    unfold parse_field. destruct (find [colon] (take i l)) as [c|]; [|done]. simpl.
    destruct (headers !! _); [done|].
    assert (Hne : drop (i + 2) l <> []).
    { apply (head_no_trailing (p + i)); [lia|]. rewrite <-drop_drop. fold l.
      rewrite El at 1. rewrite drop_app_length'; [done|]. rewrite length_take. lia. }
    assert (i + 2 < length l)%nat.
    { destruct (decide (i + 2 < length l)%nat); [done|]. destruct Hne. apply drop_ge. lia. }
    rewrite IH by lia. unfold l. rewrite drop_drop. do 3 f_equal. f_equal. lia.
  - replace (p + length l - p)%nat with (length l) by lia. rewrite take_app_length.
    unfold parse_field. destruct (find [colon] l) as [c|]; [|done]. simpl.
    destruct (headers !! _); [done|].
    destruct fuel as [|fuel]; [lia|]. cbn [header_loop].
    destruct (Nat.ltb_spec (p + length l + 2) (length head)); [lia|done].
Qed.
End head.

Lemma loop_lines_inr lines headers headers' :
  loop_lines lines headers = inr headers' <->
  exists fs, mapM parse_field lines = Some fs /\ NoDup (fs.*1) /\
    (forall n, n ∈ fs.*1 -> headers !! n = None) /\ headers' = list_to_map fs ∪ headers.
Proof.
  revert headers. induction lines as [|line lines IH]; intros headers; cbn [loop_lines mapM].
  - split.
    + intros [= <-]. exists []. split_and!; [done|constructor|set_solver|].
      simpl. by rewrite (left_id_L ∅ (∪)).
    + intros (fs & [= <-] & _ & _ & ->). simpl. by rewrite (left_id_L ∅ (∪)).
  - destruct (parse_field line) as [[n v]|]; cbn [mbind option_bind].
    2: { split; [done|]. by intros (? & ? & _). }
    destruct (headers !! n) eqn:E.
    + split; [done|]. intros (fs & H & _ & H2 & _).
      apply bind_Some in H as (fs' & H & [= <-]). rewrite H2 in E; [done|]. set_solver.
    + rewrite IH. split.
      * intros (fs & M & N & A & ->). exists ((n, v) :: fs). rewrite M.
        assert (Hn : n ∉ fs.*1).
        { intros Hin. specialize (A n Hin). rewrite lookup_insert_eq in A. done. }
        split_and!; [done|by constructor| |].
        { intros n' [->|Hin]%elem_of_cons; [done|]. specialize (A n' Hin).
          by apply lookup_insert_None in A as [A _]. }
        { simpl. rewrite <-insert_union_l, insert_union_r; [done|].
          by apply not_elem_of_list_to_map_1. }
      * intros (fs & H & N & A & ->). apply bind_Some in H as (fs' & M & [= <-]).
        apply NoDup_cons in N as [Hn N]. exists fs'. split_and!; [done..| |].
        { intros n' Hin. rewrite lookup_insert_ne; [apply A; set_solver|].
          intros ->. done. }
        { simpl. rewrite <-insert_union_l, insert_union_r; [done|].
          by apply not_elem_of_list_to_map_1. }
Qed.

Lemma drop_after {A} (a b : list A) x : drop (length a + 1) (a ++ x :: b) = b.
Proof. rewrite cons_middle, app_assoc. apply drop_app_length'. rewrite length_app. done. Qed.

Lemma request_line_ok_spec line :
  request_line_ok line = true <->
  exists target, line = bstr "GET " ++ target ++ bstr " HTTP/1.1" /\ space ∉ target.
Proof.
  unfold request_line_ok, find_from. split.
  - destruct (find [space] line) as [i|] eqn:F; [|done].
    apply find_char in F as (a & b & -> & <- & Ha). rewrite take_app_length, drop_after.
    destruct (find [space] b) as [j|] eqn:F2; [|done].
    apply find_char in F2 as (c & d & -> & <- & Hc). cbn [fmap option_fmap option_map].
    rewrite andb_true_iff, !bool_decide_eq_true. intros [-> E]. exists c. split; [|done].
    rewrite <-Nat.add_assoc, <-drop_drop, drop_after, drop_after in E. rewrite E. done.
  - intros (t & -> & Ht).
    change (find [space] (bstr "GET " ++ t ++ bstr " HTTP/1.1")) with (Some 3%nat).
    cbv iota beta.
    change (drop (3 + 1) (bstr "GET " ++ t ++ bstr " HTTP/1.1")) with (t ++ bstr " HTTP/1.1").
    assert (F : find [space] (t ++ bstr " HTTP/1.1") = Some (length t))
      by (apply find_char; eexists _, _; done).
    rewrite F. cbn [fmap option_fmap option_map].
    apply andb_true_iff. split; [done|]. rewrite bool_decide_eq_true.
    rewrite <-Nat.add_assoc, <-drop_drop.
    change (drop (3 + 1) (bstr "GET " ++ t ++ bstr " HTTP/1.1"))
      with (t ++ space :: bstr "HTTP/1.1"). apply drop_after.
Qed.

(** The mandatory headers of distinct fields. *)
Lemma upgrade_key_spec fs key :
  NoDup (fs.*1) ->
  upgrade_key (list_to_map fs) = Some key <->
  exists upgrade connection,
    (bstr "upgrade", upgrade) ∈ fs /\ Lower upgrade = bstr "websocket" /\
    (bstr "connection", connection) ∈ fs /\ has_token connection (bstr "upgrade") /\
    (bstr "sec-websocket-key", key) ∈ fs /\ IsValidWebSocketKey key = true /\
    (bstr "sec-websocket-version", bstr "13") ∈ fs.
Proof.
  intros N. unfold upgrade_key.
  pose proof (fun n v => elem_of_list_to_map (M := gmap (list byte)) fs n v N) as L.
  split.
  - destruct (_ !! bstr "upgrade") as [u|] eqn:U; [|done].
    destruct (_ !! bstr "connection") as [c|] eqn:C; [|done].
    destruct (_ !! bstr "sec-websocket-key") as [k|] eqn:K; [|done].
    destruct (_ !! bstr "sec-websocket-version") as [v|] eqn:V; [|done].
    split_if; [|done]. intros [= ->]. destruct Hif as [[[H1 H2] H3] ->].
    apply ContainsToken_spec in H2; [|done].
    apply L in U, C, K, V. eauto 10.
  - intros (u & c & U & HU & C & HC & K & HK & V). apply L in U, C, K, V.
    apply (ContainsToken_spec c (bstr "upgrade")) in HC; [|done].
    rewrite U, C, K, V, HC, HK, !bool_decide_eq_true_2 by done. done.
Qed.

Lemma head_of_find bytes i :
  find (crlf ++ crlf) bytes = Some i <->
  exists head rest, head_of bytes head rest /\ length head = i.
Proof.
  rewrite find_Some. split.
  - intros (H1 & H2 & H3). apply is_prefix_spec in H1 as [k H1].
    exists (take i bytes), k. assert (L : length (take i bytes) = i) by (rewrite length_take; lia).
    split; [|done]. constructor; [|by rewrite L].
    rewrite <-(take_drop i bytes) at 1. rewrite H1, <-app_assoc. done.
  - intros (head & rest & [E F] & <-). split_and!; [|rewrite E, length_app; lia|done].
    rewrite E, drop_app_length. done.
Qed.

(** The outcome behind the head, as a function of its lines. *)
Definition judge_head (head : list byte) (origin_validator : option (list byte -> bool))
  : option HandshakeResult :=
  let consumed := size_of head + 4 in
  match split_crlf head with
  | [] => None
  | line :: lines =>
      if negb (request_line_ok line)
      then Some (reject consumed [] "WebSocket upgrade requires GET over HTTP/1.1"%string response_400)
      else
      match loop_lines lines ∅ with
      | inl error => Some (reject consumed [] error response_400)
      | inr headers =>
          match upgrade_key headers with
          | None => Some (reject consumed []
              "required WebSocket upgrade headers are missing or invalid"%string
              response_400_version)
          | Some key =>
              let origin := default [] (headers !! bstr "origin") in
              if match origin_validator with Some v => negb (v origin) | None => false end
              then Some (reject consumed origin "WebSocket Origin is not allowed"%string response_403)
              else
              accept ← ComputeAcceptKey key;
              Some (mkResult Accepted consumed (response_101 accept) origin ""%string)
          end
      end
  end.

Lemma ParseHandshake_head bytes max v head rest :
  head_of bytes head rest -> size_of bytes <= max ->
  ParseHandshake bytes max v = judge_head head v.
Proof.
  intros Hh Hm. unfold ParseHandshake, judge_head. split_if; [lia|].
  assert (F : find (crlf ++ crlf) bytes = Some (length head))
    by (apply head_of_find; eauto). rewrite F.
  assert (FC : find crlf bytes = match find crlf head with None => Some (length head) | Some i => Some i end).
  { rewrite (head_split _ _ _ Hh). apply find_crlf_app. }
  rewrite FC, split_crlf_find. fold (size_of head).
  destruct (find crlf head) as [i|] eqn:FH.
  - destruct (find_crlf_bounds _ _ FH) as [Hi EH].
    assert (ET : take i bytes = take i head).
    { rewrite (head_split _ _ _ Hh). apply take_app_le. lia. }
    rewrite ET. split_if; [done|].
    assert (Hne : drop (i + 2) head <> []).
    { apply (head_no_trailing _ _ _ Hh i); [lia|].
      rewrite EH at 1. rewrite drop_app_length'; [done|]. rewrite length_take. lia. }
    assert (i + 2 < length head)%nat.
    { destruct (decide (i + 2 < length head)%nat); [done|]. destruct Hne. apply drop_ge. lia. }
    rewrite (header_loop_lines _ _ _ Hh) by lia. cbn [mbind option_bind]. done.
  - assert (ET : take (length head) bytes = head).
    { rewrite (head_split _ _ _ Hh). apply take_app_length. }
    rewrite ET. split_if; [done|]. cbn [header_loop].
    destruct (Nat.ltb_spec (length head + 2) (length head)); [lia|]. done.
Qed.

Lemma map_origin fs org :
  NoDup (fs.*1) ->
  default [] ((list_to_map fs : gmap (list byte) (list byte)) !! bstr "origin") = org <->
  ((bstr "origin", org) ∈ fs \/ (bstr "origin" ∉ fs.*1) /\ org = []).
Proof.
  intros N. destruct (_ !! bstr "origin") as [o|] eqn:E.
  - apply (elem_of_list_to_map fs _ _ N) in E as Hin. simpl. split; [intros <-; auto|].
    intros [H|[H _]].
    + apply (elem_of_list_to_map (M := gmap (list byte)) fs _ _ N) in H. congruence.
    + destruct H. apply list_elem_of_fmap. by exists (bstr "origin", o).
  - apply not_elem_of_list_to_map in E. simpl. split; [intros <-; auto|].
    intros [H|[_ ->]]; [|done]. destruct E. apply list_elem_of_fmap. by exists (bstr "origin", org).
Qed.

Lemma request_ok_iff head key org :
  request_ok head key org <->
  exists line lines headers, split_crlf head = line :: lines /\ request_line_ok line = true /\
    loop_lines lines ∅ = inr headers /\ upgrade_key headers = Some key /\
    default [] (headers !! bstr "origin") = org.
Proof.
  split.
  - intros [(t & lines & fs & u & c & S & T & M & N & U & HU & C & HC & K & HK & V & O)].
    eexists _, lines, (list_to_map fs). split; [exact S|].
    split; [apply request_line_ok_spec; eauto|]. split.
    { apply loop_lines_inr. exists fs. split_and!; [done..|].
      symmetry. apply (right_id_L ∅ (∪)). }
    split; [apply upgrade_key_spec; eauto 10|]. by apply map_origin.
  - intros (line & lines & headers & S & (t & -> & T)%request_line_ok_spec &
            (fs & M & N & _ & ->)%loop_lines_inr & U & O).
    rewrite (right_id_L ∅ (∪)) in U, O.
    apply (upgrade_key_spec fs key N) in U as (u & c & U & HU & C & HC & K & HK & V).
    apply (map_origin fs org N) in O.
    constructor. exists t, lines, fs, u, c. done.
Qed.

Lemma request_ok_unique head key org key' org' :
  request_ok head key org -> request_ok head key' org' -> key = key' /\ org = org'.
Proof.
  rewrite !request_ok_iff.
  intros (l & ls & hs & S & _ & L & U & O) (l' & ls' & hs' & S' & _ & L' & U' & O').
  rewrite S in S'. simplify_eq. rewrite L in L'. simplify_eq. done.
Qed.

Lemma request_ok_key head key org : request_ok head key org -> size_of key = 24.
Proof.
  intros [(t & lines & fs & u & c & _ & _ & _ & _ & _ & _ & _ & _ & _ & HK & _)].
  apply key_shape in HK as (ds & S & _ & ->). rewrite size_app, S. done.
Qed.

Definition validator_ok (v : option (list byte -> bool)) (org : list byte) : Prop :=
  match v with Some f => f org = true | None => True end.

Definition accept_value (key : list byte) : list byte :=
  Base64Encode (fips_sha1 (key ++ Guid)).

Lemma ComputeAcceptKey_valid key :
  size_of key = 24 -> ComputeAcceptKey key = Some (accept_value key).
Proof.
  intros H. unfold ComputeAcceptKey. rewrite Sha1_fips; [done|].
  rewrite size_app, H. reflexivity.
Qed.

(** The result for a complete head: by cases on the specification. *)
Inductive judged (head : list byte) (v : option (list byte -> bool)) : HandshakeResult -> Prop :=
| judged_accept key org :
    request_ok head key org -> validator_ok v org ->
    judged head v (mkResult Accepted (size_of head + 4) (response_101 (accept_value key)) org ""%string)
| judged_origin key org e :
    request_ok head key org -> ~ validator_ok v org ->
    judged head v (reject (size_of head + 4) org e response_403)
| judged_bad resp e :
    (forall key org, ~ request_ok head key org) ->
    (resp = response_400 \/ resp = response_400_version) ->
    judged head v (reject (size_of head + 4) [] e resp).

Lemma judge_head_spec head v : exists r, judge_head head v = Some r /\ judged head v r.
Proof.
  unfold judge_head. destruct (split_crlf head) as [|line lines] eqn:S;
    [by destruct (split_crlf_nonempty head)|].
  assert (Hbad : (forall headers key, request_line_ok line = true ->
    loop_lines lines ∅ = inr headers -> upgrade_key headers = Some key -> False) ->
    forall key org, ~ request_ok head key org).
  { intros H key org (l & ls & hs & S' & R & L & U & _)%request_ok_iff.
    rewrite S in S'. simplify_eq. by eapply H. }
  split_if; [eexists; split; [done|]; apply judged_bad; [|auto]; apply Hbad; congruence|].
  destruct (loop_lines lines ∅) as [e|hs] eqn:L.
  { eexists. split; [done|]. apply judged_bad; [|auto]. apply Hbad. done. }
  destruct (upgrade_key hs) as [key|] eqn:U.
  2: { eexists. split; [done|]. apply judged_bad; [|auto]. apply Hbad. congruence. }
  assert (R : request_ok head key (default [] (hs !! bstr "origin")))
    by (apply request_ok_iff; eauto 10).
  set (org := default [] (hs !! bstr "origin")) in *. cbv zeta.
  destruct (match v with Some f => negb (f org) | None => false end) eqn:V.
  - eexists. split; [done|]. eapply judged_origin; [done|]. unfold validator_ok.
    destruct v as [f|]; [|done]. destruct (f org); done.
  - rewrite ComputeAcceptKey_valid by (by eapply request_ok_key). cbn [mbind option_bind].
    eexists. split; [done|]. apply judged_accept; [done|]. unfold validator_ok.
    destruct v as [f|]; [|done]. destruct (f org); done.
Qed.

Lemma find_no_head bytes :
  find (crlf ++ crlf) bytes = None <-> ~ exists head rest, head_of bytes head rest.
Proof.
  destruct (find (crlf ++ crlf) bytes) as [i|] eqn:E; split; try done.
  - apply head_of_find in E as (head & rest & H & _). intros []. eauto.
  - intros _ (head & rest & H). assert (find (crlf ++ crlf) bytes = Some (length head))
      by (apply head_of_find; eauto). congruence.
Qed.

Lemma head_of_unique bytes head rest head' rest' :
  head_of bytes head rest -> head_of bytes head' rest' -> head = head' /\ rest = rest'.
Proof.
  intros H H'. assert (E : length head = length head').
  { assert (F : find (crlf ++ crlf) bytes = Some (length head)) by (apply head_of_find; eauto).
    assert (F' : find (crlf ++ crlf) bytes = Some (length head')) by (apply head_of_find; eauto).
    congruence. }
  destruct H as [H _], H' as [H' _]. rewrite H in H'. apply app_inj_1 in H' as [-> H']; [|done].
  simplify_eq. done.
Qed.

Lemma ParseHandshake_cases bytes max v :
  exists r, ParseHandshake bytes max v = Some r /\
  ( (max < size_of bytes /\ status r = Rejected /\ consumed r = 0 /\ response r = response_431) \/
    (size_of bytes <= max /\ (~ exists head rest, head_of bytes head rest) /\
       status r = NeedMoreData /\ consumed r = 0) \/
    (size_of bytes <= max /\ exists head rest, head_of bytes head rest /\ judged head v r)).
Proof.
  destruct (Z.lt_ge_cases max (size_of bytes)) as [Hm|Hm].
  { unfold ParseHandshake. split_if; [|lia]. eexists. split; [done|]. left. done. }
  destruct (find (crlf ++ crlf) bytes) as [i|] eqn:F.
  - apply head_of_find in F as (head & rest & H & _).
    rewrite (ParseHandshake_head _ _ _ _ _ H Hm).
    destruct (judge_head_spec head v) as (r & E & J). rewrite E. eauto 10.
  - unfold ParseHandshake. split_if; [lia|]. rewrite F. eexists. split; [done|].
    right. left. rewrite <-find_no_head. done.
Qed.

(** C21. The handshake accepts exactly the valid upgrade requests: the parser
    always returns; it waits exactly while there is no empty line within the
    limit, and it accepts exactly when the head is [GET <target> HTTP/1.1]
    with pairwise distinct, well-formed headers, among them [Upgrade:
    websocket], [Connection] with the token [upgrade], a valid key and version
    13, and the origin is allowed.  The response then carries the accept key
    of the client's key, and exactly the head is consumed. *)
Theorem handshake_exact bytes max v :
  exists r, ParseHandshake bytes max v = Some r /\
  (status r = NeedMoreData <->
     size_of bytes <= max /\ ~ exists head rest, head_of bytes head rest) /\
  (status r = Accepted <->
     size_of bytes <= max /\ exists head rest key org, head_of bytes head rest /\
       request_ok head key org /\ validator_ok v org) /\
  (forall head rest key org, status r = Accepted ->
     head_of bytes head rest -> request_ok head key org ->
     consumed r = size_of head + 4 /\ origin r = org /\
     response r = response_101 (accept_value key)).
Proof.
  destruct (ParseHandshake_cases bytes max v) as (r & E & C). exists r. split; [done|].
  destruct C as [(Hm & S & _)|[(Hm & Hn & S & _)|(Hm & head & rest & H & J)]].
  - rewrite S. split_and!; try done; (split; [done|lia]).
  - rewrite S. split_and!; try done. split; [done|]. naive_solver.
  - destruct J as [key org R V|key org e R V|resp e R _]; simpl.
    + split_and!; [split; [done|naive_solver]|split; eauto 10|].
      intros h rs k o _ H' R'. destruct (head_of_unique _ _ _ _ _ H H') as [<- <-].
      destruct (request_ok_unique _ _ _ _ _ R R') as [<- <-]. done.
    + split_and!; try done; (split; [done|]); [naive_solver|].
      intros (_ & h & rs & k & o & H' & R' & V').
      destruct (head_of_unique _ _ _ _ _ H H') as [<- <-].
      destruct (request_ok_unique _ _ _ _ _ R R') as [<- <-]. done.
    + split_and!; try done; (split; [done|]); [naive_solver|].
      intros (_ & h & rs & k & o & H' & R' & V').
      destruct (head_of_unique _ _ _ _ _ H H') as [<- <-]. by destruct (R k o).
Qed.

(** Rejections and bounds: the parser never consumes more than it was given;
    too many bytes give 431 and consume nothing, a head that is not an upgrade
    request gives 400, one whose origin the validator refuses gives 403 and
    reports that origin, each consuming exactly the head. *)
Theorem handshake_rejections bytes max v :
  exists r, ParseHandshake bytes max v = Some r /\ 0 <= consumed r <= size_of bytes /\
  (max < size_of bytes ->
     status r = Rejected /\ response r = response_431 /\ consumed r = 0) /\
  (forall head rest, size_of bytes <= max -> head_of bytes head rest ->
     consumed r = size_of head + 4 /\
     ((forall key org, ~ request_ok head key org) ->
        status r = Rejected /\ (response r = response_400 \/ response r = response_400_version)) /\
     (forall key org, request_ok head key org -> ~ validator_ok v org ->
        status r = Rejected /\ response r = response_403 /\ origin r = org)).
Proof.
  destruct (ParseHandshake_cases bytes max v) as (r & E & C). exists r. split; [done|].
  pose proof (size_nonneg bytes) as Hnb.
  destruct C as [(Hm & S & C0 & R)|[(Hm & Hn & S & C0)|(Hm & head & rest & H & J)]].
  - rewrite C0. split_and!; try done; lia.
  - rewrite C0. split_and!; try lia. intros head rest _ H'. destruct Hn. eauto.
  - assert (Hb : size_of bytes = size_of head + 4 + size_of rest).
    { rewrite (head_split _ _ _ H), !size_app.
      change (size_of crlf) with 2. lia. }
    pose proof (size_nonneg head). pose proof (size_nonneg rest).
    assert (CJ : consumed r = size_of head + 4) by (by destruct J).
    rewrite CJ. split_and!; try lia.
    intros h rs _ H'. destruct (head_of_unique _ _ _ _ _ H H') as [<- <-].
    split; [done|]. destruct J as [key org R V|key org e R V|resp e R HR]; simpl.
    + split; [intros Hno; by destruct (Hno key org)|].
      intros k o R' V'. destruct (request_ok_unique _ _ _ _ _ R R') as [<- <-]. done.
    + split; [intros Hno; by destruct (Hno key org)|].
      intros k o R' V'. destruct (request_ok_unique _ _ _ _ _ R R') as [<- <-]. done.
    + split; [done|]. intros k o R'. by destruct (R k o).
Qed.

(** ** The request of a client *)

Definition cr : byte := z2b 13.

Fixpoint join (lines : list (list byte)) : list byte :=
  match lines with
  | [] => []
  | [l] => l
  | l :: lines => l ++ crlf ++ join lines
  end.

Definition plain_line (l : list byte) : Prop := l <> [] /\ cr ∉ l.

(** A needle that starts with CR is not found in a text without it. *)
Lemma find_skip n a l :
  cr ∉ a -> find (cr :: n) (a ++ l) = Nat.add (length a) <$> find (cr :: n) l.
Proof.
  intros Ha. induction a as [|x a IH].
  - simpl. destruct (find _ _); done.
  - change ((x :: a) ++ l) with (x :: (a ++ l)). rewrite find_unfold.
    assert (x <> cr /\ cr ∉ a) as [Hx Ha'] by set_solver.
    cbn [is_prefix]. rewrite bool_decide_eq_false_2 by congruence. cbn [andb].
    rewrite IH by done. destruct (find (cr :: n) l); done.
Qed.

Lemma find_skip_crlf l :
  (forall l', l <> cr :: l') ->
  find (crlf ++ crlf) (crlf ++ l) = Nat.add 2 <$> find (crlf ++ crlf) l.
Proof.
  intros Hl. rewrite find_unfold.
  assert (E : is_prefix (crlf ++ crlf) (crlf ++ l) = false).
  { destruct l as [|x l]; [done|]. cbn [is_prefix crlf app].
    rewrite (bool_decide_eq_false_2 (z2b 13 = x)) by (intros <-; by destruct (Hl l)).
    rewrite andb_false_l, !andb_false_r. done. }
  rewrite E. cbn [app crlf]. rewrite find_unfold. cbn [is_prefix crlf app].
  rewrite bool_decide_eq_false_2 by done. cbn [andb].
  fold crlf. change [z2b 13; z2b 10; z2b 13; z2b 10] with (crlf ++ crlf).
  destruct (find _ l); done.
Qed.

Lemma split_crlf_plain l : cr ∉ l -> split_crlf l = [l].
Proof.
  intros H. rewrite split_crlf_find. pose proof (find_skip [z2b 10] l [] H) as F.
  rewrite app_nil_r in F. unfold crlf. fold cr. rewrite F. done.
Qed.

Lemma split_crlf_line l k : cr ∉ l -> split_crlf (l ++ crlf ++ k) = l :: split_crlf k.
Proof.
  intros H. rewrite split_crlf_find.
  assert (F : find crlf (l ++ crlf ++ k) = Some (length l)).
  { unfold crlf at 1. fold cr. rewrite find_skip by done. simpl. f_equal. lia. }
  rewrite F, take_app_length. f_equal. rewrite app_assoc. f_equal.
  rewrite drop_app_length'; [done|]. rewrite length_app. done.
Qed.

Lemma split_crlf_join lines :
  lines <> [] -> Forall plain_line lines -> split_crlf (join lines) = lines.
Proof.
  intros Hne F. induction F as [|l [|l2 lines] [H1 H2] F IH]; [done|by apply split_crlf_plain|].
  change (join (l :: l2 :: lines)) with (l ++ crlf ++ join (l2 :: lines)).
  rewrite split_crlf_line by done. by rewrite IH.
Qed.

Lemma find_join lines rest :
  lines <> [] -> Forall plain_line lines ->
  find (crlf ++ crlf) (join lines ++ crlf ++ crlf ++ rest) = Some (length (join lines)).
Proof.
  intros Hne F. induction F as [|l [|l2 lines] [H1 H2] F IH]; [done| |].
  - simpl. unfold crlf at 1. cbn [app]. fold cr. rewrite find_skip by done. simpl. f_equal. lia.
  - change (join (l :: l2 :: lines)) with (l ++ crlf ++ join (l2 :: lines)).
    rewrite <-!app_assoc. unfold crlf at 1. cbn [app]. fold cr. rewrite find_skip by done.
    change (cr :: z2b 10 :: crlf) with (crlf ++ crlf). rewrite find_skip_crlf.
    + rewrite IH by done. simpl. f_equal. rewrite !length_app. simpl. lia.
    + intros l' E. apply Forall_cons in F as [[Hl2 Hc2] _].
      destruct l2 as [|x l2]; [done|]. destruct lines; simpl in E; simplify_eq; set_solver.
Qed.

Lemma join_lines lines rest :
  lines <> [] ->
  concat (map (fun l => l ++ crlf) lines) ++ crlf ++ rest = join lines ++ crlf ++ crlf ++ rest.
Proof.
  intros Hne. induction lines as [|l [|l2 lines] IH]; [done| |].
  - simpl. rewrite <-!app_assoc. done.
  - cbn [map concat]. rewrite <-!app_assoc. cbn [map concat] in IH.
    rewrite <-!app_assoc in IH. rewrite IH by done.
    change (join (l :: l2 :: lines)) with (l ++ crlf ++ join (l2 :: lines)).
    rewrite <-!app_assoc. done.
Qed.

Lemma head_of_lines lines rest :
  lines <> [] -> Forall plain_line lines ->
  head_of (concat (map (fun l => l ++ crlf) lines) ++ crlf ++ rest) (join lines) rest.
Proof.
  intros Hne F. rewrite join_lines by done. constructor; [done|]. intros i Hi.
  pose proof (find_join lines rest Hne F) as E. apply find_Some in E as (_ & _ & E). auto.
Qed.

(** ** Trimming *)

Lemma trim_front_plain l : Forall (fun c => blank c = false) l -> trim_front l = l.
Proof. intros F. destruct F as [|c l H F]; simpl; [done|]. by rewrite H. Qed.

Lemma Trim_plain l : Forall (fun c => blank c = false) l -> Trim (space :: l) = l.
Proof.
  intros F. unfold Trim. change (trim_front (space :: l)) with (trim_front l).
  rewrite trim_front_plain by done. unfold trim_back.
  rewrite trim_front_plain by (by apply Forall_reverse). apply reverse_involutive.
Qed.

Lemma key_char c : base64_digit c = true \/ c = z2b 61 -> blank c = false /\ c <> cr.
Proof. intros [H| ->]; [|done]. destruct c; done. Qed.

Lemma encoded_key_chars nonce :
  size_of nonce = 16 ->
  Forall (fun c => blank c = false /\ c <> cr) (Base64Encode nonce).
Proof.
  intros Hn. destruct (proj1 (key_shape (Base64Encode nonce))) as (ds & _ & F & ->).
  { by apply key_valid_nonce. }
  apply Forall_app. split.
  - eapply Forall_impl; [exact F|]. intros c Hc. apply key_char. auto.
  - repeat constructor; done.
Qed.

(** The request a client sends for [target] at [host] with a 16-byte nonce. *)
Definition client_lines (target host nonce : list byte) : list (list byte) :=
  [ bstr "GET " ++ target ++ bstr " HTTP/1.1";
    bstr "Host: " ++ host;
    bstr "Upgrade: websocket";
    bstr "Connection: keep-alive, Upgrade";
    bstr "Sec-WebSocket-Key: " ++ Base64Encode nonce;
    bstr "Sec-WebSocket-Version: 13" ].

Definition client_request (target host nonce : list byte) : list byte :=
  concat (map (fun l => l ++ crlf) (client_lines target host nonce)) ++ crlf.

Lemma plain_text (s : string) : bool_decide (cr ∉ bstr s) = true -> cr ∉ bstr s.
Proof. apply bool_decide_eq_true. Qed.

Lemma client_lines_plain target host nonce :
  cr ∉ target -> cr ∉ host -> size_of nonce = 16 ->
  Forall plain_line (client_lines target host nonce).
Proof.
  intros Ht Hh Hn. pose proof (encoded_key_chars nonce Hn) as K.
  assert (cr ∉ Base64Encode nonce).
  { intros Hin. rewrite Forall_forall in K. by destruct (K _ Hin). }
  assert (P : forall (s : string) l, bool_decide (cr ∉ bstr s) = true -> cr ∉ l ->
    cr ∉ bstr s ++ l) by (intros s l Hs%plain_text Hl; set_solver).
  assert (Q : forall s : string, bool_decide (bstr s <> []) && bool_decide (cr ∉ bstr s) = true ->
    forall l, cr ∉ l -> plain_line (bstr s ++ l)).
  { intros s [Hs1 Hs2]%andb_true_iff l Hl. rewrite bool_decide_eq_true in Hs1. split.
    - destruct (bstr s); done.
    - by apply P. }
  assert (N : cr ∉ @nil byte) by apply not_elem_of_nil.
  repeat apply Forall_cons_2; [..|apply Forall_nil_2].
  - apply (Q "GET "%string); [reflexivity|]. rewrite not_elem_of_app. split; [done|].
    by apply plain_text.
  - by apply (Q "Host: "%string).
  - rewrite <-(app_nil_r (bstr _)). by apply (Q "Upgrade: websocket"%string).
  - rewrite <-(app_nil_r (bstr _)). by apply (Q "Connection: keep-alive, Upgrade"%string).
  - by apply (Q "Sec-WebSocket-Key: "%string).
  - rewrite <-(app_nil_r (bstr _)). by apply (Q "Sec-WebSocket-Version: 13"%string).
Qed.

Lemma client_request_ok target host nonce :
  space ∉ target -> cr ∉ target -> cr ∉ host -> size_of nonce = 16 ->
  request_ok (join (client_lines target host nonce)) (Base64Encode nonce) [].
Proof.
  intros Hs Ht Hh Hn. pose proof (encoded_key_chars nonce Hn) as K.
  pose proof (client_lines_plain target host nonce Ht Hh Hn) as P.
  assert (TK : Trim (space :: Base64Encode nonce) = Base64Encode nonce).
  { apply Trim_plain. eapply Forall_impl; [exact K|]. intros c [? _]. done. }
  constructor.
  exists target, (tail (client_lines target host nonce)),
    [ (bstr "host", Trim (space :: host)); (bstr "upgrade", bstr "websocket");
      (bstr "connection", bstr "keep-alive, Upgrade");
      (bstr "sec-websocket-key", Base64Encode nonce);
      (bstr "sec-websocket-version", bstr "13") ],
    (bstr "websocket"), (bstr "keep-alive, Upgrade").
  rewrite split_crlf_join by done.
  assert (HT : has_token (bstr "keep-alive, Upgrade") (bstr "upgrade"))
    by (exists (bstr " Upgrade"); split; [right; left|done]).
  split_and!; try done.
  - rewrite <-TK at 1. reflexivity.
  - by apply (bool_decide_eq_true_1 _).
  - set_solver.
  - set_solver.
  - set_solver.
  - by apply key_valid_nonce.
  - set_solver.
  - right. split; [|done]. by apply (bool_decide_eq_true_1 _).
Qed.

(** A standard client gets in: the upgrade request for any target without
    space or CR, any host without CR and any 16-byte nonce, followed by any
    bytes, is accepted within the limit; the response carries the accept key
    of that nonce, the request is consumed exactly, and what follows is left
    for the frame decoder. *)
Theorem handshake_client target host nonce rest max :
  space ∉ target -> cr ∉ target -> cr ∉ host -> size_of nonce = 16 ->
  size_of (client_request target host nonce ++ rest) <= max ->
  ParseHandshake (client_request target host nonce ++ rest) max None =
    Some (mkResult Accepted (size_of (client_request target host nonce))
            (response_101 (accept_value (Base64Encode nonce))) [] ""%string).
Proof.
  intros Hs Ht Hh Hn Hm. pose proof (client_request_ok _ _ _ Hs Ht Hh Hn) as R.
  pose proof (head_of_lines (client_lines target host nonce) rest) as H.
  assert (E : concat (map (fun l => l ++ crlf) (client_lines target host nonce)) ++ crlf ++ rest
              = client_request target host nonce ++ rest)
    by (unfold client_request; rewrite <-!app_assoc; done).
  rewrite E in H. specialize (H ltac:(done) (client_lines_plain _ _ _ Ht Hh Hn)).
  rewrite (ParseHandshake_head _ _ _ _ _ H Hm).
  destruct (judge_head_spec (join (client_lines target host nonce)) None) as (r & -> & J).
  f_equal.
  assert (S : size_of (client_request target host nonce)
              = size_of (join (client_lines target host nonce)) + 4).
  { pose proof (head_split _ _ _ H) as HS. apply (f_equal size_of) in HS.
    rewrite !size_app in HS. change (size_of crlf) with 2 in HS. lia. }
  rewrite S. destruct J as [key org R' _|key org e R' V|resp e R' _].
  - destruct (request_ok_unique _ _ _ _ _ R R') as [<- <-]. done.
  - destruct V. done.
  - by destruct (R' _ _ R).
Qed.

Lemma handshake_client_witness :
  ParseHandshake (client_request (bstr "/chat") (bstr "example.com") (bstr "the sample nonce")
                  ++ bstr "frames") 8192 None =
    Some (mkResult Accepted 166 (response_101 (bstr "s3pPLMBiTxaQ9kYGzzhZRbK+xOo=")) [] ""%string).
Proof.
  rewrite handshake_client; try (by apply (bool_decide_eq_true_1 _)); try (vm_compute; congruence).
Defined.
