(* ===== verification/ServerTypes.v ===== *)
(** * The server's public types (src/src/core/iocp_server.hpp)

    The enumerations and the configuration, and the interface between the
    server and the application behind its handlers. *)

From S2P Require Import Prelude SessionHandle.

Inductive SessionState := Connecting | Handshaking | Open | Closing | Closed.

Inductive TransportKind := Detecting | RawTcp | WebSocket.

Inductive MessageDisposition := Accepted | Malformed | CloseSession.

#[export] Instance SessionState_eq_dec : EqDecision SessionState.
Proof. solve_decision. Defined.
#[export] Instance TransportKind_eq_dec : EqDecision TransportKind.
Proof. solve_decision. Defined.
#[export] Instance MessageDisposition_eq_dec : EqDecision MessageDisposition.
Proof. solve_decision. Defined.

Record ServerConfig := mkConfig {
  port : Z;
  worker_count : Z;
  max_connections : Z;
  accept_depth : Z;
  receive_buffer_bytes : Z;
  max_message_bytes : Z;
  max_session_inbound_bytes : Z;
  max_global_inbound_bytes : Z;
  max_session_queued_bytes : Z;
  max_global_queued_bytes : Z;
  max_handshake_bytes : Z;
  max_messages_per_second : Z;
  malformed_message_limit : Z;
  handshake_timeout : Z;
  idle_timeout : Z;
  websocket_ping_interval : Z;
  websocket_pong_timeout : Z;
  close_timeout : Z;
  enable_thread_affinity : bool;
  origin_validator : option (list byte -> bool);
}.

(** The member initialisers. *)
Definition default_config : ServerConfig :=
  mkConfig 8080 0 10000 64 8192 (1024 * 1024) (2 * 1024 * 1024) (256 * 1024 * 1024)
    (4 * 1024 * 1024) (512 * 1024 * 1024) (16 * 1024) 10000 3 5000 60000 20000 10000 3000
    false None.

(** What the server asks of the handlers registered with it; an empty
    [std::function] for the messages is [None].  A handler answers
    with its new state, the calls of [Send] it makes, in order (it does not look
    at what they return), and the disposition of the message. *)
Class Application (St : Type) := {
  message_handler : option (Z -> SessionHandle -> list byte -> St ->
    MessageDisposition * list (SessionHandle * list byte) * St);
  connect_handler : SessionHandle -> St -> St;
  disconnect_handler : SessionHandle -> St -> St;
}.
