(* ===== verification/Router.v ===== *)
(** * [ProtocolRouter] (src/src/application/protocol_router.{hpp,cpp})

    The application behind the server: FlatBuffers messages of
    schema/protocol.fbs in, replies and published messages out.  The generated
    FlatBuffers code is a parameter: [VerifyNetworkMessageBuffer],
    [GetNetworkMessage] and [FinishNetworkMessageBuffer].  A table's string is
    [None] when its pointer is null.  Each call of [server_.Send] is an element
    of the list a handler returns, in order. *)

From S2P Require Import Prelude SessionHandle RoomRegistry ServerTypes.

Abbreviation fb_string := (option (list byte)).

(** ** The schema *)

Inductive SubscriptionOperation := JOIN | LEAVE.

Inductive ErrorCode :=
  NO_ERROR | MALFORMED_MESSAGE | UNSUPPORTED_VERSION | UNAUTHORIZED | FORBIDDEN | INVALID_ROOM
| NOT_SUBSCRIBED | ALREADY_SUBSCRIBED | RATE_LIMITED | BACKPRESSURE | INTERNAL_ERROR.

Record MatchInfo := mkMatchInfo {
  mi_match_id : fb_string; mi_sport_name : fb_string; mi_team1 : fb_string; mi_team2 : fb_string;
  mi_score_team1 : Z; mi_score_team2 : Z; mi_status : Z; mi_updated_at_ms : Z }.

Record MatchScoreUpdate := mkMatchScoreUpdate {
  ms_match_id : fb_string; ms_score_team1 : Z; ms_score_team2 : Z;
  ms_timeline_event : fb_string; ms_updated_at_ms : Z }.

Record CourtStatus := mkCourtStatus {
  cs_facility_id : fb_string; cs_court_id : fb_string; cs_sport_name : fb_string;
  cs_court_name : fb_string; cs_status : Z; cs_next_available_at_ms : Z }.

Record FacilityUpdate := mkFacilityUpdate {
  fu_facility_id : fb_string; fu_courts : option (list (option CourtStatus)); fu_updated_at_ms : Z }.

Record EquipmentStatus := mkEquipmentStatus {
  es_facility_id : fb_string; es_equipment_id : fb_string; es_item_name : fb_string;
  es_total_inventory : Z; es_available_count : Z }.

Record EquipmentUpdate := mkEquipmentUpdate {
  eu_facility_id : fb_string; eu_inventory : option (list (option EquipmentStatus));
  eu_updated_at_ms : Z }.

Record BookingNotification := mkBookingNotification {
  bn_booking_id : fb_string; bn_user_id : fb_string; bn_resource_id : fb_string;
  bn_user_display_name : fb_string; bn_start_time_ms : Z; bn_end_time_ms : Z }.

Record SystemAlert := mkSystemAlert { sa_code : Z; sa_severity : Z; sa_message : fb_string }.

(** A union: its type and the table, whose pointer may be null.  The verifier
    accepts a type the schema does not name, with any value. *)
Inductive DomainPayload :=
| D_NONE
| D_MatchInfo (t : option MatchInfo)
| D_MatchScoreUpdate (t : option MatchScoreUpdate)
| D_FacilityUpdate (t : option FacilityUpdate)
| D_EquipmentUpdate (t : option EquipmentUpdate)
| D_BookingNotification (t : option BookingNotification)
| D_SystemAlert (t : option SystemAlert)
| D_Unknown (type : Z) (present : bool).

Record Publish := mkPublish { pb_room : fb_string; pb_message : DomainPayload }.
Record AuthenticationResult := mkAuthenticationResult {
  ar_accepted : bool; ar_principal_id : fb_string; ar_reason : fb_string }.
Record SubscriptionAck := mkSubscriptionAck {
  ack_room : fb_string; ack_operation : SubscriptionOperation; ack_accepted : bool;
  ack_reason : fb_string }.
Record ErrorResponse := mkErrorResponse {
  er_code : ErrorCode; er_message : fb_string; er_related_request_id : Z }.

Inductive Payload :=
| P_NONE
| P_MatchInfo (t : option MatchInfo)
| P_MatchScoreUpdate (t : option MatchScoreUpdate)
| P_FacilityUpdate (t : option FacilityUpdate)
| P_EquipmentUpdate (t : option EquipmentUpdate)
| P_BookingNotification (t : option BookingNotification)
| P_SystemAlert (t : option SystemAlert)
| P_Ping (timestamp_ms : option Z)
| P_Pong (timestamp_ms : option Z)
| P_Authenticate (token : option fb_string)
| P_AuthenticationResult (t : option AuthenticationResult)
| P_JoinRoom (room : option fb_string)
| P_LeaveRoom (room : option fb_string)
| P_Publish (t : option Publish)
| P_SubscriptionAck (t : option SubscriptionAck)
| P_ErrorResponse (t : option ErrorResponse)
| P_Unknown (type : Z) (present : bool).

Record NetworkMessage := mkMessage {
  protocol_version : Z; request_id : Z; sequence_id : Z; sent_at_ms : Z; payload : Payload }.

(** ** Validation *)

Definition ProtocolVersion : Z := 1.
Definition MaxIdentifierLength : Z := 160.
Definition MaxDisplayLength : Z := 256.
Definition MaxTextLength : Z := 4096.

Definition ValidString (value : fb_string) (max_length : Z) (allow_empty : bool) : bool :=
  match value with
  | None => false
  | Some s => (size_of s <=? max_length) && (allow_empty || negb (size_of s =? 0))
  end.

Definition ValidateMatchInfo (value : option MatchInfo) : bool :=
  match value with
  | None => false
  | Some v =>
      ValidString (mi_match_id v) MaxIdentifierLength false &&
      ValidString (mi_sport_name v) MaxIdentifierLength false &&
      ValidString (mi_team1 v) MaxDisplayLength false &&
      ValidString (mi_team2 v) MaxDisplayLength false &&
      negb (bool_decide (mi_team1 v = mi_team2 v))
  end.

Definition ValidateMatchScore (value : option MatchScoreUpdate) : bool :=
  match value with
  | None => false
  | Some v =>
      ValidString (ms_match_id v) MaxIdentifierLength false &&
      (negb (bool_decide (is_Some (ms_timeline_event v))) ||
       ValidString (ms_timeline_event v) MaxTextLength true)
  end.

Definition court_ok (facility : fb_string) (court : option CourtStatus) : bool :=
  match court with
  | None => false
  | Some c =>
      ValidString (cs_facility_id c) MaxIdentifierLength false &&
      ValidString (cs_court_id c) MaxIdentifierLength false &&
      ValidString (cs_sport_name c) MaxIdentifierLength false &&
      ValidString (cs_court_name c) MaxDisplayLength false &&
      bool_decide (cs_facility_id c = facility)
  end.

Definition ValidateFacility (value : option FacilityUpdate) : bool :=
  match value with
  | None => false
  | Some v =>
      if negb (ValidString (fu_facility_id v) MaxIdentifierLength false) then false else
      match fu_courts v with
      | None => false
      | Some courts =>
          if 1024 <? size_of courts then false else forallb (court_ok (fu_facility_id v)) courts
      end
  end.

Definition item_ok (facility : fb_string) (item : option EquipmentStatus) : bool :=
  match item with
  | None => false
  | Some i =>
      ValidString (es_facility_id i) MaxIdentifierLength false &&
      ValidString (es_equipment_id i) MaxIdentifierLength false &&
      ValidString (es_item_name i) MaxDisplayLength false &&
      bool_decide (es_facility_id i = facility) &&
      (es_available_count i <=? es_total_inventory i)
  end.

Definition ValidateEquipment (value : option EquipmentUpdate) : bool :=
  match value with
  | None => false
  | Some v =>
      if negb (ValidString (eu_facility_id v) MaxIdentifierLength false) then false else
      match eu_inventory v with
      | None => false
      | Some inventory =>
          if 4096 <? size_of inventory then false else forallb (item_ok (eu_facility_id v)) inventory
      end
  end.

Definition ValidateBooking (value : option BookingNotification) : bool :=
  match value with
  | None => false
  | Some v =>
      ValidString (bn_booking_id v) MaxIdentifierLength false &&
      ValidString (bn_user_id v) MaxIdentifierLength false &&
      ValidString (bn_resource_id v) MaxIdentifierLength false &&
      (negb (bool_decide (is_Some (bn_user_display_name v))) ||
       ValidString (bn_user_display_name v) MaxDisplayLength true) &&
      (bn_start_time_ms v <? bn_end_time_ms v)
  end.

Definition ValidateAlert (value : option SystemAlert) : bool :=
  match value with
  | None => false
  | Some v => ValidString (sa_message v) MaxTextLength false
  end.

Definition message_present (m : DomainPayload) : bool :=
  match m with
  | D_NONE => false
  | D_MatchInfo t => bool_decide (is_Some t)
  | D_MatchScoreUpdate t => bool_decide (is_Some t)
  | D_FacilityUpdate t => bool_decide (is_Some t)
  | D_EquipmentUpdate t => bool_decide (is_Some t)
  | D_BookingNotification t => bool_decide (is_Some t)
  | D_SystemAlert t => bool_decide (is_Some t)
  | D_Unknown _ present => present
  end.

Definition ValidateDomain (publish : option Publish) : bool :=
  match publish with
  | None => false
  | Some p =>
      if negb (ValidString (pb_room p) MaxIdentifierLength false) || negb (message_present (pb_message p))
      then false else
      match pb_message p with
      | D_MatchInfo t => ValidateMatchInfo t
      | D_MatchScoreUpdate t => ValidateMatchScore t
      | D_FacilityUpdate t => ValidateFacility t
      | D_EquipmentUpdate t => ValidateEquipment t
      | D_BookingNotification t => ValidateBooking t
      | D_SystemAlert t => ValidateAlert t
      | D_NONE | D_Unknown _ _ => false
      end
  end.

Definition RoomResultReason (result : RoomResult) : list byte :=
  match result with
  | Ok => []
  | InvalidRoom => bstr "invalid room"
  | Unauthorized => bstr "room authorization denied"
  | AlreadySubscribed => bstr "already subscribed"
  | NotSubscribed => bstr "not subscribed"
  end.

(** [message->payload() == nullptr] *)
Definition payload_null (p : Payload) : bool :=
  match p with
  | P_NONE => true
  | P_MatchInfo t => negb (bool_decide (is_Some t))
  | P_MatchScoreUpdate t => negb (bool_decide (is_Some t))
  | P_FacilityUpdate t => negb (bool_decide (is_Some t))
  | P_EquipmentUpdate t => negb (bool_decide (is_Some t))
  | P_BookingNotification t => negb (bool_decide (is_Some t))
  | P_SystemAlert t => negb (bool_decide (is_Some t))
  | P_Ping t => negb (bool_decide (is_Some t))
  | P_Pong t => negb (bool_decide (is_Some t))
  | P_Authenticate t => negb (bool_decide (is_Some t))
  | P_AuthenticationResult t => negb (bool_decide (is_Some t))
  | P_JoinRoom t => negb (bool_decide (is_Some t))
  | P_LeaveRoom t => negb (bool_decide (is_Some t))
  | P_Publish t => negb (bool_decide (is_Some t))
  | P_SubscriptionAck t => negb (bool_decide (is_Some t))
  | P_ErrorResponse t => negb (bool_decide (is_Some t))
  | P_Unknown _ present => negb present
  end.

(** ** The router *)

Record ProtocolRouter := mkRouter {
  rooms_ : RoomRegistry;
  principals_ : gmap SessionHandle (list byte);
  server_sequence_ : Z;
}.

Definition construct : ProtocolRouter := mkRouter RoomRegistry.construct ∅ 1.

Definition set_rooms (rooms : RoomRegistry) (r : ProtocolRouter) :=
  mkRouter rooms (principals_ r) (server_sequence_ r).
Definition set_principals (ps : gmap SessionHandle (list byte)) (r : ProtocolRouter) :=
  mkRouter (rooms_ r) ps (server_sequence_ r).

Definition Principal (session : SessionHandle) (r : ProtocolRouter) : option (list byte) :=
  principals_ r !! session.

Definition IsAuthenticated (session : SessionHandle) (r : ProtocolRouter) : bool :=
  bool_decide (is_Some (Principal session r)).

Definition BookingPrefix : list byte := bstr "booking:user:".

(** [joins] and [errs]: what [Handle] returns and sends. *)
Abbreviation sends := (list (SessionHandle * list byte)).

Section router.
(** The generated FlatBuffers code. *)
Context (VerifyNetworkMessageBuffer : list byte -> bool).
Context (GetNetworkMessage : list byte -> NetworkMessage).
Context (FinishNetworkMessageBuffer : NetworkMessage -> list byte).
(** The functions passed to the constructor; [None] is an empty function. *)
Context (authenticator_ : option (list byte -> option (list byte))).
Context (room_authorizer_ : option (list byte -> list byte -> bool -> bool)).

Definition AuthorizeRoom (r : ProtocolRouter) (session : SessionHandle) (room : list byte)
    (publishing : bool) : bool :=
  match Principal session r with
  | None => false
  | Some principal =>
      match room_authorizer_ with
      | Some f => f principal room publishing
      | None =>
          if starts_with room BookingPrefix
          then bool_decide (drop (length BookingPrefix) room = principal) else true
      end
  end.

(** One reply: the next sequence number, the time, the payload. *)
Definition reply (now : Z) (session : SessionHandle) (request : Z) (p : Payload)
    (r : ProtocolRouter) : sends * ProtocolRouter :=
  ([(session, FinishNetworkMessageBuffer
      (mkMessage ProtocolVersion request (server_sequence_ r) now p))],
   mkRouter (rooms_ r) (principals_ r) (server_sequence_ r + 1)%u64).

Definition send_error (now : Z) (session : SessionHandle) (request_id : Z) (code : ErrorCode)
    (text : list byte) : ProtocolRouter -> sends * ProtocolRouter :=
  reply now session 0 (P_ErrorResponse (Some (mkErrorResponse code (Some text) request_id))).

Definition send_ack (now : Z) (session : SessionHandle) (request_id : Z) (room : list byte)
    (operation : SubscriptionOperation) (result : RoomResult)
    : ProtocolRouter -> sends * ProtocolRouter :=
  let reason := RoomResultReason result in
  let reason_offset := if size_of reason =? 0 then None else Some reason in
  reply now session request_id (P_SubscriptionAck (Some (mkSubscriptionAck (Some room) operation
    (bool_decide (result = Ok)) reason_offset))).

Definition result (d : MessageDisposition) (out : sends * ProtocolRouter)
  : MessageDisposition * sends * ProtocolRouter := (d, out.1, out.2).

Definition HandleAuthenticate (now : Z) (session : SessionHandle) (request_id : Z)
    (token : option fb_string) (r : ProtocolRouter) :=
  match token with
  | Some (Some t) =>
      if negb (ValidString (Some t) MaxTextLength false)
      then result Malformed (send_error now session request_id MALFORMED_MESSAGE
             (bstr "authentication token is required") r)
      else
      let principal := match authenticator_ with Some f => f t | None => None end in
      let r := match principal with
               | Some p => set_principals (<[session := p]> (principals_ r)) r
               | None => r
               end in
      result Accepted (reply now session request_id (P_AuthenticationResult (Some
        (mkAuthenticationResult (bool_decide (is_Some principal)) principal
           (match principal with Some _ => None | None => Some (bstr "authentication rejected") end)))) r)
  | _ => result Malformed (send_error now session request_id MALFORMED_MESSAGE
           (bstr "authentication token is required") r)
  end.

Definition HandleJoin (now : Z) (session : SessionHandle) (request_id : Z)
    (join : option fb_string) (r : ProtocolRouter) :=
  if negb (IsAuthenticated session r)
  then result Accepted (send_error now session request_id UNAUTHORIZED
         (bstr "authenticate before joining rooms") r) else
  match join with
  | Some (Some room) =>
      if negb (ValidString (Some room) MaxIdentifierLength false)
      then result Malformed (send_error now session request_id INVALID_ROOM (bstr "room is required") r)
      else
      let '(res, rooms) := Join (Some (AuthorizeRoom r)) session room (rooms_ r) in
      result Accepted (send_ack now session request_id room JOIN res (set_rooms rooms r))
  | _ => result Malformed (send_error now session request_id INVALID_ROOM (bstr "room is required") r)
  end.

Definition HandleLeave (now : Z) (session : SessionHandle) (request_id : Z)
    (leave : option fb_string) (r : ProtocolRouter) :=
  match leave with
  | Some (Some room) =>
      if negb (ValidString (Some room) MaxIdentifierLength false)
      then result Malformed (send_error now session request_id INVALID_ROOM (bstr "room is required") r)
      else
      let '(res, rooms) := Leave session room (rooms_ r) in
      result Accepted (send_ack now session request_id room LEAVE res (set_rooms rooms r))
  | _ => result Malformed (send_error now session request_id INVALID_ROOM (bstr "room is required") r)
  end.

Definition HandlePublish (now : Z) (session : SessionHandle) (request_id : Z) (bytes : list byte)
    (publish : option Publish) (r : ProtocolRouter) : MessageDisposition * sends * ProtocolRouter :=
  if negb (IsAuthenticated session r)
  then result Accepted (send_error now session request_id UNAUTHORIZED
         (bstr "authenticate before publishing") r) else
  if negb (ValidateDomain publish)
  then result Malformed (send_error now session request_id MALFORMED_MESSAGE
         (bstr "published domain payload is invalid") r) else
  let room := default [] (publish ≫= pb_room) in
  let authorization := AuthorizePublish (Some (AuthorizeRoom r)) session room (rooms_ r) in
  if negb (bool_decide (authorization = Ok))
  then result Accepted (send_error now session request_id
         (if bool_decide (authorization = Unauthorized) then FORBIDDEN else NOT_SUBSCRIBED)
         (RoomResultReason authorization) r)
  else (Accepted, map (fun recipient => (recipient, bytes)) (Snapshot room (rooms_ r)), r).

Definition Handle (now : Z) (session : SessionHandle) (bytes : list byte) (r : ProtocolRouter)
  : MessageDisposition * sends * ProtocolRouter :=
  if negb (VerifyNetworkMessageBuffer bytes) then (Malformed, [], r) else
  let message := GetNetworkMessage bytes in
  let request_id := request_id message in
  if negb (protocol_version message =? ProtocolVersion)
  then result Accepted (send_error now session request_id UNSUPPORTED_VERSION
         (bstr "supported protocol_version is 1") r) else
  if payload_null (payload message)
  then result Malformed (send_error now session request_id MALFORMED_MESSAGE
         (bstr "payload is required") r) else
  match payload message with
  | P_Authenticate token => HandleAuthenticate now session request_id token r
  | P_Ping ping =>
      match ping with
      | None => (Malformed, [], r)
      | Some timestamp_ms => result Accepted (reply now session request_id (P_Pong (Some timestamp_ms)) r)
      end
  | P_Pong _ => (Accepted, [], r)
  | P_JoinRoom join => HandleJoin now session request_id join r
  | P_LeaveRoom leave => HandleLeave now session request_id leave r
  | P_Publish publish => HandlePublish now session request_id bytes publish r
  | P_MatchInfo _ | P_MatchScoreUpdate _ | P_FacilityUpdate _ | P_EquipmentUpdate _
  | P_BookingNotification _ | P_SystemAlert _ | P_AuthenticationResult _ | P_SubscriptionAck _
  | P_ErrorResponse _ =>
      result Accepted (send_error now session request_id FORBIDDEN
        (bstr "payload type is server-to-client only") r)
  | P_NONE | P_Unknown _ _ => (Malformed, [], r)
  end.

Definition OnDisconnect (session : SessionHandle) (r : ProtocolRouter) : ProtocolRouter :=
  let r := set_rooms (RemoveSession session (rooms_ r)) r in
  set_principals (delete session (principals_ r)) r.

(** The router is the application of the server. *)
Definition router_application : Application ProtocolRouter := {|
  message_handler := Some Handle;
  connect_handler := fun _ router => router;
  disconnect_handler := OnDisconnect;
|}.

(** ** Effects of one message *)

(** What a message of session [s] may change, apart from the sequence number. *)
Inductive change (s : SessionHandle) (r : ProtocolRouter) : ProtocolRouter -> Prop :=
| change_none : change s r r
| change_principal f token p :
    authenticator_ = Some f -> f token = Some p ->
    change s r (set_principals (<[s := p]> (principals_ r)) r)
| change_join room :
    is_Some (Principal s r) ->
    change s r (set_rooms (Join (Some (AuthorizeRoom r)) s room (rooms_ r)).2 r)
| change_leave room :
    change s r (set_rooms (Leave s room (rooms_ r)).2 r).

(** [publish] is allowed to go to [room]. *)
Record may_publish (s : SessionHandle) (r : ProtocolRouter) (publish : Publish) (room : list byte)
  : Prop := {
  mp_room : pb_room publish = Some room;
  mp_domain : ValidateDomain (Some publish) = true;
  mp_authenticated : is_Some (Principal s r);
  mp_valid : IsValidRoom room = true;
  mp_authorized : AuthorizeRoom r s room true = true;
  mp_subscribed : subscribed (rooms_ r) s room;
}.

Inductive effect (now : Z) (s : SessionHandle) (bytes : list byte) (r : ProtocolRouter)
  : sends -> ProtocolRouter -> Prop :=
| effect_quiet : effect now s bytes r [] r
| effect_reply r1 request p out r' :
    change s r r1 -> request = 0 \/ request = request_id (GetNetworkMessage bytes) ->
    reply now s request p r1 = (out, r') -> effect now s bytes r out r'
| effect_publish publish room :
    VerifyNetworkMessageBuffer bytes = true ->
    payload (GetNetworkMessage bytes) = P_Publish (Some publish) ->
    may_publish s r publish room ->
    effect now s bytes r (map (fun t => (t, bytes)) (Snapshot room (rooms_ r))) r.

Lemma effect_error now s bytes r1 r c text d :
  change s r r1 ->
  let '(_, out, r') := result d (send_error now s (request_id (GetNetworkMessage bytes)) c text r1) in
  effect now s bytes r out r'.
Proof. intros C. eapply effect_reply; [exact C|by left|reflexivity]. Qed.

Lemma HandlePublish_effect now s bytes publish r :
  VerifyNetworkMessageBuffer bytes = true ->
  payload (GetNetworkMessage bytes) = P_Publish publish ->
  let '(_, out, r') := HandlePublish now s (request_id (GetNetworkMessage bytes)) bytes publish r in
  effect now s bytes r out r'.
Proof.
  intros V P. unfold HandlePublish, IsAuthenticated. case_bool_decide as A; cbn [negb];
    [|by apply effect_error, change_none].
  destruct (ValidateDomain publish) eqn:D; cbn [negb]; [|by apply effect_error, change_none].
  case_bool_decide as O; cbn [negb]; [|by apply effect_error, change_none].
  destruct publish as [publish|]; [|done]. cbn in *.
  destruct (pb_room publish) as [room|] eqn:R; [|done]. cbn in *.
  apply AuthorizePublish_ok in O as (O1 & O2 & O3).
  eapply effect_publish; [done..|]. constructor; try done. simpl. rewrite R. done.
Qed.

(** Every message has one of the effects. *)
Lemma Handle_effect now s bytes r :
  let '(_, out, r') := Handle now s bytes r in effect now s bytes r out r'.
Proof.
  unfold Handle. destruct (VerifyNetworkMessageBuffer bytes) eqn:V; cbn [negb];
    [|apply effect_quiet].
  split_if; [by apply effect_error, change_none|].
  destruct (payload_null _); [by apply effect_error, change_none|].
  pose proof (HandlePublish_effect now s bytes) as HP.
  assert (RE : forall r1 p d, change s r r1 ->
    let '(_, out, r') := result d (reply now s (request_id (GetNetworkMessage bytes)) p r1) in
    effect now s bytes r out r')
    by (intros; eapply effect_reply; [eassumption|by right|reflexivity]).
  destruct (payload (GetNetworkMessage bytes)) eqn:P;
    try (by apply effect_error, change_none); try apply effect_quiet.
  - destruct timestamp_ms; [by apply RE, change_none|apply effect_quiet].
  - unfold HandleAuthenticate. destruct token as [[t|]|]; try (by apply effect_error, change_none).
    split_if; [by apply effect_error, change_none|]. apply RE.
    destruct authenticator_ as [f|] eqn:F; [|apply change_none].
    destruct (f t) eqn:E; [|apply change_none]. by eapply change_principal.
  - unfold HandleJoin, IsAuthenticated. case_bool_decide as A; cbn [negb];
      [|by apply effect_error, change_none].
    destruct room as [[room|]|]; try (by apply effect_error, change_none).
    split_if; [by apply effect_error, change_none|].
    pose proof (change_join s r room A) as C. destruct (Join _ s room (rooms_ r)). by apply RE.
  - unfold HandleLeave. destruct room as [[room|]|]; try (by apply effect_error, change_none).
    split_if; [by apply effect_error, change_none|].
    pose proof (change_leave s r room) as C. destruct (Leave s room (rooms_ r)). by apply RE.
  - by apply HP.
Qed.

(** ** Runs *)

Inductive router_call :=
| CallHandle (now : Z) (s : SessionHandle) (bytes : list byte)
| CallDisconnect (s : SessionHandle).

Definition run_call (r : ProtocolRouter) (c : router_call) : ProtocolRouter :=
  match c with
  | CallHandle now s bytes => (Handle now s bytes r).2
  | CallDisconnect s => OnDisconnect s r
  end.

Definition after (calls : list router_call) : ProtocolRouter := foldl run_call construct calls.

(** Subscribers are authenticated, with a principal the authenticator issued. *)
Record router_wf (r : ProtocolRouter) : Prop := {
  rw_rooms : RoomRegistry.wf (rooms_ r);
  rw_authenticated : forall s room, subscribed (rooms_ r) s room -> is_Some (Principal s r);
  rw_issued : forall s p, Principal s r = Some p ->
    exists f token, authenticator_ = Some f /\ f token = Some p;
}.

Lemma change_wf s r r1 : router_wf r -> change s r r1 -> router_wf r1.
Proof.
  intros [W A I] C. destruct C as [|f t p F E|room P|room]; [done|..].
  - constructor; simpl; [done| |]; unfold Principal in *; simpl; intros s' x;
      rewrite lookup_insert; case_decide; try naive_solver; intros; eauto.
  - pose proof (Join_refines (Some (AuthorizeRoom r)) s room (rooms_ r) W) as J.
    destruct (Join _ s room (rooms_ r)) as [res reg]. destruct J as (W' & _ & _ & _ & _ & S).
    constructor; simpl; [done| |done]. intros s' room' [H|(_ & -> & _)]%S; [by eapply A|done].
  - pose proof (Leave_refines s room (rooms_ r) W) as L.
    destruct (Leave s room (rooms_ r)) as [res reg]. destruct L as (W' & _ & _ & S).
    constructor; simpl; [done| |done]. intros s' room' [H _]%S. by eapply A.
Qed.

Lemma router_wf_sequence r n : router_wf r -> router_wf (mkRouter (rooms_ r) (principals_ r) n).
Proof. intros [? ? ?]. by constructor. Qed.

Lemma OnDisconnect_spec s r :
  RoomRegistry.wf (rooms_ r) ->
  RoomRegistry.wf (rooms_ (OnDisconnect s r)) /\
  (forall s' room, subscribed (rooms_ (OnDisconnect s r)) s' room <->
     subscribed (rooms_ r) s' room /\ s' <> s) /\
  (forall s', Principal s' (OnDisconnect s r) = if decide (s = s') then None else Principal s' r).
Proof.
  intros W. destruct (RemoveSession_refines s (rooms_ r) W) as (W' & _ & S).
  split_and!; [done|done|]. intros s'. unfold Principal. simpl. apply lookup_delete.
Qed.

Lemma run_call_wf r c : router_wf r -> router_wf (run_call r c).
Proof.
  intros W. destruct c as [now s bytes|s]; simpl.
  - pose proof (Handle_effect now s bytes r) as E. destruct (Handle now s bytes r) as [[d out] r'].
    destruct E as [|r1 request p out r' C _ R|]; [done| |done].
    unfold reply in R. simplify_eq. simpl. by eapply router_wf_sequence, change_wf.
  - destruct W as [W A I]. destruct (OnDisconnect_spec s r W) as (W' & S & P).
    constructor; [done| |].
    + intros s' room [H Hne]%S. rewrite P. case_decide; [congruence|]. by eapply A.
    + intros s' p. rewrite P. case_decide; [done|]. apply I.
Qed.

Lemma after_wf calls : router_wf (after calls).
Proof.
  unfold after. assert (W : router_wf construct).
  { constructor; [apply registry_construct_wf| |].
    - intros s room (x & E & _). simpl in E. rewrite lookup_empty in E. done.
    - intros s p H. unfold Principal in H. simpl in H. rewrite lookup_empty in H. done. }
  revert W. generalize construct as r. induction calls as [|c calls IH]; intros r W; [done|].
  simpl. by apply IH, run_call_wf.
Qed.

(** Authorization only looks at the session's principal. *)
Lemma AuthorizeRoom_principal r r' s s' room b :
  Principal s r = Principal s' r' -> AuthorizeRoom r s room b = AuthorizeRoom r' s' room b.
Proof. intros E. unfold AuthorizeRoom. rewrite E. done. Qed.

(** With one principal for all tokens, a subscription stays authorized. *)
Definition one_principal : Prop :=
  forall f t t' p p', authenticator_ = Some f -> f t = Some p -> f t' = Some p' -> p = p'.

Definition subscriptions_authorized (r : ProtocolRouter) : Prop :=
  forall s room, subscribed (rooms_ r) s room -> AuthorizeRoom r s room false = true.

Lemma change_authorized s r r1 :
  one_principal -> router_wf r -> subscriptions_authorized r -> change s r r1 ->
  subscriptions_authorized r1.
Proof.
  intros One W S C. destruct C as [|f t p F E|room P|room]; [done|..]; intros s' room' H; simpl in H.
  - rewrite <-(S s' room' H). apply AuthorizeRoom_principal. unfold Principal. simpl.
    rewrite lookup_insert. case_decide as D; [subst s'|done].
    destruct (rw_authenticated r W s room' H) as [q Q]. unfold Principal in Q. rewrite Q.
    destruct (rw_issued r W s q Q) as (f' & t' & F' & E'). f_equal. simplify_eq. by eapply One.
  - pose proof (Join_refines (Some (AuthorizeRoom r)) s room (rooms_ r) (rw_rooms _ W)) as J.
    destruct (Join _ s room (rooms_ r)) as [res reg].
    destruct J as (_ & _ & _ & _ & OK & J). simpl in H.
    apply J in H as [H|(-> & -> & ->)]; [by apply (S s' room')|].
    by apply OK.
  - pose proof (Leave_refines s room (rooms_ r) (rw_rooms _ W)) as L.
    destruct (Leave s room (rooms_ r)) as [res reg]. destruct L as (_ & _ & _ & L).
    simpl in H. apply L in H as [H _]. by apply (S s' room').
Qed.

Lemma after_authorized calls : one_principal -> subscriptions_authorized (after calls).
Proof.
  intros One. unfold after. induction calls as [|c calls IH] using rev_ind.
  { intros s room (x & E & _). simpl in E. rewrite lookup_empty in E. done. }
  rewrite foldl_app. simpl. pose proof (after_wf calls) as W. unfold after in W.
  destruct c as [now s bytes|s]; simpl.
  - pose proof (Handle_effect now s bytes (foldl run_call construct calls)) as E.
    destruct (Handle now s bytes _) as [[d out] r'].
    destruct E as [|r1 request p out r' C _ R|]; [done| |done].
    unfold reply in R. simplify_eq. simpl. exact (change_authorized _ _ _ One W IH C).
  - destruct (OnDisconnect_spec s _ (rw_rooms _ W)) as (_ & S & P).
    intros s' room [H Hne]%S. rewrite <-(IH s' room H). apply AuthorizeRoom_principal.
    rewrite P. case_decide; [congruence|done].
Qed.

Lemma change_others s r r1 t :
  RoomRegistry.wf (rooms_ r) -> change s r r1 -> t <> s ->
  Principal t r1 = Principal t r /\
  forall room, subscribed (rooms_ r1) t room <-> subscribed (rooms_ r) t room.
Proof.
  intros W C Ht. destruct C as [|f tk p F E|room P|room]; [done|..].
  - split; [|done]. unfold Principal. simpl. by rewrite lookup_insert_ne.
  - split; [done|]. intros room'.
    pose proof (Join_refines (Some (AuthorizeRoom r)) s room (rooms_ r) W) as J.
    destruct (Join _ s room (rooms_ r)) as [res reg]. simpl. destruct J as (_ & _ & _ & _ & _ & J).
    rewrite J. naive_solver.
  - split; [done|]. intros room'. pose proof (Leave_refines s room (rooms_ r) W) as L.
    destruct (Leave s room (rooms_ r)) as [res reg]. simpl. destruct L as (_ & _ & _ & L).
    rewrite L. naive_solver.
Qed.

(** ** Properties *)

(** C14. Access control, after any sequence of messages and disconnections from
    any sessions: the registry is consistent, every subscriber is authenticated,
    every principal was issued by the authenticator; when the authenticator
    issues a single principal every subscription is still authorized; and a
    disconnected session keeps neither subscription nor principal, while the
    other sessions keep theirs. *)
Theorem router_access_control calls :
  let r := after calls in
  RoomRegistry.wf (rooms_ r) /\
  (forall s room, subscribed (rooms_ r) s room -> is_Some (Principal s r)) /\
  (forall s p, Principal s r = Some p ->
     exists f token, authenticator_ = Some f /\ f token = Some p) /\
  (one_principal -> subscriptions_authorized r) /\
  (forall s, let r' := after (calls ++ [CallDisconnect s]) in
     Principal s r' = None /\ (forall room, ~ subscribed (rooms_ r') s room) /\
     forall t, t <> s -> Principal t r' = Principal t r /\
       forall room, subscribed (rooms_ r') t room <-> subscribed (rooms_ r) t room).
Proof.
  pose proof (after_wf calls) as W. split_and!; try apply W.
  - apply after_authorized.
  - intros s. unfold after. rewrite foldl_app. cbn [foldl run_call]. fold (after calls).
    destruct (OnDisconnect_spec s (after calls) (rw_rooms _ W)) as (_ & S & P).
    split_and!.
    + rewrite P. by case_decide.
    + intros room [_ ?]%S. done.
    + intros t Ht. rewrite P. case_decide; [congruence|]. split; [done|].
      intros room. rewrite S. naive_solver.
Qed.

(** A publish that may be published: the fan-out, and nothing else. *)
Lemma Handle_publishes now s bytes r publish room :
  VerifyNetworkMessageBuffer bytes = true -> protocol_version (GetNetworkMessage bytes) = 1 ->
  payload (GetNetworkMessage bytes) = P_Publish (Some publish) -> may_publish s r publish room ->
  Handle now s bytes r = (Accepted, map (fun recipient => (recipient, bytes)) (Snapshot room (rooms_ r)), r).
Proof.
  intros V PV P M. unfold Handle. rewrite V, PV, P. cbn.
  unfold HandlePublish, IsAuthenticated.
  rewrite (bool_decide_eq_true_2 _ (mp_authenticated _ _ _ _ M)), (mp_domain _ _ _ _ M). cbn [negb].
  assert (O : AuthorizePublish (Some (AuthorizeRoom r)) s room (rooms_ r) = Ok)
    by (apply AuthorizePublish_ok; split_and!; apply M).
  cbn [mbind option_bind]. rewrite (mp_room _ _ _ _ M). cbn [from_option Datatypes.id].
  by rewrite O, bool_decide_eq_true_2.
Qed.

(** C15. Published messages reach exactly the subscribers: a message goes to
    another session only as the unchanged bytes of a publish by an
    authenticated, authorized, subscribed session to a room that session is
    subscribed to; and such a publish is sent to every subscriber of the room
    (the publisher included) exactly once and changes nothing. *)
Theorem router_publish_fanout calls now s bytes :
  let r := after calls in
  let '(d, out, r') := Handle now s bytes r in
  (forall t m, (t, m) ∈ out -> t <> s ->
     m = bytes /\ exists publish room, payload (GetNetworkMessage bytes) = P_Publish (Some publish) /\
       may_publish s r publish room /\ subscribed (rooms_ r) t room) /\
  (forall publish room, VerifyNetworkMessageBuffer bytes = true ->
     protocol_version (GetNetworkMessage bytes) = 1 ->
     payload (GetNetworkMessage bytes) = P_Publish (Some publish) ->
     may_publish s r publish room ->
     d = Accepted /\ r' = r /\ NoDup (out.*1) /\
     forall t m, (t, m) ∈ out <-> m = bytes /\ subscribed (rooms_ r) t room).
Proof.
  cbv zeta. set (r := after calls). pose proof (rw_rooms _ (after_wf calls)) as W.
  pose proof (Handle_effect now s bytes r) as E. destruct (Handle now s bytes r) as [[d out] r'] eqn:H.
  split.
  - intros t m Hin Ht. destruct E as [|r1 request p out r' C _ R|publish room V P M].
    + by apply not_elem_of_nil in Hin.
    + unfold reply in R. simplify_eq. set_solver.
    + apply list_elem_of_fmap in Hin as (x & [= -> ->] & Hx). apply Snapshot_members in Hx; [|done].
      eauto 10.
  - intros publish room V PV P M. rewrite (Handle_publishes now s bytes r publish room) in H by done.
    injection H as <- <- <-.
    split_and!; [done..| |].
    + rewrite <-list_fmap_compose. change (NoDup (Datatypes.id <$> Snapshot room (rooms_ r))).
      rewrite list_fmap_id. apply Snapshot_nodup.
    + intros t m. rewrite list_elem_of_fmap. split.
      * intros (x & [= -> ->] & Hx). split; [done|]. by apply Snapshot_members in Hx.
      * intros [-> Hs]. exists t. split; [done|]. by apply Snapshot_members.
Qed.

(** A message has bounded effects: it changes the principal and the rooms of
    its own session only, and it produces nothing, or the fan-out of a publish,
    or exactly one reply, to the sender, with version 1, the next number of the
    server's sequence, and the request's id (0 for an error response, whose
    body names the request). *)
Theorem router_effects calls now s bytes :
  let r := after calls in
  let '(d, out, r') := Handle now s bytes r in
  (forall t, t <> s -> Principal t r' = Principal t r /\
     forall room, subscribed (rooms_ r') t room <-> subscribed (rooms_ r) t room) /\
  ((r' = r /\ forall t m, (t, m) ∈ out -> m = bytes) \/
   exists request p,
     out = [(s, FinishNetworkMessageBuffer (mkMessage 1 request (server_sequence_ r) now p))] /\
     (request = 0 \/ request = request_id (GetNetworkMessage bytes)) /\
     server_sequence_ r' = (server_sequence_ r + 1)%u64).
Proof.
  cbv zeta. set (r := after calls). pose proof (rw_rooms _ (after_wf calls)) as W.
  pose proof (Handle_effect now s bytes r) as E. destruct (Handle now s bytes r) as [[d out] r'].
  destruct E as [|r1 request p out r' C Q R|publish room V P M].
  - split; [done|]. left. split; [done|]. intros t m Hin. by apply not_elem_of_nil in Hin.
  - unfold reply in R. simplify_eq.
    assert (SQ : server_sequence_ r1 = server_sequence_ r) by (by destruct C).
    split; [intros t Ht; exact (change_others _ _ _ _ W C Ht)|]. right.
    exists request, p. rewrite SQ. done.
  - split; [done|]. left. split; [done|]. intros t m (x & [= -> ->] & Hx)%list_elem_of_fmap. done.
Qed.

(** The types only the server sends, with a table. *)
Definition server_only (p : Payload) : bool :=
  match p with
  | P_MatchInfo t => bool_decide (is_Some t)
  | P_MatchScoreUpdate t => bool_decide (is_Some t)
  | P_FacilityUpdate t => bool_decide (is_Some t)
  | P_EquipmentUpdate t => bool_decide (is_Some t)
  | P_BookingNotification t => bool_decide (is_Some t)
  | P_SystemAlert t => bool_decide (is_Some t)
  | P_AuthenticationResult t => bool_decide (is_Some t)
  | P_SubscriptionAck t => bool_decide (is_Some t)
  | P_ErrorResponse t => bool_decide (is_Some t)
  | _ => false
  end.

End router.

(** ** Domain validation as documented in docs/protocol.md *)

Definition text (lo hi : Z) (s : fb_string) : Prop :=
  exists b, s = Some b /\ lo <= size_of b <= hi.

(** An optional text: absent, or at most [hi] bytes. *)
Definition optional_text (hi : Z) (s : fb_string) : Prop := s = None \/ text 0 hi s.

Definition documented_court (facility : fb_string) (c : option CourtStatus) : Prop :=
  exists v, c = Some v /\ cs_facility_id v = facility /\ text 1 160 (cs_facility_id v) /\
    text 1 160 (cs_court_id v) /\ text 1 160 (cs_sport_name v) /\ text 1 256 (cs_court_name v).

Definition documented_item (facility : fb_string) (i : option EquipmentStatus) : Prop :=
  exists v, i = Some v /\ es_facility_id v = facility /\ text 1 160 (es_facility_id v) /\
    text 1 160 (es_equipment_id v) /\ text 1 256 (es_item_name v) /\
    es_available_count v <= es_total_inventory v.

Definition documented_domain (m : DomainPayload) : Prop :=
  match m with
  | D_NONE | D_Unknown _ _ => False
  | D_MatchInfo t => exists v, t = Some v /\ text 1 160 (mi_match_id v) /\
      text 1 160 (mi_sport_name v) /\ text 1 256 (mi_team1 v) /\ text 1 256 (mi_team2 v) /\
      mi_team1 v <> mi_team2 v
  | D_MatchScoreUpdate t => exists v, t = Some v /\ text 1 160 (ms_match_id v) /\
      optional_text 4096 (ms_timeline_event v)
  | D_FacilityUpdate t => exists v courts, t = Some v /\ text 1 160 (fu_facility_id v) /\
      fu_courts v = Some courts /\ size_of courts <= 1024 /\
      Forall (documented_court (fu_facility_id v)) courts
  | D_EquipmentUpdate t => exists v items, t = Some v /\ text 1 160 (eu_facility_id v) /\
      eu_inventory v = Some items /\ size_of items <= 4096 /\
      Forall (documented_item (eu_facility_id v)) items
  | D_BookingNotification t => exists v, t = Some v /\ text 1 160 (bn_booking_id v) /\
      text 1 160 (bn_user_id v) /\ text 1 160 (bn_resource_id v) /\
      optional_text 256 (bn_user_display_name v) /\ bn_start_time_ms v < bn_end_time_ms v
  | D_SystemAlert t => exists v, t = Some v /\ text 1 4096 (sa_message v)
  end.

Lemma ValidString_text v n : ValidString v n false = true <-> text 1 n v.
Proof.
  unfold ValidString, text. destruct v as [s|]; [|naive_solver].
  pose proof (size_nonneg s). rewrite andb_true_iff, orb_false_l, negb_true_iff, Z.leb_le, Z.eqb_neq.
  split; [intros; exists s; split; [done|lia]|]. intros (b & [= <-] & ?). lia.
Qed.

Lemma ValidString_empty v n : ValidString v n true = true <-> text 0 n v.
Proof.
  unfold ValidString, text. destruct v as [s|]; [|naive_solver].
  pose proof (size_nonneg s). rewrite andb_true_iff, orb_true_l, Z.leb_le.
  split; [intros; exists s; split; [done|lia]|]. intros (b & [= <-] & ?). split; [lia|done].
Qed.

Lemma optional_spec v n :
  negb (bool_decide (is_Some v)) || ValidString v n true = true <-> optional_text n v.
Proof.
  rewrite orb_true_iff, ValidString_empty, negb_true_iff, bool_decide_eq_false.
  unfold optional_text. rewrite <-eq_None_not_Some. done.
Qed.

Lemma court_ok_spec fac c : court_ok fac c = true <-> documented_court fac c.
Proof.
  unfold court_ok, documented_court. destruct c as [v|]; [|naive_solver].
  rewrite !andb_true_iff, !ValidString_text, bool_decide_eq_true. naive_solver.
Qed.

Lemma item_ok_spec fac i : item_ok fac i = true <-> documented_item fac i.
Proof.
  unfold item_ok, documented_item. destruct i as [v|]; [|naive_solver].
  rewrite !andb_true_iff, !ValidString_text, bool_decide_eq_true, Z.leb_le. naive_solver.
Qed.

Lemma forallb_iff {A} (f : A -> bool) (P : A -> Prop) l :
  (forall x, f x = true <-> P x) -> forallb f l = true <-> Forall P l.
Proof. intros H. rewrite forallb_Forall, !Forall_forall. naive_solver. Qed.

Lemma ValidateFacility_spec t : ValidateFacility t = true <-> documented_domain (D_FacilityUpdate t).
Proof.
  unfold ValidateFacility. destruct t as [v|]; simpl; [|naive_solver].
  destruct (ValidString _ _ _) eqn:V; simpl.
  - apply ValidString_text in V. destruct (fu_courts v) as [cs|] eqn:E;
      [|split; [done|]; intros (x & cs' & [= <-] & _ & E' & _); congruence].
    split_if; [split; [done|]; intros (x & cs' & [= <-] & _ & E' & ? & _); simplify_eq; lia|].
    rewrite (forallb_iff _ (documented_court (fu_facility_id v))) by apply court_ok_spec.
    split; [intros; exists v, cs; split_and!; try done; lia|].
    intros (x & cs' & [= <-] & _ & E' & _ & F). simplify_eq. done.
  - apply not_true_iff_false in V. rewrite ValidString_text in V.
    split; [done|]. intros (x & cs' & [= <-] & V' & _). done.
Qed.

Lemma ValidateEquipment_spec t :
  ValidateEquipment t = true <-> documented_domain (D_EquipmentUpdate t).
Proof.
  unfold ValidateEquipment. destruct t as [v|]; simpl; [|naive_solver].
  destruct (ValidString _ _ _) eqn:V; simpl.
  - apply ValidString_text in V. destruct (eu_inventory v) as [cs|] eqn:E;
      [|split; [done|]; intros (x & cs' & [= <-] & _ & E' & _); congruence].
    split_if; [split; [done|]; intros (x & cs' & [= <-] & _ & E' & ? & _); simplify_eq; lia|].
    rewrite (forallb_iff _ (documented_item (eu_facility_id v))) by apply item_ok_spec.
    split; [intros; exists v, cs; split_and!; try done; lia|].
    intros (x & cs' & [= <-] & _ & E' & _ & F). simplify_eq. done.
  - apply not_true_iff_false in V. rewrite ValidString_text in V.
    split; [done|]. intros (x & cs' & [= <-] & V' & _). done.
Qed.

(** C31. Published payloads are validated as documented: [ValidateDomain] accepts
    exactly a publish with a room name of 1 to 160 bytes and a payload that
    satisfies the documented rules of its type (lengths, different teams,
    matching facility ids, counts within the inventory, booking intervals). *)
Theorem validate_domain_documented publish :
  ValidateDomain publish = true <->
  exists p, publish = Some p /\ text 1 160 (pb_room p) /\ documented_domain (pb_message p).
Proof.
  unfold ValidateDomain. destruct publish as [p|]; [|naive_solver].
  destruct (ValidString (pb_room p) _ _) eqn:R; simpl.
  2: { apply not_true_iff_false in R. rewrite ValidString_text in R. naive_solver. }
  apply ValidString_text in R.
  assert (H : (if negb (message_present (pb_message p)) then false else
    match pb_message p with
    | D_MatchInfo t => ValidateMatchInfo t
    | D_MatchScoreUpdate t => ValidateMatchScore t
    | D_FacilityUpdate t => ValidateFacility t
    | D_EquipmentUpdate t => ValidateEquipment t
    | D_BookingNotification t => ValidateBooking t
    | D_SystemAlert t => ValidateAlert t
    | D_NONE | D_Unknown _ _ => false
    end) = true <-> documented_domain (pb_message p)).
  { destruct (pb_message p) as [|t|t|t|t|t|t|type present]; [done|..|by destruct present];
      try rewrite <-ValidateFacility_spec; try rewrite <-ValidateEquipment_spec;
      destruct t as [v|]; simpl; try done; try naive_solver.
    - rewrite !andb_true_iff, !ValidString_text, negb_true_iff, bool_decide_eq_false. naive_solver.
    - rewrite !andb_true_iff, optional_spec, !ValidString_text. naive_solver.
    - rewrite !andb_true_iff, optional_spec, !ValidString_text, Z.ltb_lt. naive_solver.
    - rewrite ValidString_text. naive_solver. }
  rewrite H. naive_solver.
Qed.

(** ** Re-authentication *)

(** A subscription outlives the principal that was allowed to make it: with
    the default policy, a session that authenticates as [a], joins
    [booking:user:a] and authenticates again as [b] is still subscribed to the
    room of [a], so it keeps receiving what is published there, although as [b]
    it may neither join nor publish there. *)
Theorem reauthentication_keeps_rooms verify get finish f s ta tb a b ma mj mb :
  (forall m, m ∈ [ma; mj; mb] -> verify m = true /\ protocol_version (get m) = 1) ->
  f ta = Some a -> f tb = Some b -> a <> b ->
  1 <= size_of ta <= 4096 -> 1 <= size_of tb <= 4096 ->
  IsValidRoom (BookingPrefix ++ a) = true ->
  payload (get ma) = P_Authenticate (Some (Some ta)) ->
  payload (get mj) = P_JoinRoom (Some (Some (BookingPrefix ++ a))) ->
  payload (get mb) = P_Authenticate (Some (Some tb)) ->
  let r := after verify get finish (Some f) None
             [CallHandle 0 s ma; CallHandle 0 s mj; CallHandle 0 s mb] in
  Principal s r = Some b /\ subscribed (rooms_ r) s (BookingPrefix ++ a) /\
  AuthorizeRoom None r s (BookingPrefix ++ a) false = false /\
  AuthorizeRoom None r s (BookingPrefix ++ a) true = false.
Proof.
  intros Hm Fa Fb Hab La Lb Va Pa Pj Pb. unfold after. cbn [foldl run_call].
  assert (V : forall t, 1 <= size_of t <= 4096 -> ValidString (Some t) MaxTextLength false = true)
    by (intros; apply ValidString_text; eexists; done).
  assert (A : forall m t p r, m ∈ [ma; mj; mb] -> payload (get m) = P_Authenticate (Some (Some t)) ->
    1 <= size_of t <= 4096 -> f t = Some p ->
    (Handle verify get finish (Some f) None 0 s m r).2 =
      mkRouter (rooms_ r) (<[s := p]> (principals_ r)) (server_sequence_ r + 1)%u64).
  { intros m t p r Hin P L F. destruct (Hm m Hin) as [H1 H2]. unfold Handle.
    rewrite H1, H2, P. cbn [negb Z.eqb Pos.eqb payload_null]. rewrite bool_decide_eq_true_2 by done.
    cbn [negb]. unfold HandleAuthenticate. rewrite (V t L). cbn [negb]. rewrite F. done. }
  rewrite (A ma ta a) by (done || set_solver).
  set (r1 := mkRouter _ _ _).
  assert (VR : ValidString (Some (BookingPrefix ++ a)) MaxIdentifierLength false = true).
  { unfold IsValidRoom in Va. split_if_in Va; [done|]. apply ValidString_text.
    eexists. split; [done|]. unfold MaxIdentifierLength.
    pose proof (size_nonneg (BookingPrefix ++ a)). lia. }
  assert (J : exists r2, (Handle verify get finish (Some f) None 0 s mj r1).2 = r2 /\
    subscribed (rooms_ r2) s (BookingPrefix ++ a)).
  { eexists. split; [done|]. destruct (Hm mj) as [H1 H2]; [set_solver|]. unfold Handle.
    rewrite H1, H2, Pj. cbn [negb Z.eqb Pos.eqb payload_null].
    rewrite bool_decide_eq_true_2 by done. cbn [negb]. unfold HandleJoin, IsAuthenticated.
    assert (P1 : Principal s r1 = Some a) by (unfold Principal, r1; simpl; apply lookup_insert_eq).
    rewrite bool_decide_eq_true_2 by (rewrite P1; done). cbn [negb]. rewrite VR. cbn [negb].
    pose proof (Join_refines (Some (AuthorizeRoom None r1)) s (BookingPrefix ++ a) (rooms_ r1)
      registry_construct_wf) as JR.
    destruct (Join _ s _ (rooms_ r1)) as [res reg]. simpl.
    destruct JR as (_ & _ & _ & _ & OK & S). apply S. right. split; [|done].
    apply OK. split; [done|]. split.
    - unfold authorized, AuthorizeRoom. rewrite P1. unfold starts_with. rewrite take_app_length.
      rewrite bool_decide_eq_true_2 by done. rewrite drop_app_length. by apply bool_decide_eq_true_2.
    - intros (x & E & _). simpl in E. rewrite lookup_empty in E. done. }
  destruct J as (r2 & -> & S). rewrite (A mb tb b) by (done || set_solver).
  assert (P3 : forall rooms ps n, Principal s (mkRouter rooms (<[s := b]> ps) n) = Some b)
    by (intros; unfold Principal; simpl; apply lookup_insert_eq).
  rewrite P3. split_and!; [done|done|..]; unfold AuthorizeRoom; rewrite P3;
    unfold starts_with; rewrite take_app_length, bool_decide_eq_true_2, drop_app_length by done;
    by apply bool_decide_eq_false_2.
Qed.

Lemma reauthentication_keeps_rooms_witness :
  let get (m : list byte) := mkMessage 1 7 0 0
    (if bool_decide (m = bstr "1") then P_Authenticate (Some (Some (bstr "alice-token")))
     else if bool_decide (m = bstr "2") then P_JoinRoom (Some (Some (bstr "booking:user:alice")))
     else P_Authenticate (Some (Some (bstr "bob-token")))) in
  let f (t : list byte) := if bool_decide (t = bstr "alice-token") then Some (bstr "alice")
                           else Some (bstr "bob") in
  let s := mkHandle 1 1 in
  let r := after (fun _ => true) get (fun _ => []) (Some f) None
    [CallHandle 0 s (bstr "1"); CallHandle 0 s (bstr "2"); CallHandle 0 s (bstr "3")] in
  Principal s r = Some (bstr "bob") /\ subscribed (rooms_ r) s (bstr "booking:user:alice").
Proof.
  intros get f s.
  destruct (reauthentication_keeps_rooms (fun _ => true) get (fun _ => []) f s
    (bstr "alice-token") (bstr "bob-token") (bstr "alice") (bstr "bob")
    (bstr "1") (bstr "2") (bstr "3")) as (P & S & _);
    try reflexivity; try done; try (vm_compute; split; congruence).
Defined.
