(* ===== verification/SessionRegistry.v ===== *)
(** * [ShardedSessionRegistry] (src/src/core/iocp_server.cpp)

    The registry of live sessions: 32 maps, a session in the one its id selects.
    [SessionTable] is what the server relies on, stated against one flat map;
    the sharded registry is an instance. *)

From S2P Require Import Prelude SessionHandle.

(** The interface: a table of values that carry their handle. *)
Class SessionTable (V T : Type) (handle_of : V -> SessionHandle) := {
  table_empty : T;
  table_insert : SessionHandle -> V -> T -> T;
  table_find : SessionHandle -> T -> option V;
  table_remove : SessionHandle -> T -> T;
  table_snapshot : T -> list V;
  (** [represents t m]: the table [t] holds exactly the map [m]. *)
  represents : T -> gmap Z V -> Prop;
  represents_empty : represents table_empty ∅;
  represents_insert t m h v :
    represents t m -> represents (table_insert h v t) (<[id h := v]> m);
  represents_find t m h :
    represents t m ->
    table_find h t =
      match m !! id h with
      | Some v => if generation (handle_of v) =? generation h then Some v else None
      | None => None
      end;
  represents_remove t m h :
    represents t m ->
    represents (table_remove h t)
      (match m !! id h with
       | Some v => if generation (handle_of v) =? generation h then delete (id h) m else m
       | None => m
       end);
  represents_snapshot t m :
    represents t m -> table_snapshot t ≡ₚ (map_to_list m).*2;
}.

Definition ShardCount : Z := 32.

Section sharded.
Context {V : Type} (handle_of : V -> SessionHandle).

(** [std::array<Shard, ShardCount>] is a list of maps. *)
Definition shard_of (h : Z) : nat := Z.to_nat (h mod ShardCount).

Definition empty_registry : list (gmap Z V) := replicate 32 ∅.

Definition Insert (handle : SessionHandle) (value : V) (shards : list (gmap Z V)) : list (gmap Z V) :=
  alter (fun values => <[id handle := value]> values) (shard_of (id handle)) shards.

Definition Find (handle : SessionHandle) (shards : list (gmap Z V)) : option V :=
  values ← shards !! shard_of (id handle);
  match values !! id handle with
  | None => None
  | Some it =>
      if negb (generation (handle_of it) =? generation handle) then None else Some it
  end.

Definition Remove (handle : SessionHandle) (shards : list (gmap Z V)) : list (gmap Z V) :=
  alter (fun values =>
    match values !! id handle with
    | None => values
    | Some it =>
        if generation (handle_of it) =? generation handle
        then delete (id handle) values else values
    end) (shard_of (id handle)) shards.

(** The order inside an [unordered_map] is unspecified; [map_to_list] picks one. *)
Definition Snapshot (shards : list (gmap Z V)) : list V :=
  concat (map (fun values => (map_to_list values).*2) shards).

(** ** The flat map behind the shards *)

Record holds (shards : list (gmap Z V)) (m : gmap Z V) : Prop := {
  holds_count : length shards = 32%nat;
  holds_lookup : forall i values k v, shards !! i = Some values ->
    (values !! k = Some v <-> m !! k = Some v /\ shard_of k = i);
}.

Lemma shard_of_bound k : (shard_of k < 32)%nat.
Proof. unfold shard_of, ShardCount. pose proof (Z.mod_pos_bound k 32). lia. Qed.

Lemma holds_shard shards m k :
  holds shards m -> exists values, shards !! shard_of k = Some values /\ values !! k = m !! k.
Proof.
  intros [C L]. destruct (lookup_lt_is_Some_2 shards (shard_of k)) as [values E];
    [rewrite C; apply shard_of_bound|].
  exists values. split; [done|]. apply option_eq. intros v. rewrite (L _ _ _ _ E). naive_solver.
Qed.

(** Updating one key of its shard is updating the flat map. *)
Lemma holds_update shards m k (f : gmap Z V -> gmap Z V) (o : option V) :
  holds shards m ->
  (forall values, values !! k = m !! k ->
     f values !! k = o /\ forall k', k' <> k -> f values !! k' = values !! k') ->
  holds (alter f (shard_of k) shards) (partial_alter (fun _ => o) k m).
Proof.
  intros H Hf. pose proof H as [C L]. constructor; [by rewrite length_alter|].
  intros i values' k' v.
  destruct (holds_shard _ _ k H) as (values & E & Ek). destruct (Hf values Ek) as [F1 F2].
  destruct (decide (i = shard_of k)) as [->|Hi].
  - rewrite list_lookup_alter_eq, E. simpl. intros [= <-].
    destruct (decide (k' = k)) as [->|Hk].
    + rewrite F1, lookup_partial_alter_eq. naive_solver.
    + rewrite F2, lookup_partial_alter_ne by congruence. apply (L _ _ _ _ E).
  - rewrite list_lookup_alter_ne by done. intros E'.
    destruct (decide (k' = k)) as [->|Hk].
    + rewrite (L _ _ _ _ E'), lookup_partial_alter_eq. naive_solver.
    + rewrite lookup_partial_alter_ne by congruence. apply (L _ _ _ _ E').
Qed.

Lemma empty_holds : holds empty_registry ∅.
Proof.
  constructor; [done|]. intros i values k v H. apply lookup_replicate in H as [-> _].
  rewrite !lookup_empty. naive_solver.
Qed.

Lemma Insert_holds shards m h v :
  holds shards m -> holds (Insert h v shards) (<[id h := v]> m).
Proof.
  intros H. apply (holds_update shards m (id h) _ (Some v) H). intros values _. split.
  - apply lookup_insert_eq.
  - intros k' Hk. by apply lookup_insert_ne.
Qed.

Lemma Find_holds shards m h :
  holds shards m ->
  Find h shards = match m !! id h with
                  | Some v => if generation (handle_of v) =? generation h then Some v else None
                  | None => None
                  end.
Proof.
  intros H. unfold Find. destruct (holds_shard _ _ (id h) H) as (values & -> & E). simpl.
  rewrite E. destruct (m !! id h) as [v|]; [|done].
  destruct (generation (handle_of v) =? generation h); done.
Qed.

Lemma Remove_holds shards m h :
  holds shards m ->
  holds (Remove h shards)
    (match m !! id h with
     | Some v => if generation (handle_of v) =? generation h then delete (id h) m else m
     | None => m
     end).
Proof.
  intros H.
  set (o := match m !! id h with
            | Some v => if generation (handle_of v) =? generation h then None else Some v
            | None => None
            end).
  assert (E : match m !! id h with
     | Some v => if generation (handle_of v) =? generation h then delete (id h) m else m
     | None => m
     end = partial_alter (fun _ => o) (id h) m).
  { apply map_eq. intros k. destruct (decide (k = id h)) as [->|Hk].
    - rewrite lookup_partial_alter_eq. unfold o. destruct (m !! id h) as [v|] eqn:Em; [|done].
      destruct (generation (handle_of v) =? generation h); [apply lookup_delete_eq|done].
    - rewrite lookup_partial_alter_ne by done. destruct (m !! id h) as [v|]; [|done].
      destruct (generation (handle_of v) =? generation h); [by apply lookup_delete_ne|done]. }
  rewrite E. unfold Remove. apply holds_update; [done|]. intros values Ev. rewrite Ev. unfold o.
  destruct (m !! id h) as [v|] eqn:Em; [|done].
  destruct (generation (handle_of v) =? generation h); [|done].
  split; [apply lookup_delete_eq|]. intros k' Hk. by apply lookup_delete_ne.
Qed.

Lemma Snapshot_holds shards m : holds shards m -> Snapshot shards ≡ₚ (map_to_list m).*2.
Proof.
  intros [C L]. unfold Snapshot.
  assert (E : concat (map (fun values => (map_to_list values).*2) shards) =
              (concat (map map_to_list shards)).*2).
  { clear. induction shards as [|x l IH]; simpl; [done|]. rewrite fmap_app, IH. done. }
  rewrite E. apply fmap_Permutation, NoDup_Permutation; [|apply NoDup_map_to_list|].
  - assert (D : forall i j x y k, shards !! i = Some x -> shards !! j = Some y ->
      is_Some (x !! k) -> is_Some (y !! k) -> i = j).
    { intros i j x y k Hi Hj [a Ha] [b Hb].
      apply (L _ _ _ _ Hi) in Ha as [_ Ha]. apply (L _ _ _ _ Hj) in Hb as [_ Hb]. congruence. }
    clear C L E. induction shards as [|x l IH]; simpl; [constructor|].
    apply NoDup_app. split; [apply NoDup_map_to_list|]. split.
    + intros [k v] Hx Hl. apply elem_of_map_to_list in Hx.
      apply list_elem_of_In, in_concat in Hl as (l' & Hl & Hin).
      apply in_map_iff in Hl as (y & <- & Hy). apply list_elem_of_In, elem_of_map_to_list in Hin.
      apply list_elem_of_In, list_elem_of_lookup in Hy as [j Hy].
      assert (0 = S j)%nat; [|lia]. eapply (D 0%nat (S j) x y k); try done; eauto.
    + apply IH. intros i j y z k Hi Hj Hy Hz.
      assert (S i = S j); [|lia]. by eapply (D (S i) (S j) y z k).
  - intros [k v]. rewrite elem_of_map_to_list. split.
    + intros Hin. apply list_elem_of_In, in_concat in Hin as (l' & Hl & Hin).
      apply in_map_iff in Hl as (y & <- & Hy). apply list_elem_of_In, elem_of_map_to_list in Hin.
      apply list_elem_of_In, list_elem_of_lookup in Hy as [j Hy]. by apply (L _ _ _ _ Hy) in Hin as [? _].
    + intros Hm. destruct (lookup_lt_is_Some_2 shards (shard_of k)) as [values Ev];
        [rewrite C; apply shard_of_bound|].
      apply list_elem_of_In, in_concat. exists (map_to_list values). split.
      * apply in_map. apply list_elem_of_In. by eapply list_elem_of_lookup_2.
      * apply list_elem_of_In, elem_of_map_to_list. by apply (L _ _ _ _ Ev).
Qed.

(** The sharded registry keeps the promises of a session table. *)
#[export] Instance sharded_table : SessionTable V (list (gmap Z V)) handle_of := {|
  table_empty := empty_registry;
  table_insert := Insert;
  table_find := Find;
  table_remove := Remove;
  table_snapshot := Snapshot;
  represents := holds;
  represents_empty := empty_holds;
  represents_insert := Insert_holds;
  represents_find := Find_holds;
  represents_remove := Remove_holds;
  represents_snapshot := Snapshot_holds;
|}.
End sharded.

(** ** The registry over its calls *)

Section calls.
Context {V : Type} (handle_of : V -> SessionHandle).

Inductive table_call := CallInsert (h : SessionHandle) (v : V) | CallRemove (h : SessionHandle).

Definition run_table (shards : list (gmap Z V)) (c : table_call) : list (gmap Z V) :=
  match c with
  | CallInsert h v => Insert h v shards
  | CallRemove h => Remove handle_of h shards
  end.

(** The reference: one map from ids to values. *)
Definition run_map (m : gmap Z V) (c : table_call) : gmap Z V :=
  match c with
  | CallInsert h v => <[id h := v]> m
  | CallRemove h =>
      match m !! id h with
      | Some v => if generation (handle_of v) =? generation h then delete (id h) m else m
      | None => m
      end
  end.

Lemma run_holds calls shards m :
  holds shards m -> holds (foldl run_table shards calls) (foldl run_map m calls).
Proof.
  revert shards m. induction calls as [|[h v|h] calls IH]; intros shards m H; simpl; [done| |].
  - by apply IH, (Insert_holds handle_of).
  - by apply IH, Remove_holds.
Qed.

(** C29. Sharding is invisible: after any calls of [Insert] and [Remove] the 32
    shards answer like one map from ids to sessions. [Find] returns the session
    of that id exactly when its generation is the handle's, so a stale handle
    of a reused id finds and removes nothing, and [Snapshot] lists every
    session exactly once. *)
Theorem session_registry_refines calls :
  let shards := foldl run_table empty_registry calls in
  let m := foldl run_map ∅ calls in
  (forall h, Find handle_of h shards =
     match m !! id h with
     | Some v => if generation (handle_of v) =? generation h then Some v else None
     | None => None
     end) /\
  Snapshot shards ≡ₚ (map_to_list m).*2 /\
  (forall h v, m !! id h = Some v -> generation (handle_of v) <> generation h ->
     foldl run_map ∅ (calls ++ [CallRemove h]) = m).
Proof.
  cbv zeta. pose proof (run_holds calls _ _ (empty_holds handle_of)) as H.
  split_and!.
  - intros h. by apply Find_holds.
  - by apply Snapshot_holds.
  - intros h v E G. rewrite foldl_app. simpl. rewrite E, (proj2 (Z.eqb_neq _ _)) by done. done.
Qed.
End calls.
