(* ===== verification/Affinity.v ===== *)
(** * The processors of the workers (src/src/core/iocp_server.cpp, [WorkerLoop])

    The processor group and mask that worker [worker_index] asks for when
    thread affinity is enabled.  The groups of the machine and the processors
    of each are arguments: they are what the system answers. *)

From S2P Require Import Prelude.

Section affinity.
Context (GetActiveProcessorGroupCount : Z) (GetActiveProcessorCount : Z -> Z).
#[local] Abbreviation groups := GetActiveProcessorGroupCount.
#[local] Abbreviation count := GetActiveProcessorCount.

(** The [while] loop; [fuel] is the number of groups. *)
Fixpoint find_group (fuel : nat) (group local_index : Z) : Z * Z :=
  match fuel with
  | O => (group, local_index)
  | S fuel =>
      if negb (group <? groups) then (group, local_index) else
      if local_index <? count group then (group, local_index) else
      find_group fuel (u16 (group + 1)) (local_index - count group)%u64
  end.

(** The [GROUP_AFFINITY] set for the thread, if any: group and mask. *)
Definition WorkerAffinity (enable_thread_affinity : bool) (worker_index : Z) : option (Z * Z) :=
  if negb enable_thread_affinity || (groups =? 0) then None else
  let '(group, local_index) := find_group (Z.to_nat groups) 0 worker_index in
  if (group <? groups) && (local_index <? 64)
  then Some (group, u64 (Z.shiftl 1 local_index)) else None.

(** The processors of the groups before [group]. *)
Fixpoint before (group : nat) : Z :=
  match group with O => 0 | S g => before g + count (Z.of_nat g) end.

Context (Hg : 0 <= groups <= 65535) (Hn : forall g, 0 <= count g).

Lemma before_mono g h : (g <= h)%nat -> before g <= before h.
Proof. induction 1 as [|h _ IH]; [lia|]. simpl. pose proof (Hn (Z.of_nat h)). lia. Qed.

(** Group and index of a processor are unique. *)
Lemma before_unique g h i j :
  before g + i = before h + j -> 0 <= i < count (Z.of_nat g) -> 0 <= j < count (Z.of_nat h) -> g = h /\ i = j.
Proof.
  intros E Bi Bj. destruct (lt_eq_lt_dec g h) as [[L| ->]|L]; [|split; [done|lia]|].
  - pose proof (before_mono (S g) h L) as M. simpl in M. lia.
  - pose proof (before_mono (S h) g L) as M. simpl in M. lia.
Qed.

Lemma find_group_spec fuel g local :
  Z.of_nat fuel + Z.of_nat g = groups -> is_u64 local ->
  let '(group, l) := find_group fuel (Z.of_nat g) local in
  exists k, group = Z.of_nat k /\ (g <= k)%nat /\ Z.of_nat k <= groups /\ 0 <= l /\
    before g + local = before k + l /\ (Z.of_nat k < groups -> l < count group).
Proof.
  revert g local. induction fuel as [|fuel IH]; intros g local Hf U; simpl.
  - exists g. unfold is_u64 in U. split_and!; [done|lia..|reflexivity|lia].
  - unfold is_u64 in U. split_if; [lia|]. split_if; [exists g; split_and!; [done|lia..|reflexivity|lia]|].
    pose proof (Hn (Z.of_nat g)). rewrite usub_small by lia. unfold u16. rewrite Z.mod_small by lia.
    replace (Z.of_nat g + 1) with (Z.of_nat (S g)) by lia.
    pose proof (IH (S g) (local - count (Z.of_nat g)) ltac:(lia) ltac:(unfold is_u64, size_max in *; lia)) as G.
    destruct (find_group _ _ _) as [group l]. destruct G as (k & -> & L & Lk & L0 & E & Lt).
    exists k. simpl in E. split_and!; [done|lia..].
Qed.

(** With affinity enabled every worker gets its own processor: worker [i] is
    bound to processor [l] of group [g] where [i] is the number of processors in
    the groups before plus [l], so no two workers share one; a worker is left
    unbound only when the machine has no such processor or its number in the
    group does not fit the 64 bits of the mask. *)
Theorem worker_affinity i :
  is_u64 i ->
  match WorkerAffinity true i with
  | Some (group, mask) => exists g l, group = Z.of_nat g /\ group < groups /\ mask = Z.shiftl 1 l /\
      0 <= l < 64 /\ l < count group /\ i = before g + l /\
      forall j, is_u64 j -> WorkerAffinity true j = Some (group, mask) -> j = i
  | None => before (Z.to_nat groups) <= i \/
      exists g l, Z.of_nat g < groups /\ i = before g + l /\ 64 <= l < count (Z.of_nat g)
  end.
Proof.
  assert (G : forall j, is_u64 j ->
    match WorkerAffinity true j with
    | Some (group, mask) => exists g l, group = Z.of_nat g /\ group < groups /\ mask = Z.shiftl 1 l /\
        0 <= l < 64 /\ l < count group /\ j = before g + l
    | None => before (Z.to_nat groups) <= j \/
        exists g l, Z.of_nat g < groups /\ j = before g + l /\ 64 <= l < count (Z.of_nat g)
    end).
  { intros j U. unfold WorkerAffinity. simpl. split_if; [left; rewrite Hif; unfold is_u64 in U; simpl; lia|].
    pose proof (find_group_spec (Z.to_nat groups) 0 j ltac:(lia) U) as S. simpl in S.
    destruct (find_group _ _ _) as [group l]. destruct S as (k & -> & _ & Lk & L0 & E & Lt).
    destruct (Z.of_nat k <? groups) eqn:C1; simpl; prop_of C1.
    2: { left. replace (Z.to_nat groups) with k by lia. lia. }
    specialize (Lt C1). destruct (l <? 64) eqn:C2; prop_of C2; [|right; exists k, l; split_and!; [done|lia..]].
    exists k, l. split_and!; [done|done| |lia..].
    rewrite Z.shiftl_1_l. apply u64_small. pose proof (Z.pow_nonneg 2 l ltac:(lia)).
    pose proof (Z.pow_le_mono_r 2 l 63 ltac:(lia) ltac:(lia)) as B.
    change (2 ^ 63) with 9223372036854775808 in B. unfold is_u64, size_max. lia. }
  intros U. pose proof (G i U) as Gi. destruct (WorkerAffinity true i) as [[group mask]|] eqn:Ei; [|done].
  destruct Gi as (g & l & -> & Lg & -> & L & Lc & ->). exists g, l. split_and!; try done; [lia..|].
  intros j Uj Ej. pose proof (G j Uj) as Gj. rewrite Ej in Gj.
  destruct Gj as (h & m & Eg & _ & Em & Lm & Lcm & ->). apply Nat2Z.inj in Eg as <-. f_equal.
  rewrite !Z.shiftl_1_l in Em. symmetry. apply (Z.pow_inj_r 2); [lia|lia|lia|done].
Qed.
End affinity.

(** Worker 5 of a machine with two groups of four processors. *)
Lemma worker_affinity_witness :
  WorkerAffinity 2 (fun _ => 4) true 5 = Some (1, 2) /\
  forall j, is_u64 j -> WorkerAffinity 2 (fun _ => 4) true j = Some (1, 2) -> j = 5.
Proof.
  split; [reflexivity|].
  destruct (worker_affinity 2 (fun _ => 4) ltac:(lia) ltac:(intros; lia) 5 ltac:(unfold is_u64, size_max; lia))
    as (g & l & _ & _ & _ & _ & _ & _ & G).
  exact G.
Defined.
