(* ===== verification/Owners.v ===== *)
(** * Owners of handles and sockets (src/src/core/iocp_server.cpp, [UniqueSocket], [UniqueHandle])

    The objects of a scope, each with the value it owns or none.  What an object
    closes and what it gives away is logged. *)

From S2P Require Import Prelude.

(** [owners] is the objects alive; [INVALID_SOCKET] and [nullptr] are [None]. *)
Record scope := mkScope {
  owners : gmap nat (option Z);
  closed : list Z;
  released : list Z;
}.

Definition empty_scope : scope := mkScope ∅ [] [].

(** The members of both classes; [UniqueHandle] has all but the moves. *)
Inductive use :=
| Construct (x : nat) (value : option Z)  (** [UniqueSocket x(value)], or [UniqueSocket x] *)
| MoveConstruct (x y : nat)               (** [UniqueSocket x(std::move(y))] *)
| MoveAssign (x y : nat)                  (** [x = std::move(y)] *)
| Reset (x : nat) (value : option Z)
| Release (x : nat)
| Destroy (x : nat).

Definition set_owner (x : nat) (value : option Z) (s : scope) : scope :=
  mkScope (<[x := value]> (owners s)) (closed s) (released s).

(** [Reset(value)] of an object that owns [old]. *)
Definition reset_owner (x : nat) (old value : option Z) (s : scope) : scope :=
  mkScope (<[x := value]> (owners s)) (from_option (fun v => v :: closed s) (closed s) old) (released s).

(** [None]: an object that is not alive is used, or one that is alive made again. *)
Definition do_use (u : use) (s : scope) : option scope :=
  match u with
  | Construct x value =>
      match owners s !! x with Some _ => None | None => Some (set_owner x value s) end
  | MoveConstruct x y =>
      match owners s !! x, owners s !! y with
      | None, Some value => Some (set_owner x value (set_owner y None s))
      | _, _ => None
      end
  | MoveAssign x y =>
      match owners s !! x, owners s !! y with
      | Some old, Some value =>
          Some (if decide (x = y) then s else reset_owner x old value (set_owner y None s))
      | _, _ => None
      end
  | Reset x value => old ← owners s !! x; Some (reset_owner x old value s)
  | Release x =>
      old ← owners s !! x;
      Some (mkScope (<[x := None]> (owners s)) (closed s) (option_list old ++ released s))
  | Destroy x =>
      old ← owners s !! x;
      let s := reset_owner x old None s in
      Some (mkScope (delete x (owners s)) (closed s) (released s))
  end.

Fixpoint do_uses (us : list use) (s : scope) : option scope :=
  match us with
  | [] => Some s
  | u :: us => s ← do_use u s; do_uses us s
  end.

(** The values given to objects. *)
Definition given (u : use) : list Z :=
  match u with Construct _ value | Reset _ value => option_list value | _ => [] end.

(** The values objects own. *)
Definition held (m : gmap nat (option Z)) : list Z := map_to_list m ≫= fun p => option_list p.2.

Definition accounted (s : scope) : list Z := held (owners s) ++ closed s ++ released s.

Lemma held_insert x value m :
  m !! x = None -> held (<[x := value]> m) ≡ₚ option_list value ++ held m.
Proof.
  intros H. unfold held. rewrite (map_to_list_insert m x value H). done.
Qed.

Lemma held_split x old m : m !! x = Some old -> held m ≡ₚ option_list old ++ held (delete x m).
Proof.
  intros H. rewrite <-(insert_delete_id m x old H) at 1. apply held_insert, lookup_delete_eq.
Qed.

Lemma held_update x value m : held (<[x := value]> m) ≡ₚ option_list value ++ held (delete x m).
Proof. rewrite <-insert_delete_eq. apply held_insert, lookup_delete_eq. Qed.

Lemma reset_accounted x old value s :
  owners s !! x = Some old -> accounted (reset_owner x old value s) ≡ₚ option_list value ++ accounted s.
Proof.
  intros H. unfold accounted. simpl. rewrite held_update, (held_split x old (owners s) H).
  destruct old as [v|]; simpl; [|by rewrite <-app_assoc].
  rewrite <-!app_assoc. f_equiv. simpl. symmetry. apply Permutation_middle.
Qed.

Lemma use_accounted u s s' : do_use u s = Some s' -> accounted s' ≡ₚ given u ++ accounted s.
Proof.
  destruct u as [x value|x y|x y|x value|x|x]; simpl.
  - destruct (owners s !! x) eqn:H; [done|]. intros [= <-]. unfold accounted. simpl.
    by rewrite held_insert, <-app_assoc.
  - destruct (owners s !! x) eqn:Hx; [done|]. destruct (owners s !! y) as [value|] eqn:Hy; [|done]. intros [= <-].
    unfold accounted. simpl. assert (x <> y) by congruence.
    rewrite held_insert by (by rewrite lookup_insert_ne). rewrite held_update, (held_split y value (owners s) Hy). done.
  - destruct (owners s !! x) as [old|] eqn:Hx; [|done]. destruct (owners s !! y) as [value|] eqn:Hy; [|done].
    intros [= <-]. case_decide as D; [done|].
    rewrite (reset_accounted x old value) by (simpl; by rewrite lookup_insert_ne).
    unfold accounted. simpl. rewrite held_update, (held_split y value (owners s) Hy). simpl. by rewrite <-!app_assoc.
  - destruct (owners s !! x) as [old|] eqn:Hx; [|done]. intros [= <-]. by apply reset_accounted.
  - destruct (owners s !! x) as [old|] eqn:Hx; [|done]. intros [= <-]. unfold accounted. simpl.
    rewrite held_update, (held_split x old (owners s) Hx). simpl. rewrite <-!app_assoc.
    rewrite (Permutation_app_swap_app (closed s) (option_list old)). apply Permutation_app_swap_app.
  - destruct (owners s !! x) as [old|] eqn:Hx; [|done]. intros [= <-].
    pose proof (reset_accounted x old None s Hx) as R. unfold accounted in *. simpl in *.
    rewrite delete_insert_eq. rewrite held_update in R. simpl in R. exact R.
Qed.

(** Values are neither lost nor duplicated: after any use of the objects, each
    value that was given to one is owned by one object, or was closed once, or
    given away once. *)
Theorem owners_conserve us s :
  do_uses us empty_scope = Some s -> concat (map given us) ≡ₚ held (owners s) ++ closed s ++ released s.
Proof.
  assert (G : forall us s0 s, do_uses us s0 = Some s -> accounted s ≡ₚ concat (map given us) ++ accounted s0).
  { clear. induction us as [|u us IH]; intros s0 s E; simpl in E; [by simplify_eq|].
    destruct (do_use u s0) as [s1|] eqn:E1; [|done]. simpl in E.
    rewrite (IH s1 s E), (use_accounted u s0 s1 E1). simpl. rewrite !app_assoc. f_equiv. apply Permutation_app_comm. }
  intros E. rewrite <-(app_nil_r (concat _)). symmetry. apply (G us empty_scope s E).
Qed.

(** A socket moved, replaced and given away, and its owner destroyed. *)
Lemma owners_conserve_witness :
  exists s, do_uses [Construct 0 (Some 7); MoveConstruct 1 0; Reset 1 (Some 8); Release 1; Destroy 0; Destroy 1] empty_scope
      = Some s /\ [7; 8] ≡ₚ held (owners s) ++ closed s ++ released s /\ closed s = [7] /\ released s = [8].
Proof.
  eexists. split; [reflexivity|]. split; [|by split].
  apply (owners_conserve [Construct 0 (Some 7); MoveConstruct 1 0; Reset 1 (Some 8); Release 1; Destroy 0; Destroy 1]).
  reflexivity.
Defined.
