(* ===== verification/Server.v ===== *)
(** * The server: sessions and their outbound path (src/src/core/iocp_server.cpp)

    The state of [IocpServer::Impl] and the operations that touch a session's
    queue, its accounting and its life: [Enqueue], [StartNextWrite],
    [HandleWrite], [FinishWrite], [Disconnect], [UpdateInboundAccounting],
    [Send], [Close], [SendControl], [SendRaw].

    A [std::shared_ptr<ClientSession>] is the session's id, a key of [heap]: the
    object outlives its entry in the registry.  The operations outstanding at the
    completion port are [reads], [writes] and [accepts]; what the operating system or the
    allocator answers is the oracle [os], asked once per call.  Each handler runs
    to its end before the next one starts. *)

From S2P Require Import Prelude SessionHandle OutboundQueue SendCursor Framing.
From S2P Require Import WebSocketDecoder SessionRegistry ServerTypes.

Record OutboundItem := mkItem {
  item_header : list byte;    (** the first [header_size] bytes of the array *)
  item_payload : list byte;
  item_close_after : bool;
}.

Record ClientSession := mkSession {
  handle : SessionHandle;
  socket : bool;
  state : SessionState;
  transport : TransportKind;
  disconnect_started : bool;
  raw_decoder : LengthPrefixedAccumulator;
  websocket_decoder : WebSocketDecoder;
  detection_buffer : list byte;
  inbound_accounted : Z;
  malformed_messages : Z;
  connected_at_ms : Z;
  last_activity_ms : Z;
  last_pong_ms : Z;
  close_started_ms : Z;
  awaiting_pong : bool;
  rate_window_ms : Z;
  rate_window_messages : Z;
  send_queue : list OutboundItem;
  queued_bytes : Z;
  write_active : bool;
}.

Definition set_handle (v : SessionHandle) (x : ClientSession) : ClientSession :=
  mkSession v (socket x) (state x) (transport x) (disconnect_started x) (raw_decoder x)
    (websocket_decoder x) (detection_buffer x) (inbound_accounted x) (malformed_messages x)
    (connected_at_ms x) (last_activity_ms x) (last_pong_ms x) (close_started_ms x) (awaiting_pong
    x) (rate_window_ms x) (rate_window_messages x) (send_queue x) (queued_bytes x) (write_active
    x).
Definition set_socket (v : bool) (x : ClientSession) : ClientSession :=
  mkSession (handle x) v (state x) (transport x) (disconnect_started x) (raw_decoder x)
    (websocket_decoder x) (detection_buffer x) (inbound_accounted x) (malformed_messages x)
    (connected_at_ms x) (last_activity_ms x) (last_pong_ms x) (close_started_ms x) (awaiting_pong
    x) (rate_window_ms x) (rate_window_messages x) (send_queue x) (queued_bytes x) (write_active
    x).
Definition set_state (v : SessionState) (x : ClientSession) : ClientSession :=
  mkSession (handle x) (socket x) v (transport x) (disconnect_started x) (raw_decoder x)
    (websocket_decoder x) (detection_buffer x) (inbound_accounted x) (malformed_messages x)
    (connected_at_ms x) (last_activity_ms x) (last_pong_ms x) (close_started_ms x) (awaiting_pong
    x) (rate_window_ms x) (rate_window_messages x) (send_queue x) (queued_bytes x) (write_active
    x).
Definition set_transport (v : TransportKind) (x : ClientSession) : ClientSession :=
  mkSession (handle x) (socket x) (state x) v (disconnect_started x) (raw_decoder x)
    (websocket_decoder x) (detection_buffer x) (inbound_accounted x) (malformed_messages x)
    (connected_at_ms x) (last_activity_ms x) (last_pong_ms x) (close_started_ms x) (awaiting_pong
    x) (rate_window_ms x) (rate_window_messages x) (send_queue x) (queued_bytes x) (write_active
    x).
Definition set_disconnect_started (v : bool) (x : ClientSession) : ClientSession :=
  mkSession (handle x) (socket x) (state x) (transport x) v (raw_decoder x) (websocket_decoder x)
    (detection_buffer x) (inbound_accounted x) (malformed_messages x) (connected_at_ms x)
    (last_activity_ms x) (last_pong_ms x) (close_started_ms x) (awaiting_pong x) (rate_window_ms
    x) (rate_window_messages x) (send_queue x) (queued_bytes x) (write_active x).
Definition set_raw_decoder (v : LengthPrefixedAccumulator) (x : ClientSession) : ClientSession :=
  mkSession (handle x) (socket x) (state x) (transport x) (disconnect_started x) v
    (websocket_decoder x) (detection_buffer x) (inbound_accounted x) (malformed_messages x)
    (connected_at_ms x) (last_activity_ms x) (last_pong_ms x) (close_started_ms x) (awaiting_pong
    x) (rate_window_ms x) (rate_window_messages x) (send_queue x) (queued_bytes x) (write_active
    x).
Definition set_websocket_decoder (v : WebSocketDecoder) (x : ClientSession) : ClientSession :=
  mkSession (handle x) (socket x) (state x) (transport x) (disconnect_started x) (raw_decoder x) v
    (detection_buffer x) (inbound_accounted x) (malformed_messages x) (connected_at_ms x)
    (last_activity_ms x) (last_pong_ms x) (close_started_ms x) (awaiting_pong x) (rate_window_ms
    x) (rate_window_messages x) (send_queue x) (queued_bytes x) (write_active x).
Definition set_detection_buffer (v : list byte) (x : ClientSession) : ClientSession :=
  mkSession (handle x) (socket x) (state x) (transport x) (disconnect_started x) (raw_decoder x)
    (websocket_decoder x) v (inbound_accounted x) (malformed_messages x) (connected_at_ms x)
    (last_activity_ms x) (last_pong_ms x) (close_started_ms x) (awaiting_pong x) (rate_window_ms
    x) (rate_window_messages x) (send_queue x) (queued_bytes x) (write_active x).
Definition set_inbound_accounted (v : Z) (x : ClientSession) : ClientSession :=
  mkSession (handle x) (socket x) (state x) (transport x) (disconnect_started x) (raw_decoder x)
    (websocket_decoder x) (detection_buffer x) v (malformed_messages x) (connected_at_ms x)
    (last_activity_ms x) (last_pong_ms x) (close_started_ms x) (awaiting_pong x) (rate_window_ms
    x) (rate_window_messages x) (send_queue x) (queued_bytes x) (write_active x).
Definition set_malformed_messages (v : Z) (x : ClientSession) : ClientSession :=
  mkSession (handle x) (socket x) (state x) (transport x) (disconnect_started x) (raw_decoder x)
    (websocket_decoder x) (detection_buffer x) (inbound_accounted x) v (connected_at_ms x)
    (last_activity_ms x) (last_pong_ms x) (close_started_ms x) (awaiting_pong x) (rate_window_ms
    x) (rate_window_messages x) (send_queue x) (queued_bytes x) (write_active x).
Definition set_connected_at_ms (v : Z) (x : ClientSession) : ClientSession :=
  mkSession (handle x) (socket x) (state x) (transport x) (disconnect_started x) (raw_decoder x)
    (websocket_decoder x) (detection_buffer x) (inbound_accounted x) (malformed_messages x) v
    (last_activity_ms x) (last_pong_ms x) (close_started_ms x) (awaiting_pong x) (rate_window_ms
    x) (rate_window_messages x) (send_queue x) (queued_bytes x) (write_active x).
Definition set_last_activity_ms (v : Z) (x : ClientSession) : ClientSession :=
  mkSession (handle x) (socket x) (state x) (transport x) (disconnect_started x) (raw_decoder x)
    (websocket_decoder x) (detection_buffer x) (inbound_accounted x) (malformed_messages x)
    (connected_at_ms x) v (last_pong_ms x) (close_started_ms x) (awaiting_pong x) (rate_window_ms
    x) (rate_window_messages x) (send_queue x) (queued_bytes x) (write_active x).
Definition set_last_pong_ms (v : Z) (x : ClientSession) : ClientSession :=
  mkSession (handle x) (socket x) (state x) (transport x) (disconnect_started x) (raw_decoder x)
    (websocket_decoder x) (detection_buffer x) (inbound_accounted x) (malformed_messages x)
    (connected_at_ms x) (last_activity_ms x) v (close_started_ms x) (awaiting_pong x)
    (rate_window_ms x) (rate_window_messages x) (send_queue x) (queued_bytes x) (write_active x).
Definition set_close_started_ms (v : Z) (x : ClientSession) : ClientSession :=
  mkSession (handle x) (socket x) (state x) (transport x) (disconnect_started x) (raw_decoder x)
    (websocket_decoder x) (detection_buffer x) (inbound_accounted x) (malformed_messages x)
    (connected_at_ms x) (last_activity_ms x) (last_pong_ms x) v (awaiting_pong x) (rate_window_ms
    x) (rate_window_messages x) (send_queue x) (queued_bytes x) (write_active x).
Definition set_awaiting_pong (v : bool) (x : ClientSession) : ClientSession :=
  mkSession (handle x) (socket x) (state x) (transport x) (disconnect_started x) (raw_decoder x)
    (websocket_decoder x) (detection_buffer x) (inbound_accounted x) (malformed_messages x)
    (connected_at_ms x) (last_activity_ms x) (last_pong_ms x) (close_started_ms x) v
    (rate_window_ms x) (rate_window_messages x) (send_queue x) (queued_bytes x) (write_active x).
Definition set_rate_window_ms (v : Z) (x : ClientSession) : ClientSession :=
  mkSession (handle x) (socket x) (state x) (transport x) (disconnect_started x) (raw_decoder x)
    (websocket_decoder x) (detection_buffer x) (inbound_accounted x) (malformed_messages x)
    (connected_at_ms x) (last_activity_ms x) (last_pong_ms x) (close_started_ms x) (awaiting_pong
    x) v (rate_window_messages x) (send_queue x) (queued_bytes x) (write_active x).
Definition set_rate_window_messages (v : Z) (x : ClientSession) : ClientSession :=
  mkSession (handle x) (socket x) (state x) (transport x) (disconnect_started x) (raw_decoder x)
    (websocket_decoder x) (detection_buffer x) (inbound_accounted x) (malformed_messages x)
    (connected_at_ms x) (last_activity_ms x) (last_pong_ms x) (close_started_ms x) (awaiting_pong
    x) (rate_window_ms x) v (send_queue x) (queued_bytes x) (write_active x).
Definition set_send_queue (v : list OutboundItem) (x : ClientSession) : ClientSession :=
  mkSession (handle x) (socket x) (state x) (transport x) (disconnect_started x) (raw_decoder x)
    (websocket_decoder x) (detection_buffer x) (inbound_accounted x) (malformed_messages x)
    (connected_at_ms x) (last_activity_ms x) (last_pong_ms x) (close_started_ms x) (awaiting_pong
    x) (rate_window_ms x) (rate_window_messages x) v (queued_bytes x) (write_active x).
Definition set_queued_bytes (v : Z) (x : ClientSession) : ClientSession :=
  mkSession (handle x) (socket x) (state x) (transport x) (disconnect_started x) (raw_decoder x)
    (websocket_decoder x) (detection_buffer x) (inbound_accounted x) (malformed_messages x)
    (connected_at_ms x) (last_activity_ms x) (last_pong_ms x) (close_started_ms x) (awaiting_pong
    x) (rate_window_ms x) (rate_window_messages x) (send_queue x) v (write_active x).
Definition set_write_active (v : bool) (x : ClientSession) : ClientSession :=
  mkSession (handle x) (socket x) (state x) (transport x) (disconnect_started x) (raw_decoder x)
    (websocket_decoder x) (detection_buffer x) (inbound_accounted x) (malformed_messages x)
    (connected_at_ms x) (last_activity_ms x) (last_pong_ms x) (close_started_ms x) (awaiting_pong
    x) (rate_window_ms x) (rate_window_messages x) (send_queue x) (queued_bytes x) v.

(** [AtomicMetrics] *)
Record Metrics := mkMetrics {
  accepted_connections : Z;
  active_connections : Z;
  received_messages : Z;
  sent_messages : Z;
  malformed_total : Z;
  rejected_connections : Z;
  send_failures : Z;
  queued_total : Z;
  inbound_total : Z;
}.

Definition set_accepted_connections (v : Z) (x : Metrics) : Metrics :=
  mkMetrics v (active_connections x) (received_messages x) (sent_messages x) (malformed_total x)
    (rejected_connections x) (send_failures x) (queued_total x) (inbound_total x).
Definition set_active_connections (v : Z) (x : Metrics) : Metrics :=
  mkMetrics (accepted_connections x) v (received_messages x) (sent_messages x) (malformed_total x)
    (rejected_connections x) (send_failures x) (queued_total x) (inbound_total x).
Definition set_received_messages (v : Z) (x : Metrics) : Metrics :=
  mkMetrics (accepted_connections x) (active_connections x) v (sent_messages x) (malformed_total
    x) (rejected_connections x) (send_failures x) (queued_total x) (inbound_total x).
Definition set_sent_messages (v : Z) (x : Metrics) : Metrics :=
  mkMetrics (accepted_connections x) (active_connections x) (received_messages x) v
    (malformed_total x) (rejected_connections x) (send_failures x) (queued_total x) (inbound_total
    x).
Definition set_malformed_total (v : Z) (x : Metrics) : Metrics :=
  mkMetrics (accepted_connections x) (active_connections x) (received_messages x) (sent_messages
    x) v (rejected_connections x) (send_failures x) (queued_total x) (inbound_total x).
Definition set_rejected_connections (v : Z) (x : Metrics) : Metrics :=
  mkMetrics (accepted_connections x) (active_connections x) (received_messages x) (sent_messages
    x) (malformed_total x) v (send_failures x) (queued_total x) (inbound_total x).
Definition set_send_failures (v : Z) (x : Metrics) : Metrics :=
  mkMetrics (accepted_connections x) (active_connections x) (received_messages x) (sent_messages
    x) (malformed_total x) (rejected_connections x) v (queued_total x) (inbound_total x).
Definition set_queued_total (v : Z) (x : Metrics) : Metrics :=
  mkMetrics (accepted_connections x) (active_connections x) (received_messages x) (sent_messages
    x) (malformed_total x) (rejected_connections x) (send_failures x) v (inbound_total x).
Definition set_inbound_total (v : Z) (x : Metrics) : Metrics :=
  mkMetrics (accepted_connections x) (active_connections x) (received_messages x) (sent_messages
    x) (malformed_total x) (rejected_connections x) (send_failures x) (queued_total x) v.

Record WriteOperation := mkWrite {
  op_session : Z;
  op_cursor : SendCursor;
  op_close_after : bool;
}.

(** [header_size + payload->size()] *)
Definition item_bytes (item : OutboundItem) : Z :=
  (size_of (item_header item) + size_of (item_payload item))%u64.

Section server.
Context {St T : Type} `{App : Application St} `{Tab : SessionTable SessionHandle T (fun h => h)}.

Record Server := mkServer {
  sessions : T;
  heap : gmap Z ClientSession;
  reads : list Z;    (** the session of each outstanding read *)
  writes : list WriteOperation;
  accepts : nat;      (** how many accepts are outstanding *)
  metrics : Metrics;
  app : St;
  running : bool;
  next_session_id : Z;
  next_generation : Z;
  outstanding_operations : Z;
  ticks : nat;
}.

Definition set_sessions (v : T) (x : Server) : Server :=
  mkServer v (heap x) (reads x) (writes x) (accepts x) (metrics x) (app x) (running x)
    (next_session_id x) (next_generation x) (outstanding_operations x) (ticks x).
Definition set_heap (v : gmap Z ClientSession) (x : Server) : Server :=
  mkServer (sessions x) v (reads x) (writes x) (accepts x) (metrics x) (app x) (running x)
    (next_session_id x) (next_generation x) (outstanding_operations x) (ticks x).
Definition set_reads (v : list Z) (x : Server) : Server :=
  mkServer (sessions x) (heap x) v (writes x) (accepts x) (metrics x) (app x) (running x)
    (next_session_id x) (next_generation x) (outstanding_operations x) (ticks x).
Definition set_writes (v : list WriteOperation) (x : Server) : Server :=
  mkServer (sessions x) (heap x) (reads x) v (accepts x) (metrics x) (app x) (running x)
    (next_session_id x) (next_generation x) (outstanding_operations x) (ticks x).
Definition set_accepts (v : nat) (x : Server) : Server :=
  mkServer (sessions x) (heap x) (reads x) (writes x) v (metrics x) (app x) (running x)
    (next_session_id x) (next_generation x) (outstanding_operations x) (ticks x).
Definition set_metrics (v : Metrics) (x : Server) : Server :=
  mkServer (sessions x) (heap x) (reads x) (writes x) (accepts x) v (app x) (running x)
    (next_session_id x) (next_generation x) (outstanding_operations x) (ticks x).
Definition set_app (v : St) (x : Server) : Server :=
  mkServer (sessions x) (heap x) (reads x) (writes x) (accepts x) (metrics x) v (running x)
    (next_session_id x) (next_generation x) (outstanding_operations x) (ticks x).
Definition set_running (v : bool) (x : Server) : Server :=
  mkServer (sessions x) (heap x) (reads x) (writes x) (accepts x) (metrics x) (app x) v
    (next_session_id x) (next_generation x) (outstanding_operations x) (ticks x).
Definition set_next_session_id (v : Z) (x : Server) : Server :=
  mkServer (sessions x) (heap x) (reads x) (writes x) (accepts x) (metrics x) (app x) (running x)
    v (next_generation x) (outstanding_operations x) (ticks x).
Definition set_next_generation (v : Z) (x : Server) : Server :=
  mkServer (sessions x) (heap x) (reads x) (writes x) (accepts x) (metrics x) (app x) (running x)
    (next_session_id x) v (outstanding_operations x) (ticks x).
Definition set_outstanding_operations (v : Z) (x : Server) : Server :=
  mkServer (sessions x) (heap x) (reads x) (writes x) (accepts x) (metrics x) (app x) (running x)
    (next_session_id x) (next_generation x) v (ticks x).
Definition set_ticks (v : nat) (x : Server) : Server :=
  mkServer (sessions x) (heap x) (reads x) (writes x) (accepts x) (metrics x) (app x) (running x)
    (next_session_id x) (next_generation x) (outstanding_operations x) v.

Context (config : ServerConfig) (os : nat -> bool) (clock : nat -> Z).

(** One answer of the operating system, one reading of the clock. *)
Definition os_call (s : Server) : bool * Server := (os (ticks s), set_ticks (S (ticks s)) s).
Definition MonotonicMilliseconds (s : Server) : Z * Server :=
  (clock (ticks s), set_ticks (S (ticks s)) s).

(** [session->field = value] through the shared pointer. *)
Definition put (sid : Z) (c : ClientSession) (s : Server) : Server :=
  set_heap (<[sid := c]> (heap s)) s.
Definition modify (sid : Z) (f : ClientSession -> ClientSession) (s : Server) : Server :=
  set_heap (alter f sid (heap s)) s.
Definition count (f : Metrics -> Metrics) (s : Server) : Server := set_metrics (f (metrics s)) s.

Definition TrackOperation (s : Server) : Server :=
  set_outstanding_operations (outstanding_operations s + 1)%u64 s.
Definition CompleteOperation (s : Server) : Server :=
  set_outstanding_operations (outstanding_operations s - 1)%u64 s.

(** ** Accounting and [Disconnect] *)

(** The counters of [UpdateInboundAccounting]; the boolean is
    [total > config.max_global_inbound_bytes]. *)
Definition AccountInbound (bytes : Z) (c : ClientSession) (m : Metrics)
  : ClientSession * Metrics * bool :=
  if inbound_accounted c <? bytes then
    let delta := (bytes - inbound_accounted c)%u64 in
    let total := (inbound_total m + delta)%u64 in
    (set_inbound_accounted bytes c, set_inbound_total total m,
     max_global_inbound_bytes config <? total)
  else if bytes <? inbound_accounted c then
    (set_inbound_accounted bytes c,
     set_inbound_total (inbound_total m - (inbound_accounted c - bytes))%u64 m, false)
  else (c, m, false).

(** The loop over the send queue and [send_queue.clear()]. *)
Definition drop_queue (c : ClientSession) (m : Metrics) : ClientSession * Metrics :=
  let '(queued, total) :=
    foldl (fun '(queued, total) item =>
      ((queued - item_bytes item)%u64, (total - item_bytes item)%u64))
      (queued_bytes c, queued_total m) (send_queue c) in
  (set_send_queue [] (set_queued_bytes queued c), set_queued_total total m).

(** [UpdateInboundAccounting(session, 0)] never disconnects. *)
Definition Disconnect (sid : Z) (s : Server) : Server :=
  match heap s !! sid with
  | None => s
  | Some c =>
      if disconnect_started c then s else
      let c := set_disconnect_started true c in
      let c := set_state Closed c in
      let s := set_sessions (table_remove (handle c) (sessions s)) s in
      let c := set_socket false c in
      let '(c, m) := drop_queue c (metrics s) in
      let '(c, m, _) := AccountInbound 0 c m in
      let m := set_active_connections (active_connections m - 1)%u64 m in
      let s := set_metrics m (put sid c s) in
      set_app (disconnect_handler (handle c) (app s)) s
  end.

Definition UpdateInboundAccounting (sid : Z) (bytes : Z) (s : Server) : Server :=
  match heap s !! sid with
  | None => s
  | Some c =>
      let '(c, m, exceeded) := AccountInbound bytes c (metrics s) in
      let s := set_metrics m (put sid c s) in
      if exceeded then Disconnect sid s else s
  end.

(** ** Writing *)

Definition ReserveGlobalQueued (bytes : Z) (m : Metrics) : bool * Metrics :=
  if (max_global_queued_bytes config <? bytes)
     || ((max_global_queued_bytes config - bytes)%u64 <? queued_total m)
  then (false, m) else (true, set_queued_total (queued_total m + bytes)%u64 m).

(** [WSASend] on a valid socket; completed or pending is [true]. *)
Definition PostWrite (operation : WriteOperation) (s : Server) : bool * Server :=
  match heap s !! op_session operation with
  | None => (false, s)
  | Some c => if negb (socket c) then (false, s) else os_call s
  end.

(** [FinishWrite] up to [CompleteOperation]. *)
Definition FinishAccounting (operation : WriteOperation) (succeeded : bool) (s : Server) : Server :=
  let bytes := TotalSize (op_cursor operation) in
  let s := modify (op_session operation) (fun c =>
    set_queued_bytes (if queued_bytes c <? bytes then 0 else (queued_bytes c - bytes)%u64) c) s in
  let s := count (fun m => set_queued_total (queued_total m - bytes)%u64 m) s in
  let s := count (fun m =>
    if succeeded then set_sent_messages (sent_messages m + 1)%u64 m
    else set_send_failures (send_failures m + 1)%u64 m) s in
  CompleteOperation s.

(** A failed [PostWrite] ends in [FinishWrite(operation, false)], which
    disconnects and starts nothing: the two functions do not recurse further. *)
Definition StartNextWrite (sid : Z) (s : Server) : Server :=
  match heap s !! sid with
  | None => s
  | Some c =>
      match send_queue c with
      | [] => put sid (set_write_active false c) s
      | item :: rest =>
          let s := put sid (set_send_queue rest c) s in
          let '(allocated, s) := os_call s in
          match allocated, SendCursor.construct (item_header item) (Some (item_payload item)) with
          | true, Some cursor =>
              let operation := mkWrite sid cursor (item_close_after item) in
              let s := TrackOperation s in
              let '(posted, s) := PostWrite operation s in
              if posted then set_writes (writes s ++ [operation]) s
              else Disconnect sid (FinishAccounting operation false s)
          | _, _ =>
              let bytes := item_bytes item in
              let s := modify sid (fun c => set_queued_bytes (queued_bytes c - bytes)%u64 c) s in
              let s := count (fun m => set_queued_total (queued_total m - bytes)%u64 m) s in
              let s := count (fun m => set_send_failures (send_failures m + 1)%u64 m) s in
              Disconnect sid s
          end
      end
  end.

Definition FinishWrite (operation : WriteOperation) (succeeded : bool) (s : Server) : Server :=
  let s := FinishAccounting operation succeeded s in
  if negb succeeded || op_close_after operation then Disconnect (op_session operation) s
  else StartNextWrite (op_session operation) s.

(** The completion of the [index]-th outstanding write. *)
Definition HandleWrite (index : nat) (succeeded : bool) (bytes_transferred : Z) (s : Server) : Server :=
  match writes s !! index with
  | None => s
  | Some operation =>
      let s := set_writes (delete index (writes s)) s in
      if negb succeeded || (bytes_transferred =? 0) then FinishWrite operation false s else
      let operation := mkWrite (op_session operation)
        (Consume bytes_transferred (op_cursor operation)) (op_close_after operation) in
      if negb (Complete (op_cursor operation)) then
        let '(posted, s) := PostWrite operation s in
        if posted then set_writes (writes s ++ [operation]) s
        else FinishWrite operation false s
      else FinishWrite operation true s
  end.

Definition Enqueue (sid : Z) (item : OutboundItem) (s : Server) : bool * Server :=
  match heap s !! sid with
  | None => (false, s)
  | Some c =>
      let bytes := item_bytes item in
      if disconnect_started c then (false, s) else
      let fail := (false, count (fun m => set_send_failures (send_failures m + 1)%u64 m) s) in
      if (max_session_queued_bytes config <? bytes)
         || ((max_session_queued_bytes config - bytes)%u64 <? queued_bytes c) then fail else
      let '(reserved, m) := ReserveGlobalQueued bytes (metrics s) in
      if negb reserved then fail else
      let s := set_metrics m s in
      let c := set_queued_bytes (queued_bytes c + bytes)%u64 c in
      let c := set_send_queue (send_queue c ++ [item]) c in
      let start_write := negb (write_active c) in
      let c := set_write_active true c in
      let s := put sid c s in
      (true, if start_write then StartNextWrite sid s else s)
  end.

(** ** Sending *)

Definition WebSocketHeader (opcode : WsOpcode) (payload_size : Z) : list byte :=
  let '(compact, temporary_size) := BuildFrameHeader opcode payload_size in
  ztake temporary_size compact.

Definition SendControl (sid : Z) (opcode : WsOpcode) (payload : list byte) (close_after : bool)
    (s : Server) : Server :=
  match heap s !! sid with
  | None => s
  | Some c =>
      let item := mkItem (WebSocketHeader opcode (size_of payload)) payload close_after in
      if close_after then
        if bool_decide (state c = Closed) || bool_decide (state c = Closing) then s else
        let '(now, s) := MonotonicMilliseconds s in
        let s := put sid (set_close_started_ms now (set_state Closing c)) s in
        let '(queued, s) := Enqueue sid item s in
        if negb queued then Disconnect sid s else s
      else (Enqueue sid item s).2
  end.

Definition SendRaw (sid : Z) (response : list byte) (close_after : bool) (s : Server) : Server :=
  let '(queued, s) := Enqueue sid (mkItem [] response close_after) s in
  if negb queued && close_after then Disconnect sid s else s.

(** [payload] is null when [None]; an exception of [EncodeLength] cannot happen:
    it would need a message limit above 4 GiB. *)
Definition Send (h : SessionHandle) (payload : SharedBuffer) (s : Server) : bool * Server :=
  match table_find h (sessions s), payload with
  | Some found, Some bytes =>
      match heap s !! id found with
      | None => (false, s)
      | Some c =>
          if (size_of bytes =? 0) || (max_message_bytes config <? size_of bytes)
             || negb (bool_decide (state c = Open)) then (false, s) else
          match transport c with
          | RawTcp =>
              match EncodeLength (size_of bytes) with
              | None => (false, s)
              | Some header => Enqueue (id found) (mkItem header bytes false) s
              end
          | WebSocket =>
              Enqueue (id found)
                (mkItem (WebSocketHeader Binary (size_of bytes)) bytes false) s
          | Detecting => (false, s)
          end
      end
  | _, _ => (false, s)
  end.

Definition Close (h : SessionHandle) (websocket_code : Z) (reason : list byte) (s : Server) : Server :=
  match table_find h (sessions s) with
  | None => s
  | Some found =>
      match heap s !! id found with
      | None => s
      | Some c =>
          if negb (bool_decide (transport c = WebSocket)) then Disconnect (id found) s else
          let reason := if 123 <? size_of reason then ztake 123 reason else reason in
          let payload := [ z2b (Z.land (Z.shiftr websocket_code 8) 255);
                           z2b (Z.land websocket_code 255) ] ++ reason in
          SendControl (id found) WebSocketDecoder.Close payload true s
      end
  end.
End server.

Arguments Server : clear implicits.
