(* ===== verification/ServerInbound.v ===== *)
(** * The server: accepting, receiving and timing out (src/src/core/iocp_server.cpp)

    [HandleAccept], [HandleRead] with transport detection, the two receive
    loops and message delivery, and one round of [TimerLoop].  The loops of
    [ProcessRaw] and [ProcessWebSocket] carry fuel; [None] means it ran out. *)

From S2P Require Import Prelude SessionHandle OutboundQueue SendCursor Framing.
From S2P Require Import WebSocketDecoder Handshake SessionRegistry ServerTypes Server.

(** The configuration the constructor of [Impl] keeps. *)
Definition Impl_config (hardware_concurrency : Z) (c : ServerConfig) : ServerConfig :=
  mkConfig (port c)
    (if worker_count c =? 0 then Z.max 1 hardware_concurrency else worker_count c)
    (max_connections c) (Z.max 1 (accept_depth c)) (Z.max 1024 (receive_buffer_bytes c))
    (max_message_bytes c) (max_session_inbound_bytes c) (max_global_inbound_bytes c)
    (max_session_queued_bytes c) (max_global_queued_bytes c) (max_handshake_bytes c)
    (max_messages_per_second c) (malformed_message_limit c) (handshake_timeout c) (idle_timeout c)
    (websocket_ping_interval c) (websocket_pong_timeout c) (close_timeout c)
    (enable_thread_affinity c) (origin_validator c).

Section inbound.
Context {St T : Type} `{App : Application St} `{Tab : SessionTable SessionHandle T (fun h => h)}.
Context (config : ServerConfig) (os : nat -> bool) (clock : nat -> Z).
#[local] Abbreviation Server := (Server St T).

Definition RecordMalformed (sid : Z) (s : Server) : Server :=
  let s := modify sid (fun c => set_malformed_messages (u32 (malformed_messages c + 1)) c) s in
  count (fun m => set_malformed_total (malformed_total m + 1)%u64 m) s.

(** The calls of [Send] a handler makes. *)
Definition send_all (out : list (SessionHandle * list byte)) (s : Server) : Server :=
  foldl (fun s '(h, payload) => (Send config os h (Some payload) s).2) s out.

(** The handler is given its own reading of the clock, taken when it runs. *)
Definition DeliverMessage (sid : Z) (message : list byte) (s : Server) : bool * Server :=
  let '(now, s) := MonotonicMilliseconds clock s in
  let s := modify sid (fun c =>
    if 1000 <=? now - rate_window_ms c
    then set_rate_window_messages 0 (set_rate_window_ms now c) else c) s in
  let s := modify sid (fun c =>
    set_rate_window_messages (rate_window_messages c + 1)%u64 c) s in
  match heap s !! sid with
  | None => (false, s)
  | Some c =>
      if max_messages_per_second config <? rate_window_messages c
      then (false, Close config os clock (handle c) 1008 (bstr "message rate limit exceeded") s) else
      match message_handler with
      | None => (true, s)
      | Some callback =>
          let s := count (fun m => set_received_messages (received_messages m + 1)%u64 m) s in
          let '(unix_now, s) := MonotonicMilliseconds clock s in
          let '(disposition, out, app') := callback unix_now (handle c) message (app s) in
          let s := send_all out (set_app app' s) in
          if bool_decide (disposition = Accepted) then (true, s) else
          let s := RecordMalformed sid s in
          let malformed := match heap s !! sid with Some c => malformed_messages c | None => 0 end in
          if bool_decide (disposition = CloseSession) || (malformed_message_limit config <=? malformed)
          then (false, Close config os clock (handle c) 1007 (bstr "invalid application message") s)
          else (true, s)
      end
  end.

(** The [while] loop of [ProcessRaw]; the boolean is [false] for a [return]. *)
Fixpoint raw_loop (fuel : nat) (sid : Z) (s : Server) : option (bool * Server) :=
  match fuel with
  | O => None
  | S fuel =>
      match heap s !! sid with
      | None => Some (false, s)
      | Some c =>
          if disconnect_started c then Some (true, s) else
          let '(status, message, decoder) := Framing.Next (raw_decoder c) in
          let s := put sid (set_raw_decoder decoder c) s in
          match status with
          | Framing.NeedMoreData => Some (true, s)
          | Framing.MessageReady =>
              let '(ok, s) := DeliverMessage sid message s in
              if negb ok then Some (false, s) else raw_loop fuel sid s
          | _ => Some (false, Disconnect config sid (RecordMalformed sid s))
          end
      end
  end.

Definition buffered_raw (sid : Z) (s : Server) : Z :=
  match heap s !! sid with Some c => Framing.BufferedBytes (raw_decoder c) | None => 0 end.

Definition ProcessRaw (sid : Z) (bytes : list byte) (s : Server) : option Server :=
  match heap s !! sid with
  | None => Some s
  | Some c =>
      let '(ok, decoder) := Framing.Append bytes (raw_decoder c) in
      let s := put sid (set_raw_decoder decoder c) s in
      if negb ok then Some (Disconnect config sid s) else
      let s := UpdateInboundAccounting config sid (buffered_raw sid s) s in
      '(ended, s) ← raw_loop (S (length (Framing.buffer_ decoder))) sid s;
      if negb ended then Some s
      else Some (UpdateInboundAccounting config sid (buffered_raw sid s) s)
  end.

(** The [while] loop of [ProcessWebSocket]. *)
Fixpoint ws_loop (fuel : nat) (sid : Z) (s : Server) : option (bool * Server) :=
  match fuel with
  | O => None
  | S fuel =>
      match heap s !! sid with
      | None => Some (false, s)
      | Some c =>
          if disconnect_started c || negb (bool_decide (state c = Open)) then Some (true, s) else
          '(status, event, error, decoder) ← WebSocketDecoder.Next (websocket_decoder c);
          let s := put sid (set_websocket_decoder decoder c) s in
          match status with
          | WebSocketDecoder.NeedMoreData => Some (true, s)
          | MessageTooLarge | WebSocketDecoder.BufferLimitExceeded =>
              Some (false, Close config os clock (handle c) 1009 (bstr error) s)
          | ProtocolError =>
              Some (false, Close config os clock (handle c) 1002 (bstr error) (RecordMalformed sid s))
          | EventReady =>
              match ev_type event with
              | BinaryMessage =>
                  let '(ok, s) := DeliverMessage sid (ev_payload event) s in
                  if negb ok then Some (false, s) else ws_loop fuel sid s
              | PingEvent =>
                  ws_loop fuel sid (SendControl config os clock sid Pong (ev_payload event) false s)
              | PongEvent =>
                  let '(now, s) := MonotonicMilliseconds clock s in
                  ws_loop fuel sid
                    (modify sid (fun c => set_last_pong_ms now (set_awaiting_pong false c)) s)
              | CloseEvent =>
                  Some (false, SendControl config os clock sid WebSocketDecoder.Close
                                 (ev_payload event) true s)
              end
          end
      end
  end.

Definition buffered_ws (sid : Z) (s : Server) : Z :=
  match heap s !! sid with
  | Some c => WebSocketDecoder.BufferedBytes (websocket_decoder c)
  | None => 0
  end.

Definition ProcessWebSocket (sid : Z) (bytes : list byte) (s : Server) : option Server :=
  match heap s !! sid with
  | None => Some s
  | Some c =>
      if bool_decide (state c = Closing) then Some s else
      let '(ok, decoder) := WebSocketDecoder.Append bytes (websocket_decoder c) in
      let s := put sid (set_websocket_decoder decoder c) s in
      if negb ok
      then Some (Close config os clock (handle c) 1009 (bstr "receive buffer limit exceeded") s) else
      let s := UpdateInboundAccounting config sid (buffered_ws sid s) s in
      '(ended, s) ← ws_loop (S (length (WebSocketDecoder.buffer_ decoder))) sid s;
      if negb ended then Some s
      else Some (UpdateInboundAccounting config sid (buffered_ws sid s) s)
  end.

Definition GetPrefix : list byte := bstr "GET ".

Definition ProcessDetection (sid : Z) (bytes : list byte) (s : Server) : option Server :=
  match heap s !! sid with
  | None => Some s
  | Some c =>
      if (max_session_inbound_bytes config <? size_of (detection_buffer c))
         || ((max_session_inbound_bytes config - size_of (detection_buffer c))%u64 <? size_of bytes)
      then Some (Disconnect config sid s) else
      let buffer := detection_buffer c ++ bytes in
      let s := put sid (set_detection_buffer buffer c) s in
      let s := UpdateInboundAccounting config sid (size_of buffer) s in
      let compare_length := Nat.min (length buffer) (length GetPrefix) in
      let possible_http :=
        bool_decide (take compare_length buffer = take compare_length GetPrefix) in
      if negb possible_http then
        let s := modify sid (fun c => set_state Open (set_transport RawTcp c)) s in
        let s := modify sid (set_detection_buffer []) s in
        let s := UpdateInboundAccounting config sid 0 s in
        ProcessRaw sid buffer s
      else if (length buffer <? length GetPrefix)%nat then Some s else
      r ← ParseHandshake buffer (max_handshake_bytes config) (origin_validator config);
      match status r with
      | Handshake.NeedMoreData => Some s
      | Rejected => Some (SendRaw config os sid (response r) true s)
      | Handshake.Accepted =>
          let s := SendRaw config os sid (response r) false s in
          let s := modify sid (fun c => set_state Open (set_transport WebSocket c)) s in
          let remaining :=
            if consumed r <? size_of buffer then zdrop (consumed r) buffer else [] in
          let s := modify sid (set_detection_buffer []) s in
          let s := UpdateInboundAccounting config sid 0 s in
          if negb (size_of remaining =? 0) then ProcessWebSocket sid remaining s else Some s
      end
  end.

Definition ProcessIncoming (sid : Z) (bytes : list byte) (s : Server) : option Server :=
  match heap s !! sid with
  | None => Some s
  | Some c =>
      match transport c with
      | Detecting => ProcessDetection sid bytes s
      | RawTcp => ProcessRaw sid bytes s
      | WebSocket => ProcessWebSocket sid bytes s
      end
  end.

(** [PostRead(operation)]: [WSARecv] on a valid socket. *)
Definition PostReadOperation (sid : Z) (s : Server) : bool * Server :=
  match heap s !! sid with
  | None => (false, s)
  | Some c =>
      if negb (socket c) then (false, s) else
      let '(posted, s) := os_call os s in
      (posted, if posted then set_reads (reads s ++ [sid]) s else s)
  end.

(** [PostRead(session)]: allocate the operation, track it, post it. *)
Definition PostRead (sid : Z) (s : Server) : bool * Server :=
  let '(allocated, s) := os_call os s in
  if negb allocated then (false, s) else
  let s := TrackOperation s in
  let '(posted, s) := PostReadOperation sid s in
  if negb posted then (false, CompleteOperation s) else (true, s).

(** The completion of the [index]-th outstanding read, with the bytes received. *)
Definition HandleRead (index : nat) (succeeded : bool) (bytes : list byte) (s : Server)
  : option Server :=
  match reads s !! index with
  | None => Some s
  | Some sid =>
      let s := set_reads (delete index (reads s)) s in
      let started s := match heap s !! sid with Some c => disconnect_started c | None => true end in
      if negb succeeded || (size_of bytes =? 0) || started s
      then Some (CompleteOperation (Disconnect config sid s)) else
      let '(now, s) := MonotonicMilliseconds clock s in
      let s := modify sid (set_last_activity_ms now) s in
      s ← ProcessIncoming sid bytes s;
      if started s || negb (running s) then Some (CompleteOperation (Disconnect config sid s)) else
      let '(posted, s) := PostReadOperation sid s in
      if posted then Some s else Some (CompleteOperation (Disconnect config sid s))
  end.

(** The constructor of [ClientSession]. *)
Definition new_session (h : SessionHandle) (now : Z) : ClientSession :=
  mkSession h true Connecting Detecting false
    (Framing.construct (max_message_bytes config) (max_session_inbound_bytes config))
    (WebSocketDecoder.construct (max_message_bytes config) (max_session_inbound_bytes config) true)
    [] 0 0 now now now 0 false now 0 [] 0 false.

(** [socket] and the pool slot are two answers of the system. *)
Definition PostNewAccept (s : Server) : bool * Server :=
  if negb (running s) then (false, s) else
  let '(opened, s) := os_call os s in
  if negb opened then (false, s) else
  let '(created, s) := os_call os s in
  if negb created
  then (false, count (fun m => set_rejected_connections (rejected_connections m + 1)%u64 m) s) else
  let s := TrackOperation s in
  let '(posted, s) := os_call os s in
  if negb posted then (false, CompleteOperation s) else (true, set_accepts (S (accepts s)) s).

(** The accepted socket becomes a session. *)
Definition AcceptSession (s : Server) : Server :=
  let h := mkHandle (next_session_id s) (next_generation s) in
  let s := set_next_generation (next_generation s + 1)%u64
             (set_next_session_id (next_session_id s + 1)%u64 s) in
  let '(now, s) := MonotonicMilliseconds clock s in
  let s := put (id h) (set_state Handshaking (new_session h now)) s in
  let s := set_sessions (table_insert h h (sessions s)) s in
  let s := count (fun m => set_accepted_connections (accepted_connections m + 1)%u64 m) s in
  let s := count (fun m => set_active_connections (active_connections m + 1)%u64 m) s in
  let s := set_app (connect_handler h (app s)) s in
  let '(posted, s) := PostRead (id h) s in
  if negb posted then Disconnect config (id h) s else s.

(** An accept completion: [AcceptSession] stands for the body of the inner
    [if] ([setsockopt] and [Associate] succeeded); then the next accept.  [seen]
    is what the load of [active_connections] gave: other workers may have changed
    the counter since. *)
Definition HandleAccept (succeeded : bool) (seen : Z) (s : Server) : Server :=
  let s := set_accepts (pred (accepts s)) s in
  let s :=
    if succeeded && running s then
      if max_connections config <=? seen
      then count (fun m => set_rejected_connections (rejected_connections m + 1)%u64 m) s else
      let '(updated, s) := os_call os s in
      let '(associated, s) := if updated then os_call os s else (false, s) in
      if associated then AcceptSession s
      else count (fun m => set_rejected_connections (rejected_connections m + 1)%u64 m) s
    else s in
  if running s then
    let '(created, s) := os_call os s in
    let '(posted, s) := if created then os_call os s else (false, s) in
    if posted then set_accepts (S (accepts s)) s else CompleteOperation s
  else CompleteOperation s.

(** The body of [TimerLoop] for one session of the snapshot. *)
Definition TimerCheck (now : Z) (s : Server) (h : SessionHandle) : Server :=
  match heap s !! id h with
  | None => s
  | Some c =>
      if disconnect_started c then s else
      if bool_decide (state c = Handshaking) && (handshake_timeout config <? now - connected_at_ms c)
      then Disconnect config (id h) s else
      if bool_decide (state c = Closing) && (close_timeout config <? now - close_started_ms c)
      then Disconnect config (id h) s else
      if negb (bool_decide (state c = Open)) then s else
      if idle_timeout config <? now - last_activity_ms c then Disconnect config (id h) s else
      if negb (bool_decide (transport c = WebSocket)) then s else
      if awaiting_pong c then
        if websocket_pong_timeout config <? now - last_pong_ms c
        then Disconnect config (id h) s else s
      else if websocket_ping_interval config <? now - last_pong_ms c then
        SendControl config os clock (id h) Ping [] false
          (put (id h) (set_last_pong_ms now (set_awaiting_pong true c)) s)
      else s
  end.

Definition TimerTick (s : Server) : Server :=
  if negb (running s) then s else
  let '(now, s) := MonotonicMilliseconds clock s in
  foldl (TimerCheck now) s (table_snapshot (sessions s)).

(** The part of [Stop] that closes the sessions. *)
Definition StopSessions (s : Server) : Server :=
  if negb (running s) then s else
  let s := set_running false s in
  foldl (fun s h => Disconnect config (id h) s) s (table_snapshot (sessions s)).

(** The loop of [Start] over [accept_depth], counting the accepts posted. *)
Fixpoint post_accepts (n : nat) (posted : Z) (s : Server) : Z * Server :=
  match n with
  | O => (posted, s)
  | S n =>
      let '(ok, s) := PostNewAccept s in
      post_accepts n (if ok then (posted + 1)%u64 else posted) s
  end.

(** [Start] of an initialised server whose threads could be created. *)
Definition Start (s : Server) : bool * Server :=
  if running s then (true, s) else
  let '(posted, s) :=
    post_accepts (Z.to_nat (accept_depth config)) 0 (set_running true s) in
  if posted =? 0 then (false, StopSessions s) else (true, s).
End inbound.
