(* ===== verification/ServerInvariant.v ===== *)
(** * The server: invariant of the outbound path and of the accounting

    In every reachable state the byte counters are exact, the limits hold, a
    session has at most one write outstanding and never waits for one that is
    not, and the registry holds exactly the sessions not yet disconnected. *)

From S2P Require Import Prelude SessionHandle OutboundQueue SendCursor Framing.
From S2P Require Import WebSocketDecoder SessionRegistry ServerTypes Server.

(** What the configuration must satisfy: the sizes fit the machine. *)
Record config_ok (config : ServerConfig) : Prop := {
  co_message : 0 <= max_message_bytes config <= 4294967295;
  co_inbound : 0 <= max_session_inbound_bytes config <= 4611686018427387904;
  co_session_queue : is_u64 (max_session_queued_bytes config);
  co_global_queue : is_u64 (max_global_queued_bytes config);
  co_connections : is_u64 (max_connections config);
}.

(** The items the server queues: a header that fits its array, no overflow. *)
Record item_wf (item : OutboundItem) : Prop := {
  iw_header : size_of (item_header item) <= 16;
  iw_payload : size_of (item_payload item) <= size_max - 16;
}.

Definition queue_sum (q : list OutboundItem) : Z :=
  foldr (fun item acc => item_bytes item + acc) 0 q.

(** The outstanding writes of one session, and their bytes. *)
Definition ops_of (sid : Z) (ws : list WriteOperation) : list WriteOperation :=
  filter (fun op => op_session op = sid) ws.

Definition ops_sum (ops : list WriteOperation) : Z :=
  foldr (fun op acc => TotalSize (op_cursor op) + acc) 0 ops.

Lemma item_bytes_wf item :
  item_wf item ->
  item_bytes item = size_of (item_header item) + size_of (item_payload item) /\
  0 <= item_bytes item.
Proof.
  intros [H P]. pose proof (size_nonneg (item_header item)).
  pose proof (size_nonneg (item_payload item)). unfold item_bytes.
  rewrite uadd_small by (unfold size_max in *; lia). lia.
Qed.

Lemma queue_sum_app q q' : queue_sum (q ++ q') = queue_sum q + queue_sum q'.
Proof. induction q as [|i q IH]; simpl; [done|]. rewrite IH. lia. Qed.

Lemma queue_sum_nonneg q : Forall item_wf q -> 0 <= queue_sum q.
Proof.
  induction 1 as [|i q H F IH]; simpl; [lia|]. destruct (item_bytes_wf i H). lia.
Qed.

Lemma ops_of_app sid ws ws' : ops_of sid (ws ++ ws') = ops_of sid ws ++ ops_of sid ws'.
Proof. apply filter_app. Qed.

Lemma ops_of_single_eq op : ops_of (op_session op) [op] = [op].
Proof. unfold ops_of. by rewrite filter_cons_True. Qed.

Lemma ops_of_single_ne sid op : op_session op <> sid -> ops_of sid [op] = [].
Proof. intros. unfold ops_of. by rewrite filter_cons_False. Qed.

Lemma ops_of_delete_ne sid ws i op :
  ws !! i = Some op -> op_session op <> sid -> ops_of sid (delete i ws) = ops_of sid ws.
Proof.
  intros H Hne. rewrite delete_take_drop. rewrite <-(take_drop_middle ws i op H) at 3.
  rewrite !ops_of_app. f_equal. unfold ops_of. by rewrite filter_cons_False.
Qed.

(** Removing the session's only write. *)
Lemma ops_of_delete_eq ws i op :
  ws !! i = Some op -> (length (ops_of (op_session op) ws) <= 1)%nat ->
  ops_of (op_session op) ws = [op] /\ ops_of (op_session op) (delete i ws) = [].
Proof.
  intros H L. rewrite delete_take_drop. rewrite <-(take_drop_middle ws i op H) in L |- * at 1.
  change (op :: drop (S i) ws) with ([op] ++ drop (S i) ws) in *.
  rewrite !ops_of_app, ops_of_single_eq in *. rewrite !length_app in L. simpl in L.
  destruct (ops_of (op_session op) (take i ws)); simpl in L; [|lia].
  destruct (ops_of (op_session op) (drop (S i) ws)); simpl in L; [done|lia].
Qed.

Section invariant.
Context {St T : Type} `{App : Application St} `{Tab : SessionTable SessionHandle T (fun h => h)}.
Context (config : ServerConfig) (os : nat -> bool) (clock : nat -> Z) (Hc : config_ok config).
#[local] Abbreviation Server := (Server St T).

(** [Some (sid, n)]: between two steps, session [sid] has [n] bytes counted that
    are neither queued nor outstanding, and no write has been started yet. *)
Definition owed (x : option (Z * Z)) (sid : Z) : Z :=
  match x with Some (k, n) => if k =? sid then n else 0 | None => 0 end.
Definition exempt (x : option (Z * Z)) (sid : Z) : bool :=
  match x with Some (k, _) => k =? sid | None => false end.

Record session_ok (owes : Z) (ws : list WriteOperation) (sid : Z) (c : ClientSession) : Prop := {
  so_id : id (handle c) = sid;
  so_queued : queued_bytes c = queue_sum (send_queue c) + ops_sum (ops_of sid ws) + owes;
  so_limit : queued_bytes c <= max_session_queued_bytes config;
  so_items : Forall item_wf (send_queue c);
  so_accounted : is_u64 (inbound_accounted c);
  so_down : disconnect_started c = true -> socket c = false /\ send_queue c = [];
  so_one : (length (ops_of sid ws) <= 1)%nat;
  so_idle : write_active c = false -> send_queue c = [] /\ ops_of sid ws = [];
  so_raw : Framing.wf (raw_decoder c);
  so_ws : WebSocketDecoder.wf (websocket_decoder c);
}.

Definition write_ok (h : gmap Z ClientSession) (op : WriteOperation) : Prop :=
  is_Some (h !! op_session op) /\ SendCursor.wf (op_cursor op).

Definition registered (m : gmap Z SessionHandle) (h : gmap Z ClientSession) : Prop :=
  forall sid k, m !! sid = Some k <->
    exists c, h !! sid = Some c /\ handle c = k /\ disconnect_started c = false.

Record Inv (x : option (Z * Z)) (s : Server) : Prop := {
  inv_owed : forall sid, 0 <= owed x sid;
  inv_sessions : forall sid c, heap s !! sid = Some c ->
    session_ok (owed x sid) (writes s) sid c;
  inv_stall : forall sid c, heap s !! sid = Some c -> exempt x sid = false ->
    disconnect_started c = false -> write_active c = true -> ops_of sid (writes s) <> [];
  inv_writes : Forall (write_ok (heap s)) (writes s);
  inv_queued : queued_total (metrics s) = map_sum queued_bytes (heap s);
  inv_queued_limit : queued_total (metrics s) <= max_global_queued_bytes config;
  inv_inbound : inbound_total (metrics s) = u64 (map_sum inbound_accounted (heap s));
  inv_registry : exists m, represents (sessions s) m /\ registered m (heap s) /\
    active_connections (metrics s) = Z.of_nat (size m);
  inv_connections : active_connections (metrics s) <= next_session_id s <= size_max;
  inv_fresh : 0 <= next_session_id s /\ forall sid, next_session_id s <= sid -> heap s !! sid = None;
}.

Lemma ops_sum_nonneg h ws sid : Forall (write_ok h) ws -> 0 <= ops_sum (ops_of sid ws).
Proof.
  unfold ops_of. induction 1 as [|op ws [_ W] F IH]; simpl; [lia|].
  destruct (decide (op_session op = sid)); [rewrite filter_cons_True by done; simpl|
    rewrite filter_cons_False by done; exact IH].
  rewrite TotalSize_wire by done. pose proof (size_nonneg (wire (op_cursor op))). lia.
Qed.

Lemma session_queued_nonneg x s sid c :
  Inv x s -> heap s !! sid = Some c -> 0 <= queued_bytes c.
Proof.
  intros I H. pose proof (inv_sessions _ _ I sid c H) as [_ Q _ It _ _ _ _ _ _].
  pose proof (inv_owed _ _ I sid). pose proof (queue_sum_nonneg _ It).
  pose proof (ops_sum_nonneg _ _ sid (inv_writes _ _ I)). lia.
Qed.

Lemma session_queued_total x s sid c :
  Inv x s -> heap s !! sid = Some c -> queued_bytes c <= queued_total (metrics s).
Proof.
  intros I H. rewrite (inv_queued _ _ I). eapply map_sum_lookup; [|exact H].
  intros k y Hy. by eapply session_queued_nonneg.
Qed.

Lemma total_nonneg' x s : Inv x s -> 0 <= queued_total (metrics s).
Proof.
  intros I. rewrite (inv_queued _ _ I). apply map_sum_nonneg.
  intros k y Hy. by eapply session_queued_nonneg.
Qed.

Lemma write_ok_insert h sid c c' op :
  h !! sid = Some c -> write_ok h op -> write_ok (<[sid := c']> h) op.
Proof.
  intros H [[y Hy] W]. split; [|done]. rewrite lookup_insert. case_decide; eauto.
Qed.

Lemma inbound_same x s a :
  Inv x s -> inbound_total (metrics s) = u64 (inbound_total (metrics s) - a + a).
Proof.
  intros I. rewrite Z.sub_add, (inv_inbound _ _ I). symmetry. apply u64_small, u64_range.
Qed.

(** Replacing one session that stays connected (or stays disconnected). *)
Lemma Inv_replace x x' s s' sid c c' :
  Inv x s -> heap s !! sid = Some c ->
  heap s' = <[sid := c']> (heap s) -> sessions s' = sessions s ->
  next_session_id s' = next_session_id s ->
  handle c' = handle c -> disconnect_started c' = disconnect_started c ->
  0 <= owed x' sid ->
  (forall k, k <> sid -> owed x' k = owed x k /\ exempt x' k = exempt x k) ->
  session_ok (owed x' sid) (writes s') sid c' ->
  (forall k, k <> sid -> ops_of k (writes s') = ops_of k (writes s)) ->
  Forall (write_ok (heap s)) (writes s') ->
  (exempt x' sid = false -> disconnect_started c = false -> write_active c' = true ->
     ops_of sid (writes s') <> []) ->
  queued_total (metrics s') = queued_total (metrics s) - queued_bytes c + queued_bytes c' ->
  queued_total (metrics s') <= max_global_queued_bytes config ->
  inbound_total (metrics s') =
    u64 (inbound_total (metrics s) - inbound_accounted c + inbound_accounted c') ->
  active_connections (metrics s') = active_connections (metrics s) ->
  Inv x' s'.
Proof.
  intros I H Eh Es En Hh Hd Ho Hx Hok Hops Hw Hst Hq Hql Hin Hac.
  constructor.
  - intros k. destruct (decide (k = sid)) as [->|Hk]; [done|].
    destruct (Hx k Hk) as [-> _]. apply (inv_owed _ _ I).
  - intros k y. rewrite Eh, lookup_insert. case_decide as E; [intros [= <-]; subst; done|].
    intros Hy. assert (Hk : k <> sid) by congruence. destruct (Hx k Hk) as [-> _].
    pose proof (inv_sessions _ _ I k y Hy) as [? ? ? ? ? ? ? ? ? ?].
    constructor; rewrite ?(Hops k Hk); done.
  - intros k y. rewrite Eh, lookup_insert. case_decide as E.
    + intros [= <-]. subst k. rewrite Hd. auto.
    + intros Hy. assert (Hk : k <> sid) by congruence. destruct (Hx k Hk) as [_ ->].
      rewrite (Hops k Hk). apply (inv_stall _ _ I k y Hy).
  - rewrite Eh. eapply Forall_impl; [exact Hw|]. intros op. by apply write_ok_insert with c.
  - rewrite Eh, (map_sum_update _ _ _ _ _ H), Hq, (inv_queued _ _ I). done.
  - done.
  - rewrite Eh, (map_sum_update _ _ _ _ _ H), Hin, (inv_inbound _ _ I).
    replace (u64 (map_sum inbound_accounted (heap s)) - inbound_accounted c + inbound_accounted c')
      with (u64 (map_sum inbound_accounted (heap s))
            + (inbound_accounted c' - inbound_accounted c)) by lia.
    rewrite u64_add_l. f_equal. lia.
  - destruct (inv_registry _ _ I) as (m & R & Hm & A). exists m. rewrite Es. split_and!; [done| |].
    + intros k h. rewrite (Hm k h), Eh. setoid_rewrite lookup_insert.
      destruct (decide (sid = k)) as [<-|Hk]; [|done]. split.
      * intros (y & Hy & E1 & E2). simplify_eq. exists c'. rewrite Hh, Hd. done.
      * intros (y & Hy & E1 & E2). simplify_eq. exists c. rewrite <-Hh, <-Hd. done.
    + rewrite Hac. done.
  - rewrite Hac, En. apply I.
  - rewrite En. split; [apply I|]. intros k Hk. rewrite Eh, lookup_insert.
    case_decide as E; [|by apply I]. subst k. pose proof (proj2 (inv_fresh _ _ I) sid Hk). congruence.
Qed.

(** Changes of fields the invariant does not mention. *)
Record neutral (c c' : ClientSession) : Prop := {
  nt_handle : handle c' = handle c;
  nt_started : disconnect_started c' = disconnect_started c;
  nt_socket : socket c' = socket c;
  nt_queue : send_queue c' = send_queue c;
  nt_queued : queued_bytes c' = queued_bytes c;
  nt_active : write_active c' = write_active c;
  nt_accounted : inbound_accounted c' = inbound_accounted c;
  nt_raw : Framing.wf (raw_decoder c) -> Framing.wf (raw_decoder c');
  nt_ws : WebSocketDecoder.wf (websocket_decoder c) -> WebSocketDecoder.wf (websocket_decoder c');
}.

Lemma Inv_put x s sid c c' :
  Inv x s -> heap s !! sid = Some c -> neutral c c' -> Inv x (put sid c' s).
Proof.
  intros I H [? ? ? ? ? ? ? ? ?]. pose proof (inv_sessions _ _ I sid c H) as [? ? ? ? ? ? ? ? ? ?].
  eapply (Inv_replace x x s _ sid c c'); try done; simpl; try lia.
  - apply (inv_owed _ _ I).
  - constructor; simpl; try congruence; auto.
    + rewrite nt_started0, nt_socket0, nt_queue0. done.
    + rewrite nt_active0, nt_queue0. done.
  - apply (inv_writes _ _ I).
  - rewrite nt_active0. apply (inv_stall _ _ I sid c H).
  - apply (inv_queued_limit _ _ I).
  - rewrite nt_accounted0, Z.sub_add, (inv_inbound _ _ I). symmetry. apply u64_small, u64_range.
Qed.

Lemma modify_put (s : Server) sid f c :
  heap s !! sid = Some c -> modify sid f s = put sid (f c) s.
Proof.
  intros H. unfold modify, put. f_equal. apply map_eq. intros k.
  destruct (decide (k = sid)) as [->|Hk].
  - rewrite lookup_alter_eq, H, lookup_insert_eq. done.
  - rewrite lookup_alter_ne, lookup_insert_ne by done. done.
Qed.

Lemma Inv_modify x s sid f :
  Inv x s -> (forall c, neutral c (f c)) -> Inv x (modify sid f s).
Proof.
  intros I Hf. destruct (heap s !! sid) as [c|] eqn:H.
  - rewrite (modify_put _ _ _ _ H). by eapply Inv_put.
  - assert (E : modify sid f s = s).
    { unfold modify.
      assert (alter f sid (heap s) = heap s) as ->; [|by destruct s].
      apply map_eq. intros k. destruct (decide (k = sid)) as [->|Hk].
      - rewrite lookup_alter_eq, H. done.
      - rewrite lookup_alter_ne by done. done. }
    rewrite E. done.
Qed.

(** Steps that leave sessions, writes and their counters alone. *)
Lemma Inv_frame x s s' :
  Inv x s -> heap s' = heap s -> writes s' = writes s -> sessions s' = sessions s ->
  next_session_id s' = next_session_id s ->
  queued_total (metrics s') = queued_total (metrics s) ->
  inbound_total (metrics s') = inbound_total (metrics s) ->
  active_connections (metrics s') = active_connections (metrics s) -> Inv x s'.
Proof.
  intros [? ? ? ? ? ? ? ? ? ?] Eh Ew Es En Eq Ei Ea.
  constructor; rewrite ?Eh, ?Ew, ?Es, ?En, ?Eq, ?Ei, ?Ea; done.
Qed.

(** ** [Disconnect] *)

Lemma drop_loop q queued total :
  Forall item_wf q -> queue_sum q <= queued <= size_max -> queue_sum q <= total <= size_max ->
  foldl (fun '(queued, total) item =>
    ((queued - item_bytes item)%u64, (total - item_bytes item)%u64)) (queued, total) q
  = (queued - queue_sum q, total - queue_sum q).
Proof.
  intros F. revert queued total. induction F as [|i q Hi F IH]; intros queued total H1 H2; simpl in *.
  - f_equal; lia.
  - destruct (item_bytes_wf i Hi). pose proof (queue_sum_nonneg q F).
    rewrite !usub_small by lia. rewrite IH by lia. f_equal; lia.
Qed.

(** The session and the counters behind a first [Disconnect]. *)
Lemma Disconnect_eq x s sid c :
  Inv x s -> heap s !! sid = Some c -> disconnect_started c = false ->
  exists c' m',
    Disconnect config sid s =
      set_app (disconnect_handler (handle c) (app s))
        (set_metrics m' (put sid c' (set_sessions (table_remove (handle c) (sessions s)) s))) /\
    handle c' = handle c /\ disconnect_started c' = true /\ socket c' = false /\
    state c' = Closed /\ send_queue c' = [] /\ write_active c' = write_active c /\
    raw_decoder c' = raw_decoder c /\ websocket_decoder c' = websocket_decoder c /\
    queued_bytes c' = queued_bytes c - queue_sum (send_queue c) /\ inbound_accounted c' = 0 /\
    queued_total m' = queued_total (metrics s) - queue_sum (send_queue c) /\
    inbound_total m' = u64 (inbound_total (metrics s) - inbound_accounted c) /\
    active_connections m' = (active_connections (metrics s) - 1)%u64.
Proof.
  intros I H D. pose proof (inv_sessions _ _ I sid c H) as [_ Q L It Ac _ _ _ _ _].
  pose proof (session_queued_total _ _ _ _ I H). pose proof (inv_queued_limit _ _ I).
  pose proof (co_session_queue _ Hc). pose proof (co_global_queue _ Hc).
  pose proof (inv_owed _ _ I sid).
  pose proof (session_queued_nonneg _ _ _ _ I H).
  assert (QS : queue_sum (send_queue c) <= queued_bytes c).
  { rewrite Q. pose proof (ops_sum_nonneg _ _ sid (inv_writes _ _ I)). lia. }
  assert (DL := drop_loop (send_queue c) (queued_bytes c) (queued_total (metrics s)) It
    ltac:(unfold is_u64 in *; lia) ltac:(unfold is_u64 in *; lia)).
  unfold Disconnect. rewrite H, D. unfold drop_queue. simpl. rewrite DL. unfold AccountInbound. simpl.
  split_if; [unfold is_u64 in Ac; lia|]. split_if.
  - eexists _, _. split; [reflexivity|]. simpl. split_and!; try done.
    unfold usub. rewrite (u64_small (_ - 0)) by (unfold is_u64 in *; lia).
    rewrite Z.sub_0_r. done.
  - eexists _, _. split; [reflexivity|]. simpl. unfold is_u64 in Ac. split_and!; try done; [lia|].
    assert (inbound_accounted c = 0) as -> by lia. rewrite Z.sub_0_r, (inv_inbound _ _ I).
    symmetry. apply u64_small, u64_range.
Qed.

(** [Disconnect] keeps the invariant, and what the session owed may stay owed:
    a disconnected session waits for no write. *)
Lemma Disconnect_Inv_owed x s sid :
  Inv x s -> (forall k, k <> sid -> exempt x k = false) ->
  Inv x (Disconnect config sid s) /\
  (owed x sid = 0 -> Inv None (Disconnect config sid s)).
Proof.
  intros I Hx.
  assert (G : forall s', Inv x s' ->
    (forall c, heap s' !! sid = Some c -> disconnect_started c = true) ->
    owed x sid = 0 -> Inv None s').
  { intros s' [IO IS IT IW IQ IL II IR IC IF] Hd H0.
    assert (E : forall k, owed x k = 0).
    { intros k. destruct (decide (k = sid)) as [->|Hk]; [done|]. specialize (Hx k Hk).
      unfold owed, exempt in *. destruct x as [[j n]|]; [|done]. by rewrite Hx. }
    constructor; try done.
    - intros k y Hy. change (owed None k) with 0. rewrite <-(E k). by apply IS.
    - intros k y Hy _ Dy. destruct (decide (k = sid)) as [->|Hk].
      + rewrite (Hd y Hy) in Dy. done.
      + apply (IT k y Hy); auto. }
  destruct (heap s !! sid) as [c|] eqn:H.
  2: { assert (E : Disconnect config sid s = s) by (unfold Disconnect; rewrite H; done).
       rewrite E. split; [done|]. apply G; [done|]. congruence. }
  destruct (disconnect_started c) eqn:D.
  { assert (E : Disconnect config sid s = s) by (unfold Disconnect; rewrite H, D; done).
    rewrite E. split; [done|]. apply G; [done|]. intros c' H'. congruence. }
  destruct (Disconnect_eq x s sid c I H D)
    as (c' & m' & E & E1 & E2 & E3 & _ & E4 & E5 & E6 & E7 & E8 & E9 & E10 & E11 & E12).
  rewrite E. set (s' := set_app _ _).
  assert (I' : Inv x s').
  2: { split; [done|]. apply G; [done|]. intros y. unfold s'. simpl. rewrite lookup_insert_eq. naive_solver. }
  pose proof (inv_sessions _ _ I sid c H) as [S1 S2 S3 S4 S5 S6 S7 S8 S9 S10].
  pose proof (queue_sum_nonneg _ S4). destruct (inv_registry _ _ I) as (m & R & Rm & A).
  assert (Hm : m !! sid = Some (handle c)) by (apply Rm; eauto).
  assert (Hsz : (0 < size m)%nat).
  { destruct (decide (size m = 0%nat)) as [Hz|]; [|lia]. apply map_size_empty_inv in Hz. subst m. done. }
  assert (A' : active_connections m' = Z.of_nat (size (delete sid m))).
  { rewrite map_size_delete, Hm, E12, A. pose proof (inv_connections _ _ I).
    rewrite usub_small by lia. lia. }
  constructor.
  - apply (inv_owed _ _ I).
  - intros k y. unfold s'. simpl. rewrite lookup_insert. case_decide as Ek.
    + intros [= <-]. subst k. constructor; rewrite ?E1, ?E3, ?E4, ?E5, ?E6, ?E7, ?E8, ?E9; simpl; try done; try lia.
      intros Hw. split; [done|]. apply S8. done.
    + apply (inv_sessions _ _ I).
  - intros k y. unfold s'. simpl. rewrite lookup_insert. case_decide as Ek.
    + intros [= <-]. congruence.
    + apply (inv_stall _ _ I).
  - eapply Forall_impl; [apply (inv_writes _ _ I)|]. intros op. by apply write_ok_insert with c.
  - unfold s'. simpl. rewrite (map_sum_update _ _ _ _ _ H), E10, E8, (inv_queued _ _ I). lia.
  - unfold s'. simpl. rewrite E10. pose proof (inv_queued_limit _ _ I). lia.
  - unfold s'. simpl. rewrite (map_sum_update _ _ _ _ _ H), E11, E9, (inv_inbound _ _ I), u64_sub_l.
    f_equal. lia.
  - exists (delete sid m). split_and!.
    + unfold s'. simpl. pose proof (represents_remove (sessions s) m (handle c) R) as RR.
      rewrite S1, Hm, Z.eqb_refl in RR. exact RR.
    + intros k h. unfold s'. simpl. rewrite lookup_delete. case_decide as Ek.
      * subst k. rewrite lookup_insert_eq. split; [done|]. intros (y & [= <-] & _ & ?). congruence.
      * rewrite lookup_insert_ne by done. apply Rm.
    + exact A'.
  - unfold s'. simpl. rewrite A'. pose proof (inv_connections _ _ I). rewrite A in *.
    rewrite map_size_delete, Hm. lia.
  - unfold s'. simpl. split; [apply I|]. intros k Hk. rewrite lookup_insert.
    case_decide as Ek; [|by apply I]. subst k. pose proof (proj2 (inv_fresh _ _ I) sid Hk). congruence.
Qed.

Lemma Disconnect_Inv s sid : Inv None s -> Inv None (Disconnect config sid s).
Proof. intros I. by apply Disconnect_Inv_owed. Qed.

(** ** The write path *)

(** Nothing owed and no write missing. *)
Lemma Inv_settle s sid :
  Inv (Some (sid, 0)) s ->
  (forall c, heap s !! sid = Some c -> disconnect_started c = false -> write_active c = true ->
     ops_of sid (writes s) <> []) ->
  Inv None s.
Proof.
  intros [IO IS IT IW IQ IL II IR IC IF] Hs.
  assert (E : forall k, owed (Some (sid, 0)) k = 0) by (intros k; simpl; destruct (sid =? k); done).
  constructor; try done.
  - intros k y Hy. change (owed None k) with 0. rewrite <-(E k). by apply IS.
  - intros k y Hy _ Dy. destruct (decide (k = sid)) as [->|Hk]; [by apply Hs|].
    apply (IT k y Hy); [|done]. simpl. apply Z.eqb_neq. congruence.
Qed.

(** The other sessions do not see what one session owes. *)
Lemma owed_other sid n n' k :
  k <> sid -> owed (Some (sid, n)) k = owed (Some (sid, n')) k /\
    exempt (Some (sid, n)) k = exempt (Some (sid, n')) k.
Proof. intros Hk. simpl. rewrite (proj2 (Z.eqb_neq sid k)) by congruence. done. Qed.

Lemma owed_none sid n k :
  k <> sid -> owed (Some (sid, n)) k = owed None k /\ exempt (Some (sid, n)) k = exempt None k.
Proof. intros Hk. simpl. rewrite (proj2 (Z.eqb_neq sid k)) by congruence. done. Qed.

Lemma owed_self sid n : owed (Some (sid, n)) sid = n.
Proof. simpl. by rewrite Z.eqb_refl. Qed.

(** Owing less by giving bytes back: both counters go down by [k]. *)
Lemma Inv_release s s' sid n k c c' :
  Inv (Some (sid, n)) s -> heap s !! sid = Some c -> 0 <= k <= n ->
  heap s' = <[sid := c']> (heap s) -> sessions s' = sessions s -> writes s' = writes s ->
  next_session_id s' = next_session_id s ->
  c' = set_queued_bytes (queued_bytes c - k) c ->
  queued_total (metrics s') = queued_total (metrics s) - k ->
  inbound_total (metrics s') = inbound_total (metrics s) ->
  active_connections (metrics s') = active_connections (metrics s) ->
  Inv (Some (sid, n - k)) s'.
Proof.
  intros I H Hk Eh Es Ew En -> Eq Ei Ea.
  pose proof (inv_sessions _ _ I sid c H) as [S1 S2 S3 S4 S5 S6 S7 S8 S9 S10].
  rewrite owed_self in S2.
  eapply (Inv_replace _ _ s s' sid c _ I H Eh); try done; rewrite ?owed_self, ?Ew; simpl; try done.
  - lia.
  - intros j Hj. by apply owed_other.
  - constructor; simpl; try done; lia.
  - apply (inv_writes _ _ I).
  - rewrite Z.eqb_refl. done.
  - lia.
  - rewrite Eq. pose proof (inv_queued_limit _ _ I). lia.
  - rewrite Ei, Z.sub_add, (inv_inbound _ _ I). symmetry. apply u64_small, u64_range.
Qed.

Lemma owed_bounds s sid n c :
  Inv (Some (sid, n)) s -> heap s !! sid = Some c ->
  0 <= n <= queued_bytes c /\ queued_bytes c <= queued_total (metrics s) <= size_max /\
  queued_bytes c <= size_max.
Proof.
  intros I H. pose proof (inv_sessions _ _ I sid c H) as [_ S2 _ S4 _ _ _ _ _ _].
  rewrite owed_self in S2. pose proof (inv_owed _ _ I sid) as O. rewrite owed_self in O.
  pose proof (queue_sum_nonneg _ S4). pose proof (ops_sum_nonneg _ _ sid (inv_writes _ _ I)).
  pose proof (session_queued_total _ _ _ _ I H). pose proof (inv_queued_limit _ _ I).
  pose proof (co_global_queue _ Hc). unfold is_u64 in *. lia.
Qed.

Lemma FinishAccounting_Inv s op n c ok :
  Inv (Some (op_session op, n)) s -> heap s !! op_session op = Some c ->
  TotalSize (op_cursor op) = n ->
  Inv (Some (op_session op, 0)) (FinishAccounting op ok s) /\
  writes (FinishAccounting op ok s) = writes s.
Proof.
  intros I H <-. destruct (owed_bounds _ _ _ _ I H) as (B1 & B2 & B3).
  set (n := TotalSize (op_cursor op)) in *. split; [|done].
  replace 0 with (n - n) by lia.
  eapply (Inv_release s _ (op_session op) n n c); try done; try lia.
  - unfold FinishAccounting. fold n. rewrite (modify_put _ _ _ _ H). simpl. f_equal.
    rewrite (proj2 (Z.ltb_ge (queued_bytes c) n)) by lia. rewrite usub_small by lia. done.
  - unfold FinishAccounting. fold n. destruct ok; simpl; apply usub_small; lia.
  - destruct ok; done.
  - destruct ok; done.
Qed.

(** Posting the write that carries the owed bytes. *)
Lemma Inv_post s op c :
  Inv (Some (op_session op, TotalSize (op_cursor op))) s -> heap s !! op_session op = Some c ->
  SendCursor.wf (op_cursor op) -> ops_of (op_session op) (writes s) = [] ->
  write_active c = true -> Inv None (set_writes (writes s ++ [op]) s).
Proof.
  intros I H W O A. pose proof (inv_sessions _ _ I _ c H) as [S1 S2 S3 S4 S5 S6 S7 S8 S9 S10].
  rewrite owed_self, O in S2. simpl in S2.
  eapply (Inv_replace _ None s _ (op_session op) c c I H); simpl; try done.
  - by rewrite insert_id.
  - intros k Hk. destruct (owed_none (op_session op) (TotalSize (op_cursor op)) k Hk). done.
  - constructor; simpl; rewrite ?ops_of_app, ?O, ?ops_of_single_eq; simpl; try done; try lia.
    congruence.
  - intros k Hk. rewrite ops_of_app, ops_of_single_ne by congruence. apply app_nil_r.
  - apply Forall_app. split; [apply (inv_writes _ _ I)|]. apply Forall_singleton. split; eauto.
  - intros _ _ _. rewrite ops_of_app, O, ops_of_single_eq. done.
  - lia.
  - apply (inv_queued_limit _ _ I).
  - by eapply inbound_same.
Qed.

(** Taking the front item off the queue: its bytes are owed. *)
Lemma Inv_pop s sid c item rest :
  Inv (Some (sid, 0)) s -> heap s !! sid = Some c -> send_queue c = item :: rest ->
  write_active c = true ->
  Inv (Some (sid, item_bytes item)) (put sid (set_send_queue rest c) s).
Proof.
  intros I H Q A. pose proof (inv_sessions _ _ I sid c H) as [S1 S2 S3 S4 S5 S6 S7 S8 S9 S10].
  rewrite owed_self, Q in S2. rewrite Q in S4. apply Forall_cons in S4 as [Hi S4].
  destruct (item_bytes_wf item Hi). simpl in S2.
  eapply (Inv_replace _ _ s _ sid c (set_send_queue rest c) I H); rewrite ?owed_self; simpl; try done; try lia.
  - intros k Hk. by apply owed_other.
  - constructor; simpl; try done; [lia| |congruence].
    intros D. destruct (S6 D) as [_ E]. congruence.
  - apply (inv_writes _ _ I).
  - apply (inv_queued_limit _ _ I).
  - by eapply inbound_same.
Qed.

(** A disconnected session that owes nothing keeps the invariant. *)
Lemma Disconnect_settles s sid : Inv (Some (sid, 0)) s -> Inv None (Disconnect config sid s).
Proof.
  intros I. eapply (Disconnect_Inv_owed _ _ sid I); [|apply owed_self].
  intros k Hk. simpl. apply Z.eqb_neq. congruence.
Qed.

Lemma PostWrite_frame op (s : Server) :
  exists t, PostWrite os op s = (false, s) \/ PostWrite os op s = (t, set_ticks (S (ticks s)) s).
Proof.
  unfold PostWrite. destruct (heap s !! op_session op) as [c|]; [|exists false; auto].
  destruct (negb (socket c)); [exists false; auto|]. exists (os (ticks s)). auto.
Qed.

Lemma construct_item item :
  item_wf item ->
  exists cursor, SendCursor.construct (item_header item) (Some (item_payload item)) = Some cursor /\
    SendCursor.wf cursor /\ TotalSize cursor = item_bytes item.
Proof.
  intros Hi. pose proof Hi as [W1 W2].
  destruct (SendCursor.construct (item_header item) (Some (item_payload item))) as [cursor|] eqn:E.
  - destruct (cursor_construct_wf _ _ _ E W2) as (W & Ew & _). exists cursor. split_and!; try done.
    rewrite TotalSize_wire, Ew, size_app by done. destruct (item_bytes_wf item Hi) as [-> _]. done.
  - unfold SendCursor.construct in E. revert E. split_if; [lia|done].
Qed.

Lemma StartNextWrite_Inv s sid :
  Inv (Some (sid, 0)) s -> ops_of sid (writes s) = [] ->
  (forall c, heap s !! sid = Some c -> write_active c = true) ->
  Inv None (StartNextWrite config os sid s).
Proof.
  intros I O A. unfold StartNextWrite. destruct (heap s !! sid) as [c|] eqn:H.
  2: { apply (Inv_settle s sid I). congruence. }
  specialize (A c eq_refl). destruct (send_queue c) as [|item rest] eqn:Q.
  - pose proof (inv_sessions _ _ I sid c H) as [S1 S2 S3 S4 S5 S6 S7 S8 S9 S10]. rewrite owed_self in S2.
    eapply (Inv_replace _ None s _ sid c (set_write_active false c) I H); simpl; try done; try lia.
    + intros k Hk. destruct (owed_none sid 0 k Hk). done.
    + apply (inv_writes _ _ I).
    + apply (inv_queued_limit _ _ I).
    + by eapply inbound_same.
  - pose proof (Inv_pop s sid c item rest I H Q A) as I1.
    pose proof (inv_sessions _ _ I sid c H) as [_ _ _ S4 _ _ _ _ _ _].
    rewrite Q in S4. apply Forall_cons in S4 as [Hi _].
    destruct (construct_item item Hi) as (cursor & -> & W & TS).
    unfold os_call. simpl. set (c1 := set_send_queue rest c) in *.
    set (s1 := put sid c1 s) in *.
    assert (H1 : heap s1 !! sid = Some c1) by apply lookup_insert_eq.
    assert (I2 : Inv (Some (sid, item_bytes item)) (set_ticks (S (ticks s)) s1))
      by (eapply Inv_frame; eauto).
    set (s2 := set_ticks (S (ticks s)) s1) in *.
    assert (H2 : heap s2 !! sid = Some c1) by done.
    destruct (os (ticks s)).
    + set (op := mkWrite sid cursor (item_close_after item)).
      assert (I3 : Inv (Some (sid, item_bytes item)) (TrackOperation s2)) by (eapply Inv_frame; eauto).
      set (s3 := TrackOperation s2) in *. assert (H3 : heap s3 !! sid = Some c1) by done.
      assert (G : forall s4, Inv (Some (sid, item_bytes item)) s4 -> heap s4 !! sid = Some c1 ->
        Inv None (Disconnect config sid (FinishAccounting op false s4))).
      { intros s4 I4 H4. apply Disconnect_settles. by eapply (FinishAccounting_Inv s4 op). }
      destruct (PostWrite_frame op s3) as (t & [-> | ->]); [by apply G|].
      assert (I4 : Inv (Some (sid, item_bytes item)) (set_ticks (S (ticks s3)) s3))
        by (eapply Inv_frame; eauto).
      destruct t; [|by apply G]. eapply (Inv_post _ op c1); simpl; try done. rewrite TS. done.
    + destruct (owed_bounds _ _ _ _ I2 H2) as (B1 & B2 & B3).
      apply Disconnect_settles. replace 0 with (item_bytes item - item_bytes item) by lia.
      rewrite (modify_put _ _ _ _ H2). rewrite usub_small by lia.
      eapply (Inv_release s2 _ sid _ _ c1); try done; try lia.
      simpl in *. rewrite usub_small by lia. done.
Qed.

(** Finishing a write that was taken off the outstanding list. *)
Lemma FinishWrite_Inv s op ok c :
  Inv (Some (op_session op, TotalSize (op_cursor op))) s -> heap s !! op_session op = Some c ->
  ops_of (op_session op) (writes s) = [] -> write_active c = true ->
  Inv None (FinishWrite config os op ok s).
Proof.
  intros I H O A. destruct (FinishAccounting_Inv s op _ c ok I H eq_refl) as [I' W'].
  unfold FinishWrite. destruct (negb ok || op_close_after op).
  - by apply Disconnect_settles.
  - apply StartNextWrite_Inv; [done|by rewrite W'|]. intros y.
    unfold FinishAccounting. rewrite (modify_put _ _ _ _ H).
    destruct ok; simpl; rewrite lookup_insert_eq; intros [= <-]; done.
Qed.

(** Taking a write off the outstanding list. *)
Lemma Inv_take s i op :
  Inv None s -> writes s !! i = Some op ->
  exists c, heap s !! op_session op = Some c /\ SendCursor.wf (op_cursor op) /\
    write_active c = true /\ ops_of (op_session op) (delete i (writes s)) = [] /\
    Inv (Some (op_session op, TotalSize (op_cursor op))) (set_writes (delete i (writes s)) s).
Proof.
  intros I Hi. pose proof (inv_writes _ _ I) as F. rewrite Forall_lookup in F.
  destruct (F i op Hi) as [[c H] W]. exists c.
  pose proof (inv_sessions _ _ I _ c H) as [S1 S2 S3 S4 S5 S6 S7 S8 S9 S10].
  destruct (ops_of_delete_eq _ _ _ Hi S7) as [E1 E2].
  assert (A : write_active c = true).
  { destruct (write_active c); [done|]. destruct (S8 eq_refl). congruence. }
  assert (TN : 0 <= TotalSize (op_cursor op)) by (rewrite TotalSize_wire by done; apply size_nonneg).
  split_and!; try done. rewrite E1 in S2. simpl in S2.
  eapply (Inv_replace None _ s _ (op_session op) c c I H); simpl; rewrite ?Z.eqb_refl; try done; try lia.
  - by rewrite insert_id.
  - intros k Hk. rewrite (proj2 (Z.eqb_neq _ k)) by congruence. done.
  - constructor; simpl; rewrite ?E2; simpl; try done; try lia. congruence.
  - intros k Hk. apply ops_of_delete_ne with op; [done|congruence].
  - apply Forall_delete. apply (inv_writes _ _ I).
  - apply (inv_queued_limit _ _ I).
  - by eapply inbound_same.
Qed.

Lemma HandleWrite_Inv s i ok n :
  Inv None s -> 0 <= n <= size_max -> Inv None (HandleWrite config os i ok n s).
Proof.
  intros I Hn. unfold HandleWrite. destruct (writes s !! i) as [op|] eqn:E; [|done].
  destruct (Inv_take s i op I E) as (c & H & W & A & O & I1).
  set (s1 := set_writes _ _) in *. destruct (negb ok || (n =? 0)); [by eapply FinishWrite_Inv|].
  destruct (Consume_spec n _ W Hn) as (W1 & Ew & _).
  assert (TS : TotalSize (Consume n (op_cursor op)) = TotalSize (op_cursor op))
    by (rewrite !TotalSize_wire, Ew by done; done).
  set (op' := mkWrite _ _ _). rewrite <-TS in I1.
  change (Inv (Some (op_session op', TotalSize (op_cursor op'))) s1) in I1.
  change (heap s1 !! op_session op' = Some c) in H.
  change (ops_of (op_session op') (writes s1) = []) in O.
  split_if; [|by eapply FinishWrite_Inv].
  destruct (PostWrite_frame op' s1) as (t & [-> | ->]); [by eapply FinishWrite_Inv|].
  assert (I2 : Inv (Some (op_session op', TotalSize (op_cursor op'))) (set_ticks (S (ticks s1)) s1))
    by (eapply Inv_frame; eauto).
  destruct t; [|by eapply FinishWrite_Inv]. by eapply Inv_post.
Qed.

(** ** Queueing and sending *)

Lemma Enqueue_Inv s sid item :
  Inv None s -> item_wf item -> Inv None (Enqueue config os sid item s).2.
Proof.
  intros I Hi. unfold Enqueue. destruct (heap s !! sid) as [c|] eqn:H; [|done].
  destruct (disconnect_started c) eqn:D; [done|].
  assert (F : Inv None (count (fun m => set_send_failures (send_failures m + 1)%u64 m) s))
    by (eapply Inv_frame; eauto).
  pose proof (inv_sessions _ _ I sid c H) as [S1 S2 S3 S4 S5 S6 S7 S8 S9 S10]. simpl in S2.
  destruct (item_bytes_wf item Hi) as [_ B]. set (n := item_bytes item) in *.
  pose proof (co_session_queue _ Hc). pose proof (co_global_queue _ Hc).
  pose proof (session_queued_nonneg _ _ _ _ I H). pose proof (total_nonneg' _ _ I).
  destruct (max_session_queued_bytes config <? n) eqn:L1; simpl; [done|].
  rewrite (usub_small (max_session_queued_bytes config)) by (unfold is_u64 in *; lia).
  destruct (max_session_queued_bytes config - n <? queued_bytes c) eqn:L2; simpl; [done|].
  unfold ReserveGlobalQueued.
  destruct (max_global_queued_bytes config <? n) eqn:L3; simpl; [done|].
  rewrite (usub_small (max_global_queued_bytes config)) by (unfold is_u64 in *; lia).
  destruct (max_global_queued_bytes config - n <? queued_total (metrics s)) eqn:L4; simpl; [done|].
  rewrite !uadd_small by (unfold is_u64 in *; lia).
  set (c' := set_write_active true _). set (s' := put sid c' _).
  assert (G : forall x, owed x sid = 0 -> (forall k, k <> sid -> owed x k = 0 /\ exempt x k = false) ->
    (exempt x sid = false -> ops_of sid (writes s) <> []) -> Inv x s').
  { intros x Ox Xk Xs.
    eapply (Inv_replace None x s s' sid c c' I H); simpl; rewrite ?Ox; try done; try lia.
    - constructor; simpl; rewrite ?queue_sum_app; simpl; try done; try lia.
      + apply Forall_app. split; [done|]. by apply Forall_singleton.
      + congruence.
    - apply (inv_writes _ _ I).
    - intros E _ _. by apply Xs.
    - by eapply inbound_same. }
  destruct (write_active c) eqn:A; simpl.
  - apply G; try done. intros _. by eapply (inv_stall _ _ I sid c).
  - destruct (S8 eq_refl) as [_ O]. apply StartNextWrite_Inv.
    + apply G; simpl; rewrite ?Z.eqb_refl; try done.
      intros k Hk. rewrite (proj2 (Z.eqb_neq sid k)) by congruence. done.
    + done.
    + intros y. simpl. rewrite lookup_insert_eq. intros [= <-]. done.
Qed.

Lemma SendRaw_Inv s sid response close_after :
  Inv None s -> size_of response <= size_max - 16 ->
  Inv None (SendRaw config os sid response close_after s).
Proof.
  intros I L. unfold SendRaw.
  pose proof (Enqueue_Inv s sid (mkItem [] response close_after) I) as E.
  destruct (Enqueue config os sid _ s) as [queued s1].
  assert (I1 : Inv None s1) by (apply E; constructor; [done|exact L]).
  split_if; [by apply Disconnect_Inv|done].
Qed.

Lemma size_WebSocketHeader opcode n : size_of (WebSocketHeader opcode n) <= 16.
Proof.
  unfold WebSocketHeader. destruct (BuildFrameHeader opcode n) as [compact k] eqn:E.
  pose proof (size_ztake_le k compact). revert E. unfold BuildFrameHeader.
  repeat split_if; intros; simplify_eq; unfold size_of in *; simpl in *; lia.
Qed.

Lemma SendControl_Inv s sid opcode payload close_after :
  Inv None s -> size_of payload <= size_max - 16 ->
  Inv None (SendControl config os clock sid opcode payload close_after s).
Proof.
  intros I L. unfold SendControl. destruct (heap s !! sid) as [c|] eqn:H; [|done].
  set (item := mkItem _ _ _).
  assert (W : item_wf item) by (constructor; [apply size_WebSocketHeader|exact L]).
  destruct close_after; [|by apply Enqueue_Inv].
  split_if; [done|]. unfold MonotonicMilliseconds.
  set (s1 := set_ticks _ _). set (s2 := put sid _ s1).
  assert (I2 : Inv None s2).
  { eapply Inv_put; [eapply Inv_frame; eauto|exact H|]. constructor; done. }
  pose proof (Enqueue_Inv s2 sid item I2 W) as I3.
  destruct (Enqueue config os sid item s2) as [queued s3]. split_if; [by apply Disconnect_Inv|done].
Qed.

Lemma Send_Inv s h payload : Inv None s -> Inv None (Send config os h payload s).2.
Proof.
  intros I. unfold Send. destruct (table_find h (sessions s)) as [found|]; [|done].
  destruct payload as [bytes|]; [|done]. destruct (heap s !! id found) as [c|]; [|done].
  destruct (size_of bytes =? 0); simpl; [done|].
  destruct (max_message_bytes config <? size_of bytes) eqn:L; simpl; [done|].
  pose proof (co_message _ Hc). split_if; [done|]. destruct (transport c); [done| |].
  - destruct (EncodeLength (size_of bytes)) as [header|] eqn:E; [|done].
    apply Enqueue_Inv; [done|]. constructor; simpl; [|unfold size_max; lia].
    revert E. unfold EncodeLength. split_if; [done|]. intros. simplify_eq. done.
  - apply Enqueue_Inv; [done|]. constructor; simpl; [apply size_WebSocketHeader|unfold size_max; lia].
Qed.

Lemma Close_Inv s h code reason : Inv None s -> Inv None (Close config os clock h code reason s).
Proof.
  intros I. unfold Close. destruct (table_find h (sessions s)) as [found|]; [|done].
  destruct (heap s !! id found) as [c|]; [|done]. split_if; [by apply Disconnect_Inv|].
  apply SendControl_Inv; [done|]. split_if.
  - rewrite size_app. pose proof (size_ztake_le 123 reason). unfold size_max in *. rewrite size_cons, size_single. lia.
  - rewrite size_app. unfold size_max in *. rewrite size_cons, size_single. lia.
Qed.

(** ** Inbound accounting *)

Lemma AccountInbound_spec bytes c m c' m' e :
  AccountInbound config bytes c m = (c', m', e) -> is_u64 bytes -> is_u64 (inbound_accounted c) ->
  inbound_total m = u64 (inbound_total m) ->
  c' = set_inbound_accounted bytes c /\
  m' = set_inbound_total (u64 (inbound_total m - inbound_accounted c + bytes)) m.
Proof.
  unfold AccountInbound, is_u64. intros E B A U. revert E. repeat split_if; intros [= <- <- <-].
  - split; [done|]. f_equal. unfold uadd. rewrite usub_small by lia. f_equal. lia.
  - split; [done|]. f_equal. unfold usub at 1. rewrite usub_small by lia. f_equal. lia.
  - assert (inbound_accounted c = bytes) by lia. split; [by destruct c; simpl in *; subst|].
    rewrite <-H, Z.sub_add, <-U. by destruct m.
Qed.

Lemma UpdateInboundAccounting_Inv s sid bytes :
  Inv None s -> is_u64 bytes -> Inv None (UpdateInboundAccounting config sid bytes s).
Proof.
  intros I B. unfold UpdateInboundAccounting. destruct (heap s !! sid) as [c|] eqn:H; [|done].
  destruct (AccountInbound config bytes c (metrics s)) as [[c' m'] e] eqn:E.
  pose proof (inv_sessions _ _ I sid c H) as [S1 S2 S3 S4 S5 S6 S7 S8 S9 S10].
  destruct (AccountInbound_spec _ _ _ _ _ _ E B S5) as [-> ->].
  { rewrite (inv_inbound _ _ I). symmetry. apply u64_small, u64_range. }
  assert (I1 : Inv None (set_metrics (set_inbound_total
    (u64 (inbound_total (metrics s) - inbound_accounted c + bytes)) (metrics s))
    (put sid (set_inbound_accounted bytes c) s))).
  { eapply (Inv_replace None None s _ sid c (set_inbound_accounted bytes c) I H); simpl; try done; try lia.
    - apply (inv_writes _ _ I).
    - intros _. by apply (inv_stall _ _ I sid c).
    - apply (inv_queued_limit _ _ I). }
  destruct e; [by apply Disconnect_Inv|done].
Qed.
End invariant.
