(* ===== verification/Operations.v ===== *)
(** * Overlapped operations (src/src/core/iocp_server.cpp)

    The objects behind an [OVERLAPPED], the buffers [PostRead] and [PostWrite]
    give to the system, and how [WorkerLoop] finds its way back from a
    completion to the operation. *)

From S2P Require Import Prelude OutboundQueue SendCursor ServerTypes Server ServerInbound ServerInvariant.

(** ** Operations *)

Inductive IoOperation := IoAccept | IoRead | IoWrite.

(** The bytes [buf] points to, and the 32-bit [len]. *)
Record WSABUF := mkWsabuf { buf : list byte; len : Z }.

(** What the system may write or read through a buffer. *)
Definition reaches (b : WSABUF) : list byte := ztake (len b) (buf b).

(** The operations, with the [operation] of their contexts. *)
Inductive Operation :=
| AcceptOperation (operation : IoOperation) (socket : option Z)
| ReadOperation (operation : IoOperation) (session : Z) (wsabuf : WSABUF) (buffer : list byte)
| WriteOperation (operation : IoOperation) (session : Z) (cursor : SendCursor) (close_after : bool).

Definition operation_of (o : Operation) : IoOperation :=
  match o with AcceptOperation op _ | ReadOperation op _ _ _ | WriteOperation op _ _ _ => op end.

(** The constructors. *)
Definition new_accept (socket : Z) : Operation := AcceptOperation IoAccept (Some socket).

Definition new_read (session : Z) (buffer_size : Z) : Operation :=
  let buffer := replicate (Z.to_nat buffer_size) Byte.x00 in
  ReadOperation IoRead session (mkWsabuf buffer (u32 (size_of buffer))) buffer.

Definition new_write (session : Z) (item : OutboundItem) : option Operation :=
  cursor ← SendCursor.construct (item_header item) (Some (item_payload item));
  Some (WriteOperation IoWrite session cursor (item_close_after item)).

(** ** Posting *)

(** [PostRead]: the buffer for [WSARecv]. *)
Definition read_buffers (buffer : list byte) : list WSABUF := [mkWsabuf buffer (u32 (size_of buffer))].

(** [PostWrite]: the buffers for [WSASend]. *)
Definition write_buffers (cursor : SendCursor) : list WSABUF :=
  let header := HeaderRemainder cursor in
  let payload := PayloadRemainder cursor in
  (if negb (size_of header =? 0) then [mkWsabuf header (u32 (size_of header))] else []) ++
  (if negb (size_of payload =? 0) then [mkWsabuf payload (u32 (size_of payload))] else []).

(** ** Completions *)

(** What the worker does with what [GetQueuedCompletionStatus] returned;
    [Undefined]: the operation is cast to a type it does not have. *)
Inductive dispatch :=
| WorkerReturns
| ToHandleAccept (socket : option Z) (succeeded : bool)
| ToHandleRead (session : Z) (succeeded : bool) (bytes : Z)
| ToHandleWrite (session : Z) (cursor : SendCursor) (close_after succeeded : bool) (bytes : Z)
| Undefined.

Definition WorkerLoop_dispatch (overlapped : option Operation) (succeeded : bool) (bytes : Z) : dispatch :=
  match overlapped with
  | None => WorkerReturns
  | Some o =>
      match operation_of o, o with
      | IoAccept, AcceptOperation _ socket => ToHandleAccept socket succeeded
      | IoRead, ReadOperation _ session _ _ => ToHandleRead session succeeded bytes
      | IoWrite, WriteOperation _ session cursor close_after => ToHandleWrite session cursor close_after succeeded bytes
      | _, _ => Undefined
      end
  end.

(** ** Properties *)

Lemma reaches_all bytes : size_of bytes <= 4294967295 -> reaches (mkWsabuf bytes (u32 (size_of bytes))) = bytes.
Proof.
  intros L. unfold reaches. simpl. pose proof (size_nonneg bytes). rewrite u32_small by lia.
  unfold ztake, size_of. rewrite Nat2Z.id. by apply take_ge.
Qed.

(** The buffers of a write are what is left of the message. *)
Lemma write_buffers_left cursor :
  SendCursor.wf cursor -> size_of (wire cursor) <= 4294967295 ->
  concat (map reaches (write_buffers cursor)) = zdrop (sent_ cursor) (wire cursor) /\
  (length (write_buffers cursor) <= 2)%nat /\
  Forall (fun b => 0 < len b) (write_buffers cursor).
Proof.
  intros W L. rewrite <-(remainders_wire cursor W).
  assert (E : size_of (HeaderRemainder cursor) + size_of (PayloadRemainder cursor) <= size_of (wire cursor)).
  { rewrite <-size_app, (remainders_wire cursor W). unfold zdrop, size_of. rewrite length_drop. lia. }
  pose proof (size_nonneg (HeaderRemainder cursor)). pose proof (size_nonneg (PayloadRemainder cursor)).
  assert (Z0 : forall l : list byte, size_of l = 0 -> l = []) by (intros [|] ?; unfold size_of in *; simpl in *; [done|lia]).
  unfold write_buffers. rewrite map_app, concat_app, length_app, Forall_app. split_and!.
  - f_equal; split_if; simpl; rewrite ?app_nil_r; try (symmetry; by apply Z0); apply reaches_all; lia.
  - repeat split_if; simpl; lia.
  - split_if; constructor; [|constructor]. simpl. rewrite u32_small; lia.
  - split_if; constructor; [|constructor]. simpl. rewrite u32_small; lia.
Qed.

(** C37. What is posted, and how it comes back.  [PostWrite] gives the system at
    most two buffers, none of them empty, and they are exactly the bytes of the
    message not sent yet; there is none exactly when the message is complete.
    [PostRead] gives it the whole buffer, of at least 1024 bytes, so a read of no
    bytes means that the peer has closed.  A completion is handled as the
    operation it was made as. *)
Theorem posted_operations (config : ServerConfig) (cores : Z) :
  receive_buffer_bytes config <= 4294967295 ->
  (forall cursor, SendCursor.wf cursor -> size_of (wire cursor) <= 4294967295 ->
     concat (map reaches (write_buffers cursor)) = zdrop (sent_ cursor) (wire cursor) /\
     (length (write_buffers cursor) <= 2)%nat /\ Forall (fun b => 0 < len b) (write_buffers cursor) /\
     (write_buffers cursor = [] <-> Complete cursor = true)) /\
  (forall session op b buffer,
     new_read session (receive_buffer_bytes (Impl_config cores config)) = ReadOperation op session b buffer ->
     read_buffers buffer = [b] /\ reaches b = buffer /\ 1024 <= len b) /\
  (forall succeeded bytes,
     WorkerLoop_dispatch None succeeded bytes = WorkerReturns /\
     (forall socket, WorkerLoop_dispatch (Some (new_accept socket)) succeeded bytes =
        ToHandleAccept (Some socket) succeeded) /\
     (forall session size, WorkerLoop_dispatch (Some (new_read session size)) succeeded bytes =
        ToHandleRead session succeeded bytes) /\
     (forall session item o, item_wf item -> new_write session item = Some o ->
        exists cursor, wire cursor = item_header item ++ item_payload item /\ sent_ cursor = 0 /\
          WorkerLoop_dispatch (Some o) succeeded bytes =
            ToHandleWrite session cursor (item_close_after item) succeeded bytes)).
Proof.
  intros Lr. split_and!.
  - intros cursor W L. destruct (write_buffers_left cursor W L) as (E & N & F). split_and!; try done.
    unfold Complete. rewrite Z.eqb_eq, (Remaining_wire cursor W). pose proof (size_wire cursor W) as Sw.
    pose proof W as Wc. destruct W as [_ _ _ S]. split.
    + intros B. rewrite B in E. simpl in E. assert (D : size_of (zdrop (sent_ cursor) (wire cursor)) = 0) by (by rewrite <-E).
      rewrite size_zdrop in D by lia. lia.
    + intros Z0. assert (D : size_of (zdrop (sent_ cursor) (wire cursor)) = 0) by (rewrite size_zdrop by lia; lia).
      rewrite <-(remainders_wire cursor Wc), size_app in D.
      pose proof (size_nonneg (HeaderRemainder cursor)). pose proof (size_nonneg (PayloadRemainder cursor)).
      unfold write_buffers. rewrite !(proj2 (Z.eqb_eq _ _)) by lia. done.
  - intros session op b buffer [= <- <- <-]. simpl.
    set (n := Z.max 1024 (receive_buffer_bytes config)).
    assert (Sz : size_of (replicate (Z.to_nat n) Byte.x00) = n) by (unfold size_of; rewrite length_replicate; lia).
    split_and!; [done|apply reaches_all; rewrite Sz; lia|]. rewrite Sz, u32_small; lia.
  - intros succeeded bytes. split_and!; try done. intros session item o Wi E. unfold new_write in E.
    destruct (SendCursor.construct _ _) as [cursor|] eqn:C; [|done]. simpl in E. injection E as <-.
    destruct (cursor_construct_wf _ _ _ C (iw_payload _ Wi)) as (_ & Ew & E0). by exists cursor.
Qed.

(** Three bytes of a message of seven are sent. *)
Lemma posted_operations_witness :
  concat (map reaches (write_buffers (Consume 3 (mkSendCursor (bstr "AB" ++ replicate 14 Byte.x00) 2 (Some (bstr "hello")) 0))))
    = bstr "ello".
Proof.
  destruct (posted_operations default_config 4 ltac:(simpl; lia)) as (P & _).
  destruct (P (Consume 3 (mkSendCursor (bstr "AB" ++ replicate 14 Byte.x00) 2 (Some (bstr "hello")) 0))) as (E & _).
  - constructor; [reflexivity|simpl; lia|simpl; intros; discriminate|vm_compute; split; discriminate].
  - vm_compute. discriminate.
  - exact E.
Defined.
