(* ===== verification/ServerReceive.v ===== *)
(** * The server: the receive path keeps the invariant

    The operations on one session leave its decoders alone ([evolves]); the
    receive loops return for every input and keep the invariant [Inv]. *)

From S2P Require Import Prelude SessionHandle OutboundQueue SendCursor Framing Base64 Sha1.
From S2P Require Import WebSocketDecoder Handshake SessionRegistry ServerTypes Server.
From S2P Require Import ServerInbound ServerInvariant.

Section receive.
Context {St T : Type} `{App : Application St} `{Tab : SessionTable SessionHandle T (fun h => h)}.
Context (config : ServerConfig) (os : nat -> bool) (clock : nat -> Z) (Hc : config_ok config).
#[local] Abbreviation Server := (Server St T).
#[local] Abbreviation Inv := (Inv config).

(** ** What the operations on a session leave alone *)

Record kept (c c' : ClientSession) : Prop := {
  kp_handle : handle c' = handle c;
  kp_raw : raw_decoder c' = raw_decoder c;
  kp_ws : websocket_decoder c' = websocket_decoder c;
  kp_detection : detection_buffer c' = detection_buffer c;
  kp_transport : transport c' = transport c;
  kp_gone : disconnect_started c = true -> disconnect_started c' = true;
  kp_open : state c' = Open -> state c = Open;
}.

#[export] Instance kept_preorder : PreOrder kept.
Proof.
  split; [constructor; done|]. intros a b c [? ? ? ? ? ? ?] [? ? ? ? ? ? ?]. constructor; congruence || auto.
Qed.

(** Operations counted by [outstanding_operations] but not at the port. *)
Definition untracked (s : Server) : Z :=
  u64 (outstanding_operations s
    - Z.of_nat (length (reads s) + length (writes s) + accepts s)).

(** No session appears or comes back, no read starts or ends. *)
Record follows (s s' : Server) : Prop := {
  fw_sessions : forall sid c, heap s !! sid = Some c ->
    exists c', heap s' !! sid = Some c' /\
      (disconnect_started c = true -> disconnect_started c' = true);
  fw_new : forall sid, heap s !! sid = None -> heap s' !! sid = None;
  fw_reads : reads s' = reads s;
  fw_running : running s' = running s;
  fw_untracked : untracked s' = untracked s;
  fw_accepts : accepts s' = accepts s;
}.

#[export] Instance follows_preorder : PreOrder follows.
Proof.
  split.
  - intros s. constructor; try done. intros sid c H. exists c. done.
  - intros a b c [H1 N1 P1 R1 U1 A1] [H2 N2 P2 R2 U2 A2]. constructor; try congruence; [|auto].
    intros sid x H. destruct (H1 sid x H) as (y & Hy & K1). destruct (H2 sid y Hy) as (z & Hz & K2).
    exists z. auto.
Qed.

Record evolves (s s' : Server) : Prop := {
  ev_follows : follows s s';
  ev_sessions : forall sid c, heap s !! sid = Some c ->
    exists c', heap s' !! sid = Some c' /\ kept c c';
}.

#[export] Instance evolves_preorder : PreOrder evolves.
Proof.
  split.
  - intros s. constructor; [done|]. intros sid c H. exists c. done.
  - intros a b c [F1 H1] [F2 H2]. constructor; [by transitivity b|]. intros sid x H.
    destruct (H1 sid x H) as (y & Hy & K1). destruct (H2 sid y Hy) as (z & Hz & K2).
    exists z. split; [done|]. by transitivity y.
Qed.

(** A step of one session's record, whatever it does to the counters. *)
Lemma follows_step (s s' : Server) sid c c' :
  heap s !! sid = Some c -> heap s' = <[sid := c']> (heap s) ->
  (disconnect_started c = true -> disconnect_started c' = true) ->
  reads s' = reads s -> running s' = running s -> accepts s' = accepts s ->
  untracked s' = untracked s -> follows s s'.
Proof.
  intros H E K P R A U. constructor; try done.
  - intros k y Hy. rewrite E, lookup_insert. case_decide; [subst k; simplify_eq; eauto|eauto].
  - intros k Hk. rewrite E, lookup_insert_ne; congruence.
Qed.

Lemma evolves_step (s s' : Server) sid c c' :
  heap s !! sid = Some c -> heap s' = <[sid := c']> (heap s) -> kept c c' ->
  reads s' = reads s -> running s' = running s -> accepts s' = accepts s ->
  untracked s' = untracked s -> evolves s s'.
Proof.
  intros H E K P R A U. constructor; [eapply (follows_step s s' sid c c'); try done; apply K|].
  intros k y Hy. rewrite E, lookup_insert.
  case_decide; [subst k; simplify_eq; eauto|]. exists y. done.
Qed.

Ltac one_session :=
  eapply evolves_step; [eassumption | reflexivity | constructor; done | done..].

Lemma evolves_frame (s s' : Server) :
  heap s' = heap s -> reads s' = reads s -> running s' = running s ->
  accepts s' = accepts s -> untracked s' = untracked s -> evolves s s'.
Proof.
  intros E P R A U. assert (G : forall sid c, heap s !! sid = Some c ->
    exists c', heap s' !! sid = Some c' /\ kept c c') by (intros k y Hy; rewrite E; exists y; done).
  constructor; [|done]. constructor; try done; [|by rewrite E].
  intros k y Hy. destruct (G k y Hy) as (z & Hz & K). exists z. split; [done|apply K].
Qed.

(** An operation taken on and given up, or taken on and posted. *)
Lemma untracked_done (s s' : Server) :
  outstanding_operations s' = (outstanding_operations s + 1)%u64 ->
  reads s' = reads s -> writes s' = writes s -> accepts s' = accepts s ->
  untracked (CompleteOperation s') = untracked s.
Proof.
  intros O R W A. unfold untracked, uadd, usub. simpl. rewrite O, R, W, A. unfold uadd, usub.
  rewrite !u64_sub_l, <-Z.sub_add_distr, u64_sub_l. f_equal. lia.
Qed.

Lemma untracked_posted (s s' : Server) :
  outstanding_operations s' = (outstanding_operations s + 1)%u64 ->
  (length (reads s') + length (writes s') + accepts s' =
    S (length (reads s) + length (writes s) + accepts s))%nat ->
  untracked s' = untracked s.
Proof.
  intros O L. unfold untracked. rewrite O, L. unfold uadd. rewrite u64_sub_l. f_equal. lia.
Qed.

Lemma evolves_modify (s : Server) sid f :
  (forall c, kept c (f c)) -> evolves s (modify sid f s).
Proof.
  intros K. destruct (heap s !! sid) as [c|] eqn:H.
  - rewrite (modify_put _ _ _ _ H). by eapply evolves_step.
  - apply evolves_frame; try done. simpl. apply map_eq. intros k.
    destruct (decide (k = sid)) as [->|Hk]; [by rewrite lookup_alter_eq, H|].
    by rewrite lookup_alter_ne.
Qed.

Lemma drop_queue_kept c m : kept c (drop_queue c m).1.
Proof. unfold drop_queue. destruct (foldl _ _ _). done. Qed.

Lemma AccountInbound_kept b c m : kept c (AccountInbound config b c m).1.1.
Proof. unfold AccountInbound. repeat split_if; done. Qed.

Lemma Disconnect_evolves sid s : evolves s (Disconnect config sid s).
Proof.
  unfold Disconnect. destruct (heap s !! sid) as [c|] eqn:H; [|done].
  destruct (disconnect_started c) eqn:D; [done|].
  match goal with |- context [drop_queue ?x ?m] =>
    pose proof (drop_queue_kept x m) as K1; destruct (drop_queue x m) as [c1 m1] end.
  pose proof (AccountInbound_kept 0 c1 m1) as K2.
  destruct (AccountInbound config 0 c1 m1) as [[c2 m2] e]. simpl in *.
  eapply (evolves_step s _ sid c c2 H); [done| |done..].
  transitivity c1; [|done]. refine (transitivity (y := set_socket false _) _ K1). constructor; done.
Qed.

Lemma UpdateInboundAccounting_evolves sid b s :
  evolves s (UpdateInboundAccounting config sid b s).
Proof.
  unfold UpdateInboundAccounting. destruct (heap s !! sid) as [c|] eqn:H; [|done].
  pose proof (AccountInbound_kept b c (metrics s)) as K.
  destruct (AccountInbound config b c (metrics s)) as [[c1 m1] e]. simpl in K.
  set (s1 := set_metrics m1 _).
  assert (E : evolves s s1) by (eapply (evolves_step s s1 sid c c1); done).
  destruct e; [|done]. transitivity s1; [done|apply Disconnect_evolves].
Qed.

Lemma FinishAccounting_evolves op ok (s : Server) :
  evolves (CompleteOperation s) (FinishAccounting op ok s).
Proof.
  transitivity (modify (op_session op) (fun c => set_queued_bytes
    (if queued_bytes c <? TotalSize (op_cursor op) then 0
     else (queued_bytes c - TotalSize (op_cursor op))%u64) c) (CompleteOperation s)).
  - apply evolves_modify. constructor; done.
  - by apply evolves_frame.
Qed.

Lemma PostWrite_ticks op (s : Server) : exists ok t, PostWrite os op s = (ok, set_ticks t s).
Proof.
  destruct (PostWrite_frame os op s) as (t & [-> | ->]); [|eauto].
  exists false, (ticks s). by destruct s.
Qed.

Lemma StartNextWrite_evolves sid s : evolves s (StartNextWrite config os sid s).
Proof.
  unfold StartNextWrite. destruct (heap s !! sid) as [c|] eqn:H; [|done].
  destruct (send_queue c) as [|item rest].
  { one_session. }
  set (s1 := put sid _ s). unfold os_call.
  assert (E1 : evolves s s1) by (one_session).
  set (s2 := set_ticks _ s1).
  assert (E2 : evolves s s2) by (transitivity s1; [done|by apply evolves_frame]).
  assert (F : evolves s (Disconnect config sid
    (count (fun m => set_send_failures (send_failures m + 1)%u64 m)
      (count (fun m => set_queued_total (queued_total m - item_bytes item)%u64 m)
        (modify sid (fun c => set_queued_bytes (queued_bytes c - item_bytes item)%u64 c) s2))))).
  { transitivity s2; [done|]. etransitivity; [|apply Disconnect_evolves].
    transitivity (modify sid (fun c => set_queued_bytes (queued_bytes c - item_bytes item)%u64 c) s2);
      [apply evolves_modify; constructor; done | by apply evolves_frame]. }
  destruct (os (ticks s1)); [|exact F]. destruct (SendCursor.construct _ _) as [cursor|]; [|exact F].
  set (op := mkWrite _ _ _).
  destruct (PostWrite_ticks op (TrackOperation s2)) as (posted & t & ->).
  transitivity s2; [done|]. destruct posted.
  - apply evolves_frame; [done..|]. apply untracked_posted; [done|]. simpl. rewrite length_app. simpl. lia.
  - etransitivity; [|apply Disconnect_evolves]. etransitivity; [|apply FinishAccounting_evolves].
    apply evolves_frame; [done..|]. by apply untracked_done.
Qed.

Lemma Enqueue_evolves sid item s : evolves s (Enqueue config os sid item s).2.
Proof.
  unfold Enqueue. destruct (heap s !! sid) as [c|] eqn:H; [|done].
  destruct (disconnect_started c) eqn:D; [done|]. split_if; [by apply evolves_frame|].
  unfold ReserveGlobalQueued. split_if; [by apply evolves_frame|]. simpl.
  set (s1 := put sid _ _).
  assert (E1 : evolves s s1) by (one_session).
  split_if; [|done]. transitivity s1; [done|apply StartNextWrite_evolves].
Qed.

Lemma SendRaw_evolves sid response ca s : evolves s (SendRaw config os sid response ca s).
Proof.
  unfold SendRaw. pose proof (Enqueue_evolves sid (mkItem [] response ca) s) as E.
  destruct (Enqueue config os sid _ s) as [q s1]. simpl in E.
  split_if; [|done]. transitivity s1; [done|apply Disconnect_evolves].
Qed.

Lemma SendControl_evolves sid op payload ca s :
  evolves s (SendControl config os clock sid op payload ca s).
Proof.
  unfold SendControl. destruct (heap s !! sid) as [c|] eqn:H; [|done]. set (item := mkItem _ _ _).
  destruct ca; [|apply Enqueue_evolves]. split_if; [done|]. unfold MonotonicMilliseconds.
  set (s1 := put sid _ _).
  assert (E1 : evolves s s1) by (one_session).
  pose proof (Enqueue_evolves sid item s1) as E. destruct (Enqueue config os sid item s1) as [q s2].
  transitivity s1; [done|]. split_if; [|done]. transitivity s2; [done|apply Disconnect_evolves].
Qed.

Lemma Send_evolves h payload s : evolves s (Send config os h payload s).2.
Proof.
  unfold Send. destruct (table_find h (sessions s)); [|done]. destruct payload; [|done].
  destruct (heap s !! _) as [c|]; [|done]. split_if; [done|].
  destruct (transport c); [done| |apply Enqueue_evolves].
  destruct (EncodeLength _); [apply Enqueue_evolves|done].
Qed.

Lemma Close_evolves h code reason s : evolves s (Close config os clock h code reason s).
Proof.
  unfold Close. destruct (table_find h (sessions s)); [|done].
  destruct (heap s !! _) as [c|]; [|done]. split_if; [apply Disconnect_evolves|].
  apply SendControl_evolves.
Qed.

Lemma RecordMalformed_evolves sid (s : Server) : evolves s (RecordMalformed sid s).
Proof.
  unfold RecordMalformed.
  transitivity (modify sid (fun c => set_malformed_messages (u32 (malformed_messages c + 1)) c) s);
    [apply evolves_modify; constructor; done | by apply evolves_frame].
Qed.

Lemma send_all_evolves out s : evolves s (send_all config os out s).
Proof.
  revert s. induction out as [|[h p] out IH]; intros s; [done|]. simpl.
  etransitivity; [apply (Send_evolves h (Some p))|apply IH].
Qed.

(** ** [DeliverMessage] *)

(** The rate window: the counter of the current second, the message counted. *)
Definition rate_step (now : Z) (c : ClientSession) : ClientSession :=
  let c := if 1000 <=? now - rate_window_ms c
           then set_rate_window_messages 0 (set_rate_window_ms now c) else c in
  set_rate_window_messages (rate_window_messages c + 1)%u64 c.

Lemma rate_step_neutral now c : neutral c (rate_step now c) /\ kept c (rate_step now c).
Proof. unfold rate_step. split_if; split; constructor; done. Qed.

(** [DeliverMessage] once the window is updated. *)
Lemma DeliverMessage_eq sid message s c :
  heap s !! sid = Some c ->
  let now := clock (ticks s) in
  let c1 := rate_step now c in
  let s1 := put sid c1 (set_ticks (S (ticks s)) s) in
  DeliverMessage config os clock sid message s =
    if max_messages_per_second config <? rate_window_messages c1
    then (false, Close config os clock (handle c) 1008 (bstr "message rate limit exceeded") s1) else
    match message_handler with
    | None => (true, s1)
    | Some callback =>
        let s2 := set_ticks (S (ticks s1))
          (count (fun m => set_received_messages (received_messages m + 1)%u64 m) s1) in
        let '(disposition, out, app') := callback (clock (ticks s1)) (handle c) message (app s1) in
        let s3 := send_all config os out (set_app app' s2) in
        if bool_decide (disposition = Accepted) then (true, s3) else
        let s4 := RecordMalformed sid s3 in
        let malformed := match heap s4 !! sid with Some c => malformed_messages c | None => 0 end in
        if bool_decide (disposition = CloseSession) || (malformed_message_limit config <=? malformed)
        then (false, Close config os clock (handle c) 1007 (bstr "invalid application message") s4)
        else (true, s4)
    end.
Proof.
  intros H. cbv zeta. unfold DeliverMessage, MonotonicMilliseconds. cbv zeta.
  set (s0 := set_ticks (S (ticks s)) s). set (now := clock (ticks s)).
  assert (E : modify sid (fun c => set_rate_window_messages (rate_window_messages c + 1)%u64 c)
      (modify sid (fun c => if 1000 <=? now - rate_window_ms c
        then set_rate_window_messages 0 (set_rate_window_ms now c) else c) s0)
    = put sid (rate_step now c) s0).
  { rewrite (modify_put s0 sid _ c H).
    erewrite modify_put by apply lookup_insert_eq. unfold put. simpl. rewrite insert_insert_eq. done. }
  rewrite E. change (heap (put sid (rate_step now c) s0)) with (<[sid := rate_step now c]> (heap s)).
  rewrite lookup_insert_eq.
  assert (Hh : handle (rate_step now c) = handle c) by apply rate_step_neutral.
  rewrite Hh. done.
Qed.

Lemma send_all_Inv out s : Inv None s -> Inv None (send_all config os out s).
Proof.
  revert s. induction out as [|[h p] out IH]; intros s I; [done|]. simpl.
  apply IH. by apply Send_Inv.
Qed.

Lemma Inv_count x f (s : Server) :
  Inv x s ->
  (forall m, queued_total (f m) = queued_total m /\ inbound_total (f m) = inbound_total m /\
    active_connections (f m) = active_connections m) ->
  Inv x (count f s).
Proof. intros I F. destruct (F (metrics s)) as (? & ? & ?). by eapply (Inv_frame _ x s). Qed.

Lemma RecordMalformed_Inv sid (s : Server) : Inv None s -> Inv None (RecordMalformed sid s).
Proof.
  intros I. unfold RecordMalformed. apply Inv_count; [|done].
  apply Inv_modify; [exact I|]. intros c. constructor; done.
Qed.

Lemma DeliverMessage_ok sid message s :
  Inv None s ->
  Inv None (DeliverMessage config os clock sid message s).2 /\
  evolves s (DeliverMessage config os clock sid message s).2.
Proof.
  intros I. destruct (heap s !! sid) as [c|] eqn:H.
  2: { unfold DeliverMessage, MonotonicMilliseconds. cbn zeta.
       simpl. rewrite !lookup_alter_eq, H. simpl.
       split; [|etransitivity; [|apply evolves_modify; constructor; done]; etransitivity;
         [|apply evolves_modify; intros; split_if; constructor; done]; by apply evolves_frame].
       apply Inv_modify; [apply Inv_modify|].
       - by eapply Inv_frame.
       - intros c. split_if; constructor; done.
       - constructor; done. }
  rewrite (DeliverMessage_eq sid message s c H). cbv zeta.
  set (now := clock (ticks s)). destruct (rate_step_neutral now c) as [N K].
  set (s1 := put sid (rate_step now c) _).
  assert (I1 : Inv None s1).
  { eapply Inv_put; [by eapply Inv_frame|exact H|done]. }
  assert (E1 : evolves s s1) by (eapply evolves_step; done).
  split_if.
  { split; [by apply Close_Inv|]. transitivity s1; [done|apply Close_evolves]. }
  destruct message_handler as [callback|]; [|done].
  destruct (callback _ _ _ _) as [[disposition out] app'].
  set (s2 := set_app app' _).
  assert (I2 : Inv None s2) by (eapply Inv_frame; done).
  assert (E2 : evolves s s2) by (transitivity s1; [done|by apply evolves_frame]).
  pose proof (send_all_Inv out s2 I2) as I3. pose proof (send_all_evolves out s2) as E3.
  set (s3 := send_all config os out s2) in *.
  assert (E3' : evolves s s3) by (by transitivity s2).
  split_if; [done|]. pose proof (RecordMalformed_Inv sid s3 I3) as I4.
  pose proof (RecordMalformed_evolves sid s3) as E4. set (s4 := RecordMalformed sid s3) in *.
  assert (E4' : evolves s s4) by (by transitivity s3).
  split_if; [|done]. split; [by apply Close_Inv|]. transitivity s4; [done|apply Close_evolves].
Qed.

(** ** The receive loops *)

Lemma raw_next a :
  Framing.wf a ->
  let '(st, _, a') := Framing.Next a in
  Framing.wf a' /\
  (st = MessageReady -> (length (Framing.pending a') < length (Framing.pending a))%nat).
Proof.
  intros W. destruct (Framing.limit_exceeded_ a) eqn:L.
  - unfold Framing.Next. rewrite L. done.
  - pose proof (Next_spec a W L) as N. destruct (Framing.Next a) as [[st m] a'].
    destruct N as (N & W' & _). split; [done|]. intros ->. by eapply next_spec_shrinks.
Qed.

Lemma ws_next d :
  WebSocketDecoder.wf d ->
  exists st ev e d', WebSocketDecoder.Next d = Some (st, ev, e, d') /\ WebSocketDecoder.wf d' /\
    (st = EventReady ->
       (length (pending d') < length (pending d))%nat /\ event_ok (max_message_bytes_ d) ev).
Proof.
  intros W. destruct (limit_exceeded_ d) eqn:L.
  { unfold Next. cbn [Next_fuel]. unfold NextBody. rewrite L. eexists _, _, _, _.
    split; [done|]. split; done. }
  destruct (ws_Next_spec d W L) as (st & ev & e & d' & E & N & W' & _).
  exists st, ev, e, d'. split_and!; [done..|]. intros ->.
  pose proof (next_rel_shrinks _ _ _ _ _ _ _ N) as [_ H2]. split; [by eapply H2|].
  eapply next_rel_event_ok; [exact N|]. unfold fragment.
  destruct (fragmented_ d) eqn:F; [|done]. intros ? [= <-]. by apply W.
Qed.

(** The invariant holds behind a step, and the step only moved on. *)
Record fine (s s' : Server) : Prop := {
  fine_inv : Inv None s';
  fine_follows : follows s s';
}.

Lemma fine_trans s s1 s2 : fine s s1 -> fine s1 s2 -> fine s s2.
Proof. intros [_ F1] [I2 F2]. constructor; [done|by transitivity s1]. Qed.

Lemma fine_evolves s s' : Inv None s' -> evolves s s' -> fine s s'.
Proof. intros I [F _]. by constructor. Qed.

(** What a call returns when it always returns. *)
Definition returns (s : Server) (r : option Server) : Prop := exists s', r = Some s' /\ fine s s'.
Definition loops (s : Server) (r : option (bool * Server)) : Prop :=
  exists ended s', r = Some (ended, s') /\ fine s s'.

Lemma returns_trans s s1 r : fine s s1 -> returns s1 r -> returns s r.
Proof. intros F (s' & E & F'). exists s'. split; [done|by eapply fine_trans]. Qed.

Lemma loops_trans s s1 r : fine s s1 -> loops s1 r -> loops s r.
Proof. intros F (e & s' & E & F'). exists e, s'. split; [done|by eapply fine_trans]. Qed.

Lemma Disconnect_fine sid s : Inv None s -> fine s (Disconnect config sid s).
Proof. intros I. apply fine_evolves; [by apply Disconnect_Inv|apply Disconnect_evolves]. Qed.

Lemma Close_fine h code reason s : Inv None s -> fine s (Close config os clock h code reason s).
Proof. intros I. apply fine_evolves; [by apply Close_Inv|apply Close_evolves]. Qed.

Lemma SendControl_fine sid op payload ca s :
  Inv None s -> size_of payload <= size_max - 16 ->
  fine s (SendControl config os clock sid op payload ca s).
Proof. intros I L. apply fine_evolves; [by apply SendControl_Inv|apply SendControl_evolves]. Qed.

Lemma RecordMalformed_fine sid s : Inv None s -> fine s (RecordMalformed sid s).
Proof. intros I. apply fine_evolves; [by apply RecordMalformed_Inv|apply RecordMalformed_evolves]. Qed.

Lemma UpdateInboundAccounting_fine sid b s :
  Inv None s -> is_u64 b -> fine s (UpdateInboundAccounting config sid b s).
Proof.
  intros I B. apply fine_evolves; [by apply UpdateInboundAccounting_Inv|].
  apply UpdateInboundAccounting_evolves.
Qed.

Lemma set_raw_fine (s : Server) sid c d :
  Inv None s -> heap s !! sid = Some c -> Framing.wf d -> fine s (put sid (set_raw_decoder d c) s).
Proof.
  intros I H W. constructor; [|by eapply follows_step]. eapply Inv_put; [done..|]. constructor; done.
Qed.

Lemma set_ws_fine (s : Server) sid c d :
  Inv None s -> heap s !! sid = Some c -> WebSocketDecoder.wf d ->
  fine s (put sid (set_websocket_decoder d c) s).
Proof.
  intros I H W. constructor; [|by eapply follows_step]. eapply Inv_put; [done..|]. constructor; done.
Qed.

Lemma buffered_u64 sid (s : Server) : is_u64 (buffered_raw sid s) /\ is_u64 (buffered_ws sid s).
Proof.
  unfold buffered_raw, buffered_ws. destruct (heap s !! sid); split; done || apply u64_range.
Qed.

(** The bytes still to decode, per transport. *)
Definition raw_left (sid : Z) (s : Server) : nat :=
  match heap s !! sid with Some c => length (Framing.pending (raw_decoder c)) | None => 0 end.
Definition ws_left (sid : Z) (s : Server) : nat :=
  match heap s !! sid with Some c => length (pending (websocket_decoder c)) | None => 0 end.

Lemma evolves_left sid s s' c :
  heap s !! sid = Some c -> evolves s s' ->
  raw_left sid s' = length (Framing.pending (raw_decoder c)) /\
  ws_left sid s' = length (pending (websocket_decoder c)).
Proof.
  intros H E. destruct (ev_sessions _ _ E sid c H) as (c' & H' & [_ K1 K2 _ _ _ _]).
  unfold raw_left, ws_left. rewrite H', K1, K2. done.
Qed.

Lemma raw_loop_ok fuel sid s :
  Inv None s -> (raw_left sid s < fuel)%nat -> loops s (raw_loop config os clock fuel sid s).
Proof.
  revert s. induction fuel as [|fuel IH]; intros s I F; [lia|]. simpl. unfold raw_left in F.
  destruct (heap s !! sid) as [c|] eqn:H; [|by eexists _, _]. split_if; [by eexists _, _|].
  pose proof (inv_sessions _ _ _ I sid c H) as SO.
  pose proof (raw_next _ (so_raw _ _ _ _ _ SO)) as N.
  destruct (Framing.Next (raw_decoder c)) as [[st m] d]. destruct N as [W N].
  pose proof (set_raw_fine s sid c d I H W) as F1. set (s1 := put sid _ s) in *.
  pose proof (fine_inv _ _ F1) as I1. apply (loops_trans s s1); [done|].
  assert (B : loops s1 (Some (false, Disconnect config sid (RecordMalformed sid s1)))).
  { eexists _, _. split; [done|]. pose proof (RecordMalformed_fine sid s1 I1) as F2.
    eapply fine_trans; [exact F2|]. apply Disconnect_fine, F2. }
  destruct st; [by eexists _, _| |exact B..].
  destruct (DeliverMessage_ok sid m s1 I1) as [I2 E2].
  destruct (DeliverMessage config os clock sid m s1) as [ok s2]. simpl in I2, E2.
  apply (loops_trans s1 s2); [by apply fine_evolves|].
  split_if; [by eexists _, _|]. apply IH; [done|].
  assert (H1 : heap s1 !! sid = Some (set_raw_decoder d c)) by apply lookup_insert_eq.
  destruct (evolves_left sid s1 s2 _ H1 E2) as [-> _]. simpl. specialize (N eq_refl). lia.
Qed.

Lemma ProcessRaw_ok sid bytes s :
  Inv None s -> returns s (ProcessRaw config os clock sid bytes s).
Proof.
  intros I. unfold ProcessRaw. destruct (heap s !! sid) as [c|] eqn:H; [|by exists s].
  pose proof (inv_sessions _ _ _ I sid c H) as SO.
  pose proof (Append_spec _ bytes (so_raw _ _ _ _ _ SO)) as A.
  destruct (Framing.Append bytes (raw_decoder c)) as [ok d]. destruct A as (W & _ & _).
  pose proof (set_raw_fine s sid c d I H W) as F1. set (s1 := put sid _ s) in *.
  pose proof (fine_inv _ _ F1) as I1. apply (returns_trans s s1); [done|].
  split_if; [eexists; split; [done|]; by apply Disconnect_fine|].
  pose proof (UpdateInboundAccounting_fine sid _ s1 I1 (proj1 (buffered_u64 sid s1))) as F2.
  assert (H1 : heap s1 !! sid = Some (set_raw_decoder d c)) by apply lookup_insert_eq.
  destruct (evolves_left sid s1 _ _ H1 (UpdateInboundAccounting_evolves sid (buffered_raw sid s1) s1))
    as [L _].
  set (s2 := UpdateInboundAccounting _ _ _ s1) in *. apply (returns_trans s1 s2); [done|].
  destruct (raw_loop_ok (S (length (Framing.buffer_ d))) sid s2 (fine_inv _ _ F2))
    as (ended & s3 & -> & F3).
  { rewrite L. pose proof (pending_length d). simpl. lia. }
  cbn [mbind option_bind]. apply (returns_trans s2 s3); [done|].
  split_if; [eexists; split; [done|]; constructor; [apply F3|done]|].
  eexists. split; [done|]. apply UpdateInboundAccounting_fine; [apply F3|apply buffered_u64].
Qed.

Lemma event_control_size max ev :
  event_ok max ev -> ev_type ev <> BinaryMessage -> size_of (ev_payload ev) <= size_max - 16.
Proof.
  unfold event_ok, size_max. intros E Hne. destruct (ev_type ev); [done|lia|lia|].
  destruct E as [E _]. lia.
Qed.

Lemma ws_loop_ok fuel sid s :
  Inv None s -> (ws_left sid s < fuel)%nat -> loops s (ws_loop config os clock fuel sid s).
Proof.
  revert s. induction fuel as [|fuel IH]; intros s I F; [lia|]. simpl. unfold ws_left in F.
  destruct (heap s !! sid) as [c|] eqn:H; [|by eexists _, _]. split_if; [by eexists _, _|].
  pose proof (inv_sessions _ _ _ I sid c H) as SO.
  destruct (ws_next _ (so_ws _ _ _ _ _ SO)) as (st & ev & e & d & -> & W & N).
  cbn [mbind option_bind].
  pose proof (set_ws_fine s sid c d I H W) as F1. set (s1 := put sid _ s) in *.
  pose proof (fine_inv _ _ F1) as I1. apply (loops_trans s s1); [done|].
  assert (H1 : heap s1 !! sid = Some (set_websocket_decoder d c)) by apply lookup_insert_eq.
  assert (C : forall s2, fine s1 s2 -> forall code,
    loops s1 (Some (false, Close config os clock (handle c) code (bstr e) s2))).
  { intros s2 F2 code. eexists _, _. split; [done|]. eapply fine_trans; [exact F2|].
    apply Close_fine, F2. }
  assert (R : forall s2, Inv None s2 -> st = EventReady -> evolves s1 s2 ->
    loops s1 (ws_loop config os clock fuel sid s2)).
  { intros s2 I2 Est E2. apply (loops_trans s1 s2); [by apply fine_evolves|]. apply IH; [done|].
    destruct (evolves_left sid s1 s2 _ H1 E2) as [_ ->]. simpl. destruct (N Est) as [N1 _]. lia. }
  destruct st;
    [by eexists _, _| |apply C; by apply RecordMalformed_fine|by apply C; constructor..].
  destruct (N eq_refl) as [_ EV].
  assert (CS : ev_type ev <> BinaryMessage -> size_of (ev_payload ev) <= size_max - 16)
    by (by eapply event_control_size).
  destruct (ev_type ev).
  - destruct (DeliverMessage_ok sid (ev_payload ev) s1 I1) as [I2 E2].
    destruct (DeliverMessage config os clock sid (ev_payload ev) s1) as [ok s2].
    split_if; [|by apply R]. eexists _, _. split; [done|]. by apply fine_evolves.
  - apply R; [|done|apply SendControl_evolves]. apply SendControl_Inv; auto.
  - unfold MonotonicMilliseconds. apply R; [|done|].
    + apply Inv_modify; [by eapply Inv_frame|]. constructor; done.
    + etransitivity; [|apply evolves_modify; constructor; done]. by apply evolves_frame.
  - eexists _, _. split; [done|]. apply SendControl_fine; auto.
Qed.

Lemma ProcessWebSocket_ok sid bytes s :
  Inv None s -> returns s (ProcessWebSocket config os clock sid bytes s).
Proof.
  intros I. unfold ProcessWebSocket. destruct (heap s !! sid) as [c|] eqn:H; [|by exists s].
  split_if; [by exists s|]. pose proof (inv_sessions _ _ _ I sid c H) as SO.
  pose proof (ws_Append_spec _ bytes (so_ws _ _ _ _ _ SO)) as A.
  destruct (Append bytes (websocket_decoder c)) as [ok d]. destruct A as (W & _ & _).
  pose proof (set_ws_fine s sid c d I H W) as F1. set (s1 := put sid _ s) in *.
  pose proof (fine_inv _ _ F1) as I1. apply (returns_trans s s1); [done|].
  split_if; [eexists; split; [done|]; by apply Close_fine|].
  pose proof (UpdateInboundAccounting_fine sid _ s1 I1 (proj2 (buffered_u64 sid s1))) as F2.
  assert (H1 : heap s1 !! sid = Some (set_websocket_decoder d c)) by apply lookup_insert_eq.
  destruct (evolves_left sid s1 _ _ H1 (UpdateInboundAccounting_evolves sid (buffered_ws sid s1) s1))
    as [_ L].
  set (s2 := UpdateInboundAccounting _ _ _ s1) in *. apply (returns_trans s1 s2); [done|].
  destruct (ws_loop_ok (S (length (buffer_ d))) sid s2 (fine_inv _ _ F2)) as (ended & s3 & -> & F3).
  { rewrite L. pose proof (ws_pending_length d). simpl. lia. }
  cbn [mbind option_bind]. apply (returns_trans s2 s3); [done|].
  split_if; [eexists; split; [done|]; constructor; [apply F3|done]|].
  eexists. split; [done|]. apply UpdateInboundAccounting_fine; [apply F3|apply buffered_u64].
Qed.

(** ** Detection and the read completion *)

Lemma handshake_response_size bytes max v r :
  ParseHandshake bytes max v = Some r -> status r <> Handshake.NeedMoreData ->
  size_of (response r) <= size_max - 16.
Proof.
  intros E Hs. destruct (ParseHandshake_cases bytes max v) as (r' & E' & C). simplify_eq.
  destruct C as [(_ & _ & _ & ->)|[(_ & _ & S & _)|(_ & head & rest & _ & J)]].
  - vm_compute. congruence.
  - done.
  - destruct J as [key org|key org|resp ? ? [-> | ->]]; simpl.
    + unfold response_101, accept_value. rewrite !size_app.
      destruct (encode_spec (fips_sha1 (key ++ Guid))) as [_ ->].
      assert (size_of (fips_sha1 (key ++ Guid)) = 20) as ->
        by (unfold size_of, fips_sha1; rewrite length_fips_digest; done).
      vm_compute. congruence.
    + vm_compute. congruence.
    + vm_compute. congruence.
    + vm_compute. congruence.
Qed.

Lemma modify_fine (s : Server) sid f :
  Inv None s -> (forall c, neutral c (f c)) ->
  (forall c, disconnect_started (f c) = disconnect_started c) -> fine s (modify sid f s).
Proof.
  intros I N D. constructor; [by apply Inv_modify|]. destruct (heap s !! sid) as [c|] eqn:H.
  - rewrite (modify_put _ _ _ _ H). eapply follows_step; try done. rewrite D. done.
  - apply evolves_frame; try done. simpl. apply map_eq. intros k.
    destruct (decide (k = sid)) as [->|Hk]; [by rewrite lookup_alter_eq, H|].
    by rewrite lookup_alter_ne.
Qed.

Lemma open_transport_fine s sid t :
  Inv None s ->
  fine s (UpdateInboundAccounting config sid 0
    (modify sid (set_detection_buffer [])
      (modify sid (fun c => set_state Open (set_transport t c)) s))).
Proof.
  intros I.
  assert (F1 : fine s (modify sid (fun c => set_state Open (set_transport t c)) s))
    by (apply modify_fine; [done|constructor; done|done]).
  eapply fine_trans; [exact F1|]. set (s1 := modify _ _ s) in *.
  assert (F2 : fine s1 (modify sid (set_detection_buffer []) s1))
    by (apply modify_fine; [apply F1|constructor; done|done]).
  eapply fine_trans; [exact F2|]. apply UpdateInboundAccounting_fine; [apply F2|done].
Qed.

Lemma SendRaw_fine sid response ca s :
  Inv None s -> size_of response <= size_max - 16 -> fine s (SendRaw config os sid response ca s).
Proof. intros I L. apply fine_evolves; [by apply SendRaw_Inv|apply SendRaw_evolves]. Qed.

Lemma ProcessDetection_ok sid bytes s :
  Inv None s -> returns s (ProcessDetection config os clock sid bytes s).
Proof.
  intros I. unfold ProcessDetection. destruct (heap s !! sid) as [c|] eqn:H; [|by exists s].
  pose proof (co_inbound _ Hc) as CI. pose proof (size_nonneg (detection_buffer c)).
  pose proof (size_nonneg bytes).
  destruct (max_session_inbound_bytes config <? size_of (detection_buffer c)) eqn:L1; simpl;
    [eexists; split; [done|]; by apply Disconnect_fine|].
  rewrite usub_small by (unfold size_max; lia).
  split_if; [eexists; split; [done|]; by apply Disconnect_fine|].
  set (buffer := detection_buffer c ++ bytes). set (s1 := put sid _ s).
  assert (F1 : fine s s1).
  { constructor; [|by eapply follows_step]. eapply Inv_put; [done..|]. constructor; done. }
  apply (returns_trans s s1); [done|].
  assert (F2 : fine s1 (UpdateInboundAccounting config sid (size_of buffer) s1)).
  { apply UpdateInboundAccounting_fine; [apply F1|]. unfold buffer. rewrite size_app.
    unfold is_u64, size_max. lia. }
  set (s2 := UpdateInboundAccounting _ _ _ s1) in *. apply (returns_trans s1 s2); [done|].
  pose proof (fine_inv _ _ F2) as I2. assert (R2 : returns s2 (Some s2)) by (by exists s2).
  split_if.
  { pose proof (open_transport_fine s2 sid RawTcp I2) as F3.
    eapply returns_trans; [exact F3|]. apply ProcessRaw_ok, F3. }
  split_if; [done|].
  destruct (ParseHandshake_cases buffer (max_handshake_bytes config) (origin_validator config))
    as (r & E & _). rewrite E. cbn [mbind option_bind].
  pose proof (handshake_response_size _ _ _ _ E) as RS. destruct (status r); [done| |].
  - pose proof (SendRaw_fine sid (response r) false s2 I2 (RS ltac:(done))) as F3.
    eapply returns_trans; [exact F3|]. set (s3 := SendRaw _ _ _ _ _ s2) in *.
    pose proof (open_transport_fine s3 sid WebSocket (fine_inv _ _ F3)) as F4.
    eapply returns_trans; [exact F4|].
    split_if; [apply ProcessWebSocket_ok, F4|eexists; split; [done|]; constructor; [apply F4|done]].
  - eexists. split; [done|]. apply SendRaw_fine; auto.
Qed.

Lemma ProcessIncoming_ok sid bytes s :
  Inv None s -> returns s (ProcessIncoming config os clock sid bytes s).
Proof.
  intros I. unfold ProcessIncoming. destruct (heap s !! sid) as [c|]; [|by exists s].
  destruct (transport c);
    [by apply ProcessDetection_ok|by apply ProcessRaw_ok|by apply ProcessWebSocket_ok].
Qed.

(** ** Reads

    Every connected session but [x] has a read outstanding, and none has two. *)
Record Reads (x : option Z) (s : Server) : Prop := {
  rd_nodup : NoDup (reads s);
  rd_heap : forall sid, sid ∈ reads s -> is_Some (heap s !! sid);
  rd_live : forall sid c, heap s !! sid = Some c -> disconnect_started c = false ->
    Some sid <> x -> sid ∈ reads s;
}.

Lemma follows_Reads x s s' : follows s s' -> Reads x s -> Reads x s'.
Proof.
  intros [H N P R U] [D Hh L]. constructor; rewrite P; [done| |].
  - intros sid Hs. destruct (Hh sid Hs) as [c Hc']. destruct (H sid c Hc') as (c' & -> & _). eauto.
  - intros sid c' H' D' Hx. destruct (heap s !! sid) as [c|] eqn:E.
    + destruct (H sid c E) as (c2 & E2 & M). simplify_eq. apply (L sid c E); [|done].
      destruct (disconnect_started c); [|done]. rewrite M in D' by done. done.
    + rewrite (N sid E) in H'. done.
Qed.

Lemma Reads_gone (s : Server) sid :
  Reads (Some sid) s ->
  (forall c, heap s !! sid = Some c -> disconnect_started c = true) -> Reads None s.
Proof.
  intros [D Hh L] G. constructor; [done..|]. intros k c H Dc _.
  destruct (decide (k = sid)) as [->|]; [rewrite (G c H) in Dc; done|].
  apply (L k c H Dc). congruence.
Qed.

Lemma Disconnect_started sid s c :
  heap (Disconnect config sid s) !! sid = Some c -> disconnect_started c = true.
Proof.
  unfold Disconnect. destruct (heap s !! sid) as [c0|] eqn:H; [|by rewrite H].
  destruct (disconnect_started c0) eqn:D; [intros; congruence|].
  unfold drop_queue. destruct (foldl _ _ _) as [q t]. unfold AccountInbound.
  repeat split_if; simpl; rewrite lookup_insert_eq; intros [= <-]; done.
Qed.

Lemma PostReadOperation_cases sid (s : Server) :
  exists (ok : bool) t, PostReadOperation os sid s =
    (ok, if ok then set_reads (reads s ++ [sid]) (set_ticks t s) else set_ticks t s).
Proof.
  unfold PostReadOperation. destruct (heap s !! sid) as [c|];
    [destruct (negb (socket c))|]; try (by exists false, (ticks s); destruct s).
  unfold os_call. eexists _, _. done.
Qed.

(** What a completed handler leaves: both invariants, and the count exact. *)
Record settled (s s' : Server) : Prop := {
  st_inv : Inv None s';
  st_reads : Reads None s';
  st_untracked : untracked s' = untracked s;
  st_running : running s' = running s;
  st_accepts : accepts s' = accepts s;
}.

Lemma Inv_complete x (s : Server) : Inv x s -> Inv x (CompleteOperation s).
Proof. intros I. by eapply Inv_frame. Qed.

(** Giving up the read that was taken off the list. *)
Lemma give_up_read s s1 sid index :
  reads s !! index = Some sid ->
  fine (set_reads (delete index (reads s)) s) s1 ->
  Reads (Some sid) s1 ->
  settled s (CompleteOperation (Disconnect config sid s1)).
Proof.
  intros Hi [I1 F1] RD. pose proof (Disconnect_fine sid s1 I1) as [I2 F2]. constructor.
  - by apply Inv_complete.
  - eapply (Reads_gone _ sid); [|apply Disconnect_started].
    pose proof (follows_Reads _ _ _ F2 RD) as [? ? ?]. by constructor.
  - pose proof (fw_untracked _ _ F2) as U2. pose proof (fw_untracked _ _ F1) as U1.
    unfold untracked at 1. simpl. unfold usub. rewrite u64_sub_l.
    set (s2 := Disconnect config sid s1) in *.
    replace (outstanding_operations s2 - 1 - Z.of_nat (length (reads s2) + length (writes s2) + accepts s2))
      with (outstanding_operations s2 - Z.of_nat (length (reads s2) + length (writes s2) + accepts s2) - 1)
      by lia.
    rewrite <-u64_sub_l. fold (untracked s2). rewrite U2, U1. unfold untracked. simpl.
    rewrite u64_sub_l. f_equal. rewrite length_delete by eauto.
    apply lookup_lt_Some in Hi. lia.
  - simpl. rewrite (fw_running _ _ F2), (fw_running _ _ F1). done.
  - simpl. rewrite (fw_accepts _ _ F2), (fw_accepts _ _ F1). done.
Qed.

Lemma take_read (s : Server) index sid :
  Reads None s -> reads s !! index = Some sid ->
  Reads (Some sid) (set_reads (delete index (reads s)) s) /\ sid ∉ delete index (reads s).
Proof.
  intros [D Hh L] Hi. assert (P : reads s ≡ₚ sid :: delete index (reads s)) by (by apply delete_Permutation).
  rewrite P in D. apply NoDup_cons in D as [Hn D]. split; [|done]. constructor; simpl; [done| |].
  - intros k Hk. apply Hh. rewrite P. by right.
  - intros k c H Dc Hx. pose proof (L k c H Dc ltac:(done)) as Hk. rewrite P in Hk.
    apply elem_of_cons in Hk as [->|]; [congruence|done].
Qed.

(** A read completion is always handled, and leaves the server settled. *)
Lemma HandleRead_ok index ok bytes s :
  Inv None s -> Reads None s ->
  exists s', HandleRead config os clock index ok bytes s = Some s' /\ settled s s'.
Proof.
  intros I RD. unfold HandleRead. destruct (reads s !! index) as [sid|] eqn:Hi; [|by exists s].
  destruct (take_read s index sid RD Hi) as [RD0 Hn]. set (s0 := set_reads _ s) in *.
  assert (I0 : Inv None s0) by (by eapply Inv_frame).
  assert (GU : forall s1, fine s0 s1 ->
    exists s', Some (CompleteOperation (Disconnect config sid s1)) = Some s' /\ settled s s').
  { intros s1 F1. eexists. split; [done|]. eapply give_up_read; [done..|].
    eapply follows_Reads; [apply F1|done]. }
  split_if; [by apply GU; constructor|]. unfold MonotonicMilliseconds.
  set (s1 := modify sid _ _). assert (F1 : fine s0 s1).
  { eapply (fine_trans _ (set_ticks (S (ticks s0)) s0)).
    - apply fine_evolves; [by eapply Inv_frame|by apply evolves_frame].
    - apply modify_fine; [by eapply Inv_frame|constructor; done|done]. }
  destruct (ProcessIncoming_ok sid bytes s1 (fine_inv _ _ F1)) as (s2 & -> & F2).
  cbn [mbind option_bind]. pose proof (fine_trans _ _ _ F1 F2) as F02.
  split_if; [by apply GU|]. destruct (PostReadOperation_cases sid s2) as (posted & t & ->).
  assert (F3 : fine s2 (set_ticks t s2)).
  { apply fine_evolves; [eapply Inv_frame; [apply F2|done..]|by apply evolves_frame]. }
  destruct posted; [|apply GU; by eapply fine_trans]. eexists. split; [done|].
  pose proof (follows_Reads _ _ _ (fine_follows _ _ F02) RD0) as RD2.
  pose proof (fw_reads _ _ (fine_follows _ _ F02)) as ER. simpl in ER. constructor.
  - eapply Inv_frame; [apply F3|done..].
  - destruct RD2 as [D2 Hh2 L2]. constructor; simpl.
    + apply NoDup_app. rewrite ER. split_and!; [by rewrite <-ER| |apply NoDup_singleton].
      intros k Hk. rewrite list_elem_of_singleton. congruence.
    + intros k [Hk|Hk%list_elem_of_singleton]%elem_of_app; [auto|subst k].
      destruct Hif0 as [Hlive _]. destruct (heap s2 !! sid); [eauto|done].
    + intros k c H D _. apply elem_of_app. destruct (decide (k = sid)) as [->|];
        [right; by apply list_elem_of_singleton|left; eapply L2; [done..|congruence]].
  - pose proof (fw_untracked _ _ (fine_follows _ _ F02)) as U. unfold untracked in *. simpl in *.
    rewrite length_app. simpl. apply lookup_lt_Some in Hi as Hlt. rewrite length_delete in U by eauto.
    replace (Z.of_nat (length (reads s2) + 1 + length (writes s2) + accepts s2)) with
      (Z.of_nat (length (reads s2) + length (writes s2) + accepts s2) + 1) by lia.
    rewrite Z.sub_add_distr, <-u64_sub_l, U, u64_sub_l. f_equal. lia.
  - simpl. rewrite (fw_running _ _ (fine_follows _ _ F02)). done.
  - simpl. rewrite (fw_accepts _ _ (fine_follows _ _ F02)). done.
Qed.
End receive.
