(* ===== verification/ServerSteps.v ===== *)
(** * The server as a state machine

    One step is one event handled to its end: a completion taken off the port,
    a round of the timer, a call of the public interface.  The invariants of
    [ServerInvariant] and [ServerReceive] hold in every reachable state. *)

From S2P Require Import Prelude SessionHandle OutboundQueue SendCursor Framing.
From S2P Require Import WebSocketDecoder Handshake SessionRegistry ServerTypes Server.
From S2P Require Import ServerInbound ServerInvariant ServerReceive.

Section steps.
Context {St T : Type} `{App : Application St} `{Tab : SessionTable SessionHandle T (fun h => h)}.
Context (config : ServerConfig) (os : nat -> bool) (clock : nat -> Z) (Hc : config_ok config).
#[local] Abbreviation Server := (Server St T).
#[local] Abbreviation Inv := (Inv config).
#[local] Abbreviation fine := (fine config).
#[local] Abbreviation settled := (settled config).

(** ** The handlers leave the server settled *)

Lemma settled_trans (a b c : Server) : settled a b -> settled b c -> settled a c.
Proof. intros [_ _ U1 R1 A1] [I2 D2 U2 R2 A2]. constructor; congruence || done. Qed.

Lemma fine_settled (s s' : Server) : fine s s' -> Reads None s -> settled s s'.
Proof.
  intros [I F] RD. constructor; [done|by eapply follows_Reads|apply F..].
Qed.

Lemma frame_settled (s s' : Server) :
  Inv None s' -> Reads None s -> evolves s s' -> settled s s'.
Proof. intros I RD E. apply fine_settled; [by apply fine_evolves|done]. Qed.

(** A write completes: the operation is given up, posted again, or replaced. *)
Lemma taken_write (s s' : Server) i op :
  writes s !! i = Some op ->
  evolves (CompleteOperation (set_writes (delete i (writes s)) s)) s' ->
  Inv None s' -> Reads None s -> settled s s'.
Proof.
  intros Hi E I RD. apply lookup_lt_Some in Hi as Hlt. apply frame_settled; [done..|].
  etransitivity; [|exact E]. apply evolves_frame; [done..|].
  unfold untracked. simpl. rewrite length_delete by eauto. unfold usub. rewrite u64_sub_l. f_equal. lia.
Qed.

Lemma FinishWrite_evolves op ok (s : Server) :
  evolves (CompleteOperation s) (FinishWrite config os op ok s).
Proof.
  unfold FinishWrite. etransitivity; [apply (FinishAccounting_evolves op ok)|].
  split_if; [apply Disconnect_evolves|apply StartNextWrite_evolves].
Qed.

Lemma HandleWrite_settled i ok n s :
  Inv None s -> Reads None s -> 0 <= n <= size_max ->
  settled s (HandleWrite config os i ok n s).
Proof.
  intros I RD Hn. pose proof (HandleWrite_Inv config os Hc s i ok n I Hn) as I'.
  unfold HandleWrite in *. destruct (writes s !! i) as [op|] eqn:Hi; [|done].
  split_if; [|split_if].
  - eapply taken_write; [done|apply FinishWrite_evolves|done..].
  - destruct (PostWrite_ticks os (mkWrite (op_session op) (Consume n (op_cursor op)) (op_close_after op))
      (set_writes (delete i (writes s)) s)) as (posted & t & E). rewrite E in *. destruct posted.
    + apply frame_settled; [done..|]. apply evolves_frame; [done..|].
      unfold untracked. simpl. apply lookup_lt_Some in Hi as Hlt.
      rewrite length_app, length_delete by eauto. simpl. f_equal. lia.
    + eapply taken_write; [done| |done..]. etransitivity; [|apply FinishWrite_evolves].
      by apply evolves_frame.
  - eapply taken_write; [done|apply FinishWrite_evolves|done..].
Qed.

(** ** Accepting *)

Lemma ops_of_unknown (s : Server) sid x : Inv x s -> heap s !! sid = None -> ops_of sid (writes s) = [].
Proof.
  intros I H. pose proof (inv_writes _ _ _ I) as F. unfold ops_of.
  induction F as [|op ws [[c Hop] _] F IH]; [done|].
  rewrite filter_cons_False; [done|]. intros <-. congruence.
Qed.

Lemma new_session_ok (s : Server) now :
  Inv None s -> session_ok config 0 (writes s) (next_session_id s)
    (set_state Handshaking (new_session config (mkHandle (next_session_id s) (next_generation s)) now)).
Proof.
  intros I. pose proof (proj2 (inv_fresh _ _ _ I) (next_session_id s) ltac:(lia)) as Hn.
  pose proof (ops_of_unknown s _ None I Hn) as O. pose proof (co_session_queue _ Hc) as [Q _].
  pose proof (co_message _ Hc). pose proof (co_inbound _ Hc).
  constructor; simpl; rewrite ?O; simpl; try done; try lia.
  - apply accumulator_construct_wf; unfold is_u64, size_max; lia.
  - apply decoder_construct_wf; unfold is_u64, size_max; lia.
Qed.

(** The state once the new session is registered. *)
Definition admitted_session (now : Z) (s : Server) : Server :=
  let h := mkHandle (next_session_id s) (next_generation s) in
  let s1 := set_next_generation (next_generation s + 1)%u64
              (set_next_session_id (next_session_id s + 1)%u64 s) in
  let s2 := put (id h) (set_state Handshaking (new_session config h now)) (set_ticks (S (ticks s)) s1) in
  let s3 := set_sessions (table_insert h h (sessions s2)) s2 in
  let s4 := count (fun m => set_accepted_connections (accepted_connections m + 1)%u64 m) s3 in
  let s5 := count (fun m => set_active_connections (active_connections m + 1)%u64 m) s4 in
  set_app (connect_handler h (app s5)) s5.

Lemma admitted_session_Inv now s :
  Inv None s -> next_session_id s < size_max -> Inv None (admitted_session now s).
Proof.
  intros I Hid. pose proof (inv_connections _ _ _ I) as Ha. pose proof (inv_fresh _ _ _ I) as [Hge Hf].
  set (nid := next_session_id s) in *.
  assert (Hn : heap s !! nid = None) by (apply Hf; lia).
  pose proof (new_session_ok s now I) as SO. fold nid in SO.
  destruct (inv_registry _ _ _ I) as (m & R & Rm & A).
  assert (Hm : m !! nid = None).
  { destruct (m !! nid) as [h|] eqn:E; [|done]. apply Rm in E as (c & Hc' & _). congruence. }
  assert (EA : active_connections (metrics (admitted_session now s)) = active_connections (metrics s) + 1).
  { simpl. apply uadd_small. lia. }
  set (h := mkHandle nid (next_generation s)) in *.
  set (c := set_state Handshaking (new_session config h now)) in *.
  constructor.
  - apply (inv_owed _ _ _ I).
  - intros k y. simpl. fold nid h c. rewrite lookup_insert. case_decide as E; [intros [= <-]; subst k; done|].
    apply (inv_sessions _ _ _ I).
  - intros k y. simpl. fold nid h c. rewrite lookup_insert. case_decide as E; [intros [= <-]; done|].
    apply (inv_stall _ _ _ I).
  - simpl. fold nid h c. eapply Forall_impl; [apply (inv_writes _ _ _ I)|].
    intros op [[y Hy] W]. split; [|done]. rewrite lookup_insert. case_decide; eauto.
  - simpl. fold nid h c. rewrite map_sum_insert, (inv_queued _ _ _ I) by done. simpl. lia.
  - apply (inv_queued_limit _ _ _ I).
  - simpl. fold nid h c. rewrite map_sum_insert, (inv_inbound _ _ _ I) by done. done.
  - exists (<[nid := h]> m). split_and!.
    + apply (represents_insert (sessions s) m h h R).
    + intros k y. simpl. fold nid h c. rewrite !lookup_insert. case_decide as E.
      * subst k. split; [intros [= <-]; exists c; done|intros (z & [= <-] & <- & _); done].
      * apply Rm.
    + rewrite EA, map_size_insert, Hm, A. simpl. lia.
  - rewrite EA. simpl. fold nid. rewrite uadd_small by (unfold size_max in *; lia). lia.
  - simpl. fold nid h c. rewrite uadd_small by (unfold size_max in *; lia). split; [lia|].
    intros k Hk. rewrite lookup_insert_ne by lia. apply Hf. lia.
Qed.

Lemma admitted_session_reads now (s : Server) :
  Inv None s -> Reads None s ->
  Reads (Some (next_session_id s)) (admitted_session now s) /\
  (next_session_id s ∉ reads s) /\ untracked (admitted_session now s) = untracked s.
Proof.
  intros I [D Hh L]. pose proof (proj2 (inv_fresh _ _ _ I) (next_session_id s) ltac:(lia)) as Hn.
  assert (Hnr : next_session_id s ∉ reads s).
  { intros Hin. destruct (Hh _ Hin) as [c E]. congruence. }
  split_and!; [|done|done]. constructor; simpl; [done| |].
  - intros k Hk. rewrite lookup_insert. case_decide; eauto.
  - intros k c. rewrite lookup_insert. case_decide as Hk; [subst; done|]. intros H Dc _.
    by apply (L k c H Dc).
Qed.

(** The steps of [PostRead] behind the allocation. *)
Lemma PostRead_cases sid (s : Server) :
  exists (ok : bool) t o, PostRead os sid s =
    (ok, set_outstanding_operations o
           (if ok then set_reads (reads s ++ [sid]) (set_ticks t s) else set_ticks t s)) /\
    untracked (set_outstanding_operations o
      (if ok then set_reads (reads s ++ [sid]) (set_ticks t s) else set_ticks t s)) = untracked s.
Proof.
  unfold PostRead, os_call. destruct (os (ticks s)); simpl.
  - destruct (PostReadOperation_cases os sid (TrackOperation (set_ticks (S (ticks s)) s)))
      as (ok & t & ->). destruct ok; simpl.
    + exists true, t. eexists. split; [done|]. apply untracked_posted; [done|]. simpl.
      rewrite length_app. simpl. lia.
    + exists false, t. eexists. split; [done|].
      apply (untracked_done s (set_ticks t (TrackOperation s))); done.
  - exists false, (S (ticks s)), (outstanding_operations s). split; [by destruct s|done].
Qed.

Lemma AcceptSession_settled s :
  Inv None s -> Reads None s -> next_session_id s < size_max ->
  settled s (AcceptSession config os clock s).
Proof.
  intros I RD Hid. unfold AcceptSession, MonotonicMilliseconds. cbv zeta.
  pose proof (admitted_session_Inv (clock (ticks s)) s I Hid) as I1.
  destruct (admitted_session_reads (clock (ticks s)) s I RD) as (RD1 & Hn & U1).
  set (nid := next_session_id s) in *.
  match goal with |- context [PostRead os ?k ?x] =>
    change x with (admitted_session (clock (ticks s)) s); change k with nid end.
  set (s1 := admitted_session (clock (ticks s)) s) in *.
  assert (H1 : is_Some (heap s1 !! nid)) by (eexists; apply lookup_insert_eq).
  destruct (PostRead_cases nid s1) as (ok & t & o & -> & U2). destruct ok; simpl.
  - constructor; [by eapply Inv_frame| |exact (eq_trans U2 U1)|done..]. destruct RD1 as [D Hh L].
    constructor; simpl.
    + apply NoDup_app. split_and!; [done| |apply NoDup_singleton].
      intros k Hk. rewrite list_elem_of_singleton. intros ->. done.
    + intros k [Hk|Hk%list_elem_of_singleton]%elem_of_app; [by apply Hh|by subst k].
    + intros k c H D' _. apply elem_of_app. destruct (decide (k = nid)) as [->|];
        [right; by apply list_elem_of_singleton|left; eapply L; [done..|congruence]].
  - set (s2 := set_outstanding_operations o (set_ticks t s1)) in *.
    assert (I2 : Inv None s2) by (by eapply Inv_frame).
    pose proof (Disconnect_fine config Hc nid s2 I2) as [I3 F3].
    constructor; [done| | | |].
    + eapply (Reads_gone _ nid); [|apply Disconnect_started].
      eapply follows_Reads; [exact F3|]. destruct RD1 as [D Hh L]. by constructor.
    + rewrite (fw_untracked _ _ F3). exact (eq_trans U2 U1).
    + rewrite (fw_running _ _ F3). done.
    + rewrite (fw_accepts _ _ F3). done.
Qed.

Lemma untracked_complete (s : Server) : untracked (CompleteOperation s) = u64 (untracked s - 1).
Proof. unfold untracked. simpl. unfold usub. rewrite !u64_sub_l. f_equal. lia. Qed.

Lemma untracked_accept (s : Server) :
  untracked (set_accepts (S (accepts s)) s) = u64 (untracked s - 1).
Proof. unfold untracked. simpl. rewrite u64_sub_l. f_equal. lia. Qed.

Lemma untracked_accepted (s : Server) :
  (0 < accepts s)%nat -> untracked (set_accepts (pred (accepts s)) s) = u64 (untracked s + 1).
Proof. intros. unfold untracked. simpl. rewrite u64_add_l. f_equal. lia. Qed.

Lemma Reads_frame x (s s' : Server) :
  Reads x s -> heap s' = heap s -> reads s' = reads s -> Reads x s'.
Proof. intros [? ? ?] E1 E2. constructor; rewrite ?E1, ?E2; done. Qed.

(** What holds between two steps. *)
Record good (s : Server) : Prop := {
  gd_inv : Inv None s;
  gd_reads : Reads None s;
  gd_untracked : untracked s = 0;
}.

Lemma settled_good s s' : settled s s' -> good s -> good s'.
Proof. intros [I R U _ _] [_ _ U0]. constructor; [done..|congruence]. Qed.

(** The accept is taken off, its connection admitted or refused. *)
Lemma admit_settled ok seen (s : Server) :
  Inv None s -> Reads None s -> next_session_id s < size_max ->
  settled s
    (if ok && running s then
      if max_connections config <=? seen
      then count (fun m => set_rejected_connections (rejected_connections m + 1)%u64 m) s else
      let '(updated, s) := os_call os s in
      let '(associated, s) := if updated then os_call os s else (false, s) in
      if associated then AcceptSession config os clock s
      else count (fun m => set_rejected_connections (rejected_connections m + 1)%u64 m) s
    else s).
Proof.
  intros I RD Hid. assert (RJ : forall x, settled s x -> settled s
      (count (fun m => set_rejected_connections (rejected_connections m + 1)%u64 m) x)).
  { intros x [? ? ? ? ?]. constructor; [by apply Inv_count|by eapply Reads_frame|done..]. }
  assert (TK : forall t, settled s (set_ticks t s)).
  { intros t. constructor; [by eapply Inv_frame|by eapply Reads_frame|done..]. }
  split_if; [|by constructor]. split_if; [by apply RJ; constructor|].
  unfold os_call. destruct (os (ticks s)); cbn [fst snd]; [|by apply RJ].
  change (set_ticks (S (ticks (set_ticks (S (ticks s)) s))) (set_ticks (S (ticks s)) s))
    with (set_ticks (S (S (ticks s))) s).
  split_if; [|apply RJ, TK]. eapply settled_trans; [apply (TK (S (S (ticks s))))|].
  apply AcceptSession_settled; try done; [by eapply Inv_frame|by eapply Reads_frame].
Qed.

Lemma HandleAccept_good ok seen s :
  good s -> (0 < accepts s)%nat -> next_session_id s < size_max ->
  good (HandleAccept config os clock ok seen s) /\ running (HandleAccept config os clock ok seen s) = running s.
Proof.
  intros [I RD U] Hacc Hid. unfold HandleAccept. set (s0 := set_accepts _ s).
  assert (I0 : Inv None s0) by (by eapply Inv_frame).
  assert (RD0 : Reads None s0) by (by eapply Reads_frame).
  assert (U0 : untracked s0 = u64 (untracked s + 1)) by (by apply untracked_accepted).
  match goal with |- good (if running ?x then _ else _) /\ _ => set (s1 := x) end.
  assert (S1 : settled s0 s1) by (by apply admit_settled).
  clearbody s1. destruct S1 as [I1 RD1 U1 R1 A1].
  assert (C : forall t, untracked (CompleteOperation (set_ticks t s1)) = 0 /\
    untracked (set_accepts (S (accepts s1)) (set_ticks t s1)) = 0).
  { intros t. rewrite untracked_complete. change (accepts s1) with (accepts (set_ticks t s1)).
    rewrite untracked_accept. change (untracked (set_ticks t s1)) with (untracked s1).
    rewrite U1, U0, u64_sub_l, Z.add_simpl_r, U. done. }
  assert (G : forall t, good (CompleteOperation (set_ticks t s1))).
  { intros t. constructor; [by eapply Inv_frame|by eapply Reads_frame|apply C]. }
  assert (R2 : running s1 = running s) by exact R1. clear R1. unfold os_call. split_if.
  - destruct (os (ticks s1)); cbn [fst snd]; [|split; [apply G|simpl; congruence]]. simpl.
    destruct (os _); (split; [|simpl; congruence]); [|apply (G (S (S (ticks s1))))].
    constructor; [by eapply Inv_frame|by eapply Reads_frame|apply (C (S (S (ticks s1))))].
  - pose proof (G (ticks s1)) as G1. split; [by destruct s1|simpl; congruence].
Qed.

(** An accept adds one connection at most, and none at the limit it saw. *)
Lemma AcceptSession_active s :
  Inv None s -> next_session_id s < size_max ->
  active_connections (metrics (AcceptSession config os clock s)) <= active_connections (metrics s) + 1.
Proof.
  intros I Hid. pose proof (inv_connections _ _ _ I) as Ha.
  destruct (inv_registry _ _ _ I) as (m & _ & _ & A).
  unfold AcceptSession, MonotonicMilliseconds. cbv zeta.
  pose proof (admitted_session_Inv (clock (ticks s)) s I Hid) as I1. set (nid := next_session_id s) in *.
  match goal with |- context [PostRead os ?k ?x] =>
    change x with (admitted_session (clock (ticks s)) s); change k with nid end.
  set (s1 := admitted_session (clock (ticks s)) s) in *.
  assert (E1 : active_connections (metrics s1) = active_connections (metrics s) + 1)
    by (simpl; apply uadd_small; lia).
  assert (H1 : exists c, heap s1 !! nid = Some c /\ disconnect_started c = false)
    by (eexists; split; [apply lookup_insert_eq|done]).
  destruct (PostRead_cases nid s1) as (ok & t & o & -> & _). destruct ok; cbn [fst snd negb]; [rewrite <-E1; done|].
  set (s2 := set_outstanding_operations o (set_ticks t s1)). destruct H1 as (c & H & Dn).
  destruct (Disconnect_eq config Hc None s2 nid c) as (c' & m' & -> & _ & _ & _ & _ & _ & _ & _ & _ & _ & _ & _ & _ & E2);
    [by eapply Inv_frame|done..|]. simpl. rewrite E2. change (metrics s2) with (metrics s1). rewrite E1.
  rewrite usub_small by lia. lia.
Qed.

Lemma HandleAccept_active ok seen s :
  Inv None s -> next_session_id s < size_max ->
  active_connections (metrics (HandleAccept config os clock ok seen s)) <= active_connections (metrics s) + 1 /\
  (max_connections config <= seen ->
     sessions (HandleAccept config os clock ok seen s) = sessions s /\
     heap (HandleAccept config os clock ok seen s) = heap s /\
     active_connections (metrics (HandleAccept config os clock ok seen s)) = active_connections (metrics s)).
Proof.
  intros I Hid. unfold HandleAccept. set (s0 := set_accepts _ s).
  match goal with |- context [if running ?x then _ else _] => set (s1 := x) end.
  assert (F : active_connections (metrics s1) <= active_connections (metrics s) + 1 /\
    (max_connections config <= seen -> sessions s1 = sessions s /\ heap s1 = heap s /\
       active_connections (metrics s1) = active_connections (metrics s))).
  { unfold s1. destruct (ok && running s0); [|simpl; split; [lia|done]].
    split_if; [simpl; split; [lia|done]|]. split; [|lia]. unfold os_call.
    assert (A : forall t, active_connections (metrics (AcceptSession config os clock (set_ticks t s0))) <=
      active_connections (metrics s) + 1).
    { intros t. apply (AcceptSession_active (set_ticks t s0)); [by eapply Inv_frame|done]. }
    destruct (os (ticks s0)); cbn [fst snd]; [|simpl; lia]. split_if; [apply A|simpl; lia]. }
  clearbody s1. unfold os_call. split_if; [|exact F].
  destruct (os (ticks s1)); cbn [fst snd]; [|exact F]. simpl. by destruct (os _).
Qed.

(** ** Timer, stop and start *)

Lemma TimerCheck_fine now s h : Inv None s -> fine s (TimerCheck config os clock now s h).
Proof.
  intros I. assert (R : fine s s) by (by constructor). unfold TimerCheck.
  destruct (heap s !! id h) as [c|] eqn:H; [|done].
  repeat (split_if; [try done; by apply Disconnect_fine|]).
  split_if; [split_if; [by apply Disconnect_fine|done]|]. split_if; [|done].
  set (s1 := put (id h) _ s).
  assert (F1 : fine s s1).
  { apply fine_evolves; [eapply Inv_put; [done..|constructor; done]|eapply evolves_step; [eassumption|reflexivity|constructor; done|done..]]. }
  eapply fine_trans; [exact F1|]. apply SendControl_fine; [done|apply F1|done].
Qed.

Lemma fold_fine {A} (f : Server -> A -> Server) l s :
  (forall s a, Inv None s -> fine s (f s a)) -> Inv None s -> fine s (foldl f s l).
Proof.
  intros Hf. revert s. induction l as [|a l IH]; intros s I; [by constructor|]. simpl.
  eapply fine_trans; [by apply Hf|]. apply IH. by apply Hf.
Qed.

Lemma TimerTick_fine s : Inv None s -> fine s (TimerTick config os clock s).
Proof.
  intros I. unfold TimerTick. split_if; [by constructor|]. unfold MonotonicMilliseconds.
  eapply (fine_trans _ _ (set_ticks (S (ticks s)) s)).
  - apply fine_evolves; [by eapply Inv_frame|by apply evolves_frame].
  - apply fold_fine; [|by eapply Inv_frame]. intros s1 h I1. by apply TimerCheck_fine.
Qed.

Definition disconnect_all (hs : list SessionHandle) (s : Server) : Server :=
  foldl (fun s h => Disconnect config (id h) s) s hs.

Lemma disconnect_all_fine hs s : Inv None s -> fine s (disconnect_all hs s).
Proof. intros I. apply fold_fine; [|done]. intros. by apply Disconnect_fine. Qed.

Lemma disconnect_all_started hs s h c :
  Inv None s -> h ∈ hs -> heap (disconnect_all hs s) !! id h = Some c ->
  disconnect_started c = true.
Proof.
  revert s. induction hs as [|h' hs IH]; intros s I Hin H; [by apply elem_of_nil in Hin|].
  simpl in H. pose proof (Disconnect_fine config Hc (id h') s I) as [I1 F1].
  apply elem_of_cons in Hin as [<-|Hin]; [|by eapply IH].
  destruct (disconnect_all_fine hs (Disconnect config (id h) s) I1) as [_ F2].
  destruct (heap (Disconnect config (id h) s) !! id h) as [c1|] eqn:E1.
  - destruct (fw_sessions _ _ F2 _ _ E1) as (c2 & E2 & M). unfold disconnect_all in *.
    simplify_eq. apply M. by eapply Disconnect_started.
  - pose proof (fw_new _ _ F2 _ E1). unfold disconnect_all in *. congruence.
Qed.

Lemma fine_good s s' : fine s s' -> good s -> good s'.
Proof. intros F G. eapply settled_good; [|done]. apply fine_settled; [done|apply G]. Qed.

Lemma running_good b s : good s -> good (set_running b s).
Proof. intros [I R U]. constructor; [by eapply Inv_frame|by eapply Reads_frame|done]. Qed.

(** [Stop] leaves no session connected. *)
Lemma StopSessions_spec s :
  good s ->
  good (StopSessions config s) /\
  (running s = true -> forall sid c, heap (StopSessions config s) !! sid = Some c ->
     disconnect_started c = true).
Proof.
  intros G. unfold StopSessions. destruct (running s) eqn:R; simpl; [|split; done].
  pose proof (running_good false s G) as G1. set (s1 := set_running false s) in *.
  pose proof (disconnect_all_fine (table_snapshot (sessions s1)) s1 (gd_inv _ G1)) as F.
  set (s2 := disconnect_all _ s1) in F. split; [by eapply fine_good|]. intros _ sid c H.
  change (heap s2 !! sid = Some c) in H.
  destruct (heap s1 !! sid) as [c1|] eqn:E1.
  2: { pose proof (fw_new _ _ (fine_follows _ _ _ F) _ E1). congruence. }
  destruct (fw_sessions _ _ (fine_follows _ _ _ F) _ _ E1) as (c2 & E2 & M).
  simplify_eq.
  destruct (disconnect_started c1) eqn:D; [auto|].
  destruct (inv_registry _ _ _ (gd_inv _ G1)) as (m & RP & Rm & _).
  pose proof (so_id _ _ _ _ _ (inv_sessions _ _ _ (gd_inv _ G1) _ _ E1)) as Hid.
  eapply (disconnect_all_started (table_snapshot (sessions s1)) s1 (handle c1));
    [apply G1| |fold s2; by rewrite Hid].
  rewrite (represents_snapshot _ _ RP). apply list_elem_of_fmap. exists (sid, handle c1).
  split; [done|]. apply elem_of_map_to_list, Rm. eauto.
Qed.

Lemma Disconnect_writes sid s :
  writes (Disconnect config sid s) = writes s /\ running (Disconnect config sid s) = running s.
Proof.
  unfold Disconnect. destruct (heap s !! sid) as [c|]; [|done]. split_if; [done|].
  destruct (drop_queue _ _) as [c1 m1]. destruct (AccountInbound _ _ _ _) as [[c2 m2] e]. done.
Qed.

Lemma StopSessions_running s :
  (running s = true -> running (StopSessions config s) = false) /\
  writes (StopSessions config s) = writes s.
Proof.
  unfold StopSessions. split_if; [split; [congruence|done]|].
  assert (G : forall hs s1, writes (disconnect_all hs s1) = writes s1 /\
    running (disconnect_all hs s1) = running s1).
  { induction hs as [|h hs IH]; intros s1; [done|]. simpl.
    destruct (IH (Disconnect config (id h) s1)) as [-> ->]. apply Disconnect_writes. }
  destruct (G (table_snapshot (sessions s)) (set_running false s)) as [W R]. split; [|exact W].
  intros _. exact R.
Qed.

Lemma PostNewAccept_good s : good s -> good (PostNewAccept os s).2.
Proof.
  intros [I R U]. unfold PostNewAccept, os_call. split_if; [done|].
  split_if; [constructor; [by eapply Inv_frame|by eapply Reads_frame|done]|].
  split_if; [constructor; [by apply Inv_count; [eapply Inv_frame|]|by eapply Reads_frame|done]|].
  match goal with |- context [TrackOperation ?x] => set (s1 := x) end.
  assert (U1 : untracked s1 = 0) by done. split_if; simpl.
  - constructor; [by eapply Inv_frame|by eapply Reads_frame|].
    rewrite <-U1. by apply untracked_done.
  - constructor; [by eapply Inv_frame|by eapply Reads_frame|].
    rewrite <-U1. apply untracked_posted; [done|]. simpl. lia.
Qed.

Lemma post_accepts_good n posted s : good s -> good (post_accepts os n posted s).2.
Proof.
  revert posted s. induction n as [|n IH]; intros posted s G; [done|]. simpl.
  pose proof (PostNewAccept_good s G) as G1. destruct (PostNewAccept os s) as [ok s1]. by apply IH.
Qed.

Lemma Start_good s : good s -> good (Start config os s).2.
Proof.
  intros G. unfold Start. split_if; [done|].
  pose proof (post_accepts_good (Z.to_nat (accept_depth config)) 0 _ (running_good true s G)) as G1.
  destruct (post_accepts _ _ _ _) as [posted s1]. split_if; [by apply StopSessions_spec|done].
Qed.

(** ** The state machine *)

Definition no_metrics : Metrics := mkMetrics 0 0 0 0 0 0 0 0 0.

(** A constructed server, before [Start]. *)
Definition initial (a0 : St) : Server :=
  mkServer table_empty ∅ [] [] 0 no_metrics a0 false 1 1 0 0.

(** The completions [WorkerLoop] dispatches, a round of [TimerLoop], and the
    calls of the public interface.  An accept needs one to be outstanding, and
    may have loaded any [seen] of [active_connections]; ids
    are 64-bit and never reused, so a run that accepts [2 ^ 64] connections is
    left out. *)
Inductive server_step (s : Server) : Server -> Prop :=
| step_start : server_step s (Start config os s).2
| step_stop : server_step s (StopSessions config s)
| step_accept ok seen :
    (0 < accepts s)%nat -> next_session_id s < size_max ->
    server_step s (HandleAccept config os clock ok seen s)
| step_read i ok bytes s' :
    HandleRead config os clock i ok bytes s = Some s' -> server_step s s'
| step_write i ok n :
    0 <= n <= 4294967295 -> server_step s (HandleWrite config os i ok n s)
| step_timer : server_step s (TimerTick config os clock s)
| step_send h payload : server_step s (Send config os h payload s).2
| step_close h code reason : server_step s (Close config os clock h code reason s).

Definition reachable (a0 : St) (s : Server) : Prop := rtc server_step (initial a0) s.

Lemma initial_good a0 : good (initial a0).
Proof.
  constructor.
  - constructor; simpl; try done.
    + apply (co_global_queue _ Hc).
    + exists ∅. split_and!; [apply represents_empty| |done].
      intros sid k. split; [done|]. intros (c & E & _). done.
  - constructor; simpl; [apply NoDup_nil_2| |done]. intros sid H. by apply elem_of_nil in H.
  - done.
Qed.

Lemma step_good s s' : good s -> server_step s s' -> good s'.
Proof.
  intros G H. pose proof G as [I R U]. destruct H as [| |ok seen Ha Hi|i ok bytes s' E|i ok n Hn| |h p|h code r].
  - by apply Start_good.
  - by apply StopSessions_spec.
  - by apply HandleAccept_good.
  - destruct (HandleRead_ok config os clock Hc i ok bytes s I R) as (s2 & E2 & S2). simplify_eq.
    by eapply settled_good.
  - eapply settled_good; [|done]. apply HandleWrite_settled; [done..|unfold size_max; lia].
  - eapply fine_good; [|done]. by apply TimerTick_fine.
  - eapply fine_good; [|done]. apply fine_evolves; [by apply Send_Inv|apply Send_evolves].
  - eapply fine_good; [|done]. by apply Close_fine.
Qed.

Lemma reachable_good a0 s : reachable a0 s -> good s.
Proof.
  intros H. assert (G : forall x y, rtc server_step x y -> good x -> good y).
  { induction 1 as [|x y z Hs _ IH]; [done|]. intros G. apply IH. by eapply step_good. }
  eapply G; [exact H|apply initial_good].
Qed.

(** A handle is found exactly when a connected session carries it. *)
Lemma find_spec (s : Server) h k :
  Inv None s ->
  table_find h (sessions s) = Some k <->
  k = h /\ exists c, heap s !! id h = Some c /\ handle c = h /\ disconnect_started c = false.
Proof.
  intros I. destruct (inv_registry _ _ _ I) as (m & RP & Rm & _).
  rewrite (represents_find _ _ h RP). split.
  - destruct (m !! id h) as [v|] eqn:E; [|done]. split_if; [|done]. intros [= ->].
    pose proof (proj1 (Rm _ _) E) as (c & H & Ek & _).
    pose proof (so_id _ _ _ _ _ (inv_sessions _ _ _ I _ c H)) as Eid. rewrite Ek in Eid.
    assert (k = h) as -> by (destruct k, h; simpl in *; congruence).
    split; [done|]. exact (proj1 (Rm _ _) E).
  - intros [-> Hk]. apply Rm in Hk as ->. by rewrite Z.eqb_refl.
Qed.

(** The snapshot is the connected sessions, each once. *)
Lemma snapshot_spec (s : Server) :
  Inv None s ->
  NoDup (id <$> table_snapshot (sessions s)) /\
  forall h, h ∈ table_snapshot (sessions s) <->
    exists c, heap s !! id h = Some c /\ handle c = h /\ disconnect_started c = false.
Proof.
  intros I. destruct (inv_registry _ _ _ I) as (m & RP & Rm & _).
  assert (Hid : forall sid h, m !! sid = Some h -> id h = sid).
  { intros sid h E. apply Rm in E as (c & H & <- & _).
    apply (so_id _ _ _ _ _ (inv_sessions _ _ _ I sid c H)). }
  split.
  - rewrite (represents_snapshot _ _ RP), <-list_fmap_compose.
    rewrite (list_fmap_ext _ fst (map_to_list m)); [apply NoDup_fst_map_to_list|].
    intros i [k h] E. apply list_elem_of_lookup_2, elem_of_map_to_list in E. by apply Hid.
  - intros h. rewrite (represents_snapshot _ _ RP), list_elem_of_fmap. split.
    + intros ([k h'] & E & Hin). simpl in E. subst h'. apply elem_of_map_to_list in Hin.
      rewrite (Hid _ _ Hin). by apply Rm.
    + intros H. exists (id h, h). split; [done|]. apply elem_of_map_to_list. by apply Rm.
Qed.
End steps.
