(* ===== verification/ServerStream.v ===== *)
(** * The server: each connection's outbound byte stream

    [outbound sid s] are the bytes the server still owes the connection [sid]:
    the rest of its outstanding write and its queue.  Queueing appends to it, a
    write completion takes a prefix off it, and no operation on one session
    touches the stream of another. *)

From S2P Require Import Prelude SessionHandle OutboundQueue SendCursor Framing.
From S2P Require Import WebSocketDecoder Handshake SessionRegistry ServerTypes Server.
From S2P Require Import ServerInbound ServerInvariant ServerReceive ServerSteps.

Definition item_wire (item : OutboundItem) : list byte := item_header item ++ item_payload item.

Definition op_left (op : WriteOperation) : list byte :=
  HeaderRemainder (op_cursor op) ++ PayloadRemainder (op_cursor op).

Section stream.
Context {St T : Type} `{App : Application St} `{Tab : SessionTable SessionHandle T (fun h => h)}.
Context (config : ServerConfig) (os : nat -> bool) (clock : nat -> Z) (Hc : config_ok config).
#[local] Abbreviation Server := (Server St T).
#[local] Abbreviation Inv := (Inv config).

Definition queue_of (sid : Z) (s : Server) : list OutboundItem :=
  match heap s !! sid with Some c => send_queue c | None => [] end.

Definition outbound (sid : Z) (s : Server) : list byte :=
  concat (map op_left (ops_of sid (writes s))) ++ concat (map item_wire (queue_of sid s)).

Definition connected (sid : Z) (s : Server) : bool :=
  match heap s !! sid with Some c => negb (disconnect_started c) | None => false end.

(** ** Operations on one session leave the others alone *)

Definition others (sid : Z) (s s' : Server) : Prop :=
  forall k, k <> sid -> heap s' !! k = heap s !! k /\ ops_of k (writes s') = ops_of k (writes s).

#[export] Instance others_preorder sid : PreOrder (others sid).
Proof.
  split; [done|]. intros a b c H1 H2 k Hk. destruct (H1 k Hk), (H2 k Hk). split; congruence.
Qed.

Lemma others_put sid c (s s' : Server) :
  heap s' = <[sid := c]> (heap s) -> writes s' = writes s -> others sid s s'.
Proof. intros E W k Hk. rewrite E, W, lookup_insert_ne by done. done. Qed.

Lemma others_frame sid (s s' : Server) :
  heap s' = heap s -> writes s' = writes s -> others sid s s'.
Proof. intros E W k Hk. rewrite E, W. done. Qed.

Lemma others_modify sid f (s : Server) : others sid s (modify sid f s).
Proof. intros k Hk. simpl. rewrite lookup_alter_ne by done. done. Qed.

Lemma others_post sid op (s : Server) :
  op_session op = sid -> others sid s (set_writes (writes s ++ [op]) s).
Proof.
  intros <- k Hk. simpl. rewrite ops_of_app, ops_of_single_ne, app_nil_r by congruence. done.
Qed.

Lemma Disconnect_others sid s : others sid s (Disconnect config sid s).
Proof.
  unfold Disconnect. destruct (heap s !! sid) as [c|]; [|done].
  destruct (disconnect_started c); [done|]. destruct (drop_queue _ _) as [c1 m1].
  destruct (AccountInbound _ _ _ _) as [[c2 m2] e]. by apply others_put with c2.
Qed.

Lemma FinishAccounting_others op ok (s : Server) :
  others (op_session op) s (FinishAccounting op ok s).
Proof.
  etransitivity; [|apply others_frame; reflexivity]. apply others_modify.
Qed.

Lemma PostWrite_others sid op s : others sid s (PostWrite os op s).2.
Proof. destruct (PostWrite_ticks os op s) as (ok & t & ->). by apply others_frame. Qed.

Lemma StartNextWrite_others sid s : others sid s (StartNextWrite config os sid s).
Proof.
  unfold StartNextWrite. destruct (heap s !! sid) as [c|]; [|done].
  destruct (send_queue c) as [|item rest]; [by eapply others_put|]. unfold os_call.
  set (s1 := set_ticks _ _). assert (O1 : others sid s s1) by (by eapply others_put).
  assert (F : others sid s (Disconnect config sid
    (count (fun m => set_send_failures (send_failures m + 1)%u64 m)
      (count (fun m => set_queued_total (queued_total m - item_bytes item)%u64 m)
        (modify sid (fun c => set_queued_bytes (queued_bytes c - item_bytes item)%u64 c) s1))))).
  { etransitivity; [exact O1|]. etransitivity; [|apply Disconnect_others].
    etransitivity; [|apply others_frame; reflexivity]. apply others_modify. }
  destruct (os _); [|exact F]. destruct (SendCursor.construct _ _) as [cursor|]; [|exact F].
  set (op := mkWrite _ _ _).
  destruct (PostWrite_ticks os op (TrackOperation s1)) as (posted & t & ->).
  etransitivity; [exact O1|]. etransitivity; [by apply (others_frame sid s1 (set_ticks t (TrackOperation s1)))|].
  destruct posted; [by apply others_post|].
  etransitivity; [apply (FinishAccounting_others op false)|apply Disconnect_others].
Qed.

Lemma Enqueue_others sid item s : others sid s (Enqueue config os sid item s).2.
Proof.
  unfold Enqueue. destruct (heap s !! sid) as [c|]; [|done]. split_if; [done|].
  split_if; [by apply others_frame|]. unfold ReserveGlobalQueued.
  split_if; [by apply others_frame|]. simpl. set (s1 := put sid _ _).
  assert (O1 : others sid s s1) by (by eapply others_put).
  split_if; [|done]. etransitivity; [exact O1|apply StartNextWrite_others].
Qed.

Lemma FinishWrite_others op ok s : others (op_session op) s (FinishWrite config os op ok s).
Proof.
  unfold FinishWrite. etransitivity; [apply FinishAccounting_others|].
  split_if; [apply Disconnect_others|apply StartNextWrite_others].
Qed.

Lemma HandleWrite_others i op ok n s :
  writes s !! i = Some op -> others (op_session op) s (HandleWrite config os i ok n s).
Proof.
  intros Hi. unfold HandleWrite. rewrite Hi. set (s1 := set_writes _ s).
  assert (O1 : others (op_session op) s s1).
  { intros k Hk. simpl. split; [done|]. eapply ops_of_delete_ne; [done|congruence]. }
  split_if; [etransitivity; [exact O1|apply FinishWrite_others]|]. set (op' := mkWrite _ _ _).
  split_if; [|etransitivity; [exact O1|apply (FinishWrite_others op')]].
  destruct (PostWrite_ticks os op' s1) as (posted & t & ->).
  etransitivity; [exact O1|]. etransitivity; [by apply (others_frame _ s1 (set_ticks t s1))|].
  destruct posted; [by apply (others_post _ op')|apply (FinishWrite_others op')].
Qed.

Lemma others_outbound sid k s s' : others sid s s' -> k <> sid -> outbound k s' = outbound k s.
Proof. intros O Hk. destruct (O k Hk) as [E W]. unfold outbound, queue_of. rewrite E, W. done. Qed.

(** ** The stream of the session itself *)

Lemma Disconnect_disconnects sid s : connected sid (Disconnect config sid s) = false.
Proof.
  unfold connected. destruct (heap (Disconnect config sid s) !! sid) as [c|] eqn:E; [|done].
  by rewrite (Disconnect_started config sid s c E).
Qed.

(** Starting the next write moves bytes from the queue to the write. *)
Lemma StartNextWrite_stream s sid c :
  heap s !! sid = Some c -> Forall item_wf (send_queue c) -> ops_of sid (writes s) = [] ->
  connected sid (StartNextWrite config os sid s) = true ->
  outbound sid (StartNextWrite config os sid s) = outbound sid s.
Proof.
  intros H F O. unfold StartNextWrite. rewrite H. destruct (send_queue c) as [|item rest] eqn:Q.
  - intros _. unfold outbound, queue_of. simpl. rewrite lookup_insert_eq, H. simpl. rewrite Q. done.
  - apply Forall_cons in F as [Hi _]. destruct (construct_item item Hi) as (cursor & E & W & _).
    rewrite E. unfold os_call. set (s1 := set_ticks _ _).
    destruct (os _); [|by rewrite Disconnect_disconnects]. set (op := mkWrite _ _ _).
    destruct (PostWrite_ticks os op (TrackOperation s1)) as (posted & t & ->).
    destruct posted; [|by rewrite Disconnect_disconnects]. intros _.
    assert (O1 : ops_of sid [op] = [op]) by apply (ops_of_single_eq op).
    unfold outbound, queue_of. simpl. rewrite ops_of_app, O, O1, lookup_insert_eq, H, Q. simpl.
    rewrite app_nil_r. f_equal. unfold op_left. rewrite remainders_wire by done.
    destruct (cursor_construct_wf _ _ _ E (iw_payload _ Hi)) as (_ & Ew & E0).
    simpl. rewrite Ew, E0. done.
Qed.

(** The state [Enqueue] leaves before it starts a write. *)
Definition enqueued (sid : Z) (item : OutboundItem) (c : ClientSession) (s : Server) : Server :=
  put sid (set_write_active true (set_send_queue (send_queue c ++ [item])
    (set_queued_bytes (queued_bytes c + item_bytes item)%u64 c)))
    (set_metrics (set_queued_total (queued_total (metrics s) + item_bytes item)%u64 (metrics s)) s).

(** [Enqueue] accepts exactly what the limits leave room for. *)
Lemma Enqueue_cases sid item s c :
  Inv None s -> item_wf item -> heap s !! sid = Some c ->
  let room := negb (disconnect_started c)
    && (queued_bytes c + item_bytes item <=? max_session_queued_bytes config)
    && (queued_total (metrics s) + item_bytes item <=? max_global_queued_bytes config) in
  Enqueue config os sid item s =
    if room then
      (true, if write_active c then enqueued sid item c s
             else StartNextWrite config os sid (enqueued sid item c s))
    else (false, if disconnect_started c then s
                 else count (fun m => set_send_failures (send_failures m + 1)%u64 m) s).
Proof.
  intros I Hi H. cbv zeta. unfold Enqueue. rewrite H.
  destruct (disconnect_started c) eqn:D; [done|]. cbn [negb andb].
  destruct (item_bytes_wf item Hi) as [_ B]. set (n := item_bytes item) in *.
  pose proof (co_session_queue _ Hc). pose proof (co_global_queue _ Hc).
  pose proof (session_queued_nonneg _ _ _ _ _ I H). pose proof (total_nonneg' _ _ _ I).
  unfold is_u64 in *.
  destruct (max_session_queued_bytes config <? n) eqn:L1; cbn [orb].
  { split_if; [lia|done]. }
  rewrite (usub_small (max_session_queued_bytes config)) by lia.
  destruct (max_session_queued_bytes config - n <? queued_bytes c) eqn:L2; cbn [orb].
  { split_if; [lia|done]. }
  unfold ReserveGlobalQueued. fold n.
  destruct (max_global_queued_bytes config <? n) eqn:L3; cbn [orb negb].
  { split_if; [lia|done]. }
  rewrite (usub_small (max_global_queued_bytes config)) by lia.
  destruct (max_global_queued_bytes config - n <? queued_total (metrics s)) eqn:L4; cbn [orb negb].
  { split_if; [lia|done]. }
  rewrite (proj2 (Z.leb_le (queued_bytes c + n) _)) by lia.
  rewrite (proj2 (Z.leb_le (queued_total (metrics s) + n) _)) by lia.
  unfold enqueued. fold n. simpl. destruct (write_active c); done.
Qed.

Lemma Enqueue_stream sid item s ok s' :
  Inv None s -> item_wf item -> Enqueue config os sid item s = (ok, s') ->
  connected sid s' = true ->
  outbound sid s' = outbound sid s ++ (if ok then item_wire item else []).
Proof.
  intros I Hi E. destruct (heap s !! sid) as [c|] eqn:H.
  2: { unfold Enqueue in E. rewrite H in E. simplify_eq. rewrite app_nil_r. done. }
  rewrite (Enqueue_cases sid item s c I Hi H) in E. cbv zeta in E. split_if_in E; simplify_eq.
  2: { intros _. rewrite app_nil_r. split_if; done. }
  pose proof (inv_sessions _ _ _ I sid c H) as [_ _ _ S4 _ _ _ S8 _ _].
  set (s1 := enqueued sid item c s).
  assert (H1 : heap s1 !! sid = Some (set_write_active true (set_send_queue (send_queue c ++ [item])
    (set_queued_bytes (queued_bytes c + item_bytes item)%u64 c)))) by apply lookup_insert_eq.
  assert (O1 : outbound sid s1 = outbound sid s ++ item_wire item).
  { unfold outbound, queue_of. rewrite H1, H. simpl. rewrite map_app, concat_app. simpl.
    rewrite app_nil_r, app_assoc. done. }
  destruct (write_active c) eqn:A; [done|]. intros Cn. rewrite <-O1.
  eapply StartNextWrite_stream; [exact H1| |by apply S8|exact Cn].
  simpl. apply Forall_app. split; [done|]. by apply Forall_singleton.
Qed.

Lemma op_left_wire op : SendCursor.wf (op_cursor op) ->
  op_left op = zdrop (sent_ (op_cursor op)) (wire (op_cursor op)).
Proof. apply remainders_wire. Qed.

Lemma FinishWrite_stream s op :
  Inv (Some (op_session op, TotalSize (op_cursor op))) s ->
  ops_of (op_session op) (writes s) = [] ->
  connected (op_session op) (FinishWrite config os op true s) = true ->
  outbound (op_session op) (FinishWrite config os op true s) =
    concat (map item_wire (queue_of (op_session op) s)).
Proof.
  intros I O. unfold FinishWrite. destruct (op_close_after op); simpl;
    [by rewrite Disconnect_disconnects|].
  destruct (heap s !! op_session op) as [c|] eqn:H.
  2: { unfold StartNextWrite, connected. simpl. rewrite lookup_alter_eq, H. simpl.
       rewrite lookup_alter_eq, H. done. }
  pose proof (inv_sessions _ _ _ I _ c H) as [_ _ _ S4 _ _ _ _ _ _].
  assert (H1 : exists c', heap (FinishAccounting op true s) !! op_session op = Some c' /\
    send_queue c' = send_queue c).
  { eexists. simpl. rewrite lookup_alter_eq, H. split; done. }
  destruct H1 as (c' & H1 & Q). intros Cn.
  rewrite (StartNextWrite_stream _ _ c'); [|exact H1|by rewrite Q|exact O|exact Cn].
  unfold outbound, queue_of. rewrite H1, H, Q. simpl. rewrite O. done.
Qed.

Lemma HandleWrite_stream i op n s :
  Inv None s -> writes s !! i = Some op -> 0 < n <= size_of (op_left op) ->
  connected (op_session op) (HandleWrite config os i true n s) = true ->
  outbound (op_session op) (HandleWrite config os i true n s) = zdrop n (outbound (op_session op) s).
Proof.
  intros I Hi Hn. destruct (Inv_take config s i op I Hi) as (c & H & W & A & O & I1).
  pose proof (inv_sessions _ _ _ I _ c H) as [_ _ _ _ _ _ S7 _ _ _].
  destruct (ops_of_delete_eq _ _ _ Hi S7) as [E1 _].
  rewrite (op_left_wire op W) in Hn. pose proof (size_wire _ W) as SW. pose proof (wf_sent _ W) as HS.
  pose proof (wf_payload _ W) as HP. pose proof (wf_header _ W) as HH.
  rewrite size_zdrop in Hn by lia. unfold HandleWrite. rewrite Hi.
  set (s1 := set_writes _ s) in *. rewrite (proj2 (Z.eqb_neq n 0)) by lia. cbn [negb orb].
  destruct (Consume_spec n _ W ltac:(unfold size_max in *; lia)) as (W1 & Ew & Es).
  set (op' := mkWrite _ _ _).
  assert (OB : outbound (op_session op) s =
    zdrop (sent_ (op_cursor op)) (wire (op_cursor op)) ++ concat (map item_wire (queue_of (op_session op) s))).
  { unfold outbound. rewrite E1. simpl. rewrite app_nil_r, <-op_left_wire by done. done. }
  assert (L' : op_left op' = zdrop (sent_ (op_cursor op) + n) (wire (op_cursor op))).
  { rewrite op_left_wire by done. change (op_cursor op') with (Consume n (op_cursor op)).
    rewrite Ew, Es. f_equal. lia. }
  assert (DR : zdrop n (outbound (op_session op) s) =
    op_left op' ++ concat (map item_wire (queue_of (op_session op) s))).
  { rewrite OB, zdrop_app_le, L' by (rewrite size_zdrop by lia; lia).
    rewrite zdrop_zdrop by lia. done. }
  rewrite DR. destruct (Complete (op_cursor op')) eqn:Cp; cbn [negb].
  - assert (op_left op' = []) as ->.
    { rewrite L'. unfold Complete in Cp. change (op_cursor op') with (Consume n (op_cursor op)) in Cp.
      rewrite Remaining_wire, Ew, Es in Cp by done. apply Z.eqb_eq in Cp.
      replace (sent_ (op_cursor op) + n) with (size_of (wire (op_cursor op))) by lia. apply zdrop_all. }
    intros Cn. apply (FinishWrite_stream s1 op'); [|exact O|exact Cn]. simpl.
    rewrite TotalSize_wire, Ew, <-TotalSize_wire by done. exact I1.
  - destruct (PostWrite_ticks os op' s1) as (posted & t & ->). destruct posted.
    + intros _. unfold outbound, queue_of. simpl. rewrite ops_of_app, O.
      rewrite (ops_of_single_eq op' : ops_of (op_session op) [op'] = [op']). simpl.
      rewrite app_nil_r. done.
    + unfold FinishWrite. simpl. by rewrite Disconnect_disconnects.
Qed.

(** A failed write ends the connection. *)
Lemma HandleWrite_failed i op n s :
  writes s !! i = Some op -> connected (op_session op) (HandleWrite config os i false n s) = false.
Proof.
  intros Hi. unfold HandleWrite. rewrite Hi. simpl. unfold FinishWrite. simpl.
  apply Disconnect_disconnects.
Qed.

(** ** One round of the timer *)

Lemma SendControl_others sid op payload ca s :
  others sid s (SendControl config os clock sid op payload ca s).
Proof.
  unfold SendControl. destruct (heap s !! sid) as [c|] eqn:H; [|done]. set (item := mkItem _ _ _).
  destruct ca; [|apply Enqueue_others]. split_if; [done|]. unfold MonotonicMilliseconds.
  set (s1 := put sid _ _). assert (O1 : others sid s s1) by (by eapply others_put).
  pose proof (Enqueue_others sid item s1) as O2. destruct (Enqueue config os sid item s1) as [q s2].
  etransitivity; [exact O1|]. split_if; [|done]. etransitivity; [exact O2|apply Disconnect_others].
Qed.

Lemma TimerCheck_others now s h : others (id h) s (TimerCheck config os clock now s h).
Proof.
  unfold TimerCheck. destruct (heap s !! id h) as [c|] eqn:H; [|done].
  repeat (split_if; [try done; apply Disconnect_others|]).
  split_if; [split_if; [apply Disconnect_others|done]|]. split_if; [|done].
  set (c' := set_last_pong_ms now (set_awaiting_pong true c)).
  transitivity (put (id h) c' s); [by apply (others_put _ c')|apply SendControl_others].
Qed.

Lemma timer_others now hs s sid :
  sid ∉ (id <$> hs) ->
  heap (foldl (TimerCheck config os clock now) s hs) !! sid = heap s !! sid /\
  ops_of sid (writes (foldl (TimerCheck config os clock now) s hs)) = ops_of sid (writes s).
Proof.
  revert s. induction hs as [|h hs IH]; intros s Hn; [done|]. simpl in *.
  apply not_elem_of_cons in Hn as [Hne Hn]. destruct (IH (TimerCheck config os clock now s h) Hn) as [-> ->].
  by apply TimerCheck_others.
Qed.

(** The session of the snapshot is checked once, on the record it had. *)
Lemma TimerTick_session s sid c :
  Inv None s -> running s = true -> heap s !! sid = Some c -> disconnect_started c = false ->
  exists s1 l1 l2, table_snapshot (sessions s) = l1 ++ handle c :: l2 /\
    s1 = foldl (TimerCheck config os clock (clock (ticks s))) (set_ticks (S (ticks s)) s) l1 /\
    Inv None s1 /\ heap s1 !! sid = Some c /\ ops_of sid (writes s1) = ops_of sid (writes s) /\
    let s2 := TimerCheck config os clock (clock (ticks s)) s1 (handle c) in
    heap (TimerTick config os clock s) !! sid = heap s2 !! sid /\
    ops_of sid (writes (TimerTick config os clock s)) = ops_of sid (writes s2).
Proof.
  intros I R H D. unfold TimerTick. rewrite R. simpl. unfold MonotonicMilliseconds.
  set (now := clock (ticks s)). set (s0 := set_ticks _ s). change (sessions s0) with (sessions s).
  destruct (snapshot_spec config s I) as [N M].
  pose proof (so_id _ _ _ _ _ (inv_sessions _ _ _ I sid c H)) as Hid.
  assert (Hin : handle c ∈ table_snapshot (sessions s)) by (apply M; exists c; rewrite Hid; done).
  apply list_elem_of_split in Hin as (l1 & l2 & E). rewrite E in *.
  rewrite fmap_app in N. simpl in N. apply NoDup_app in N as (_ & N1 & N2).
  apply NoDup_cons in N2 as [N2 _]. rewrite Hid in *.
  rewrite foldl_app. simpl. set (s1 := foldl _ s0 l1).
  assert (F1 : fine config s0 s1).
  { apply fold_fine; [|by eapply Inv_frame]. intros. by apply TimerCheck_fine. }
  assert (H1 : sid ∉ (id <$> l1)).
  { intros Hl. apply (N1 sid Hl). left. }
  exists s1, l1, l2. destruct (timer_others now l1 s0 sid H1) as [E1 W1].
  destruct (timer_others now l2 (TimerCheck config os clock now s1 (handle c)) sid N2) as [E2 W2].
  split_and!; [done|done|apply F1|by etransitivity|exact W1|exact E2|exact W2].
Qed.

(** When the timer gives up on a session, and when it pings. *)
Definition expired (now : Z) (c : ClientSession) : bool :=
  match state c with
  | Handshaking => handshake_timeout config <? now - connected_at_ms c
  | Closing => close_timeout config <? now - close_started_ms c
  | Open => (idle_timeout config <? now - last_activity_ms c)
      || bool_decide (transport c = WebSocket) && awaiting_pong c
         && (websocket_pong_timeout config <? now - last_pong_ms c)
  | _ => false
  end.

Definition ping_due (now : Z) (c : ClientSession) : bool :=
  negb (expired now c) && bool_decide (state c = Open) && bool_decide (transport c = WebSocket)
  && negb (awaiting_pong c) && (websocket_ping_interval config <? now - last_pong_ms c).

Lemma TimerCheck_cases now s h c :
  heap s !! id h = Some c -> disconnect_started c = false ->
  TimerCheck config os clock now s h =
    if expired now c then Disconnect config (id h) s
    else if ping_due now c
    then SendControl config os clock (id h) Ping [] false
           (put (id h) (set_last_pong_ms now (set_awaiting_pong true c)) s)
    else s.
Proof.
  intros H D. unfold TimerCheck. rewrite H, D. unfold ping_due, expired.
  destruct (state c); simpl; try done; [by destruct (_ <? _)|..|by destruct (_ <? _)].
  destruct (idle_timeout config <? _); simpl; [done|].
  destruct (bool_decide (transport c = WebSocket)); simpl; [|done].
  destruct (awaiting_pong c); simpl; [by destruct (_ <? _)|done].
Qed.
End stream.
