(* ===== verification/ServerProperties.v ===== *)
(** * The server: its properties

    What holds in every reachable state, and what [Stop] does.  The sample runs use an
    application that echoes every message and the sharded registry. *)

From S2P Require Import Prelude SessionHandle OutboundQueue SendCursor Framing.
From S2P Require Import WebSocketDecoder Handshake SessionRegistry ServerTypes Server.
From S2P Require Import ServerInbound ServerInvariant ServerReceive ServerSteps ServerStream.

(** ** A sample run *)

#[local] Instance echo : Application nat := {|
  message_handler := Some (fun _ h message n => (Accepted, [(h, message)], S n));
  connect_handler := fun _ n => n;
  disconnect_handler := fun _ n => n;
|}.

Definition sample_os (n : nat) : bool := true.
Definition sample_clock (n : nat) : Z := Z.of_nat n.

Definition limited_config (inbound : Z) : ServerConfig :=
  mkConfig 8080 1 10 2 1024 64 128 inbound 256 1024 512 10 3 5000 60000 20000 10000 3000 false None.

Definition sample_config : ServerConfig := limited_config 4096.

Abbreviation sample_server := (Server nat (list (gmap Z SessionHandle))).

Definition sample_read (config : ServerConfig) (i : nat) (bytes : list byte) (s : sample_server) :=
  default s (HandleRead config sample_os sample_clock i true bytes s).

(** Started; one client accepted; its message received and echoed. *)
Definition sample_started (config : ServerConfig) : sample_server :=
  (Start config sample_os (initial 0%nat)).2.
Definition sample_accepted (config : ServerConfig) : sample_server :=
  HandleAccept config sample_os sample_clock true 0 (sample_started config).
Definition sample_echoed : sample_server :=
  sample_read sample_config 0 (frame (bstr "hello")) (sample_accepted sample_config).

Lemma limited_config_ok n : config_ok (limited_config n).
Proof. constructor; simpl; unfold is_u64, size_max; lia. Qed.

Lemma sample_accepted_reachable n :
  reachable (limited_config n) sample_os sample_clock 0%nat (sample_accepted (limited_config n)).
Proof.
  apply (rtc_l _ _ (sample_started (limited_config n))); [apply step_start|].
  apply rtc_once. unfold sample_accepted. apply step_accept; vm_compute; [lia|reflexivity].
Qed.

Lemma sample_echoed_reachable : reachable sample_config sample_os sample_clock 0%nat sample_echoed.
Proof.
  apply (rtc_r _ (sample_accepted sample_config)); [apply (sample_accepted_reachable 4096)|].
  apply (step_read _ _ _ _ 0 true (frame (bstr "hello"))). vm_compute. reflexivity.
Qed.

Section properties.
Context {St T : Type} `{App : Application St} `{Tab : SessionTable SessionHandle T (fun h => h)}.
Context (config : ServerConfig) (os : nat -> bool) (clock : nat -> Z) (Hc : config_ok config).
Context (a0 : St) (s : Server St T) (Hs : reachable config os clock a0 s).

(** C4. Outbound bytes are accounted exactly: in every reachable state the
    global counter is the sum of the sessions' counters, each counter is the
    bytes queued plus the bytes of the outstanding write, neither counter
    exceeds its limit, and no subtraction ever wrapped around. *)
Theorem server_accounting :
  queued_total (metrics s) = map_sum queued_bytes (heap s) /\
  0 <= queued_total (metrics s) <= max_global_queued_bytes config /\
  forall sid c, heap s !! sid = Some c ->
    queued_bytes c = queue_sum (send_queue c) + ops_sum (ops_of sid (writes s)) /\
    0 <= queued_bytes c <= max_session_queued_bytes config /\
    (disconnect_started c = true -> send_queue c = [] /\ socket c = false).
Proof.
  destruct (reachable_good config os clock Hc a0 s Hs) as [I R U]. split_and!.
  - apply (inv_queued _ _ _ I).
  - by eapply total_nonneg'.
  - apply (inv_queued_limit _ _ _ I).
  - intros sid c H. pose proof (inv_sessions _ _ _ I sid c H) as [S1 S2 S3 S4 S5 S6 S7 S8 S9 S10].
    simpl in S2. split_and!; [lia|by eapply session_queued_nonneg|done|].
    intros D. destruct (S6 D). done.
Qed.

(** C10. One write at a time and none forgotten: in every reachable state a
    session has at most one write outstanding, a connected session marked as
    writing has exactly one, and a session not marked has neither a write nor
    queued data; so queued data is always behind a write that will complete. *)
Theorem server_write_discipline :
  forall sid c, heap s !! sid = Some c ->
    (length (ops_of sid (writes s)) <= 1)%nat /\
    (write_active c = false -> send_queue c = [] /\ ops_of sid (writes s) = []) /\
    (connected sid s = true -> write_active c = true -> length (ops_of sid (writes s)) = 1%nat) /\
    (connected sid s = true -> send_queue c <> [] -> length (ops_of sid (writes s)) = 1%nat).
Proof.
  destruct (reachable_good config os clock Hc a0 s Hs) as [I R U]. intros sid c H.
  pose proof (inv_sessions _ _ _ I sid c H) as [S1 S2 S3 S4 S5 S6 S7 S8 S9 S10].
  assert (G : connected sid s = true -> write_active c = true -> length (ops_of sid (writes s)) = 1%nat).
  { unfold connected. rewrite H, negb_true_iff. intros D A.
    pose proof (inv_stall _ _ _ I sid c H eq_refl D A) as Hne.
    destruct (ops_of sid (writes s)) as [|op [|op' l]]; simpl in S7; [done|done|lia]. }
  split_and!; [done..|]. intros Cn Q. apply G; [done|].
  destruct (write_active c) eqn:A; [done|]. destruct (S8 eq_refl). done.
Qed.

(** C11. Every connection is being read, and [Stop] waits for the right thing: in
    every reachable state each connected session has exactly one read
    outstanding, and [outstanding_operations] counts exactly the reads, writes
    and accepts at the completion port, so it is zero exactly when none is. *)
Theorem server_outstanding :
  NoDup (reads s) /\
  (forall sid, connected sid s = true -> sid ∈ reads s) /\
  u64 (outstanding_operations s) =
    u64 (Z.of_nat (length (reads s) + length (writes s) + accepts s)).
Proof.
  destruct (reachable_good config os clock Hc a0 s Hs) as [I [D Hh L] U]. split_and!; [done| |].
  - intros sid Cn. unfold connected in Cn. destruct (heap s !! sid) as [c|] eqn:H; [|done].
    apply negb_true_iff in Cn. by apply (L sid c H Cn).
  - unfold untracked in U. set (n := Z.of_nat _) in *.
    rewrite <-(Z.sub_add n (outstanding_operations s)), <-u64_add_l, U. done.
Qed.

(** C13. The registry is the set of live connections: in every reachable state a
    handle is found exactly when a connected session carries it, the snapshot
    lists each of them once, and [active_connections] counts them.  An accept
    that saw the counter at [max_connections] or above, however old the value,
    registers nothing; one that did not see a smaller value than the counter has
    now does not take it beyond the limit. *)
Theorem server_registry_live :
  (forall h k, table_find h (sessions s) = Some k <->
     k = h /\ connected (id h) s = true /\ exists c, heap s !! id h = Some c /\ handle c = h) /\
  NoDup (table_snapshot (sessions s)) /\
  active_connections (metrics s) = Z.of_nat (length (table_snapshot (sessions s))) /\
  (forall ok seen, next_session_id s < size_max ->
     let s' := HandleAccept config os clock ok seen s in
     (max_connections config <= seen ->
        sessions s' = sessions s /\ heap s' = heap s /\
        active_connections (metrics s') = active_connections (metrics s)) /\
     (active_connections (metrics s) <= seen ->
        active_connections (metrics s') <= Z.max (active_connections (metrics s)) (max_connections config))).
Proof.
  destruct (reachable_good config os clock Hc a0 s Hs) as [I R U].
  destruct (inv_registry _ _ _ I) as (m & RP & Rm & A).
  assert (Hid : forall sid h, m !! sid = Some h -> id h = sid).
  { intros sid h E. apply Rm in E as (c & H & <- & _).
    apply (so_id _ _ _ _ _ (inv_sessions _ _ _ I sid c H)). }
  split_and!.
  - intros h k. rewrite (find_spec config s h k I). unfold connected. split.
    + intros (-> & c & H & E & D). rewrite H, D. split_and!; [done..|]. by exists c.
    + intros (-> & Cn & c & H & E). rewrite H, negb_true_iff in Cn. split; [done|]. by exists c.
  - rewrite (represents_snapshot _ _ RP). apply NoDup_fmap_2_strong; [|apply NoDup_map_to_list].
    intros [k1 h1] [k2 h2] E1 E2 E. simpl in E. subst h2.
    apply elem_of_map_to_list in E1, E2. f_equal. rewrite <-(Hid _ _ E1). by apply Hid.
  - rewrite (represents_snapshot _ _ RP), length_fmap, A. by rewrite length_map_to_list.
  - intros ok seen Hn. cbv zeta. destruct (HandleAccept_active config os clock Hc ok seen s I Hn) as [L F].
    split; [done|]. intros Hs'. destruct (Z.le_gt_cases (max_connections config) seen) as [Ge|Lt]; [|lia].
    destruct (F Ge) as (_ & _ & ->). lia.
Qed.

(** C22. Receiving terminates: in every reachable state every read completion,
    with whatever bytes, is handled to its end (no decoder, handshake parser or
    receive loop runs on), and the server it leaves is reachable again. *)
Theorem server_read_terminates i ok bytes :
  exists s', HandleRead config os clock i ok bytes s = Some s' /\
    reachable config os clock a0 s'.
Proof.
  destruct (reachable_good config os clock Hc a0 s Hs) as [I R U].
  destruct (HandleRead_ok config os clock Hc i ok bytes s I R) as (s' & E & _).
  exists s'. split; [done|]. eapply rtc_r; [exact Hs|]. by eapply step_read.
Qed.

(** Backpressure: a message is queued exactly when the connection is up and
    both limits leave room for header and payload; a refused one changes no
    queue, no counter of bytes and no other session, and only counts a failure
    when the limits refused it. *)
Theorem server_backpressure sid item c :
  item_wf item -> heap s !! sid = Some c ->
  ((Enqueue config os sid item s).1 = true <->
     connected sid s = true /\
     queued_bytes c + item_bytes item <= max_session_queued_bytes config /\
     queued_total (metrics s) + item_bytes item <= max_global_queued_bytes config) /\
  ((Enqueue config os sid item s).1 = false ->
     (Enqueue config os sid item s).2 =
       if connected sid s
       then count (fun m => set_send_failures (send_failures m + 1)%u64 m) s else s).
Proof.
  intros Hi H. destruct (reachable_good config os clock Hc a0 s Hs) as [I R U].
  rewrite (Enqueue_cases config os Hc sid item s c I Hi H). cbv zeta.
  unfold connected. rewrite H. split_if; simpl.
  - destruct Hif as [[-> ?] ?]. split; [|done]. split; [done|]. intros. done.
  - split; [|intros _; destruct (disconnect_started c); done]. split; [done|].
    intros (D & L1 & L2). apply negb_true_iff in D. rewrite D in Hif. simpl in Hif.
    destruct Hif as [[?|?]|?]; [done|lia|lia].
Qed.

(** C5. Each connection's bytes leave in order, none lost and none repeated: a
    queued message is appended to what the connection is still owed, a
    completed write of [n] bytes takes exactly the first [n] of it, a failed
    write ends the connection, and no other connection's bytes change. *)
Theorem server_stream_fifo :
  (forall sid item ok s', item_wf item -> Enqueue config os sid item s = (ok, s') ->
     (connected sid s' = true ->
        outbound sid s' = outbound sid s ++ (if ok then item_wire item else [])) /\
     (forall k, k <> sid -> outbound k s' = outbound k s)) /\
  (forall i op n, writes s !! i = Some op -> 0 < n <= size_of (op_left op) ->
     let s' := HandleWrite config os i true n s in
     (connected (op_session op) s' = true ->
        outbound (op_session op) s' = zdrop n (outbound (op_session op) s)) /\
     (forall k, k <> op_session op -> outbound k s' = outbound k s)) /\
  (forall i op n, writes s !! i = Some op ->
     connected (op_session op) (HandleWrite config os i false n s) = false).
Proof.
  destruct (reachable_good config os clock Hc a0 s Hs) as [I R U]. split_and!.
  - intros sid item ok s' Hi E. split; [by eapply Enqueue_stream|]. intros k Hk.
    eapply others_outbound; [|exact Hk]. pose proof (Enqueue_others config os sid item s) as O.
    by rewrite E in O.
  - intros i op n Hi Hn. cbv zeta. split; [by apply HandleWrite_stream|]. intros k Hk.
    eapply others_outbound; [by apply (HandleWrite_others config os i op)|exact Hk].
  - intros i op n Hi. by apply HandleWrite_failed.
Qed.

(** [Stop] ends every connection: afterwards the server is not running, no
    session is connected, the registry is empty and no connection is counted,
    nothing is queued but the writes still at the port. *)
Theorem server_stop :
  running s = true ->
  let s' := StopSessions config s in
  running s' = false /\ (forall sid, connected sid s' = false) /\
  table_snapshot (sessions s') = [] /\ active_connections (metrics s') = 0 /\
  (forall sid, queue_of sid s' = []) /\ writes s' = writes s.
Proof.
  intros Hr. cbv zeta. pose proof (reachable_good config os clock Hc a0 s Hs) as G.
  destruct (StopSessions_spec config Hc s G) as [G' D]. specialize (D Hr).
  pose proof (StopSessions_running config s) as [R' W'].
  set (s' := StopSessions config s) in *. pose proof (gd_inv _ _ G') as I.
  destruct (inv_registry _ _ _ I) as (m & RP & Rm & A).
  assert (m = ∅) as ->.
  { apply map_eq. intros sid. rewrite lookup_empty. destruct (m !! sid) as [h|] eqn:E; [|done].
    apply Rm in E as (c & H & _ & Dc). rewrite (D sid c H) in Dc. done. }
  split_and!; [by apply R'| | |by rewrite A| |done].
  - intros sid. unfold connected. destruct (heap s' !! sid) as [c|] eqn:H; [|done].
    by rewrite (D sid c H).
  - apply Permutation_nil. symmetry. etransitivity; [by apply represents_snapshot|].
    rewrite map_to_list_empty. done.
  - intros sid. unfold queue_of. destruct (heap s' !! sid) as [c|] eqn:H; [|done].
    apply (so_down _ _ _ _ _ (inv_sessions _ _ _ I sid c H)). by apply (D sid c H).
Qed.

End properties.

(** ** Witnesses: the run in which one message is received and echoed *)

Lemma server_accounting_witness :
  queued_total (metrics sample_echoed) = map_sum queued_bytes (heap sample_echoed) /\
  queued_total (metrics sample_echoed) = 9.
Proof.
  split; [|reflexivity].
  destruct (server_accounting sample_config sample_os sample_clock (limited_config_ok 4096) 0%nat
    sample_echoed sample_echoed_reachable) as [E _]. exact E.
Defined.

Lemma server_write_discipline_witness :
  exists c, heap sample_echoed !! 1 = Some c /\ (length (ops_of 1 (writes sample_echoed)) <= 1)%nat.
Proof.
  assert (H : is_Some (heap sample_echoed !! 1)) by (eexists; vm_compute; reflexivity).
  destruct H as [c H]. exists c. split; [exact H|].
  destruct (server_write_discipline sample_config sample_os sample_clock (limited_config_ok 4096) 0%nat
    sample_echoed sample_echoed_reachable 1 c H) as [E _]. exact E.
Defined.

Lemma server_outstanding_witness : connected 1 sample_echoed = true /\ 1 ∈ reads sample_echoed.
Proof.
  split; [reflexivity|].
  destruct (server_outstanding sample_config sample_os sample_clock (limited_config_ok 4096) 0%nat
    sample_echoed sample_echoed_reachable) as (_ & E & _). apply E. reflexivity.
Defined.

Lemma server_registry_live_witness :
  active_connections (metrics sample_echoed) =
    Z.of_nat (length (table_snapshot (handle_of := fun h => h) (sessions sample_echoed))) /\
  active_connections (metrics sample_echoed) = 1.
Proof.
  split; [|reflexivity].
  destruct (server_registry_live sample_config sample_os sample_clock (limited_config_ok 4096) 0%nat
    sample_echoed sample_echoed_reachable) as (_ & _ & E & _). exact E.
Defined.

Lemma server_read_terminates_witness :
  exists s', HandleRead sample_config sample_os sample_clock 0 true (bstr "GET / HTTP") sample_echoed = Some s' /\
    reachable sample_config sample_os sample_clock 0%nat s'.
Proof.
  apply (server_read_terminates sample_config sample_os sample_clock (limited_config_ok 4096) 0%nat
    sample_echoed sample_echoed_reachable).
Defined.

Definition sample_item : OutboundItem := mkItem (bstr "AB") (bstr "payload") false.

Lemma server_backpressure_witness :
  (Enqueue sample_config sample_os 1 sample_item sample_echoed).1 = true.
Proof.
  assert (H : exists c, heap sample_echoed !! 1 = Some c /\ queued_bytes c = 9)
    by (eexists; vm_compute; split; reflexivity).
  destruct H as (c & H & Q).
  assert (W : item_wf sample_item) by (constructor; vm_compute; congruence).
  destruct (server_backpressure sample_config sample_os sample_clock (limited_config_ok 4096) 0%nat
    sample_echoed sample_echoed_reachable 1 sample_item c W H) as [E _].
  apply E. rewrite Q. split_and!; vm_compute; congruence.
Defined.

Lemma server_stream_fifo_witness :
  connected 1 (HandleWrite sample_config sample_os 0 true 3 sample_echoed) = true /\
  outbound 1 (HandleWrite sample_config sample_os 0 true 3 sample_echoed) =
    zdrop 3 (outbound 1 sample_echoed) /\
  outbound 1 sample_echoed = frame (bstr "hello").
Proof.
  split_and!; [reflexivity| |reflexivity].
  assert (H : exists op, writes sample_echoed !! 0%nat = Some op /\ op_session op = 1 /\
    0 < 3 <= size_of (op_left op)).
  { eexists. split; [vm_compute; reflexivity|]. vm_compute. split_and!; congruence. }
  destruct H as (op & Hw & Hs & Hn).
  destruct (server_stream_fifo sample_config sample_os sample_clock (limited_config_ok 4096)
    0%nat sample_echoed sample_echoed_reachable) as (_ & F & _).
  destruct (F 0%nat op 3 Hw Hn) as [E _]. rewrite Hs in E. apply E. reflexivity.
Defined.

Lemma server_stop_witness :
  running sample_echoed = true /\ connected 1 sample_echoed = true /\
  connected 1 (StopSessions sample_config sample_echoed) = false.
Proof.
  split_and!; [reflexivity|reflexivity|].
  destruct (server_stop sample_config sample_os sample_clock (limited_config_ok 4096) 0%nat
    sample_echoed sample_echoed_reachable eq_refl) as (_ & E & _). apply E.
Defined.
