(* ===== verification/ServerInduction.v ===== *)
(** * Invariants of the sessions and the application

    A property of the heap and the application holds in every reachable state
    when a few changes keep it ([closed]): a session's other fields, the end of a
    session, a new one, a message counted, a message handed over.  The traversal
    of the operations is done here once, for every such property. *)

From S2P Require Import Prelude SessionHandle OutboundQueue SendCursor Framing.
From S2P Require Import WebSocketDecoder Handshake SessionRegistry ServerTypes Server.
From S2P Require Import ServerInbound ServerInvariant ServerReceive ServerSteps ServerStream ServerProperties.

(** What an operation keeps of a session that it neither ends nor counts. *)
Record same_session (c c' : ClientSession) : Prop := {
  ss_handle : handle c' = handle c;
  ss_started : disconnect_started c' = disconnect_started c;
  ss_window : rate_window_ms c' = rate_window_ms c;
  ss_messages : rate_window_messages c' = rate_window_messages c;
}.

Record ended_session (c c' : ClientSession) : Prop := {
  es_handle : handle c' = handle c;
  es_started : disconnect_started c' = true;
  es_window : rate_window_ms c' = rate_window_ms c;
  es_messages : rate_window_messages c' = rate_window_messages c;
}.

Section induction.
Context {St T : Type} `{App : Application St} `{Tab : SessionTable SessionHandle T (fun h => h)}.
Context (config : ServerConfig) (os : nat -> bool) (clock : nat -> Z).
#[local] Abbreviation Server := (Server St T).

Record closed (P : Server -> Prop) : Prop := {
  cl_frame s s' :
    P s -> heap s' = heap s -> app s' = app s -> (ticks s <= ticks s')%nat -> P s';
  cl_session s s' sid c c' :
    P s -> heap s !! sid = Some c -> heap s' = <[sid := c']> (heap s) -> same_session c c' ->
    app s' = app s -> (ticks s <= ticks s')%nat -> P s';
  cl_disconnect s s' sid c c' :
    P s -> heap s !! sid = Some c -> heap s' = <[sid := c']> (heap s) -> ended_session c c' ->
    app s' = disconnect_handler (handle c) (app s) -> (ticks s <= ticks s')%nat -> P s';
  cl_accept s s' :
    let h := mkHandle (next_session_id s) (next_generation s) in
    P s -> heap s !! id h = None ->
    heap s' = <[id h := set_state Handshaking (new_session config h (clock (ticks s)))]> (heap s) ->
    app s' = connect_handler h (app s) -> (ticks s < ticks s')%nat -> P s';
  cl_counted s s' sid c :
    P s -> heap s !! sid = Some c -> heap s' = <[sid := rate_step (clock (ticks s)) c]> (heap s) ->
    app s' = app s -> (ticks s < ticks s')%nat -> P s';
  cl_message s s' sid c message callback :
    P s -> heap s !! sid = Some c -> disconnect_started c = false ->
    rate_window_messages (rate_step (clock (ticks s)) c) <= max_messages_per_second config ->
    message_handler = Some callback ->
    heap s' = <[sid := rate_step (clock (ticks s)) c]> (heap s) ->
    app s' = (callback (clock (S (ticks s))) (handle c) message (app s)).2 ->
    (S (ticks s) < ticks s')%nat -> P s';
}.

Lemma PostWrite_grows op (s : Server) :
  exists ok t, PostWrite os op s = (ok, set_ticks t s) /\ (ticks s <= t)%nat.
Proof.
  assert (N : exists ok t, (false, s) = (ok, set_ticks t s) /\ (ticks s <= t)%nat)
    by (exists false, (ticks s); by destruct s).
  unfold PostWrite. destruct (heap s !! _) as [c|]; [|done]. split_if; [done|].
  unfold os_call. eexists _, _. split; [done|]. lia.
Qed.

Lemma PostReadOperation_grows sid (s : Server) :
  exists (ok : bool) t, PostReadOperation os sid s =
    (ok, if ok then set_reads (reads s ++ [sid]) (set_ticks t s) else set_ticks t s) /\ (ticks s <= t)%nat.
Proof.
  unfold PostReadOperation. destruct (heap s !! sid) as [c|];
    [destruct (negb (socket c))|]; try (by exists false, (ticks s); destruct s).
  unfold os_call. eexists _, _. split; [done|]. lia.
Qed.

Lemma PostRead_grows sid (s : Server) :
  exists (ok : bool) t o, PostRead os sid s =
    (ok, set_outstanding_operations o
           (if ok then set_reads (reads s ++ [sid]) (set_ticks t s) else set_ticks t s)) /\ (ticks s <= t)%nat.
Proof.
  unfold PostRead, os_call. destruct (os (ticks s)); simpl.
  - destruct (PostReadOperation_grows sid (TrackOperation (set_ticks (S (ticks s)) s)))
      as (ok & t & -> & L). simpl in L. destruct ok; simpl.
    + exists true, t. eexists. split; [reflexivity|lia].
    + exists false, t. eexists. split; [reflexivity|lia].
  - exists false, (S (ticks s)), (outstanding_operations s). split; [by destruct s|lia].
Qed.

Section property.
Context (P : Server -> Prop) (CP : closed P).

(** A state that differs from one with the property neither in its heap nor in
    its application. *)
Ltac hframe :=
  match goal with H : P ?s |- P ?t =>
    refine (cl_frame P CP s t H eq_refl eq_refl _); simpl; lia end.

Lemma P_step s s' sid c c' :
  P s -> heap s !! sid = Some c -> heap s' = <[sid := c']> (heap s) ->
  same_session c c' -> app s' = app s -> (ticks s <= ticks s')%nat -> P s'.
Proof. intros. by eapply (cl_session P CP s). Qed.

Ltac pstep := eapply P_step; [done..|simpl; lia].

Lemma P_modify s sid f : P s -> (forall c, same_session c (f c)) -> P (modify sid f s).
Proof.
  intros Ho Hf. destruct (heap s !! sid) as [c|] eqn:H.
  - rewrite (modify_put _ _ _ _ H). pstep.
  - eapply (cl_frame P CP s); [done| |done..]. simpl. apply map_eq. intros k.
    destruct (decide (k = sid)) as [->|Hk]; [by rewrite lookup_alter_eq, H|].
    by rewrite lookup_alter_ne.
Qed.

Lemma drop_queue_same c m : same_session c (drop_queue c m).1.
Proof. unfold drop_queue. by destruct (foldl _ _ _). Qed.

Lemma AccountInbound_same b c m : same_session c (AccountInbound config b c m).1.1.
Proof. unfold AccountInbound. repeat split_if; done. Qed.

Lemma Disconnect_keeps sid s : P s -> P (Disconnect config sid s).
Proof.
  intros Ho. unfold Disconnect. destruct (heap s !! sid) as [c|] eqn:H; [|done].
  destruct (disconnect_started c) eqn:D; [done|].
  match goal with |- context [drop_queue ?x ?m] =>
    pose proof (drop_queue_same x m) as K1; destruct (drop_queue x m) as [c1 m1] end.
  pose proof (AccountInbound_same 0 c1 m1) as K2.
  destruct (AccountInbound config 0 c1 m1) as [[c2 m2] e].
  cbn [fst] in K1, K2. destruct K1 as [h1 d1 w1 r1], K2 as [h2 d2 w2 r2]. simpl in h1, d1, w1, r1.
  assert (Eh : handle c2 = handle c) by congruence. rewrite Eh.
  apply (cl_disconnect P CP s _ sid c c2); [done..| |done|simpl; lia]. constructor; congruence.
Qed.

Lemma UpdateInboundAccounting_keeps sid b s :
  P s -> P (UpdateInboundAccounting config sid b s).
Proof.
  intros Ho. unfold UpdateInboundAccounting. destruct (heap s !! sid) as [c|] eqn:H; [|done].
  pose proof (AccountInbound_same b c (metrics s)) as K.
  destruct (AccountInbound config b c (metrics s)) as [[c1 m1] e].
  assert (Ho1 : P (set_metrics m1 (put sid c1 s))) by (pstep).
  destruct e; [by apply Disconnect_keeps|done].
Qed.

Lemma FinishAccounting_keeps op ok s : P s -> P (FinishAccounting op ok s).
Proof.
  intros Ho. unfold FinishAccounting.
  eapply (cl_frame P CP (modify (op_session op) _ s)); [|done..]. by apply P_modify.
Qed.

Lemma StartNextWrite_keeps sid s : P s -> P (StartNextWrite config os sid s).
Proof.
  intros Ho. unfold StartNextWrite. destruct (heap s !! sid) as [c|] eqn:H; [|done].
  destruct (send_queue c) as [|item rest]; [pstep|]. unfold os_call.
  set (s1 := set_ticks _ _). assert (H1 : P s1) by (pstep).
  assert (F : P (Disconnect config sid
    (count (fun m => set_send_failures (send_failures m + 1)%u64 m)
      (count (fun m => set_queued_total (queued_total m - item_bytes item)%u64 m)
        (modify sid (fun c => set_queued_bytes (queued_bytes c - item_bytes item)%u64 c) s1))))).
  { apply Disconnect_keeps. eapply (cl_frame P CP (modify sid _ s1)); [|done..].
    by apply P_modify. }
  destruct (os _); [|exact F]. destruct (SendCursor.construct _ _) as [cursor|]; [|exact F].
  set (op := mkWrite _ _ _).
  destruct (PostWrite_grows op (TrackOperation s1)) as (posted & t & -> & Gt). simpl in Gt.
  destruct posted; [hframe|].
  apply Disconnect_keeps, FinishAccounting_keeps. hframe.
Qed.

Lemma FinishWrite_keeps op ok s : P s -> P (FinishWrite config os op ok s).
Proof.
  intros Ho. unfold FinishWrite. pose proof (FinishAccounting_keeps op ok s Ho).
  split_if; [by apply Disconnect_keeps|by apply StartNextWrite_keeps].
Qed.

Lemma HandleWrite_keeps i ok n s : P s -> P (HandleWrite config os i ok n s).
Proof.
  intros Ho. unfold HandleWrite. destruct (writes s !! i) as [op|]; [|done].
  set (s1 := set_writes _ s). assert (H1 : P s1) by (hframe).
  split_if; [by apply FinishWrite_keeps|]. split_if; [|by apply FinishWrite_keeps].
  set (op' := mkWrite _ _ _). destruct (PostWrite_grows op' s1) as (posted & t & -> & Gt). simpl in Gt.
  assert (H2 : P (set_ticks t s1)) by (hframe).
  destruct posted; [hframe|by apply FinishWrite_keeps].
Qed.

Lemma Enqueue_keeps sid item s : P s -> P (Enqueue config os sid item s).2.
Proof.
  intros Ho. unfold Enqueue. destruct (heap s !! sid) as [c|] eqn:H; [|done].
  destruct (disconnect_started c) eqn:D; [done|]. split_if; [hframe|].
  unfold ReserveGlobalQueued. split_if; [hframe|]. simpl.
  set (s1 := put sid _ _). assert (H1 : P s1) by (pstep).
  split_if; [by apply StartNextWrite_keeps|done].
Qed.

Lemma SendRaw_keeps sid response ca s : P s -> P (SendRaw config os sid response ca s).
Proof.
  intros Ho. unfold SendRaw. pose proof (Enqueue_keeps sid (mkItem [] response ca) s Ho) as E.
  destruct (Enqueue config os sid _ s) as [q s1]. split_if; [by apply Disconnect_keeps|done].
Qed.

Lemma SendControl_keeps sid op payload ca s :
  P s -> P (SendControl config os clock sid op payload ca s).
Proof.
  intros Ho. unfold SendControl. destruct (heap s !! sid) as [c|] eqn:H; [|done].
  set (item := mkItem _ _ _). destruct ca; [|by apply Enqueue_keeps]. split_if; [done|].
  unfold MonotonicMilliseconds. set (s1 := put sid _ _).
  assert (H1 : P s1) by (pstep). pose proof (Enqueue_keeps sid item s1 H1) as E.
  destruct (Enqueue config os sid item s1) as [q s2]. split_if; [by apply Disconnect_keeps|done].
Qed.

Lemma Send_keeps h payload s : P s -> P (Send config os h payload s).2.
Proof.
  intros Ho. unfold Send. destruct (table_find h (sessions s)); [|done]. destruct payload; [|done].
  destruct (heap s !! _) as [c|]; [|done]. split_if; [done|].
  destruct (transport c); [done| |by apply Enqueue_keeps].
  destruct (EncodeLength _); [by apply Enqueue_keeps|done].
Qed.

Lemma Close_keeps h code reason s : P s -> P (Close config os clock h code reason s).
Proof.
  intros Ho. unfold Close. destruct (table_find h (sessions s)); [|done].
  destruct (heap s !! _) as [c|]; [|done]. split_if; [by apply Disconnect_keeps|].
  by apply SendControl_keeps.
Qed.

Lemma RecordMalformed_keeps sid s : P s -> P (RecordMalformed sid s).
Proof.
  intros Ho. unfold RecordMalformed. eapply (cl_frame P CP (modify sid _ s)); [|done..].
  by apply P_modify.
Qed.

Lemma send_all_keeps out s : P s -> P (send_all config os out s).
Proof.
  revert s. induction out as [|[h p] out IH]; intros s Ho; [done|]. simpl.
  apply IH. by apply (Send_keeps h (Some p)).
Qed.

(** ** The receive path *)

Lemma DeliverMessage_keeps sid message s c :
  P s -> heap s !! sid = Some c -> disconnect_started c = false ->
  P (DeliverMessage config os clock sid message s).2.
Proof.
  intros Ho H D. rewrite (DeliverMessage_eq config os clock sid message s c H). cbv zeta.
  set (now := clock (ticks s)). set (s1 := put sid (rate_step now c) _).
  assert (Ho1 : P s1) by (by eapply (cl_counted P CP s); [..|simpl; lia]).
  split_if; [by apply Close_keeps|].
  destruct message_handler as [callback|] eqn:Cb; [|done].
  pose proof (cl_message P CP s) as TM.
  destruct (callback _ _ _ _) as [[disposition out] app'] eqn:E. set (s2 := set_app app' _).
  assert (Ho2 : P s2).
  { apply (TM s2 sid c message callback); [exact Ho|exact H|exact D|exact Hif|exact Cb|done| |simpl; lia].
    transitivity app'; [done|]. change (app s) with (app s1).
    change (S (ticks s)) with (ticks s1). by rewrite E. }
  pose proof (send_all_keeps out s2 Ho2) as Ho3. set (s3 := send_all config os out s2) in *.
  split_if; [done|]. pose proof (RecordMalformed_keeps sid s3 Ho3) as Ho4.
  split_if; [by apply Close_keeps|done].
Qed.

Lemma raw_loop_keeps fuel sid s ended s' :
  P s -> raw_loop config os clock fuel sid s = Some (ended, s') -> P s'.
Proof.
  revert s. induction fuel as [|fuel IH]; intros s Ho E; [done|]. simpl in E.
  destruct (heap s !! sid) as [c|] eqn:H; [|by simplify_eq].
  destruct (disconnect_started c) eqn:D; [by simplify_eq|].
  destruct (Framing.Next (raw_decoder c)) as [[st m] d]. set (s1 := put sid _ s) in E.
  assert (Ho1 : P s1) by (pstep).
  destruct st; [by simplify_eq| |simplify_eq; by apply Disconnect_keeps, RecordMalformed_keeps..].
  pose proof (DeliverMessage_keeps sid m s1 (set_raw_decoder d c) Ho1 (lookup_insert_eq _ _ _) D) as Ho2.
  destruct (DeliverMessage config os clock sid m s1) as [ok s2].
  split_if_in E; [by simplify_eq|by eapply IH].
Qed.

Lemma ProcessRaw_keeps sid bytes s s' :
  P s -> ProcessRaw config os clock sid bytes s = Some s' -> P s'.
Proof.
  intros Ho. unfold ProcessRaw. destruct (heap s !! sid) as [c|] eqn:H; [|by intros [= <-]].
  destruct (Framing.Append bytes (raw_decoder c)) as [ok d]. set (s1 := put sid _ s).
  assert (Ho1 : P s1) by (pstep).
  split_if; [intros [= <-]; by apply Disconnect_keeps|].
  pose proof (UpdateInboundAccounting_keeps sid (buffered_raw sid s1) s1 Ho1) as Ho2.
  destruct (raw_loop _ _ _ _ _ _) as [[ended s3]|] eqn:E; [|done].
  pose proof (raw_loop_keeps _ _ _ _ _ Ho2 E) as Ho3. cbn [mbind option_bind].
  split_if; intros [= <-]; [done|by apply UpdateInboundAccounting_keeps].
Qed.

Lemma ws_loop_keeps fuel sid s ended s' :
  P s -> ws_loop config os clock fuel sid s = Some (ended, s') -> P s'.
Proof.
  revert s. induction fuel as [|fuel IH]; intros s Ho E; [done|]. simpl in E.
  destruct (heap s !! sid) as [c|] eqn:H; [|by simplify_eq].
  destruct (disconnect_started c) eqn:D; simpl in E; [by simplify_eq|].
  split_if_in E; [by simplify_eq|].
  destruct (Next (websocket_decoder c)) as [[[[st ev] e] d]|]; [|done]. cbn [mbind option_bind] in E.
  set (s1 := put sid _ s) in E. assert (Ho1 : P s1) by (pstep).
  destruct st; [by simplify_eq| |simplify_eq; by apply Close_keeps, RecordMalformed_keeps
    |simplify_eq; by apply Close_keeps..].
  destruct (ev_type ev).
  - pose proof (DeliverMessage_keeps sid (ev_payload ev) s1 (set_websocket_decoder d c) Ho1
      (lookup_insert_eq _ _ _) D) as Ho2.
    destruct (DeliverMessage config os clock sid (ev_payload ev) s1) as [ok s2].
    split_if_in E; [by simplify_eq|by eapply IH].
  - eapply IH; [|exact E]. by apply SendControl_keeps.
  - eapply IH; [|exact E]. apply P_modify; [|done..]. hframe.
  - simplify_eq. by apply SendControl_keeps.
Qed.

Lemma ProcessWebSocket_keeps sid bytes s s' :
  P s -> ProcessWebSocket config os clock sid bytes s = Some s' -> P s'.
Proof.
  intros Ho. unfold ProcessWebSocket. destruct (heap s !! sid) as [c|] eqn:H; [|by intros [= <-]].
  split_if; [by intros [= <-]|].
  destruct (Append bytes (websocket_decoder c)) as [ok d]. set (s1 := put sid _ s).
  assert (Ho1 : P s1) by (pstep).
  split_if; [intros [= <-]; by apply Close_keeps|].
  pose proof (UpdateInboundAccounting_keeps sid (buffered_ws sid s1) s1 Ho1) as Ho2.
  destruct (ws_loop _ _ _ _ _ _) as [[ended s3]|] eqn:E; [|done].
  pose proof (ws_loop_keeps _ _ _ _ _ Ho2 E) as Ho3. cbn [mbind option_bind].
  split_if; intros [= <-]; [done|by apply UpdateInboundAccounting_keeps].
Qed.

Lemma open_keeps sid t s :
  P s -> P (UpdateInboundAccounting config sid 0
    (modify sid (set_detection_buffer [])
      (modify sid (fun c => set_state Open (set_transport t c)) s))).
Proof.
  intros Ho. apply UpdateInboundAccounting_keeps, P_modify; [by apply P_modify|done..].
Qed.

Lemma ProcessDetection_keeps sid bytes s s' :
  P s -> ProcessDetection config os clock sid bytes s = Some s' -> P s'.
Proof.
  intros Ho. unfold ProcessDetection. destruct (heap s !! sid) as [c|] eqn:H; [|by intros [= <-]].
  split_if; [intros [= <-]; by apply Disconnect_keeps|]. set (buffer := _ ++ bytes).
  set (s1 := put sid _ s). assert (Ho1 : P s1) by (pstep).
  pose proof (UpdateInboundAccounting_keeps sid (size_of buffer) s1 Ho1) as Ho2.
  set (s2 := UpdateInboundAccounting _ _ _ s1) in *.
  split_if; [by apply ProcessRaw_keeps, open_keeps|]. split_if; [by intros [= <-]|].
  destruct (ParseHandshake _ _ _) as [r|]; [|done]. cbn [mbind option_bind].
  destruct (status r); [by intros [= <-]| |].
  - pose proof (open_keeps sid WebSocket _ (SendRaw_keeps sid (response r) false s2 Ho2)) as Ho4.
    split_if; [by apply ProcessWebSocket_keeps|by intros [= <-]].
  - intros [= <-]. by apply SendRaw_keeps.
Qed.

Lemma HandleRead_keeps i ok bytes s s' :
  P s -> HandleRead config os clock i ok bytes s = Some s' -> P s'.
Proof.
  intros Ho. unfold HandleRead. destruct (reads s !! i) as [sid|]; [|by intros [= <-]].
  set (s0 := set_reads _ s). assert (Ho0 : P s0) by (hframe).
  assert (G : forall x, P x -> P (CompleteOperation (Disconnect config sid x))).
  { intros x Hx. eapply (cl_frame P CP); [by apply (Disconnect_keeps sid x)|done..]. }
  split_if; [intros [= <-]; by apply G|]. unfold MonotonicMilliseconds.
  set (s1 := modify sid _ _).
  assert (Ho1 : P s1) by (apply P_modify; [hframe|done..]).
  destruct (ProcessIncoming _ _ _ sid bytes s1) as [s2|] eqn:E; [|done]. cbn [mbind option_bind].
  assert (Ho2 : P s2).
  { unfold ProcessIncoming in E. destruct (heap s1 !! sid) as [c|]; [|by simplify_eq].
    destruct (transport c); [by eapply ProcessDetection_keeps|by eapply ProcessRaw_keeps|
      by eapply ProcessWebSocket_keeps]. }
  split_if; [intros [= <-]; by apply G|].
  destruct (PostReadOperation_grows sid s2) as (posted & t & -> & Gt). simpl in Gt.
  assert (Ho3 : P (set_ticks t s2)) by (hframe).
  destruct posted; intros [= <-]; [hframe|by apply G].
Qed.

(** ** Accepting, timing out, starting and stopping *)

Lemma AcceptSession_keeps s :
  heap s !! next_session_id s = None -> P s -> P (AcceptSession config os clock s).
Proof.
  intros Hn Ho. unfold AcceptSession, MonotonicMilliseconds. cbv zeta.
  match goal with |- context [PostRead os ?k ?x] =>
    change x with (admitted_session config (clock (ticks s)) s); change k with (next_session_id s) end.
  set (s1 := admitted_session _ _ s).
  assert (Ho1 : P s1) by (by apply (cl_accept P CP s); [..|simpl; lia]).
  destruct (PostRead_grows (next_session_id s) s1) as (ok & t & o & -> & Gt). simpl in Gt.
  destruct ok; simpl; [hframe|]. apply Disconnect_keeps. hframe.
Qed.

Lemma HandleAccept_keeps ok seen s :
  heap s !! next_session_id s = None -> P s -> P (HandleAccept config os clock ok seen s).
Proof.
  intros Hn Ho. unfold HandleAccept, os_call. set (s0 := set_accepts _ s).
  assert (Ho0 : P s0) by hframe.
  match goal with |- P (if running ?x then _ else _) => set (s1 := x) end.
  assert (Ho1 : P s1).
  { unfold s1. split_if; [|done]. split_if; [hframe|].
    assert (A : forall t, (ticks s <= t)%nat -> P (AcceptSession config os clock (set_ticks t s0)))
      by (intros; apply AcceptSession_keeps; [done|hframe]).
    destruct (os (ticks s0)); cbn [fst snd]; [|hframe]. split_if; [apply A; simpl; lia|hframe]. }
  clearbody s1. split_if; [|hframe].
  destruct (os (ticks s1)); cbn [fst snd]; [|hframe]. split_if; hframe.
Qed.

Lemma fold_keeps {A} (f : Server -> A -> Server) l s :
  (forall s a, P s -> P (f s a)) -> P s -> P (foldl f s l).
Proof. intros Hf. revert s. induction l as [|a l IH]; intros s Ho; [done|]. apply IH. by apply Hf. Qed.

Lemma TimerCheck_keeps now s h : P s -> P (TimerCheck config os clock now s h).
Proof.
  intros Ho. unfold TimerCheck. destruct (heap s !! id h) as [c|] eqn:H; [|done].
  repeat (split_if; [try done; by apply Disconnect_keeps|]).
  split_if; [split_if; [by apply Disconnect_keeps|done]|]. split_if; [|done].
  apply SendControl_keeps. pstep.
Qed.

Lemma TimerTick_keeps s : P s -> P (TimerTick config os clock s).
Proof.
  intros Ho. unfold TimerTick. split_if; [done|]. unfold MonotonicMilliseconds.
  apply fold_keeps; [intros; by apply TimerCheck_keeps|hframe].
Qed.

Lemma StopSessions_keeps s : P s -> P (StopSessions config s).
Proof.
  intros Ho. unfold StopSessions. split_if; [done|].
  apply fold_keeps; [intros; by apply Disconnect_keeps|hframe].
Qed.

Lemma post_accepts_keeps n posted s : P s -> P (post_accepts os n posted s).2.
Proof.
  revert posted s. induction n as [|n IH]; intros posted s Ho; [done|]. simpl.
  assert (Ho1 : P (PostNewAccept os s).2).
  { unfold PostNewAccept, os_call. repeat (split_if; [hframe|]). hframe. }
  destruct (PostNewAccept os s) as [ok s1]. by apply IH.
Qed.

Lemma Start_keeps s : P s -> P (Start config os s).2.
Proof.
  intros Ho. unfold Start. split_if; [done|].
  assert (Ho1 : P (set_running true s)) by hframe.
  pose proof (post_accepts_keeps (Z.to_nat (accept_depth config)) 0 _ Ho1) as Ho2.
  destruct (post_accepts _ _ _ _) as [posted s1]. split_if; [by apply StopSessions_keeps|done].
Qed.

Lemma step_keeps (Hc : config_ok config) s s' :
  good config s -> P s -> server_step config os clock s s' -> P s'.
Proof.
  intros [I _ _] Ho H. destruct H as [| |ok seen Ha Hi|i ok bytes s' E|i ok n Hn| |h p|h code r].
  - by apply Start_keeps.
  - by apply StopSessions_keeps.
  - apply HandleAccept_keeps; [|done]. apply (inv_fresh _ _ _ I). lia.
  - by eapply HandleRead_keeps.
  - by apply HandleWrite_keeps.
  - by apply TimerTick_keeps.
  - by apply Send_keeps.
  - by apply Close_keeps.
Qed.

Lemma reachable_keeps (Hc : config_ok config) a0 s :
  P (initial a0) -> reachable config os clock a0 s -> P s.
Proof.
  intros H0 H. assert (G : forall x y : Server, rtc (server_step config os clock) x y ->
    good config x -> P x -> P y).
  { induction 1 as [|x y z Hs _ IH]; [done|]. intros Gx Hx.
    apply IH; [by eapply step_good|by eapply step_keeps]. }
  eapply G; [exact H|by apply initial_good|done].
Qed.
End property.
End induction.
