(* ===== verification/ServerApplication.v ===== *)
(** * The server and its application

    What the application keeps about a session ends with the session: an
    application that drops a handle in its disconnect handler ([Tidy]) never
    keeps anything about a handle that is not connected, whatever the order of
    the events.  The protocol router is such an application. *)

From S2P Require Import Prelude SessionHandle OutboundQueue SendCursor Framing RoomRegistry.
From S2P Require Import WebSocketDecoder Handshake SessionRegistry ServerTypes Router Server.
From S2P Require Import ServerInbound ServerInvariant ServerReceive ServerSteps ServerStream ServerProperties.
From S2P Require Import ServerInduction.

(** What the server may rely on: handlers keep their own invariant, a handler
    called for [h] adds data about [h] only, disconnecting [h] removes it. *)
Class Tidy (St : Type) `{Application St} := {
  app_ok : St -> Prop;
  present : SessionHandle -> St -> Prop;
  tidy_message callback now h m st : message_handler = Some callback -> app_ok st ->
    app_ok (callback now h m st).2 /\
    forall k, present k (callback now h m st).2 -> present k st \/ k = h;
  tidy_connect h st : app_ok st ->
    app_ok (connect_handler h st) /\
    forall k, present k (connect_handler h st) -> present k st \/ k = h;
  tidy_disconnect h st : app_ok st ->
    app_ok (disconnect_handler h st) /\
    forall k, present k (disconnect_handler h st) -> present k st /\ k <> h;
}.

Section application.
Context {St T : Type} `{App : Application St} `{Tab : SessionTable SessionHandle T (fun h => h)}.
Context `{!Tidy St} (config : ServerConfig) (os : nat -> bool) (clock : nat -> Z).
#[local] Abbreviation Server := (Server St T).

Definition live (k : SessionHandle) (h : gmap Z ClientSession) : Prop :=
  exists c, h !! id k = Some c /\ handle c = k /\ disconnect_started c = false.

Record hosted (s : Server) : Prop := {
  ho_ids : forall sid c, heap s !! sid = Some c -> id (handle c) = sid;
  ho_ok : app_ok (app s);
  ho_present : forall k, present k (app s) -> live k (heap s);
}.

(** A handler that adds data about a live session at most. *)
Lemma hosted_handler s s' sid c c' :
  hosted s -> heap s !! sid = Some c -> disconnect_started c = false ->
  heap s' = <[sid := c']> (heap s) -> handle c' = handle c -> disconnect_started c' = false ->
  app_ok (app s') -> (forall k, present k (app s') -> present k (app s) \/ k = handle c) -> hosted s'.
Proof.
  intros [I O P] H D E Eh Ed O' P'. pose proof (I sid c H) as Hid. constructor; [rewrite E|exact O'|].
  - intros k y. rewrite lookup_insert. case_decide; [intros [= <-]; congruence|apply I].
  - intros k Hk. unfold live. rewrite E. destruct (decide (id k = sid)) as [Ek|Ek].
    + exists c'. rewrite Ek, lookup_insert_eq. split; [done|]. split; [|done]. rewrite Eh.
      destruct (P' k Hk) as [(y & Hy & <- & _)%P| ->]; [|done]. congruence.
    + destruct (P' k Hk) as [(y & Hy & Ey)%P| ->]; [|congruence]. exists y. by rewrite lookup_insert_ne.
Qed.

Lemma hosted_closed : closed config clock hosted.
Proof.
  constructor.
  - intros s s' [I O P] E A _. constructor; rewrite ?E, ?A; done.
  - intros s s' sid c c' [I O P] H E [Hh Hd _ _] A _. constructor; rewrite ?E, ?A; [|done|].
    + intros k y. rewrite lookup_insert. case_decide; [intros [= <-]|apply I].
      subst k. rewrite Hh. by apply I.
    + intros k (y & Hy & Ek & Dy)%P. unfold live. rewrite lookup_insert.
      case_decide as D; [|by exists y]. exists c'. rewrite <-D in Hy. simplify_eq. by rewrite Hh, Hd.
  - intros s s' sid c c' [I O P] H E [Hh Hd _ _] A _.
    destruct (tidy_disconnect (handle c) (app s) O) as [O' P']. constructor; rewrite ?E, ?A; [|done|].
    + intros k y. rewrite lookup_insert. case_decide; [intros [= <-]|apply I].
      subst k. rewrite Hh. by apply I.
    + intros k Hk. destruct (P' k Hk) as [Hp Hne]. destruct (P k Hp) as (y & Hy & Ek & Dy).
      exists y. rewrite lookup_insert_ne; [done|]. intros D. rewrite <-D in Hy. congruence.
  - intros s s' h [I O P] Hn E A _. destruct (tidy_connect h (app s) O) as [O' P'].
    constructor; rewrite ?E, ?A; [|exact O'|].
    + intros k y. rewrite lookup_insert. case_decide; [by intros [= <-]|apply I].
    + unfold live. intros k [Hk| ->]%P'.
      * destruct (P k Hk) as (y & Hy & F). exists y. rewrite lookup_insert_ne; [done|]. congruence.
      * rewrite lookup_insert_eq. by eexists.
  - intros s s' sid c [I O P] H E A _. destruct (rate_step_neutral (clock (ticks s)) c) as [N _].
    constructor; rewrite ?E, ?A; [|done|].
    + intros k y. rewrite lookup_insert. case_decide; [intros [= <-]|apply I].
      subst k. rewrite (nt_handle _ _ N). by apply I.
    + intros k (y & Hy & Ek & Dy)%P. unfold live. rewrite lookup_insert. case_decide as D; [|by exists y].
      eexists. rewrite <-D in Hy. simplify_eq. by rewrite (nt_handle _ _ N), (nt_started _ _ N).
  - intros s s' sid c m callback Ho H D _ Cb E A _. destruct (rate_step_neutral (clock (ticks s)) c) as [N _].
    destruct (tidy_message callback (clock (S (ticks s))) (handle c) m (app s) Cb (ho_ok _ Ho)) as [O' P'].
    apply (hosted_handler s s' sid c _ Ho H D E); rewrite ?A; [apply N|by rewrite (nt_started _ _ N)|done..].
Qed.

Lemma reachable_hosted (Hc : config_ok config) a0 s :
  app_ok a0 -> (forall k, ~ present k a0) -> reachable config os clock a0 s -> hosted s.
Proof.
  intros O N. apply (reachable_keeps config os clock hosted hosted_closed Hc).
  constructor; simpl; [done|exact O|]. intros k Hk. by destruct (N k).
Qed.

(** What the application keeps is about connected sessions. *)
Lemma present_connected (Hc : config_ok config) a0 s k :
  app_ok a0 -> (forall k, ~ present k a0) -> reachable config os clock a0 s ->
  present k (app s) -> k ∈ table_snapshot (sessions s) /\ connected (id k) s = true.
Proof.
  intros O N H Hk. pose proof (reachable_hosted Hc a0 s O N H) as Ho.
  destruct (reachable_good config os clock Hc a0 s H) as [I _ _].
  destruct (ho_present _ Ho k Hk) as (c & Hh & E & D). split.
  - apply (snapshot_spec config s I). by exists c.
  - unfold connected. by rewrite Hh, D.
Qed.
End application.

(** ** The router behind the server *)

Section router.
Context (verify : list byte -> bool) (get : list byte -> NetworkMessage).
Context (finish : NetworkMessage -> list byte).
Context (authenticator : option (list byte -> option (list byte))).
Context (authorizer : option (list byte -> list byte -> bool -> bool)).

#[local] Abbreviation after := (after verify get finish authenticator authorizer).
#[local] Abbreviation Handle := (Handle verify get finish authenticator authorizer).
#[local] Instance served_router : Application ProtocolRouter :=
  router_application verify get finish authenticator authorizer.

(** The router was made by some sequence of calls of its handlers. *)
Definition served (r : ProtocolRouter) : Prop := exists calls, r = after calls.

Lemma after_snoc calls c :
  after (calls ++ [c]) = run_call verify get finish authenticator authorizer (after calls) c.
Proof. unfold Router.after. by rewrite foldl_app. Qed.

Lemma Handle_principals now h m calls k :
  is_Some (Principal k (Handle now h m (after calls)).2) ->
  is_Some (Principal k (after calls)) \/ k = h.
Proof.
  intros Hk. destruct (decide (k = h)) as [->|Hne]; [by right|]. left. revert Hk.
  pose proof (after_wf verify get finish authenticator authorizer calls) as W.
  pose proof (Handle_effect verify get finish authenticator authorizer now h m (after calls)) as E.
  destruct (Handle now h m (after calls)) as [[d out] r'].
  destruct E as [|r1 request p out r' C _ R|]; [done| |done]. unfold reply in R. simplify_eq.
  destruct (change_others verify get finish _ _ h _ r1 k (rw_rooms _ _ W) C Hne) as [Q _].
  unfold Principal in *. simpl. by rewrite Q.
Qed.

#[local] Instance tidy_router : Tidy ProtocolRouter.
Proof.
  refine {| app_ok := served; present := fun k r => is_Some (Principal k r) |}.
  - intros callback now h m _ Cb [calls ->]. injection Cb as <-. split; [|apply Handle_principals].
    exists (calls ++ [CallHandle now h m]). by rewrite after_snoc.
  - intros h st O. split; [done|]. intros k Hk. by left.
  - intros h _ [calls ->]. split; [exists (calls ++ [CallDisconnect h]); by rewrite after_snoc|].
    intros k. unfold Principal. simpl. rewrite lookup_delete. case_decide; [intros [? ?]; done|].
    intros Hk. split; [done|congruence].
Defined.

Section live.
Context {T : Type} `{Tab : SessionTable SessionHandle T (fun h => h)}.
Context (config : ServerConfig) (os : nat -> bool) (clock : nat -> Z) (Hc : config_ok config).
Context (s : Server ProtocolRouter T).
Context (Hs : reachable config os clock Router.construct s).

(** Principals and subscriptions belong to connected sessions. *)
Lemma rooms_connected s1 :
  reachable (T := T) config os clock Router.construct s1 ->
  served (app s1) /\ forall k,
    is_Some (Principal k (app s1)) \/ (exists room, subscribed (rooms_ (app s1)) k room) ->
    k ∈ table_snapshot (sessions s1) /\ connected (id k) s1 = true.
Proof.
  assert (O0 : app_ok Router.construct) by (by exists []).
  assert (N : forall k, ~ present k Router.construct).
  { intros k. simpl. unfold Principal. simpl. rewrite lookup_empty. by intros [? ?]. }
  intros H1. assert (O : served (app s1)).
  { apply (ho_ok _ (reachable_hosted config os clock Hc _ s1 O0 N H1)). }
  split; [exact O|]. intros k Hk.
  apply (present_connected config os clock Hc _ s1 k O0 N H1).
  destruct Hk as [Hk|[room Hk]]; [exact Hk|]. destruct O as [calls O]. rewrite O in *.
  eapply rw_authenticated; [apply after_wf|exact Hk].
Qed.

(** A subscriber is a connected session. *)
Lemma subscriber_connected room k :
  k ∈ RoomRegistry.Snapshot room (rooms_ (app s)) ->
  k ∈ table_snapshot (sessions s) /\
  exists c, heap s !! id k = Some c /\ handle c = k /\ disconnect_started c = false.
Proof.
  intros Hk. destruct (rooms_connected s Hs) as [[calls O] P].
  assert (M : k ∈ table_snapshot (sessions s)).
  { apply P. right. exists room. rewrite O in Hk |- *.
    eapply Snapshot_members; [eapply rw_rooms, after_wf|exact Hk]. }
  split; [done|]. destruct (reachable_good config os clock Hc _ s Hs) as [I _ _].
  by apply (snapshot_spec config s I).
Qed.

(** C16. Identity and subscriptions end with the connection: in every reachable
    state of a server with the router behind it, the router was made by calls of
    its handlers alone (so what holds after any calls holds here), a session with
    a principal or a subscription is connected and in the registry, whatever is
    published goes to registered sessions only, and [Stop] leaves no principal
    and no subscription. *)
Theorem server_rooms_live :
  (exists calls, app s = after calls) /\
  (forall k, is_Some (Principal k (app s)) \/ (exists room, subscribed (rooms_ (app s)) k room) ->
     k ∈ table_snapshot (sessions s) /\ connected (id k) s = true) /\
  (forall room k, k ∈ RoomRegistry.Snapshot room (rooms_ (app s)) -> k ∈ table_snapshot (sessions s)) /\
  (running s = true -> forall k, Principal k (app (StopSessions config s)) = None /\
     forall room, ~ subscribed (rooms_ (app (StopSessions config s))) k room).
Proof.
  pose proof rooms_connected as G. destruct (G s Hs) as [O P].
  split_and!; [exact O|exact P|by apply subscriber_connected|].
  - intros R k.
    assert (H1 : reachable config os clock Router.construct (StopSessions config s))
      by (eapply rtc_r; [exact Hs|apply step_stop]).
    destruct (G _ H1) as [_ P1].
    assert (D : ~ connected (id k) (StopSessions config s) = true).
    { pose proof (reachable_good config os clock Hc _ s Hs) as Gs.
      destruct (StopSessions_spec config Hc s Gs) as [_ D]. specialize (D R). unfold connected.
      destruct (heap _ !! id k) as [c|] eqn:E; [|done]. by rewrite (D _ c E). }
    split.
    + apply eq_None_not_Some. intros Hk. apply D, P1. by left.
    + intros room Hk. apply D, P1. right. by exists room.
Qed.
End live.
End router.

(** ** Witness: one client authenticates and joins a room *)

Definition joining_get (m : list byte) : NetworkMessage :=
  mkMessage 1 7 0 0 (if bool_decide (m = bstr "A") then P_Authenticate (Some (Some (bstr "token")))
                     else P_JoinRoom (Some (Some (bstr "court:1")))).

#[local] Instance joining_router : Application ProtocolRouter :=
  served_router (fun _ => true) joining_get (fun _ => bstr "reply") (Some (fun t => Some t)) None.

Definition joined_accepted : Server ProtocolRouter (list (gmap Z SessionHandle)) :=
  HandleAccept sample_config sample_os sample_clock true 0
    (Start sample_config sample_os (initial Router.construct)).2.

Definition joined : Server ProtocolRouter (list (gmap Z SessionHandle)) :=
  default joined_accepted (HandleRead sample_config sample_os sample_clock 0 true
    (frame (bstr "A") ++ frame (bstr "J")) joined_accepted).

Lemma joined_reachable : reachable sample_config sample_os sample_clock Router.construct joined.
Proof.
  apply (rtc_l _ _ (Start sample_config sample_os (initial Router.construct)).2); [apply step_start|].
  apply (rtc_l _ _ joined_accepted).
  - unfold joined_accepted. apply step_accept; vm_compute; [lia|reflexivity].
  - apply rtc_once, (step_read _ _ _ _ 0 true (frame (bstr "A") ++ frame (bstr "J"))).
    vm_compute. reflexivity.
Qed.

Lemma server_rooms_live_witness :
  Principal (mkHandle 1 1) (app joined) = Some (bstr "token") /\
  RoomRegistry.Snapshot (bstr "court:1") (rooms_ (app joined)) = [mkHandle 1 1] /\
  connected 1 joined = true.
Proof.
  split_and!; [vm_compute; reflexivity|vm_compute; reflexivity|].
  destruct (server_rooms_live (fun _ => true) joining_get (fun _ => bstr "reply")
    (Some (fun t => Some t)) None sample_config sample_os sample_clock (limited_config_ok 4096)
    joined joined_reachable) as (_ & P & _).
  apply (P (mkHandle 1 1)). left. exists (bstr "token"). vm_compute. reflexivity.
Defined.
