(* ===== verification/Publishing.v ===== *)
(** * Publishing, from the publisher's bytes to the subscribers' streams

    [DeliverMessage], the router's fan-out and [Send] together: which bytes a
    published message adds to the outbound stream of every connection. *)

From S2P Require Import Prelude SessionHandle OutboundQueue SendCursor Framing RoomRegistry.
From S2P Require Import WebSocketDecoder Handshake SessionRegistry ServerTypes Router Server.
From S2P Require Import ServerInbound ServerInvariant ServerReceive ServerSteps ServerStream.
From S2P Require Import ServerProperties ServerApplication.

Section sending.
Context {St T : Type} `{App : Application St} `{Tab : SessionTable SessionHandle T (fun h => h)}.
Context (config : ServerConfig) (os : nat -> bool) (clock : nat -> Z) (Hc : config_ok config).
#[local] Abbreviation Server := (Server St T).

(** ** What one message costs *)

(** The item [Send] queues for a connection. *)
Definition frame_item (c : ClientSession) (payload : list byte) : option OutboundItem :=
  match transport c with
  | RawTcp => (fun header => mkItem header payload false) <$> EncodeLength (size_of payload)
  | WebSocket => Some (mkItem (WebSocketHeader Binary (size_of payload)) payload false)
  | Detecting => None
  end.

Definition frame_on (c : ClientSession) (payload : list byte) : list byte :=
  from_option item_wire [] (frame_item c payload).

(** The bytes of a message and of the longest header of a frame. *)
Definition cost (payload : list byte) : Z := size_of payload + 10.

Lemma size_WebSocketHeader10 opcode n : size_of (WebSocketHeader opcode n) <= 10.
Proof.
  unfold WebSocketHeader. destruct (BuildFrameHeader opcode n) as [compact k] eqn:E.
  pose proof (size_ztake_le k compact). revert E. unfold BuildFrameHeader.
  repeat split_if; intros; simplify_eq; unfold size_of in *; simpl in *; lia.
Qed.

Lemma frame_item_ok c payload item :
  size_of payload <= max_message_bytes config -> frame_item c payload = Some item ->
  item_wf item /\ item_bytes item <= cost payload.
Proof.
  intros L E. pose proof (co_message _ Hc). pose proof (size_nonneg payload). unfold frame_item in E.
  assert (G : item_payload item = payload /\ size_of (item_header item) <= 10).
  { destruct (transport c); [done| |].
    - destruct (EncodeLength (size_of payload)) as [header|] eqn:Eh; [|done]. simpl in E. simplify_eq.
      split; [done|]. unfold EncodeLength in Eh. split_if_in Eh; [done|]. by injection Eh as <-.
    - simplify_eq. simpl. split; [done|apply size_WebSocketHeader10]. }
  destruct G as [Gp Gh]. assert (W : item_wf item) by (constructor; [lia|rewrite Gp; unfold size_max; lia]).
  split; [done|]. destruct (item_bytes_wf item W) as [-> _]. unfold cost. rewrite Gp. lia.
Qed.

(** ** Queueing adds at most the item *)

(** Only session [sid] changed: so did the total. *)
Lemma others_total sid (s s' : Server) c c' :
  Inv config None s -> Inv config None s' -> others sid s s' -> heap s !! sid = Some c -> heap s' !! sid = Some c' ->
  queued_total (metrics s') = queued_total (metrics s) - queued_bytes c + queued_bytes c'.
Proof.
  intros I I' O H H'. rewrite (inv_queued _ _ _ I), (inv_queued _ _ _ I').
  replace (heap s') with (<[sid := c']> (heap s)); [by apply map_sum_update|].
  apply map_eq. intros k. rewrite lookup_insert. case_decide as E; [by subst|]. symmetry. apply O. congruence.
Qed.

(** A connection that ends keeps the bytes of its outstanding write only. *)
Lemma StartNextWrite_sums sid s c c' :
  Forall item_wf (send_queue c) -> heap s !! sid = Some c -> ops_of sid (writes s) = [] ->
  Inv config None (StartNextWrite config os sid s) ->
  heap (StartNextWrite config os sid s) !! sid = Some c' ->
  queue_sum (send_queue c') + ops_sum (ops_of sid (writes (StartNextWrite config os sid s))) <=
  queue_sum (send_queue c) + ops_sum (ops_of sid (writes s)).
Proof.
  intros F H O I' H'. pose proof (queue_sum_nonneg _ F) as Q0.
  assert (Gone : forall x, StartNextWrite config os sid s = Disconnect config sid x -> writes x = writes s ->
    queue_sum (send_queue c') + ops_sum (ops_of sid (writes (StartNextWrite config os sid s))) <=
    queue_sum (send_queue c) + ops_sum (ops_of sid (writes s))).
  { intros x E W. rewrite E in *. pose proof (Disconnect_started config sid x c' H') as D.
    destruct (so_down _ _ _ _ _ (inv_sessions _ _ _ I' sid c' H') D) as [_ ->].
    destruct (Disconnect_writes config sid x) as [-> _]. rewrite W. change (queue_sum []) with 0. lia. }
  unfold StartNextWrite in *. rewrite H in *. destruct (send_queue c) as [|item rest] eqn:Q.
  { simpl in *. rewrite lookup_insert_eq in H'. simplify_eq. simpl. rewrite Q. done. }
  apply Forall_cons in F as [Hi F].
  destruct (construct_item item Hi) as (cursor & E & W & TS). rewrite E in *. clear E. unfold os_call in *.
  set (s1 := set_ticks _ _) in *. destruct (os _); [|by eapply Gone].
  set (op := mkWrite _ _ _) in *. destruct (PostWrite_ticks os op (TrackOperation s1)) as (posted & t & E).
  rewrite E in *. clear E. destruct posted; [|by eapply Gone]. simpl in *. rewrite lookup_insert_eq in H'. simplify_eq.
  simpl. rewrite ops_of_app. change (ops_of sid [op]) with (ops_of (op_session op) [op]). rewrite ops_of_single_eq.
  rewrite O. simpl. rewrite TS. lia.
Qed.

Lemma Enqueue_total sid item s :
  Inv config None s -> item_wf item ->
  queued_total (metrics (Enqueue config os sid item s).2) <= queued_total (metrics s) + item_bytes item.
Proof.
  intros I Hi. pose proof (size_nonneg (item_header item)) as N1. pose proof (size_nonneg (item_payload item)) as N2.
  destruct (item_bytes_wf item Hi) as [Eb B].
  destruct (heap s !! sid) as [c|] eqn:H; [|unfold Enqueue; rewrite H; simpl; lia].
  pose proof (Enqueue_Inv config os Hc s sid item I Hi) as I'.
  pose proof (Enqueue_others config os sid item s) as O.
  destruct (ev_sessions _ _ (Enqueue_evolves config os sid item s) sid c H) as (c' & H' & _).
  rewrite (Enqueue_cases config os Hc sid item s c I Hi H) in *. cbv zeta in *.
  destruct (negb _ && _ && _) eqn:R; [|destruct (disconnect_started c); simpl; lia].
  prop_of R. pose proof (total_nonneg' config _ _ I). pose proof (co_global_queue _ Hc).
  pose proof (session_queued_nonneg config _ _ _ _ I H). pose proof (co_session_queue _ Hc).
  unfold is_u64 in *. cbn [snd] in *. destruct (write_active c) eqn:A.
  { simpl. rewrite uadd_small; lia. }
  rewrite (others_total sid s _ c c' I I' O H H').
  pose proof (inv_sessions _ _ _ I sid c H) as [_ S2 _ S4 _ _ _ S8 _ _]. destruct (S8 A) as [Q Ops].
  set (s1 := enqueued sid item c s) in *.
  set (c1 := set_write_active true (set_send_queue (send_queue c ++ [item])
    (set_queued_bytes (queued_bytes c + item_bytes item)%u64 c))).
  assert (Hs1 : heap s1 !! sid = Some c1) by apply lookup_insert_eq.
  assert (F1 : Forall item_wf (send_queue c1)) by (simpl; rewrite Q; by apply Forall_singleton).
  pose proof (StartNextWrite_sums sid s1 c1 c' F1 Hs1 Ops I' H') as L.
  pose proof (so_queued _ _ _ _ _ (inv_sessions _ _ _ I' sid c' H')) as E'.
  simpl in L, S2, E'. rewrite Q, Ops in *. simpl in *. lia.
Qed.

(** ** [Send] *)

(** [Send] for the handle of a connected session. *)
Lemma Send_eq h payload s c :
  Inv config None s -> heap s !! id h = Some c -> handle c = h -> disconnect_started c = false ->
  0 < size_of payload <= max_message_bytes config ->
  Send config os h (Some payload) s =
    match (if bool_decide (state c = Open) then frame_item c payload else None) with
    | Some item => Enqueue config os (id h) item s
    | None => (false, s)
    end.
Proof.
  intros I H Eh D L. unfold Send.
  assert (F : table_find h (sessions s) = Some h) by (apply (find_spec config s h h I); eauto).
  rewrite F, H, (proj2 (Z.eqb_neq _ _)), (proj2 (Z.ltb_ge _ _)) by lia. cbn [orb].
  destruct (bool_decide (state c = Open)); cbn [negb]; [|done]. unfold frame_item.
  destruct (transport c); [done| |done]. by destruct (EncodeLength _).
Qed.

Lemma Send_missing h payload s :
  Inv config None s ->
  (forall c, heap s !! id h = Some c -> handle c = h -> disconnect_started c = true) ->
  Send config os h payload s = (false, s).
Proof.
  intros I G. unfold Send. destruct (table_find h (sessions s)) as [k|] eqn:F; [|done].
  apply (find_spec config s h k I) in F as (-> & c & H & E & D). rewrite (G c H E) in D. done.
Qed.

(** The handle of a connection, or of none. *)
Lemma Send_dec h (s : Server) :
  (exists c, heap s !! id h = Some c /\ handle c = h /\ disconnect_started c = false) \/
  (forall c, heap s !! id h = Some c -> handle c = h -> disconnect_started c = true).
Proof.
  destruct (heap s !! id h) as [c|] eqn:H; [|by right]. destruct (decide (handle c = h)) as [E|N].
  2: { right. by intros y [= ->]. }
  destruct (disconnect_started c) eqn:D; [right; by intros y [= <-]|left; by exists c].
Qed.

Lemma Send_total h payload s :
  Inv config None s -> 0 < size_of payload <= max_message_bytes config ->
  queued_total (metrics (Send config os h (Some payload) s).2) <= queued_total (metrics s) + cost payload.
Proof.
  intros I L. assert (C0 : 0 <= cost payload) by (unfold cost; lia).
  destruct (Send_dec h s) as [(c & H & E & D)|G]; [|rewrite Send_missing by done; simpl; lia].
  rewrite (Send_eq h payload s c I H E D L). split_if; [|simpl; lia].
  destruct (frame_item c payload) as [item|] eqn:F; [|simpl; lia].
  destruct (frame_item_ok c payload item ltac:(lia) F) as [W B].
  pose proof (Enqueue_total (id h) item s I W). lia.
Qed.

(** What a message adds to the stream of a connection. *)
Definition delivered (c : ClientSession) (payload : list byte) : list byte :=
  if bool_decide (state c = Open) then frame_on c payload else [].

Lemma Send_stream h payload s c :
  Inv config None s -> heap s !! id h = Some c -> handle c = h -> disconnect_started c = false ->
  0 < size_of payload <= max_message_bytes config ->
  let s' := (Send config os h (Some payload) s).2 in
  connected (id h) s' = true ->
  exists sent, outbound (id h) s' = outbound (id h) s ++ (if sent : bool then delivered c payload else []) /\
    (queued_bytes c + cost payload <= max_session_queued_bytes config ->
     queued_total (metrics s) + cost payload <= max_global_queued_bytes config -> sent = true).
Proof.
  intros I H E D L. cbv zeta. rewrite (Send_eq h payload s c I H E D L). unfold delivered, frame_on.
  split_if; [|intros _; exists true; split; [by rewrite app_nil_r|done]].
  destruct (frame_item c payload) as [item|] eqn:F; [|intros _; exists true; split; [by rewrite app_nil_r|done]].
  destruct (frame_item_ok c payload item ltac:(lia) F) as [W B]. cbn [from_option].
  pose proof (Enqueue_cases config os Hc (id h) item s c I W H) as En. cbv zeta in En.
  destruct (Enqueue config os (id h) item s) as [ok s'] eqn:Es. cbn [snd]. intros Cn.
  exists ok. split; [by apply (Enqueue_stream config os Hc (id h) item s ok s' I W Es)|].
  intros B1 B2. rewrite D, (proj2 (Z.leb_le _ _)), (proj2 (Z.leb_le _ _)) in En by lia. by injection En.
Qed.

(** [Send] to another handle does not touch a connection. *)
Lemma Send_others h k payload s c :
  Inv config None s -> heap s !! id k = Some c -> handle c = k -> h <> k ->
  let s' := (Send config os h (Some payload) s).2 in
  heap s' !! id k = heap s !! id k /\ ops_of (id k) (writes s') = ops_of (id k) (writes s).
Proof.
  intros I H E N. cbv zeta. destruct (decide (id h = id k)) as [Ei|Ni].
  - rewrite (Send_missing h (Some payload) s I); [done|]. rewrite Ei. intros y Hy <-. congruence.
  - unfold Send. destruct (table_find h (sessions s)) as [x|] eqn:F; [|done].
    apply (find_spec config s h x I) in F as (-> & y & Hy & _ & _). rewrite Hy. split_if; [done|].
    destruct (transport y); [done| |by apply Enqueue_others].
    destruct (EncodeLength _); [by apply Enqueue_others|done].
Qed.

(** ** The fan-out *)

Definition fan_out (recipients : list SessionHandle) (payload : list byte) (s : Server) : Server :=
  send_all config os (map (fun r => (r, payload)) recipients) s.

Lemma fan_out_others rs payload s k c :
  Inv config None s -> heap s !! id k = Some c -> handle c = k -> k ∉ rs ->
  heap (fan_out rs payload s) !! id k = Some c /\ outbound (id k) (fan_out rs payload s) = outbound (id k) s.
Proof.
  revert s. induction rs as [|r rs IH]; intros s I H E N; [done|]. apply not_elem_of_cons in N as [N1 N2].
  destruct (Send_others r k payload s c I H E ltac:(done)) as [Hh Ho]. cbv zeta in *.
  unfold fan_out in *. simpl. set (s1 := (Send _ _ _ _ _).2) in *.
  destruct (IH s1) as [-> ->]; [by apply Send_Inv|congruence|done|done|]. split; [done|].
  unfold outbound, queue_of. by rewrite Hh, Ho.
Qed.

Lemma fan_out_stream rs payload s k c :
  Inv config None s -> heap s !! id k = Some c -> handle c = k -> disconnect_started c = false ->
  0 < size_of payload <= max_message_bytes config -> NoDup rs -> k ∈ rs ->
  connected (id k) (fan_out rs payload s) = true ->
  exists sent, outbound (id k) (fan_out rs payload s) =
      outbound (id k) s ++ (if sent : bool then delivered c payload else []) /\
    (queued_bytes c + cost payload <= max_session_queued_bytes config ->
     queued_total (metrics s) + Z.of_nat (length rs) * cost payload <= max_global_queued_bytes config ->
     sent = true).
Proof.
  revert s. induction rs as [|r rs IH]; intros s I H E D L Nd Hk; [set_solver|].
  apply NoDup_cons in Nd as [Nr Nd]. unfold fan_out. simpl. set (s1 := (Send _ _ _ _ _).2).
  assert (I1 : Inv config None s1) by (by apply Send_Inv). fold (fan_out rs payload s1).
  assert (C0 : 0 <= cost payload) by (unfold cost; lia).
  destruct (decide (r = k)) as [->|Ne].
  - intros Cn. destruct (ev_sessions _ _ (Send_evolves config os k (Some payload) s) _ c H) as (c1 & H1 & K1).
    pose proof (kp_handle _ _ K1) as E1. fold s1 in H1.
    destruct (fan_out_others rs payload s1 k c1 I1 H1 ltac:(congruence) Nr) as [H2 O2]. rewrite O2.
    destruct (Send_stream k payload s c I H E D L) as (sent & Eo & Room).
    { fold s1. revert Cn. unfold connected. by rewrite H1, H2. }
    exists sent. split; [exact Eo|]. intros B1 B2. apply Room; [done|]. lia.
  - intros Cn. destruct (Send_others r k payload s c I H E Ne) as [Hh Ho]. fold s1 in Hh, Ho.
    destruct (IH s1) as (sent & Eo & Room); [done|congruence|done..|set_solver|done|].
    exists sent. split.
    + rewrite Eo. f_equal. unfold outbound, queue_of. by rewrite Hh, Ho.
    + intros B1 B2. apply Room; [done|]. pose proof (Send_total r payload s I L) as Tt. fold s1 in Tt. lia.
Qed.
End sending.

(** ** The router behind the server *)

Section publishing.
Context (verify : list byte -> bool) (get : list byte -> NetworkMessage).
Context (finish : NetworkMessage -> list byte).
Context (authenticator : option (list byte -> option (list byte))).
Context (authorizer : option (list byte -> list byte -> bool -> bool)).
#[local] Instance publishing_router : Application ProtocolRouter :=
  served_router verify get finish authenticator authorizer.
#[local] Abbreviation may_publish := (may_publish authorizer).

Context {T : Type} `{Tab : SessionTable SessionHandle T (fun h => h)}.
Context (config : ServerConfig) (os : nat -> bool) (clock : nat -> Z) (Hc : config_ok config).
Context (s : Server ProtocolRouter T).
Context (Hs : reachable config os clock Router.construct s).

Lemma rate_step_delivered now c payload :
  delivered (rate_step now c) payload = delivered c payload /\
  queued_bytes (rate_step now c) = queued_bytes c /\ disconnect_started (rate_step now c) = disconnect_started c /\
  send_queue (rate_step now c) = send_queue c /\ handle (rate_step now c) = handle c.
Proof. unfold rate_step. by split_if. Qed.

(** What is certain of a recipient, and of the others, when a message is fanned out. *)
Definition reaches (subscribers : list SessionHandle) (payload : list byte) (s s' : Server ProtocolRouter T) : Prop :=
  (forall k c, k ∈ subscribers -> heap s !! id k = Some c -> handle c = k -> disconnect_started c = false ->
     connected (id k) s' = true ->
     exists sent, outbound (id k) s' = outbound (id k) s ++ (if sent : bool then delivered c payload else []) /\
       (queued_bytes c + cost payload <= max_session_queued_bytes config ->
        queued_total (metrics s) + Z.of_nat (length subscribers) * cost payload <= max_global_queued_bytes config ->
        sent = true)) /\
  (forall k c, heap s !! id k = Some c -> handle c = k -> k ∉ subscribers -> connected (id k) s' = true ->
     outbound (id k) s' = outbound (id k) s).

Lemma deliver_publish s0 sid c0 bytes publish room :
  Inv config None s0 -> heap s0 !! sid = Some c0 ->
  rate_window_messages (rate_step (clock (ticks s0)) c0) <= max_messages_per_second config ->
  0 < size_of bytes <= max_message_bytes config ->
  verify bytes = true -> protocol_version (get bytes) = 1 -> payload (get bytes) = P_Publish (Some publish) ->
  may_publish (handle c0) (app s0) publish room ->
  exists s', DeliverMessage config os clock sid bytes s0 = (true, s') /\
    reaches (RoomRegistry.Snapshot room (rooms_ (app s0))) bytes s0 s' /\
    forall k c, heap s0 !! id k = Some c -> handle c = k -> k ∉ RoomRegistry.Snapshot room (rooms_ (app s0)) ->
      outbound (id k) s' = outbound (id k) s0.
Proof.
  intros I H Rt L V PV P M. set (rs := RoomRegistry.Snapshot _ _).
  rewrite (DeliverMessage_eq config os clock sid bytes s0 c0 H). cbv zeta.
  rewrite (proj2 (Z.ltb_ge _ _)) by done. cbn [message_handler publishing_router served_router router_application app].
  change (app (put sid _ _)) with (app s0).
  rewrite (Handle_publishes verify get finish authenticator authorizer _ (handle c0) bytes (app s0) publish room)
    by done. rewrite bool_decide_eq_true_2 by done. eexists. split; [done|]. fold rs.
  set (c1 := rate_step (clock (ticks s0)) c0) in *.
  match goal with |- context [send_all config os _ ?x] => set (s3 := x) end.
  fold (fan_out config os rs bytes s3).
  assert (H3 : heap s3 = <[sid := c1]> (heap s0)) by done.
  assert (I3 : Inv config None s3).
  { eapply (Inv_frame config None (put sid c1 s0)); [|done..]. eapply Inv_put; [exact I|exact H|].
    apply rate_step_neutral. }
  assert (G : forall k c, heap s0 !! id k = Some c -> exists c',
    heap s3 !! id k = Some c' /\ delivered c' bytes = delivered c bytes /\ queued_bytes c' = queued_bytes c /\
    disconnect_started c' = disconnect_started c /\ handle c' = handle c /\
    outbound (id k) s3 = outbound (id k) s0).
  { intros k c Hk. unfold outbound, queue_of. rewrite H3, lookup_insert. case_decide as Ek; [|by exists c].
    exists c1. rewrite <-Ek in Hk |- *. rewrite H in Hk. injection Hk as <-. rewrite H.
    destruct (rate_step_delivered (clock (ticks s0)) c0 bytes) as (? & ? & ? & Q & ?). fold c1 in Q. by rewrite Q. }
  assert (N : forall k c, heap s0 !! id k = Some c -> handle c = k -> k ∉ rs ->
    outbound (id k) (fan_out config os rs bytes s3) = outbound (id k) s0).
  { intros k c Hk E N. destruct (G k c Hk) as (c' & H' & _ & _ & _ & Eh & Eo). rewrite <-Eo.
    by apply (fan_out_others config os Hc rs bytes s3 k c' I3 H' ltac:(congruence) N). }
  split; [split|exact N].
  - intros k c Hk Hc0 E D Cn. destruct (G k c Hc0) as (c' & H' & Ed & Eq & Es & Eh & Eo).
    rewrite <-Eo, <-Ed, <-Eq.
    apply (fan_out_stream config os Hc rs bytes s3 k c' I3 H'); [congruence|congruence|done| |done|done].
    apply Snapshot_nodup.
  - intros k c Hk E Nk _. by apply (N k c).
Qed.

(** Publishing, end to end: when the message of a connection is a publish that
    the router admits, and the rate limit is kept, then every subscriber of the
    room is connected, and, unless the system fails its write, exactly the frame
    of the unchanged message for its transport is added to the end of its
    outbound stream, if it is open; it can be left out only when the queue of
    that connection or of the server has no room for it.  Nothing is added to
    the stream of any other connection. *)
Theorem publish_end_to_end sid c0 bytes publish room :
  heap s !! sid = Some c0 ->
  rate_window_messages (rate_step (clock (ticks s)) c0) <= max_messages_per_second config ->
  0 < size_of bytes <= max_message_bytes config ->
  verify bytes = true -> protocol_version (get bytes) = 1 -> payload (get bytes) = P_Publish (Some publish) ->
  may_publish (handle c0) (app s) publish room ->
  let subscribers := RoomRegistry.Snapshot room (rooms_ (app s)) in
  exists s', DeliverMessage config os clock sid bytes s = (true, s') /\
    (forall k, k ∈ subscribers -> exists c,
       heap s !! id k = Some c /\ handle c = k /\ disconnect_started c = false /\
       (connected (id k) s' = true ->
        exists sent, outbound (id k) s' = outbound (id k) s ++ (if sent : bool then delivered c bytes else []) /\
          (queued_bytes c + cost bytes <= max_session_queued_bytes config ->
           queued_total (metrics s) + Z.of_nat (length subscribers) * cost bytes <= max_global_queued_bytes config ->
           sent = true))) /\
    (forall k c, heap s !! id k = Some c -> handle c = k -> k ∉ subscribers -> outbound (id k) s' = outbound (id k) s).
Proof.
  intros H Rt L V PV P M. cbv zeta. destruct (reachable_good config os clock Hc _ s Hs) as [I _ _].
  destruct (deliver_publish s sid c0 bytes publish room I H Rt L V PV P M) as (s' & E & [R _] & N).
  exists s'. split_and!; [exact E| |exact N]. intros k Hk.
  destruct (subscriber_connected verify get finish authenticator authorizer config os clock Hc s Hs room k Hk)
    as (_ & c & Hk0 & Eh & D). exists c. split_and!; [done..|]. by apply (R k c).
Qed.
End publishing.

(** ** Witness: two clients in a room, one publishes *)

Definition alert : Publish :=
  mkPublish (Some (bstr "court:1")) (D_SystemAlert (Some (mkSystemAlert 0 0 (Some (bstr "rain"))))).

Definition sample_get (m : list byte) : NetworkMessage :=
  mkMessage 1 7 0 0
    (if bool_decide (m = bstr "A") then P_Authenticate (Some (Some (bstr "token")))
     else if bool_decide (m = bstr "J") then P_JoinRoom (Some (Some (bstr "court:1")))
     else P_Publish (Some alert)).

#[local] Instance sample_router : Application ProtocolRouter :=
  publishing_router (fun _ => true) sample_get (fun _ => bstr "reply") (Some (fun t => Some t))
    (Some (fun _ _ _ => true)).

Abbreviation sample := (Server ProtocolRouter (list (gmap Z SessionHandle))).

Definition two_accepted : sample :=
  HandleAccept sample_config sample_os sample_clock true 0
    (HandleAccept sample_config sample_os sample_clock true 0
      (Start sample_config sample_os (initial Router.construct)).2).

Definition read_ok (i : nat) (bytes : list byte) (s : sample) : sample :=
  default s (HandleRead sample_config sample_os sample_clock i true bytes s).

Definition hello : list byte := frame (bstr "A") ++ frame (bstr "J").

(** The read of the first client moves to the end when it is posted again. *)
Definition both_joined : sample := read_ok 0 hello (read_ok 0 hello two_accepted).

Definition published : sample := (DeliverMessage sample_config sample_os sample_clock 1 (bstr "P") both_joined).2.

Lemma read_reachable i bytes s :
  is_Some (HandleRead sample_config sample_os sample_clock i true bytes s) ->
  reachable sample_config sample_os sample_clock Router.construct s ->
  reachable sample_config sample_os sample_clock Router.construct (read_ok i bytes s).
Proof.
  intros [s' E] H. eapply rtc_r; [exact H|]. unfold read_ok. rewrite E. by apply (step_read _ _ _ _ i true bytes).
Qed.

Lemma both_joined_reachable : reachable sample_config sample_os sample_clock Router.construct both_joined.
Proof.
  apply read_reachable; [vm_compute; eauto|]. apply read_reachable; [vm_compute; eauto|].
  apply (rtc_l _ _ (Start sample_config sample_os (initial Router.construct)).2); [apply step_start|].
  eapply rtc_l; [|apply rtc_once]; apply (step_accept _ _ _ _ true 0); vm_compute; [lia|reflexivity|lia|reflexivity].
Qed.

Lemma subscribed_dec reg k room :
  match session_to_rooms_ reg !! k with Some rooms => bool_decide (room ∈ rooms) | None => false end = true ->
  subscribed reg k room.
Proof. destruct (session_to_rooms_ reg !! k) as [rooms|] eqn:E; [|done]. intros H. exists rooms. by apply bool_decide_eq_true in H. Qed.

Lemma alert_may_publish :
  may_publish (Some (fun _ _ _ => true)) (mkHandle 1 1) (app both_joined) alert (bstr "court:1").
Proof.
  constructor; try (vm_compute; reflexivity).
  - exists (bstr "token"). vm_compute. reflexivity.
  - apply subscribed_dec. vm_compute. reflexivity.
Qed.

Lemma publish_end_to_end_witness :
  (exists s', DeliverMessage sample_config sample_os sample_clock 1 (bstr "P") both_joined = (true, s')) /\
  exists c, heap both_joined !! 2 = Some c /\ outbound 2 published = outbound 2 both_joined ++ frame (bstr "P").
Proof.
  destruct (heap both_joined !! 1) as [c0|] eqn:H; [|vm_compute in H; discriminate].
  assert (F : match heap both_joined !! 1 with
    | Some c => bool_decide (handle c = mkHandle 1 1) &&
        (rate_window_messages (rate_step (sample_clock (ticks both_joined)) c) <=? 10)
    | None => false end = true) by (vm_compute; reflexivity).
  rewrite H in F. apply andb_true_iff in F as [Eh%bool_decide_eq_true Er%Z.leb_le].
  destruct (publish_end_to_end (fun _ => true) sample_get (fun _ => bstr "reply") (Some (fun t => Some t))
    (Some (fun _ _ _ => true)) sample_config sample_os sample_clock (limited_config_ok 4096) both_joined
    both_joined_reachable 1 c0 (bstr "P") alert (bstr "court:1")) as (s' & E & P & _);
    [exact H|exact Er|split; [reflexivity|discriminate]|reflexivity|reflexivity|reflexivity|rewrite Eh; exact alert_may_publish|].
  split; [by exists s'|].
  assert (M : mkHandle 2 2 ∈ RoomRegistry.Snapshot (bstr "court:1") (rooms_ (app both_joined))).
  { apply (bool_decide_unpack _). vm_compute. exact I. }
  destruct (P (mkHandle 2 2) M) as (c & Hc & _ & _ & Q). exists c. split; [exact Hc|].
  assert (s' = published) as -> by exact (eq_sym (f_equal snd E)).
  destruct Q as (sent & Eo & Room); [vm_compute; reflexivity|]. refine (eq_trans Eo _). f_equal.
  assert (G : match heap both_joined !! 2 with
    | Some c => (queued_bytes c + cost (bstr "P") <=? 256) &&
        bool_decide (delivered c (bstr "P") = frame (bstr "P"))
    | None => false end = true) by (vm_compute; reflexivity).
  cbn [SessionHandle.id] in Hc. rewrite Hc in G. apply andb_true_iff in G as [G1%Z.leb_le G2%bool_decide_eq_true].
  rewrite Room; [exact G2|exact G1|]. apply Z.leb_le. vm_compute. reflexivity.
Defined.
