(* ===== verification/Timer.v ===== *)
(** * A round of the timer (src/src/core/iocp_server.cpp, [TimerLoop])

    Which sessions a round ends, which it pings, and what it leaves alone; the
    other sessions of the round may use up the room of the global queue. *)

From S2P Require Import Prelude SessionHandle OutboundQueue SendCursor Framing.
From S2P Require Import WebSocketDecoder Handshake SessionRegistry ServerTypes Server.
From S2P Require Import ServerInbound ServerInvariant ServerReceive ServerSteps ServerStream.
From S2P Require Import ServerProperties Publishing.

Section timer.
Context {St T : Type} `{App : Application St} `{Tab : SessionTable SessionHandle T (fun h => h)}.
Context (config : ServerConfig) (os : nat -> bool) (clock : nat -> Z) (Hc : config_ok config).
#[local] Abbreviation Server := (Server St T).

(** ** What a session awaits *)

Record same_pong (c c' : ClientSession) : Prop := {
  sp_awaiting : awaiting_pong c' = awaiting_pong c;
  sp_last : last_pong_ms c' = last_pong_ms c;
}.

#[local] Instance same_pong_preorder : PreOrder same_pong.
Proof. split; [done|]. intros a b c [? ?] [? ?]. split; congruence. Qed.

(** The operation keeps it for every session. *)
Definition keeps_pong (s s' : Server) : Prop :=
  forall sid c c', heap s !! sid = Some c -> heap s' !! sid = Some c' -> same_pong c c'.

Lemma keeps_frame (s s' s'' : Server) : keeps_pong s s' -> heap s'' = heap s' -> keeps_pong s s''.
Proof. intros K E sid c c'. rewrite E. apply K. Qed.

Lemma keeps_refl (s : Server) : keeps_pong s s.
Proof. intros sid c c' H H'. by simplify_eq. Qed.

Lemma keeps_put (s0 s s' : Server) sid c c' :
  keeps_pong s0 s -> heap s !! sid = Some c -> heap s' = <[sid := c']> (heap s) -> same_pong c c' ->
  keeps_pong s0 s'.
Proof.
  intros K H E P k x y Hx. rewrite E, lookup_insert. case_decide as D; [intros [= <-]; subst k|by apply K].
  transitivity c; [by eapply K|done].
Qed.

Lemma keeps_modify (s0 s : Server) sid f :
  keeps_pong s0 s -> (forall c, same_pong c (f c)) -> keeps_pong s0 (modify sid f s).
Proof.
  intros K Hf k x y Hx. simpl. rewrite lookup_alter. case_decide as D; [subst k|by apply K].
  destruct (heap s !! sid) as [c|] eqn:H; [|done]. intros [= <-]. transitivity c; [by eapply K|done].
Qed.

Lemma Disconnect_pong s0 sid s : keeps_pong s0 s -> keeps_pong s0 (Disconnect config sid s).
Proof.
  intros K. unfold Disconnect. destruct (heap s !! sid) as [c|] eqn:H; [|done].
  destruct (disconnect_started c); [done|].
  match goal with |- context [drop_queue ?x ?m] =>
    assert (K1 : same_pong c (drop_queue x m).1) by (unfold drop_queue; by destruct (foldl _ _ _));
    destruct (drop_queue x m) as [c1 m1] end.
  assert (K2 : same_pong c1 (AccountInbound config 0 c1 m1).1.1)
    by (unfold AccountInbound; repeat split_if; done).
  destruct (AccountInbound config 0 c1 m1) as [[c2 m2] e].
  eapply (keeps_put s0 s); [done|exact H|done|]. by transitivity c1.
Qed.

Lemma StartNextWrite_pong s0 sid s : keeps_pong s0 s -> keeps_pong s0 (StartNextWrite config os sid s).
Proof.
  intros K. unfold StartNextWrite. destruct (heap s !! sid) as [c|] eqn:H; [|done].
  destruct (send_queue c) as [|item rest]; [by eapply keeps_put|]. unfold os_call.
  set (s1 := set_ticks _ _). assert (K1 : keeps_pong s0 s1) by (by eapply (keeps_put s0 s)).
  assert (F : keeps_pong s0 (Disconnect config sid
    (count (fun m => set_send_failures (send_failures m + 1)%u64 m)
      (count (fun m => set_queued_total (queued_total m - item_bytes item)%u64 m)
        (modify sid (fun c => set_queued_bytes (queued_bytes c - item_bytes item)%u64 c) s1))))).
  { apply Disconnect_pong. eapply (keeps_frame s0 (modify sid _ s1)); [|reflexivity]. by apply keeps_modify. }
  destruct (os _); [|exact F]. destruct (SendCursor.construct _ _) as [cursor|]; [|exact F].
  set (op := mkWrite _ _ _). destruct (PostWrite_ticks os op (TrackOperation s1)) as (posted & t & ->).
  destruct posted; [done|]. apply Disconnect_pong. unfold FinishAccounting.
  eapply (keeps_frame s0 (modify _ _ s1)); [|reflexivity]. by apply keeps_modify.
Qed.

Lemma Enqueue_pong sid item s : keeps_pong s (Enqueue config os sid item s).2.
Proof.
  unfold Enqueue. destruct (heap s !! sid) as [c|] eqn:H; [|apply keeps_refl].
  split_if; [apply keeps_refl|]. split_if; [apply (keeps_frame s s); [apply keeps_refl|done]|].
  unfold ReserveGlobalQueued. split_if; [apply (keeps_frame s s); [apply keeps_refl|done]|]. simpl. set (s1 := put sid _ _).
  assert (K1 : keeps_pong s s1) by (by eapply (keeps_put s s); [apply keeps_refl|..]).
  split_if; [by apply StartNextWrite_pong|done].
Qed.

(** ** The room the other sessions take *)

Definition ping_item : OutboundItem := mkItem (WebSocketHeader Ping (size_of ([] : list byte))) [] false.

Lemma ping_item_wf : item_wf ping_item /\ item_bytes ping_item = 2 /\ item_wire ping_item = [Byte.x89; Byte.x00].
Proof. split; [constructor; [apply size_WebSocketHeader|done]|done]. Qed.

Lemma Disconnect_total sid s :
  Inv config None s -> queued_total (metrics (Disconnect config sid s)) <= queued_total (metrics s).
Proof.
  intros I. destruct (heap s !! sid) as [c|] eqn:H; [|unfold Disconnect; by rewrite H].
  destruct (disconnect_started c) eqn:D; [unfold Disconnect; by rewrite H, D|].
  destruct (Disconnect_eq config Hc None s sid c I H D)
    as (c' & m' & -> & _ & _ & _ & _ & _ & _ & _ & _ & _ & _ & E & _). simpl.
  pose proof (so_items _ _ _ _ _ (inv_sessions _ _ _ I sid c H)) as F. pose proof (queue_sum_nonneg _ F). lia.
Qed.

Lemma pinged_Inv now sid (s : Server) c :
  Inv config None s -> heap s !! sid = Some c ->
  Inv config None (put sid (set_last_pong_ms now (set_awaiting_pong true c)) s).
Proof. intros I H. eapply Inv_put; [done..|constructor; done]. Qed.

(** The ping of a session that is due for one. *)
Lemma SendControl_ping sid (s : Server) c :
  heap s !! sid = Some c ->
  SendControl config os clock sid Ping [] false s = (Enqueue config os sid ping_item s).2.
Proof. intros H. unfold SendControl. by rewrite H. Qed.

Lemma TimerCheck_total now s h :
  Inv config None s -> queued_total (metrics (TimerCheck config os clock now s h)) <= queued_total (metrics s) + 2.
Proof.
  intros I. destruct (heap s !! id h) as [c|] eqn:H; [|unfold TimerCheck; rewrite H; lia].
  destruct (disconnect_started c) eqn:D; [unfold TimerCheck; rewrite H, D; lia|].
  rewrite (TimerCheck_cases config os clock now s h c H D).
  split_if; [pose proof (Disconnect_total (id h) s I); lia|]. split_if; [|lia].
  erewrite SendControl_ping by apply lookup_insert_eq. destruct ping_item_wf as (W & B & _).
  pose proof (Enqueue_total config os Hc (id h) ping_item _ (pinged_Inv now (id h) s c I H) W) as L.
  simpl in L. lia.
Qed.

Lemma timer_total now hs s :
  Inv config None s ->
  queued_total (metrics (foldl (TimerCheck config os clock now) s hs))
    <= queued_total (metrics s) + 2 * Z.of_nat (length hs).
Proof.
  revert s. induction hs as [|h hs IH]; intros s I; simpl; [lia|].
  pose proof (TimerCheck_total now s h I). pose proof (fine_inv _ _ _ (TimerCheck_fine config os clock Hc now s h I)) as I1.
  specialize (IH _ I1). lia.
Qed.

Context (a0 : St) (s : Server) (Hs : reachable config os clock a0 s).

(** C24. Timeouts are enforced: a round of the timer disconnects every session
    whose handshake, close or idle time or whose pong is overdue; a session
    that is neither overdue nor due for a ping is left exactly as it was; and one
    due for a ping now awaits its pong from this moment and is sent exactly an
    empty ping, unless it is disconnected or the ping does not fit its own queue
    or, behind a ping for every other session, the global one. *)
Theorem server_timer sid c :
  running s = true -> heap s !! sid = Some c -> disconnect_started c = false ->
  let now := clock (ticks s) in
  let s' := TimerTick config os clock s in
  (expired config now c = true -> connected sid s' = false) /\
  (expired config now c = false -> ping_due config now c = false ->
     heap s' !! sid = Some c /\ outbound sid s' = outbound sid s) /\
  (ping_due config now c = true -> connected sid s' = true ->
     exists c' sent, heap s' !! sid = Some c' /\ awaiting_pong c' = true /\ last_pong_ms c' = now /\
       outbound sid s' = outbound sid s ++ (if sent : bool then [Byte.x89; Byte.x00] else []) /\
       (queued_bytes c + 2 <= max_session_queued_bytes config ->
        queued_total (metrics s) + 2 * Z.of_nat (length (table_snapshot (sessions s)))
          <= max_global_queued_bytes config -> sent = true)).
Proof.
  intros R H D. cbv zeta. destruct (reachable_good config os clock Hc a0 s Hs) as [I RD U].
  destruct (TimerTick_session config os clock Hc s sid c I R H D)
    as (s1 & l1 & l2 & El & Es1 & I1 & H1 & W1 & E2 & W2).
  pose proof (so_id _ _ _ _ _ (inv_sessions _ _ _ I sid c H)) as Hid.
  set (now := clock (ticks s)) in *. rewrite (TimerCheck_cases config os clock now s1 (handle c) c) in E2, W2
    by (try rewrite Hid; done). rewrite Hid in E2, W2.
  assert (O1 : outbound sid s1 = outbound sid s)
    by (unfold outbound, queue_of; rewrite H1, H, W1; done).
  assert (PD : ping_due config now c = true -> expired config now c = false)
    by (unfold ping_due; by destruct (expired config now c)).
  split_and!.
  - intros Ex. rewrite Ex in E2. unfold connected. rewrite E2. apply Disconnect_disconnects.
  - intros Ex Pd. rewrite Ex, Pd in E2, W2. rewrite E2. split; [done|].
    rewrite <-O1. unfold outbound, queue_of. rewrite E2, W2. done.
  - intros Pd Cn. rewrite (PD Pd), Pd in E2, W2. set (c2 := set_last_pong_ms now (set_awaiting_pong true c)) in *.
    set (s2 := put sid c2 s1) in *. assert (H2 : heap s2 !! sid = Some c2) by apply lookup_insert_eq.
    rewrite (SendControl_ping sid s2 c2 H2) in E2, W2. destruct ping_item_wf as (Wf & B & Wi).
    assert (I2 : Inv config None s2) by (by apply pinged_Inv).
    assert (O2 : outbound sid s2 = outbound sid s)
      by (rewrite <-O1; unfold outbound, queue_of; by rewrite H2, H1).
    assert (I0 : Inv config None (set_ticks (S (ticks s)) s)) by (by apply (Inv_frame config None s)).
    assert (Tt : queued_total (metrics s2) + 2 <= queued_total (metrics s)
      + 2 * Z.of_nat (length (table_snapshot (sessions s)))).
    { pose proof (timer_total now l1 (set_ticks (S (ticks s)) s) I0) as L.
      rewrite <-Es1 in L. rewrite El, length_app. simpl in L |- *. lia. }
    pose proof (Enqueue_pong sid ping_item s2 sid c2) as Kp.
    pose proof (Enqueue_stream config os Hc sid ping_item s2) as ES.
    pose proof (Enqueue_cases config os Hc sid ping_item s2 c2 I2 Wf H2) as EC. cbv zeta in EC.
    destruct (Enqueue config os sid ping_item s2) as [ok s3]. simpl in E2, W2, Kp.
    assert (O3 : outbound sid (TimerTick config os clock s) = outbound sid s3)
      by (unfold outbound, queue_of; by rewrite E2, W2).
    assert (C3 : connected sid s3 = true) by (unfold connected in *; by rewrite <-E2).
    rewrite E2. unfold connected in C3. destruct (heap s3 !! sid) as [c3|] eqn:H3; [|done].
    destruct (Kp c3 H2 eq_refl) as [K1 K2]. exists c3, ok. split_and!; [done|exact K1|exact K2| |].
    + rewrite O3, (ES ok s3 I2 Wf eq_refl), O2, Wi; [done|]. unfold connected. by rewrite H3.
    + intros B1 B2. rewrite B in EC. change (disconnect_started c2) with (disconnect_started c) in EC.
      change (queued_bytes c2) with (queued_bytes c) in EC. rewrite D in EC. cbn [negb andb] in EC.
      rewrite (proj2 (Z.leb_le _ _) B1), (proj2 (Z.leb_le _ _)) in EC by lia. simpl in EC. congruence.
Qed.
End timer.

(** ** Witness: the clock jumps past the idle timeout after the message *)

#[local] Existing Instance echo.

Definition late_clock (n : nat) : Z := if (n <? 14)%nat then 0 else 100000.

Definition late_echoed : sample_server :=
  default (initial 0%nat) (HandleRead sample_config sample_os late_clock 0 true (frame (bstr "hello"))
    (HandleAccept sample_config sample_os late_clock true 0 (sample_started sample_config))).

Lemma late_echoed_reachable : reachable sample_config sample_os late_clock 0%nat late_echoed.
Proof.
  apply (rtc_l _ _ (sample_started sample_config)); [apply step_start|].
  apply (rtc_l _ _ (HandleAccept sample_config sample_os late_clock true 0 (sample_started sample_config)));
    [apply step_accept; vm_compute; [lia|reflexivity]|].
  apply rtc_once, (step_read _ _ _ _ 0 true (frame (bstr "hello"))). vm_compute. reflexivity.
Qed.

Lemma server_timer_witness :
  connected 1 late_echoed = true /\
  connected 1 (TimerTick sample_config sample_os late_clock late_echoed) = false.
Proof.
  split; [reflexivity|].
  assert (H : match heap late_echoed !! 1 with
    | Some c => negb (disconnect_started c) && expired sample_config (late_clock (ticks late_echoed)) c
    | None => false
    end = true) by (vm_compute; reflexivity).
  destruct (heap late_echoed !! 1) as [c|] eqn:L; [|discriminate H].
  apply andb_true_iff in H as [D E]. apply negb_true_iff in D.
  destruct (server_timer sample_config sample_os late_clock (limited_config_ok 4096) 0%nat
    late_echoed late_echoed_reachable 1 c eq_refl L D) as (T & _). exact (T E).
Defined.
