(* ===== verification/Wire.v ===== *)
(** * From the publisher's socket to the subscribers' streams

    One read completion, from [HandleRead] through the raw decoder, the router
    and the fan-out to the outbound streams: what [Publishing] shows of
    [DeliverMessage] holds of the read that completes a message. *)

From S2P Require Import Prelude SessionHandle OutboundQueue SendCursor Framing RoomRegistry.
From S2P Require Import WebSocketDecoder Handshake SessionRegistry ServerTypes Router Server.
From S2P Require Import ServerInbound ServerInvariant ServerReceive ServerSteps ServerStream.
From S2P Require Import ServerProperties ServerApplication Publishing.

Section receiving.
Context {St T : Type} `{App : Application St} `{Tab : SessionTable SessionHandle T (fun h => h)}.
Context (config : ServerConfig) (os : nat -> bool) (clock : nat -> Z) (Hc : config_ok config).
#[local] Abbreviation Server := (Server St T).

(** ** Steps that do not send *)

(** The fields sending depends on. *)
Record same_send (c c' : ClientSession) : Prop := {
  ss_handle : handle c' = handle c;
  ss_state : state c' = state c;
  ss_transport : transport c' = transport c;
  ss_started : disconnect_started c' = disconnect_started c;
  ss_queue : send_queue c' = send_queue c;
  ss_queued : queued_bytes c' = queued_bytes c;
  ss_window : rate_window_ms c' = rate_window_ms c /\ rate_window_messages c' = rate_window_messages c;
}.

#[export] Instance same_send_preorder : PreOrder same_send.
Proof.
  split; [constructor; done|]. intros a b c [? ? ? ? ? ? [? ?]] [? ? ? ? ? ? [? ?]].
  constructor; try congruence. split; congruence.
Qed.

(** Nothing but decoders, clocks and inbound accounting changed. *)
Record quiet (s s' : Server) : Prop := {
  qt_app : app s' = app s;
  qt_writes : writes s' = writes s;
  qt_total : queued_total (metrics s') = queued_total (metrics s);
  qt_heap : forall k c, heap s !! k = Some c -> exists c', heap s' !! k = Some c' /\ same_send c c';
}.

#[export] Instance quiet_preorder : PreOrder quiet.
Proof.
  split.
  - intros s. constructor; try done. intros k c H. by exists c.
  - intros a b c [A1 W1 T1 H1] [A2 W2 T2 H2]. constructor; try congruence. intros k x H.
    destruct (H1 k x H) as (y & Hy & E1). destruct (H2 k y Hy) as (z & Hz & E2). exists z. split; [done|by transitivity y].
Qed.

Lemma quiet_put sid c c' (s : Server) : heap s !! sid = Some c -> same_send c c' -> quiet s (put sid c' s).
Proof.
  intros H E. constructor; [done..|]. intros k x Hk. simpl. rewrite lookup_insert. case_decide as D; [|by exists x].
  subst k. simplify_eq. by exists c'.
Qed.

Lemma quiet_outbound s s' k c : quiet s s' -> heap s !! k = Some c -> outbound k s' = outbound k s.
Proof.
  intros [_ W _ Q] H. destruct (Q k c H) as (c' & H' & E). unfold outbound, queue_of.
  by rewrite W, H, H', (ss_queue _ _ E).
Qed.

(** A connection that is still up was up, and nothing was added to its stream. *)
Definition calm (s s' : Server) : Prop :=
  forall k, connected k s' = true -> connected k s = true /\ outbound k s' = outbound k s.

#[export] Instance calm_preorder : PreOrder calm.
Proof.
  split; [done|]. intros a b c H1 H2 k Cn. destruct (H2 k Cn) as [Cb E2]. destruct (H1 k Cb) as [Ca E1].
  split; [done|congruence].
Qed.

Lemma calm_frame (s s' : Server) : heap s' = heap s -> writes s' = writes s -> calm s s'.
Proof. intros E W k. unfold connected, outbound, queue_of. by rewrite E, W. Qed.

Lemma calm_quiet (s s' : Server) :
  quiet s s' -> (forall k, heap s !! k = None -> heap s' !! k = None) -> calm s s'.
Proof.
  intros Q N k Cn. destruct (heap s !! k) as [c|] eqn:H.
  - split; [|by apply (quiet_outbound s s' k c)]. destruct (qt_heap _ _ Q k c H) as (c' & H' & E).
    revert Cn. unfold connected. by rewrite H, H', (ss_started _ _ E).
  - unfold connected in Cn. by rewrite (N k H) in Cn.
Qed.

Lemma calm_put sid c c' (s : Server) : heap s !! sid = Some c -> same_send c c' -> calm s (put sid c' s).
Proof.
  intros H E. apply calm_quiet; [by apply (quiet_put sid c)|]. intros k Hk. simpl.
  rewrite lookup_insert_ne; [done|congruence].
Qed.

Lemma Disconnect_calm sid (s : Server) : calm s (Disconnect config sid s).
Proof.
  intros k Cn. destruct (decide (k = sid)) as [->|N]; [by rewrite Disconnect_disconnects in Cn|].
  pose proof (Disconnect_others config sid s) as O. split; [|by apply (others_outbound sid k)].
  revert Cn. unfold connected. by rewrite (proj1 (O k N)).
Qed.

Lemma AccountInbound_cases b c m :
  exists a t e, AccountInbound config b c m = (set_inbound_accounted a c, set_inbound_total t m, e) /\
    (e = true -> max_global_inbound_bytes config < t).
Proof.
  unfold AccountInbound. split_if; [|split_if].
  - eexists _, _, _. split; [done|]. apply Z.ltb_lt.
  - by eexists _, _, _.
  - exists (inbound_accounted c), (inbound_total m), false. split; [|done]. by destruct c, m.
Qed.

Lemma inbound_update_calm sid b (s : Server) : calm s (UpdateInboundAccounting config sid b s).
Proof.
  unfold UpdateInboundAccounting. destruct (heap s !! sid) as [c|] eqn:H; [|done].
  destruct (AccountInbound_cases b c (metrics s)) as (a & t & e & -> & _).
  transitivity (set_metrics (set_inbound_total t (metrics s)) (put sid (set_inbound_accounted a c) s)).
  - transitivity (put sid (set_inbound_accounted a c) s); [by apply (calm_put sid c)|by apply calm_frame].
  - destruct e; [apply Disconnect_calm|done].
Qed.

(** Within the limit it only counts. *)
Lemma UpdateInboundAccounting_quiet sid b (s : Server) c :
  Inv config None s -> is_u64 b -> heap s !! sid = Some c ->
  u64 (inbound_total (metrics s) - inbound_accounted c + b) <= max_global_inbound_bytes config ->
  exists t, UpdateInboundAccounting config sid b s =
    set_metrics (set_inbound_total t (metrics s)) (put sid (set_inbound_accounted b c) s).
Proof.
  intros I B H L. unfold UpdateInboundAccounting. rewrite H.
  destruct (AccountInbound_cases b c (metrics s)) as (a & t & e & E & F). rewrite E.
  destruct (AccountInbound_spec _ _ _ _ _ _ _ E B) as [E1 E2].
  { apply (so_accounted _ _ _ _ _ (inv_sessions _ _ _ I sid c H)). }
  { rewrite (inv_inbound _ _ _ I). symmetry. apply u64_small, u64_range. }
  assert (Et : t = u64 (inbound_total (metrics s) - inbound_accounted c + b)) by (by injection E2).
  exists t. destruct e; [specialize (F eq_refl); lia|]. by rewrite E1.
Qed.

(** ** The read that completes a message *)

Lemma BufferedBytes_pending d : Framing.wf d -> Framing.BufferedBytes d = size_of (Framing.pending d).
Proof.
  intros W. rewrite (size_pending d W). unfold Framing.BufferedBytes. destruct W as [_ [B0 B1] [C0 C1] _ S].
  apply usub_small; unfold is_u64, size_max in *; lia.
Qed.

(** Nothing is left: the loop ends. *)
Lemma raw_loop_idle n sid (s : Server) c :
  heap s !! sid = Some c -> Framing.wf (raw_decoder c) -> Framing.limit_exceeded_ (raw_decoder c) = false ->
  Framing.pending (raw_decoder c) = [] ->
  exists s', raw_loop config os clock (S n) sid s = Some (true, s') /\ calm s s'.
Proof.
  intros H W L P. simpl. rewrite H. split_if; [by exists s|].
  pose proof (Next_spec _ W L) as N. destruct (Framing.Next (raw_decoder c)) as [[st m] d].
  destruct N as [N _]. rewrite P in N. assert (st = Framing.NeedMoreData) as -> by (by injection N).
  eexists. split; [done|]. by apply (calm_put sid c).
Qed.

(** One message is complete: it is delivered, and nothing else happens. *)
Lemma raw_loop_message n sid (s : Server) c m :
  Inv config None s -> heap s !! sid = Some c -> disconnect_started c = false ->
  Framing.limit_exceeded_ (raw_decoder c) = false -> Framing.pending (raw_decoder c) = frame m ->
  valid_message (Framing.max_message_bytes_ (raw_decoder c)) m ->
  exists d, Inv config None (put sid (set_raw_decoder d c) s) /\
    forall s1, DeliverMessage config os clock sid m (put sid (set_raw_decoder d c) s) = (true, s1) ->
      exists s', raw_loop config os clock (S (S n)) sid s = Some (true, s') /\ calm s1 s'.
Proof.
  intros I H D L P V. pose proof (so_raw _ _ _ _ _ (inv_sessions _ _ _ I sid c H)) as W.
  pose proof (Next_spec _ W L) as N. destruct (Framing.Next (raw_decoder c)) as [[st m'] d] eqn:E.
  destruct N as (N & W' & _ & L'). rewrite P, <-(app_nil_r (frame m)), next_spec_frame in N by done.
  assert (E3 : Framing.MessageReady = st /\ m = m' /\ [] = Framing.pending d) by (by injection N).
  destruct E3 as (<- & <- & Pd). exists d.
  pose proof (fine_inv _ _ _ (set_raw_fine config s sid c d I H W')) as I1. split; [exact I1|].
  intros s1 E1. destruct (DeliverMessage_ok config os clock Hc sid m _ I1) as [_ Ev]. rewrite E1 in Ev. simpl in Ev.
  destruct (ev_sessions _ _ Ev sid (set_raw_decoder d c)) as (c1 & H1 & K); [apply lookup_insert_eq|].
  pose proof (kp_raw _ _ K) as Kr. simpl in Kr.
  destruct (raw_loop_idle n sid s1 c1 H1) as (s' & E2 & C); [by rewrite Kr..|].
  exists s'. split; [|done]. simpl raw_loop at 1. simpl. rewrite H, D, E, E1. exact E2.
Qed.

Lemma ProcessRaw_message sid bytes (s : Server) c m :
  Inv config None s -> heap s !! sid = Some c -> disconnect_started c = false ->
  Framing.limit_exceeded_ (raw_decoder c) = false -> Framing.pending (raw_decoder c) ++ bytes = frame m ->
  valid_message (Framing.max_message_bytes_ (raw_decoder c)) m -> size_of (frame m) <= Framing.max_buffered_bytes_ (raw_decoder c) ->
  u64 (inbound_total (metrics s) - inbound_accounted c + size_of (frame m)) <= max_global_inbound_bytes config ->
  exists s1 c1, quiet s s1 /\ Inv config None s1 /\ heap s1 !! sid = Some c1 /\ same_send c c1 /\ ticks s1 = ticks s /\
    forall s2, DeliverMessage config os clock sid m s1 = (true, s2) ->
      exists s', ProcessRaw config os clock sid bytes s = Some s' /\ calm s2 s'.
Proof.
  intros I H D L P V B G. pose proof (so_raw _ _ _ _ _ (inv_sessions _ _ _ I sid c H)) as W.
  pose proof (Append_spec _ bytes W) as A. unfold ProcessRaw. rewrite H.
  assert (Sz : size_of (Framing.pending (raw_decoder c)) + size_of bytes = size_of (frame m))
    by (by rewrite <-size_app, P).
  destruct (Framing.Append bytes (raw_decoder c)) as [ok d]. destruct A as (Wd & [M1 M2] & A).
  destruct ok; [|lia]. destruct A as (_ & Pd & Ld). rewrite P in Pd. rewrite L in Ld.
  pose proof (fine_inv _ _ _ (set_raw_fine config s sid c d I H Wd)) as I1.
  set (c1 := set_raw_decoder d c) in *. set (s1 := put sid c1 s) in *.
  assert (H1 : heap s1 !! sid = Some c1) by apply lookup_insert_eq.
  assert (Bd : buffered_raw sid s1 = size_of (frame m)).
  { unfold buffered_raw. rewrite H1. simpl. by rewrite (BufferedBytes_pending d Wd), Pd. }
  pose proof (UpdateInboundAccounting_Inv config Hc s1 sid (buffered_raw sid s1) I1 (proj1 (buffered_u64 sid s1))) as I2.
  destruct (UpdateInboundAccounting_quiet sid (buffered_raw sid s1) s1 c1 I1 (proj1 (buffered_u64 sid s1)) H1)
    as [t E2]; [rewrite Bd; exact G|]. cbv zeta. cbn [negb]. rewrite E2 in *.
  set (c2 := set_inbound_accounted _ c1) in *. set (s2 := set_metrics _ _) in *.
  assert (H2 : heap s2 !! sid = Some c2) by apply lookup_insert_eq.
  assert (Fl : exists n, S (length (Framing.buffer_ d)) = S (S n)).
  { pose proof (pending_length d) as Lp. rewrite Pd in Lp. unfold frame in Lp.
    rewrite length_app, length_be_encode in Lp. exists (pred (length (Framing.buffer_ d))). lia. }
  destruct Fl as [n ->].
  destruct (raw_loop_message n sid s2 c2 m I2 H2 D Ld Pd) as (d' & I3 & K); [simpl; by rewrite <-M1|].
  exists (put sid (set_raw_decoder d' c2) s2), (set_raw_decoder d' c2). split_and!; try done.
  - transitivity s1; [by apply (quiet_put sid c)|]. transitivity s2; [|by apply (quiet_put sid c2)].
    transitivity (put sid c2 s1); [by apply (quiet_put sid c1)|]. constructor; try done. intros k x Hx. by exists x.
  - apply lookup_insert_eq.
  - intros s3 E3. destruct (K s3 E3) as (s4 & -> & C4). cbn [mbind option_bind negb]. eexists. split; [done|].
    transitivity s4; [done|]. apply inbound_update_calm.
Qed.

Lemma PostReadOperation_calm sid (s : Server) : calm s (PostReadOperation os sid s).2.
Proof. destruct (PostReadOperation_cases os sid s) as (posted & t & ->). destruct posted; by apply calm_frame. Qed.

Lemma raw_message_read i sid bytes (s : Server) c m :
  Inv config None s -> reads s !! i = Some sid -> heap s !! sid = Some c -> disconnect_started c = false ->
  transport c = RawTcp -> bytes <> [] ->
  Framing.limit_exceeded_ (raw_decoder c) = false -> Framing.pending (raw_decoder c) ++ bytes = frame m ->
  valid_message (Framing.max_message_bytes_ (raw_decoder c)) m ->
  size_of (frame m) <= Framing.max_buffered_bytes_ (raw_decoder c) ->
  u64 (inbound_total (metrics s) - inbound_accounted c + size_of (frame m)) <= max_global_inbound_bytes config ->
  exists s1 c1, quiet s s1 /\ Inv config None s1 /\ heap s1 !! sid = Some c1 /\ same_send c c1 /\
    ticks s1 = S (ticks s) /\
    forall s2, DeliverMessage config os clock sid m s1 = (true, s2) ->
      exists s', HandleRead config os clock i true bytes s = Some s' /\ calm s2 s'.
Proof.
  intros I Hr H D Tr Hb L P V B G. unfold HandleRead. rewrite Hr. set (s0 := set_reads _ s).
  change (heap s0) with (heap s). rewrite H, D.
  assert (Hz : (size_of bytes =? 0) = false) by (destruct bytes; [done|]; apply Z.eqb_neq; unfold size_of; simpl; lia).
  rewrite Hz. cbn [negb orb]. unfold MonotonicMilliseconds. set (now := clock _).
  rewrite (modify_put _ sid _ c) by done. set (c1 := set_last_activity_ms now c).
  set (s1 := put sid c1 _). assert (H1 : heap s1 !! sid = Some c1) by apply lookup_insert_eq.
  assert (I1 : Inv config None s1).
  { eapply Inv_put; [eapply (Inv_frame config None s); done|exact H|]. constructor; done. }
  destruct (ProcessRaw_message sid bytes s1 c1 m I1 H1 D L P V B G) as (s2 & c2 & Q & I2 & H2 & E2 & Tk & K).
  exists s2, c2. split_and!; [|done|done|by transitivity c1|exact Tk|].
  { transitivity s1; [|exact Q]. transitivity (set_ticks (S (ticks s0)) s0);
      [by constructor; try done; intros k x Hx; exists x|]. by apply (quiet_put sid c c1). }
  intros s3 E3. destruct (K s3 E3) as (s4 & E4 & C4). unfold ProcessIncoming. rewrite H1. simpl transport.
  rewrite Tr, E4. cbn [mbind option_bind].
  assert (F : forall x, calm x (CompleteOperation (Disconnect config sid x))).
  { intros x. transitivity (Disconnect config sid x); [apply Disconnect_calm|by apply calm_frame]. }
  split_if; [eexists; split; [done|]; by transitivity s4|].
  pose proof (PostReadOperation_calm sid s4) as C5. destruct (PostReadOperation os sid s4) as [ok s5].
  destruct ok; eexists; (split; [done|]); [by transitivity s4|].
  transitivity s4; [done|]. transitivity s5; [done|apply F].
Qed.
End receiving.

Lemma same_send_delivered c c' m : same_send c c' -> delivered c' m = delivered c m.
Proof. intros [_ S Tr _ _ _ _]. unfold delivered, frame_on, frame_item. by rewrite S, Tr. Qed.

Lemma same_send_rate now c c' :
  same_send c c' -> rate_window_messages (rate_step now c') = rate_window_messages (rate_step now c).
Proof. intros [_ _ _ _ _ _ [W M]]. unfold rate_step. rewrite W. split_if; simpl; by rewrite ?M. Qed.

(** ** The router behind the server *)

Section publishing.
Context (verify : list byte -> bool) (get : list byte -> NetworkMessage).
Context (finish : NetworkMessage -> list byte).
Context (authenticator : option (list byte -> option (list byte))).
Context (authorizer : option (list byte -> list byte -> bool -> bool)).
#[local] Instance wired_router : Application ProtocolRouter :=
  served_router verify get finish authenticator authorizer.
#[local] Abbreviation may_publish := (may_publish authorizer).

Context {T : Type} `{Tab : SessionTable SessionHandle T (fun h => h)}.
Context (config : ServerConfig) (os : nat -> bool) (clock : nat -> Z) (Hc : config_ok config).
Context (s : Server ProtocolRouter T).
Context (Hs : reachable config os clock Router.construct s).

(** The read [i] of the connection [sid] completes the frame of [m], within the
    limits. *)
Record completes (i : nat) (sid : Z) (c : ClientSession) (bytes m : list byte) : Prop := {
  cm_read : reads s !! i = Some sid;
  cm_heap : heap s !! sid = Some c;
  cm_up : disconnect_started c = false;
  cm_raw : transport c = RawTcp;
  cm_bytes : bytes <> [];
  cm_live : Framing.limit_exceeded_ (raw_decoder c) = false;
  cm_frame : Framing.pending (raw_decoder c) ++ bytes = frame m;
  cm_valid : valid_message (Framing.max_message_bytes_ (raw_decoder c)) m;
  cm_buffered : size_of (frame m) <= Framing.max_buffered_bytes_ (raw_decoder c);
  cm_inbound : u64 (inbound_total (metrics s) - inbound_accounted c + size_of (frame m)) <=
    max_global_inbound_bytes config;
  cm_rate : rate_window_messages (rate_step (clock (S (ticks s))) c) <= max_messages_per_second config;
}.

(** C3. From socket to socket: when a read completes the frame of a message, in
    whatever pieces it arrived, and the message is a publish the router admits,
    then the read is handled, every subscriber of the room is connected, and if
    it is up afterwards its outbound stream has grown by exactly the frame of the
    unchanged message for its transport, if it is open and there is room in its
    queue and in the server's; no other connection's stream has changed. *)
Theorem wire_to_wire i sid c bytes m publish room :
  completes i sid c bytes m -> size_of m <= max_message_bytes config ->
  verify m = true -> protocol_version (get m) = 1 -> payload (get m) = P_Publish (Some publish) ->
  may_publish (handle c) (app s) publish room ->
  let subscribers := RoomRegistry.Snapshot room (rooms_ (app s)) in
  exists s', HandleRead config os clock i true bytes s = Some s' /\
    (forall k, k ∈ subscribers -> exists ck,
       heap s !! id k = Some ck /\ handle ck = k /\ disconnect_started ck = false /\
       (connected (id k) s' = true ->
        exists sent, outbound (id k) s' = outbound (id k) s ++ (if sent : bool then delivered ck m else []) /\
          (queued_bytes ck + cost m <= max_session_queued_bytes config ->
           queued_total (metrics s) + Z.of_nat (length subscribers) * cost m <= max_global_queued_bytes config ->
           sent = true))) /\
    (forall k ck, heap s !! id k = Some ck -> handle ck = k -> k ∉ subscribers -> connected (id k) s' = true ->
       outbound (id k) s' = outbound (id k) s).
Proof.
  intros [Hr H D Tr Hb L P V B G Rt] Lm Vf PV Pm M. cbv zeta.
  destruct (reachable_good config os clock Hc _ s Hs) as [I _ _].
  destruct (raw_message_read config os clock Hc i sid bytes s c m I Hr H D Tr Hb L P V B G)
    as (s1 & c1 & Q & I1 & H1 & Es & Tk & K).
  destruct (deliver_publish verify get finish authenticator authorizer config os clock Hc s1 sid c1 m publish room)
    as (s2 & E2 & [R O] & _); [exact I1|exact H1| |destruct V as [[V1 _] _]; lia|done..| |].
  { rewrite Tk, (same_send_rate _ c c1 Es). exact Rt. }
  { rewrite (qt_app _ _ Q), (ss_handle _ _ Es). exact M. }
  rewrite (qt_app _ _ Q) in R, O. destruct (K s2 E2) as (s' & E' & C). exists s'. split; [exact E'|]. split.
  - intros k Hk. destruct (subscriber_connected verify get finish authenticator authorizer config os clock Hc s Hs room k Hk)
      as (_ & ck & Hck & Ek & Dk). exists ck. split_and!; [done..|]. intros Cn. destruct (C (id k) Cn) as [Cn2 ->].
    destruct (qt_heap _ _ Q (id k) ck Hck) as (ck1 & Hk1 & Ss).
    rewrite <-(quiet_outbound s s1 (id k) ck Q Hck), <-(same_send_delivered ck ck1 m Ss), <-(ss_queued _ _ Ss), <-(qt_total _ _ Q).
    apply (R k ck1 Hk Hk1); [by rewrite (ss_handle _ _ Ss)|by rewrite (ss_started _ _ Ss)|done].
  - intros k ck Hck Ek Nk Cn. destruct (C (id k) Cn) as [Cn2 ->]. destruct (qt_heap _ _ Q (id k) ck Hck) as (ck1 & Hk1 & Ss).
    rewrite <-(quiet_outbound s s1 (id k) ck Q Hck). apply (O k ck1 Hk1); [by rewrite (ss_handle _ _ Ss)|done|done].
Qed.
End publishing.

(** ** Witness: the second half of a publish arrives *)

#[local] Existing Instance sample_router.

(** The first half of the frame has been read before. *)
Definition half_read : sample := read_ok 0 (take 3 (frame (bstr "P"))) both_joined.
Definition rest : list byte := drop 3 (frame (bstr "P")).

(** The read of the first client is posted again behind that of the second. *)
Lemma half_read_reachable : reachable sample_config sample_os sample_clock Router.construct half_read.
Proof. apply read_reachable; [vm_compute; eauto|apply both_joined_reachable]. Qed.

Lemma half_reads : reads half_read !! 1%nat = Some 1.
Proof. vm_compute. reflexivity. Qed.

Lemma half_may_publish :
  may_publish (Some (fun _ _ _ => true)) (mkHandle 1 1) (app half_read) alert (bstr "court:1").
Proof.
  constructor; try (vm_compute; reflexivity).
  - exists (bstr "token"). vm_compute. reflexivity.
  - apply subscribed_dec. vm_compute. reflexivity.
Qed.

Lemma half_completes c :
  heap half_read !! 1 = Some c -> completes sample_config sample_clock half_read 1 1 c rest (bstr "P").
Proof.
  intros H. assert (F : match heap half_read !! 1 with
    | Some c => negb (disconnect_started c) && bool_decide (transport c = RawTcp) &&
        negb (Framing.limit_exceeded_ (raw_decoder c)) &&
        bool_decide (Framing.pending (raw_decoder c) ++ rest = frame (bstr "P")) &&
        (size_of (bstr "P") <=? Framing.max_message_bytes_ (raw_decoder c)) && (size_of (frame (bstr "P")) <=? Framing.max_buffered_bytes_ (raw_decoder c)) &&
        (u64 (inbound_total (metrics half_read) - inbound_accounted c + size_of (frame (bstr "P"))) <=?
          max_global_inbound_bytes sample_config) &&
        (rate_window_messages (rate_step (sample_clock (S (ticks half_read))) c) <=?
          max_messages_per_second sample_config)
    | None => false end = true) by (vm_compute; reflexivity).
  rewrite H in F. repeat rewrite andb_true_iff in F.
  destruct F as (((((((F1 & F2) & F3) & F4) & F5) & F6) & F7) & F8).
  apply negb_true_iff in F1, F3. apply bool_decide_eq_true in F2, F4. apply Z.leb_le in F5, F6, F7, F8.
  refine (Build_completes _ _ _ _ _ _ _ _ half_reads H F1 F2 _ F3 F4 _ F6 F7 F8); [discriminate|].
  split; [split; [|exact F5]|]; discriminate.
Qed.

Lemma wire_to_wire_witness :
  exists s' c, HandleRead sample_config sample_os sample_clock 1 true rest half_read = Some s' /\
    heap half_read !! 2 = Some c /\
    (connected 2 s' = true -> outbound 2 s' = outbound 2 half_read ++ frame (bstr "P")).
Proof.
  destruct (heap half_read !! 1) as [c|] eqn:H; [|vm_compute in H; discriminate].
  assert (Eh : handle c = mkHandle 1 1).
  { assert (F : match heap half_read !! 1 with Some c => bool_decide (handle c = mkHandle 1 1) | None => false end = true)
      by (vm_compute; reflexivity). rewrite H in F. by apply bool_decide_eq_true in F. }
  destruct (wire_to_wire (fun _ => true) sample_get (fun _ => bstr "reply") (Some (fun t => Some t))
    (Some (fun _ _ _ => true)) sample_config sample_os sample_clock (limited_config_ok 4096) half_read
    half_read_reachable 1 1 c rest (bstr "P") alert (bstr "court:1") (half_completes c H))
    as (s' & E & P & _); [discriminate|reflexivity..|rewrite Eh; exact half_may_publish|].
  assert (M : mkHandle 2 2 ∈ RoomRegistry.Snapshot (bstr "court:1") (rooms_ (app half_read))).
  { apply (bool_decide_unpack _). vm_compute. exact I. }
  destruct (P (mkHandle 2 2) M) as (ck & Hck & _ & _ & Q). exists s', ck. split; [exact E|]. split; [exact Hck|].
  intros Cn. destruct (Q Cn) as (sent & Eo & Room). refine (eq_trans Eo _). f_equal.
  assert (G : match heap half_read !! 2 with
    | Some c => (queued_bytes c + cost (bstr "P") <=? 256) &&
        bool_decide (delivered c (bstr "P") = frame (bstr "P"))
    | None => false end = true) by (vm_compute; reflexivity).
  cbn [SessionHandle.id] in Hck. rewrite Hck in G. apply andb_true_iff in G as [G1%Z.leb_le G2%bool_decide_eq_true].
  rewrite Room; [exact G2|exact G1|]. apply Z.leb_le. vm_compute. reflexivity.
Defined.
