(* ===== verification/InboundLeak.v ===== *)
(** * Inbound bytes counted for good (src/src/core/iocp_server.cpp, [ProcessDetection])

    [ProcessDetection] goes on after [UpdateInboundAccounting] has disconnected
    the session: when it turns the session into a raw one, [ProcessRaw] counts the
    bytes again that the disconnection gave back. *)

From S2P Require Import Prelude SessionHandle OutboundQueue SendCursor Framing.
From S2P Require Import WebSocketDecoder Handshake SessionRegistry ServerTypes Server.
From S2P Require Import ServerInbound ServerInvariant ServerReceive ServerSteps ServerStream.
From S2P Require Import ServerProperties.

Section leak.
Context {St T : Type} `{App : Application St} `{Tab : SessionTable SessionHandle T (fun h => h)}.
Context (config : ServerConfig) (os : nat -> bool) (clock : nat -> Z) (Hc : config_ok config).
#[local] Abbreviation Server := (Server St T).

(** The bytes of a connection whose transport is being detected, with those read. *)
Definition detected (c : ClientSession) (bytes : list byte) : list byte := detection_buffer c ++ bytes.

(** What the global counter becomes when they are counted. *)
Definition counted (s : Server) (c : ClientSession) (bytes : list byte) : Z :=
  u64 (inbound_total (metrics s) - inbound_accounted c + size_of (detected c bytes)).

(** A read of a live connection that settles it as raw, whose bytes its own
    buffer holds but the global limit does not. *)
Record exceeds (i : nat) (sid : Z) (bytes : list byte) (s : Server) (c : ClientSession) : Prop := {
  ex_read : reads s !! i = Some sid;
  ex_session : heap s !! sid = Some c;
  ex_live : disconnect_started c = false;
  ex_detecting : transport c = Detecting;
  ex_decoder : raw_decoder c = Framing.construct (max_message_bytes config) (max_session_inbound_bytes config);
  ex_bytes : bytes <> [];
  ex_fits : size_of (detected c bytes) <= max_session_inbound_bytes config;
  ex_raw : let n := Nat.min (length (detected c bytes)) (length GetPrefix) in
    take n (detected c bytes) <> take n GetPrefix;
  ex_more : inbound_accounted c < size_of (detected c bytes);
  ex_global : max_global_inbound_bytes config < counted s c bytes;
}.

Lemma account_more b c m :
  inbound_accounted c < b ->
  AccountInbound config b c m =
    (set_inbound_accounted b c, set_inbound_total (u64 (inbound_total m - inbound_accounted c + b)) m,
     max_global_inbound_bytes config <? u64 (inbound_total m - inbound_accounted c + b)).
Proof.
  intros L. unfold AccountInbound. rewrite (proj2 (Z.ltb_lt _ _) L). cbv zeta.
  assert (E : (inbound_total m + (b - inbound_accounted c)%u64)%u64 = u64 (inbound_total m - inbound_accounted c + b)).
  { unfold uadd, usub, u64. rewrite Zplus_mod_idemp_r. f_equal. lia. }
  by rewrite E.
Qed.

(** The session and the metrics behind a disconnection. *)
Lemma Disconnect_inbound sid (s : Server) c :
  heap s !! sid = Some c -> disconnect_started c = false -> 0 < inbound_accounted c <= size_max ->
  let s' := Disconnect config sid s in
  exists c', heap s' !! sid = Some c' /\ disconnect_started c' = true /\ inbound_accounted c' = 0 /\
    raw_decoder c' = raw_decoder c /\ reads s' = reads s /\
    inbound_total (metrics s') = (inbound_total (metrics s) - inbound_accounted c)%u64 /\
    active_connections (metrics s') = (active_connections (metrics s) - 1)%u64.
Proof.
  intros H D A. cbv zeta. unfold Disconnect. rewrite H, D. unfold drop_queue.
  destruct (foldl _ _ _) as [q t]. unfold AccountInbound. simpl.
  rewrite (proj2 (Z.ltb_ge _ _)), (proj2 (Z.ltb_lt _ _)) by lia. simpl. rewrite (usub_small (inbound_accounted c) 0), Z.sub_0_r by lia.
  eexists. rewrite lookup_insert_eq. by split_and!.
Qed.

Lemma Disconnect_again sid (s : Server) c :
  heap s !! sid = Some c -> disconnect_started c = true -> Disconnect config sid s = s.
Proof. intros H D. unfold Disconnect. by rewrite H, D. Qed.

(** Counting bytes of a session that is already disconnected. *)
Lemma update_gone b sid (s : Server) c :
  heap s !! sid = Some c -> disconnect_started c = true -> inbound_accounted c < b ->
  UpdateInboundAccounting config sid b s =
    set_metrics (set_inbound_total (u64 (inbound_total (metrics s) - inbound_accounted c + b)) (metrics s))
      (put sid (set_inbound_accounted b c) s).
Proof.
  intros H D L. unfold UpdateInboundAccounting. rewrite H, account_more by done. split_if; [|done].
  eapply Disconnect_again; [apply lookup_insert_eq|done].
Qed.

Lemma update_same sid (s : Server) c :
  heap s !! sid = Some c -> UpdateInboundAccounting config sid (inbound_accounted c) s = s.
Proof.
  intros H. unfold UpdateInboundAccounting, AccountInbound. rewrite H, Z.ltb_irrefl.
  destruct s. unfold put. simpl in *. by rewrite insert_id.
Qed.

(** [ProcessRaw] of a session that is already disconnected counts its bytes. *)
Lemma ProcessRaw_gone sid bytes (s : Server) c :
  heap s !! sid = Some c -> disconnect_started c = true -> inbound_accounted c = 0 ->
  raw_decoder c = Framing.construct (max_message_bytes config) (max_session_inbound_bytes config) ->
  0 < size_of bytes <= max_session_inbound_bytes config ->
  exists d, ProcessRaw config os clock sid bytes s =
    Some (set_metrics (set_inbound_total (u64 (inbound_total (metrics s) + size_of bytes)) (metrics s))
      (put sid (set_inbound_accounted (size_of bytes) (set_raw_decoder d c)) s)).
Proof.
  intros H D A E L. pose proof (co_inbound _ Hc) as Bi.
  unfold ProcessRaw. rewrite H, E. unfold Framing.Append. simpl.
  rewrite (proj2 (Z.ltb_ge _ _)) by lia. rewrite usub_small by (unfold size_max; lia).
  rewrite (proj2 (Z.ltb_ge _ _)) by (change ((size_of ([] : list byte) - 0)%u64) with 0; lia). cbn [orb negb].
  set (d := Framing.set_data bytes 0 _). set (c1 := set_raw_decoder d c). set (s1 := put sid c1 s).
  assert (H1 : heap s1 !! sid = Some c1) by apply lookup_insert_eq.
  assert (B : buffered_raw sid s1 = size_of bytes).
  { unfold buffered_raw. rewrite H1. unfold Framing.BufferedBytes. simpl. rewrite usub_small by (unfold size_max; lia). lia. }
  rewrite B, (update_gone (size_of bytes) sid s1 c1 H1 D) by (simpl; lia).
  set (s2 := set_metrics _ _). set (c2 := set_inbound_accounted (size_of bytes) c1).
  assert (H2 : heap s2 !! sid = Some c2) by apply lookup_insert_eq.
  cbn [raw_loop]. rewrite H2. change (disconnect_started c2) with (disconnect_started c). rewrite D.
  cbn [mbind option_bind negb]. exists d. f_equal.
  assert (B2 : buffered_raw sid s2 = inbound_accounted c2).
  { unfold buffered_raw. rewrite H2. revert B. unfold buffered_raw. by rewrite H1. }
  rewrite B2, (update_same sid s2 c2 H2). unfold s2, s1, put. simpl. rewrite insert_insert_eq, A.
  by rewrite Z.sub_0_r.
Qed.

(** The detection of the transport, where the count exceeds the limit. *)
Lemma detection_leaks sid bytes (s : Server) c :
  heap s !! sid = Some c -> disconnect_started c = false -> is_u64 (inbound_accounted c) ->
  raw_decoder c = Framing.construct (max_message_bytes config) (max_session_inbound_bytes config) ->
  size_of (detected c bytes) <= max_session_inbound_bytes config ->
  (let n := Nat.min (length (detected c bytes)) (length GetPrefix) in
   take n (detected c bytes) <> take n GetPrefix) ->
  inbound_accounted c < size_of (detected c bytes) ->
  max_global_inbound_bytes config < counted s c bytes ->
  exists s' c', ProcessDetection config os clock sid bytes s = Some s' /\
    heap s' !! sid = Some c' /\ disconnect_started c' = true /\ state c' = Open /\
    inbound_accounted c' = size_of (detected c bytes) /\
    inbound_total (metrics s') = counted s c bytes /\
    active_connections (metrics s') = (active_connections (metrics s) - 1)%u64 /\ reads s' = reads s.
Proof.
  intros H D [A0 _] E Hf Hx Hm Hg. pose proof (co_inbound _ Hc) as Bi. cbv zeta in Hx.
  assert (Sz : size_of (detection_buffer c) + size_of bytes = size_of (detected c bytes))
    by (unfold detected; by rewrite size_app).
  pose proof (size_nonneg (detection_buffer c)). pose proof (size_nonneg bytes).
  unfold ProcessDetection. rewrite H.
  rewrite (proj2 (Z.ltb_ge _ _)), usub_small, (proj2 (Z.ltb_ge _ _)) by (unfold size_max; lia).
  cbn [orb]. cbv zeta. fold (detected c bytes). set (b := detected c bytes) in *.
  set (c2 := set_detection_buffer b c). set (s2 := put sid c2 s).
  assert (H2 : heap s2 !! sid = Some c2) by apply lookup_insert_eq.
  unfold UpdateInboundAccounting at 2. rewrite H2, account_more by exact Hm.
  change (u64 (inbound_total (metrics s2) - inbound_accounted c2 + size_of b)) with (counted s c bytes).
  rewrite (proj2 (Z.ltb_lt _ _) Hg). set (s3 := set_metrics _ _).
  set (c3 := set_inbound_accounted (size_of b) c2).
  assert (H3 : heap s3 !! sid = Some c3) by apply lookup_insert_eq.
  destruct (Disconnect_inbound sid s3 c3 H3 D ltac:(simpl; unfold size_max; lia))
    as (c4 & H4 & D4 & A4 & R4 & Rd & T4 & N4). set (s4 := Disconnect config sid s3) in *.
  rewrite bool_decide_eq_false_2 by exact Hx. cbn [negb].
  rewrite (modify_put s4 sid _ c4 H4). erewrite modify_put by apply lookup_insert_eq.
  set (c5 := set_detection_buffer [] _). set (s5 := put sid c5 _).
  assert (H5 : heap s5 !! sid = Some c5) by apply lookup_insert_eq.
  assert (A5 : inbound_accounted c5 = 0) by exact A4.
  rewrite <-A5, (update_same sid s5 c5 H5).
  destruct (ProcessRaw_gone sid b s5 c5 H5 D4 A5 ltac:(exact (eq_trans R4 E)) ltac:(lia)) as (d & Ep).
  rewrite Ep. eexists _, _. split; [done|]. cbn [heap set_metrics put set_heap metrics reads].
  rewrite lookup_insert_eq. split_and!; try done.
  simpl. change (inbound_total (metrics s5)) with (inbound_total (metrics s4)). rewrite T4.
  change (inbound_total (metrics s3)) with (counted s c bytes). change (inbound_accounted c3) with (size_of b).
  unfold usub. rewrite u64_add_l. unfold counted. rewrite Z.sub_add. apply u64_small, u64_range.
Qed.

Context (a0 : St) (s : Server) (Hs : reachable config os clock a0 s).

(** C34. Inbound accounting leaks.  When the bytes of a connection exceed the
    global inbound limit with the read that shows that it is no WebSocket client
    (its bytes do not begin like a request), the connection is disconnected and
    its bytes are given back, and then they are counted again: the session is
    marked open although it is disconnected and off the registry, its bytes are
    still counted, the counter stands above the limit, and nothing is left that
    gives them back, no read of the session and not another [Disconnect]. *)
Theorem inbound_accounting_leak i sid bytes c :
  exceeds i sid bytes s c ->
  exists s' c',
    HandleRead config os clock i true bytes s = Some s' /\
    heap s' !! sid = Some c' /\ disconnect_started c' = true /\ state c' = Open /\
    inbound_accounted c' = size_of (detected c bytes) /\
    inbound_total (metrics s') = counted s c bytes /\
    max_global_inbound_bytes config < inbound_total (metrics s') /\
    active_connections (metrics s') = active_connections (metrics s) - 1 /\
    (handle c ∉ table_snapshot (sessions s')) /\ (sid ∉ reads s') /\ Disconnect config sid s' = s'.
Proof.
  intros [Hr H D Td Ed Hb Hf Hx Hm Hg].
  destruct (reachable_good config os clock Hc a0 s Hs) as [I RD _].
  destruct (take_read s i sid RD Hr) as [_ Nr].
  pose proof (inv_sessions _ _ _ I sid c H) as So. pose proof (so_accounted _ _ _ _ _ So) as Ac.
  assert (Act : 1 <= active_connections (metrics s) <= size_max).
  { destruct (inv_registry _ _ _ I) as (m & _ & Rm & A). pose proof (inv_connections _ _ _ I).
    assert (M : m !! sid = Some (handle c)) by (apply Rm; by exists c).
    assert (size m <> 0%nat) by (intros E0%map_size_empty_iff; subst m; by rewrite lookup_empty in M). lia. }
  assert (Z0 : (size_of bytes =? 0) = false).
  { apply Z.eqb_neq. intros E%size_zero_nil. done. }
  set (s0 := set_ticks (S (ticks s)) (set_reads (delete i (reads s)) s)).
  set (c1 := set_last_activity_ms (clock (ticks s)) c). set (s1 := put sid c1 s0).
  assert (H1 : heap s1 !! sid = Some c1) by apply lookup_insert_eq.
  destruct (detection_leaks sid bytes s1 c1 H1 D Ac Ed Hf Hx Hm Hg)
    as (s' & c' & P & H' & D' & O' & A' & T' & N' & R').
  change (counted s1 c1 bytes) with (counted s c bytes) in T'.
  assert (E : HandleRead config os clock i true bytes s = Some (CompleteOperation s')).
  { unfold HandleRead. rewrite Hr, Z0. cbn [negb orb]. cbn [heap set_reads]. rewrite H, D.
    unfold MonotonicMilliseconds. cbn [ticks set_reads].
    change (set_ticks (S (ticks s)) (set_reads (delete i (reads s)) s)) with s0.
    rewrite (modify_put s0 sid _ c) by exact H. fold c1. fold s1.
    unfold ProcessIncoming. rewrite H1. change (transport c1) with (transport c). rewrite Td, P.
    cbn [mbind option_bind]. rewrite H', D'. cbn [orb]. by rewrite (Disconnect_again sid s' c' H' D'). }
  exists (CompleteOperation s'), c'. split; [exact E|].
  assert (Rs : reachable config os clock a0 (CompleteOperation s'))
    by (eapply rtc_r; [exact Hs|by eapply step_read]).
  destruct (reachable_good config os clock Hc a0 _ Rs) as [I' _ _].
  split_and!; [exact H'|exact D'|exact O'|exact A'|exact T'|rewrite <-T' in Hg; exact Hg| | | |].
  - change (active_connections (metrics s') = active_connections (metrics s) - 1). rewrite N'. apply usub_small; lia.
  - destruct (snapshot_spec config _ I') as [_ M]. intros (y & Hy & Ey & Dy)%M.
    rewrite (so_id _ _ _ _ _ So) in Hy. simpl in Hy. congruence.
  - change (sid ∉ reads s'). by rewrite R'.
  - eapply Disconnect_again; [exact H'|exact D'].
Qed.
End leak.

(** ** Witness: five bytes at a limit of three *)

#[local] Existing Instance echo.

Definition leaking : sample_server := sample_accepted (limited_config 3).

Lemma inbound_accounting_leak_witness :
  exists s', HandleRead (limited_config 3) sample_os sample_clock 0 true (bstr "01234") leaking = Some s' /\
    inbound_total (metrics s') = 5 /\ active_connections (metrics s') = 0.
Proof.
  assert (L : match heap leaking !! 1 with
    | Some c => negb (disconnect_started c) && bool_decide (transport c = Detecting)
        && bool_decide (detection_buffer c = []) && (inbound_accounted c =? 0)
    | None => false end = true) by (vm_compute; reflexivity).
  assert (Dc : match heap leaking !! 1 with
    | Some c => raw_decoder c | None => Framing.construct 0 0 end = Framing.construct 64 128)
    by (vm_compute; reflexivity).
  assert (Tt : inbound_total (metrics leaking) = 0) by (vm_compute; reflexivity).
  assert (At : active_connections (metrics leaking) = 1) by (vm_compute; reflexivity).
  destruct (heap leaking !! 1) as [c|] eqn:H; [|discriminate L].
  repeat (apply andb_true_iff in L as [L ?]). apply negb_true_iff in L.
  assert (Eb : detection_buffer c = []) by (by eapply bool_decide_eq_true).
  assert (Ea : inbound_accounted c = 0) by (by apply Z.eqb_eq).
  assert (Et : counted leaking c (bstr "01234") = 5).
  { unfold counted, detected. rewrite Tt, Ea, Eb. reflexivity. }
  destruct (inbound_accounting_leak (limited_config 3) sample_os sample_clock (limited_config_ok 3) 0%nat
    leaking (sample_accepted_reachable 3) 0 1 (bstr "01234") c) as (s' & c' & E & _ & _ & _ & _ & T & _ & A & _).
  - constructor; rewrite ?Et; unfold detected; rewrite ?Eb, ?Ea; try done.
    by eapply bool_decide_eq_true.
  - exists s'. split; [exact E|]. split; [rewrite T; exact Et|rewrite A, At; reflexivity].
Defined.
