(* ===== verification/Delivery.v ===== *)
(** * The server: what reaches the message handler

    Each connection's messages, from the bytes that arrived to the calls of the
    message handler: through detection, the handshake and a decoder, over any
    reads, whatever else happens between them.  The handlers are those of any
    application, wrapped to keep a log ([logged]). *)

From S2P Require Import Prelude SessionHandle OutboundQueue SendCursor Framing.
From S2P Require Import WebSocketDecoder Handshake SessionRegistry ServerTypes Server.
From S2P Require Import ServerInbound ServerInvariant ServerReceive ServerSteps ServerStream ServerProperties.

(** ** Operations that call no message handler *)

Section view.
Context {St T V : Type} `{App : Application St} `{Tab : SessionTable SessionHandle T (fun h => h)}.
Context (config : ServerConfig) (os : nat -> bool) (clock : nat -> Z).
Context (view : St -> V) (Hview : forall h st, view (disconnect_handler h st) = view st).
#[local] Abbreviation Server := (Server St T).
#[local] Abbreviation seen s := (view (app s)).

Lemma Disconnect_view sid (s : Server) : seen (Disconnect config sid s) = seen s.
Proof.
  unfold Disconnect. destruct (heap s !! sid); [|done]. destruct (disconnect_started _); [done|].
  destruct (drop_queue _ _). destruct (AccountInbound _ _ _ _) as [[? ?] ?]. apply Hview.
Qed.

Lemma UpdateInboundAccounting_view sid b (s : Server) :
  seen (UpdateInboundAccounting config sid b s) = seen s.
Proof.
  unfold UpdateInboundAccounting. destruct (heap s !! sid); [|done].
  destruct (AccountInbound _ _ _ _) as [[? ?] []]; [by rewrite Disconnect_view|done].
Qed.

Lemma StartNextWrite_view sid (s : Server) : seen (StartNextWrite config os sid s) = seen s.
Proof.
  unfold StartNextWrite. destruct (heap s !! sid) as [c|]; [|done].
  destruct (send_queue c); [done|]. unfold os_call. cbv zeta. set (s1 := set_ticks _ _).
  destruct (os _); [|by rewrite Disconnect_view].
  destruct (SendCursor.construct _ _); [|by rewrite Disconnect_view].
  destruct (PostWrite_ticks os (mkWrite sid s0 (item_close_after o)) (TrackOperation s1))
    as (posted & t & ->).
  destruct posted; [done|]. by rewrite Disconnect_view.
Qed.

Lemma FinishWrite_view op ok (s : Server) : seen (FinishWrite config os op ok s) = seen s.
Proof. unfold FinishWrite. split_if; [by rewrite Disconnect_view|by rewrite StartNextWrite_view]. Qed.

Lemma HandleWrite_view i ok n (s : Server) : seen (HandleWrite config os i ok n s) = seen s.
Proof.
  unfold HandleWrite. destruct (writes s !! i) as [op|]; [|done]. set (s1 := set_writes _ s).
  split_if; [by rewrite FinishWrite_view|]. split_if; [|by rewrite FinishWrite_view].
  set (op' := mkWrite _ _ _). destruct (PostWrite_ticks os op' s1) as (posted & t & ->).
  destruct posted; [done|by rewrite FinishWrite_view].
Qed.

Lemma Enqueue_view sid item (s : Server) : seen (Enqueue config os sid item s).2 = seen s.
Proof.
  unfold Enqueue. destruct (heap s !! sid); [|done]. split_if; [done|]. split_if; [done|].
  destruct (ReserveGlobalQueued _ _ _) as [[] m]; [|done]. cbn [negb snd].
  split_if; [by rewrite StartNextWrite_view|done].
Qed.

Lemma SendRaw_view sid response ca (s : Server) : seen (SendRaw config os sid response ca s) = seen s.
Proof.
  unfold SendRaw. pose proof (Enqueue_view sid (mkItem [] response ca) s) as E.
  destruct (Enqueue config os sid _ s). split_if; [by rewrite Disconnect_view|done].
Qed.

Lemma SendControl_view sid op payload ca (s : Server) :
  seen (SendControl config os clock sid op payload ca s) = seen s.
Proof.
  unfold SendControl. destruct (heap s !! sid) as [c|]; [|done]. destruct ca; [|by rewrite Enqueue_view].
  split_if; [done|]. unfold MonotonicMilliseconds.
  match goal with |- context [Enqueue config os sid ?i ?x] => pose proof (Enqueue_view sid i x) as E end.
  destruct (Enqueue config os sid _ _). split_if; [by rewrite Disconnect_view|done].
Qed.

Lemma Send_view h payload (s : Server) : seen (Send config os h payload s).2 = seen s.
Proof.
  unfold Send. destruct (table_find h (sessions s)); [|done]. destruct payload; [|done].
  destruct (heap s !! _) as [c|]; [|done]. split_if; [done|].
  destruct (transport c); [done| |by rewrite Enqueue_view].
  destruct (EncodeLength _); [by rewrite Enqueue_view|done].
Qed.

Lemma Close_view h code reason (s : Server) : seen (Close config os clock h code reason s) = seen s.
Proof.
  unfold Close. destruct (table_find h (sessions s)); [|done]. destruct (heap s !! _); [|done].
  split_if; [by rewrite Disconnect_view|by rewrite SendControl_view].
Qed.

Lemma fold_view {A} (f : Server -> A -> Server) l s :
  (forall s a, seen (f s a) = seen s) -> seen (foldl f s l) = seen s.
Proof. intros Hf. revert s. induction l as [|a l IH]; intros s; [done|]. simpl. by rewrite IH. Qed.

Lemma send_all_view out (s : Server) : seen (send_all config os out s) = seen s.
Proof. apply fold_view. intros s' [h p]. apply (Send_view h (Some p)). Qed.

Lemma TimerTick_view (s : Server) : seen (TimerTick config os clock s) = seen s.
Proof.
  unfold TimerTick. split_if; [done|]. unfold MonotonicMilliseconds. rewrite fold_view; [done|].
  intros x h. unfold TimerCheck. destruct (heap x !! id h); [|done].
  repeat (split_if; [by rewrite ?Disconnect_view|]).
  split_if; [split_if; [by rewrite Disconnect_view|done]|]. split_if; [by rewrite SendControl_view|done].
Qed.

Lemma StopSessions_view (s : Server) : seen (StopSessions config s) = seen s.
Proof.
  unfold StopSessions. split_if; [done|]. rewrite fold_view; [done|]. intros. apply Disconnect_view.
Qed.
End view.

(** ** The log *)

Abbreviation log := (list (SessionHandle * list byte)).

(** Any application, with a record of the messages it was given; the record of
    one without a handler for messages is of those it would have been given. *)
#[local] Instance logged {St : Type} `{App : Application St} : Application (St * log) := {|
  message_handler := Some (fun now h message st =>
    let '(disposition, out, st') :=
      match message_handler with
      | Some callback => callback now h message st.1
      | None => (Accepted, [], st.1)
      end in
    (disposition, out, (st', st.2 ++ [(h, message)])));
  connect_handler h st := (connect_handler h st.1, st.2);
  disconnect_handler h st := (disconnect_handler h st.1, st.2);
|}.

Lemma logged_message {St : Type} `{App : Application St} now h m (st : St * log) :
  exists callback, message_handler = Some callback /\ (callback now h m st).2.2 = st.2 ++ [(h, m)].
Proof. eexists. split; [done|]. cbv beta. by destruct (match message_handler with Some _ => _ | None => _ end) as [[? ?] ?]. Qed.

Definition delivered (sid : Z) (l : log) : list (list byte) :=
  map snd (filter (fun p => id p.1 = sid) l).

Lemma delivered_snoc sid l h m :
  delivered sid (l ++ [(h, m)]) = delivered sid l ++ (if decide (id h = sid) then [m] else []).
Proof.
  unfold delivered. rewrite filter_app, map_app. f_equal. rewrite filter_cons. simpl.
  by case_decide.
Qed.

(** The bytes each session has received: those of its successful reads. *)
Definition arrived (sid : Z) (bytes : list byte) (rx : Z -> list byte) (k : Z) : list byte :=
  if decide (k = sid) then rx k ++ bytes else rx k.

(** ** What a session's bytes have become *)

Definition messages (evs : list WsEvent) : list (list byte) :=
  concat (map (fun ev => match ev_type ev with BinaryMessage => [ev_payload ev] | _ => [] end) evs).

Lemma messages_app evs evs' : messages (evs ++ evs') = messages evs ++ messages evs'.
Proof. unfold messages. by rewrite map_app, concat_app. Qed.

Section account.
Context (config : ServerConfig).
#[local] Abbreviation max := (max_message_bytes config).

Definition receiving (c : ClientSession) : Prop :=
  disconnect_started c = false /\ (transport c = WebSocket -> state c = Open).

Definition upgrade (request : list byte) : Prop :=
  exists head key org, head_of request head [] /\ request_ok head key org /\
    validator_ok (origin_validator config) org.

Lemma head_of_app request head rest : head_of (request ++ rest) head rest <-> head_of request head [].
Proof.
  assert (P : forall n h k : list byte, (length n <= length h)%nat -> is_prefix n (h ++ k) = is_prefix n h).
  { induction n as [|a n IH]; intros [|b h] k L; simpl in *; [done..|lia|]. rewrite IH by lia. done. }
  assert (Q : request = head ++ crlf ++ crlf -> forall i, (i < length head)%nat ->
    is_prefix (crlf ++ crlf) (drop i (request ++ rest)) = is_prefix (crlf ++ crlf) (drop i request)).
  { intros -> i Hi. rewrite drop_app_le by (rewrite length_app; lia). apply P.
    rewrite length_drop, !length_app. lia. }
  split; intros [S F].
  - assert (S' : request = head ++ crlf ++ crlf).
    { apply (app_inv_tail rest). by rewrite S, <-!app_assoc. }
    constructor; [by rewrite app_nil_r|]. intros i Hi. rewrite <-Q by done. by apply F.
  - rewrite app_nil_r in S. constructor; [by rewrite S, <-!app_assoc|]. intros i Hi. rewrite Q by done. by apply F.
Qed.

(** The bytes fix where the request ends. *)
Lemma upgrade_unique q w q' w' : upgrade q -> upgrade q' -> q ++ w = q' ++ w' -> q = q' /\ w = w'.
Proof.
  intros (head & ? & ? & H & _) (head' & ? & ? & H' & _) E.
  apply (proj2 (head_of_app q head w)) in H. apply (proj2 (head_of_app q' head' w')) in H'.
  rewrite <-E in H'. destruct (head_of_unique _ _ _ _ _ H H') as [_ ->].
  by apply app_inv_tail in E.
Qed.

(** [whole]: no complete message is left undecoded. *)
Definition raw_account (whole : bool) (c : ClientSession) (rx : list byte) (ms : list (list byte)) : Prop :=
  Forall (valid_message max) ms /\
  exists rest, rx = concat (map frame ms) ++ rest /\
    (receiving c -> Framing.pending (raw_decoder c) = rest /\
      Framing.limit_exceeded_ (raw_decoder c) = false /\
      Framing.max_message_bytes_ (raw_decoder c) = max /\
      (whole = true -> exists m, next_spec max rest = (Framing.NeedMoreData, m, rest))).

Definition ws_account (whole : bool) (c : ClientSession) (rx : list byte) (ms : list (list byte)) : Prop :=
  exists request kfs evs fr rest,
    upgrade request /\ Forall (wire_frame true max) kfs /\
    rx = request ++ concat (map (fun kf => encode_frame kf.1 kf.2) kfs) ++ rest /\
    assembles max None (map snd kfs) = Some (evs, fr) /\ ms = messages evs /\
    (receiving c -> pending (websocket_decoder c) = rest /\ fragment (websocket_decoder c) = fr /\
      limit_exceeded_ (websocket_decoder c) = false /\
      max_message_bytes_ (websocket_decoder c) = max /\
      require_masking_ (websocket_decoder c) = true /\
      (whole = true -> exists e,
        read_frame true max (size_of rest) rest = FrameReturn WebSocketDecoder.NeedMoreData e)).

Definition account (whole : bool) (c : ClientSession) (rx : list byte) (ms : list (list byte)) : Prop :=
  match transport c with
  | Detecting => ms = [] /\ (disconnect_started c = false -> detection_buffer c = rx /\
      raw_decoder c = Framing.construct max (max_session_inbound_bytes config) /\
      websocket_decoder c = WebSocketDecoder.construct max (max_session_inbound_bytes config) true)
  | RawTcp => raw_account whole c rx ms
  | WebSocket => ws_account whole c rx ms
  end.

Lemma receiving_kept c c' : kept c c' -> receiving c' -> receiving c.
Proof.
  intros [_ _ _ _ Tr G O] [D S]. split; [|rewrite <-Tr; auto].
  destruct (disconnect_started c); [by rewrite G in D|done].
Qed.

Lemma account_kept whole c c' rx ms : kept c c' -> account whole c rx ms -> account whole c' rx ms.
Proof.
  intros K. pose proof (receiving_kept c c' K) as Rc. pose proof K as [_ Er Ew Ed Tr G _].
  unfold account. rewrite Tr. destruct (transport c).
  - intros [-> A]. split; [done|]. rewrite Er, Ew, Ed. intros D. apply A.
    destruct (disconnect_started c); [by rewrite G in D|done].
  - intros (F & rest & E & A). split; [done|]. exists rest. split; [done|]. rewrite Er. auto.
  - intros (q & kfs & evs & fr & rest & U & F & E & As & M & A).
    exists q, kfs, evs, fr, rest. rewrite Ew. auto 10.
Qed.

(** Nothing is delivered any more. *)
Lemma account_gone whole c c' rx bytes ms :
  transport c' = transport c -> ~ receiving c' -> account whole c rx ms ->
  account true c' (rx ++ bytes) ms.
Proof.
  intros Tr N. unfold account. rewrite Tr. destruct (transport c) eqn:E.
  - intros [-> _]. split; [done|]. intros D. destruct N. split; [done|]. congruence.
  - intros (F & rest & -> & _). split; [done|]. exists (rest ++ bytes). by rewrite <-app_assoc.
  - intros (q & kfs & evs & fr & rest & U & F & -> & As & M & _).
    exists q, kfs, evs, fr, (rest ++ bytes). rewrite <-!app_assoc. split_and!; try done.
Qed.

Lemma account_weaken c rx ms : account true c rx ms -> account false c rx ms.
Proof.
  unfold account. destruct (transport c); [done|..].
  - intros (F & rest & E & A). split; [done|]. exists rest. split; [done|].
    intros R. destruct (A R) as (? & ? & ? & _). split_and!; done.
  - intros (q & kfs & evs & fr & rest & U & F & E & As & M & A).
    exists q, kfs, evs, fr, rest. split_and!; try done.
    all: intros R; destruct (A R) as (? & ? & ? & ? & ? & _); split_and!; done.
Qed.

(** The decoder takes an event, or waits. *)
Lemma ws_account_next c rx ms d o whole c' :
  ws_account false c rx ms -> receiving c ->
  next_rel (require_masking_ (websocket_decoder c)) (max_message_bytes_ (websocket_decoder c))
    (pending (websocket_decoder c)) (fragment (websocket_decoder c)) o (pending d) (fragment d) ->
  same_config (websocket_decoder c) d -> limit_exceeded_ d = false ->
  (forall st, o = WebSocketDecoder.Stop st -> st = WebSocketDecoder.NeedMoreData) ->
  (receiving c' -> websocket_decoder c' = d /\ (whole = true -> exists st, o = WebSocketDecoder.Stop st)) ->
  ws_account whole c' rx (ms ++ match o with Event ev => messages [ev] | _ => [] end).
Proof.
  intros (q & kfs & evs & fr & rest & U & F & -> & As & -> & A) R N [S1 _ S3] L Ho H'.
  destruct (A R) as (Ep & Ef & _ & Em & Ek & _). rewrite Ep, Ef, Em, Ek in *.
  destruct (next_rel_frames _ _ _ _ _ _ _ N Ho) as (kfs2 & F2 & -> & As2).
  exists q, (kfs ++ kfs2), (evs ++ match o with Event ev => [ev] | _ => [] end), (fragment d), (pending d).
  split_and!; [done|by apply Forall_app| | | |].
  - by rewrite map_app, concat_app, <-!app_assoc.
  - rewrite map_app. by eapply assembles_app.
  - rewrite messages_app. destruct o; done.
  - intros R'. destruct (H' R') as [-> Hw]. split_and!; try congruence. intros Ew.
    destruct (Hw Ew) as [st ->]. rewrite (Ho st eq_refl) in N. by eapply next_rel_incomplete.
Qed.
End account.

Section delivery.
Context {St T : Type} `{App : Application St} `{Tab : SessionTable SessionHandle T (fun h => h)}.
Context (config : ServerConfig) (os : nat -> bool) (clock : nat -> Z) (Hc : config_ok config).
#[local] Abbreviation Server := (Server (St * log) T).
#[local] Abbreviation Inv := (Inv config).
#[local] Abbreviation account := (account config).
#[local] Abbreviation messages_of sid s := (delivered sid (app s).2).

Definition log_of (st : St * log) : log := st.2.

(** Every session is accounted for, session [x] up to what is undecoded. *)
Record tracked (x : option Z) (rx : Z -> list byte) (s : Server) : Prop := {
  tk_known : forall sid c, heap s !! sid = Some c ->
    account (bool_decide (x <> Some sid)) c (rx sid) (messages_of sid s);
  tk_unknown : forall sid, heap s !! sid = None -> rx sid = [] /\ messages_of sid s = [];
}.

(** The other sessions only move on. *)
Record around (sid : Z) (s s' : Server) : Prop := {
  ar_kept : forall k c, k <> sid -> heap s !! k = Some c ->
    exists c', heap s' !! k = Some c' /\ kept c c';
  ar_none : forall k, k <> sid -> heap s !! k = None -> heap s' !! k = None;
  ar_log : forall k, k <> sid -> messages_of k s' = messages_of k s;
}.

#[export] Instance around_preorder sid : PreOrder (around sid).
Proof.
  split.
  - intros s. constructor; [|done..]. intros k c _ H. by exists c.
  - intros a b c [K1 N1 L1] [K2 N2 L2]. constructor; [|auto|].
    + intros k x Hk H. destruct (K1 k x Hk H) as (y & Hy & E1). destruct (K2 k y Hk Hy) as (z & Hz & E2).
      exists z. split; [done|]. by transitivity y.
    + intros k Hk. rewrite L2, L1 by done. done.
Qed.

Lemma around_others sid (s s' : Server) :
  others sid s s' -> (app s').2 = (app s).2 -> around sid s s'.
Proof.
  intros O A. constructor.
  - intros k c Hk H. exists c. destruct (O k Hk) as [-> _]. done.
  - intros k Hk H. destruct (O k Hk) as [-> _]. done.
  - intros k Hk. by rewrite A.
Qed.

Lemma around_evolves sid (s s' : Server) :
  evolves s s' -> (forall k, k <> sid -> messages_of k s' = messages_of k s) -> around sid s s'.
Proof.
  intros [F E] L. constructor; [|intros k _; apply (fw_new _ _ F)|done]. intros k c _. apply E.
Qed.

(** Every session moves on, none appears, and nothing is delivered. *)
Record carries (s s' : Server) : Prop := {
  ca_kept : forall sid c, heap s !! sid = Some c -> exists c', heap s' !! sid = Some c' /\ kept c c';
  ca_none : forall sid, heap s !! sid = None -> heap s' !! sid = None;
  ca_log : (app s').2 = (app s).2;
}.

#[export] Instance carries_preorder : PreOrder carries.
Proof.
  split.
  - intros s. constructor; [|done..]. intros k c H. by exists c.
  - intros a b c [K1 N1 L1] [K2 N2 L2]. constructor; [|auto|congruence].
    intros k x H. destruct (K1 k x H) as (y & Hy & E1). destruct (K2 k y Hy) as (z & Hz & E2).
    exists z. split; [done|]. by transitivity y.
Qed.

Lemma carries_evolves (s s' : Server) : evolves s s' -> (app s').2 = (app s).2 -> carries s s'.
Proof. intros [F E] L. constructor; [exact E|apply (fw_new _ _ F)|done]. Qed.

Lemma carries_same (s s' : Server) : heap s' = heap s -> (app s').2 = (app s).2 -> carries s s'.
Proof. intros E L. constructor; rewrite ?E; try done. intros sid c H. by exists c. Qed.

Lemma tracked_carries x rx (s s' : Server) : tracked x rx s -> carries s s' -> tracked x rx s'.
Proof.
  intros [K N] [E F A]. constructor.
  - intros sid c' H'. rewrite A. destruct (heap s !! sid) as [c|] eqn:H.
    + destruct (E sid c H) as (c2 & H2 & Kp). simplify_eq. eapply account_kept; [done|]. by apply K.
    + apply F in H. congruence.
  - intros sid H'. rewrite A. apply N. destruct (heap s !! sid) as [c|] eqn:H; [|done].
    destruct (E sid c H) as (c2 & H2 & _). congruence.
Qed.

Lemma tracked_evolves x rx (s s' : Server) :
  tracked x rx s -> evolves s s' -> (app s').2 = (app s).2 -> tracked x rx s'.
Proof. intros Tk E L. eapply tracked_carries; [exact Tk|by apply carries_evolves]. Qed.

Lemma tracked_around x rx rx' whole (s s' : Server) sid c' :
  tracked x rx s -> (forall k, x = Some k -> k = sid) -> around sid s s' ->
  (forall k, k <> sid -> rx' k = rx k) -> heap s' !! sid = Some c' ->
  account whole c' (rx' sid) (messages_of sid s') ->
  tracked (if whole then None else Some sid) rx' s'.
Proof.
  intros [K N] Hx [AK AN AL] Hrx H' A. constructor.
  - intros k c Hk. destruct (decide (k = sid)) as [->|Hne].
    + simplify_eq. assert (bool_decide ((if whole then None else Some sid) <> Some sid) = whole) as ->; [|done].
      destruct whole; [by apply bool_decide_true|apply bool_decide_false; tauto].
    + rewrite bool_decide_true by (destruct whole; congruence). rewrite Hrx, AL by done.
      destruct (heap s !! k) as [c0|] eqn:H0.
      * destruct (AK k c0 Hne H0) as (c1 & H1 & Kp). simplify_eq. eapply account_kept; [done|].
        pose proof (K k c0 H0) as A0. rewrite bool_decide_true in A0; [done|].
        intros E. by apply Hx in E.
      * apply AN in H0; [congruence|done].
  - intros k Hk. destruct (decide (k = sid)) as [->|Hne]; [congruence|].
    rewrite Hrx, AL by done. apply N. destruct (heap s !! k) as [c0|] eqn:H0; [|done].
    destruct (AK k c0 Hne H0) as (c1 & H1 & _). congruence.
Qed.

Lemma tracked_here whole rx (s s' : Server) sid c' :
  tracked (Some sid) rx s -> around sid s s' -> heap s' !! sid = Some c' ->
  account whole c' (rx sid) (messages_of sid s') ->
  tracked (if whole then None else Some sid) rx s'.
Proof. intros Tk Ar H A. eapply tracked_around; try done. by intros k [= ->]. Qed.

Lemma tracked_ext x rx rx' (s : Server) :
  (forall k, rx' k = rx k) -> tracked x rx s -> tracked x rx' s.
Proof. intros E [K N]. constructor; intros; rewrite E; auto. Qed.

Lemma tracked_none rx (s : Server) sid : tracked (Some sid) rx s -> heap s !! sid = None -> tracked None rx s.
Proof.
  intros [K N] H. constructor; [|done]. intros k c Hk. pose proof (K k c Hk) as A.
  rewrite bool_decide_true in A by congruence. by rewrite bool_decide_true.
Qed.

Lemma tracked_account x rx (s : Server) sid c :
  tracked x rx s -> heap s !! sid = Some c -> account false c (rx sid) (messages_of sid s).
Proof.
  intros [K _] H. pose proof (K sid c H) as A. case_bool_decide; [by apply account_weaken|done].
Qed.

(** The session stops receiving: its bytes no longer matter. *)
Lemma tracked_gone x rx bytes (s s' : Server) sid c c' :
  tracked x rx s -> (forall k, x = Some k -> k = sid) -> around sid s s' ->
  heap s !! sid = Some c -> heap s' !! sid = Some c' -> transport c' = transport c ->
  ~ receiving c' -> messages_of sid s' = messages_of sid s ->
  tracked None (arrived sid bytes rx) s'.
Proof.
  intros Tk Hx Ar H H' Tr N M.
  eapply (tracked_around x rx (arrived sid bytes rx) true s s' sid c'); try done.
  - intros k Hk. unfold arrived. by rewrite decide_False.
  - unfold arrived. case_decide; [|done]. rewrite M. eapply account_gone; [done..|].
    by eapply tracked_account.
Qed.

(** ** Delivery stops where a connection is closed *)

#[local] Abbreviation same_log := (fun (_ : SessionHandle) (_ : St * log) => eq_refl).

Lemma Disconnect_carries sid (s : Server) : carries s (Disconnect config sid s).
Proof.
  apply carries_evolves; [apply Disconnect_evolves|]. exact (Disconnect_view config log_of same_log sid s).
Qed.

Lemma Disconnect_stops sid (s : Server) c' :
  heap (Disconnect config sid s) !! sid = Some c' -> ~ receiving c'.
Proof. intros H [D _]. by rewrite (Disconnect_started config sid s c' H) in D. Qed.

Lemma evolves_kept (s s' : Server) sid c c' :
  evolves s s' -> heap s !! sid = Some c -> heap s' !! sid = Some c' -> kept c c'.
Proof. intros E H H'. destruct (ev_sessions _ _ E sid c H) as (c2 & H2 & K). by simplify_eq. Qed.

Lemma SendControl_stops sid op payload (s : Server) c c' :
  heap s !! sid = Some c -> transport c = WebSocket ->
  heap (SendControl config os clock sid op payload true s) !! sid = Some c' -> ~ receiving c'.
Proof.
  intros H Tr H'. pose proof (SendControl_evolves config os clock sid op payload true s) as E.
  pose proof (evolves_kept _ _ sid c c' E H H') as K. intros [D O].
  rewrite (kp_transport _ _ K) in O. specialize (O Tr). revert H'. unfold SendControl. rewrite H.
  destruct (bool_decide (state c = Closed) || bool_decide (state c = Closing)) eqn:B.
  { intros H'. simplify_eq. rewrite O in B. done. }
  unfold MonotonicMilliseconds. set (item := mkItem _ _ _). set (s1 := put sid _ _).
  assert (H1 : heap s1 !! sid = Some (set_close_started_ms (clock (ticks s)) (set_state Closing c)))
    by apply lookup_insert_eq.
  pose proof (Enqueue_evolves config os sid item s1) as E1.
  destruct (Enqueue config os sid item s1) as [queued s2]. simpl in E1.
  destruct queued; cbn [negb]; intros H'.
  - by pose proof (kp_open _ _ (evolves_kept _ _ sid _ _ E1 H1 H') O).
  - by destruct (Disconnect_stops sid s2 c' H').
Qed.

Lemma Close_stops sid code reason (s : Server) c c' :
  Inv None s -> heap s !! sid = Some c ->
  heap (Close config os clock (handle c) code reason s) !! sid = Some c' -> ~ receiving c'.
Proof.
  intros I H H'. pose proof (so_id _ _ _ _ _ (inv_sessions _ _ _ I sid c H)) as Hid.
  destruct (inv_registry _ _ _ I) as (m & RP & Rm & _).
  revert H'. unfold Close. rewrite (represents_find _ _ (handle c) RP), Hid.
  destruct (m !! sid) as [h|] eqn:Em.
  - pose proof Em as (c2 & H2 & Eh & D)%Rm. assert (c2 = c) as -> by congruence.
    subst h. rewrite Z.eqb_refl, Hid, H. split_if; [apply Disconnect_stops|]. by apply SendControl_stops with c.
  - intros H' [D O]. assert (X : m !! sid = Some (handle c')) by (apply Rm; by exists c'). congruence.
Qed.

(** A message is given to the handler, or the connection is closed. *)
Lemma DeliverMessage_log sid message (s : Server) c :
  Inv None s -> heap s !! sid = Some c ->
  let '(ok, s') := DeliverMessage config os clock sid message s in
  ((app s').2 = (app s).2 ++ [(handle c, message)] \/ ok = false /\ (app s').2 = (app s).2) /\
  (ok = false -> forall c', heap s' !! sid = Some c' -> ~ receiving c').
Proof.
  intros I H. rewrite (DeliverMessage_eq config os clock sid message s c H). cbv zeta.
  destruct (rate_step_neutral (clock (ticks s)) c) as [N K]. set (s1 := put sid _ _) in *.
  assert (I1 : Inv None s1) by (eapply Inv_put; [by eapply Inv_frame|exact H|done]).
  assert (H1 : heap s1 !! sid = Some (rate_step (clock (ticks s)) c)) by apply lookup_insert_eq.
  split_if.
  { split; [right; split; [done|exact (Close_view config os clock log_of same_log _ _ _ s1)]|].
    intros _ c'. rewrite <-(kp_handle _ _ K). by apply Close_stops. }
  destruct (logged_message (clock (ticks s1)) (handle c) message (app s1)) as (callback & -> & L).
  destruct (callback _ _ _ _) as [[disposition out] app']. cbn [snd] in L. set (s2 := set_app _ _). set (s3 := send_all config os out s2) in *.
  assert (L3 : (app s3).2 = (app s).2 ++ [(handle c, message)])
    by exact (eq_trans (send_all_view config os log_of same_log out s2) L).
  split_if; [by split; [left|]|]. set (s4 := RecordMalformed sid s3) in *.
  split_if; [|by split; [left|]].
  split; [left; rewrite <-L3; exact (Close_view config os clock log_of same_log _ _ _ s4)|].
  assert (I2 : Inv None s2) by (by eapply (Inv_frame _ _ s1)).
  pose proof (send_all_Inv config os Hc out s2 I2) as I3. pose proof (RecordMalformed_Inv config sid s3 I3) as I4.
  intros _ c' Hc'. destruct (heap s4 !! sid) as [c4|] eqn:H4.
  - assert (E4 : evolves s2 s4) by (transitivity s3; [apply send_all_evolves|apply RecordMalformed_evolves]).
    pose proof (kp_handle _ _ (evolves_kept _ _ sid _ _ E4 H1 H4)) as Eh.
    rewrite (kp_handle _ _ K) in Eh. rewrite <-Eh in Hc'. by eapply Close_stops.
  - assert (E4 : evolves s2 s4) by (transitivity s3; [apply send_all_evolves|apply RecordMalformed_evolves]).
    destruct (ev_sessions _ _ E4 sid _ H1) as (? & ? & _). congruence.
Qed.

(** ** The receive loops *)

Lemma around_put sid c (s : Server) : around sid s (put sid c s).
Proof. apply around_others; [by apply others_put with c|done]. Qed.

Lemma around_modify sid f (s : Server) : around sid s (modify sid f s).
Proof. apply around_others; [apply others_modify|done]. Qed.

Lemma around_calm sid (s s' : Server) : evolves s s' -> (app s').2 = (app s).2 -> around sid s s'.
Proof. intros E L. apply around_evolves; [done|]. intros k _. by rewrite L. Qed.

(** One message logged for one session. *)
Lemma logged_at (s s' : Server) sid h m :
  (app s').2 = (app s).2 ++ [(h, m)] -> id h = sid ->
  messages_of sid s' = messages_of sid s ++ [m] /\
  forall k, k <> sid -> messages_of k s' = messages_of k s.
Proof.
  intros -> <-. rewrite delivered_snoc, decide_True by done. split; [done|].
  intros k Hk. rewrite delivered_snoc, decide_False by congruence. apply app_nil_r.
Qed.

(** What [DeliverMessage] does to the session, the others and the log. *)
Lemma deliver_around sid message (s : Server) c :
  Inv None s -> heap s !! sid = Some c ->
  let '(ok, s') := DeliverMessage config os clock sid message s in
  Inv None s' /\ evolves s s' /\ around sid s s' /\
  exists c', heap s' !! sid = Some c' /\ kept c c' /\ (ok = false -> ~ receiving c') /\
    (messages_of sid s' = messages_of sid s ++ [message] \/
     ~ receiving c' /\ ok = false /\ messages_of sid s' = messages_of sid s).
Proof.
  intros I H. pose proof (DeliverMessage_ok config os clock Hc sid message s I) as [I' E].
  pose proof (DeliverMessage_log sid message s c I H) as L.
  pose proof (so_id _ _ _ _ _ (inv_sessions _ _ _ I sid c H)) as Hid.
  destruct (DeliverMessage config os clock sid message s) as [ok s']. cbn [snd] in *.
  destruct L as [L N]. destruct (ev_sessions _ _ E sid c H) as (c' & H' & K).
  split_and!; [done..| |].
  - destruct L as [L|[_ L]]; [|by apply around_calm].
    apply around_evolves; [done|]. by apply (logged_at s s' sid _ _ L Hid).
  - exists c'. split_and!; [done..|by intros ?; apply N|].
    destruct L as [L|[-> L]]; [left; by apply (logged_at s s' sid _ _ L Hid)|right].
    split_and!; [by apply N|done|by rewrite L].
Qed.

Lemma arrived_nil sid rx k : rx k = arrived sid [] rx k.
Proof. unfold arrived. case_decide; [by rewrite app_nil_r|done]. Qed.

(** The session stops in the middle of its handler. *)
Lemma tracked_stop rx (s s' : Server) sid c c' :
  tracked (Some sid) rx s -> around sid s s' -> heap s !! sid = Some c -> heap s' !! sid = Some c' ->
  transport c' = transport c -> ~ receiving c' -> messages_of sid s' = messages_of sid s ->
  tracked None rx s'.
Proof.
  intros Tk Ar H H' Tr N M. eapply tracked_ext; [apply (arrived_nil sid)|].
  eapply tracked_gone; try done. by intros k [= ->].
Qed.

Lemma raw_loop_tracked fuel rx sid (s : Server) ended s' :
  Inv None s -> tracked (Some sid) rx s ->
  (forall c, heap s !! sid = Some c -> transport c = RawTcp) ->
  raw_loop config os clock fuel sid s = Some (ended, s') -> tracked None rx s'.
Proof.
  revert s. induction fuel as [|fuel IH]; intros s I Tk Tr E; [done|]. simpl in E.
  destruct (heap s !! sid) as [c|] eqn:H; [|simplify_eq; by eapply tracked_none].
  specialize (Tr c eq_refl). pose proof (tracked_account _ _ _ _ _ Tk H) as A.
  destruct (disconnect_started c) eqn:D.
  { simplify_eq. eapply tracked_stop; try done. intros [D' _]. congruence. }
  pose proof (inv_sessions _ _ _ I sid c H) as SO. unfold account in A. rewrite Tr in A.
  destruct A as (F & rest & Erx & (Ep & L & Em & _)); [by split; [|rewrite Tr]|].
  pose proof (Next_spec _ (so_raw _ _ _ _ _ SO) L) as N.
  destruct (Framing.Next (raw_decoder c)) as [[st m] d]. destruct N as (N & W & [Em' _] & L').
  rewrite Em, Ep in N. rewrite Em in Em'.
  set (c1 := set_raw_decoder d c) in *. set (s1 := put sid c1 s) in *.
  assert (H1 : heap s1 !! sid = Some c1) by apply lookup_insert_eq.
  pose proof (set_raw_fine config s sid c d I H W) as [I1 _]. fold c1 s1 in I1.
  assert (Ar : around sid s s1) by apply around_put.
  assert (B : (Some (false, Disconnect config sid (RecordMalformed sid s1)) : option (bool * Server)) =
    Some (ended, s') -> tracked None rx s').
  { intros [= <- <-]. set (s2 := Disconnect _ _ _).
    assert (E2 : evolves s1 s2).
    { transitivity (RecordMalformed sid s1); [apply RecordMalformed_evolves|apply Disconnect_evolves]. }
    assert (L2 : (app s2).2 = (app s1).2)
      by exact (Disconnect_view config log_of same_log sid (RecordMalformed sid s1)).
    destruct (ev_sessions _ _ E2 sid c1 H1) as (c2 & H2 & K).
    eapply (tracked_stop rx s s2 sid c c2); [done| |done..| | |by rewrite L2].
    - etransitivity; [exact Ar|by apply around_calm].
    - by rewrite (kp_transport _ _ K).
    - by eapply Disconnect_stops. }
  destruct st; [|clear B|by apply B..].
  - injection E as <- <-. apply (tracked_here true rx s s1 sid c1); try done.
    unfold account. change (transport c1) with (transport c). rewrite Tr. split; [done|].
    exists rest. split; [done|]. intros _. change (raw_decoder c1) with d.
    pose proof (next_spec_stop_rest _ _ _ _ _ N ltac:(done)) as Er.
    split_and!; [done..|]. intros _. rewrite Er in N. by exists m.
  - apply next_spec_ready in N as [Er V]. pose proof (deliver_around sid m s1 c1 I1 H1) as Dl.
    destruct (DeliverMessage config os clock sid m s1) as [ok s2].
    destruct Dl as (I2 & E2 & Ar2 & c2 & H2 & K & N2 & L2).
    assert (Tr2 : transport c2 = RawTcp) by (rewrite (kp_transport _ _ K); exact Tr).
    assert (Ar' : around sid s s2) by (etransitivity; [exact Ar|exact Ar2]).
    assert (A2 : forall whole, (whole = true -> ok = false) ->
      account whole c2 (rx sid) (messages_of sid s2)).
    { intros whole Hw. unfold account. rewrite Tr2. destruct L2 as [L2|(Nr & _ & L2)].
      - rewrite L2. split; [by apply Forall_app; split; [|apply Forall_singleton]|].
        exists (Framing.pending d). rewrite Erx, Er, map_app, concat_app. simpl.
        rewrite app_nil_r, <-app_assoc. split; [done|]. intros R. rewrite (kp_raw _ _ K).
        split_and!; [done..|]. intros Hw'. by destruct (N2 (Hw Hw')).
      - rewrite L2. split; [done|]. exists rest. by split. }
    destruct ok; cbn [negb] in E.
    + eapply IH; [exact I2| | |exact E]; [|intros y Hy; congruence].
      apply (tracked_here false rx s s2 sid c2); try done.
      by apply A2.
    + injection E as <- <-. apply (tracked_here true rx s s2 sid c2); try done.
      by apply A2.
Qed.

Lemma UpdateInboundAccounting_calm sid b (s : Server) :
  evolves s (UpdateInboundAccounting config sid b s) /\
  (app (UpdateInboundAccounting config sid b s)).2 = (app s).2.
Proof.
  split; [apply UpdateInboundAccounting_evolves|].
  exact (UpdateInboundAccounting_view config log_of same_log sid b s).
Qed.

Lemma ProcessRaw_tracked rx bytes sid (s : Server) c s' :
  Inv None s -> tracked None rx s -> heap s !! sid = Some c -> transport c = RawTcp ->
  ProcessRaw config os clock sid bytes s = Some s' -> tracked None (arrived sid bytes rx) s'.
Proof.
  intros I Tk H Tr. unfold ProcessRaw. rewrite H.
  pose proof (inv_sessions _ _ _ I sid c H) as SO. pose proof (tk_known _ _ _ Tk sid c H) as A.
  rewrite bool_decide_true in A by done. unfold account in A. rewrite Tr in A.
  pose proof (Append_spec _ bytes (so_raw _ _ _ _ _ SO)) as Ap.
  destruct (Framing.Append bytes (raw_decoder c)) as [ok d]. destruct Ap as (W & [C1 _] & Ap).
  set (c1 := set_raw_decoder d c). set (s1 := put sid c1 s).
  pose proof (set_raw_fine config s sid c d I H W) as [I1 _]. fold c1 s1 in I1.
  assert (H1 : heap s1 !! sid = Some c1) by apply lookup_insert_eq.
  assert (Ar1 : around sid s s1) by apply around_put.
  destruct ok; cbn [negb].
  2: { intros [= <-]. set (s2 := Disconnect _ _ _).
    destruct (ev_sessions _ _ (Disconnect_evolves config sid s1) sid c1 H1) as (c2 & H2 & K).
    assert (L2 : (app s2).2 = (app s1).2) by exact (Disconnect_view config log_of same_log sid s1).
    eapply (tracked_gone None rx bytes s s2 sid c c2); [done..| |done|done| | |by rewrite L2].
    - etransitivity; [exact Ar1|]. apply around_calm; [apply Disconnect_evolves|done].
    - by rewrite (kp_transport _ _ K).
    - by eapply Disconnect_stops. }
  destruct (UpdateInboundAccounting_calm sid (buffered_raw sid s1) s1) as [E2 L2].
  pose proof (UpdateInboundAccounting_fine config Hc sid _ s1 I1 (proj1 (buffered_u64 sid s1))) as [I2 _].
  set (s2 := UpdateInboundAccounting config sid (buffered_raw sid s1) s1) in *.
  destruct (ev_sessions _ _ E2 sid c1 H1) as (c2 & H2 & K).
  assert (Tr2 : transport c2 = RawTcp) by (rewrite (kp_transport _ _ K); exact Tr).
  assert (Tk2 : tracked (Some sid) (arrived sid bytes rx) s2).
  { apply (tracked_around None rx _ false s s2 sid c2); try done.
    - etransitivity; [exact Ar1|by apply around_calm].
    - intros k Hk. unfold arrived. by rewrite decide_False.
    - rewrite L2. unfold arrived. rewrite decide_True by done. unfold account. rewrite Tr2.
      destruct A as (F & rest & -> & A). split; [done|]. exists (rest ++ bytes).
      rewrite <-app_assoc. split; [done|]. intros R. rewrite (kp_raw _ _ K). change (raw_decoder c1) with d.
      destruct (A (receiving_kept c1 c2 K R)) as (Ep & L & Em & _). destruct Ap as (_ & P & L').
      rewrite P, Ep, L', <-C1. done. }
  destruct (raw_loop _ _ _ _ _ _) as [[ended s3]|] eqn:E; [|done]. cbn [mbind option_bind].
  assert (Tk3 : tracked None (arrived sid bytes rx) s3)
    by (eapply raw_loop_tracked; [exact I2|exact Tk2| |exact E]; congruence).
  destruct ended; intros [= <-]; [|done].
  destruct (UpdateInboundAccounting_calm sid (buffered_raw sid s3) s3). by eapply tracked_evolves.
Qed.

(** The session is closed behind the last event. *)
Lemma tracked_end rx (s s1 s2 : Server) sid c c1 :
  tracked (Some sid) rx s -> heap s !! sid = Some c -> around sid s s1 -> heap s1 !! sid = Some c1 ->
  transport c1 = transport c -> messages_of sid s1 = messages_of sid s ->
  evolves s1 s2 -> (app s2).2 = (app s1).2 ->
  (forall c2, heap s2 !! sid = Some c2 -> ~ receiving c2) -> tracked None rx s2.
Proof.
  intros Tk H Ar H1 Tr M E L N. destruct (ev_sessions _ _ E sid c1 H1) as (c2 & H2 & K).
  eapply (tracked_stop rx s s2 sid c c2); [done| |done..| |by apply N|by rewrite L].
  - etransitivity; [exact Ar|by apply around_calm].
  - by rewrite (kp_transport _ _ K).
Qed.

(** The decoder took the event [ev]; [loop] is the rest of the loop. *)
Lemma ws_event_tracked rx sid (s : Server) c d ev (loop : Server -> option (bool * Server)) ended s' :
  let s1 := put sid (set_websocket_decoder d c) s in
  tracked (Some sid) rx s -> heap s !! sid = Some c -> transport c = WebSocket -> Inv None s1 ->
  event_ok (max_message_bytes_ (websocket_decoder c)) ev ->
  (forall whole c', (receiving c' -> websocket_decoder c' = d /\ whole = false) ->
    ws_account config whole c' (rx sid) (messages_of sid s ++ messages [ev])) ->
  (forall s2, Inv None s2 -> tracked (Some sid) rx s2 ->
    (forall c2, heap s2 !! sid = Some c2 -> transport c2 = WebSocket) ->
    loop s2 = Some (ended, s') -> tracked None rx s') ->
  match ev_type ev with
  | BinaryMessage =>
      let '(ok, s) := DeliverMessage config os clock sid (ev_payload ev) s1 in
      if negb ok then Some (false, s) else loop s
  | PingEvent => loop (SendControl config os clock sid Pong (ev_payload ev) false s1)
  | PongEvent =>
      let '(now, s) := MonotonicMilliseconds clock s1 in
      loop (modify sid (fun c => set_last_pong_ms now (set_awaiting_pong false c)) s)
  | CloseEvent => Some (false, SendControl config os clock sid WebSocketDecoder.Close (ev_payload ev) true s1)
  end = Some (ended, s') -> tracked None rx s'.
Proof.
  intros s1 Tk H Tr I1 Eok X Hl. set (c1 := set_websocket_decoder d c) in *.
  assert (H1 : heap s1 !! sid = Some c1) by apply lookup_insert_eq.
  assert (Ar : around sid s s1) by apply around_put.
  assert (G : forall s2, Inv None s2 -> evolves s1 s2 -> around sid s1 s2 ->
    messages_of sid s2 = messages_of sid s ++ messages [ev] ->
    loop s2 = Some (ended, s') -> tracked None rx s').
  { intros s2 I2 E2 Ar2 L2. destruct (ev_sessions _ _ E2 sid c1 H1) as (c2 & H2 & K).
    assert (Tr2 : transport c2 = WebSocket) by (rewrite (kp_transport _ _ K); exact Tr).
    apply Hl; [exact I2| |intros y Hy; congruence].
    apply (tracked_here false rx s s2 sid c2); [done|by transitivity s1|done|].
    unfold account. rewrite Tr2, L2. apply X. intros _. by rewrite (kp_ws _ _ K). }
  pose proof (event_control_size _ _ Eok) as CS. destruct (ev_type ev) eqn:Et.
  - pose proof (deliver_around sid (ev_payload ev) s1 c1 I1 H1) as Dl.
    assert (Em : messages [ev] = [ev_payload ev]) by (unfold messages; simpl; by rewrite Et).
    destruct (DeliverMessage config os clock sid (ev_payload ev) s1) as [ok s2].
    destruct Dl as (I2 & E2 & Ar2 & c2 & H2 & K & N2 & L2). destruct ok; cbn [negb].
    + apply (G s2); try done. rewrite Em. by destruct L2 as [L2|(_ & ? & _)].
    + intros [= <- <-]. assert (Tr2 : transport c2 = WebSocket) by (rewrite (kp_transport _ _ K); exact Tr).
      destruct L2 as [L2|(_ & _ & L2)].
      * apply (tracked_here true rx s s2 sid c2); [done|by transitivity s1|done|].
        change (messages_of sid s1) with (messages_of sid s) in L2.
        unfold account. rewrite Tr2, L2, <-Em. apply X. intros R'. by destruct (N2 eq_refl).
      * eapply (tracked_stop rx s s2 sid c c2); try done; [by transitivity s1|congruence|by apply N2].
  - pose proof (SendControl_view config os clock log_of same_log sid Pong (ev_payload ev) false s1) as L.
    apply G; [apply SendControl_Inv; auto|apply SendControl_evolves| |].
    + by apply around_calm; [apply SendControl_evolves|].
    + unfold messages. simpl. rewrite Et, app_nil_r. by f_equal.
  - unfold MonotonicMilliseconds. set (s2 := set_ticks _ s1).
    set (s3 := modify sid _ s2). assert (E3 : evolves s1 s3).
    { transitivity s2; [by apply evolves_frame|apply evolves_modify; constructor; done]. }
    apply G; [|exact E3|by apply around_calm|].
    + apply Inv_modify; [by eapply Inv_frame|]. constructor; done.
    + unfold messages. simpl. by rewrite Et, app_nil_r.
  - intros [= <- <-]. eapply (tracked_end rx s s1 _ sid c c1); [done..|apply SendControl_evolves| |].
    + exact (SendControl_view config os clock log_of same_log sid _ _ _ s1).
    + intros c2. by apply SendControl_stops with c1.
Qed.

(** The decoder refused: [Close] behind whatever was counted. *)
Lemma ws_refuse_tracked rx sid (s s2 : Server) c c1 code reason :
  tracked (Some sid) rx s -> heap s !! sid = Some c -> transport c1 = transport c -> handle c1 = handle c ->
  evolves (put sid c1 s) s2 -> Inv None s2 -> (app s2).2 = (app s).2 ->
  tracked None rx (Close config os clock (handle c) code reason s2).
Proof.
  intros Tk H Tr Hh E2 I2 L2. set (s1 := put sid c1 s) in *.
  assert (H1 : heap s1 !! sid = Some c1) by apply lookup_insert_eq.
  destruct (ev_sessions _ _ E2 sid c1 H1) as (c2 & H2 & K).
  eapply (tracked_end rx s s1 _ sid c c1); [done|done|apply around_put|done|done|done| | |].
  - transitivity s2; [done|apply Close_evolves].
  - etransitivity; [exact (Close_view config os clock log_of same_log _ _ _ s2)|exact L2].
  - intros c3. rewrite <-Hh, <-(kp_handle _ _ K). by apply Close_stops.
Qed.

Lemma ws_loop_tracked fuel rx sid (s : Server) ended s' :
  Inv None s -> tracked (Some sid) rx s ->
  (forall c, heap s !! sid = Some c -> transport c = WebSocket) ->
  ws_loop config os clock fuel sid s = Some (ended, s') -> tracked None rx s'.
Proof.
  revert s. induction fuel as [|fuel IH]; intros s I Tk Tr E; [done|]. simpl in E.
  destruct (heap s !! sid) as [c|] eqn:H; [|simplify_eq; by eapply tracked_none].
  specialize (Tr c eq_refl). pose proof (tracked_account _ _ _ _ _ Tk H) as A.
  destruct (disconnect_started c || negb (bool_decide (state c = Open))) eqn:D.
  { injection E as <- <-. eapply tracked_stop; try done. intros [D' O].
    rewrite D', (O Tr) in D. by rewrite bool_decide_true in D. }
  apply orb_false_iff in D as [D O]. apply negb_false_iff, bool_decide_eq_true in O.
  assert (R : receiving c) by (by split).
  pose proof (inv_sessions _ _ _ I sid c H) as SO. unfold account in A. rewrite Tr in A.
  assert (L : limit_exceeded_ (websocket_decoder c) = false)
    by (destruct A as (? & ? & ? & ? & ? & _ & _ & _ & _ & _ & A); by apply A).
  destruct (ws_Next_spec _ (so_ws _ _ _ _ _ SO) L) as (st & ev & e & d & EN & N & W & Cf & L').
  destruct (ws_next _ (so_ws _ _ _ _ _ SO)) as (st2 & ev2 & e2 & d2 & EN2 & _ & EV).
  rewrite EN in EN2. injection EN2 as <- <- <- <-. rewrite EN in E. cbn [mbind option_bind] in E.
  pose proof (set_ws_fine config s sid c d I H W) as [I1 _].
  assert (B : forall s2 code, evolves (put sid (set_websocket_decoder d c) s) s2 -> Inv None s2 ->
    (app s2).2 = (app s).2 ->
    Some (false, Close config os clock (handle c) code (bstr e) s2) = Some (ended, s') -> tracked None rx s').
  { intros s2 code E2 I2 L2 [= <- <-].
    by apply (ws_refuse_tracked rx sid s s2 c (set_websocket_decoder d c)). }
  destruct st; [clear B|clear B| |by eapply B..].
  3: { by eapply B; [apply RecordMalformed_evolves|apply RecordMalformed_Inv| |exact E]. }
  - injection E as <- <-. apply (tracked_here true rx s _ sid (set_websocket_decoder d c));
      [done|apply around_put|apply lookup_insert_eq|].
    unfold account. change (transport (set_websocket_decoder d c)) with (transport c). rewrite Tr.
    pose proof (ws_account_next config c _ _ d (WebSocketDecoder.Stop WebSocketDecoder.NeedMoreData) true
      (set_websocket_decoder d c) A R N Cf L') as X. rewrite app_nil_r in X.
    apply X; [by intros ? [= <-]|]. intros _. split; [done|eauto].
  - revert E. apply (ws_event_tracked rx sid s c d ev); [done..|by apply EV| |].
    + intros whole c' Hw. apply (ws_account_next config c _ _ d (Event ev) whole c' A R N Cf L'); [done|].
      intros R'. destruct (Hw R') as [-> ->]. done.
    + intros s2 I2 Tk2 Tr2 E2. by eapply IH.
Qed.

Lemma ProcessWebSocket_tracked rx bytes sid (s : Server) c s' :
  Inv None s -> tracked None rx s -> heap s !! sid = Some c -> transport c = WebSocket ->
  ProcessWebSocket config os clock sid bytes s = Some s' -> tracked None (arrived sid bytes rx) s'.
Proof.
  intros I Tk H Tr. unfold ProcessWebSocket. rewrite H.
  pose proof (inv_sessions _ _ _ I sid c H) as SO. pose proof (tk_known _ _ _ Tk sid c H) as A.
  rewrite bool_decide_true in A by done. unfold account in A. rewrite Tr in A.
  destruct (bool_decide (state c = Closing)) eqn:Cl.
  { intros [= <-]. apply bool_decide_eq_true in Cl.
    eapply (tracked_gone None rx bytes s s sid c c); try done. intros [_ O]. by rewrite O in Cl. }
  pose proof (ws_Append_spec _ bytes (so_ws _ _ _ _ _ SO)) as Ap.
  destruct (Append bytes (websocket_decoder c)) as [ok d]. destruct Ap as (W & [C1 _ C3] & Fr & Ap).
  set (c1 := set_websocket_decoder d c). set (s1 := put sid c1 s).
  pose proof (set_ws_fine config s sid c d I H W) as [I1 _]. fold c1 s1 in I1.
  assert (H1 : heap s1 !! sid = Some c1) by apply lookup_insert_eq.
  assert (Ar1 : around sid s s1) by apply around_put.
  destruct ok; cbn [negb].
  2: { intros [= <-]. change (handle c) with (handle c1). set (s2 := Close _ _ _ _ _ _ s1).
    assert (E2 : evolves s1 s2) by apply Close_evolves.
    destruct (ev_sessions _ _ E2 sid c1 H1) as (c2 & H2 & K).
    assert (L2 : (app s2).2 = (app s1).2) by exact (Close_view config os clock log_of same_log _ _ _ s1).
    eapply (tracked_gone None rx bytes s s2 sid c c2); [done..| |done|done| | |by rewrite L2].
    - etransitivity; [exact Ar1|by apply around_calm].
    - by rewrite (kp_transport _ _ K).
    - by eapply Close_stops. }
  destruct (UpdateInboundAccounting_calm sid (buffered_ws sid s1) s1) as [E2 L2].
  pose proof (UpdateInboundAccounting_fine config Hc sid _ s1 I1 (proj2 (buffered_u64 sid s1))) as [I2 _].
  set (s2 := UpdateInboundAccounting config sid (buffered_ws sid s1) s1) in *.
  destruct (ev_sessions _ _ E2 sid c1 H1) as (c2 & H2 & K).
  assert (Tr2 : transport c2 = WebSocket) by (rewrite (kp_transport _ _ K); exact Tr).
  assert (Tk2 : tracked (Some sid) (arrived sid bytes rx) s2).
  { apply (tracked_around None rx _ false s s2 sid c2); try done.
    - etransitivity; [exact Ar1|by apply around_calm].
    - intros k Hk. unfold arrived. by rewrite decide_False.
    - rewrite L2. unfold arrived. rewrite decide_True by done. unfold account. rewrite Tr2.
      destruct A as (q & kfs & evs & fr & rest & U & F & -> & As & M & A).
      exists q, kfs, evs, fr, (rest ++ bytes). rewrite <-!app_assoc. split_and!; [done..|].
      intros R. rewrite (kp_ws _ _ K). change (websocket_decoder c1) with d.
      destruct (A (receiving_kept c1 c2 K R)) as (Ep & Ef & L & Em & Ek & _).
      destruct Ap as (_ & P & L'). rewrite P, Ep, L', Fr, <-C1, <-C3. done. }
  destruct (ws_loop _ _ _ _ _ _) as [[ended s3]|] eqn:E; [|done]. cbn [mbind option_bind].
  assert (Tk3 : tracked None (arrived sid bytes rx) s3)
    by (eapply ws_loop_tracked; [exact I2|exact Tk2| |exact E]; congruence).
  destruct ended; intros [= <-]; [|done].
  destruct (UpdateInboundAccounting_calm sid (buffered_ws sid s3) s3). by eapply tracked_evolves.
Qed.

(** ** Detection and the read completion *)

(** The session leaves detection with fresh decoders. *)
Lemma open_around sid t (s : Server) c :
  heap s !! sid = Some c ->
  let s' := UpdateInboundAccounting config sid 0 (modify sid (set_detection_buffer [])
    (modify sid (fun c => set_state Open (set_transport t c)) s)) in
  around sid s s' /\ (app s').2 = (app s).2 /\
  exists c', heap s' !! sid = Some c' /\ transport c' = t /\ raw_decoder c' = raw_decoder c /\
    websocket_decoder c' = websocket_decoder c /\
    (disconnect_started c' = false -> disconnect_started c = false).
Proof.
  intros H. cbv zeta. set (s1 := modify sid (fun c => _) s). set (s2 := modify sid _ s1).
  assert (H2 : heap s2 !! sid = Some (set_detection_buffer [] (set_state Open (set_transport t c)))).
  { unfold s2, s1. simpl. by rewrite !lookup_alter_eq, H. }
  destruct (UpdateInboundAccounting_calm sid 0 s2) as [E3 L3]. set (s3 := UpdateInboundAccounting _ _ _ s2) in *.
  destruct (ev_sessions _ _ E3 sid _ H2) as (c3 & H3 & K). split_and!; [|by rewrite L3|].
  - transitivity s1; [apply around_modify|]. transitivity s2; [apply around_modify|]. by apply around_calm.
  - exists c3. split_and!; [done|by rewrite (kp_transport _ _ K)|by rewrite (kp_raw _ _ K)|
      by rewrite (kp_ws _ _ K)|]. intros D. pose proof (kp_gone _ _ K) as G. simpl in G.
    destruct (disconnect_started c); [by rewrite G in D|done].
Qed.

(** The head of an accepted handshake, and what follows it. *)
Lemma accepted_split buffer r :
  ParseHandshake buffer (max_handshake_bytes config) (origin_validator config) = Some r ->
  status r = Handshake.Accepted ->
  exists request rest, upgrade config request /\ buffer = request ++ rest /\
    (if consumed r <? size_of buffer then zdrop (consumed r) buffer else []) = rest.
Proof.
  intros E S. destruct (ParseHandshake_cases buffer (max_handshake_bytes config) (origin_validator config))
    as (r' & E' & C). simplify_eq.
  destruct C as [(_ & C & _)|[(_ & _ & C & _)|(_ & head & rest & Hh & J)]]; [congruence..|].
  destruct J as [key org K V|key org e K V|resp e K V]; [|done..]. simpl in *.
  assert (B : buffer = (head ++ crlf ++ crlf) ++ rest) by (by rewrite (head_split _ _ _ Hh), <-!app_assoc).
  rewrite B in Hh. apply head_of_app in Hh.
  exists (head ++ crlf ++ crlf), rest. split_and!; [by exists head, key, org|done|].
  assert (Z4 : size_of (head ++ crlf ++ crlf) = size_of head + 4).
  { rewrite !size_app. change (size_of crlf) with 2. lia. }
  rewrite B, size_app, Z4. destruct rest as [|b rest].
  - rewrite Z.add_0_r, Z.ltb_irrefl. done.
  - split_if; [|unfold size_of in *; simpl in *; lia]. by apply zdrop_app_exact.
Qed.

(** Once the transport is chosen, the bytes left go to its decoder. *)
Lemma opened_tracked rx t request ms sid (s : Server) c :
  tracked None rx s -> heap s !! sid = Some c -> transport c = Detecting ->
  (t = RawTcp /\ request = [] \/ t = WebSocket /\ upgrade config request) -> messages_of sid s = ms ->
  let s' := UpdateInboundAccounting config sid 0 (modify sid (set_detection_buffer [])
    (modify sid (fun c => set_state Open (set_transport t c)) s)) in
  tracked None (fun k => if decide (k = sid) then request else rx k) s' /\
  exists c', heap s' !! sid = Some c' /\ transport c' = t.
Proof.
  intros Tk H Tr Ht M s'. destruct (open_around sid t s c H) as (Ar & L & c' & H' & Tr' & Er & Ew & D).
  fold s' in Ar, L, H'. split; [|by exists c'].
  pose proof (tk_known _ _ _ Tk sid c H) as A. unfold account in A. rewrite Tr in A. destruct A as [Em A].
  apply (tracked_around None rx _ true s s' sid c'); try done.
  { intros k Hk. by rewrite decide_False. }
  rewrite decide_True, L, Em by done. unfold account. rewrite Tr'.
  destruct Ht as [[-> ->]|[-> U]].
  - split; [done|]. exists []. split; [done|]. intros [D' _]. destruct (A (D D')) as (_ & E1 & _).
    rewrite Er, E1. split_and!; [done..|]. intros _. by exists [].
  - exists request, [], [], None, []. rewrite app_nil_r. split_and!; [done..|]. intros [D' _].
    destruct (A (D D')) as (_ & _ & E1). rewrite Ew, E1. split_and!; [done..|]. intros _. by eexists.
Qed.

(** The bytes are buffered and counted. *)
Lemma buffered_tracked rx bytes sid (s : Server) c :
  Inv None s -> tracked None rx s -> heap s !! sid = Some c -> transport c = Detecting ->
  disconnect_started c = false -> is_u64 (size_of (detection_buffer c ++ bytes)) ->
  let s2 := UpdateInboundAccounting config sid (size_of (detection_buffer c ++ bytes))
    (put sid (set_detection_buffer (detection_buffer c ++ bytes) c) s) in
  detection_buffer c = rx sid /\ Inv None s2 /\ tracked None (arrived sid bytes rx) s2 /\
  exists c2, heap s2 !! sid = Some c2 /\ transport c2 = Detecting.
Proof.
  intros I Tk H Tr D Hb. cbv zeta. pose proof (tk_known _ _ _ Tk sid c H) as A.
  unfold account in A. rewrite Tr in A. destruct A as [Em A]. destruct (A D) as (Eb & Er & Ew). clear A.
  set (buffer := detection_buffer c ++ bytes) in *. set (c1 := set_detection_buffer buffer c). set (s1 := put sid c1 s).
  assert (H1 : heap s1 !! sid = Some c1) by apply lookup_insert_eq.
  assert (I1 : Inv None s1) by (eapply Inv_put; [done..|constructor; done]).
  destruct (UpdateInboundAccounting_calm sid (size_of buffer) s1) as [E2 L2].
  pose proof (UpdateInboundAccounting_fine config Hc sid _ s1 I1 Hb) as [I2 _].
  set (s2 := UpdateInboundAccounting config sid (size_of buffer) s1) in *.
  destruct (ev_sessions _ _ E2 sid c1 H1) as (c2 & H2 & K).
  assert (Tr2 : transport c2 = Detecting) by (rewrite (kp_transport _ _ K); exact Tr).
  split_and!; [done..| |by exists c2].
  apply (tracked_around None rx _ true s s2 sid c2); try done.
  - transitivity s1; [apply around_put|by apply around_calm].
  - intros k Hk. unfold arrived. by rewrite decide_False.
  - rewrite L2. unfold arrived, account. rewrite decide_True, Tr2 by done. split; [done|]. intros _.
    rewrite (kp_detection _ _ K), (kp_raw _ _ K), (kp_ws _ _ K). simpl. unfold buffer. by rewrite Eb.
Qed.

(** The handshake is answered, and the bytes behind it go to the decoder. *)
Lemma accept_tracked rx sid (s : Server) c r request rest s' :
  Inv None s -> tracked None rx s -> heap s !! sid = Some c -> transport c = Detecting ->
  size_of (response r) <= size_max - 16 -> upgrade config request -> rx sid = request ++ rest ->
  (let s := SendRaw config os sid (response r) false s in
   let s := modify sid (fun c => set_state Open (set_transport WebSocket c)) s in
   let s := modify sid (set_detection_buffer []) s in
   let s := UpdateInboundAccounting config sid 0 s in
   if negb (size_of rest =? 0) then ProcessWebSocket config os clock sid rest s else Some s) = Some s' ->
  tracked None rx s'.
Proof.
  intros I Tk H Tr RS U Erx. cbv zeta.
  pose proof (SendRaw_evolves config os sid (response r) false s) as E3.
  pose proof (SendRaw_fine config os Hc sid (response r) false s I RS) as [I3 _].
  pose proof (SendRaw_view config os log_of same_log sid (response r) false s) as L3.
  set (s3 := SendRaw _ _ _ _ _ s) in *.
  assert (Tk3 : tracked None rx s3) by (by eapply tracked_evolves).
  destruct (ev_sessions _ _ E3 sid c H) as (c3 & H3 & K3).
  assert (Tr3 : transport c3 = Detecting) by (by rewrite (kp_transport _ _ K3)).
  destruct (opened_tracked rx WebSocket request (messages_of sid s3) sid s3 c3 Tk3 H3 Tr3)
    as (Tk5 & c5 & H5 & Tr5); [by right|done|].
  assert (X : forall k, rx k = arrived sid rest (fun k => if decide (k = sid) then request else rx k) k).
  { intros k. unfold arrived. case_decide; [by subst k|done]. }
  split_if; intros E; eapply tracked_ext; try exact X.
  - eapply ProcessWebSocket_tracked; [|exact Tk5|exact H5|exact Tr5|exact E]. by apply open_transport_fine.
  - injection E as <-. destruct rest; [|unfold size_of in *; simpl in *; lia].
    eapply tracked_ext; [|exact Tk5]. intros k. unfold arrived. case_decide; [apply app_nil_r|done].
Qed.

Lemma ProcessDetection_tracked rx bytes sid (s : Server) c s' :
  Inv None s -> tracked None rx s -> heap s !! sid = Some c -> transport c = Detecting ->
  disconnect_started c = false ->
  ProcessDetection config os clock sid bytes s = Some s' -> tracked None (arrived sid bytes rx) s'.
Proof.
  intros I Tk H Tr D. unfold ProcessDetection. rewrite H. split_if.
  { intros [= <-]. destruct (ca_kept _ _ (Disconnect_carries sid s) sid c H) as (c2 & H2 & K).
    pose proof (ca_log _ _ (Disconnect_carries sid s)) as L.
    eapply (tracked_gone None rx bytes s _ sid c c2); [done..| |done|done| | |by rewrite L].
    - by apply around_calm; [apply Disconnect_evolves|].
    - by rewrite (kp_transport _ _ K).
    - by eapply Disconnect_stops. }
  assert (Hb : is_u64 (size_of (detection_buffer c ++ bytes))).
  { pose proof (co_inbound _ Hc). rewrite size_app. destruct Hif as [B1 B2].
    pose proof (size_nonneg (detection_buffer c)). pose proof (size_nonneg bytes).
    rewrite usub_small in B2 by (unfold size_max; lia). unfold is_u64, size_max. lia. }
  destruct (buffered_tracked rx bytes sid s c I Tk H Tr D Hb) as (Eb & I2 & Tk2 & c2 & H2 & Tr2).
  set (buffer := detection_buffer c ++ bytes) in *. set (s2 := UpdateInboundAccounting _ _ _ _) in *.
  assert (Erx : arrived sid bytes rx sid = buffer)
    by (unfold arrived, buffer; rewrite decide_True by done; by rewrite Eb).
  split_if.
  { destruct (opened_tracked _ RawTcp [] (messages_of sid s2) sid s2 c2 Tk2 H2 Tr2)
      as (Tk4 & c4 & H4 & Tr4); [by left|done|].
    intros E. eapply tracked_ext; [|eapply ProcessRaw_tracked;
      [apply open_transport_fine|exact Tk4|exact H4|exact Tr4|exact E]; done].
    intros k. unfold arrived at 2. case_decide; [by subst k|done]. }
  split_if; [by intros [= <-]|].
  destruct (ParseHandshake _ _ _) as [r|] eqn:EP; [|done]. cbn [mbind option_bind].
  pose proof (handshake_response_size _ _ _ _ EP) as RS.
  destruct (status r) eqn:Es; [by intros [= <-]| |].
  - destruct (accepted_split buffer r EP Es) as (request & rest & U & Eq & ->).
    by apply (accept_tracked _ sid s2 c2 r request rest); [..|apply RS| |rewrite Erx].
  - intros [= <-]. eapply tracked_evolves; [exact Tk2|apply SendRaw_evolves|].
    exact (SendRaw_view config os log_of same_log sid _ _ s2).
Qed.

Lemma ProcessIncoming_tracked rx bytes sid (s : Server) c s' :
  Inv None s -> tracked None rx s -> heap s !! sid = Some c -> disconnect_started c = false ->
  ProcessIncoming config os clock sid bytes s = Some s' -> tracked None (arrived sid bytes rx) s'.
Proof.
  intros I Tk H D. unfold ProcessIncoming. rewrite H. destruct (transport c) eqn:Tr.
  - by apply ProcessDetection_tracked with c.
  - by apply ProcessRaw_tracked with c.
  - by apply ProcessWebSocket_tracked with c.
Qed.

(** The bytes of a completed read, if it succeeded. *)
Definition received (i : nat) (ok : bool) (bytes : list byte) (s : Server) (rx : Z -> list byte) : Z -> list byte :=
  match reads s !! i with
  | Some sid => arrived sid (if ok then bytes else []) rx
  | None => rx
  end.

Lemma tracked_same x rx (s s' : Server) :
  tracked x rx s -> heap s' = heap s -> (app s').2 = (app s).2 -> tracked x rx s'.
Proof. intros Tk E L. eapply tracked_carries; [exact Tk|by apply carries_same]. Qed.

(** The connection is given up: with its read still unprocessed, or behind it. *)
Lemma give_up_tracked rx bytes sid (s : Server) c :
  tracked None rx s -> heap s !! sid = Some c ->
  tracked None (arrived sid bytes rx) (CompleteOperation (Disconnect config sid s)).
Proof.
  intros Tk H. pose proof (Disconnect_evolves config sid s) as E.
  pose proof (Disconnect_view config log_of same_log sid s) as L.
  destruct (ev_sessions _ _ E sid c H) as (c2 & H2 & K).
  eapply (tracked_same None _ (Disconnect config sid s)); [|done..].
  eapply (tracked_gone None rx bytes s _ sid c c2); [done..|by apply around_calm|done|done| | |].
  - by rewrite (kp_transport _ _ K).
  - by eapply Disconnect_stops.
  - unfold log_of in L. by rewrite L.
Qed.

Lemma end_tracked rx sid (s : Server) :
  tracked None rx s -> tracked None rx (CompleteOperation (Disconnect config sid s)).
Proof.
  intros Tk. eapply (tracked_same None _ (Disconnect config sid s)); [|done..].
  eapply tracked_evolves; [exact Tk|apply Disconnect_evolves|].
  exact (Disconnect_view config log_of same_log sid s).
Qed.

Lemma HandleRead_tracked rx i ok bytes (s : Server) s' :
  Inv None s -> Reads None s -> tracked None rx s ->
  HandleRead config os clock i ok bytes s = Some s' -> tracked None (received i ok bytes s rx) s'.
Proof.
  intros I RD Tk. unfold HandleRead, received. destruct (reads s !! i) as [sid|] eqn:Hi; [|by intros [= <-]].
  destruct (rd_heap _ _ RD sid) as [c H]; [by eapply list_elem_of_lookup_2|].
  set (s0 := set_reads _ s). change (heap s0) with (heap s). rewrite H.
  assert (Tk0 : tracked None rx s0) by (by eapply tracked_same).
  destruct (negb ok || (size_of bytes =? 0) || disconnect_started c) eqn:B.
  { intros [= <-]. by apply (give_up_tracked rx _ sid s0 c). }
  apply orb_false_iff in B as [[Bo%negb_false_iff _]%orb_false_iff D]. subst ok.
  unfold MonotonicMilliseconds. set (s1 := modify sid _ _).
  assert (E1 : evolves s0 s1).
  { transitivity (set_ticks (S (ticks s0)) s0); [by apply evolves_frame|apply evolves_modify; constructor; done]. }
  assert (Tk1 : tracked None rx s1) by (by eapply tracked_evolves).
  assert (I1 : Inv None s1).
  { apply Inv_modify; [by eapply Inv_frame|]. constructor; done. }
  assert (H1 : heap s1 !! sid = Some (set_last_activity_ms (clock (ticks s0)) c))
    by (simpl; by rewrite lookup_alter_eq, H).
  destruct (ProcessIncoming _ _ _ sid bytes s1) as [s2|] eqn:E; [|done]. cbn [mbind option_bind].
  pose proof (ProcessIncoming_tracked rx bytes sid s1 _ s2 I1 Tk1 H1 D E) as Tk2.
  split_if; [intros [= <-]; by apply end_tracked|].
  destruct (PostReadOperation_cases os sid s2) as (posted & t & ->).
  destruct posted; intros [= <-]; [by eapply tracked_same|].
  apply end_tracked. by eapply tracked_same.
Qed.

(** ** The other steps *)

Lemma AcceptSession_tracked rx (s : Server) :
  heap s !! next_session_id s = None -> tracked None rx s ->
  tracked None rx (AcceptSession config os clock s).
Proof.
  intros Hn Tk. unfold AcceptSession, MonotonicMilliseconds. cbv zeta.
  match goal with |- context [PostRead os ?k ?x] =>
    change x with (admitted_session config (clock (ticks s)) s); change k with (next_session_id s) end.
  set (s1 := admitted_session _ _ s). destruct (tk_unknown _ _ _ Tk _ Hn) as [Er Em].
  assert (Tk1 : tracked None rx s1).
  { set (h := mkHandle (next_session_id s) (next_generation s)).
    apply (tracked_around None rx rx true s s1 (next_session_id s)
      (set_state Handshaking (new_session config h (clock (ticks s))))); try done.
    - apply around_others; [|done]. by eapply others_put.
    - apply lookup_insert_eq. }
  destruct (PostRead_cases os (next_session_id s) s1) as (ok & t & o & -> & _).
  destruct ok; simpl; [by eapply tracked_same|].
  eapply (tracked_evolves None rx (set_outstanding_operations o (set_ticks t s1)));
    [by eapply tracked_same|apply Disconnect_evolves|].
  exact (Disconnect_view config log_of same_log _ (set_outstanding_operations o (set_ticks t s1))).
Qed.

Lemma HandleAccept_tracked rx ok seen (s : Server) :
  heap s !! next_session_id s = None -> tracked None rx s ->
  tracked None rx (HandleAccept config os clock ok seen s).
Proof.
  intros Hn Tk. unfold HandleAccept, os_call. set (s0 := set_accepts _ s).
  assert (Sm : forall x, heap x = heap s0 -> (app x).2 = (app s0).2 -> tracked None rx x)
    by (intros; by apply (tracked_same None rx s)).
  match goal with |- tracked None rx (if running ?x then _ else _) => set (s1 := x) end.
  assert (Tk1 : tracked None rx s1).
  { unfold s1. split_if; [|by apply Sm]. split_if; [by apply Sm|].
    assert (A : forall t, tracked None rx (AcceptSession config os clock (set_ticks t s0)))
      by (intros; apply AcceptSession_tracked; [done|by apply Sm]).
    destruct (os (ticks s0)); cbn [fst snd]; [|by apply Sm]. split_if; [apply A|by apply Sm]. }
  clearbody s1.
  assert (Sm1 : forall x, heap x = heap s1 -> (app x).2 = (app s1).2 -> tracked None rx x)
    by (intros; by apply (tracked_same None rx s1)).
  split_if; [|by apply Sm1].
  destruct (os (ticks s1)); cbn [fst snd]; [|by apply Sm1]. split_if; by apply Sm1.
Qed.

Lemma PostNewAccept_same (s : Server) :
  heap (PostNewAccept os s).2 = heap s /\ (app (PostNewAccept os s).2).2 = (app s).2.
Proof. unfold PostNewAccept, os_call. by repeat split_if. Qed.

Lemma post_accepts_tracked rx n posted (s : Server) :
  tracked None rx s -> tracked None rx (post_accepts os n posted s).2.
Proof.
  revert posted s. induction n as [|n IH]; intros posted s Tk; [done|]. simpl.
  pose proof (PostNewAccept_same s) as [E L]. destruct (PostNewAccept os s) as [ok s1].
  apply IH. by eapply tracked_same.
Qed.

Lemma fold_carries {A} (f : Server -> A -> Server) l (s : Server) :
  (forall s a, carries s (f s a)) -> carries s (foldl f s l).
Proof.
  intros Hf. revert s. induction l as [|a l IH]; intros s; [done|]. simpl.
  transitivity (f s a); [apply Hf|apply IH].
Qed.

Lemma StopSessions_carries (s : Server) : carries s (StopSessions config s).
Proof.
  unfold StopSessions. split_if; [done|]. transitivity (set_running false s); [by apply carries_same|].
  apply fold_carries. intros x h. apply Disconnect_carries.
Qed.

Lemma FinishWrite_carries op ok (s : Server) : carries s (FinishWrite config os op ok s).
Proof.
  transitivity (CompleteOperation s); [by apply carries_same|].
  apply carries_evolves; [apply FinishWrite_evolves|].
  exact (FinishWrite_view config os log_of same_log op ok s).
Qed.

Lemma HandleWrite_carries i ok n (s : Server) : carries s (HandleWrite config os i ok n s).
Proof.
  unfold HandleWrite. destruct (writes s !! i) as [op|]; [|done]. set (s1 := set_writes _ s).
  transitivity s1; [by apply carries_same|]. split_if; [apply FinishWrite_carries|].
  split_if; [|apply FinishWrite_carries]. set (op' := mkWrite _ _ _).
  destruct (PostWrite_ticks os op' s1) as (posted & t & ->).
  transitivity (set_ticks t s1); [by apply carries_same|].
  destruct posted; [by apply carries_same|apply FinishWrite_carries].
Qed.

Lemma TimerTick_carries (s : Server) : carries s (TimerTick config os clock s).
Proof.
  unfold TimerTick. split_if; [done|]. unfold MonotonicMilliseconds.
  transitivity (set_ticks (S (ticks s)) s); [by apply carries_same|]. apply fold_carries. intros x h.
  unfold TimerCheck. destruct (heap x !! id h) as [c|] eqn:H; [|done].
  repeat (split_if; [first [done|apply Disconnect_carries]|]).
  split_if; [split_if; [apply Disconnect_carries|done]|]. split_if; [|done].
  set (x1 := put (id h) _ x). transitivity x1.
  - apply carries_evolves; [|done]. eapply evolves_step; [exact H|reflexivity|constructor; done|done..].
  - apply carries_evolves; [apply SendControl_evolves|].
    exact (SendControl_view config os clock log_of same_log _ _ _ _ x1).
Qed.

Lemma Start_tracked rx (s : Server) : tracked None rx s -> tracked None rx (Start config os s).2.
Proof.
  intros Tk. unfold Start. split_if; [done|].
  assert (Tk1 : tracked None rx (set_running true s)) by (by eapply tracked_same).
  pose proof (post_accepts_tracked rx (Z.to_nat (accept_depth config)) 0 _ Tk1) as Tk2.
  destruct (post_accepts _ _ _ _) as [posted s1].
  split_if; [eapply tracked_carries; [exact Tk2|apply StopSessions_carries]|done].
Qed.

(** A step that completes no read. *)
Inductive other_step (s : Server) : Server -> Prop :=
| other_start : other_step s (Start config os s).2
| other_stop : other_step s (StopSessions config s)
| other_accept ok seen :
    (0 < accepts s)%nat -> next_session_id s < size_max ->
    other_step s (HandleAccept config os clock ok seen s)
| other_write i ok n :
    0 <= n <= 4294967295 -> other_step s (HandleWrite config os i ok n s)
| other_timer : other_step s (TimerTick config os clock s)
| other_send h payload : other_step s (Send config os h payload s).2
| other_close h code reason : other_step s (Close config os clock h code reason s).

Lemma other_server_step s s' : other_step s s' -> server_step config os clock s s'.
Proof. by destruct 1; constructor. Qed.

Lemma other_step_tracked rx s s' :
  good config s -> tracked None rx s -> other_step s s' -> tracked None rx s'.
Proof.
  intros [I _ _] Tk H. destruct H as [| |ok seen Ha Hn|i ok n Hb| |h p|h code r].
  - by apply Start_tracked.
  - eapply tracked_carries; [exact Tk|apply StopSessions_carries].
  - apply HandleAccept_tracked; [|done]. apply (inv_fresh _ _ _ I). lia.
  - eapply tracked_carries; [exact Tk|apply HandleWrite_carries].
  - eapply tracked_carries; [exact Tk|apply TimerTick_carries].
  - eapply tracked_evolves; [exact Tk|apply Send_evolves|].
    exact (Send_view config os log_of same_log h p s).
  - eapply tracked_evolves; [exact Tk|apply Close_evolves|].
    exact (Close_view config os clock log_of same_log h code r s).
Qed.

(** A run of the server, with the bytes each session received. *)
Inductive history (a0 : St) : (Z -> list byte) -> Server -> Prop :=
| history_initial : history a0 (fun _ => []) (initial (a0, []))
| history_other rx s s' : history a0 rx s -> other_step s s' -> history a0 rx s'
| history_read rx s i ok bytes s' :
    history a0 rx s -> HandleRead config os clock i ok bytes s = Some s' ->
    history a0 (received i ok bytes s rx) s'.

Lemma history_tracked a0 rx s : history a0 rx s -> good config s /\ tracked None rx s.
Proof.
  induction 1 as [|rx s s' _ [G Tk] Ho|rx s i ok bytes s' _ [G Tk] E].
  - split; [by apply initial_good|]. constructor; done.
  - split; [|by eapply other_step_tracked]. eapply (step_good config os clock Hc s); [done|].
    by apply other_server_step.
  - pose proof G as [I RD _]. split; [|by eapply HandleRead_tracked].
    eapply (step_good config os clock Hc s); [done|]. by eapply step_read.
Qed.

(** C1. What a raw connection delivers: in every run of the server, with any
    application, any answers of the system and any order of completions, the
    messages the handler was given for a raw TCP connection are, in order, the
    length-prefixed messages of the bytes that arrived, each within the limit;
    what is left over is waiting in the decoder while the connection is up, and
    is no complete message.  So the messages of a connection that is up are the
    only ones its bytes can be read as.  A connection that is still detected has
    delivered nothing. *)
Theorem server_raw_delivery a0 rx s sid c :
  history a0 rx s -> heap s !! sid = Some c ->
  let ms := delivered sid (app s).2 in
  (transport c = Detecting -> ms = [] /\ (disconnect_started c = false -> detection_buffer c = rx sid)) /\
  (transport c = RawTcp ->
    Forall (valid_message (max_message_bytes config)) ms /\
    exists rest, rx sid = concat (map frame ms) ++ rest /\
      (disconnect_started c = false ->
        Framing.pending (raw_decoder c) = rest /\
        (exists m, next_spec (max_message_bytes config) rest = (Framing.NeedMoreData, m, rest)) /\
        forall ps tail, Forall (valid_message (max_message_bytes config)) ps ->
          next_spec (max_message_bytes config) tail = (Framing.NeedMoreData, [], tail) ->
          rx sid = concat (map frame ps) ++ tail -> ms = ps /\ rest = tail)).
Proof.
  intros Hh H ms. destruct (history_tracked a0 rx s Hh) as [_ Tk].
  pose proof (tk_known _ _ _ Tk sid c H) as A. rewrite bool_decide_true in A by done.
  fold ms in A. unfold account in A. split; intros Tr; rewrite Tr in A.
  - destruct A as [-> A]. split; [done|]. intros D. by apply A.
  - destruct A as (F & rest & E & A). split; [done|]. exists rest. split; [done|]. intros D.
    destruct A as (Ep & _ & _ & W); [split; [done|congruence]|]. destruct (W eq_refl) as [m N].
    split_and!; [done|by exists m|]. intros ps tail Fp Nt E'. rewrite E in E'.
    assert (m = []) as -> by (unfold next_spec in N; repeat split_if_in N; congruence).
    destruct (drains_det (max_message_bytes config) _ _ _ _ _ _ _ (drains_frames _ ms rest F N)
      ltac:(rewrite E'; exact (drains_frames _ ps tail Fp Nt))) as (-> & _ & ->). done.
Qed.

(** C2. What a WebSocket connection delivers: the bytes that arrived are a valid
    upgrade request, then masked frames of the client, then a rest; the handler
    was given exactly the binary messages these frames carry, reassembled from
    their fragments, in order.  While the connection is open the rest waits in
    the decoder, is no complete frame, and no other reading of the bytes gives
    other messages. *)
Theorem server_ws_delivery a0 rx s sid c :
  history a0 rx s -> heap s !! sid = Some c -> transport c = WebSocket ->
  let ms := delivered sid (app s).2 in
  let max := max_message_bytes config in
  exists request kfs evs fr rest,
    upgrade config request /\ Forall (wire_frame true max) kfs /\
    rx sid = request ++ concat (map (fun kf => encode_frame kf.1 kf.2) kfs) ++ rest /\
    assembles max None (map snd kfs) = Some (evs, fr) /\ ms = messages evs /\
    (disconnect_started c = false -> state c = Open ->
      pending (websocket_decoder c) = rest /\
      (exists e, read_frame true max (size_of rest) rest = FrameReturn WebSocketDecoder.NeedMoreData e) /\
      forall request' kfs' evs' fr' tail e,
        upgrade config request' -> Forall (wire_frame true max) kfs' ->
        assembles max None (map snd kfs') = Some (evs', fr') ->
        read_frame true max (size_of tail) tail = FrameReturn WebSocketDecoder.NeedMoreData e ->
        rx sid = request' ++ concat (map (fun kf => encode_frame kf.1 kf.2) kfs') ++ tail ->
        ms = messages evs' /\ rest = tail).
Proof.
  intros Hh H Tr ms max. destruct (history_tracked a0 rx s Hh) as [_ Tk].
  pose proof (tk_known _ _ _ Tk sid c H) as A. rewrite bool_decide_true in A by done.
  fold ms in A. unfold account in A. rewrite Tr in A.
  destruct A as (q & kfs & evs & fr & rest & U & F & E & As & M & A).
  exists q, kfs, evs, fr, rest. split_and!; [done..|]. intros D O.
  destruct A as (Ep & _ & _ & _ & _ & W); [by split|]. destruct (W eq_refl) as [e N].
  split_and!; [done|by exists e|]. intros q' kfs' evs' fr' tail e' U' F' As' N' E'.
  rewrite E in E'. destruct (upgrade_unique config _ _ _ _ U U' E') as [_ E2]. clear E'.
  pose proof (ws_drains_frames true max None kfs evs fr rest e F As N) as D1.
  pose proof (ws_drains_frames true max None kfs' evs' fr' tail e' F' As' N') as D2. rewrite <-E2 in D2.
  destruct (ws_drains_det true max _ _ _ _ _ _ _ _ _ _ D1 D2)
    as (-> & _ & -> & _). done.
Qed.
End delivery.

(** ** Two runs *)

#[local] Existing Instance echo.

Abbreviation logged_server := (Server (nat * log) (list (gmap Z SessionHandle))).

(** Room for a handshake. *)
Definition roomy_config : ServerConfig :=
  mkConfig 8080 1 10 2 1024 64 1024 4096 256 1024 512 10 3 5000 60000 20000 10000 3000 false None.

Definition run_accepted : logged_server :=
  HandleAccept roomy_config sample_os sample_clock true 0
    (Start roomy_config sample_os (initial (0%nat, []))).2.

Definition run_read (bytes : list byte) (s : logged_server) : logged_server :=
  default s (HandleRead roomy_config sample_os sample_clock 0 true bytes s).

(** The wire in two reads. *)
Definition run_wire (n : nat) (wire : list byte) : logged_server :=
  run_read (drop n wire) (run_read (take n wire) run_accepted).

Definition run_received (n : nat) (wire : list byte) : Z -> list byte :=
  received 0 true (drop n wire) (run_read (take n wire) run_accepted)
    (received 0 true (take n wire) run_accepted (fun _ => [])).

Lemma roomy_config_ok : config_ok roomy_config.
Proof. constructor; simpl; unfold is_u64, size_max; lia. Qed.

Abbreviation run_history := (history roomy_config sample_os sample_clock 0%nat).

Lemma run_accepted_history : run_history (fun _ => []) run_accepted.
Proof.
  apply (history_other _ _ _ _ _ (Start roomy_config sample_os (initial (0%nat, []))).2);
    [|apply other_accept; vm_compute; [lia|reflexivity]].
  apply (history_other _ _ _ _ _ (initial (0%nat, []))); [apply history_initial|apply other_start].
Qed.

Definition raw_wire : list byte :=
  frame (bstr "hello") ++ frame (bstr "world") ++ [z2b 0; z2b 0].

Lemma raw_history : run_history (run_received 6 raw_wire) (run_wire 6 raw_wire).
Proof.
  apply history_read; [|vm_compute; reflexivity].
  apply history_read; [apply run_accepted_history|vm_compute; reflexivity].
Qed.

(** Witness: two messages and half a header. *)
Lemma server_raw_delivery_witness :
  delivered 1 (app (run_wire 6 raw_wire)).2 = [bstr "hello"; bstr "world"].
Proof.
  destruct (heap (run_wire 6 raw_wire) !! 1) as [c|] eqn:H; [|vm_compute in H; discriminate].
  assert (C : (fun c => (transport c, disconnect_started c)) <$> heap (run_wire 6 raw_wire) !! 1 =
    Some (RawTcp, false)) by (vm_compute; reflexivity).
  rewrite H in C. injection C as Tr D.
  destruct (server_raw_delivery roomy_config sample_os sample_clock roomy_config_ok 0%nat
    (run_received 6 raw_wire) (run_wire 6 raw_wire) 1 c raw_history H) as [_ R].
  destruct (R Tr) as (_ & rest & _ & U). destruct (U D) as (_ & _ & Uq).
  apply (Uq [bstr "hello"; bstr "world"] [z2b 0; z2b 0]); [|reflexivity|vm_compute; reflexivity].
  repeat constructor; vm_compute; congruence.
Defined.

Definition ws_wire : list byte :=
  client_request (bstr "/") (bstr "h") (bstr "the sample nonce") ++ sample_wire ++ bstr "x".

Lemma ws_history : run_history (run_received 150 ws_wire) (run_wire 150 ws_wire).
Proof.
  apply history_read; [|vm_compute; reflexivity].
  apply history_read; [apply run_accepted_history|vm_compute; reflexivity].
Qed.

Lemma sample_upgrade :
  upgrade roomy_config (client_request (bstr "/") (bstr "h") (bstr "the sample nonce")).
Proof.
  assert (P : forall t, bool_decide (cr ∉ bstr t) = true -> cr ∉ bstr t) by (intros; by apply (bool_decide_eq_true_1 _)).
  set (lines := client_lines (bstr "/") (bstr "h") (bstr "the sample nonce")).
  exists (join lines), (Base64.Base64Encode (bstr "the sample nonce")), []. split_and!; [| |done].
  - assert (X : head_of (concat (map (fun l => l ++ crlf) lines) ++ crlf ++ []) (join lines) []).
    { apply head_of_lines; [done|]. apply client_lines_plain; [by apply P..|vm_compute; reflexivity]. }
    rewrite app_nil_r in X. exact X.
  - apply client_request_ok; [by apply (bool_decide_eq_true_1 _)|by apply P..|vm_compute; reflexivity].
Qed.

(** Witness: the request, a message in two fragments around a ping, and the
    first byte of another frame. *)
Lemma server_ws_delivery_witness :
  delivered 1 (app (run_wire 150 ws_wire)).2 = [bstr "hello"].
Proof.
  destruct (heap (run_wire 150 ws_wire) !! 1) as [c|] eqn:H; [|vm_compute in H; discriminate].
  assert (C : (fun c => (transport c, disconnect_started c, state c)) <$> heap (run_wire 150 ws_wire) !! 1 =
    Some (WebSocket, false, Open)) by (vm_compute; reflexivity).
  rewrite H in C. injection C as Tr D O.
  destruct (server_ws_delivery roomy_config sample_os sample_clock roomy_config_ok 0%nat
    (run_received 150 ws_wire) (run_wire 150 ws_wire) 1 c ws_history H Tr)
    as (q & kfs & evs & fr & rest & _ & _ & _ & _ & _ & U).
  destruct (U D O) as (_ & _ & Uq).
  apply (Uq (client_request (bstr "/") (bstr "h") (bstr "the sample nonce")) sample_frames
    [mkEvent PingEvent (bstr "p") 1000; mkEvent BinaryMessage (bstr "hello") 1000] None (bstr "x") ""%string);
    [apply sample_upgrade| |reflexivity|reflexivity|vm_compute; reflexivity].
  unfold sample_frames. repeat (apply Forall_cons; split); [..|by apply Forall_nil].
  all: split; [vm_compute; split; reflexivity|constructor; vm_compute; intuition congruence].
Defined.
