(* ===== verification/RateLimit.v ===== *)
(** * The rate limit of a connection (src/src/core/iocp_server.cpp, [DeliverMessage])

    The counter of [DeliverMessage] restarts with the first message a second or
    more after the window began: what that allows in one second, in the runs of
    the server.  The handlers are those of any application, wrapped to keep the
    time of each message they are given ([timed]). *)

From S2P Require Import Prelude SessionHandle SessionRegistry ServerTypes Server ServerInbound.
From S2P Require Import ServerInvariant ServerReceive ServerSteps ServerStream ServerProperties.
From S2P Require Import Framing ServerInduction Delivery.

(** ** Times in a second *)

Definition in_second (t : Z) (times : list Z) : Z :=
  Z.of_nat (length (filter (fun u => t <= u < t + 1000) times)).

Lemma in_second_app t l l' : in_second t (l ++ l') = in_second t l + in_second t l'.
Proof. unfold in_second. rewrite filter_app, length_app. lia. Qed.

Lemma in_second_one t u : in_second t [u] = if decide (t <= u < t + 1000) then 1 else 0.
Proof. unfold in_second. rewrite filter_cons. by case_decide. Qed.

Lemma in_second_length t l : 0 <= in_second t l <= Z.of_nat (length l).
Proof. unfold in_second. pose proof (length_filter (fun u => t <= u < t + 1000) l). lia. Qed.

Lemma in_second_early t l : Forall (fun u => u < t) l -> in_second t l = 0.
Proof.
  intros F. unfold in_second. induction F as [|u l Hu _ IH]; [done|]. rewrite filter_cons.
  case_decide; [lia|done].
Qed.

(** ** The windows

    The times of a connection, with the window that began at [window] and has
    counted [counted] messages: what the windows before the last one held is a
    second old, and no window held more than [limit]. *)
Definition paced (limit window counted : Z) (times : list Z) : Prop :=
  exists older previous current, times = older ++ previous ++ current /\
    Z.of_nat (length previous) <= limit /\ Z.of_nat (length current) <= Z.min limit counted /\
    Forall (fun u => u + 1000 <= window) older /\ Forall (fun u => u <= window) previous /\
    Forall (fun u => window <= u) current /\ forall t, in_second t times <= 2 * limit.

Lemma paced_nil limit window : 0 <= limit -> paced limit window 0 [].
Proof.
  intros L. exists [], [], []. split_and!; try done; simpl; try lia.
  intros t. unfold in_second. simpl. lia.
Qed.

Lemma paced_count limit window counted counted' times :
  paced limit window counted times -> counted <= counted' -> paced limit window counted' times.
Proof.
  intros (o & p & c & E & Lp & Lc & R) H. exists o, p, c. split_and!; [done..|lia|apply R|apply R|apply R|apply R].
Qed.

(** The first message of the next window. *)
Lemma paced_restart limit window counted now times :
  0 <= limit -> paced limit window counted times -> window + 1000 <= now ->
  Forall (fun u => u <= now) times -> paced limit now 0 times.
Proof.
  intros L0 (o & p & c & -> & Lp & Lc & Fo & Fp & Fc & B) H Fn.
  exists (o ++ p), c, []. rewrite app_nil_r, <-app_assoc. split_and!; try done; simpl; try lia.
  - apply Forall_app. split; eapply Forall_impl; [exact Fo| |exact Fp|]; intros u ?; simpl in *; lia.
  - rewrite !Forall_app in Fn. apply Fn.
Qed.

(** One more within the limit. *)
Lemma paced_message limit window counted u times :
  paced limit window counted times -> counted + 1 <= limit -> window <= u ->
  paced limit window (counted + 1) (times ++ [u]).
Proof.
  intros (o & p & c & -> & Lp & Lc & Fo & Fp & Fc & B) H Hu.
  exists o, p, (c ++ [u]). split_and!; try done.
  - by rewrite <-!app_assoc.
  - rewrite length_app. simpl. lia.
  - apply Forall_app. split; [done|]. by apply Forall_singleton.
  - intros t. specialize (B t). rewrite in_second_app, in_second_one. case_decide as D; [|lia].
    rewrite !in_second_app. rewrite (in_second_early t o) by (eapply Forall_impl; [exact Fo|]; intros v ?; simpl in *; lia).
    pose proof (in_second_length t p). pose proof (in_second_length t c). lia.
Qed.

(** ** The runs of the server *)

Abbreviation times := (list (SessionHandle * Z)).

(** Any application, with a record of when it was given messages. *)
#[local] Instance timed {St : Type} `{App : Application St} : Application (St * times) := {|
  message_handler :=
    match message_handler with
    | None => None
    | Some callback => Some (fun now h message st =>
        let '(disposition, out, st') := callback now h message st.1 in
        (disposition, out, (st', st.2 ++ [(h, now)])))
    end;
  connect_handler h st := (connect_handler h st.1, st.2);
  disconnect_handler h st := (disconnect_handler h st.1, st.2);
|}.

(** When the messages of a connection were handed over. *)
Definition handed (h : SessionHandle) (l : times) : list Z := map snd (filter (fun p => p.1 = h) l).

Lemma handed_snoc h l k u : handed h (l ++ [(k, u)]) = handed h l ++ (if decide (k = h) then [u] else []).
Proof. unfold handed. rewrite filter_app, map_app. f_equal. rewrite filter_cons. simpl. by case_decide. Qed.

Lemma handed_none h l : (forall u, (h, u) ∉ l) -> handed h l = [].
Proof.
  induction l as [|[k u] l IH]; intros N; [done|]. unfold handed. rewrite filter_cons. simpl.
  case_decide as D; [subst k; by destruct (N u (list_elem_of_here _ _))|].
  apply IH. intros v Hv. by apply (N v), list_elem_of_further.
Qed.

Lemma handed_Forall (Q : Z -> Prop) h l : Forall (fun p => Q p.2) l -> Forall Q (handed h l).
Proof.
  induction 1 as [|[k u] l Hu _ IH]; [constructor|]. unfold handed in *. rewrite filter_cons. simpl.
  case_decide; [by constructor|done].
Qed.

(** Whether a message that arrives at [now] is handed over. *)
Definition within_rate (config : ServerConfig) (now : Z) (c : ClientSession) : bool :=
  negb (max_messages_per_second config <? rate_window_messages (rate_step now c)).

Section limit.
Context {St T : Type} `{App : Application St} `{Tab : SessionTable SessionHandle T (fun h => h)}.
Context (config : ServerConfig) (os : nat -> bool) (clock : nat -> Z) (Hc : config_ok config).
Context (Hl : 0 <= max_messages_per_second config).
(** [std::chrono::steady_clock] *)
Context (Hclock : forall n, clock n <= clock (S n)).
#[local] Abbreviation Server := (Server (St * times) T).
#[local] Abbreviation limit := (max_messages_per_second config).

Lemma clock_monotone n m : (n <= m)%nat -> clock n <= clock m.
Proof. induction 1 as [|m _ IH]; [done|]. specialize (Hclock m). lia. Qed.

Record session_rated (s : Server) (sid : Z) (c : ClientSession) : Prop := {
  sr_id : id (handle c) = sid;
  sr_count : 0 <= rate_window_messages c <= Z.of_nat (ticks s);
  sr_window : rate_window_ms c <= clock (ticks s);
  sr_paced : paced limit (rate_window_ms c) (rate_window_messages c) (handed (handle c) (app s).2);
}.

(** Every reading of the clock counts once at most, so the counter does not wrap
    before [2 ^ 64] of them. *)
Definition rated (s : Server) : Prop :=
  Z.of_nat (ticks s) <= size_max ->
  (forall sid c, heap s !! sid = Some c -> session_rated s sid c) /\
  Forall (fun p => p.2 <= clock (ticks s)) (app s).2 /\
  (forall h u, (h, u) ∈ (app s).2 -> exists c, heap s !! id h = Some c /\ handle c = h).

(** The other sessions, while one of them changes. *)
Lemma rated_other (s s' : Server) sid sid' (c y : ClientSession) (u : Z) :
  session_rated s sid c -> session_rated s sid' y -> sid' <> sid -> (ticks s <= ticks s')%nat ->
  (app s').2 = (app s).2 \/ (app s').2 = (app s).2 ++ [(handle c, u)] -> session_rated s' sid' y.
Proof.
  intros [Ic _ _ _] [Iy K W P] N Ht A. pose proof (clock_monotone _ _ Ht).
  assert (E : handed (handle y) (app s').2 = handed (handle y) (app s).2).
  { destruct A as [-> | ->]; [done|]. rewrite handed_snoc, decide_False; [by rewrite app_nil_r|].
    intros F. apply N. congruence. }
  constructor; rewrite ?E; [done|lia|lia|done].
Qed.

Lemma rated_times (s s' : Server) :
  Forall (fun p => p.2 <= clock (ticks s)) (app s).2 -> (ticks s <= ticks s')%nat ->
  Forall (fun p => p.2 <= clock (ticks s')) (app s).2.
Proof.
  intros F Ht. eapply Forall_impl; [exact F|]. intros p. simpl. pose proof (clock_monotone _ _ Ht). lia.
Qed.

(** What [rate_step] does to the window, as long as the counter does not wrap. *)
Lemma rate_step_paced (s : Server) sid c :
  session_rated s sid c -> Z.of_nat (S (ticks s)) <= size_max ->
  Forall (fun p => p.2 <= clock (ticks s)) (app s).2 ->
  let c' := rate_step (clock (ticks s)) c in
  handle c' = handle c /\ 1 <= rate_window_messages c' <= Z.of_nat (S (ticks s)) /\
  rate_window_ms c' <= clock (ticks s) /\
  paced limit (rate_window_ms c') (rate_window_messages c' - 1) (handed (handle c) (app s).2).
Proof.
  intros [I K W P] Ht F. cbv zeta. destruct (rate_step_neutral (clock (ticks s)) c) as [N _].
  split; [apply N|]. unfold rate_step. split_if; cbn [rate_window_messages rate_window_ms set_rate_window_messages set_rate_window_ms].
  - change ((0 + 1)%u64) with 1. split; [lia|]. split; [lia|].
    eapply paced_restart; [done|exact P|lia|by apply (handed_Forall (fun u => u <= clock (ticks s)))].
  - rewrite uadd_small by lia. split; [lia|]. split; [lia|].
    by replace (rate_window_messages c + 1 - 1) with (rate_window_messages c) by lia.
Qed.

(** One session changes, and what it was given. *)
Lemma rated_put (s s' : Server) sid c c' :
  rated s -> heap s !! sid = Some c -> heap s' = <[sid := c']> (heap s) -> handle c' = handle c ->
  (ticks s <= ticks s')%nat ->
  (app s').2 = (app s).2 \/ (exists u, (app s').2 = (app s).2 ++ [(handle c, u)] /\ u <= clock (ticks s')) ->
  (Z.of_nat (ticks s') <= size_max -> session_rated s sid c ->
     Forall (fun p => p.2 <= clock (ticks s)) (app s).2 -> session_rated s' sid c') ->
  rated s'.
Proof.
  intros R H E Eh Ht A N Hs. destruct R as (Rs & Rt & Rh); [lia|]. split_and!.
  - intros k y. rewrite E, lookup_insert. case_decide as D; [intros [= <-]; subst k; auto|]. intros Hy.
    destruct A as [A|(u & A & _)];
      [eapply (rated_other s s' sid k c y 0)|eapply (rated_other s s' sid k c y u)]; eauto.
  - destruct A as [-> |(u & -> & Hu)]; [by apply rated_times|].
    apply Forall_app. split; [by apply rated_times|by apply Forall_singleton].
  - intros h u Hin. rewrite E. assert (X : (exists y, heap s !! id h = Some y /\ handle y = h) \/ h = handle c).
    { destruct A as [A|(v & A & _)]; rewrite A in Hin; [left; by eapply Rh|].
      apply elem_of_app in Hin as [Hin|Hin]; [left; by eapply Rh|right].
      apply list_elem_of_singleton in Hin. congruence. }
    pose proof (sr_id _ _ _ (Rs sid c H)) as Hid.
    destruct (decide (id h = sid)) as [D|D].
    + exists c'. rewrite D, lookup_insert_eq. split; [done|]. rewrite Eh.
      destruct X as [(y & Hy & <-)| ->]; [congruence|done].
    + destruct X as [(y & Hy & Ey)| ->]; [|congruence]. exists y. by rewrite lookup_insert_ne.
Qed.

Lemma rated_closed : closed config clock rated.
Proof.
  constructor.
  - intros s s' R E A Ht Hs. destruct R as (Rs & Rt & Rh); [lia|]. rewrite E, A.
    split_and!; [|by apply rated_times|done]. intros sid c H. pose proof (clock_monotone _ _ Ht).
    destruct (Rs sid c H). constructor; rewrite ?A; [done|lia|lia|done].
  - intros s s' sid c c' R H E [Hh _ Hw Hm] A Ht. apply (rated_put s s' sid c c' R H E Hh Ht); [left; by rewrite A|].
    intros _ [I K W P] _. pose proof (clock_monotone _ _ Ht).
    constructor; rewrite ?Hh, ?Hw, ?Hm, ?A; [done|lia|lia|done].
  - intros s s' sid c c' R H E [Hh _ Hw Hm] A Ht. apply (rated_put s s' sid c c' R H E Hh Ht); [left; by rewrite A|].
    intros _ [I K W P] _. pose proof (clock_monotone _ _ Ht).
    constructor; rewrite ?Hh, ?Hw, ?Hm, ?A; [done|lia|lia|done].
  - intros s s' h R Hn E A Ht Hs. destruct R as (Rs & Rt & Rh); [lia|].
    assert (A2 : (app s').2 = (app s).2) by (by rewrite A). pose proof (clock_monotone _ _ (Nat.lt_le_incl _ _ Ht)).
    split_and!.
    + intros k y. rewrite E, lookup_insert. case_decide as D; [intros [= <-]; subst k|intros Hy].
      * constructor; simpl; [done|lia|lia|]. rewrite A2, handed_none; [by apply paced_nil|].
        intros u (y & Hy & _)%Rh. congruence.
      * destruct (Rs k y Hy). constructor; rewrite ?A2; [done|lia|lia|done].
    + rewrite A2. apply rated_times; [done|lia].
    + intros k u. rewrite A2, E. intros (y & Hy & Ey)%Rh. exists y.
      rewrite lookup_insert_ne; [done|]. congruence.
  - intros s s' sid c R H E A Ht. destruct (rate_step_neutral (clock (ticks s)) c) as [N _].
    apply (rated_put s s' sid c _ R H E (nt_handle _ _ N)); [lia|left; by rewrite A|].
    intros Hs S F. destruct (rate_step_paced s sid c S ltac:(lia) F) as (Eh & K & W & P).
    pose proof (clock_monotone _ _ (Nat.lt_le_incl _ _ Ht)).
    constructor; rewrite ?Eh, ?A; [apply S|lia|lia|]. eapply paced_count; [exact P|lia].
  - intros s s' sid c m callback R H _ L Cb E A Ht. destruct (rate_step_neutral (clock (ticks s)) c) as [N _].
    assert (A2 : (app s').2 = (app s).2 ++ [(handle c, clock (S (ticks s)))]).
    { rewrite A. revert Cb. simpl. destruct message_handler as [inner|]; [|done]. intros [= <-].
      by destruct (inner _ _ _ _) as [[? ?] ?]. }
    pose proof (clock_monotone (S (ticks s)) (ticks s') ltac:(lia)) as M.
    apply (rated_put s s' sid c _ R H E (nt_handle _ _ N)); [lia|right; eauto|].
    intros Hs S F. destruct (rate_step_paced s sid c S ltac:(lia) F) as (Eh & K & W & P).
    pose proof (Hclock (ticks s)). constructor; rewrite ?Eh; [apply S|lia|lia|].
    rewrite A2, handed_snoc, decide_True by done.
    eapply paced_count; [apply paced_message; [exact P|lia|lia]|lia].
Qed.

#[local] Abbreviation view_of := (fun st : St * times => st.2).
#[local] Abbreviation same_times := (fun (_ : SessionHandle) (_ : St * times) => eq_refl).

(** A message within the rate is handed over, whatever comes of it. *)
Lemma within_handed sid message (s : Server) c callback :
  heap s !! sid = Some c -> message_handler (St := St) = Some callback ->
  within_rate config (clock (ticks s)) c = true ->
  (app (DeliverMessage config os clock sid message s).2).2 = (app s).2 ++ [(handle c, clock (S (ticks s)))].
Proof.
  intros H Cb W. unfold within_rate in W. apply negb_true_iff in W.
  rewrite (DeliverMessage_eq config os clock sid message s c H). cbv zeta. rewrite W.
  cbn [message_handler timed]. rewrite Cb. set (s1 := put sid _ _).
  destruct (callback _ _ _ _) as [[disposition out] st'] eqn:E. set (s2 := set_app _ _).
  pose proof (send_all_view config os view_of same_times out s2) as V.
  set (s3 := send_all config os out s2) in *.
  assert (V3 : (app s3).2 = (app s).2 ++ [(handle c, clock (S (ticks s)))]) by exact V.
  split_if; [exact V3|]. split_if; [|exact V3].
  exact (eq_trans (Close_view config os clock view_of same_times _ _ _ (RecordMalformed sid s3)) V3).
Qed.

(** C28. The rate limit, on the messages the handler is given in any run of the
    server, while fewer than [2 ^ 64] readings of a clock that never runs
    backwards have been taken: any second holds at most twice
    [max_messages_per_second] of a connection's messages.  Each message within
    the rate of its window is handed over; the first beyond it closes the
    connection with status 1008 and is not. *)
Theorem rate_limit a0 (s : Server) :
  reachable config os clock (a0, []) s -> Z.of_nat (ticks s) <= size_max ->
  (forall h t, in_second t (handed h (app s).2) <= 2 * max_messages_per_second config) /\
  (forall sid message c callback, heap s !! sid = Some c -> message_handler (St := St) = Some callback ->
     let s' := (DeliverMessage config os clock sid message s).2 in
     if within_rate config (clock (ticks s)) c
     then (app s').2 = (app s).2 ++ [(handle c, clock (S (ticks s)))]
     else (app s').2 = (app s).2 /\
       DeliverMessage config os clock sid message s =
         (false, Close config os clock (handle c) 1008 (bstr "message rate limit exceeded")
                   (put sid (rate_step (clock (ticks s)) c) (set_ticks (S (ticks s)) s)))).
Proof.
  intros Rc Hs. split.
  - assert (R : rated s).
    { apply (reachable_keeps config os clock rated rated_closed Hc (a0, [])); [|done].
      intros _. simpl. split_and!; [done|constructor|]. intros h u Hin. by apply elem_of_nil in Hin. }
    destruct (R Hs) as (Rs & _ & Rh). intros h t.
    destruct (decide (handed h (app s).2 = [])) as [->|N]; [unfold in_second; simpl; lia|].
    destruct (decide (Exists (fun p => p.1 = h) (app s).2)) as [X|X].
    + apply Exists_exists in X as ([k u] & Hin & <-). destruct (Rh k u Hin) as (c & H & <-).
      destruct (sr_paced _ _ _ (Rs _ c H)) as (? & ? & ? & _ & _ & _ & _ & _ & _ & B). apply B.
    + destruct N. apply handed_none. intros u Hu. apply X, Exists_exists. by exists (h, u).
  - intros sid message c callback H Cb. cbv zeta.
    destruct (within_rate _ _ _) eqn:W; [by eapply within_handed|].
    unfold within_rate in W. apply negb_false_iff in W.
    assert (E : DeliverMessage config os clock sid message s =
      (false, Close config os clock (handle c) 1008 (bstr "message rate limit exceeded")
                (put sid (rate_step (clock (ticks s)) c) (set_ticks (S (ticks s)) s)))).
    { rewrite (DeliverMessage_eq config os clock sid message s c H). cbv zeta. by rewrite W. }
    split; [|done]. rewrite E. exact (Close_view config os clock view_of same_times _ _ _ _).
Qed.
End limit.

(** ** Twenty messages in a second, at a limit of ten *)

#[local] Instance counting : Application nat := {|
  message_handler := Some (fun _ _ _ n => (Accepted, [], S n));
  connect_handler := fun _ n => n;
  disconnect_handler := fun _ n => n;
|}.

Abbreviation timed_server := (Server (nat * times) (list (gmap Z SessionHandle))).

(** The connection is made at 1000 ms, ten messages come at 1999 and ten at 2000. *)
Definition burst_clock (n : nat) : Z := if (n <? 13)%nat then 1000 else if (n <? 35)%nat then 1999 else 2000.
Definition burst : list byte := concat (replicate 10 (frame (bstr "x"))).

Definition burst_accepted : timed_server :=
  HandleAccept sample_config sample_os burst_clock true 0
    (Start sample_config sample_os (initial (0%nat, []))).2.
Definition burst_read (s : timed_server) : timed_server :=
  default s (HandleRead sample_config sample_os burst_clock 0 true burst s).

Lemma burst_reachable :
  reachable sample_config sample_os burst_clock (0%nat, []) (burst_read (burst_read burst_accepted)).
Proof.
  apply (rtc_l _ _ (Start sample_config sample_os (initial (0%nat, []))).2); [apply step_start|].
  apply (rtc_l _ _ burst_accepted); [apply step_accept; vm_compute; [lia|reflexivity]|].
  apply (rtc_l _ _ (burst_read burst_accepted)); [|apply rtc_once];
    apply (step_read _ _ _ _ 0 true burst); vm_compute; reflexivity.
Qed.

(** All twenty are handed over: the bound is reached. *)
Lemma rate_limit_witness :
  let s := burst_read (burst_read burst_accepted) in
  in_second 1999 (handed (mkHandle 1 1) (app s).2) = 20 /\
  in_second 1999 (handed (mkHandle 1 1) (app s).2) <= 2 * max_messages_per_second sample_config.
Proof.
  cbv zeta. split; [vm_compute; reflexivity|].
  assert (Hs : (Z.of_nat (ticks (burst_read (burst_read burst_accepted))) <=? size_max) = true)
    by (vm_compute; reflexivity).
  refine (proj1 (rate_limit sample_config sample_os burst_clock (limited_config_ok 4096) _ _ 0%nat
    (burst_read (burst_read burst_accepted)) burst_reachable _) (mkHandle 1 1) 1999).
  - vm_compute. congruence.
  - intros n. unfold burst_clock. destruct (Nat.ltb_spec n 13), (Nat.ltb_spec n 35),
      (Nat.ltb_spec (S n) 13), (Nat.ltb_spec (S n) 35); lia.
  - by apply Z.leb_le.
Defined.
