(* ===== verification/Concurrency.v ===== *)
(** * Preemption: the atomics of the server (src/src/core/iocp_server.cpp)

    The workers run handlers in parallel.  Here the loads, stores and
    compare-and-swaps of the code are the steps, and any number of calls is
    interleaved: the compare-and-swap loop of [ReserveGlobalQueued] behaves like
    the single step that [Server] takes for it, and the checks of [HandleAccept]
    do not. *)

From S2P Require Import Prelude ServerTypes Server.

(** ** A compare-and-swap loop

    [current = cell.load(); while (true) { if (refused(current)) return false;
    if (cell.compare_exchange_weak(current, update(current))) return true; }] *)

Section loop.
Context {A V : Type} (refused : A -> V -> bool) (update : A -> V -> V).
(** What other code may do to the cell in one atomic operation. *)
Context (other : V -> V -> Prop).

Inductive call :=
| Invoked (a : A)                  (** before the load *)
| Tested (a : A) (current : V)     (** at the head of the loop *)
| Returned (a : A) (r : bool).

(** The cell and the calls in progress.  [loop_retry]: the exchange failed, by
    another value or spuriously, and loaded the cell into [current]. *)
Inductive loop_step : V * list call -> V * list call -> Prop :=
| loop_call v cs a : loop_step (v, cs) (v, cs ++ [Invoked a])
| loop_load v cs i a :
    cs !! i = Some (Invoked a) -> loop_step (v, cs) (v, <[i := Tested a v]> cs)
| loop_refuse v cs i a current :
    cs !! i = Some (Tested a current) -> refused a current = true ->
    loop_step (v, cs) (v, <[i := Returned a false]> cs)
| loop_swap v cs i a :
    cs !! i = Some (Tested a v) -> refused a v = false ->
    loop_step (v, cs) (update a v, <[i := Returned a true]> cs)
| loop_retry v cs i a current :
    cs !! i = Some (Tested a current) -> refused a current = false ->
    loop_step (v, cs) (v, <[i := Tested a v]> cs)
| loop_other v v' cs : other v v' -> loop_step (v, cs) (v', cs).

(** ** The specification: the call is one step *)

Inductive atomic_call := Pending (a : A) | Done (a : A) (r : bool).

Definition atomically (a : A) (v : V) : bool * V :=
  if refused a v then (false, v) else (true, update a v).

Inductive atomic_step : V * list atomic_call -> V * list atomic_call -> Prop :=
| atomic_invoke v cs a : atomic_step (v, cs) (v, cs ++ [Pending a])
| atomic_run v cs i a :
    cs !! i = Some (Pending a) ->
    atomic_step (v, cs) ((atomically a v).2, <[i := Done a (atomically a v).1]> cs)
| atomic_other v v' cs : other v v' -> atomic_step (v, cs) (v', cs).

(** A call that has read a value it refuses has taken effect. *)
Definition abstract (c : call) : atomic_call :=
  match c with
  | Invoked a => Pending a
  | Tested a current => if refused a current then Done a false else Pending a
  | Returned a r => Done a r
  end.

Lemma abstract_insert (cs : list call) i c c' :
  cs !! i = Some c -> abstract c = abstract c' -> abstract <$> <[i := c']> cs = abstract <$> cs.
Proof.
  intros H E. rewrite list_fmap_insert, <-E. apply list_insert_id. by rewrite list_lookup_fmap, H.
Qed.

(** Reading the cell: the call takes effect when the value is refused. *)
Lemma load_simulated v (cs : list call) i a c :
  cs !! i = Some c -> abstract c = Pending a ->
  rtc atomic_step (v, abstract <$> cs) (v, abstract <$> <[i := Tested a v]> cs).
Proof.
  intros H E. destruct (refused a v) eqn:R.
  - apply rtc_once. rewrite list_fmap_insert. simpl. rewrite R.
    assert (P : (abstract <$> cs) !! i = Some (Pending a)) by (rewrite list_lookup_fmap, H; simpl; congruence).
    pose proof (atomic_run v _ i a P) as S. unfold atomically in S. by rewrite R in S.
  - rewrite (abstract_insert _ _ c); [done|done|]. simpl. by rewrite R.
Qed.

Lemma loop_simulated v cs v' cs' :
  loop_step (v, cs) (v', cs') ->
  rtc atomic_step (v, abstract <$> cs) (v', abstract <$> cs').
Proof.
  inversion 1 as [? ? a|? ? i a Hi|? ? i a w Hi R|? ? i a Hi R|? ? i a w Hi R|? ? ? O]; subst.
  - rewrite fmap_app. apply rtc_once, atomic_invoke.
  - by eapply load_simulated.
  - rewrite (abstract_insert _ _ (Tested a w)); [done|done|]. simpl. by rewrite R.
  - apply rtc_once. rewrite list_fmap_insert. simpl.
    assert (P : (abstract <$> cs) !! i = Some (Pending a))
      by (rewrite list_lookup_fmap, Hi; simpl; by rewrite R).
    pose proof (atomic_run v _ i a P) as S. unfold atomically in S. by rewrite R in S.
  - eapply load_simulated; [done|]. simpl. by rewrite R.
  - by apply rtc_once, atomic_other.
Qed.

Lemma loop_refines s s' :
  rtc loop_step s s' -> rtc atomic_step (s.1, abstract <$> s.2) (s'.1, abstract <$> s'.2).
Proof.
  induction 1 as [|[v cs] [v1 cs1] s3 S _ IH]; [done|].
  etransitivity; [by apply loop_simulated|exact IH].
Qed.

(** A call that runs without interference returns. *)
Lemma loop_alone v (cs : list call) i c :
  cs !! i = Some c ->
  exists v' a r cs', rtc loop_step (v, cs) (v', cs') /\ cs' !! i = Some (Returned a r).
Proof.
  intros H. pose proof (lookup_lt_Some _ _ _ H) as L.
  assert (T : forall cs1 a, cs1 !! i = Some (Tested a v) ->
    exists v' r cs', rtc loop_step (v, cs1) (v', cs') /\ cs' !! i = Some (Returned a r)).
  { intros cs1 a H1. pose proof (lookup_lt_Some _ _ _ H1) as L1. destruct (refused a v) eqn:R.
    - exists v, false, (<[i := Returned a false]> cs1). split; [by eapply rtc_once, loop_refuse|].
      by apply list_lookup_insert_eq.
    - exists (update a v), true, (<[i := Returned a true]> cs1).
      split; [by eapply rtc_once, loop_swap|]. by apply list_lookup_insert_eq. }
  assert (T' : forall a, loop_step (v, cs) (v, <[i := Tested a v]> cs) ->
    exists v' a r cs', rtc loop_step (v, cs) (v', cs') /\ cs' !! i = Some (Returned a r)).
  { intros a S. destruct (T (<[i := Tested a v]> cs) a) as (v' & r & cs' & R & E);
      [by apply list_lookup_insert_eq|].
    exists v', a, r, cs'. split; [by eapply rtc_l|done]. }
  destruct c as [a|a w|a r].
  - apply (T' a). by apply loop_load.
  - destruct (refused a w) eqn:R; [|apply (T' a); by eapply loop_retry].
    exists v, a, false, (<[i := Returned a false]> cs).
    split; [by eapply rtc_once, loop_refuse|by apply list_lookup_insert_eq].
  - exists v, a, r, cs. split; done.
Qed.
End loop.


(** ** [ReserveGlobalQueued] *)

Definition over_budget (config : ServerConfig) (bytes current : Z) : bool :=
  (max_global_queued_bytes config <? bytes)
  || ((max_global_queued_bytes config - bytes)%u64 <? current).

(** The cell is [metrics.queued_bytes], a call's argument the bytes to reserve. *)
Definition reserve_step (config : ServerConfig) : (Z -> Z -> Prop) ->
    Z * list call -> Z * list call -> Prop :=
  loop_step (over_budget config) (fun bytes current => (current + bytes)%u64).

Definition reserve_atomic_step (config : ServerConfig) : (Z -> Z -> Prop) ->
    Z * list atomic_call -> Z * list atomic_call -> Prop :=
  atomic_step (over_budget config) (fun bytes current => (current + bytes)%u64).

(** C25. [ReserveGlobalQueued] is atomic: however the loads and weak
    compare-and-swaps of any number of calls interleave with each other and
    with any other use of the counter, there is a run in which every call is one
    step, with the same counter and the same results; that step is
    [Server.ReserveGlobalQueued]; and a call left alone returns. *)
Theorem reserve_linearizable config other v0 v cs :
  rtc (reserve_step config other) (v0, []) (v, cs) ->
  (exists acs, rtc (reserve_atomic_step config other) (v0, []) (v, acs) /\
     forall i bytes r, cs !! i = Some (Returned bytes r) -> acs !! i = Some (Done bytes r)) /\
  (forall bytes m, ReserveGlobalQueued config bytes m =
     let '(r, total) := atomically (over_budget config) (fun b t => (t + b)%u64) bytes (queued_total m) in
     (r, set_queued_total total m)) /\
  (forall i c, cs !! i = Some c -> exists v' bytes r cs',
     rtc (reserve_step config other) (v, cs) (v', cs') /\ cs' !! i = Some (Returned bytes r)).
Proof.
  intros H. split_and!.
  - exists (abstract (over_budget config) <$> cs). split; [apply (loop_refines _ _ _ _ _ H)|].
    intros i bytes r Hi. by rewrite list_lookup_fmap, Hi.
  - intros bytes m. unfold ReserveGlobalQueued, atomically, over_budget.
    split_if; [by destruct m|done].
  - intros i c. apply loop_alone.
Qed.

(** ** [SendControl] begins the closing handshake once *)

Definition closing_or_closed (s : SessionState) : bool :=
  bool_decide (s = Closed) || bool_decide (s = Closing).

(** The cell is [session->state]; [Disconnect] stores [Closed]. *)
Definition close_step : SessionState * list call -> SessionState * list call -> Prop :=
  loop_step (A := unit) (fun _ => closing_or_closed) (fun _ _ => Closing) (fun _ s => s = Closed).

Definition begun (c : call (A := unit) (V := SessionState)) : Z :=
  match c with Returned _ true => 1 | _ => 0 end.

Lemma close_begun s0 s cs :
  rtc close_step (s0, []) (s, cs) ->
  list_sum begun cs <= 1 /\ (list_sum begun cs = 1 -> closing_or_closed s = true).
Proof.
  assert (G : forall x y, close_step x y ->
    list_sum begun x.2 <= 1 /\ (list_sum begun x.2 = 1 -> closing_or_closed x.1 = true) ->
    list_sum begun y.2 <= 1 /\ (list_sum begun y.2 = 1 -> closing_or_closed y.1 = true)).
  { intros x y S. inversion S as [? cs1 a|? cs1 i a Hi|? cs1 i a w Hi R|? cs1 i a Hi R|? cs1 i a w Hi R|? ? cs1 O];
      subst; simpl; intros [L C].
    - rewrite list_sum_app. simpl. rewrite Z.add_0_r. done.
    - rewrite (list_sum_insert _ _ _ _ _ Hi). simpl. rewrite Z.sub_0_r, Z.add_0_r. done.
    - rewrite (list_sum_insert _ _ _ _ _ Hi). simpl. rewrite Z.sub_0_r, Z.add_0_r. done.
    - rewrite (list_sum_insert _ _ _ _ _ Hi). simpl. split; [|done].
      destruct (Z.eq_dec (list_sum begun cs1) 1) as [E|]; [specialize (C E); congruence|].
      pose proof (list_sum_nonneg begun cs1 ltac:(by intros [| |? []])). lia.
    - rewrite (list_sum_insert _ _ _ _ _ Hi). simpl. rewrite Z.sub_0_r, Z.add_0_r. done.
    - done. }
  intros H. remember (s0, []) as x eqn:Ex. remember (s, cs) as y eqn:Ey.
  assert (P : list_sum begun x.2 <= 1 /\ (list_sum begun x.2 = 1 -> closing_or_closed x.1 = true))
    by (subst x; simpl; lia).
  change (list_sum begun (s, cs).2 <= 1 /\ (list_sum begun (s, cs).2 = 1 ->
    closing_or_closed (s, cs).1 = true)). rewrite <-Ey. clear Ex Ey.
  induction H as [|x y z S _ IH]; [done|]. apply IH. by eapply G.
Qed.

(** ** Admission: [HandleAccept] on several workers

    The tests of [running] and [active_connections] and the registration are
    separate steps; [Stop] clears [running] and then sweeps the registry. *)

Inductive acceptor :=
| Entered        (** called *)
| Checked        (** [running] was set *)
| Passed       (** [active_connections] was below the limit *)
| Connected      (** registered, counted, its read posted *)
| Gone.          (** refused or disconnected *)

Record admission := mkAdmission {
  adm_running : bool;
  adm_active : Z;                 (** [metrics.active_connections] *)
  adm_swept : bool;               (** [Stop] has disconnected its snapshot *)
  acceptors : list acceptor;
}.

(** A worker is inside [HandleAccept]; a connection is counted; a connection is
    about to be. *)
Definition busy (a : acceptor) : Z := match a with Entered | Checked | Passed => 1 | _ => 0 end.
Definition counted (a : acceptor) : Z := match a with Connected => 1 | _ => 0 end.
Definition admitted (a : acceptor) : Z := match a with Passed => 1 | _ => 0 end.

Definition sweep (a : acceptor) : acceptor := match a with Connected => Gone | _ => a end.

Section admission.
Context (max_connections workers : Z).

Inductive admission_step : admission -> admission -> Prop :=
| adm_enter r n w l :
    list_sum busy l < workers -> admission_step (mkAdmission r n w l) (mkAdmission r n w (l ++ [Entered]))
| adm_check r n w l i :
    l !! i = Some Entered ->
    admission_step (mkAdmission r n w l)
      (mkAdmission r n w (<[i := if r then Checked else Gone]> l))
| adm_admit r n w l i :
    l !! i = Some Checked ->
    admission_step (mkAdmission r n w l)
      (mkAdmission r n w (<[i := if max_connections <=? n then Gone else Passed]> l))
| adm_fail r n w l i :
    l !! i = Some Passed ->
    admission_step (mkAdmission r n w l) (mkAdmission r n w (<[i := Gone]> l))
| adm_register r n w l i :
    l !! i = Some Passed ->
    admission_step (mkAdmission r n w l) (mkAdmission r (n + 1)%u64 w (<[i := Connected]> l))
| adm_disconnect r n w l i :
    l !! i = Some Connected ->
    admission_step (mkAdmission r n w l) (mkAdmission r (n - 1)%u64 w (<[i := Gone]> l))
| adm_stop r n w l : admission_step (mkAdmission r n w l) (mkAdmission false n w l)
| adm_sweep n w l :
    admission_step (mkAdmission false n w l)
      (mkAdmission false (n - list_sum counted l)%u64 true (sweep <$> l)).

Definition admission_initial : admission := mkAdmission true 0 false [].

Record admission_ok (s : admission) : Prop := {
  ao_active : adm_active s = list_sum counted (acceptors s);
  ao_bound : adm_active s + list_sum admitted (acceptors s) <= max_connections + workers - 1;
  ao_busy : list_sum busy (acceptors s) <= workers;
}.

Lemma weights_nonneg a : 0 <= counted a /\ 0 <= admitted a /\ admitted a <= busy a.
Proof. destruct a; simpl; lia. Qed.

Lemma sweep_sums l :
  list_sum counted (sweep <$> l) = 0 /\ list_sum admitted (sweep <$> l) = list_sum admitted l /\
  list_sum busy (sweep <$> l) = list_sum busy l.
Proof.
  induction l as [|a l (I1 & I2 & I3)]; [done|]. rewrite fmap_cons. cbn [list_sum foldr].
  fold (list_sum counted (sweep <$> l)) (list_sum admitted (sweep <$> l)) (list_sum busy (sweep <$> l)).
  rewrite I1, I2, I3. by destruct a.
Qed.

Lemma admission_step_ok s s' :
  max_connections + workers <= size_max -> admission_ok s -> admission_step s s' -> admission_ok s'.
Proof.
  intros Hm [A B U] S.
  pose proof (list_sum_nonneg counted (acceptors s) ltac:(apply weights_nonneg)) as N1.
  pose proof (list_sum_nonneg admitted (acceptors s) ltac:(apply weights_nonneg)) as N2.
  assert (N3 : list_sum admitted (acceptors s) <= list_sum busy (acceptors s))
    by (apply list_sum_le, weights_nonneg).
  destruct S as [r n w l Hb|r n w l i Hi|r n w l i Hi|r n w l i Hi|r n w l i Hi|r n w l i Hi|r n w l|n w l];
    simpl in *; subst n;
    try (pose proof (list_sum_lookup counted l i _ ltac:(apply weights_nonneg) Hi) as N4; simpl in N4);
    try (pose proof (list_sum_lookup admitted l i _ ltac:(apply weights_nonneg) Hi) as N5; simpl in N5);
    try (constructor; simpl; rewrite ?(list_sum_insert _ _ _ _ _ Hi), ?list_sum_app; simpl; lia || done).
  - destruct r; constructor; simpl; rewrite ?(list_sum_insert _ _ _ _ _ Hi); simpl; lia.
  - pose proof (list_sum_le admitted busy (<[i := Passed]> l) ltac:(apply weights_nonneg)) as N6.
    rewrite !(list_sum_insert _ _ _ _ _ Hi) in N6. simpl in N6.
    split_if; constructor; simpl; rewrite ?(list_sum_insert _ _ _ _ _ Hi); simpl; lia.
  - rewrite uadd_small by lia.
    constructor; simpl; rewrite ?(list_sum_insert _ _ _ _ _ Hi); simpl; lia.
  - rewrite usub_small by lia.
    constructor; simpl; rewrite ?(list_sum_insert _ _ _ _ _ Hi); simpl; lia.
  - destruct (sweep_sums l) as (S1 & S2 & S3). rewrite usub_small by lia.
    constructor; simpl; rewrite ?S1, ?S2, ?S3; lia.
Qed.

Lemma admission_reachable s :
  0 <= max_connections -> 1 <= workers -> max_connections + workers <= size_max ->
  rtc admission_step admission_initial s -> admission_ok s.
Proof.
  intros H0 H1 Hm R. assert (I : admission_ok admission_initial) by (constructor; simpl; lia).
  induction R as [|x y z S _ IH]; [done|]. apply IH. by eapply admission_step_ok.
Qed.
End admission.

(** C26. Admission under preemption: with [w] workers the counter of active
    connections is exact and never exceeds [max_connections + w - 1], so a
    single worker keeps the limit; two workers can exceed it, because both test
    the counter before either increments it; and a connection admitted while
    [Stop] runs can be registered after [Stop] has swept the registry, where
    nothing disconnects it any more. *)
Theorem admission_races :
  (forall max_connections w s,
     0 <= max_connections -> 1 <= w -> max_connections + w <= size_max ->
     rtc (admission_step max_connections w) admission_initial s ->
     adm_active s = list_sum counted (acceptors s) /\ adm_active s <= max_connections + w - 1) /\
  (exists s, rtc (admission_step 1 2) admission_initial s /\ adm_active s = 2) /\
  (exists s, rtc (admission_step 1 1) admission_initial s /\
     adm_running s = false /\ adm_swept s = true /\ acceptors s = [Connected]).
Proof.
  split_and!.
  - intros m w s H0 H1 Hm R. destruct (admission_reachable m w s H0 H1 Hm R) as [A B _].
    split; [done|]. pose proof (list_sum_nonneg admitted (acceptors s) ltac:(apply weights_nonneg)). lia.
  - exists (mkAdmission true 2 false [Connected; Connected]). split; [|done].
    eapply rtc_l; [apply adm_enter; done|]. simpl.
    eapply rtc_l; [apply adm_enter; done|]. simpl.
    eapply rtc_l; [by apply (adm_check _ _ _ _ _ _ 0)|]. simpl.
    eapply rtc_l; [by apply (adm_check _ _ _ _ _ _ 1)|]. simpl.
    eapply rtc_l; [by apply (adm_admit _ _ _ _ _ _ 0)|]. simpl.
    eapply rtc_l; [by apply (adm_admit _ _ _ _ _ _ 1)|]. simpl.
    eapply rtc_l; [by apply (adm_register _ _ _ _ _ _ 0)|]. simpl.
    exact (rtc_once _ _ (adm_register 1 2 true 1 false [Connected; Passed] 1 eq_refl)).
  - exists (mkAdmission false 1 true [Connected]). split; [|done].
    eapply rtc_l; [apply adm_enter; done|]. simpl.
    eapply rtc_l; [by apply (adm_check _ _ _ _ _ _ 0)|]. simpl.
    eapply rtc_l; [by apply (adm_admit _ _ _ _ _ _ 0)|]. simpl.
    eapply rtc_l; [apply adm_stop|].
    eapply rtc_l; [apply adm_sweep|]. simpl.
    exact (rtc_once _ _ (adm_register 1 1 false 0 true [Passed] 0 eq_refl)).
Qed.

(** Two calls that both read zero: one swaps, the other retries and is refused. *)
Lemma reserve_linearizable_witness :
  exists acs, rtc (reserve_atomic_step default_config (fun _ _ => False)) (0, []) (314572800, acs) /\
    acs !! 0%nat = Some (Done 314572800 true) /\ acs !! 1%nat = Some (Done 314572800 false).
Proof.
  set (n := 314572800). set (refused := over_budget default_config).
  set (update := fun bytes current => (current + bytes)%u64).
  destruct (reserve_linearizable default_config (fun _ _ => False) 0 n
    [Returned n true; Returned n false]) as ((acs & R & D) & _ & _).
  - eapply rtc_l; [apply (loop_call refused update _ 0 [] n)|].
    eapply rtc_l; [apply (loop_call refused update _ 0 [Invoked n] n)|].
    eapply rtc_l; [apply (loop_load refused update _ 0 [Invoked n; Invoked n] 0 n eq_refl)|].
    eapply rtc_l; [apply (loop_load refused update _ 0 [Tested n 0; Invoked n] 1 n eq_refl)|].
    eapply rtc_l; [apply (loop_swap refused update _ 0 [Tested n 0; Tested n 0] 0 n eq_refl eq_refl)|].
    eapply rtc_l; [apply (loop_retry refused update _ n [Returned n true; Tested n 0] 1 n 0 eq_refl eq_refl)|].
    apply rtc_once.
    apply (loop_refuse refused update _ n [Returned n true; Tested n n] 1 n n eq_refl eq_refl).
  - exists acs. split; [exact R|]. split; [exact (D 0%nat n true eq_refl)|exact (D 1%nat n false eq_refl)].
Defined.
