(* ===== verification/InboundRace.v ===== *)
(** * Preemption: the inbound accounting (src/src/core/iocp_server.cpp, [UpdateInboundAccounting])

    [inbound_accounted] is a plain [size_t], read and written by the worker that
    handles a read and by whoever disconnects the session.  Here every access of
    a call is a step, and any number of calls on one session is interleaved. *)

From S2P Require Import Prelude ServerTypes Server.

(** Where a call is; [bytes] is its argument. *)
Inductive update :=
| Compare (bytes : Z)                        (** before [bytes > inbound_accounted] *)
| Growing (bytes : Z)                        (** before [delta] is computed *)
| Adding (bytes delta : Z)                   (** before [fetch_add] *)
| Grown (bytes total : Z)                    (** before the store and the test of the limit *)
| CompareLess (bytes : Z)                    (** before [bytes < inbound_accounted] *)
| Shrinking (bytes : Z)                      (** before the difference is computed *)
| Subtracting (bytes difference : Z)         (** before [fetch_sub] *)
| Shrunk (bytes : Z)                         (** before the store *)
| Updated (exceeded : bool).

(** [metrics.inbound_bytes] and the session's [inbound_accounted]. *)
Record inbound := mkInbound { inbound_bytes : Z; accounted : Z }.

Section update.
Context (config : ServerConfig).

Definition update_step (u : update) (s : inbound) : update * inbound :=
  let '(mkInbound total a) := s in
  match u with
  | Compare bytes => (if a <? bytes then Growing bytes else CompareLess bytes, s)
  | Growing bytes => (Adding bytes (bytes - a)%u64, s)
  | Adding bytes delta => (Grown bytes (total + delta)%u64, mkInbound (total + delta)%u64 a)
  | Grown bytes t => (Updated (max_global_inbound_bytes config <? t), mkInbound total bytes)
  | CompareLess bytes => (if bytes <? a then Shrinking bytes else Updated false, s)
  | Shrinking bytes => (Subtracting bytes (a - bytes)%u64, s)
  | Subtracting bytes difference => (Shrunk bytes, mkInbound (total - difference)%u64 a)
  | Shrunk bytes => (Updated false, mkInbound total bytes)
  | Updated e => (u, s)
  end.

(** The [i]-th call takes a step. *)
Definition turn (s : inbound * list update) (i : nat) : inbound * list update :=
  match s.2 !! i with
  | Some u => let '(u, t) := update_step u s.1 in (t, <[i := u]> s.2)
  | None => s
  end.

Definition turns (s : inbound * list update) (schedule : list nat) : inbound * list update := foldl turn s schedule.

(** A call left alone is [AccountInbound]. *)
Lemma update_alone bytes (c : ClientSession) (m : Metrics) :
  let '(c', m', exceeded) := AccountInbound config bytes c m in
  turns (mkInbound (inbound_total m) (inbound_accounted c), [Compare bytes]) [0; 0; 0; 0; 0]%nat =
    (mkInbound (inbound_total m') (inbound_accounted c'), [Updated exceeded]).
Proof.
  unfold AccountInbound, turns. cbn [foldl]. unfold turn. cbn [snd fst lookup list_lookup update_step].
  destruct (inbound_accounted c <? bytes) eqn:G; cbn; [by rewrite ?G|].
  destruct (bytes <? inbound_accounted c) eqn:L; cbn; rewrite ?L; cbn; [|done].
  prop_of L. done.
Qed.

Lemma turns_cons i rest s us u :
  us !! i = Some u ->
  turns (s, us) (i :: rest) =
    turns (let '(u, t) := update_step u s in (t, <[i := u]> us)) rest.
Proof. intros H. unfold turns. simpl. unfold turn at 2, snd. rewrite H. done. Qed.

(** The worker has lowered the counter, and not yet stored what it counted,
    when another thread disconnects the session. *)
Definition shrink_race : list nat := [0; 0; 0; 0; 1; 1; 1; 1; 1; 0]%nat.

(** The worker has raised the counter when the session is disconnected. *)
Definition grow_race : list nat := [0; 0; 0; 1; 1; 0]%nat.

(** C33. [UpdateInboundAccounting] is not safe against a disconnection.  A call
    that is alone does what the server model does in one step.  But when a
    worker has consumed messages ([accounted] bytes before, [bytes] left) while
    another thread disconnects the session, the bytes are taken off twice: both
    calls return, and [inbound_bytes] has wrapped around below zero; from then on
    a connection whose first read is smaller than the amount is disconnected for
    exceeding the global limit.  And when the worker is adding, the bytes of the
    dead session stay counted for good. *)
Theorem inbound_update_races :
  (forall bytes (c : ClientSession) (m : Metrics),
     let '(c', m', exceeded) := AccountInbound config bytes c m in
     turns (mkInbound (inbound_total m) (inbound_accounted c), [Compare bytes]) [0; 0; 0; 0; 0]%nat =
       (mkInbound (inbound_total m') (inbound_accounted c'), [Updated exceeded])) /\
  (forall accounted bytes, 0 <= bytes < accounted -> accounted <= size_max ->
     turns (mkInbound accounted accounted, [Compare bytes; Compare 0]) shrink_race =
       (mkInbound (size_max + 1 - (accounted - bytes)) bytes, [Updated false; Updated false]) /\
     forall (c : ClientSession) m, inbound_accounted c = 0 ->
       inbound_total m = size_max + 1 - (accounted - bytes) ->
       max_global_inbound_bytes config < size_max + 1 - (accounted - bytes) ->
       forall arrived, 0 < arrived < accounted - bytes -> (AccountInbound config arrived c m).2 = true) /\
  (forall bytes, 0 < bytes <= max_global_inbound_bytes config -> bytes <= size_max ->
     turns (mkInbound 0 0, [Compare bytes; Compare 0]) grow_race =
       (mkInbound bytes bytes, [Updated false; Updated false])).
Proof.
  split_and!; [exact update_alone| |].
  - intros a b B L. split.
    + assert (E1 : (a <? b) = false) by lia. assert (E2 : (b <? a) = true) by lia.
      assert (E3 : (a <? 0) = false) by lia. assert (E4 : (0 <? a) = true) by lia.
      unfold shrink_race. repeat (erewrite turns_cons by reflexivity; cbn -[turns uadd usub]; rewrite ?E1, ?E2, ?E3, ?E4).
      unfold turns. cbn [foldl].
      rewrite (usub_small a b), (usub_small a 0), Z.sub_0_r, (usub_small a (a - b)) by lia.
      replace (a - (a - b)) with b by lia. repeat f_equal. unfold usub, u64, size_max in *.
      rewrite <-(Z.mod_unique_pos (b - a) 18446744073709551616 (-1) (b - a + 18446744073709551616)); lia.
    + intros c m A T G n N. unfold AccountInbound. rewrite A, T, (proj2 (Z.ltb_lt 0 n)) by lia. simpl.
      rewrite usub_small, uadd_small by lia. apply Z.ltb_lt. lia.
  - intros b B L. assert (E1 : (0 <? b) = true) by lia.
    assert (E2 : (max_global_inbound_bytes config <? b) = false) by lia.
    unfold grow_race. repeat (erewrite turns_cons by reflexivity; cbn -[turns uadd usub]; rewrite ?E1). unfold turns. cbn [foldl].
    rewrite (usub_small b 0), Z.sub_0_r, uadd_small, Z.add_0_l, E2 by (unfold size_max in *; lia). done.
Qed.
End update.

(** A worker keeps 40 of 100 bytes while the session is disconnected: 60 bytes
    are missing, and a client that sends 59 is disconnected. *)
Lemma inbound_update_races_witness :
  turns default_config (mkInbound 100 100, [Compare 40; Compare 0]) shrink_race =
    (mkInbound 18446744073709551556 40, [Updated false; Updated false]) /\
  forall (c : ClientSession) m, inbound_accounted c = 0 -> inbound_total m = 18446744073709551556 ->
    (AccountInbound default_config 59 c m).2 = true.
Proof.
  destruct (inbound_update_races default_config) as (_ & R & _).
  destruct (R 100 40 ltac:(lia) ltac:(unfold size_max; lia)) as [E G]. split; [exact E|].
  intros c m A T. apply (G c m A T); [unfold size_max; simpl; lia|lia].
Defined.
