(* ===== verification/Disconnecting.v ===== *)
(** * Disconnecting under preemption (src/src/core/iocp_server.cpp, [Disconnect], [PostRead], [PostWrite])

    Any number of threads disconnect a session, and post operations on it, while
    new connections are accepted.  A step is one access of an atomic, one call of
    the system, or one region under a lock.  The table of open sockets is the
    system's: it gives a closed socket's value to a later socket.  What
    [Disconnect] gives back between the close of the socket and the counter, the
    queue and the inbound bytes, is interleaved in [WritePath] and [InboundRace];
    the calls of the system on one socket are one step. *)

From S2P Require Import Prelude ServerTypes.

(** Where a call stands. *)
Inductive activity :=
| DisconnectCall                     (** before the exchange of [disconnect_started] *)
| DisconnectWon                      (** before the store of [Closed] *)
| DisconnectStored                   (** before [sessions.Remove] *)
| DisconnectRemoved                  (** before the exchange of [socket] *)
| DisconnectExchanged (v : option Z) (** before [shutdown], [CancelIoEx], [closesocket] *)
| DisconnectClosed                   (** before [active_connections.fetch_sub] *)
| DisconnectCounted                  (** before [InvokeDisconnect] *)
| PostCall                           (** [PostRead], [PostWrite]: before the load of [socket] *)
| PostSend (v : Z)                   (** before [WSARecv], [WSASend] *)
| AcceptInserted                     (** [HandleAccept]: before [active_connections.fetch_add] *)
| Disconnected                       (** [Disconnect] has returned *)
| Accepted                           (** [HandleAccept] has counted the session *)
| Ended (posted : bool).             (** [PostRead], [PostWrite] have returned *)

(** The fields of a [ClientSession] these calls access. *)
Record conn := mkConn { started : bool; state : SessionState; socket : option Z }.

Record system := mkSystem {
  sockets : gmap Z Z;            (** open socket values, with the session whose connection it is *)
  conns : gmap Z conn;
  registry : gset Z;
  active_connections : Z;
  acts : list (Z * activity);    (** the calls, each with its session *)
  closed : list (Z * Z);         (** observed: who called [closesocket], and on whose connection *)
  counted : list Z;              (** observed: who called [fetch_sub] *)
  invoked : list Z;              (** observed: who called [InvokeDisconnect] *)
  posted : list (Z * Z);         (** observed: whose operation was posted on whose connection *)
}.

Definition start : system := mkSystem ∅ ∅ ∅ 0 [] [] [] [] [].

(** [PostRead] and [PostWrite]: the next access of a call; the call, the session
    and the system after it.  [ok] is what the system answers. *)
Definition post_step (ok : bool) (sid : Z) (a : activity) (c : conn) (s : system)
  : option (activity * conn * system) :=
  let '(mkSystem so cs re ac ts cl co iv po) := s in
  match a with
  | PostCall => Some (match socket c with Some v => PostSend v | None => Ended false end, c, s)
  | PostSend v =>
      match so !! v with
      | Some owner =>
          if ok then Some (Ended true, c, mkSystem so cs re ac ts cl co iv ((sid, owner) :: po))
          else Some (Ended false, c, s)
      | None => Some (Ended false, c, s)
      end
  | _ => None
  end.

(** The next access of any call: [Disconnect]'s, and the others'. *)
Definition activity_step (ok : bool) (sid : Z) (a : activity) (c : conn) (s : system)
  : option (activity * conn * system) :=
  let '(mkSystem so cs re ac ts cl co iv po) := s in
  match a with
  | DisconnectCall =>
      Some (if started c then Disconnected else DisconnectWon, mkConn true (state c) (socket c), s)
  | DisconnectWon => Some (DisconnectStored, mkConn (started c) Closed (socket c), s)
  | DisconnectStored => Some (DisconnectRemoved, c, mkSystem so cs (re ∖ {[sid]}) ac ts cl co iv po)
  | DisconnectRemoved => Some (DisconnectExchanged (socket c), mkConn (started c) (state c) None, s)
  | DisconnectExchanged None => Some (DisconnectClosed, c, s)
  | DisconnectExchanged (Some v) =>
      Some (DisconnectClosed, c,
        mkSystem (delete v so) cs re ac ts (from_option (fun owner => (sid, owner) :: cl) cl (so !! v)) co iv po)
  | DisconnectClosed => Some (DisconnectCounted, c, mkSystem so cs re (ac - 1)%u64 ts cl (sid :: co) iv po)
  | DisconnectCounted => Some (Disconnected, c, mkSystem so cs re ac ts cl co (sid :: iv) po)
  | PostCall | PostSend _ => post_step ok sid a c s
  | AcceptInserted => Some (Accepted, c, mkSystem so cs re (ac + 1)%u64 ts cl co iv po)
  | Disconnected | Accepted | Ended _ => None
  end.

Inductive event :=
| Step (i : nat) (ok : bool)     (** the [i]-th call goes on *)
| Accept (sid v : Z)             (** [HandleAccept] makes a session of a new socket and inserts it *)
| CallDisconnect (sid : Z)
| CallPost (sid : Z).

(** [None]: the event is not possible. *)
Definition occurs (e : event) (s : system) : option system :=
  let '(mkSystem so cs re ac ts cl co iv po) := s in
  match e with
  | Step i ok =>
      '(sid, a) ← ts !! i;
      c ← cs !! sid;
      '(a, c, s) ← activity_step ok sid a c s;
      let '(mkSystem so cs re ac ts cl co iv po) := s in
      Some (mkSystem so (<[sid := c]> cs) re ac (<[i := (sid, a)]> ts) cl co iv po)
  | Accept sid v =>
      match cs !! sid, so !! v with
      | None, None =>
          Some (mkSystem (<[v := sid]> so) (<[sid := mkConn false Handshaking (Some v)]> cs) ({[sid]} ∪ re)
                  ac (ts ++ [(sid, AcceptInserted)]) cl co iv po)
      | _, _ => None
      end
  | CallDisconnect sid =>
      match cs !! sid with
      | Some _ => Some (mkSystem so cs re ac (ts ++ [(sid, DisconnectCall)]) cl co iv po)
      | None => None
      end
  | CallPost sid =>
      match cs !! sid with
      | Some _ => Some (mkSystem so cs re ac (ts ++ [(sid, PostCall)]) cl co iv po)
      | None => None
      end
  end.

Definition event_step (s s' : system) : Prop := exists e, occurs e s = Some s'.

Fixpoint run_events (es : list event) (s : system) : option system :=
  match es with
  | [] => Some s
  | e :: es => s ← occurs e s; run_events es s
  end.

(** ** The call that disconnects *)

Definition winning (a : activity) : bool :=
  match a with
  | DisconnectWon | DisconnectStored | DisconnectRemoved | DisconnectExchanged _
  | DisconnectClosed | DisconnectCounted => true
  | _ => false
  end.

Definition winners (sid : Z) (ts : list (Z * activity)) : list activity :=
  (filter (fun t => t.1 = sid /\ winning t.2 = true) ts).*2.

(** Sessions that [HandleAccept] has inserted and not counted. *)
Definition pending_accept (a : activity) : bool := match a with AcceptInserted => true | _ => false end.

Definition accepting (ts : list (Z * activity)) : nat :=
  length (filter (fun t => pending_accept t.2 = true) ts).

Inductive phase := Up | Going (a : activity) | Down.

Definition phase_of (c : conn) (ws : list activity) : phase :=
  if started c then match ws with a :: _ => Going a | [] => Down end else Up.

(** What each phase says of the fields and of what was done. *)
Definition holding (p : phase) : bool :=
  match p with Up | Going (DisconnectWon | DisconnectStored | DisconnectRemoved) => true | _ => false end.
Definition opened (p : phase) : bool :=
  match p with Going (DisconnectExchanged _) => true | _ => holding p end.
Definition registered (p : phase) : bool :=
  match p with Up | Going (DisconnectWon | DisconnectStored) => true | _ => false end.
Definition uncounted (p : phase) : bool :=
  match p with Going DisconnectClosed => true | _ => opened p end.
Definition uninvoked (p : phase) : bool := match p with Down => false | _ => true end.

Record conn_ok (s : system) (sid : Z) (c : conn) (p : phase) (v : Z) : Prop := {
  co_socket : socket c = if holding p then Some v else None;
  co_exchanged : forall o, p = Going (DisconnectExchanged o) -> o = Some v;
  co_open : forall w, sockets s !! w = Some sid <-> w = v /\ opened p = true;
  co_registry : (sid ∈ registry s) <-> registered p = true;
  co_closed : (sid ∉ (closed s).*1) <-> opened p = true;
  co_counted : (sid ∉ counted s) <-> uncounted p = true;
  co_invoked : (sid ∉ invoked s) <-> uninvoked p = true;
}.

Record Inv (s : system) : Prop := {
  inv_one : forall sid, (length (winners sid (acts s)) <= 1)%nat;
  inv_started : forall sid, winners sid (acts s) <> [] -> exists c, conns s !! sid = Some c /\ started c = true;
  inv_conns : forall sid c, conns s !! sid = Some c ->
    exists v, conn_ok s sid c (phase_of c (winners sid (acts s))) v;
  inv_known : forall sid, conns s !! sid = None ->
    (forall w, sockets s !! w <> Some sid) /\ (sid ∉ registry s) /\ (sid ∉ (closed s).*1) /\
    (sid ∉ counted s) /\ (sid ∉ invoked s);
  inv_once : NoDup (closed s).*1 /\ NoDup (counted s) /\ NoDup (invoked s);
  inv_own : Forall (fun x => x.1 = x.2) (closed s);
  inv_active : active_connections s =
    u64 (Z.of_nat (size (conns s)) - Z.of_nat (accepting (acts s)) - Z.of_nat (length (counted s)));
}.

(** ** The calls as a list *)

Lemma winners_app sid l l' : winners sid (l ++ l') = winners sid l ++ winners sid l'.
Proof. unfold winners. by rewrite filter_app, fmap_app. Qed.

Lemma winners_single sid k a :
  winners sid [(k, a)] = if decide (k = sid) then (if winning a then [a] else []) else [].
Proof.
  unfold winners. rewrite filter_cons, filter_nil. simpl. case_decide as D.
  - destruct D as [-> W]. rewrite W. by case_decide.
  - case_decide as E; [|done]. destruct (winning a); [|done]. by destruct D.
Qed.

(** A new call. *)
Lemma winners_call ts sid a k : winning a = false -> winners k (ts ++ [(sid, a)]) = winners k ts.
Proof. intros W. rewrite winners_app, winners_single, W. case_decide; apply app_nil_r. Qed.

(** A call and the others. *)
Lemma acts_split (ts : list (Z * activity)) i sid a :
  ts !! i = Some (sid, a) ->
  exists l l', (forall k, winners k ts = l k ++ winners k [(sid, a)] ++ l' k) /\
    forall a' k, winners k (<[i := (sid, a')]> ts) = l k ++ winners k [(sid, a')] ++ l' k.
Proof.
  intros H. exists (fun k => winners k (take i ts)), (fun k => winners k (drop (S i) ts)).
  pose proof (lookup_lt_Some _ _ _ H) as L. split.
  - intros k. rewrite <-(take_drop_middle ts i _ H) at 1. rewrite winners_app. f_equal.
    change ((sid, a) :: drop (S i) ts) with ([(sid, a)] ++ drop (S i) ts). apply winners_app.
  - intros a' k. rewrite insert_take_drop by done. rewrite winners_app. f_equal.
    change ((sid, a') :: drop (S i) ts) with ([(sid, a')] ++ drop (S i) ts). apply winners_app.
Qed.

Lemma winners_other ts i sid a a' k :
  ts !! i = Some (sid, a) -> k <> sid -> winners k (<[i := (sid, a')]> ts) = winners k ts.
Proof.
  intros H N. destruct (acts_split ts i sid a H) as (l & l' & -> & E). rewrite E, !winners_single.
  by case_decide; [congruence|].
Qed.

(** The call that wins moves on; no other call of its session does. *)
Lemma winners_move ts i sid a a' :
  ts !! i = Some (sid, a) -> (length (winners sid ts) <= 1)%nat -> winning a = true ->
  winners sid ts = [a] /\ winners sid (<[i := (sid, a')]> ts) = if winning a' then [a'] else [].
Proof.
  intros H L W. destruct (acts_split ts i sid a H) as (l & l' & Es & E).
  rewrite E, Es in *. rewrite !winners_single, decide_True, W in * by done.
  rewrite !length_app in L. simpl in L. destruct (l sid), (l' sid); simpl in *; try lia.
  split; [done|]. rewrite decide_True by done. by destruct (winning a').
Qed.

Lemma winners_keep ts i sid a a' :
  ts !! i = Some (sid, a) -> winning a = false -> winning a' = false ->
  winners sid (<[i := (sid, a')]> ts) = winners sid ts.
Proof.
  intros H W W'. destruct (acts_split ts i sid a H) as (l & l' & -> & E).
  rewrite E, !winners_single, W, W'. by rewrite decide_True.
Qed.

Lemma winners_win ts i sid a a' :
  ts !! i = Some (sid, a) -> winners sid ts = [] -> winning a' = true ->
  winners sid (<[i := (sid, a')]> ts) = [a'].
Proof.
  intros H W W'. destruct (acts_split ts i sid a H) as (l & l' & Es & E). rewrite E. rewrite Es in W.
  apply app_eq_nil in W as [-> W]. apply app_eq_nil in W as [_ ->]. by rewrite winners_single, decide_True, W'.
Qed.

Lemma accepting_app l l' : accepting (l ++ l') = (accepting l + accepting l')%nat.
Proof. unfold accepting. by rewrite filter_app, length_app. Qed.

Lemma accepting_single k a : accepting [(k, a)] = if pending_accept a then 1%nat else 0%nat.
Proof. unfold accepting. rewrite filter_cons, filter_nil. simpl. by destruct a. Qed.

(** A call moves on. *)
Lemma accepting_insert ts i sid a a' :
  ts !! i = Some (sid, a) ->
  (accepting (<[i := (sid, a')]> ts) + (if pending_accept a then 1 else 0) =
   accepting ts + if pending_accept a' then 1 else 0)%nat.
Proof.
  intros H. pose proof (lookup_lt_Some _ _ _ H) as L.
  rewrite <-(take_drop_middle ts i _ H) at 2. rewrite insert_take_drop by done.
  change (?x :: drop (S i) ts) with ([x] ++ drop (S i) ts).
  change ((sid, a') :: drop (S i) ts) with ([(sid, a')] ++ drop (S i) ts).
  rewrite !accepting_app, !accepting_single. lia.
Qed.

Lemma accepting_keep ts i sid a a' :
  ts !! i = Some (sid, a) -> pending_accept a' = pending_accept a -> accepting (<[i := (sid, a')]> ts) = accepting ts.
Proof. intros H E. pose proof (accepting_insert ts i sid a a' H) as A. rewrite E in A. lia. Qed.

(** ** Every step keeps the invariant *)

(** A step of the call [i] of session [sid] that leaves what belongs to the other
    sessions. *)
Lemma Inv_step s s' i sid a a' c c' :
  Inv s -> acts s !! i = Some (sid, a) -> conns s !! sid = Some c ->
  acts s' = <[i := (sid, a')]> (acts s) -> conns s' = <[sid := c']> (conns s) ->
  (winning a = true \/ winning a' = false \/ started c = false) ->
  (winning a' = true -> started c' = true) -> (started c = true -> started c' = true) ->
  (forall v, conn_ok s sid c (phase_of c (winners sid (acts s))) v ->
     conn_ok s' sid c' (phase_of c' (winners sid (acts s'))) v) ->
  (forall w k, k <> sid -> sockets s' !! w = Some k <-> sockets s !! w = Some k) ->
  (forall k, k <> sid -> (k ∈ registry s' <-> k ∈ registry s) /\ (k ∈ (closed s').*1 <-> k ∈ (closed s).*1) /\
     (k ∈ counted s' <-> k ∈ counted s) /\ (k ∈ invoked s' <-> k ∈ invoked s)) ->
  NoDup (closed s').*1 /\ NoDup (counted s') /\ NoDup (invoked s') ->
  Forall (fun x => x.1 = x.2) (closed s') ->
  active_connections s' =
    u64 (Z.of_nat (size (conns s)) - Z.of_nat (accepting (acts s')) - Z.of_nat (length (counted s'))) ->
  Inv s'.
Proof.
  intros I H Hc Ea Ec Hw Hs Hm Hok Hso Hlog Hnd Hown Hact.
  assert (Wk : forall k, k <> sid -> winners k (acts s') = winners k (acts s)).
  { intros k N. rewrite Ea. by eapply winners_other. }
  assert (Ws : (length (winners sid (acts s')) <= 1)%nat /\ (winners sid (acts s') <> [] -> started c' = true)).
  { rewrite Ea. destruct (winning a) eqn:Wa.
    - destruct (winners_move _ i sid a a' H (inv_one _ I sid) Wa) as [E0 ->].
      destruct (winning a'); simpl; split; auto; lia.
    - destruct (winning a') eqn:Wa'.
      + destruct Hw as [?|[?|D]]; [done|done|]. rewrite (winners_win _ i sid a a' H); [simpl; split; auto; lia| |done].
        destruct (winners sid (acts s)) eqn:E; [done|].
        destruct (inv_started _ I sid) as (x & Hx & Sx); [by rewrite E|]. congruence.
      + rewrite (winners_keep _ i sid a a' H Wa Wa'). split; [apply I|]. intros N.
        destruct (inv_started _ I sid N) as (x & Hx & Sx). apply Hm. congruence. }
  constructor; [| | | |done|done|].
  - intros k. destruct (decide (k = sid)) as [->|N]; [apply Ws|]. rewrite Wk by done. apply I.
  - intros k Hk. rewrite Ec, lookup_insert. case_decide as D; [subst k; exists c'; split; [done|]; by apply Ws|].
    rewrite Wk in Hk by congruence. by apply I.
  - intros k y. rewrite Ec, lookup_insert. case_decide as D.
    + intros [= <-]. subst k. destruct (inv_conns _ I sid c Hc) as [v Ov]. exists v. by apply Hok.
    + intros Hy. rewrite Wk by congruence. destruct (inv_conns _ I k y Hy) as [v [O1 O2 O3 O4 O5 O6 O7]].
      destruct (Hlog k ltac:(congruence)) as (L1 & L2 & L3 & L4). exists v. constructor; [done|done| | | | |].
      * intros w. rewrite Hso by congruence. apply O3.
      * by rewrite L1.
      * by rewrite L2.
      * by rewrite L3.
      * by rewrite L4.
  - intros k. rewrite Ec, lookup_insert. case_decide as D; [done|]. intros Hk.
    destruct (inv_known _ I k Hk) as (K1 & K2 & K3 & K4 & K5).
    destruct (Hlog k ltac:(congruence)) as (L1 & L2 & L3 & L4).
    split_and!; [|by rewrite L1|by rewrite L2|by rewrite L3|by rewrite L4].
    intros w. rewrite Hso by congruence. apply K1.
  - rewrite Ec, map_size_insert_Some by done. exact Hact.
Qed.

(** The phase of a session whose winning call is at [a], before and after. *)
Lemma phase_moves s i sid a a' c c' :
  Inv s -> acts s !! i = Some (sid, a) -> conns s !! sid = Some c -> winning a = true -> started c' = started c ->
  phase_of c (winners sid (acts s)) = Going a /\
  phase_of c' (winners sid (<[i := (sid, a')]> (acts s))) = (if winning a' then Going a' else Down) /\
  started c = true.
Proof.
  intros I H Hc W S'. destruct (winners_move _ i sid a a' H (inv_one _ I sid) W) as [E E'].
  destruct (inv_started _ I sid) as (x & Hx & S); [by rewrite E|]. simplify_eq.
  rewrite E', E. unfold phase_of. rewrite S', S. by destruct (winning a').
Qed.

(** Every session of the system but one. *)
Ltac other_sessions := intros; split_and!; try done; set_solver.

Lemma step_Inv i ok s s' : Inv s -> occurs (Step i ok) s = Some s' -> Inv s'.
Proof.
  intros I E. destruct s as [so cs re ac ts cl co iv po] eqn:Es. simpl in E.
  destruct (ts !! i) as [[sid a]|] eqn:H; [|done]. simpl in E. destruct (cs !! sid) as [c|] eqn:Hc; [|done]. simpl in E.
  pose proof (inv_once _ I) as (N1 & N2 & N3). pose proof (inv_own _ I) as Ow. pose proof (inv_active _ I) as Ac.
  destruct (inv_conns _ I sid c Hc) as [v0 Ov]. simpl in *.
  assert (M : forall a' c', winning a = true -> started c' = started c ->
    phase_of c (winners sid ts) = Going a /\
    phase_of c' (winners sid (<[i := (sid, a')]> ts)) = (if winning a' then Going a' else Down) /\ started c = true)
    by (intros a' c'; by apply (phase_moves _ i sid a a' c c' I)).
  assert (U : forall a', winning a = false -> winning a' = false ->
    winners sid (<[i := (sid, a')]> ts) = winners sid ts) by (intros; by apply (winners_keep ts i sid a)).
  assert (A : forall a', pending_accept a' = pending_accept a -> accepting (<[i := (sid, a')]> ts) = accepting ts)
    by (intros; by apply (accepting_keep ts i sid a)).
  destruct a as [ | | | |o| | | |v| | | |]; simpl in E.
  - injection E as <-. destruct (started c) eqn:S.
    + eapply (Inv_step _ _ i sid DisconnectCall _ c _ I H Hc); simpl; try done; try (by rewrite A); [by right; left|].
      intros v O. rewrite U by done. unfold phase_of in *. rewrite S in O. by destruct O.
    + eapply (Inv_step _ _ i sid DisconnectCall _ c _ I H Hc); simpl; try done; try (by rewrite A); [by right; right|].
      intros v O. assert (W : winners sid ts = []).
      { destruct (winners sid ts) eqn:W; [done|]. destruct (inv_started _ I sid) as (x & Hx & Sx); simpl; [by rewrite W|].
        simpl in Hx. congruence. }
      rewrite (winners_win ts i sid DisconnectCall) by done. unfold phase_of in *. rewrite S in O. simpl.
      destruct O. by constructor.
  - injection E as <-. destruct (M DisconnectStored (mkConn (started c) Closed (socket c))) as (P & P' & S); [done..|].
    eapply (Inv_step _ _ i sid DisconnectWon _ c _ I H Hc); simpl; try done; try (by rewrite A); [by left|].
    intros v O. rewrite P in O. rewrite P'. destruct O. by constructor.
  - injection E as <-. destruct (M DisconnectRemoved c) as (P & P' & S); [done..|].
    eapply (Inv_step _ _ i sid DisconnectStored _ c _ I H Hc); simpl; try done; try (by rewrite A); [by left| |other_sessions].
    intros v O. rewrite P in O. rewrite P'. destruct O. constructor; simpl in *; try done. set_solver.
  - injection E as <-. destruct (M (DisconnectExchanged (socket c)) (mkConn (started c) (state c) None)) as (P & P' & S); [done..|].
    eapply (Inv_step _ _ i sid DisconnectRemoved _ c _ I H Hc); simpl; try done; try (by rewrite A); [by left|].
    intros v O. rewrite P in O. rewrite P'. destruct O. constructor; simpl in *; try done. intros o [= <-]. done.
  - destruct (M DisconnectClosed c) as (P & P' & S); [done..|]. rewrite P in Ov.
    rewrite (co_exchanged _ _ _ _ _ Ov o eq_refl) in *. injection E as <-.
    assert (Hv : so !! v0 = Some sid) by (by apply (co_open _ _ _ _ _ Ov)). rewrite Hv. simpl.
    assert (Nc : sid ∉ cl.*1) by (by apply (co_closed _ _ _ _ _ Ov)).
    eapply (Inv_step _ _ i sid _ _ c _ I H Hc); simpl; try done; try (by rewrite A); [by left| | |other_sessions| |].
    + intros v O. rewrite P in O. rewrite P'. pose proof (co_exchanged _ _ _ _ _ O _ eq_refl) as [= <-].
      destruct O as [O1 O2 O3 O4 O5 O6 O7]. constructor; simpl in *; try done.
      * intros w. rewrite lookup_delete. case_decide as D; [split; [done|]; intros [_ ?]; done|].
        rewrite O3. split; [intros [-> _]; done|intros [_ ?]; done].
      * set_solver.
    + intros w k Nk. rewrite lookup_delete. case_decide as D; [|done]. subst w. rewrite Hv. split; [done|congruence].
    + split_and!; [by constructor|done|done].
    + by constructor.
  - injection E as <-. destruct (M DisconnectCounted c) as (P & P' & S); [done..|]. rewrite P in Ov.
    assert (Nc : sid ∉ co) by (by apply (co_counted _ _ _ _ _ Ov)).
    eapply (Inv_step _ _ i sid _ _ c _ I H Hc); simpl; try done; try (by rewrite A); [by left| |other_sessions| |].
    + intros v O. rewrite P in O. rewrite P'. destruct O as [O1 O2 O3 O4 O5 O6 O7]. constructor; simpl in *; try done.
      set_solver.
    + split_and!; [done|by constructor|done].
    + rewrite Ac, A by done. unfold usub. rewrite <-(Z.add_opp_r (u64 _)), u64_add_l. f_equal. lia.
  - injection E as <-. destruct (M Disconnected c) as (P & P' & S); [done..|]. rewrite P in Ov.
    assert (Nc : sid ∉ iv) by (by apply (co_invoked _ _ _ _ _ Ov)).
    eapply (Inv_step _ _ i sid _ _ c _ I H Hc); simpl; try done; try (by rewrite A); [by left| |other_sessions|].
    + intros v O. rewrite P in O. rewrite P'. destruct O as [O1 O2 O3 O4 O5 O6 O7]. constructor; simpl in *; try done.
      set_solver.
    + split_and!; [done|done|by constructor].
  - injection E as <-. eapply (Inv_step _ _ i sid PostCall _ c _ I H Hc); simpl; try done;
      [right; left; by destruct (socket c)|by destruct (socket c)| |rewrite A; [done|by destruct (socket c)]].
    intros v O. rewrite U by (try done; by destruct (socket c)). by destruct O.
  - assert (G : forall b po', Inv (mkSystem so (<[sid := c]> cs) re ac (<[i := (sid, Ended b)]> ts) cl co iv po')).
    { intros b po'. eapply (Inv_step _ _ i sid _ _ c _ I H Hc); simpl; try done; try (by rewrite A); [by right; left|].
      intros w O. rewrite U by done. by destruct O. }
    destruct (so !! v); [destruct ok|]; injection E as <-; apply G.
  - injection E as <-. pose proof (accepting_insert ts i sid AcceptInserted Accepted H) as P. simpl in P.
    eapply (Inv_step _ _ i sid AcceptInserted _ c _ I H Hc); simpl; try done; [by right; left| |].
    + intros w O. rewrite U by done. by destruct O.
    + rewrite Ac. unfold uadd. rewrite u64_add_l. f_equal. lia.
  - done.
  - done.
  - done.
Qed.

Lemma accept_Inv sid v s s' : Inv s -> occurs (Accept sid v) s = Some s' -> Inv s'.
Proof.
  intros I E. destruct s as [so cs re ac ts cl co iv po]. simpl in E.
  destruct (cs !! sid) eqn:Hc; [done|]. destruct (so !! v) eqn:Hv; [done|]. injection E as <-.
  pose proof (inv_known _ I sid Hc) as (K1 & K2 & K3 & K4 & K5). simpl in *.
  assert (W : winners sid ts = []).
  { destruct (winners sid ts) eqn:W; [done|]. destruct (inv_started _ I sid) as (x & Hx & _); simpl; [by rewrite W|].
    simpl in Hx. congruence. }
  assert (So : forall w k, k <> sid -> <[v := sid]> so !! w = Some k <-> so !! w = Some k).
  { intros w k Nk. rewrite lookup_insert. case_decide as D; [subst w; split; congruence|done]. }
  assert (Ew : forall k, winners k (ts ++ [(sid, AcceptInserted)]) = winners k ts) by (intros; by apply winners_call).
  constructor; simpl; try setoid_rewrite Ew; try apply I.
  - intros k Hk. destruct (inv_started _ I k Hk) as (x & Hx & Sx). simpl in Hx. exists x.
    rewrite lookup_insert_ne by congruence. done.
  - intros k y. rewrite lookup_insert. case_decide as D.
    + intros [= <-]. subst k. exists v. rewrite W. unfold phase_of. simpl. constructor; simpl; try done.
      * intros w. rewrite lookup_insert. case_decide as D; [by subst|]. split; [intros Hw; by destruct (K1 w)|].
        intros [-> _]. done.
      * set_solver.
    + intros Hy. destruct (inv_conns _ I k y Hy) as [w [O1 O2 O3 O4 O5 O6 O7]]. exists w. simpl in *.
      constructor; simpl; try done; [|set_solver].
      intros x. rewrite So by congruence. apply O3.
  - intros k. rewrite lookup_insert. case_decide as D; [done|]. intros Hk.
    destruct (inv_known _ I k Hk) as (L1 & L2 & L3 & L4 & L5). simpl in *. split_and!; try done; [|set_solver].
    intros w. rewrite So by congruence. apply L1.
  - pose proof (inv_active _ I) as Ac. simpl in Ac. rewrite Ac, map_size_insert_None by done.
    rewrite accepting_app, accepting_single. simpl. f_equal. lia.
Qed.

Lemma call_Inv sid a s :
  Inv s -> winning a = false -> pending_accept a = false ->
  Inv (mkSystem (sockets s) (conns s) (registry s) (active_connections s) (acts s ++ [(sid, a)])
         (closed s) (counted s) (invoked s) (posted s)).
Proof.
  intros I W P. assert (E : forall k, winners k (acts s ++ [(sid, a)]) = winners k (acts s)) by (intros; by apply winners_call).
  constructor; simpl; try setoid_rewrite E; try apply I.
  - intros k y Hy. destruct (inv_conns _ I k y Hy) as [w O]. exists w. by destruct O.
  - rewrite accepting_app, accepting_single, P, Nat.add_0_r. apply I.
Qed.

Lemma event_Inv e s s' : Inv s -> occurs e s = Some s' -> Inv s'.
Proof.
  intros I E. destruct e; [by eapply step_Inv|by eapply accept_Inv| |];
    destruct s as [so cs re ac ts cl co iv po]; simpl in E; destruct (cs !! sid); [|done| |done];
    injection E as <-; by apply (call_Inv _ _ _ I).
Qed.

Lemma start_Inv : Inv start.
Proof.
  constructor; simpl; try done.
  - intros sid. unfold winners. simpl. lia.
  - intros sid _. split_and!; set_solver.
  - split_and!; constructor.
Qed.

Lemma run_Inv es s s' : Inv s -> run_events es s = Some s' -> Inv s'.
Proof.
  revert s. induction es as [|e es IH]; intros s I E; simpl in E; [by simplify_eq|].
  destruct (occurs e s) as [s1|] eqn:E1; [|done]. eapply IH; [|exact E]. by eapply event_Inv.
Qed.

(** ** What the calls do *)

(** The steps a call has left. *)
Definition left (a : activity) : nat :=
  match a with
  | DisconnectCall => 7 | DisconnectWon => 6 | DisconnectStored => 5 | DisconnectRemoved => 4
  | DisconnectExchanged _ => 3 | DisconnectClosed => 2 | DisconnectCounted => 1
  | PostCall => 2 | PostSend _ => 1 | AcceptInserted => 1 | Disconnected | Accepted | Ended _ => 0
  end.

Lemma activity_progress ok sid a c s :
  match activity_step ok sid a c s with
  | Some (a', _, _) => (left a' < left a)%nat
  | None => left a = 0%nat
  end.
Proof.
  destruct s, a as [ | | | |[v|]| | | |v| | | |]; simpl; try lia; [by destruct (started c); simpl; lia| |].
  - destruct (socket c); simpl; lia.
  - destruct (_ !! v); [destruct ok|]; simpl; lia.
Qed.

(** A call of [Disconnect] that won or returned has set the flag. *)
Definition past_exchange (a : activity) : bool :=
  match a with Disconnected => true | _ => winning a end.

Definition flagged (s : system) : Prop :=
  forall i sid a, acts s !! i = Some (sid, a) -> past_exchange a = true ->
    exists c, conns s !! sid = Some c /\ started c = true.

Lemma activity_flag ok sid a c s a' c' s' :
  activity_step ok sid a c s = Some (a', c', s') ->
  (started c = true -> started c' = true) /\
  (past_exchange a' = true -> past_exchange a = true \/ started c' = true) /\
  conns s' = conns s /\ acts s' = acts s.
Proof.
  destruct s as [so cs re ac ts cl co iv po], a as [ | | | |[v|]| | | |v| | | |]; simpl; intros E; try done;
    try (injection E as <- <- <-; simpl; by auto).
  - injection E as <- <- <-. simpl. split_and!; auto. by destruct (socket c).
  - destruct (so !! v); [destruct ok|]; injection E as <- <- <-; auto.
Qed.

Lemma step_occurs i ok s s' :
  occurs (Step i ok) s = Some s' ->
  exists sid a c a' c' t, acts s !! i = Some (sid, a) /\ conns s !! sid = Some c /\
    activity_step ok sid a c s = Some (a', c', t) /\
    conns s' = <[sid := c']> (conns t) /\ acts s' = <[i := (sid, a')]> (acts t) /\ posted s' = posted t.
Proof.
  intros E. destruct s as [so cs re ac ts cl co iv po]. cbn [occurs acts conns] in *.
  destruct (ts !! i) as [[sid a]|]; [|done]. cbn [mbind option_bind] in E.
  destruct (cs !! sid) as [c|] eqn:Hc; [|done]. cbn [mbind option_bind] in E.
  destruct (activity_step _ _ _ _ _) as [[[a' c'] t]|] eqn:A; [|done]. cbn [mbind option_bind] in E.
  destruct t as [so' cs' re' ac' ts' cl' co' iv' po'] eqn:Et. injection E as <-.
  exists sid, a, c, a', c', t. rewrite Et. by split_and!.
Qed.

(** A new call has not. *)
Lemma flagged_call s sid a :
  flagged s -> past_exchange a = false ->
  forall i k b, (acts s ++ [(sid, a)]) !! i = Some (k, b) -> past_exchange b = true ->
    exists c, conns s !! k = Some c /\ started c = true.
Proof.
  intros F P i k b Hi Hb. apply lookup_app_Some in Hi as [Hi|[_ Hi]]; [by apply (F i k b)|].
  apply list_lookup_singleton_Some in Hi as [_ [= <- <-]]. congruence.
Qed.

Lemma event_flagged e s s' : flagged s -> occurs e s = Some s' -> flagged s'.
Proof.
  intros F E. destruct e as [i ok|sid v|sid|sid].
  - destruct (step_occurs i ok s s' E) as (sid & a & c & a' & c' & t & H & Hc & A & Ec' & Ea' & _).
    destruct (activity_flag ok sid a c s a' c' t A) as (G1 & G2 & Ec & Ea). rewrite Ec in Ec'. rewrite Ea in Ea'.
    intros j k b Hj Hb. rewrite Ec', lookup_insert. rewrite Ea' in Hj. apply list_lookup_insert_Some in Hj.
    destruct Hj as [(-> & [= <- <-] & _)|[_ Hj]].
    + rewrite decide_True by done. exists c'. split; [done|]. destruct (G2 Hb) as [P|?]; [|done].
      destruct (F _ sid a H P) as (x & Hx & Sx). simplify_eq. auto.
    + destruct (F j k b Hj Hb) as (x & Hx & Sx). case_decide as D; [|by exists x].
      subst k. simplify_eq. exists c'. auto.
  - destruct s as [so cs re ac ts cl co iv po]. simpl in E. destruct (cs !! sid) eqn:Hc; [done|].
    destruct (so !! v); [done|]. injection E as <-. intros j k b Hj Hb.
    destruct (flagged_call _ sid AcceptInserted F eq_refl j k b Hj Hb) as (x & Hx & Sx).
    simpl in *. exists x. rewrite lookup_insert_ne by congruence. done.
  - destruct s as [so cs re ac ts cl co iv po]. simpl in E. destruct (cs !! sid); [|done]. injection E as <-.
    exact (flagged_call _ sid DisconnectCall F eq_refl).
  - destruct s as [so cs re ac ts cl co iv po]. simpl in E. destruct (cs !! sid); [|done]. injection E as <-.
    exact (flagged_call _ sid PostCall F eq_refl).
Qed.

Lemma events_flagged es s s' : flagged s -> run_events es s = Some s' -> flagged s'.
Proof.
  revert s. induction es as [|e es IH]; intros s I E; simpl in E; [by simplify_eq|].
  destruct (occurs e s) as [s1|] eqn:E1; [|done]. eapply IH; [|exact E]. by eapply event_flagged.
Qed.

(** A call in progress can go on, and is then closer to its end. *)
Lemma call_progress i ok s sid a :
  acts s !! i = Some (sid, a) -> is_Some (conns s !! sid) -> (0 < left a)%nat ->
  exists s' a', occurs (Step i ok) s = Some s' /\ acts s' !! i = Some (sid, a') /\ (left a' < left a)%nat.
Proof.
  intros H [c Hc] L. pose proof (activity_progress ok sid a c s) as P.
  destruct (activity_step ok sid a c s) as [[[a' c'] t]|] eqn:A; [|lia].
  destruct (activity_flag ok sid a c s a' c' t A) as (_ & _ & Ec & Ea).
  destruct s as [so cs re ac ts cl co iv po], t as [so' cs' re' ac' ts' cl' co' iv' po']. simpl in *. subst ts' cs'.
  rewrite H. simpl. rewrite Hc. simpl. rewrite A. simpl. eexists _, a'. split_and!; [done| |done].
  simpl. apply list_lookup_insert_eq. by eapply lookup_lt_Some.
Qed.

Lemma no_winners ts sid : (forall i a, ts !! i = Some (sid, a) -> left a = 0%nat) -> winners sid ts = [].
Proof.
  intros H. unfold winners. destruct (filter _ ts) as [|[k a] l] eqn:E; [done|].
  assert (Hin : (k, a) ∈ filter (fun t => t.1 = sid /\ winning t.2 = true) ts) by (rewrite E; apply list_elem_of_here).
  apply list_elem_of_filter in Hin as [[Ek W] [i Hi]%list_elem_of_lookup]. simpl in *. subst k.
  pose proof (H i a Hi). by destruct a.
Qed.

Lemma none_accepting ts : (forall i sid a, ts !! i = Some (sid, a) -> left a = 0%nat) -> accepting ts = 0%nat.
Proof.
  intros H. unfold accepting. destruct (filter _ ts) as [|[k a] l] eqn:E; [done|].
  assert (Hin : (k, a) ∈ filter (fun t => pending_accept t.2 = true) ts) by (rewrite E; apply list_elem_of_here).
  apply list_elem_of_filter in Hin as [P [i Hi]%list_elem_of_lookup]. simpl in *.
  pose proof (H i k a Hi). by destruct a.
Qed.

(** With no call in progress every session is registered, or counted. *)
Lemma settled_active s :
  Inv s -> (forall i sid a, acts s !! i = Some (sid, a) -> left a = 0%nat) ->
  active_connections s = u64 (Z.of_nat (size (registry s))).
Proof.
  intros I H. rewrite (inv_active _ I), (none_accepting _ H). f_equal. destruct (inv_once _ I) as (_ & N & _).
  assert (P : forall sid, match conns s !! sid with
    | Some c => (sid ∈ registry s) <-> (sid ∉ counted s)
    | None => (sid ∉ registry s) /\ (sid ∉ counted s) end).
  { intros sid. destruct (conns s !! sid) as [c|] eqn:Hc; [|by apply (inv_known _ I) in Hc as (_ & ? & _ & ? & _)].
    destruct (inv_conns _ I sid c Hc) as [v [_ _ _ O4 _ O6 _]]. unfold phase_of in *.
    rewrite (no_winners _ sid) in * by (intros; by eapply H). rewrite O4, O6. by destruct (started c). }
  assert (E : dom (conns s) = registry s ∪ list_to_set (counted s)).
  { apply set_eq. intros k. rewrite elem_of_dom, elem_of_union, elem_of_list_to_set. specialize (P k).
    destruct (conns s !! k) as [c|]; [|destruct P; split; [intros [? ?]; done|by intros [?|?]]].
    split; [|by eauto]. intros _. destruct (decide (k ∈ counted s)); [by right|left; by apply P]. }
  rewrite <-(size_dom (conns s)), E, size_union, (size_list_to_set (counted s) N); [lia|].
  intros k Hr Hk%elem_of_list_to_set. specialize (P k). destruct (conns s !! k); [by apply P in Hr|by destruct P].
Qed.

(** C8. A session is disconnected once, by any number of threads.  In every
    interleaving of calls of [Disconnect], posts and new connections: no socket
    is closed twice, and none but the session's own; [active_connections] is
    lowered once and the disconnect handler is called once per session, and the
    counter is the number of sessions counted up and not yet down: with no call
    in progress, the number of sessions in the registry; a session nobody
    disconnects is registered and keeps its socket; once a call has returned
    and no other is in progress, the session is out of the registry, its socket
    is closed, and it has been counted and reported.  Every call in progress can
    go on, and ends after at most seven steps. *)
Theorem disconnect_once es s :
  run_events es start = Some s ->
  (NoDup (closed s).*1 /\ NoDup (counted s) /\ NoDup (invoked s) /\ (forall k o, (k, o) ∈ closed s -> o = k)) /\
  active_connections s =
    u64 (Z.of_nat (size (conns s)) - Z.of_nat (accepting (acts s)) - Z.of_nat (length (counted s))) /\
  ((forall i sid a, acts s !! i = Some (sid, a) -> left a = 0%nat) ->
     active_connections s = u64 (Z.of_nat (size (registry s)))) /\
  (forall sid c, conns s !! sid = Some c ->
    (started c = false -> sid ∈ registry s /\ (exists v, socket c = Some v /\ sockets s !! v = Some sid) /\
       (sid ∉ counted s) /\ (sid ∉ invoked s)) /\
    ((exists i, acts s !! i = Some (sid, Disconnected)) ->
     (forall i a, acts s !! i = Some (sid, a) -> left a = 0%nat) ->
       socket c = None /\ (sid ∉ registry s) /\ (forall v, sockets s !! v <> Some sid) /\
       sid ∈ (closed s).*1 /\ sid ∈ counted s /\ sid ∈ invoked s)) /\
  (forall i sid a, acts s !! i = Some (sid, a) -> is_Some (conns s !! sid) -> left a <> 0%nat ->
     (left a <= 7)%nat /\ forall ok, exists s' a',
       occurs (Step i ok) s = Some s' /\ acts s' !! i = Some (sid, a') /\ (left a' < left a)%nat).
Proof.
  intros R. pose proof (run_Inv es start s start_Inv R) as I.
  assert (F : flagged s) by (eapply events_flagged; [|exact R]; by intros [|i] sid a).
  destruct (inv_once _ I) as (N1 & N2 & N3). split_and!; [done..| |apply I|by apply settled_active| |].
  - intros k o Hin. pose proof (proj1 (Forall_forall _ _) (inv_own _ I) _ Hin) as E. by simpl in E.
  - intros sid c Hc. destruct (inv_conns _ I sid c Hc) as [v [O1 O2 O3 O4 O5 O6 O7]]. unfold phase_of in *. split.
    + intros S. rewrite S in *. split_and!; [by apply O4| |by apply O6|by apply O7].
      exists v. split; [done|]. by apply O3.
    + intros [i Hi] Hd. destruct (F i sid _ Hi eq_refl) as (x & Hx & S). simplify_eq.
      rewrite S, (no_winners _ _ Hd) in *. simpl in *. split_and!; [done| | | | |].
      * rewrite O4. done.
      * intros w Hw%O3. by destruct Hw.
      * destruct (decide (sid ∈ (closed s).*1)) as [?|?%O5]; done.
      * destruct (decide (sid ∈ counted s)) as [?|?%O6]; done.
      * destruct (decide (sid ∈ invoked s)) as [?|?%O7]; done.
  - intros i sid a H K L. split; [destruct a; simpl; lia|]. intros ok. apply call_progress; [done|done|lia].
Qed.

(** ** The operations posted meanwhile *)

(** A connection is closed between the load of the socket and the call of the
    system, and a new one gets its value. *)
Definition reuse_run : list event :=
  [Accept 1 7; CallPost 1; CallDisconnect 1; Step 1 true; Step 2 true; Step 2 true; Step 2 true; Step 2 true;
   Step 2 true; Accept 2 7; Step 1 true].

(** C36. An operation is posted on the connection of its session as long as the
    session's socket is open.  But [PostRead] and [PostWrite] load the socket
    before they use it, and nothing keeps it open in between: when another
    thread disconnects the session and the system gives the value to a new
    connection, the operation is posted on that connection, so a message for
    one client is sent to another, or its bytes are read as the other's. *)
Theorem socket_reuse es s :
  run_events es start = Some s ->
  (forall i sid v c, acts s !! i = Some (sid, PostSend v) -> conns s !! sid = Some c -> socket c = Some v ->
     exists s', occurs (Step i true) s = Some s' /\ posted s' = (sid, sid) :: posted s) /\
  (forall i sid v, acts s !! i = Some (sid, PostSend v) -> is_Some (conns s !! sid) -> sockets s !! v = None ->
     forall ok s', occurs (Step i ok) s = Some s' -> posted s' = posted s) /\
  (exists r, run_events reuse_run start = Some r /\ posted r = [(1, 2)]).
Proof.
  intros R. pose proof (run_Inv es start s start_Inv R) as I. split_and!.
  - intros i sid v c H Hc E. destruct (inv_conns _ I sid c Hc) as [w [O1 _ O3 _ _ _ _]].
    assert (Hv : sockets s !! v = Some sid).
    { apply O3. rewrite E in O1. destruct (phase_of _ _) as [|[]|]; simpl in *; by simplify_eq. }
    destruct s as [so cs re ac ts cl co iv po]. simpl in *. rewrite H. simpl. rewrite Hc. simpl. rewrite Hv. simpl.
    by eexists.
  - intros i sid v H [c Hc] N ok s' E. destruct (step_occurs i ok s s' E) as (k & a & y & a' & c' & t & H1 & _ & A & _ & _ & ->).
    rewrite H in H1. injection H1 as <- <-. destruct s as [so cs re ac ts cl co iv po]. simpl in *. rewrite N in A.
    by injection A as <- <- <-.
  - eexists. split; vm_compute; reflexivity.
Qed.

(** ** Witnesses *)

(** Two threads disconnect session 1, and a third starts a post. *)
Definition twice_run : list event :=
  [Accept 1 7; CallDisconnect 1; CallDisconnect 1; Step 2 true; Step 1 true] ++ replicate 6 (Step 2 true) ++ [Step 0 true].

Lemma disconnect_once_witness :
  exists s, run_events twice_run start = Some s /\ NoDup (invoked s) /\ 1 ∈ invoked s.
Proof.
  destruct (run_events twice_run start) as [s|] eqn:E; [|vm_compute in E; discriminate].
  exists s. split; [done|]. destruct (disconnect_once twice_run s E) as ((_ & _ & N & _) & _ & _ & P & _).
  split; [exact N|]. vm_compute in E. injection E as <-.
  destruct (P 1 (mkConn true Closed None) eq_refl) as [_ G].
  apply G; [by exists 1%nat|]. by intros [|[|[|i]]] a; simpl; intros [= <-].
Defined.

Lemma socket_reuse_witness :
  exists s, run_events [Accept 1 7; CallPost 1; Step 1 true] start = Some s /\
    exists s', occurs (Step 1 true) s = Some s' /\ posted s' = [(1, 1)].
Proof.
  destruct (run_events [Accept 1 7; CallPost 1; Step 1 true] start) as [s|] eqn:E; [|vm_compute in E; discriminate].
  exists s. split; [done|]. destruct (socket_reuse _ s E) as (P & _). vm_compute in E. injection E as <-.
  apply (P 1%nat 1 7 (mkConn false Handshaking (Some 7))); reflexivity.
Defined.
