(* ===== verification/WritePath.v ===== *)
(** * The write path under preemption (src/src/core/iocp_server.cpp)

    [Enqueue], [StartNextWrite], [PostWrite], [HandleWrite], [FinishWrite] and
    [Disconnect] with any number of threads: a step is one region under
    [send_mutex] or one atomic access, and the steps of any number of calls are
    interleaved.  [ReserveGlobalQueued] is one step
    ([Concurrency.reserve_linearizable]).  The counters of messages, the
    registry and the handlers are left to [Server]. *)

From S2P Require Import Prelude SessionHandle OutboundQueue SendCursor ServerTypes Server.
From S2P Require Import ServerInbound ServerInvariant Concurrency.

(** Where a call stands, or an operation at the completion port. *)
Inductive activity :=
| EnqueueCall (item : OutboundItem)            (** before the lock *)
| EnqueueTested (item : OutboundItem)          (** locked, [disconnect_started] was false *)
| EnqueueReserved (item : OutboundItem)        (** locked, within both limits, reserved *)
| StartNext                                    (** [StartNextWrite] before the lock *)
| NewWrite (item : OutboundItem)               (** taken off the queue *)
| NoWrite (item : OutboundItem)                (** the allocation failed *)
| NoWriteUnqueued (item : OutboundItem)        (** taken off [queued_bytes] *)
| PostCall (op : WriteOperation)               (** [PostWrite] *)
| PostSend (op : WriteOperation)               (** the socket was valid *)
| AtPort (op : WriteOperation)
| FinishCall (op : WriteOperation) (ok : bool)     (** [FinishWrite] before the lock *)
| FinishUnqueued (op : WriteOperation) (ok : bool) (** taken off [queued_bytes] *)
| DisconnectCall
| DisconnectStarted                            (** won the exchange *)
| DisconnectClosed                             (** socket closed, before the lock *)
| DisconnectDropping                           (** locked, in the loop *)
| Ended.

Section steps.
Context (config : ServerConfig).

Definition session_full (c : ClientSession) (bytes : Z) : bool :=
  (max_session_queued_bytes config <? bytes)
  || ((max_session_queued_bytes config - bytes)%u64 <? queued_bytes c).

Definition unqueue (bytes : Z) (c : ClientSession) : ClientSession :=
  set_queued_bytes (if queued_bytes c <? bytes then 0 else (queued_bytes c - bytes)%u64) c.

(** One step of a call on the session [sid]: the call, the session, whether its
    [send_mutex] is held, [metrics.queued_bytes]. *)
Inductive act_step (sid : Z) :
  activity * ClientSession * bool * Z -> activity * ClientSession * bool * Z -> Prop :=
| enqueue_down item c t :
    disconnect_started c = true ->
    act_step sid (EnqueueCall item, c, false, t) (Ended, c, false, t)
| enqueue_lock item c t :
    disconnect_started c = false ->
    act_step sid (EnqueueCall item, c, false, t) (EnqueueTested item, c, true, t)
| enqueue_refused item c l t :
    session_full c (item_bytes item) || over_budget config (item_bytes item) t = true ->
    act_step sid (EnqueueTested item, c, l, t) (Ended, c, false, t)
| enqueue_reserve item c l t :
    session_full c (item_bytes item) || over_budget config (item_bytes item) t = false ->
    act_step sid (EnqueueTested item, c, l, t) (EnqueueReserved item, c, l, (t + item_bytes item)%u64)
| enqueue_push item c l t :
    act_step sid (EnqueueReserved item, c, l, t)
      (if write_active c then Ended else StartNext,
       set_write_active true (set_send_queue (send_queue c ++ [item])
         (set_queued_bytes (queued_bytes c + item_bytes item)%u64 c)), false, t)
| start_empty c t :
    send_queue c = [] ->
    act_step sid (StartNext, c, false, t) (Ended, set_write_active false c, false, t)
| start_pop c t item rest :
    send_queue c = item :: rest ->
    act_step sid (StartNext, c, false, t) (NewWrite item, set_send_queue rest c, false, t)
| new_failed item c l t : act_step sid (NewWrite item, c, l, t) (NoWrite item, c, l, t)
| new_made item c l t cursor :
    SendCursor.construct (item_header item) (Some (item_payload item)) = Some cursor ->
    act_step sid (NewWrite item, c, l, t)
      (PostCall (mkWrite sid cursor (item_close_after item)), c, l, t)
| no_write_unqueue item c t :
    act_step sid (NoWrite item, c, false, t)
      (NoWriteUnqueued item, set_queued_bytes (queued_bytes c - item_bytes item)%u64 c, false, t)
| no_write_release item c l t :
    act_step sid (NoWriteUnqueued item, c, l, t) (DisconnectCall, c, l, (t - item_bytes item)%u64)
| post_invalid op c l t :
    socket c = false -> act_step sid (PostCall op, c, l, t) (FinishCall op false, c, l, t)
| post_valid op c l t :
    socket c = true -> act_step sid (PostCall op, c, l, t) (PostSend op, c, l, t)
| post_failed op c l t : act_step sid (PostSend op, c, l, t) (FinishCall op false, c, l, t)
| post_done op c l t : act_step sid (PostSend op, c, l, t) (AtPort op, c, l, t)
| write_failed op c l t : act_step sid (AtPort op, c, l, t) (FinishCall op false, c, l, t)
| write_partial op c l t n :
    0 < n <= size_max -> Complete (Consume n (op_cursor op)) = false ->
    act_step sid (AtPort op, c, l, t)
      (PostCall (mkWrite (op_session op) (Consume n (op_cursor op)) (op_close_after op)), c, l, t)
| write_complete op c l t n :
    0 < n <= size_max -> Complete (Consume n (op_cursor op)) = true ->
    act_step sid (AtPort op, c, l, t)
      (FinishCall (mkWrite (op_session op) (Consume n (op_cursor op)) (op_close_after op)) true, c, l, t)
| finish_unqueue op ok c t :
    act_step sid (FinishCall op ok, c, false, t)
      (FinishUnqueued op ok, unqueue (TotalSize (op_cursor op)) c, false, t)
| finish_release op ok c l t :
    act_step sid (FinishUnqueued op ok, c, l, t)
      (if negb ok || op_close_after op then DisconnectCall else StartNext,
       c, l, (t - TotalSize (op_cursor op))%u64)
| disconnect_again c l t :
    disconnect_started c = true -> act_step sid (DisconnectCall, c, l, t) (Ended, c, l, t)
| disconnect_first c l t :
    disconnect_started c = false ->
    act_step sid (DisconnectCall, c, l, t) (DisconnectStarted, set_disconnect_started true c, l, t)
| disconnect_close c l t :
    act_step sid (DisconnectStarted, c, l, t)
      (DisconnectClosed, set_socket false (set_state Closed c), l, t)
| disconnect_lock c t :
    act_step sid (DisconnectClosed, c, false, t) (DisconnectDropping, c, true, t)
| disconnect_drop c l t item rest :
    send_queue c = item :: rest ->
    act_step sid (DisconnectDropping, c, l, t)
      (DisconnectDropping, set_send_queue rest (set_queued_bytes (queued_bytes c - item_bytes item)%u64 c),
       l, (t - item_bytes item)%u64)
| disconnect_done c l t :
    send_queue c = [] -> act_step sid (DisconnectDropping, c, l, t) (Ended, c, false, t).

(** The sessions with their mutex, [metrics.queued_bytes], the calls in progress
    and the operations at the port. *)
Record system := mkSystem {
  clients : gmap Z (ClientSession * bool);
  queued : Z;
  activities : list (Z * activity);
}.

(** Progress of one call in progress, or a completion. *)
Inductive internal : system -> system -> Prop :=
| internal_step cs t acts i sid a c l a' c' l' t' :
    acts !! i = Some (sid, a) -> cs !! sid = Some (c, l) ->
    act_step sid (a, c, l, t) (a', c', l', t') ->
    internal (mkSystem cs t acts) (mkSystem (<[sid := (c', l')]> cs) t' (<[i := (sid, a')]> acts)).

(** New sessions and new calls, by any thread. *)
Inductive external : system -> system -> Prop :=
| external_accept cs t acts sid h now :
    cs !! sid = None ->
    external (mkSystem cs t acts) (mkSystem (<[sid := (new_session config h now, false)]> cs) t acts)
| external_enqueue cs t acts sid item :
    is_Some (cs !! sid) -> item_wf item ->
    external (mkSystem cs t acts) (mkSystem cs t (acts ++ [(sid, EnqueueCall item)]))
| external_disconnect cs t acts sid :
    is_Some (cs !! sid) ->
    external (mkSystem cs t acts) (mkSystem cs t (acts ++ [(sid, DisconnectCall)])).

Definition step (s s' : system) : Prop := internal s s' \/ external s s'.

Definition initial : system := mkSystem ∅ 0 [].

(** ** What each call holds *)

(** The mutex; a place between the test of [disconnect_started] and the push;
    the right to write; the call that will disconnect; the disconnection that
    has yet to clear the queue. *)
Definition lock_of (a : activity) : Z :=
  match a with EnqueueTested _ | EnqueueReserved _ | DisconnectDropping => 1 | _ => 0 end.
Definition entering (a : activity) : Z :=
  match a with EnqueueTested _ | EnqueueReserved _ => 1 | _ => 0 end.
Definition token (a : activity) : Z :=
  match a with
  | StartNext | NewWrite _ | NoWrite _ | NoWriteUnqueued _ | PostCall _ | PostSend _ | AtPort _
  | FinishCall _ _ | FinishUnqueued _ _ => 1
  | _ => 0
  end.
Definition calling (a : activity) : Z := match a with DisconnectCall => 1 | _ => 0 end.
Definition clearing (a : activity) : Z :=
  match a with DisconnectStarted | DisconnectClosed | DisconnectDropping => 1 | _ => 0 end.

(** Bytes counted by the session but not in its queue; bytes counted globally
    but not by the session; of these, the ones reserved for the session. *)
Definition held (a : activity) : Z :=
  match a with
  | NewWrite item | NoWrite item => item_bytes item
  | PostCall op | PostSend op | AtPort op | FinishCall op _ => TotalSize (op_cursor op)
  | _ => 0
  end.
Definition debt (a : activity) : Z :=
  match a with
  | EnqueueReserved item | NoWriteUnqueued item => item_bytes item
  | FinishUnqueued op _ => TotalSize (op_cursor op)
  | _ => 0
  end.
Definition reserved (a : activity) : Z :=
  match a with EnqueueReserved item => item_bytes item | _ => 0 end.

Definition activity_wf (a : activity) : Prop :=
  match a with
  | EnqueueCall item | EnqueueTested item | EnqueueReserved item | NewWrite item | NoWrite item
  | NoWriteUnqueued item => item_wf item
  | PostCall op | PostSend op | AtPort op | FinishCall op _ | FinishUnqueued op _ =>
      SendCursor.wf (op_cursor op)
  | _ => True
  end.

Lemma item_bytes_nonneg item : 0 <= item_bytes item.
Proof. apply u64_range. Qed.

Lemma TotalSize_nonneg c : 0 <= TotalSize c.
Proof. apply u64_range. Qed.

#[local] Hint Resolve item_bytes_nonneg TotalSize_nonneg : core.

(** A weight of calls: not negative. *)
Definition weight (w : activity -> Z) : Prop := forall a, 0 <= w a.

Lemma weights :
  weight lock_of /\ weight entering /\ weight token /\ weight calling /\ weight clearing /\
  weight held /\ weight debt /\ weight reserved.
Proof. split_and!; intros []; simpl; auto; lia. Qed.

(** The total of a weight over the calls on one session. *)
Definition on (sid : Z) (w : activity -> Z) (a : Z * activity) : Z :=
  if decide (a.1 = sid) then w a.2 else 0.

Definition sum_on (sid : Z) (acts : list (Z * activity)) (w : activity -> Z) : Z :=
  list_sum (on sid w) acts.

(** ** The invariant of one session

    [S w] stands for the total of [w] over the calls on the session. *)
Record session_ok (c : ClientSession) (l : bool) (S : (activity -> Z) -> Z) : Prop := {
  sk_lock : S lock_of = if l then 1 else 0;
  sk_token : S token <= 1;
  sk_idle : write_active c = false -> S token = 0 /\ send_queue c = [];
  sk_active : write_active c = true ->
    1 <= S token + S calling + (if disconnect_started c then 1 else 0);
  sk_queued : queued_bytes c = queue_sum (send_queue c) + S held;
  sk_limit : queued_bytes c + S reserved <= max_session_queued_bytes config;
  sk_down : disconnect_started c = true -> S clearing = 0 ->
    send_queue c = [] /\ S entering = 0;
  sk_items : Forall item_wf (send_queue c);
}.

(** What [S] knows of a call [a] that is one of those it sums over. *)
Record sums (a : activity) (S : (activity -> Z) -> Z) : Prop := {
  su_le : forall w, weight w -> w a <= S w;
  su_only : forall f g, weight f -> weight g -> (forall b, g b = 0 -> f b = 0) ->
    S g <= g a -> S f = f a;
}.

Lemma sums_on sid acts i a : acts !! i = Some (sid, a) -> sums a (sum_on sid acts).
Proof.
  intros H. assert (E : forall w, on sid w (sid, a) = w a) by (intros w; unfold on; simpl; by case_decide).
  assert (P : forall w, weight w -> forall x, 0 <= on sid w x)
    by (intros w W x; unfold on; case_decide; [apply W|done]).
  constructor.
  - intros w W. rewrite <-E. by apply (list_sum_lookup (on sid w) _ i); [apply P|].
  - intros f g F G Z L. rewrite <-E. rewrite <-E in L.
    apply (list_sum_only (on sid f) (on sid g) acts i); auto.
    intros x. unfold on. case_decide; [apply Z|done].
Qed.

Lemma sum_on_update sid acts i a a' w :
  acts !! i = Some (sid, a) -> sum_on sid (<[i := (sid, a')]> acts) w = sum_on sid acts w - w a + w a'.
Proof.
  intros H. unfold sum_on. rewrite (list_sum_insert _ _ _ _ _ H). unfold on. simpl. by rewrite !decide_True.
Qed.

Lemma sum_on_other sid k acts i a a' w :
  k <> sid -> acts !! i = Some (sid, a) -> sum_on k (<[i := (sid, a')]> acts) w = sum_on k acts w.
Proof.
  intros Hk H. unfold sum_on. rewrite (list_sum_insert _ _ _ _ _ H). unfold on. simpl.
  rewrite !decide_False by done. lia.
Qed.

Lemma queue_sum_nonneg' q : 0 <= queue_sum q.
Proof. induction q as [|item q IH]; simpl; [lia|]. pose proof (item_bytes_nonneg item). lia. Qed.

Section one_step.
Context (sid : Z) (a : activity) (S S' : (activity -> Z) -> Z).
Context (Hin : sums a S) (Hw : activity_wf a).

Context (c : ClientSession) (l : bool) (Hok : session_ok c l S).

(** Nobody else is in a region while [a] holds the mutex. *)
Lemma alone f :
  lock_of a = 1 -> weight f -> (forall b, lock_of b = 0 -> f b = 0) -> S f = f a.
Proof.
  intros L F Z. destruct weights as (Wl & _). apply (su_only _ _ Hin f lock_of F Wl Z).
  rewrite (sk_lock _ _ _ Hok), L. destruct l; lia.
Qed.

Lemma session_bounds :
  (forall w, weight w -> 0 <= S w) -> 0 <= queue_sum (send_queue c) /\ 0 <= S held /\ 0 <= queued_bytes c.
Proof.
  intros P. pose proof (queue_sum_nonneg' (send_queue c)). destruct weights as (_&_&_&_&_&Wh&_).
  pose proof (P held Wh). rewrite (sk_queued _ _ _ Hok). lia.
Qed.
End one_step.

Lemma session_full_spec c b :
  is_u64 (max_session_queued_bytes config) -> 0 <= b -> 0 <= queued_bytes c ->
  session_full c b = false <-> queued_bytes c + b <= max_session_queued_bytes config.
Proof.
  intros M Hb Hq. unfold session_full, is_u64 in *. rewrite orb_false_iff, Z.ltb_ge, Z.ltb_ge. split.
  - intros [H1 H2]. rewrite usub_small in H2 by lia. lia.
  - intros H. rewrite usub_small by lia. lia.
Qed.

Lemma over_budget_spec b t :
  is_u64 (max_global_queued_bytes config) -> 0 <= b -> 0 <= t ->
  over_budget config b t = false <-> t + b <= max_global_queued_bytes config.
Proof.
  intros M Hb Hq. unfold over_budget, is_u64 in *. rewrite orb_false_iff, Z.ltb_ge, Z.ltb_ge. split.
  - intros [H1 H2]. rewrite usub_small in H2 by lia. lia.
  - intros H. rewrite usub_small by lia. lia.
Qed.

(** ** One step keeps it *)

Context (Hs : is_u64 (max_session_queued_bytes config)).
Context (Hg : is_u64 (max_global_queued_bytes config)).

(** The invariant after the step from the totals [E] and the invariant before:
    the fields that are implications use the one they preserve. *)
Ltac totals E :=
  rewrite ?(E lock_of), ?(E entering), ?(E token), ?(E calling), ?(E clearing), ?(E held),
    ?(E debt), ?(E reserved); simpl.
Ltac conclude := first [done | exfalso; lia | split; [lia|done] | split; [done|lia] | lia].
Ltac restore E :=
  constructor; totals E; try done; try lia;
  try (match goal with K : _ = (if ?b then 1 else 0) |- _ = _ => destruct b; lia end);
  try (intros ?; first [congruence | lia | match goal with
    | I : write_active _ = false -> _ /\ _ |- _ /\ _ => first [destruct I as [? ?]; [done|]; conclude|conclude]
    | A : write_active _ = true -> _ |- 1 <= _ => first [specialize (A ltac:(done)); lia|lia]
    end]);
  try (intros ? ?; first [congruence | match goal with
    | D : disconnect_started _ = true -> _ -> _ |- _ =>
        first [destruct D as [? ?]; [done|lia|]; conclude|conclude]
    end]).

(** The conclusion of a step, and the facts a step starts from. *)
Definition kept (c : ClientSession) (t : Z) (a a' : activity) (c' : ClientSession) (l' : bool)
    (t' : Z) (S' : (activity -> Z) -> Z) : Prop :=
  session_ok c' l' S' /\ activity_wf a' /\
  t' - t = (queued_bytes c' - queued_bytes c) + (debt a' - debt a) /\
  t' <= max_global_queued_bytes config.

Inductive group := Enqueuing | Writing | Disconnecting.
Definition group_of (a : activity) : group :=
  match a with
  | EnqueueCall _ | EnqueueTested _ | EnqueueReserved _ => Enqueuing
  | DisconnectCall | DisconnectStarted | DisconnectClosed | DisconnectDropping => Disconnecting
  | _ => Writing
  end.

Section kept.
Context (sid : Z) (a : activity) (c : ClientSession) (l : bool) (t : Z) (a' : activity).
Context (c' : ClientSession) (l' : bool) (t' : Z) (S S' : (activity -> Z) -> Z).
Context (Hin : sums a S) (E : forall w, S' w = S w - w a + w a').
Context (W : activity_wf a) (Hok : session_ok c l S).
Context (Ht : queued_bytes c + debt a <= t <= max_global_queued_bytes config).
Context (St : act_step sid (a, c, l, t) (a', c', l', t')).

Ltac begin :=
  unfold kept; pose proof (alone a S Hin c l Hok) as AL;
  pose proof (session_bounds S c l Hok) as B;
  pose proof weights as (W1 & W2 & W3 & W4 & W5 & W6 & W7 & W8);
  specialize (B ltac:(intros w Hw; pose proof (su_le _ _ Hin w Hw); pose proof (Hw a); lia));
  pose proof (su_le _ _ Hin _ W1) as L1;
  pose proof (su_le _ _ Hin _ W2) as L2;
  pose proof (su_le _ _ Hin _ W3) as L3;
  pose proof (su_le _ _ Hin _ W4) as L4;
  pose proof (su_le _ _ Hin _ W5) as L5;
  pose proof (su_le _ _ Hin _ W6) as L6;
  pose proof (su_le _ _ Hin _ W8) as L8;
  pose proof Hok as [K T I A Q L D F];
  assert (D0 : 0 <= (if disconnect_started c then 1 else 0)) by (by destruct (disconnect_started c));
  pose proof Hs as Hs';
  pose proof Hg as Hg'; unfold is_u64, size_max in Hs', Hg';
  inversion St; subst; simpl in *; try done;
  try (split_and!; [restore E|done|lia|lia]; fail).

Lemma enqueue_kept : group_of a = Enqueuing -> kept c t a a' c' l' t' S'.
Proof.
  intros G. begin.
  - apply orb_false_iff in H0 as [F1 F2]. pose proof (item_bytes_nonneg item) as N.
    apply session_full_spec in F1; [|done|done|lia]. apply over_budget_spec in F2; [|done|done|lia].
    rewrite uadd_small by (unfold size_max; lia).
    pose proof (AL reserved eq_refl W8 ltac:(by intros [])) as AR. simpl in AR.
    split_and!; [restore E|done|lia|lia].
  - pose proof (item_bytes_nonneg item) as N. rewrite uadd_small by (unfold size_max; lia).
    destruct (write_active c) eqn:WA; (split_and!; [restore E|done|simpl; lia|lia]);
      simpl; rewrite ?queue_sum_app; simpl; try lia; apply Forall_app; split; try done; by constructor.
Qed.

Lemma write_kept : group_of a = Writing -> kept c t a a' c' l' t' S'.
Proof.
  intros G. begin.
  - rewrite H0 in *. apply Forall_cons in F as [F0 F]. simpl in Q.
    split_and!; [restore E|done|lia|lia].
  - destruct (construct_item item W) as (cursor' & Ec & Wc & Tc). simplify_eq.
    split_and!; [restore E|done|lia|lia].
  - pose proof (item_bytes_nonneg item) as N. rewrite usub_small by (unfold size_max; lia).
    split_and!; [restore E|done|lia|lia].
  - pose proof (item_bytes_nonneg item) as N. rewrite usub_small by (unfold size_max; lia).
    split_and!; [restore E|done|lia|lia].
  - destruct (Consume_spec n _ W ltac:(lia)) as (W' & Ew & _).
    assert (TS : TotalSize (Consume n (op_cursor op)) = TotalSize (op_cursor op))
      by (rewrite !TotalSize_wire by done; by rewrite Ew).
    split_and!; [restore E|done|lia|lia].
  - destruct (Consume_spec n _ W ltac:(lia)) as (W' & Ew & _).
    assert (TS : TotalSize (Consume n (op_cursor op)) = TotalSize (op_cursor op))
      by (rewrite !TotalSize_wire by done; by rewrite Ew).
    split_and!; [restore E|done|lia|lia].
  - pose proof (TotalSize_nonneg (op_cursor op)) as N.
    rewrite (proj2 (Z.ltb_ge _ _)) by lia. rewrite usub_small by (unfold size_max; lia).
    assert (U : unqueue (TotalSize (op_cursor op)) c =
      set_queued_bytes (queued_bytes c - TotalSize (op_cursor op)) c).
    { unfold unqueue. rewrite (proj2 (Z.ltb_ge _ _)) by lia. by rewrite usub_small by (unfold size_max; lia). }
    rewrite U. split_and!; [restore E|done|lia|lia].
  - pose proof (TotalSize_nonneg (op_cursor op)) as N. rewrite usub_small by (unfold size_max; lia).
    destruct (negb ok || op_close_after op); (split_and!; [restore E|done|simpl; lia|lia]).
Qed.

Lemma disconnect_kept : group_of a = Disconnecting -> kept c t a a' c' l' t' S'.
Proof.
  intros G. begin.
  - assert (D1 : (if disconnect_started c' then 1 else 0) = 1) by (by rewrite H0).
    split_and!; [restore E|done|lia|lia].
  - pose proof (item_bytes_nonneg item) as N. rewrite H0 in *. apply Forall_cons in F as [F0 F].
    simpl in Q, B. pose proof (queue_sum_nonneg' rest).
    rewrite !usub_small by (unfold size_max; lia). split_and!; [restore E|done|lia|lia].
  - pose proof (AL entering eq_refl W2 ltac:(by intros [])) as AR. simpl in AR.
    split_and!; [restore E|done|lia|lia].
Qed.

Lemma act_step_kept : kept c t a a' c' l' t' S'.
Proof.
  destruct (group_of a) eqn:G; [by apply enqueue_kept|by apply write_kept|by apply disconnect_kept].
Qed.
End kept.

(** ** The invariant of the system *)

Record system_ok (s : system) : Prop := {
  sy_sessions : forall sid c l,
    clients s !! sid = Some (c, l) -> session_ok c l (sum_on sid (activities s));
  sy_total : queued s = map_sum (fun x => queued_bytes x.1) (clients s)
                        + list_sum (fun x => debt x.2) (activities s);
  sy_limit : queued s <= max_global_queued_bytes config;
  sy_known : forall i sid a, activities s !! i = Some (sid, a) ->
    is_Some (clients s !! sid) /\ activity_wf a;
}.

Lemma sum_on_nonneg sid acts w : weight w -> 0 <= sum_on sid acts w.
Proof. intros W. apply list_sum_nonneg. intros x. unfold on. case_decide; [apply W|done]. Qed.

Lemma session_nonneg s sid x :
  system_ok s -> clients s !! sid = Some x -> 0 <= queued_bytes x.1.
Proof.
  intros Hok H. destruct x as [c l]. apply (session_bounds (sum_on sid (activities s)) c l).
  - by apply (sy_sessions _ Hok).
  - intros w W. by apply sum_on_nonneg.
Qed.

Lemma debts_nonneg (acts : list (Z * activity)) : forall x : Z * activity, x ∈ acts -> 0 <= debt x.2.
Proof. intros x _. apply weights. Qed.

(** The bytes of one session and of one call are part of the total. *)
Lemma part_of_total s i sid a c l :
  system_ok s -> activities s !! i = Some (sid, a) -> clients s !! sid = Some (c, l) ->
  queued_bytes c + debt a <= queued s.
Proof.
  intros Hok Hi Hc. rewrite (sy_total _ Hok).
  pose proof (map_sum_lookup (fun x => queued_bytes x.1) (clients s) sid (c, l)
    (fun k x => session_nonneg s k x Hok) Hc) as M. simpl in M.
  pose proof (list_sum_lookup (fun x => debt x.2) (activities s) i (sid, a)
    ltac:(intros x; apply weights) Hi) as A. simpl in A. lia.
Qed.

Lemma internal_ok s s' : system_ok s -> internal s s' -> system_ok s'.
Proof.
  intros Hok St. destruct St as [cs t acts i sid a c l a' c' l' t' Hi Hc St].
  pose proof (part_of_total _ _ _ _ _ _ Hok Hi Hc) as P. simpl in P.
  pose proof Hok as [SS TT LL KK]. simpl in *. destruct (KK _ _ _ Hi) as [_ W].
  destruct (act_step_kept sid a c l t a' c' l' t' (sum_on sid acts)
    (sum_on sid (<[i := (sid, a')]> acts))) as (Sk & W' & D & L'); try done.
  - by eapply sums_on.
  - intros w. by apply sum_on_update.
  - by apply SS.
  - constructor; simpl.
    + intros k c1 l1. rewrite lookup_insert. case_decide as Ek; [intros [= <- <-]; by subst k|].
      intros H. pose proof (SS k c1 l1 H) as [? ? ? ? ? ? ? ?].
      constructor; rewrite ?(sum_on_other sid k acts i a a') by done; done.
    + rewrite (map_sum_update _ _ _ _ _ Hc), (list_sum_insert _ _ _ _ _ Hi). simpl. lia.
    + done.
    + intros j k b Hj. apply list_lookup_insert_Some in Hj as [(<- & [= <- <-] & _)|(_ & Hj)].
      * split; [|done]. rewrite lookup_insert_eq. done.
      * destruct (KK _ _ _ Hj) as [K1 K2]. split; [|done].
        rewrite lookup_insert. case_decide; [done|done].
Qed.

Lemma sum_on_snoc sid acts k b w :
  sum_on sid (acts ++ [(k, b)]) w = sum_on sid acts w + if decide (k = sid) then w b else 0.
Proof. unfold sum_on. rewrite list_sum_app. unfold on at 2. simpl. lia. Qed.

(** A call that has done nothing yet. *)
Lemma call_ok cs t acts sid a :
  system_ok (mkSystem cs t acts) -> is_Some (cs !! sid) -> activity_wf a -> debt a = 0 ->
  lock_of a = 0 -> token a = 0 -> 0 <= calling a -> held a = 0 -> reserved a = 0 ->
  clearing a = 0 -> entering a = 0 -> system_ok (mkSystem cs t (acts ++ [(sid, a)])).
Proof.
  intros [SS TT LL KK] Hs' W D L T C H R Cl En. simpl in *. constructor; simpl.
  - intros k c l Hk. pose proof (SS k c l Hk) as [? ? ? ? ? ? ? ?].
    constructor; rewrite ?sum_on_snoc, ?L, ?T, ?H, ?R, ?Cl, ?En;
      repeat match goal with |- context [decide ?P] => destruct (decide P) end;
      rewrite ?Z.add_0_r; try done; intros X; specialize (sk_active0 X); lia.
  - rewrite list_sum_app. simpl. rewrite D. lia.
  - done.
  - intros i k b [Hi|[_ H1]]%lookup_app_Some; [by eapply KK|].
    apply list_lookup_singleton_Some in H1 as [_ [= <- <-]]. done.
Qed.

Lemma external_ok s s' : system_ok s -> external s s' -> system_ok s'.
Proof.
  intros Hok St. destruct St as [cs t acts sid h now Hn|cs t acts sid item Hc W|cs t acts sid Hc].
  - pose proof Hok as [SS TT LL KK]. simpl in *.
    assert (Z0 : forall w, sum_on sid acts w = 0).
    { intros w. unfold sum_on. assert (F : Forall (fun x : Z * activity => x.1 <> sid) acts).
      { apply Forall_lookup_2. intros i [k b] Hi. destruct (KK _ _ _ Hi) as [[x Hx] _]. simpl. congruence. }
      clear -F. induction F as [|x l Hx F IH]; simpl; [done|]. rewrite IH. unfold on.
      by rewrite decide_False. }
    constructor; simpl.
    + intros k c l. rewrite lookup_insert. case_decide as E; [|apply SS].
      intros [= <- <-]. subst k. unfold is_u64 in Hs. constructor; simpl; rewrite ?Z0; done || lia.
    + rewrite map_sum_insert by done. simpl. lia.
    + done.
    + intros i k b Hi. destruct (KK _ _ _ Hi) as [K1 K2]. split; [|done].
      rewrite lookup_insert. by case_decide.
  - by apply call_ok.
  - by apply call_ok.
Qed.

Lemma initial_ok : system_ok initial.
Proof.
  unfold is_u64 in Hg. constructor; simpl; try done. lia.
Qed.

Lemma reachable_ok s : rtc step initial s -> system_ok s.
Proof.
  intros R. assert (G : forall x y, rtc step x y -> system_ok x -> system_ok y).
  { induction 1 as [|x y z [S|S] _ IH]; [done|..]; intros Hx; apply IH;
      [by eapply internal_ok|by eapply external_ok]. }
  by eapply G; [exact R|apply initial_ok].
Qed.

(** ** Every call ends

    [cost] bounds the steps a call has left; a queued item costs what writing it
    costs. *)
Definition item_cost (item : OutboundItem) : Z := 11 + 3 * item_bytes item.

Definition cost (a : activity) : Z :=
  match a with
  | EnqueueCall item => 4 + item_cost item
  | EnqueueTested item => 3 + item_cost item
  | EnqueueReserved item => 2 + item_cost item
  | NewWrite item => item_cost item
  | PostCall op => 10 + 3 * Remaining (op_cursor op)
  | PostSend op => 9 + 3 * Remaining (op_cursor op)
  | AtPort op => 8 + 3 * Remaining (op_cursor op)
  | FinishCall _ _ | NoWrite _ => 7
  | FinishUnqueued _ _ | NoWriteUnqueued _ => 6
  | DisconnectCall => 5
  | DisconnectStarted => 4
  | DisconnectClosed => 3
  | DisconnectDropping => 2
  | StartNext => 1
  | Ended => 0
  end.

Definition measure (s : system) : Z :=
  map_sum (fun x => list_sum item_cost (send_queue x.1)) (clients s)
  + list_sum (fun x => cost x.2) (activities s).

Lemma Remaining_nonneg c : 0 <= Remaining c.
Proof. apply u64_range. Qed.

Lemma item_cost_nonneg item : 0 <= item_cost item.
Proof. unfold item_cost. pose proof (item_bytes_nonneg item). lia. Qed.

Lemma cost_nonneg a : 0 <= cost a.
Proof.
  destruct a; simpl; try lia; try (pose proof (item_cost_nonneg item); lia);
    pose proof (Remaining_nonneg (op_cursor op)); lia.
Qed.

Lemma measure_nonneg s : 0 <= measure s.
Proof.
  unfold measure. pose proof (list_sum_nonneg (fun x : Z * activity => cost x.2) (activities s)
    (fun x => cost_nonneg x.2)).
  assert (0 <= map_sum (fun x : ClientSession * bool => list_sum item_cost (send_queue x.1)) (clients s)); [|lia].
  apply map_sum_nonneg. intros k x _. apply list_sum_nonneg, item_cost_nonneg.
Qed.

Lemma act_step_cost sid a c l t a' c' l' t' :
  activity_wf a -> act_step sid (a, c, l, t) (a', c', l', t') ->
  list_sum item_cost (send_queue c') + cost a' < list_sum item_cost (send_queue c) + cost a.
Proof.
  intros W St. inversion St; subst; simpl in *;
    repeat match goal with H : send_queue _ = _ |- _ => rewrite H end; simpl; try lia;
    try (pose proof (item_bytes_nonneg item); unfold item_cost; lia);
    try (pose proof (Remaining_nonneg (op_cursor op)); lia).
  - destruct (write_active c); rewrite list_sum_app; simpl; lia.
  - destruct (cursor_construct_wf _ _ _ H0 ltac:(apply W)) as (Wc & Ew & E0).
    destruct (item_bytes_wf item W) as [Eb _]. unfold item_cost.
    rewrite Remaining_wire, Ew, size_app, E0 by done. simpl. lia.
  - destruct (Consume_spec n _ W ltac:(lia)) as (W' & Ew & Es).
    unfold Complete in *. rewrite Z.eqb_neq, Remaining_wire in * by done.
    rewrite (Remaining_wire (op_cursor op)) by done. rewrite Ew, Es in *. lia.
  - destruct (negb ok || op_close_after op); simpl; lia.
Qed.

Lemma internal_measure s s' : system_ok s -> internal s s' -> measure s' < measure s.
Proof.
  intros Hok St. destruct St as [cs t acts i sid a c l a' c' l' t' Hi Hc St]. unfold measure. simpl.
  rewrite (map_sum_update _ _ _ _ _ Hc), (list_sum_insert _ _ _ _ _ Hi). simpl.
  destruct (sy_known _ Hok _ _ _ Hi) as [_ W]. pose proof (act_step_cost _ _ _ _ _ _ _ _ _ W St). lia.
Qed.

(** A step of the call at [i]. *)
Lemma moves s i sid a c l a' c' l' t' :
  activities s !! i = Some (sid, a) -> clients s !! sid = Some (c, l) ->
  act_step sid (a, c, l, queued s) (a', c', l', t') -> exists s', internal s s'.
Proof. destruct s as [cs t acts]. intros. eexists. by eapply internal_step. Qed.

(** Who holds the mutex can go on. *)
Lemma holder_moves s i sid a c l :
  activities s !! i = Some (sid, a) -> clients s !! sid = Some (c, l) -> lock_of a = 1 ->
  exists s', internal s s'.
Proof.
  intros Hi Hc L. destruct a; try done.
  - destruct (session_full c (item_bytes item) || over_budget config (item_bytes item) (queued s)) eqn:F.
    + eapply moves; [done..|]. by apply enqueue_refused.
    + eapply moves; [done..|]. by apply enqueue_reserve.
  - eapply moves; [done..|]. apply enqueue_push.
  - destruct (send_queue c) as [|item rest] eqn:Q; eapply moves; try done;
      [by apply disconnect_done|by eapply disconnect_drop].
Qed.

(** No deadlock: as long as a call has not ended, one can go on. *)
Lemma progress s i sid a :
  system_ok s -> activities s !! i = Some (sid, a) -> a <> Ended -> exists s', internal s s'.
Proof.
  intros Hok Hi Ha. destruct (sy_known _ Hok _ _ _ Hi) as [[[c l] Hc] W].
  pose proof (sk_lock _ _ _ (sy_sessions _ Hok _ _ _ Hc)) as K. destruct l.
  - destruct (list_sum_positive (on sid lock_of) (activities s)) as (j & [k b] & Hj & Hb).
    { unfold sum_on in K. rewrite K. lia. }
    unfold on in Hb. simpl in Hb. case_decide as D; [|lia]. subst k.
    apply (holder_moves s j sid b c true Hj Hc). destruct b; simpl in *; lia.
  - destruct a; try done;
      try (by apply (holder_moves s i sid _ c false Hi Hc));
      try (eapply moves; [done..|]; econstructor; done).
    + destruct (disconnect_started c) eqn:D; eapply moves; try done;
        [by apply enqueue_down|by apply enqueue_lock].
    + destruct (send_queue c) as [|item rest] eqn:Q; eapply moves; try done;
        [by apply start_empty|by eapply start_pop].
    + destruct (socket c) eqn:D; eapply moves; try done; [by apply post_valid|by apply post_invalid].
    + destruct (disconnect_started c) eqn:D; eapply moves; try done;
        [by apply disconnect_again|by apply disconnect_first].
Qed.

(** ** Where nothing can go on *)

Lemma stuck_ended s :
  system_ok s -> (forall s', ~ internal s s') -> Forall (fun x => x.2 = Ended) (activities s).
Proof.
  intros Hok Stuck. apply Forall_lookup_2. intros i [sid a] Hi. simpl.
  destruct (decide (cost a <= 0)) as [Ca|Ca].
  - destruct a; simpl in Ca; try done; exfalso;
      try (pose proof (item_bytes_nonneg item); unfold item_cost in Ca; lia);
      pose proof (Remaining_nonneg (op_cursor op)); lia.
  - assert (Ha : a <> Ended) by (intros ->; simpl in Ca; lia).
    destruct (progress s i sid a Hok Hi Ha) as [s' Hs']. by destruct (Stuck s').
Qed.

Lemma ended_empty s :
  system_ok s -> Forall (fun x => x.2 = Ended) (activities s) ->
  queued s = 0 /\ forall sid c l, clients s !! sid = Some (c, l) ->
    send_queue c = [] /\ queued_bytes c = 0 /\ l = false.
Proof.
  intros Hok En.
  assert (Z0 : forall w, w Ended = 0 -> forall sid, sum_on sid (activities s) w = 0).
  { intros w Hw sid. apply list_sum_Forall_zero. eapply Forall_impl; [exact En|].
    intros [k a] Ea. simpl in Ea. subst a. unfold on. simpl. by case_decide. }
  assert (Q : forall sid c l, clients s !! sid = Some (c, l) ->
    send_queue c = [] /\ queued_bytes c = 0 /\ l = false).
  { intros sid c l H. pose proof (sy_sessions _ Hok _ _ _ H) as [K T I A Qc L D F].
    rewrite !Z0 in * by done.
    assert (Qe : send_queue c = []).
    { destruct (write_active c); [|by apply I]. specialize (A eq_refl).
      destruct (disconnect_started c); [by apply D|lia]. }
    rewrite Qe in Qc. split_and!; [done|done|]. by destruct l. }
  split; [|done]. rewrite (sy_total _ Hok), map_sum_zero, list_sum_Forall_zero; [done|..].
  - eapply Forall_impl; [exact En|]. by intros [k a] ->.
  - intros k [c l] H. by apply (Q k c l).
Qed.

Lemma internal_finite s : system_ok s -> Acc (fun y x => internal x y) s.
Proof.
  intros Hok. remember (Z.to_nat (measure s)) as n eqn:En.
  assert (G : forall n x, (Z.to_nat (measure x) < n)%nat -> system_ok x -> Acc (fun y x => internal x y) x).
  { clear -Hs Hg. induction n as [|n IH]; intros x Hn Hx; [lia|]. constructor. intros y Hy.
    pose proof (internal_measure x y Hx Hy). pose proof (measure_nonneg x). pose proof (measure_nonneg y).
    apply IH; [lia|by eapply internal_ok]. }
  apply (G (S n)); [lia|done].
Qed.
End steps.

Section properties.
Context (config : ServerConfig) (Hc : config_ok config) (s : system).
Context (Hr : rtc (step config) initial s).

Lemma run_ok : system_ok config s.
Proof. by apply reachable_ok; [apply (co_session_queue _ Hc)|apply (co_global_queue _ Hc)|]. Qed.

(** C6. The write path is correct under preemption: in every state that any
    interleaving of the accesses of any number of [Enqueue], completion and
    [Disconnect] calls reaches, both byte limits hold; the global counter is the
    sum of the sessions' counters and of the bytes calls are about to add or
    give back; a session's counter is its queue and what is being written; at
    most one write per session is at the port; a queue that nobody is about to
    clear is empty once the session is down; and a connected session with
    queued data has a call that will write or disconnect. *)
Theorem write_path_preemption :
  0 <= queued s <= max_global_queued_bytes config /\
  queued s = map_sum (fun x => queued_bytes x.1) (clients s)
             + list_sum (fun x => debt x.2) (activities s) /\
  forall sid c l, clients s !! sid = Some (c, l) ->
    0 <= queued_bytes c <= max_session_queued_bytes config /\
    queued_bytes c = queue_sum (send_queue c) + sum_on sid (activities s) held /\
    (forall i j op op', activities s !! i = Some (sid, AtPort op) ->
       activities s !! j = Some (sid, AtPort op') -> i = j) /\
    (disconnect_started c = true -> sum_on sid (activities s) clearing = 0 -> send_queue c = []) /\
    (disconnect_started c = false -> send_queue c <> [] ->
       exists i a, activities s !! i = Some (sid, a) /\ 0 < token a + calling a).
Proof.
  pose proof run_ok as Hok. pose proof Hok as [SS TT LL _].
  pose proof weights as (_ & _ & Wt & Wc & _ & _ & Wd & Wr). split_and!; [|done|done|].
  - rewrite TT. pose proof (list_sum_nonneg (fun x : Z * activity => debt x.2) (activities s) (fun x => Wd x.2)).
    pose proof (map_sum_nonneg (fun x : ClientSession * bool => queued_bytes x.1) (clients s)
      (fun k x => session_nonneg config s k x Hok)). lia.
  - intros sid c l H. pose proof (SS _ _ _ H) as [K T I A Q L D F].
    pose proof (session_nonneg config s sid (c, l) Hok H) as N. simpl in N.
    pose proof (sum_on_nonneg sid (activities s) reserved Wr).
    split_and!; [done|lia|done| | |].
    + intros i j op op' Hi Hj. destruct (decide (i = j)) as [|Hne]; [done|].
      pose proof (list_sum_two (on sid token) (activities s) i j _ _
        ltac:(intros x; unfold on; case_decide; [apply Wt|done]) Hne Hi Hj) as P.
      unfold on in P at 1 2. simpl in P. rewrite !decide_True in P by done.
      unfold sum_on in T. lia.
    + intros Dn Cl. by apply D.
    + intros Dn Hq. destruct (write_active c) eqn:WA; [|destruct (I eq_refl); done].
      specialize (A eq_refl). rewrite Dn in A.
      destruct (Z_lt_dec 0 (sum_on sid (activities s) token)) as [P|P].
      * apply list_sum_positive in P as (i & [k a] & Hi & Ha). unfold on in Ha. simpl in Ha.
        case_decide as E; [subst k|lia]. exists i, a. split; [done|]. pose proof (Wc a). lia.
      * assert (P' : 0 < sum_on sid (activities s) calling) by lia.
        apply list_sum_positive in P' as (i & [k a] & Hi & Ha). unfold on in Ha. simpl in Ha.
        case_decide as E; [subst k|lia]. exists i, a. split; [done|]. pose proof (Wt a). lia.
Qed.

(** C7. The write path drains: from every state reached under preemption, every
    run in which no new call begins is finite, whatever the completions, the
    allocations and the scheduler do; nothing deadlocks; and where it ends every
    call has returned, every queue is empty, every mutex free, and both counters
    are zero: no byte stays counted. *)
Theorem write_path_drains :
  Acc (fun y x => internal config x y) s /\
  forall s', rtc (internal config) s s' -> (forall s'', ~ internal config s' s'') ->
    queued s' = 0 /\
    (forall i sid a, activities s' !! i = Some (sid, a) -> a = Ended) /\
    (forall sid c l, clients s' !! sid = Some (c, l) ->
       send_queue c = [] /\ queued_bytes c = 0 /\ l = false).
Proof.
  pose proof (co_session_queue _ Hc) as M1. pose proof (co_global_queue _ Hc) as M2.
  split; [apply internal_finite; [done|done|apply run_ok]|].
  intros s' R Stuck. assert (Hok : system_ok config s').
  { assert (G : forall x y, rtc (internal config) x y -> system_ok config x -> system_ok config y).
    { induction 1 as [|x y z Hs _ IH]; [done|]. intros Hx. apply IH. by eapply internal_ok. }
    eapply G; [exact R|apply run_ok]. }
  pose proof (stuck_ended _ s' Hok Stuck) as En. destruct (ended_empty _ s' Hok En) as [Z0 Q].
  split_and!; [done| |done]. intros i sid a Hi. by apply (Forall_lookup_1 _ _ _ _ En Hi).
Qed.
End properties.

(** ** Witness: one write at the port, one message queued, a disconnection begun *)

Lemma default_config_ok : config_ok default_config.
Proof. constructor; simpl; unfold is_u64, size_max; lia. Qed.

Definition sample_message : OutboundItem := mkItem (bstr "AB") (bstr "payload") false.

Ltac next_internal i := eapply rtc_l; [left; eapply (internal_step _ _ _ _ i); [reflexivity|reflexivity|]|].

Definition sample_reached (s : system) : Prop :=
  queued s = 18 /\
  exists c, clients s !! 1 = Some (c, false) /\
    send_queue c = [sample_message] /\ disconnect_started c = true.

Lemma sample_run : exists s, rtc (step default_config) initial s /\ sample_reached s.
Proof.
  eexists. split.
  - eapply rtc_l; [right; apply (external_accept _ ∅ 0 [] 1 (mkHandle 1 1) 0); reflexivity|].
    eapply rtc_l; [right; apply (external_enqueue _ _ _ _ 1 sample_message);
      [eexists; reflexivity|constructor; vm_compute; congruence]|].
    next_internal 0%nat; [apply enqueue_lock; reflexivity|].
    next_internal 0%nat; [apply enqueue_reserve; reflexivity|].
    next_internal 0%nat; [apply enqueue_push|].
    next_internal 0%nat; [eapply start_pop; reflexivity|].
    next_internal 0%nat; [eapply new_made; reflexivity|].
    next_internal 0%nat; [apply post_valid; reflexivity|].
    next_internal 0%nat; [apply post_done|].
    eapply rtc_l; [right; apply (external_enqueue _ _ _ _ 1 sample_message);
      [eexists; reflexivity|constructor; vm_compute; congruence]|].
    eapply rtc_l; [right; apply (external_disconnect _ _ _ _ 1); eexists; reflexivity|].
    next_internal 1%nat; [apply enqueue_lock; reflexivity|].
    next_internal 1%nat; [apply enqueue_reserve; reflexivity|].
    next_internal 2%nat; [apply disconnect_first; reflexivity|].
    next_internal 1%nat; [apply enqueue_push|].
    apply rtc_refl.
  - split; [reflexivity|]. eexists. split_and!; reflexivity.
Qed.

Lemma write_path_preemption_witness :
  exists s, sample_reached s /\ 0 <= queued s <= max_global_queued_bytes default_config /\
    exists c, clients s !! 1 = Some (c, false) /\
      queued_bytes c = queue_sum (send_queue c) + sum_on 1 (activities s) held.
Proof.
  destruct sample_run as (s & R & P). exists s. split; [exact P|].
  destruct (write_path_preemption default_config default_config_ok s R) as (B & _ & Q).
  split; [exact B|]. destruct P as (_ & c & H & _). exists c. split; [exact H|].
  destruct (Q 1 c false H) as (_ & E & _). exact E.
Defined.

Lemma write_path_drains_witness :
  exists s, sample_reached s /\ Acc (fun y x => internal default_config x y) s.
Proof.
  destruct sample_run as (s & R & P). exists s. split; [exact P|].
  destruct (write_path_drains default_config default_config_ok s R) as [A _]. exact A.
Defined.
