(* ===== verification/Shutdown.v ===== *)
(** * The wait of [Stop] (src/src/core/iocp_server.cpp)

    Behind the disconnections [Stop] waits until [outstanding_operations] is
    zero.  Every completion handled after them takes one operation off the port
    and posts none, so the wait ends after as many completions as operations
    were outstanding. *)

From S2P Require Import Prelude SessionHandle OutboundQueue SendCursor Framing.
From S2P Require Import WebSocketDecoder SessionRegistry ServerTypes Server.
From S2P Require Import ServerInbound ServerInvariant ServerReceive ServerSteps ServerProperties.

Section shutdown.
Context {St T : Type} `{App : Application St} `{Tab : SessionTable SessionHandle T (fun h => h)}.
Context (config : ServerConfig) (os : nat -> bool) (clock : nat -> Z) (Hc : config_ok config).
#[local] Abbreviation Server := (Server St T).

Definition at_port (s : Server) : nat := length (reads s) + length (writes s) + accepts s.

(** The counter [Stop] waits for is the number of operations at the port. *)
Lemma good_outstanding s : good config s -> u64 (outstanding_operations s) = u64 (Z.of_nat (at_port s)).
Proof.
  intros G. pose proof (gd_untracked _ _ G) as U. unfold untracked in U. unfold at_port.
  set (k := Z.of_nat _) in *. rewrite <-(Z.sub_add k (outstanding_operations s)), <-u64_add_l, U. done.
Qed.

(** Disconnecting everything posts and completes nothing. *)
Lemma Disconnect_at_port sid s : at_port (Disconnect config sid s) = at_port s.
Proof.
  unfold Disconnect. destruct (heap s !! sid) as [c|]; [|done]. split_if; [done|].
  destruct (drop_queue _ _) as [c1 m1]. by destruct (AccountInbound _ _ _ _) as [[c2 m2] e].
Qed.

Lemma StopSessions_at_port s : at_port (StopSessions config s) = at_port s.
Proof.
  unfold StopSessions. split_if; [done|]. cbv zeta. change (at_port s) with (at_port (set_running false s)).
  generalize (table_snapshot (sessions (set_running false s))). intros hs.
  generalize (set_running false s). induction hs as [|h hs IH]; intros s1; [done|]. simpl.
  by rewrite IH, Disconnect_at_port.
Qed.

(** [Start] posts accepts only. *)
Lemma PostNewAccept_at_port s : (at_port (PostNewAccept os s).2 <= S (at_port s))%nat.
Proof.
  unfold PostNewAccept, os_call. split_if; [simpl; lia|].
  repeat (destruct (os _); cbn [negb]; [|unfold at_port; simpl; lia]). unfold at_port. simpl. lia.
Qed.

Lemma post_accepts_at_port n posted s : (at_port (post_accepts os n posted s).2 <= n + at_port s)%nat.
Proof.
  revert posted s. induction n as [|n IH]; intros posted s; simpl; [lia|].
  pose proof (PostNewAccept_at_port s) as P. destruct (PostNewAccept os s) as [ok s1].
  specialize (IH (if ok then (posted + 1)%u64 else posted) s1). simpl in P. lia.
Qed.

Lemma Start_at_port s : (at_port (Start config os s).2 <= Z.to_nat (accept_depth config) + at_port s)%nat.
Proof.
  unfold Start. split_if; [simpl; lia|].
  pose proof (post_accepts_at_port (Z.to_nat (accept_depth config)) 0 (set_running true s)) as P.
  destruct (post_accepts _ _ _ _) as [posted s1]. change (at_port (set_running true s)) with (at_port s) in P.
  simpl in P. split_if; simpl; [rewrite StopSessions_at_port|]; exact P.
Qed.

(** One operation of the port is completed, in whatever way. *)
Inductive completion (s : Server) : Server -> Prop :=
| completion_read i ok bytes s' :
    is_Some (reads s !! i) -> HandleRead config os clock i ok bytes s = Some s' -> completion s s'
| completion_write i ok n :
    is_Some (writes s !! i) -> 0 <= n <= 4294967295 ->
    completion s (HandleWrite config os i ok n s)
| completion_accept ok seen :
    (0 < accepts s)%nat -> completion s (HandleAccept config os clock ok seen s).

Definition all_down (s : Server) : Prop :=
  forall sid c, heap s !! sid = Some c -> disconnect_started c = true.

Record stopped (s : Server) : Prop := {
  sp_good : good config s;
  sp_running : running s = false;
  sp_down : all_down s;
}.

Lemma Disconnect_down sid s : all_down s -> Disconnect config sid s = s.
Proof.
  intros D. unfold Disconnect. destruct (heap s !! sid) as [c|] eqn:H; [|done]. by rewrite (D sid c H).
Qed.

Lemma read_down i sid ok bytes s :
  all_down s -> reads s !! i = Some sid -> is_Some (heap s !! sid) ->
  HandleRead config os clock i ok bytes s =
    Some (CompleteOperation (set_reads (delete i (reads s)) s)).
Proof.
  intros D Hi [c H]. unfold HandleRead. rewrite Hi. cbv zeta.
  change (heap (set_reads (delete i (reads s)) s)) with (heap s). rewrite H, (D sid c H), orb_true_r.
  rewrite Disconnect_down by done. done.
Qed.

Lemma accept_down ok seen s :
  running s = false ->
  HandleAccept config os clock ok seen s = CompleteOperation (set_accepts (pred (accepts s)) s).
Proof.
  intros R. unfold HandleAccept. cbv zeta.
  change (running (set_accepts (pred (accepts s)) s)) with (running s). rewrite R, andb_false_r.
  change (running (set_accepts (pred (accepts s)) s)) with (running s). by rewrite R.
Qed.

(** Only fields of the sessions change, and no session comes up. *)
Record quiet (s s' : Server) : Prop := {
  qt_reads : reads s' = reads s;
  qt_writes : writes s' = writes s;
  qt_accepts : accepts s' = accepts s;
  qt_running : running s' = running s;
  qt_down : all_down s -> all_down s';
}.

Lemma FinishWrite_down op ok s :
  all_down s -> (forall c, heap s !! op_session op = Some c -> send_queue c = []) ->
  quiet s (FinishWrite config os op ok s).
Proof.
  intros D Q. unfold FinishWrite. set (s1 := FinishAccounting op ok s).
  assert (H1 : forall sid c, heap s1 !! sid = Some c -> exists c0, heap s !! sid = Some c0 /\
    disconnect_started c = disconnect_started c0 /\ send_queue c = send_queue c0).
  { intros sid c. simpl. destruct (decide (sid = op_session op)) as [->|Hne].
    - rewrite lookup_alter_eq. destruct (heap s !! op_session op) as [c0|] eqn:E; [|done].
      intros [= <-]. by exists c0.
    - rewrite lookup_alter_ne by done. intros H. by exists c. }
  assert (D1 : all_down s1).
  { intros sid c (c0 & H & E & _)%H1. rewrite E. by eapply D. }
  assert (Q1 : quiet s s1) by (constructor; done).
  split_if; [by rewrite Disconnect_down|]. unfold StartNextWrite.
  destruct (heap s1 !! op_session op) as [c|] eqn:H; [|done].
  destruct (H1 _ _ H) as (c0 & H0 & _ & E). rewrite E, (Q c0 H0).
  constructor; try done. intros _ sid y. simpl. rewrite lookup_insert. case_decide as Ek.
  - intros [= <-]. simpl. by apply (D1 _ _ H).
  - intros Hy. by apply (D1 _ _ Hy).
Qed.

Lemma write_down i op ok n s :
  stopped s -> writes s !! i = Some op -> 
  quiet (set_writes (delete i (writes s)) s) (HandleWrite config os i ok n s).
Proof.
  intros [[I _ _] R D] Hi. unfold HandleWrite. rewrite Hi. set (s0 := set_writes _ s).
  pose proof (Forall_lookup_1 _ _ _ _ (inv_writes _ _ _ I) Hi) as [[c H] _].
  destruct (so_down _ _ _ _ _ (inv_sessions _ _ _ I _ _ H) (D _ _ H)) as [Sk Q].
  assert (F : forall op' b, op_session op' = op_session op ->
    quiet s0 (FinishWrite config os op' b s0)).
  { intros op' b E. apply FinishWrite_down; [exact D|]. intros c'. simpl. rewrite E, H. by intros [= <-]. }
  split_if; [by apply F|]. split_if; [|by apply F].
  unfold PostWrite. simpl. rewrite H, Sk. by apply F.
Qed.

Lemma completion_stopped s s' :
  stopped s -> completion s s' -> stopped s' /\ S (at_port s') = at_port s.
Proof.
  intros Sp C. pose proof Sp as [G R D]. destruct C as [i ok bytes s' [sid Hi] E|i ok n [op Hi] Hn|ok Ha].
  - assert (G' : good config s').
    { eapply (step_good config os clock Hc s); [done|]. by eapply step_read. }
    destruct (rd_heap _ _ (gd_reads _ _ G) sid) as [c H]; [by eapply list_elem_of_lookup_2|].
    rewrite (read_down i sid) in E by done. simplify_eq. split; [by constructor|].
    unfold at_port. simpl. apply lookup_lt_Some in Hi as L. rewrite length_delete by done. lia.
  - assert (G' : good config (HandleWrite config os i ok n s)).
    { eapply (step_good config os clock Hc s); [done|]. by apply step_write. }
    destruct (write_down i op ok n s Sp Hi) as [Q1 Q2 Q3 Q4 Q5].
    split; [constructor; [done|by rewrite Q4|by apply Q5]|].
    unfold at_port. rewrite Q1, Q2, Q3. simpl. apply lookup_lt_Some in Hi as L.
    rewrite length_delete by done. lia.
  - rewrite accept_down by done. split; [|unfold at_port; simpl; lia].
    destruct G as [I RD U]. constructor; [|done|done].
    constructor; [by eapply Inv_frame|by eapply Reads_frame|].
    rewrite untracked_complete, untracked_accepted, U by done. done.
Qed.

Lemma completions_stopped n s s' :
  stopped s -> nsteps completion n s s' -> stopped s' /\ at_port s = (n + at_port s')%nat.
Proof.
  intros Sp H. induction H as [|n x y z C _ IH]; [done|].
  destruct (completion_stopped x y Sp C) as [Sy E]. destruct (IH Sy) as [Sz E'].
  split; [done|]. lia.
Qed.

(** An operation at the port can complete, with any result. *)
Lemma completion_exists s : stopped s -> at_port s <> 0%nat -> exists s', completion s s'.
Proof.
  intros [[I RD U] R D] N. destruct (reads s) as [|sid rs] eqn:Er.
  - destruct (writes s) as [|op ws] eqn:Ew.
    + exists (HandleAccept config os clock true 0 s). apply completion_accept.
      unfold at_port in N. rewrite Er, Ew in N. simpl in N. lia.
    + exists (HandleWrite config os 0 false 0 s). apply completion_write; [rewrite Ew; done|lia].
  - destruct (HandleRead_ok config os clock Hc 0 false [] s I RD) as (s' & E & _).
    exists s'. eapply completion_read; [|exact E]. rewrite Er. done.
Qed.

(** Neither the timer nor the public calls do anything any more. *)
Lemma stopped_inert s :
  stopped s -> TimerTick config os clock s = s /\
  (forall h p, (Send config os h p s) = (false, s)) /\
  (forall h code reason, Close config os clock h code reason s = s).
Proof.
  intros [[I RD U] R D].
  assert (Fd : forall h, table_find h (sessions s) = None).
  { intros h. destruct (table_find h (sessions s)) as [k|] eqn:E; [|done].
    destruct (inv_registry _ _ _ I) as (m & RP & Rm & _). rewrite (represents_find _ _ h RP) in E.
    destruct (m !! id h) as [v|] eqn:Em; [|done]. apply Rm in Em as (c & H & _ & Dn).
    rewrite (D _ _ H) in Dn. done. }
  split_and!.
  - unfold TimerTick. by rewrite R.
  - intros h p. unfold Send. by rewrite Fd.
  - intros h code reason. unfold Close. by rewrite Fd.
Qed.

Lemma Stop_stopped s : good config s -> running s = true -> stopped (StopSessions config s).
Proof.
  intros G R. destruct (StopSessions_spec config Hc s G) as [G' D].
  constructor; [done|by apply StopSessions_running|exact (D R)].
Qed.

Context (a0 : St) (s : Server) (Hs : reachable config os clock a0 s).

(** C12. [Stop] returns: after the disconnections every completion, whatever its
    result, takes exactly one operation off the port, and the timer and the
    public calls change nothing; [outstanding_operations] is the number of
    operations still at the port; as long as there is one, it can complete; so
    every run of completions is finite, and after as many completions as there
    were operations the counter that [Stop] waits for is zero. *)
Theorem stop_returns :
  running s = true ->
  let s1 := StopSessions config s in
  forall n s2, nsteps completion n s1 s2 ->
    at_port s1 = (n + at_port s2)%nat /\
    u64 (outstanding_operations s2) = u64 (Z.of_nat (at_port s2)) /\
    (at_port s2 <> 0%nat -> exists s3, completion s2 s3) /\
    (at_port s2 = 0%nat -> u64 (outstanding_operations s2) = 0) /\
    TimerTick config os clock s2 = s2 /\
    (forall h p, Send config os h p s2 = (false, s2)) /\
    (forall h code reason, Close config os clock h code reason s2 = s2).
Proof.
  intros R s1 n s2 H. pose proof (reachable_good config os clock Hc a0 s Hs) as G.
  destruct (completions_stopped n s1 s2 (Stop_stopped s G R) H) as [Sp E].
  pose proof (good_outstanding s2 (sp_good _ Sp)) as O.
  split_and!; [done|done|by apply completion_exists| |by apply stopped_inert..].
  intros Z0. rewrite O, Z0. done.
Qed.
End shutdown.

#[local] Existing Instance echo.

(** Witness: after the echoed message two accepts, a read and a write are at the
    port; they fail, one after the other. *)
Lemma stop_returns_witness :
  let s1 := StopSessions sample_config sample_echoed in
  at_port s1 = 4%nat /\
  exists s2, nsteps (completion sample_config sample_os sample_clock) 4 s1 s2 /\
    u64 (outstanding_operations s2) = 0.
Proof.
  cbv zeta. split; [reflexivity|]. set (s1 := StopSessions _ _).
  set (h := HandleAccept sample_config sample_os sample_clock false 0).
  set (w := HandleWrite sample_config sample_os 0 false 0 (h (h s1))).
  set (s2 := default w (HandleRead sample_config sample_os sample_clock 0 false [] w)).
  exists s2. assert (H : nsteps (completion sample_config sample_os sample_clock) 4 s1 s2).
  { apply (nsteps_l _ _ _ (h s1)); [apply completion_accept; vm_compute; lia|].
    apply (nsteps_l _ _ _ (h (h s1))); [apply completion_accept; vm_compute; lia|].
    apply (nsteps_l _ _ _ w); [apply completion_write; [vm_compute; eauto|lia]|].
    apply (nsteps_l _ _ _ s2); [|constructor].
    apply (completion_read _ _ _ w 0 false []); vm_compute; [eauto|reflexivity]. }
  split; [exact H|].
  destruct (stop_returns sample_config sample_os sample_clock (limited_config_ok 4096) 0%nat
    sample_echoed sample_echoed_reachable eq_refl 4 s2 H) as (_ & _ & _ & Z0 & _).
  apply Z0. vm_compute. reflexivity.
Defined.
