(* ===== verification/Lifecycle.v ===== *)
(** * Initialising, starting and stopping (src/src/core/iocp_server.cpp)

    [Initialize], [Start] with its threads, both ends of [Stop], and the sockets
    and handles they open and close.  A [UniqueSocket] or [UniqueHandle] is the
    boolean of its validity; its destructor runs where its scope ends.
    [open_sockets] counts the sockets no session owns (a session's socket is its
    flag [socket]).  [sys] answers the calls that [Server] does not model. *)

From S2P Require Import Prelude SessionHandle OutboundQueue SendCursor Framing.
From S2P Require Import WebSocketDecoder SessionRegistry ServerTypes Server.
From S2P Require Import ServerInbound ServerInvariant ServerReceive ServerSteps ServerStream ServerProperties Shutdown.

Section lifecycle.
Context {St T : Type} `{App : Application St} `{Tab : SessionTable SessionHandle T (fun h => h)}.
Context (config : ServerConfig) (os : nat -> bool) (clock : nat -> Z) (sys : nat -> bool).
#[local] Abbreviation Server := (Server St T).

(** The members of [Impl] around the state of [Server]; the operations of
    [accept_pool] are those of [accepts], each with its socket. *)
Record Impl := mkImpl {
  server : Server;
  initialized : bool;
  winsock_started : bool;
  completion_port : bool;
  listen_socket : bool;
  workers : Z;
  timer_thread : bool;
  open_sockets : Z;
  open_handles : Z;
  calls : nat;
}.

Definition set_server (v : Server) (i : Impl) : Impl :=
  mkImpl v (initialized i) (winsock_started i) (completion_port i) (listen_socket i) (workers i)
    (timer_thread i) (open_sockets i) (open_handles i) (calls i).
Definition set_initialized (v : bool) (i : Impl) : Impl :=
  mkImpl (server i) v (winsock_started i) (completion_port i) (listen_socket i) (workers i)
    (timer_thread i) (open_sockets i) (open_handles i) (calls i).
Definition set_winsock (v : bool) (i : Impl) : Impl :=
  mkImpl (server i) (initialized i) v (completion_port i) (listen_socket i) (workers i)
    (timer_thread i) (open_sockets i) (open_handles i) (calls i).
Definition set_port (v : bool) (i : Impl) : Impl :=
  mkImpl (server i) (initialized i) (winsock_started i) v (listen_socket i) (workers i)
    (timer_thread i) (open_sockets i) (open_handles i) (calls i).
Definition set_listen (v : bool) (i : Impl) : Impl :=
  mkImpl (server i) (initialized i) (winsock_started i) (completion_port i) v (workers i)
    (timer_thread i) (open_sockets i) (open_handles i) (calls i).
Definition set_threads (w : Z) (t : bool) (i : Impl) : Impl :=
  mkImpl (server i) (initialized i) (winsock_started i) (completion_port i) (listen_socket i) w
    t (open_sockets i) (open_handles i) (calls i).
Definition add_sockets (n : Z) (i : Impl) : Impl :=
  mkImpl (server i) (initialized i) (winsock_started i) (completion_port i) (listen_socket i)
    (workers i) (timer_thread i) (open_sockets i + n) (open_handles i) (calls i).
Definition add_handles (n : Z) (i : Impl) : Impl :=
  mkImpl (server i) (initialized i) (winsock_started i) (completion_port i) (listen_socket i)
    (workers i) (timer_thread i) (open_sockets i) (open_handles i + n) (calls i).
Definition set_calls (v : nat) (i : Impl) : Impl :=
  mkImpl (server i) (initialized i) (winsock_started i) (completion_port i) (listen_socket i)
    (workers i) (timer_thread i) (open_sockets i) (open_handles i) v.

(** ** The operating system and the owners of its resources *)

Definition sys_call (i : Impl) : bool * Impl := (sys (calls i), set_calls (S (calls i)) i).

(** [WinsockRuntime::Start] *)
Definition WinsockStart (i : Impl) : bool * Impl :=
  if winsock_started i then (true, i) else
  let '(result, i) := sys_call i in (result, set_winsock result i).

(** [CreateIoCompletionPort] of a new port; [WSASocketW]. *)
Definition CreatePort (i : Impl) : bool * Impl :=
  let '(ok, i) := sys_call i in (ok, if ok then add_handles 1 i else i).
Definition OpenSocket (i : Impl) : bool * Impl :=
  let '(ok, i) := sys_call i in (ok, if ok then add_sockets 1 i else i).

(** The destructors of a local [UniqueHandle] and a local [UniqueSocket]. *)
Definition CloseHandle (handle : bool) (i : Impl) : Impl := if handle then add_handles (-1) i else i.
Definition closesocket (socket : bool) (i : Impl) : Impl := if socket then add_sockets (-1) i else i.

(** [completion_port.Reset(value)], [listen_socket.Reset(value)] *)
Definition ResetPort (value : bool) (i : Impl) : Impl :=
  set_port value (CloseHandle (completion_port i) i).
Definition ResetListen (value : bool) (i : Impl) : Impl :=
  set_listen value (closesocket (listen_socket i) i).

(** ** [Initialize] *)

(** Calls that must all succeed; the first failure ends them. *)
Fixpoint all_succeed (n : nat) (i : Impl) : bool * Impl :=
  match n with
  | O => (true, i)
  | S n => let '(ok, i) := sys_call i in if ok then all_succeed n i else (false, i)
  end.

(** [IPV6_V6ONLY], [bind], [listen], the association with the port and the two
    [WSAIoctl] end the same way when they fail. *)
Definition Initialize (i : Impl) : bool * Impl :=
  if initialized i then (true, i) else
  let '(started, i) := WinsockStart i in
  if negb started then (false, i) else
  let '(new_port, i) := CreatePort i in
  if negb new_port then (false, CloseHandle new_port i) else
  let '(new_listen, i) := OpenSocket i in
  if negb new_listen then (false, CloseHandle new_port (closesocket new_listen i)) else
  let '(ready, i) := all_succeed 6 i in
  if negb ready then (false, CloseHandle new_port (closesocket new_listen i)) else
  let i := ResetPort new_port i in
  let i := ResetListen new_listen i in
  (true, set_initialized true i).

(** ** Accept operations *)

(** [AcceptEx] succeeds at once or is pending, or fails. *)
Definition PostAccept (s : Server) : bool * Server := os_call os s.
Definition Associate (s : Server) : bool * Server := os_call os s.

(** The socket is released into the operation; the pool's [Destroy] does not
    close it. *)
Definition PostNewAccept (i : Impl) : bool * Impl :=
  if negb (running (server i)) || negb (listen_socket i) then (false, i) else
  let '(opened, s) := os_call os (server i) in
  if negb opened then (false, set_server s i) else
  let i := add_sockets 1 i in
  let '(created, s) := os_call os s in
  if negb created
  then (false, set_server (count (fun m => set_rejected_connections (rejected_connections m + 1)%u64 m) s) i)
  else
  let s := TrackOperation s in
  let '(posted, s) := PostAccept s in
  if negb posted then (false, set_server (CompleteOperation s) i)
  else (true, set_server (set_accepts (S (accepts s)) s) i).

(** The admission of the connection; the boolean: [accepted] still owns the
    socket, no session has taken it over. *)
Definition AdmitAccept (succeeded : bool) (seen : Z) (s : Server) : bool * Server :=
  let reject s := count (fun m => set_rejected_connections (rejected_connections m + 1)%u64 m) s in
  if succeeded && running s then
    if max_connections config <=? seen then (true, reject s) else
    let '(updated, s) := os_call os s in
    let '(associated, s) := if updated then Associate s else (false, s) in
    if associated then (false, AcceptSession config os clock s) else (true, reject s)
  else (true, s).

(** The operation is posted again with a new socket, or destroyed. *)
Definition RepostAccept (s : Server) (i : Impl) : Impl :=
  if running s then
    let '(created, s) := os_call os s in
    if created then
      let i := add_sockets 1 i in
      let '(posted, s) := PostAccept s in
      if posted then set_server (set_accepts (S (accepts s)) s) i
      else set_server (CompleteOperation s) (closesocket true i)
    else set_server (CompleteOperation s) i
  else set_server (CompleteOperation s) i.

Definition HandleAccept (succeeded : bool) (seen : Z) (i : Impl) : Impl :=
  let s := set_accepts (pred (accepts (server i))) (server i) in
  let '(accepted, s) := AdmitAccept succeeded seen s in
  let i := if accepted then i else add_sockets (-1) i in
  closesocket accepted (RepostAccept s i).

(** ** [Start] and [Stop] *)

(** [Stop] up to its wait; nothing when it does not run. *)
Definition StopBegin (i : Impl) : Impl :=
  if negb (running (server i)) then i else
  let i := set_threads (workers i) false i in
  let i := ResetListen false i in
  set_server (StopSessions config (server i)) i.

(** [Stop] behind its wait: the workers are joined, the port closed. *)
Definition StopEnd (i : Impl) : Impl :=
  let i := set_threads 0 false i in
  let i := ResetPort false i in
  set_initialized false i.

(** The workers, then the timer; [false] is the caught exception. *)
Fixpoint start_threads (n : nat) (i : Impl) : bool * Impl :=
  let '(ok, i) := sys_call i in
  if negb ok then (false, i) else
  match n with
  | O => (true, set_threads (workers i) true i)
  | S n => start_threads n (set_threads (workers i + 1) (timer_thread i) i)
  end.

Fixpoint post_accepts (n : nat) (posted : Z) (i : Impl) : Z * Impl :=
  match n with
  | O => (posted, i)
  | S n =>
      let '(ok, i) := PostNewAccept i in
      post_accepts n (if ok then (posted + 1)%u64 else posted) i
  end.

(** Where [Start] calls [Stop], no operation is outstanding yet: both ends of
    [Stop] follow each other. *)
Definition Start (i : Impl) : bool * Impl :=
  if negb (initialized i) || running (server i) then (running (server i), i) else
  let i := set_server (set_running true (server i)) i in
  let '(started, i) := start_threads (Z.to_nat (worker_count config)) i in
  if negb started then (false, StopEnd (StopBegin i)) else
  let '(posted, i) := post_accepts (Z.to_nat (accept_depth config)) 0 i in
  if posted =? 0 then (false, StopEnd (StopBegin i)) else (true, i).

(** ** The runs of a server *)

Definition construct (a0 : St) : Impl :=
  mkImpl (initial a0) false false false false 0 false 0 0 0.

(** [Start] is not called while a [Stop] waits; the wait ends when no operation
    is at the port ([Shutdown.stop_returns]). *)
Inductive life_step (i : Impl) : Impl -> Prop :=
| life_initialize : life_step i (Initialize i).2
| life_start :
    (initialized i = true -> listen_socket i = true) -> life_step i (Start i).2
| life_stop : life_step i (StopBegin i)
| life_stopped :
    initialized i = true -> listen_socket i = false -> at_port (server i) = 0%nat ->
    life_step i (StopEnd i)
| life_accept ok seen :
    (0 < accepts (server i))%nat -> next_session_id (server i) < size_max ->
    life_step i (HandleAccept ok seen i)
| life_read k ok bytes s' :
    HandleRead config os clock k ok bytes (server i) = Some s' -> life_step i (set_server s' i)
| life_write k ok n :
    0 <= n <= 4294967295 -> life_step i (set_server (HandleWrite config os k ok n (server i)) i)
| life_timer : life_step i (set_server (TimerTick config os clock (server i)) i)
| life_send h p : life_step i (set_server (Send config os h p (server i)).2 i)
| life_close h code reason :
    life_step i (set_server (Close config os clock h code reason (server i)) i).

(** Open sockets that neither the listener nor an accept operation holds. *)
Definition lost (i : Impl) : Z :=
  open_sockets i - (if listen_socket i then 1 else 0) - Z.of_nat (accepts (server i)).

Record life_ok (i : Impl) : Prop := {
  lo_good : good config (server i);
  lo_down : running (server i) = false -> all_down (server i);
  lo_port : completion_port i = initialized i;
  lo_listen : listen_socket i = true -> initialized i = true;
  lo_running : running (server i) = true -> listen_socket i = true;
  lo_handles : open_handles i = if initialized i then 1 else 0;
  lo_rest : running (server i) = false -> listen_socket i = initialized i ->
    accepts (server i) = 0%nat /\ workers i = 0 /\ timer_thread i = false;
}.

Lemma all_succeed_calls n i : exists b k, all_succeed n i = (b, set_calls k i).
Proof.
  revert i. induction n as [|n IH]; intros i; simpl.
  - exists true, (calls i). by destruct i.
  - destruct (sys (calls i)); [|by eexists false, _].
    destruct (IH (set_calls (S (calls i)) i)) as (b & k & ->). by exists b, k.
Qed.

(** [Initialize] opens the port and the listener, or nothing. *)
Lemma Initialize_cases i :
  listen_socket i = false -> completion_port i = false -> initialized i = false ->
  exists k w,
    Initialize i = (false, set_calls k (set_winsock w i)) \/
    Initialize i = (true, set_calls k (set_winsock w
      (add_handles 1 (add_sockets 1 (set_initialized true (set_listen true (set_port true i))))))).
Proof.
  intros L P I. unfold Initialize. rewrite I.
  assert (W : exists b k w, WinsockStart i = (b, set_calls k (set_winsock w i))).
  { unfold WinsockStart, sys_call. destruct (winsock_started i) eqn:E; [|by eexists _, _, _].
    exists true, (calls i), true. destruct i. simpl in *. by subst. }
  destruct W as (b & k & w & ->). destruct b; [|by exists k, w; left]. cbn [negb].
  unfold CreatePort, OpenSocket, sys_call. cbn [fst snd].
  destruct (sys _); cbn [negb]; [|exists (S k), w; left; by destruct i].
  destruct (sys _); cbn [negb].
  2: { exists (S (S k)), w. left. destruct i. unfold CloseHandle, closesocket, add_handles. simpl.
       by rewrite <-Z.add_assoc, Z.add_0_r. }
  match goal with |- context [all_succeed 6 ?x] => destruct (all_succeed_calls 6 x) as (b & k' & ->) end.
  destruct b; cbn [negb]; exists k', w; [right|left].
  - unfold ResetListen, ResetPort, closesocket, CloseHandle. destruct i. simpl in *. by subst.
  - destruct i. unfold CloseHandle, closesocket, add_handles, add_sockets. simpl.
    by rewrite <-!Z.add_assoc, !Z.add_0_r.
Qed.

(** ** The state of [Server] under it

    The operations of [Server] are those of [Impl] seen from the server. *)

Lemma PostNewAccept_server i :
  listen_socket i = true ->
  exists n, 0 <= n /\ PostNewAccept i =
    ((ServerInbound.PostNewAccept os (server i)).1,
     set_server (ServerInbound.PostNewAccept os (server i)).2 (add_sockets n i)) /\
    n - Z.of_nat (accepts (ServerInbound.PostNewAccept os (server i)).2) =
      (if (ServerInbound.PostNewAccept os (server i)).1 then 0 else n) - Z.of_nat (accepts (server i)).
Proof.
  intros L. unfold PostNewAccept, ServerInbound.PostNewAccept, PostAccept, os_call. rewrite L.
  assert (Z0 : forall s, set_server s i = set_server s (add_sockets 0 i))
    by (intros s; unfold add_sockets, set_server; simpl; by rewrite Z.add_0_r).
  destruct (running (server i)); cbn [negb orb].
  2: { exists 0. split; [done|]. split; [|simpl; lia]. rewrite <-Z0. by destruct i. }
  destruct (os _); cbn [negb]; [|exists 0; split; [done|]; split; [by rewrite <-Z0|simpl; lia]].
  destruct (os _); cbn [negb]; [|exists 1; split; [done|]; split; [done|simpl; lia]].
  destruct (os _); cbn [negb]; exists 1; (split; [done|]; split; [done|simpl; lia]).
Qed.

(** The accepts posted by [Start] are the server's; each that fails behind the
    socket loses it. *)
Lemma post_accepts_server n posted i :
  listen_socket i = true ->
  exists k, (post_accepts n posted i) =
    ((ServerInbound.post_accepts os n posted (server i)).1,
     set_server (ServerInbound.post_accepts os n posted (server i)).2 (add_sockets k i)) /\
    Z.of_nat (accepts (ServerInbound.post_accepts os n posted (server i)).2)
      <= Z.of_nat (accepts (server i)) + k.
Proof.
  revert posted i. induction n as [|n IH]; intros posted i L; simpl.
  - exists 0. split; [|simpl; lia]. unfold set_server, add_sockets. simpl. rewrite Z.add_0_r. by destruct i.
  - destruct (PostNewAccept_server i L) as (k1 & Hk & -> & A).
    destruct (ServerInbound.PostNewAccept os (server i)) as [ok s1]. cbn [fst snd] in *.
    set (i1 := set_server s1 (add_sockets k1 i)).
    destruct (IH (if ok then (posted + 1)%u64 else posted) i1 L) as (k2 & -> & A2).
    exists (k1 + k2). split.
    + simpl. f_equal. unfold i1, set_server, add_sockets. simpl. f_equal. lia.
    + simpl in A2. destruct ok; lia.
Qed.

Lemma start_threads_cases n i :
  exists b k w t, start_threads n i = (b, set_calls k (set_threads w t i)) /\
    (b = true -> w = workers i + Z.of_nat n /\ t = true).
Proof.
  revert i. induction n as [|n IH]; intros i; simpl.
  - destruct (sys (calls i)); simpl.
    + exists true, (S (calls i)), (workers i), true. split; [by destruct i|]. split; [lia|done].
    + exists false, (S (calls i)), (workers i), (timer_thread i). split; [by destruct i|done].
  - destruct (sys (calls i)); simpl.
    + destruct (IH (set_threads (workers i + 1) (timer_thread i) (set_calls (S (calls i)) i)))
        as (b & k & w & t & -> & H). exists b, k, w, t. split; [by destruct i|].
      intros E. destruct (H E) as [-> ->]. simpl. split; [lia|done].
    + exists false, (S (calls i)), (workers i), (timer_thread i). split; [by destruct i|done].
Qed.

(** A server that does not run has nothing to disconnect. *)
Lemma StopSessions_idle s :
  good config s -> all_down s -> running s = false ->
  StopSessions config (set_running true s) = s.
Proof.
  intros G D R. unfold StopSessions. cbn [running set_running negb].
  assert (E : table_snapshot (sessions s) = []).
  { apply elem_of_nil_inv. intros h Hh. apply (snapshot_spec config s (gd_inv _ _ G)) in Hh.
    destruct Hh as (c & H & _ & Dn). rewrite (D _ _ H) in Dn. done. }
  simpl. rewrite E. simpl. destruct s. simpl in *. by subst.
Qed.

Lemma HandleAccept_server ok seen i :
  server (HandleAccept ok seen i) = ServerInbound.HandleAccept config os clock ok seen (server i).
Proof.
  assert (R : forall s j, server (RepostAccept s j) =
    if running s then
      let '(created, s) := os_call os s in
      let '(posted, s) := if created then os_call os s else (false, s) in
      if posted then set_accepts (S (accepts s)) s else CompleteOperation s
    else CompleteOperation s).
  { intros s j. unfold RepostAccept, PostAccept, os_call. destruct (running s); [|done].
    destruct (os (ticks s)); [|done]. by destruct (os _). }
  unfold HandleAccept, ServerInbound.HandleAccept. set (s0 := set_accepts _ _).
  assert (E : (AdmitAccept ok seen s0).2 =
    if ok && running s0 then
      if max_connections config <=? seen
      then count (fun m => set_rejected_connections (rejected_connections m + 1)%u64 m) s0 else
      let '(updated, s) := os_call os s0 in
      let '(associated, s) := if updated then os_call os s else (false, s) in
      if associated then AcceptSession config os clock s
      else count (fun m => set_rejected_connections (rejected_connections m + 1)%u64 m) s
    else s0).
  { unfold AdmitAccept, Associate, os_call. destruct (ok && running s0); [|done].
    destruct (_ <=? _); [done|]. destruct (os (ticks s0)); [|done]. by destruct (os _). }
  rewrite <-E. destruct (AdmitAccept ok seen s0) as [[] s1]; cbn [fst snd closesocket]; apply R.
Qed.

Lemma AcceptSession_accepts s : accepts (AcceptSession config os clock s) = accepts s.
Proof.
  unfold AcceptSession, MonotonicMilliseconds. cbv zeta.
  match goal with |- context [PostRead os ?sid ?x] =>
    destruct (PostRead_cases os sid x) as (ok & t & o & -> & _) end.
  destruct ok; simpl; [done|].
  match goal with |- accepts (Disconnect config ?sid ?x) = _ =>
    pose proof (fw_accepts _ _ (ev_follows _ _ (Disconnect_evolves config sid x))) as E end.
  simpl in E. exact E.
Qed.

Lemma AdmitAccept_accepts ok seen s : accepts (AdmitAccept ok seen s).2 = accepts s.
Proof.
  unfold AdmitAccept, Associate, os_call. destruct (ok && running s); [|done]. destruct (_ <=? _); [done|].
  destruct (os (ticks s)); [|done]. cbn [fst snd]. destruct (os _); [|done]. cbn [fst snd].
  by rewrite AcceptSession_accepts.
Qed.

(** The operation keeps as many sockets as it keeps accepts. *)
Lemma RepostAccept_frame s i :
  exists s' n, RepostAccept s i = set_server s' (add_sockets n i) /\
    n = Z.of_nat (accepts s') - Z.of_nat (accepts s).
Proof.
  assert (Z0 : forall x : Impl, x = add_sockets 0 x)
    by (intros x; unfold add_sockets; rewrite Z.add_0_r; by destruct x).
  assert (D : exists s', set_server (CompleteOperation s) i = set_server s' (add_sockets 0 i) /\
    0 = Z.of_nat (accepts s') - Z.of_nat (accepts s))
    by (rewrite <-Z0; exists (CompleteOperation s); split; [done|simpl; lia]).
  unfold RepostAccept, PostAccept, os_call. destruct (running s); [|destruct D as [s' D]; by exists s', 0].
  destruct (os (ticks s)); [|eexists _, 0; rewrite <-Z0; split; [done|simpl; lia]].
  destruct (os _); [eexists _, 1; split; [done|simpl; lia]|].
  eexists _, 0. unfold closesocket, add_sockets. simpl. rewrite <-Z.add_assoc. split; [done|simpl; lia].
Qed.

Lemma HandleAccept_frame ok seen i :
  (0 < accepts (server i))%nat ->
  lost (HandleAccept ok seen i) = lost i /\
  exists s n, HandleAccept ok seen i = set_server s (add_sockets n i).
Proof.
  intros Ha. unfold HandleAccept. set (s0 := set_accepts _ _).
  pose proof (AdmitAccept_accepts ok seen s0) as A. destruct (AdmitAccept ok seen s0) as [b s1]. cbn [snd] in A.
  assert (F : forall n m (x : Impl), add_sockets n (add_sockets m x) = add_sockets (m + n) x)
    by (intros; unfold add_sockets; simpl; by rewrite Z.add_assoc).
  set (i1 := if b then i else add_sockets (-1) i).
  destruct (RepostAccept_frame s1 i1) as (s2 & n & -> & N). simpl in A.
  assert (E : closesocket b (set_server s2 (add_sockets n i1)) = set_server s2 (add_sockets (n - 1) i)).
  { unfold closesocket, i1, set_server, add_sockets. destruct b; simpl; f_equal; lia. }
  rewrite E. split; [|by eexists _, _]. unfold lost. simpl. lia.
Qed.

(** The accepts [Start] has posted are those it counts. *)
Lemma post_accepts_count n posted (s : Server) :
  0 <= posted -> posted + Z.of_nat n <= size_max ->
  let '(p, s') := ServerInbound.post_accepts os n posted s in
  p - posted = Z.of_nat (accepts s') - Z.of_nat (accepts s) /\ running s' = running s.
Proof.
  revert posted s. induction n as [|n IH]; intros posted s H0 H1; simpl; [split; [lia|done]|].
  assert (P : let '(ok, s1) := ServerInbound.PostNewAccept os s in
    running s1 = running s /\ accepts s1 = if ok : bool then S (accepts s) else accepts s).
  { unfold ServerInbound.PostNewAccept, os_call. destruct (running s) eqn:R; [|done]. cbn [negb].
    repeat (destruct (os _); cbn [negb]; [|done]). done. }
  destruct (ServerInbound.PostNewAccept os s) as [ok s1]. destruct P as [R A].
  specialize (IH (if ok then (posted + 1)%u64 else posted) s1).
  destruct (ServerInbound.post_accepts _ _ _ _) as [p s2].
  destruct ok.
  - rewrite uadd_small in IH by lia. destruct IH as [E R']; [lia..|]. split; [lia|congruence].
  - destruct IH as [E R']; [lia..|]. split; [lia|congruence].
Qed.

(** The next [PostNewAccept] opens its socket and then fails: [Create] finds no
    memory, or [AcceptEx] fails. *)
Definition loses (i : Impl) : bool :=
  let t := ticks (server i) in
  running (server i) && listen_socket i && os t && negb (os (S t) && os (S (S t))).

(** How many of the next [n] accepts do. *)
Fixpoint losses (n : nat) (i : Impl) : Z :=
  match n with
  | O => 0
  | S n => (if loses i then 1 else 0) + losses n (PostNewAccept i).2
  end.

Lemma PostNewAccept_lost i :
  let '(ok, i') := PostNewAccept i in
  lost i' = lost i + (if loses i then 1 else 0) /\
  (loses i = true -> ok = false /\ open_sockets i' = open_sockets i + 1 /\
     accepts (server i') = accepts (server i)).
Proof.
  unfold PostNewAccept, PostAccept, loses, lost, os_call.
  destruct (running (server i)), (listen_socket i) eqn:L; cbn [negb orb andb];
    try (rewrite ?L; split; [lia|done]).
  destruct (os (ticks (server i))); cbn [negb andb]; [|simpl; rewrite ?L; split; [lia|done]].
  simpl. destruct (os (S (ticks (server i)))); simpl; [|rewrite ?L; split; [lia|intros _; done]].
  destruct (os (S (S (ticks (server i))))); simpl; rewrite ?L; split; [lia|done|lia|done].
Qed.

Lemma post_accepts_lost n posted i : lost (post_accepts n posted i).2 = lost i + losses n i.
Proof.
  revert posted i. induction n as [|n IH]; intros posted i; simpl; [lia|].
  pose proof (PostNewAccept_lost i) as P. destruct (PostNewAccept i) as [ok i1].
  destruct P as [P _]. rewrite IH. cbn [snd]. lia.
Qed.

Lemma losses_bound n i : 0 <= losses n i <= Z.of_nat n.
Proof. revert i. induction n as [|n IH]; intros i; simpl; [lia|]. specialize (IH (PostNewAccept i).2). split_if; lia. Qed.

Context (Hc : config_ok config) (Hd : is_u64 (accept_depth config)).

Lemma initialize_ok i :
  life_ok i -> life_ok (Initialize i).2 /\ server (Initialize i).2 = server i /\
  lost (Initialize i).2 = lost i.
Proof.
  intros [G D P L R H Rest]. destruct (initialized i) eqn:I.
  { unfold Initialize. rewrite I. cbn [snd]. split; [|done]. constructor; rewrite ?I; try done. }
  assert (L0 : listen_socket i = false) by (destruct (listen_socket i); [by specialize (L eq_refl)|done]).
  destruct (Initialize_cases i L0 P I) as (k & w & [-> | ->]); simpl.
  - split; [by constructor; simpl; rewrite ?I|done].
  - split; [|split; [done|unfold lost; simpl; rewrite L0; lia]].
    assert (R0 : running (server i) = false)
      by (destruct (running (server i)); [rewrite R in L0 by done; done|done]).
    constructor; simpl; try done; [by rewrite H|]. intros _ _. by apply Rest; rewrite ?L0.
Qed.

(** Disconnecting everything leaves the accepts at the port. *)
Lemma StopSessions_accepts s : good config s -> accepts (StopSessions config s) = accepts s.
Proof.
  intros G. unfold StopSessions. destruct (running s); [|done]. simpl.
  pose proof (running_good config false s G) as G1.
  apply (fw_accepts _ _ (fine_follows _ _ _
    (disconnect_all_fine config Hc (table_snapshot (sessions s)) _ (gd_inv _ _ G1)))).
Qed.

(** Both ends of [Stop] while nothing is at the port. *)
Lemma stop_at_once i :
  running (server i) = true -> listen_socket i = true -> completion_port i = true ->
  good config (server i) -> open_handles i = 1 -> accepts (server i) = 0%nat ->
  life_ok (StopEnd (StopBegin i)) /\ server (StopEnd (StopBegin i)) = StopSessions config (server i) /\
  lost (StopEnd (StopBegin i)) = lost i.
Proof.
  intros R L P G H A. pose proof (StopSessions_accepts (server i) G) as Ea.
  pose proof (Stop_stopped config Hc (server i) G R) as [G' R' D'].
  unfold StopBegin. rewrite R. cbn [negb].
  unfold StopEnd, ResetListen, ResetPort, closesocket, CloseHandle, lost.
  destruct i as [s0 ini ws port lis w t so ha ca]. simpl in *. subst. simpl.
  split; [|split; [done|lia]]. constructor; simpl; try done; [congruence|].
  intros _ _. by rewrite Ea.
Qed.

Lemma start_ok i :
  life_ok i -> (initialized i = true -> listen_socket i = true) ->
  life_ok (Start i).2 /\
  (server (Start i).2 = server i \/ server (Start i).2 = (ServerInbound.Start config os (server i)).2) /\
  lost i <= lost (Start i).2 <= lost i + accept_depth config.
Proof.
  intros Ok HL. pose proof Ok as [G D P L R H Rest]. unfold Start. unfold is_u64 in Hd.
  destruct (initialized i) eqn:I; [|cbn [negb orb snd]; split_and!; [done|by left|lia..]].
  destruct (running (server i)) eqn:Rn; [cbn [negb orb snd]; split_and!; [done|by left|lia..]|].
  cbn [negb orb]. specialize (HL eq_refl). destruct (Rest eq_refl HL) as (A & W & Tm).
  destruct (start_threads_cases (Z.to_nat (worker_count config)) (set_server (set_running true (server i)) i))
    as (b & k & w & t & -> & _).
  pose proof (running_good config true (server i) G) as G1.
  set (i1 := set_calls k _). destruct b; cbn [negb].
  2: { destruct (stop_at_once i1) as (O' & S' & L'); try done.
       assert (Li : lost i1 = lost i) by done.
       cbn [snd]. rewrite L', S', Li. split_and!; [done| |lia..]. left. exact (StopSessions_idle _ G (D eq_refl) Rn). }
  pose proof (post_accepts_lost (Z.to_nat (accept_depth config)) 0 i1) as Pl.
  pose proof (losses_bound (Z.to_nat (accept_depth config)) i1) as Lb.
  destruct (post_accepts_server (Z.to_nat (accept_depth config)) 0 i1 HL) as (n & E2 & An). rewrite E2 in *.
  pose proof (post_accepts_good config os (Z.to_nat (accept_depth config)) 0 _ G1) as G2.
  pose proof (post_accepts_count (Z.to_nat (accept_depth config)) 0 (set_running true (server i))) as C.
  unfold ServerInbound.Start. rewrite Rn.
  change (server i1) with (set_running true (server i)) in *.
  destruct (ServerInbound.post_accepts os _ 0 (set_running true (server i))) as [posted s2].
  cbn [fst snd] in *. destruct C as [Cp R2]; [lia..|]. simpl in R2, Cp.
  set (i2 := set_server s2 (add_sockets n i1)) in *.
  assert (Lo : lost i <= lost i2 <= lost i + accept_depth config)
    by (change (lost i1) with (lost i) in Pl; lia).
  split_if; cbn [snd].
  - destruct (stop_at_once i2) as (O' & S' & L'); try done; [simpl; lia|].
    rewrite L', S'. split_and!; [done|by right|lia..].
  - split_and!; [|by right|lia..]. constructor; simpl; rewrite ?I; try done; try congruence.
Qed.
Lemma StopEnd_server i : server (StopEnd i) = server i.
Proof. unfold StopEnd, ResetPort, CloseHandle. simpl. by destruct (completion_port i). Qed.

Lemma StopBegin_server i : server (StopBegin i) = StopSessions config (server i).
Proof.
  unfold StopBegin, ResetListen, closesocket. destruct (running (server i)) eqn:R; cbn [negb].
  - simpl. by destruct (listen_socket i).
  - unfold StopSessions. by rewrite R.
Qed.

(** [Start] answers whether the server runs, and closes everything if not. *)
Lemma Start_answer i :
  life_ok i -> running (server i) = false -> (initialized i = true -> listen_socket i = true) ->
  running (server (Start i).2) = (Start i).1 /\ ((Start i).1 = false -> initialized (Start i).2 = false).
Proof.
  intros Ok Rn HL. unfold Start. rewrite Rn.
  destruct (initialized i) eqn:I; [|done]. cbn [negb orb]. specialize (HL eq_refl).
  assert (X : forall j, running (server j) = true -> running (server (StopEnd (StopBegin j))) = false).
  { intros j Hj. rewrite StopEnd_server, StopBegin_server. by apply StopSessions_running. }
  destruct (start_threads_cases (Z.to_nat (worker_count config)) (set_server (set_running true (server i)) i))
    as (b & k & w & t & -> & _).
  set (i1 := set_calls k _). destruct b; cbn [negb fst snd]; [|split; [by apply X|done]].
  destruct (post_accepts_server (Z.to_nat (accept_depth config)) 0 i1 HL) as (n & -> & _).
  pose proof (post_accepts_count (Z.to_nat (accept_depth config)) 0 (set_running true (server i))) as C.
  change (server i1) with (set_running true (server i)).
  destruct (ServerInbound.post_accepts os _ 0 (set_running true (server i))) as [posted s2].
  cbn [fst snd]. unfold is_u64 in Hd. destruct C as [_ R2]; [lia..|]. simpl in R2.
  split_if; cbn [fst snd]; [split; [by apply X|done]|done].
Qed.

(** A step of the server alone. *)
Lemma server_only i s' :
  life_ok i -> good config s' -> running s' = running (server i) ->
  accepts s' = accepts (server i) -> (running (server i) = false -> all_down s') ->
  life_ok (set_server s' i) /\ lost (set_server s' i) = lost i.
Proof.
  intros [G D P L R H Rest] G' R' A' D'. unfold lost. simpl. rewrite A'. split; [|done].
  constructor; simpl; rewrite ?R', ?A'; done.
Qed.

Lemma lo_stopped i : life_ok i -> running (server i) = false -> stopped config (server i).
Proof. intros [G D _ _ _ _ _] R. constructor; auto. Qed.

Lemma good_fine (s s' : Server) : good config s -> fine config s s' -> good config s'.
Proof. intros G F. by eapply (fine_good config). Qed.

(** The timer and the public calls. *)
Lemma fine_only i s' :
  life_ok i -> fine config (server i) s' -> (stopped config (server i) -> s' = server i) ->
  life_ok (set_server s' i) /\ lost (set_server s' i) = lost i.
Proof.
  intros Ok F I. apply server_only; [done|by eapply good_fine, F; apply Ok|apply F|apply F|].
  intros R. rewrite I by (by apply lo_stopped). by apply (lo_down _ Ok).
Qed.

Lemma stop_begin_ok i :
  life_ok i ->
  life_ok (StopBegin i) /\ lost (StopBegin i) = lost i /\
  server (StopBegin i) = StopSessions config (server i).
Proof.
  intros Ok. unfold StopBegin. destruct (running (server i)) eqn:Rn; cbn [negb].
  2: { split_and!; [done|done|]. unfold StopSessions. by rewrite Rn. }
  destruct Ok as [G D P L R H Rest]. pose proof (Stop_stopped config Hc (server i) G Rn) as [G' R' D'].
  pose proof (R Rn) as Ls. pose proof (L Ls) as I. unfold ResetListen, closesocket, lost. simpl. rewrite Ls. simpl.
  rewrite (StopSessions_accepts (server i) G). split_and!; [|lia|done].
  constructor; simpl; rewrite ?R'; try done. by rewrite I.
Qed.

Lemma stop_end_ok i :
  life_ok i -> initialized i = true -> listen_socket i = false -> at_port (server i) = 0%nat ->
  life_ok (StopEnd i) /\ lost (StopEnd i) = lost i.
Proof.
  intros [G D P L R H Rest] I Ls A.
  assert (E : StopEnd i = set_initialized false (set_port false (add_handles (-1) (set_threads 0 false i)))).
  { unfold StopEnd, ResetPort, CloseHandle. simpl. by rewrite P, I. }
  assert (Rn : running (server i) = false)
    by (destruct (running (server i)); [rewrite R in Ls by done; done|done]).
  unfold at_port in A. rewrite E. split; [|done].
  constructor; simpl; rewrite ?Ls, ?Rn, ?H, ?I; try done.
  - intros _. by apply D.
  - intros _ _. split; [lia|done].
Qed.

Lemma accept_ok ok seen i :
  life_ok i -> (0 < accepts (server i))%nat -> next_session_id (server i) < size_max ->
  life_ok (HandleAccept ok seen i) /\ lost (HandleAccept ok seen i) = lost i.
Proof.
  intros [G D P L R H Rest] A N. destruct (HandleAccept_frame ok seen i A) as [Lo (s & n & E)].
  split; [|done]. pose proof (HandleAccept_server ok seen i) as Es.
  destruct (HandleAccept_good config os clock Hc ok seen (server i) G A N) as [G' R'].
  rewrite E in Es |- *. simpl in Es. subst s.
  constructor; simpl; rewrite ?R'; try done.
  - intros Rn. rewrite accept_down by done. by apply D.
  - intros Rn E1. destruct (Rest Rn E1) as (A0 & _). lia.
Qed.

Lemma read_ok i k ok bytes s' :
  life_ok i -> HandleRead config os clock k ok bytes (server i) = Some s' ->
  life_ok (set_server s' i) /\ lost (set_server s' i) = lost i.
Proof.
  intros Ok E. pose proof (lo_good _ Ok) as G. pose proof G as [I RD _].
  destruct (HandleRead_ok config os clock Hc k ok bytes (server i) I RD) as (s2 & E2 & S2). simplify_eq.
  apply server_only; [done|by eapply settled_good|apply S2|apply S2|]. intros R.
  destruct (reads (server i) !! k) as [sid|] eqn:Hk.
  - destruct (completion_stopped config os clock Hc (server i) s') as [Sp _];
      [by apply lo_stopped|by eapply completion_read|apply Sp].
  - unfold HandleRead in E. rewrite Hk in E. simplify_eq. by apply (lo_down _ Ok).
Qed.

Lemma write_ok i k ok n :
  life_ok i -> 0 <= n <= 4294967295 ->
  let i' := set_server (HandleWrite config os k ok n (server i)) i in
  life_ok i' /\ lost i' = lost i.
Proof.
  intros Ok Hn. pose proof (lo_good _ Ok) as G. pose proof G as [I RD _].
  assert (S2 : settled config (server i) (HandleWrite config os k ok n (server i)))
    by (apply HandleWrite_settled; [done..|unfold size_max; lia]).
  apply server_only; [done|by eapply settled_good|apply S2|apply S2|]. intros R.
  destruct (writes (server i) !! k) as [op|] eqn:Hk.
  - destruct (completion_stopped config os clock Hc (server i) (HandleWrite config os k ok n (server i)))
      as [Sp _]; [by apply lo_stopped|by apply completion_write|apply Sp].
  - unfold HandleWrite. rewrite Hk. by apply (lo_down _ Ok).
Qed.

(** Every step keeps the invariant, moves the server by at most one of its own
    steps, and loses no socket unless it is [Start]. *)
Lemma life_step_ok i i' :
  life_ok i -> life_step i i' ->
  life_ok i' /\ rtc (server_step config os clock) (server i) (server i') /\
  (lost i' = lost i \/ i' = (Start i).2 /\ lost i <= lost i').
Proof.
  intros Ok H. pose proof (gd_inv _ _ (lo_good _ Ok)) as I.
  assert (One : forall s, server_step config os clock (server i) s ->
    rtc (server_step config os clock) (server i) s) by (intros s; apply rtc_once).
  destruct H as [|Hl| |Hi Hl Ha|ok seen Ha Hn|k ok bytes s' E|k ok n Hn| |h p|h code r].
  - destruct (initialize_ok i Ok) as (O & E & L).
    split_and!; [done|rewrite E; apply rtc_refl|by left].
  - destruct (start_ok i Ok Hl) as (O & E & L & _). split_and!; auto.
    destruct E as [-> | ->]; [apply rtc_refl|apply One, step_start].
  - destruct (stop_begin_ok i Ok) as (O & L & E). split_and!; auto. rewrite E. apply One, step_stop.
  - destruct (stop_end_ok i Ok Hi Hl Ha) as [O L]. split_and!; [done| |by left].
    rewrite StopEnd_server. apply rtc_refl.
  - destruct (accept_ok ok seen i Ok Ha Hn) as [O L]. split_and!; auto.
    rewrite HandleAccept_server. by apply One, step_accept.
  - destruct (read_ok i k ok bytes s' Ok E) as [O L]. split_and!; auto. by eapply One, step_read.
  - destruct (write_ok i k ok n Ok Hn) as [O L]. split_and!; auto. by apply One, step_write.
  - destruct (fine_only i (TimerTick config os clock (server i)) Ok) as [O L];
      [by apply TimerTick_fine|intros Sp; by apply (stopped_inert config os clock)|].
    split_and!; auto. apply One, step_timer.
  - destruct (fine_only i (Send config os h p (server i)).2 Ok) as [O L].
    + apply fine_evolves; [by apply Send_Inv|apply Send_evolves].
    + intros Sp. destruct (stopped_inert config os clock _ Sp) as (_ & E & _). by rewrite E.
    + split_and!; auto. apply One, step_send.
  - destruct (fine_only i (Close config os clock h code r (server i)) Ok) as [O L];
      [by apply Close_fine|intros Sp; by apply (stopped_inert config os clock)|].
    split_and!; auto. apply One, step_close.
Qed.

Definition lived (a0 : St) (i : Impl) : Prop := rtc life_step (construct a0) i.

Lemma construct_ok a0 : life_ok (construct a0).
Proof.
  constructor; simpl; try done. by apply initial_good.
Qed.

Lemma lived_ok a0 i : lived a0 i ->
  life_ok i /\ reachable config os clock a0 (server i) /\ 0 <= lost i.
Proof.
  intros H. assert (K : forall x y, rtc life_step x y ->
    life_ok x /\ reachable config os clock a0 (server x) /\ 0 <= lost x ->
    life_ok y /\ reachable config os clock a0 (server y) /\ 0 <= lost y).
  { induction 1 as [|x y z Hs _ IH]; [done|]. intros (Ok & Rc & L). apply IH.
    destruct (life_step_ok x y Ok Hs) as (Ok' & Rs & L').
    split_and!; [done|unfold reachable in *; by etransitivity|]. destruct L' as [->|[_ ?]]; lia. }
  eapply K; [exact H|]. split_and!; [apply construct_ok|apply rtc_refl|done].
Qed.
(** C17. Whatever the operating system answers, a server that was constructed,
    initialized, started and stopped any number of times, with any completions
    in between: its state is one that the claims about the server cover; it holds
    the completion port, and no other handle, exactly while it is initialized,
    and has an open listener while it runs; a failed [Initialize] leaves sockets
    and handles as they were; no operation but [Start] loses a socket; after
    [Stop] returned, no worker, no timer and no accept is left, no session is
    connected, and every socket still open is one that [Start] lost. *)
Theorem lifecycle_resources a0 i :
  lived a0 i ->
  reachable config os clock a0 (server i) /\
  open_handles i = (if initialized i then 1 else 0) /\
  (running (server i) = true -> initialized i = true /\ listen_socket i = true) /\
  (forall i', Initialize i = (false, i') ->
    open_sockets i' = open_sockets i /\ open_handles i' = open_handles i /\ initialized i' = false) /\
  (forall i', life_step i i' -> lost i' = lost i \/ i' = (Start i).2 /\ lost i <= lost i') /\
  (initialized i = false ->
    workers i = 0 /\ timer_thread i = false /\ accepts (server i) = 0%nat /\
    open_sockets i = lost i /\
    forall sid c, heap (server i) !! sid = Some c -> disconnect_started c = true).
Proof.
  intros H. destruct (lived_ok a0 i H) as (Ok & Rc & _). pose proof Ok as [G D P L R Hh Rest].
  assert (Off : initialized i = false -> listen_socket i = false /\ running (server i) = false).
  { intros I. destruct (listen_socket i); [by rewrite L in I|].
    split; [done|]. destruct (running (server i)); [by specialize (R eq_refl)|done]. }
  split_and!; [done|done|by auto| | |].
  - intros i' E. destruct (initialized i) eqn:I; [unfold Initialize in E; by rewrite I in E|].
    destruct (Initialize_cases i (proj1 (Off eq_refl)) P I) as (k & w & [E'|E']); rewrite E' in E; by simplify_eq.
  - intros i' Hs. by destruct (life_step_ok i i' Ok Hs) as (_ & _ & ?).
  - intros I. destruct (Off I) as [Ls Rn]. destruct (Rest Rn) as (A & W & Tm); [congruence|].
    split_and!; [done..| |by apply D]. unfold lost. rewrite Ls, A. simpl. lia.
Qed.

Lemma start_threads_ready n i i1 :
  start_threads n i = (true, i1) -> exists k w t, i1 = set_calls k (set_threads w t i).
Proof.
  intros E. destruct (start_threads_cases n i) as (b & k & w & t & E' & _).
  rewrite E' in E. simplify_eq. eauto.
Qed.

Lemma Start_lost i i1 :
  life_ok i -> initialized i = true -> running (server i) = false -> listen_socket i = true ->
  start_threads (Z.to_nat (worker_count config)) (set_server (set_running true (server i)) i) = (true, i1) ->
  lost (Start i).2 = lost i + losses (Z.to_nat (accept_depth config)) i1.
Proof.
  intros Ok I Rn HL E. pose proof Ok as [G D P L R H Rest].
  destruct (Rest Rn) as (A & _); [congruence|]. unfold Start. rewrite I, Rn. cbn [negb orb]. rewrite E.
  destruct (start_threads_ready _ _ _ E) as (k & w & t & E1). cbn [negb].
  assert (L1 : lost i1 = lost i) by (by rewrite E1).
  rewrite <-L1, <-(post_accepts_lost _ 0).
  destruct (post_accepts_server (Z.to_nat (accept_depth config)) 0 i1) as (n & E2 & An);
    [by rewrite E1|].
  pose proof (post_accepts_good config os (Z.to_nat (accept_depth config)) 0 (server i1)) as G2.
  pose proof (post_accepts_count (Z.to_nat (accept_depth config)) 0 (server i1)) as C. rewrite E2.
  assert (S1 : server i1 = set_running true (server i)) by (by rewrite E1).
  assert (G1 : good config (server i1)) by (rewrite S1; by apply running_good).
  destruct (ServerInbound.post_accepts os _ 0 (server i1)) as [posted s2].
  cbn [fst snd] in *. unfold is_u64 in Hd. destruct C as [Cp R2]; [lia..|].
  split_if; cbn [snd]; [|done].
  assert (A1 : accepts (server i1) = 0%nat) by (by rewrite S1).
  apply stop_at_once; rewrite ?E1; simpl; rewrite ?E1 in *; simpl in *; try done.
  - by rewrite P.
  - by apply G2.
  - by rewrite H, I.
  - lia.
Qed.

Lemma lost_monotone i i' : life_ok i -> rtc life_step i i' -> life_ok i' /\ lost i <= lost i'.
Proof.
  intros Ok H. induction H as [i|i i1 i2 Hs _ IH]; [done|].
  destruct (life_step_ok i i1 Ok Hs) as (Ok1 & _ & L). destruct (IH Ok1) as [Ok2 L2].
  split; [done|]. destruct L as [L|[_ L]]; lia.
Qed.

(** C35. [PostNewAccept] loses a socket exactly when it has opened one and then
    [Create] or [AcceptEx] fails: it answers [false], one more socket is open and
    no accept holds it.  [Start] loses as many sockets as accepts fail so among
    those it posts, and no later operation, [Stop] included, closes one of them:
    from then on at least so many sockets stay open. *)
Theorem accept_socket_leak a0 i :
  lived a0 i ->
  (forall j, let '(ok, j') := PostNewAccept j in
     lost j' = lost j + (if loses j then 1 else 0) /\
     (loses j = true -> ok = false /\ open_sockets j' = open_sockets j + 1 /\
        accepts (server j') = accepts (server j))) /\
  (forall i1, initialized i = true -> running (server i) = false -> listen_socket i = true ->
     start_threads (Z.to_nat (worker_count config))
       (set_server (set_running true (server i)) i) = (true, i1) ->
     lost (Start i).2 = lost i + losses (Z.to_nat (accept_depth config)) i1) /\
  (forall i', rtc life_step i i' -> lost i <= open_sockets i').
Proof.
  intros H. destruct (lived_ok a0 i H) as (Ok & _ & _). split_and!.
  - exact PostNewAccept_lost.
  - intros i1. by apply Start_lost.
  - intros i' H'. destruct (lost_monotone i i' Ok H') as [_ L]. unfold lost in L at 2.
    destruct (listen_socket i'); lia.
Qed.
End lifecycle.

Arguments Impl : clear implicits.

(** ** A run *)

#[local] Existing Instance echo.

(** The last call of the second [PostNewAccept], its [AcceptEx], fails. *)
Definition second_accept_fails (n : nat) : bool := negb (n =? 5)%nat.

Abbreviation lived_sample os := (lived sample_config os sample_clock sample_os 0%nat).

Definition run_initialized : Impl nat (list (gmap Z SessionHandle)) :=
  (Initialize sample_os (construct 0%nat)).2.

Definition run_started (os : nat -> bool) : Impl nat (list (gmap Z SessionHandle)) :=
  (Start sample_config os sample_os run_initialized).2.

(** Stopped; the accept at the port is cancelled. *)
Definition run_stopped (os : nat -> bool) : Impl nat (list (gmap Z SessionHandle)) :=
  HandleAccept sample_config os sample_clock false 0 (StopBegin sample_config (run_started os)).

Lemma run_initialized_lived os : lived_sample os run_initialized.
Proof. apply rtc_once, life_initialize. Qed.

Lemma run_started_lived os : lived_sample os (run_started os).
Proof. apply (rtc_r _ _ _ (run_initialized_lived os)), life_start. done. Qed.

Lemma run_stopped_lived os :
  (0 <? accepts (server (StopBegin sample_config (run_started os))))%nat
    && (next_session_id (server (StopBegin sample_config (run_started os))) <? size_max) = true ->
  rtc (life_step sample_config os sample_clock sample_os) (run_started os) (run_stopped os).
Proof.
  intros [A N]%andb_prop. apply (rtc_l _ _ (StopBegin sample_config (run_started os))); [apply life_stop|].
  apply rtc_once, life_accept; [by apply Nat.ltb_lt|by apply Z.ltb_lt].
Qed.

(** Witness: the second of the two accepts of [Start] fails; the server is
    stopped, the accept cancelled and [Stop] returns: one socket is still open. *)
Lemma accept_socket_leak_witness :
  let i := StopEnd (run_stopped second_accept_fails) in
  lived_sample second_accept_fails i /\
  initialized i = false /\ accepts (server i) = 0%nat /\ open_handles i = 0 /\ 1 <= open_sockets i.
Proof.
  cbv zeta. pose proof (run_stopped_lived second_accept_fails eq_refl) as H.
  assert (H1 : rtc (life_step sample_config second_accept_fails sample_clock sample_os)
    (run_started second_accept_fails) (StopEnd (run_stopped second_accept_fails)))
    by (apply (rtc_r _ _ _ H), life_stopped; vm_compute; reflexivity).
  split; [unfold lived; etransitivity; [apply run_started_lived|exact H1]|].
  do 3 (split; [vm_compute; reflexivity|]).
  assert (Hd : is_u64 (accept_depth sample_config)) by (vm_compute; split; congruence).
  destruct (accept_socket_leak sample_config second_accept_fails sample_clock sample_os
    (limited_config_ok 4096) Hd 0%nat (run_started second_accept_fails) (run_started_lived _)) as (_ & _ & L).
  specialize (L _ H1).
  assert (E : lost (run_started second_accept_fails) = 1) by (vm_compute; reflexivity).
  rewrite E in L. exact L.
Defined.

(** Witness: the started server, with two accepts, a listener and its port. *)
Lemma lifecycle_resources_witness :
  let i := run_started sample_os in
  lived_sample sample_os i /\ open_sockets i = 3 /\ open_handles i = 1.
Proof.
  cbv zeta. split; [apply run_started_lived|]. split; [vm_compute; reflexivity|].
  assert (Hd : is_u64 (accept_depth sample_config)) by (vm_compute; split; congruence).
  destruct (lifecycle_resources sample_config sample_os sample_clock sample_os (limited_config_ok 4096)
    Hd 0%nat (run_started sample_os) (run_started_lived sample_os)) as (_ & E & _).
  rewrite E. vm_compute. reflexivity.
Defined.
