(* ===== verification/Main.v ===== *)
(** * The server program (src/src/main.cpp)

    [ParseSize], the command line, [ConstantTimeEqual] and the wiring: the
    router, with the authenticator of [main], is the application of the server.
    [std::stoull] is written out: white space, an optional sign, decimal digits. *)

From S2P Require Import Prelude SessionHandle RoomRegistry ServerTypes Router.
From S2P Require Import ServerInbound ServerInvariant.

(** An exception: thrown by [std::stoull], or with the text [main] gives it. *)
Inductive Exception := StoullInvalidArgument | StoullOutOfRange | InvalidArgument (what : list byte).

(** [isspace] in the C locale. *)
Definition isspace (b : byte) : bool := (b2z b =? 32) || ((9 <=? b2z b) && (b2z b <=? 13)).
Definition isdigit (b : byte) : bool := (48 <=? b2z b) && (b2z b <=? 57).

Fixpoint skip_spaces (l : list byte) : list byte :=
  match l with
  | [] => []
  | b :: r => if isspace b then skip_spaces r else l
  end.

(** The digits at the front: their value, how many, the rest. *)
Fixpoint read_digits (value : Z) (count : nat) (l : list byte) : Z * nat * list byte :=
  match l with
  | [] => (value, count, [])
  | b :: r => if isdigit b then read_digits (value * 10 + (b2z b - 48)) (S count) r
              else (value, count, l)
  end.

(** [std::stoull(value, &consumed)]: the number and the unread rest.  A minus
    sign negates the number modulo [2 ^ 64]; the range is checked before. *)
Definition stoull (value : list byte) : Exception + Z * list byte :=
  let l := skip_spaces value in
  let '(negative, l) := match l with
    | b :: r => if b2z b =? 45 then (true, r) else if b2z b =? 43 then (false, r) else (false, l)
    | [] => (false, [])
    end in
  let '(number, count, rest) := read_digits 0 0 l in
  if (count =? 0)%nat then inl StoullInvalidArgument
  else if size_max <? number then inl StoullOutOfRange
  else inr (if negative : bool then u64 (- number) else number, rest).

Definition ParseSize (value option : list byte) : Exception + Z :=
  match stoull value with
  | inl e => inl e
  | inr (parsed, rest) =>
      if negb (size_of rest =? 0) then inl (InvalidArgument (bstr "invalid " ++ option)) else inr parsed
  end.

Definition byte_at (s : list byte) (index : nat) : Z := match s !! index with Some b => b2z b | None => 0 end.

(** The loop: [remaining] rounds from [index]. *)
Fixpoint difference_loop (remaining index : nat) (first second : list byte) (difference : Z) : Z :=
  match remaining with
  | O => difference
  | S remaining =>
      difference_loop remaining (S index) first second
        (Z.lor difference (Z.lxor (byte_at first index) (byte_at second index)))
  end.

Definition ConstantTimeEqual (first second : list byte) : bool :=
  let difference := Z.lxor (size_of first) (size_of second) in
  let length := Nat.max (length first) (length second) in
  difference_loop length 0 first second difference =? 0.

(** ** The command line *)

Record Options := mkOptions {
  config : ServerConfig;
  auth_token : list byte;
  allowed_origin : list byte;
  metrics_interval : Z;
}.

Definition set_config (v : ServerConfig) (o : Options) :=
  mkOptions v (auth_token o) (allowed_origin o) (metrics_interval o).
Definition set_auth_token (v : list byte) (o : Options) :=
  mkOptions (config o) v (allowed_origin o) (metrics_interval o).
Definition set_allowed_origin (v : list byte) (o : Options) :=
  mkOptions (config o) (auth_token o) v (metrics_interval o).
Definition set_metrics_interval (v : Z) (o : Options) :=
  mkOptions (config o) (auth_token o) (allowed_origin o) v.

(** A configuration with the fields the options set, the others its own. *)
Definition with_fields (port worker_count max_connections max_message_bytes
    max_session_queued_bytes max_global_queued_bytes : Z) (affinity : bool)
    (origin : option (list byte -> bool)) (c : ServerConfig) : ServerConfig :=
  mkConfig port worker_count max_connections (accept_depth c) (receive_buffer_bytes c)
    max_message_bytes (max_session_inbound_bytes c) (max_global_inbound_bytes c)
    max_session_queued_bytes max_global_queued_bytes (max_handshake_bytes c)
    (max_messages_per_second c) (malformed_message_limit c) (handshake_timeout c) (idle_timeout c)
    (websocket_ping_interval c) (websocket_pong_timeout c) (close_timeout c) affinity origin.

Definition set_port (v : Z) (c : ServerConfig) :=
  with_fields v (worker_count c) (max_connections c) (max_message_bytes c)
    (max_session_queued_bytes c) (max_global_queued_bytes c) (enable_thread_affinity c) (origin_validator c) c.
Definition set_worker_count (v : Z) (c : ServerConfig) :=
  with_fields (port c) v (max_connections c) (max_message_bytes c)
    (max_session_queued_bytes c) (max_global_queued_bytes c) (enable_thread_affinity c) (origin_validator c) c.
Definition set_max_connections (v : Z) (c : ServerConfig) :=
  with_fields (port c) (worker_count c) v (max_message_bytes c)
    (max_session_queued_bytes c) (max_global_queued_bytes c) (enable_thread_affinity c) (origin_validator c) c.
Definition set_max_message_bytes (v : Z) (c : ServerConfig) :=
  with_fields (port c) (worker_count c) (max_connections c) v
    (max_session_queued_bytes c) (max_global_queued_bytes c) (enable_thread_affinity c) (origin_validator c) c.
Definition set_session_queue (v : Z) (c : ServerConfig) :=
  with_fields (port c) (worker_count c) (max_connections c) (max_message_bytes c)
    v (max_global_queued_bytes c) (enable_thread_affinity c) (origin_validator c) c.
Definition set_global_queue (v : Z) (c : ServerConfig) :=
  with_fields (port c) (worker_count c) (max_connections c) (max_message_bytes c)
    (max_session_queued_bytes c) v (enable_thread_affinity c) (origin_validator c) c.
Definition set_affinity (v : bool) (c : ServerConfig) :=
  with_fields (port c) (worker_count c) (max_connections c) (max_message_bytes c)
    (max_session_queued_bytes c) (max_global_queued_bytes c) v (origin_validator c) c.
Definition set_origin (v : option (list byte -> bool)) (c : ServerConfig) :=
  with_fields (port c) (worker_count c) (max_connections c) (max_message_bytes c)
    (max_session_queued_bytes c) (max_global_queued_bytes c) (enable_thread_affinity c) v c.

Definition is_option (option : list byte) (name : string) : bool := bool_decide (option = bstr name).

(** The options [require_value] is called for. *)
Definition value_options : list string :=
  ["--port"; "--workers"; "--max-connections"; "--max-message-bytes"; "--session-queue-bytes";
   "--global-queue-bytes"; "--auth-token"; "--allowed-origin"; "--metrics-interval-ms"]%string.

Definition sized (value option : list byte) (set : Z -> ServerConfig -> ServerConfig) (o : Options)
  : Exception + Options :=
  match ParseSize value option with
  | inl e => inl e
  | inr n => inr (set_config (set n (config o)) o)
  end.

(** [size_t] to the signed 64-bit count of a [std::chrono::milliseconds]. *)
Definition to_int64 (n : Z) : Z := if n <? 9223372036854775808 then n else n - 18446744073709551616.

(** One option with its value. *)
Definition apply_value (option value : list byte) (o : Options) : Exception + Options :=
  if is_option option "--port" then
    match ParseSize value option with
    | inl e => inl e
    | inr port =>
        if (port =? 0) || (65535 <? port)
        then inl (InvalidArgument (bstr "port must be between 1 and 65535"))
        else inr (set_config (set_port port (config o)) o)
    end
  else if is_option option "--workers" then sized value option set_worker_count o
  else if is_option option "--max-connections" then sized value option set_max_connections o
  else if is_option option "--max-message-bytes" then sized value option set_max_message_bytes o
  else if is_option option "--session-queue-bytes" then sized value option set_session_queue o
  else if is_option option "--global-queue-bytes" then sized value option set_global_queue o
  else if is_option option "--auth-token" then inr (set_auth_token value o)
  else if is_option option "--allowed-origin" then inr (set_allowed_origin value o)
  else
    match ParseSize value option with
    | inl e => inl e
    | inr n => inr (set_metrics_interval (to_int64 n) o)
    end.

(** The loop over [argv] from index 1. *)
Fixpoint parse_options (args : list (list byte)) (o : Options) : Exception + Options :=
  match args with
  | [] => inr o
  | option :: rest =>
      if existsb (is_option option) value_options then
        match rest with
        | [] => inl (InvalidArgument (bstr "missing value for " ++ option))
        | value :: rest =>
            match apply_value option value o with
            | inl e => inl e
            | inr o => parse_options rest o
            end
        end
      else if is_option option "--thread-affinity"
      then parse_options rest (set_config (set_affinity true (config o)) o)
      else inl (InvalidArgument (bstr "unknown option: " ++ option))
  end.

(** The values [main] starts from: the two environment variables. *)
Definition initial_options (token origin : option (list byte)) : Options :=
  mkOptions default_config (default (bstr "development-only-change-me") token) (default [] origin) 5000.

(** The configuration given to the server: an allowed origin becomes the
    validator. *)
Definition server_config (o : Options) : ServerConfig :=
  if negb (size_of (allowed_origin o) =? 0)
  then set_origin (Some (fun origin => bool_decide (origin = allowed_origin o))) (config o)
  else config o.

(** The authenticator [main] gives the router. *)
Definition main_authenticator (auth_token : list byte) (token : list byte) : option (list byte) :=
  if negb (ConstantTimeEqual token auth_token) then None else Some (bstr "service-user").

(** The application [main] registers. *)
Definition main_application (verify : list byte -> bool) (get : list byte -> NetworkMessage)
    (finish : NetworkMessage -> list byte) (auth_token : list byte) : Application ProtocolRouter :=
  router_application verify get finish (Some (main_authenticator auth_token)) None.

(** ** [ConstantTimeEqual] *)

Lemma difference_loop_zero n i a b d :
  difference_loop n i a b d = 0 <->
  d = 0 /\ forall k, (i <= k < i + n)%nat -> byte_at a k = byte_at b k.
Proof.
  revert i d. induction n as [|n IH]; intros i d; simpl.
  - split; [|naive_solver]. intros ->. split; [done|]. intros k Hk. lia.
  - rewrite IH, Z.lor_eq_0_iff, Z.lxor_eq_0_iff. split.
    + intros [[-> E] F]. split; [done|]. intros k Hk.
      destruct (decide (k = i)) as [->|]; [done|]. apply F. lia.
    + intros [-> F]. split; [split; [done|apply F; lia]|]. intros k Hk. apply F. lia.
Qed.

Lemma ConstantTimeEqual_spec a b : ConstantTimeEqual a b = true <-> a = b.
Proof.
  unfold ConstantTimeEqual. rewrite Z.eqb_eq, difference_loop_zero, Z.lxor_eq_0_iff. split.
  - intros [L F]. apply list_eq_same_length with (length a); [unfold size_of in L; lia|unfold size_of in L; lia|].
    intros i x y Hi Ha Hb. specialize (F i ltac:(lia)). unfold byte_at in F. rewrite Ha, Hb in F.
    by apply b2z_inj.
  - intros ->. done.
Qed.

(** ** [ParseSize] *)

Definition decimal (ds : list byte) : Z := foldl (fun v b => v * 10 + (b2z b - 48)) 0 ds.

Inductive sign_text : list byte -> bool -> Prop :=
| sign_none : sign_text [] false
| sign_plus : sign_text (bstr "+") false
| sign_minus : sign_text (bstr "-") true.

(** White space, a sign, decimal digits up to [2 ^ 64 - 1], nothing else. *)
Inductive size_text : list byte -> Z -> Prop :=
| size_text_intro ws sign negative ds :
    Forall (fun b => isspace b = true) ws -> sign_text sign negative ->
    ds <> [] -> Forall (fun b => isdigit b = true) ds -> decimal ds <= size_max ->
    size_text (ws ++ sign ++ ds) (if negative : bool then u64 (- decimal ds) else decimal ds).

Lemma skip_spaces_spec l :
  exists ws, l = ws ++ skip_spaces l /\ Forall (fun b => isspace b = true) ws /\
    match skip_spaces l with b :: _ => isspace b = false | [] => True end.
Proof.
  induction l as [|b l (ws & E & F & N)]; simpl; [by exists []|].
  destruct (isspace b) eqn:S; [|by exists []].
  exists (b :: ws). simpl. split; [by f_equal|]. split; [by constructor|done].
Qed.

Lemma skip_spaces_app ws l :
  Forall (fun b => isspace b = true) ws ->
  match l with b :: _ => isspace b = false | [] => True end -> skip_spaces (ws ++ l) = l.
Proof.
  induction 1 as [|b ws H F IH]; simpl; intros N.
  - destruct l as [|b l]; [done|]. simpl. by rewrite N.
  - rewrite H. by apply IH.
Qed.

Lemma read_digits_spec l v n :
  exists ds rest, l = ds ++ rest /\ Forall (fun b => isdigit b = true) ds /\
    match rest with b :: _ => isdigit b = false | [] => True end /\
    read_digits v n l = (foldl (fun v b => v * 10 + (b2z b - 48)) v ds, (n + length ds)%nat, rest).
Proof.
  revert v n. induction l as [|b l IH]; intros v n; simpl.
  - exists [], []. simpl. split_and!; [done..|]. by rewrite Nat.add_0_r.
  - destruct (isdigit b) eqn:D.
    + destruct (IH (v * 10 + (b2z b - 48)) (S n)) as (ds & rest & E & F & N & R).
      exists (b :: ds), rest. simpl. split_and!; [by f_equal|by constructor|done|].
      rewrite R. do 2 f_equal. lia.
    + exists [], (b :: l). simpl. split_and!; [done..|]. by rewrite Nat.add_0_r.
Qed.

Lemma read_digits_all ds :
  Forall (fun b => isdigit b = true) ds -> read_digits 0 0 ds = (decimal ds, length ds, []).
Proof.
  intros F. assert (G : forall v n, read_digits v n ds =
    (foldl (fun v b => v * 10 + (b2z b - 48)) v ds, (n + length ds)%nat, [])); [|apply G].
  induction F as [|b ds D F IH]; intros v n; simpl; [by rewrite Nat.add_0_r|].
  rewrite D, IH. do 2 f_equal. lia.
Qed.

Lemma isdigit_facts b :
  isdigit b = true -> isspace b = false /\ (b2z b =? 45) = false /\ (b2z b =? 43) = false.
Proof. unfold isdigit, isspace. intros H. split_and!; lia. Qed.

Lemma size_text_parse value n option : size_text value n -> ParseSize value option = inr n.
Proof.
  intros [ws sign negative ds Fs Hs Hne Fd Hm]. unfold ParseSize, stoull.
  destruct ds as [|d ds]; [done|]. pose proof (Forall_cons_1 _ _ _ Fd) as [Hd _].
  destruct (isdigit_facts d Hd) as (D1 & D2 & D3).
  pose proof (read_digits_all _ Fd) as RD. apply Z.ltb_ge in Hm.
  destruct Hs; (rewrite skip_spaces_app; [|done|by simpl]); cbn [app bstr].
  - rewrite D2, D3, RD. cbn [length Nat.eqb]. rewrite Hm. done.
  - change (bstr "+" ++ d :: ds) with (Byte.x2b :: d :: ds). cbn iota.
    change (b2z Byte.x2b =? 45) with false. change (b2z Byte.x2b =? 43) with true. cbn iota.
    rewrite RD. cbn [length Nat.eqb]. rewrite Hm. done.
  - change (bstr "-" ++ d :: ds) with (Byte.x2d :: d :: ds). cbn iota.
    change (b2z Byte.x2d =? 45) with true. cbn iota.
    rewrite RD. cbn [length Nat.eqb]. rewrite Hm. done.
Qed.

Lemma parse_size_text value n option : ParseSize value option = inr n -> size_text value n.
Proof.
  unfold ParseSize, stoull. destruct (skip_spaces_spec value) as (ws & E & Fs & N).
  set (l := skip_spaces value) in *. rewrite E. clearbody l. clear E N.
  assert (G : forall sign negative l', l = sign ++ l' -> sign_text sign negative ->
    match (let '(number, count, rest) := read_digits 0 0 l' in
      if (count =? 0)%nat then inl StoullInvalidArgument
      else if size_max <? number then inl StoullOutOfRange
      else inr (if negative : bool then u64 (- number) else number, rest)) with
    | inl e => inl e
    | inr (parsed, rest) =>
        if negb (size_of rest =? 0) then inl (InvalidArgument (bstr "invalid " ++ option))
        else inr parsed
    end = inr n -> size_text (ws ++ l) n).
  { intros sign negative l' El Hs. destruct (read_digits_spec l' 0 0) as (ds & rest & E' & Fd & _ & ->).
    fold (decimal ds). simpl. destruct ds as [|d ds]; [done|]. cbn [length Nat.eqb].
    destruct (size_max <? decimal (d :: ds)) eqn:M; [done|].
    destruct (size_of rest =? 0) eqn:Z0; [|done]. cbn [negb]. intros [= <-].
    apply Z.eqb_eq, size_zero_nil in Z0. subst rest. rewrite app_nil_r in E'. subst l'. rewrite El.
    apply size_text_intro; [done..|lia]. }
  destruct l as [|b r]; [by apply (G [] false); [|constructor]|].
  destruct (b2z b =? 45) eqn:B1; [|destruct (b2z b =? 43) eqn:B2].
  - apply (G [b] true); [done|]. replace b with Byte.x2d; [constructor|].
    apply b2z_inj. apply Z.eqb_eq in B1. rewrite B1. done.
  - apply (G [b] false); [done|]. replace b with Byte.x2b; [constructor|].
    apply b2z_inj. apply Z.eqb_eq in B2. rewrite B2. done.
  - apply (G [] false); [done|constructor].
Qed.

(** Command-line sizes are read exactly as documented for [std::stoull]: a
    value is accepted if and only if it is white space, an optional sign and
    decimal digits up to [2 ^ 64 - 1] with nothing behind them, and the result
    is their number, taken modulo [2 ^ 64] when the sign is a minus. *)
Theorem parse_size_exact value option n :
  ParseSize value option = inr n <-> size_text value n.
Proof. split; [apply parse_size_text|apply size_text_parse]. Qed.

Lemma size_text_range value n : size_text value n -> is_u64 n.
Proof.
  intros [ws sign negative ds _ _ _ Fd Hm]. destruct negative; [apply u64_range|].
  split; [|done]. assert (G : forall v, 0 <= v -> 0 <= foldl (fun v b => v * 10 + (b2z b - 48)) v ds).
  { clear Hm. induction Fd as [|b ds D F IH]; intros v Hv; simpl; [done|].
    apply IH. unfold isdigit in D. lia. }
  apply G. lia.
Qed.

(** What the options keep: sizes fit the machine, other fields are not touched. *)
Record options_ok (o : Options) : Prop := {
  oo_port : 1 <= port (config o) <= 65535;
  oo_workers : is_u64 (worker_count (config o));
  oo_connections : is_u64 (max_connections (config o));
  oo_message : is_u64 (max_message_bytes (config o));
  oo_session : is_u64 (max_session_queued_bytes (config o));
  oo_global : is_u64 (max_global_queued_bytes (config o));
  oo_rest : config o = with_fields (port (config o)) (worker_count (config o))
    (max_connections (config o)) (max_message_bytes (config o)) (max_session_queued_bytes (config o))
    (max_global_queued_bytes (config o)) (enable_thread_affinity (config o)) None default_config;
}.

Lemma sized_ok value option set o o' :
  (forall n c, is_u64 n -> options_ok (set_config c o) -> options_ok (set_config (set n c) o)) ->
  options_ok o -> sized value option set o = inr o' -> options_ok o'.
Proof.
  unfold sized. intros Hs Ho. destruct (ParseSize value option) as [e|n] eqn:E; [done|].
  intros [= <-]. apply parse_size_text, size_text_range in E. apply Hs; [done|]. by destruct o.
Qed.

Lemma apply_value_ok option value o o' :
  options_ok o -> apply_value option value o = inr o' -> options_ok o'.
Proof.
  intros Ho. unfold apply_value.
  destruct (is_option option "--port").
  { destruct (ParseSize value option) as [e|n] eqn:E; [done|]. split_if; [done|]. intros [= <-].
    apply parse_size_text, size_text_range in E as [? _]. destruct Ho as [? ? ? ? ? ? R]. constructor; simpl; try done; [lia|].
    rewrite R. done. }
  do 5 (split_if; [apply sized_ok; [|done];
    intros n c Hn [? ? ? ? ? ? R]; constructor; simpl in *; try done; rewrite R; done|]).
  do 2 (split_if; [intros [= <-]; destruct Ho; by constructor|]).
  destruct (ParseSize value option) as [e|n]; [done|]. intros [= <-]. destruct Ho. by constructor.
Qed.

Lemma parse_options_ok args o o' :
  options_ok o -> parse_options args o = inr o' ->
  options_ok o' /\ forall tail, parse_options (args ++ tail) o = parse_options tail o'.
Proof.
  remember (length args) as n eqn:Hn. revert args o Hn.
  induction n as [n IH] using lt_wf_ind.
  intros [|option rest] o Hn Ho H; cbn [parse_options] in H.
  - simplify_eq. done.
  - cbn [parse_options app]. destruct (existsb _ value_options).
    + destruct rest as [|value rest]; [done|]. cbn [app].
      destruct (apply_value option value o) as [e|o1] eqn:A; [done|].
      eapply (IH (length rest)); [simpl in Hn; lia|done|by eapply apply_value_ok|done].
    + split_if; [|done]. eapply (IH (length rest)); [simpl in Hn; lia|done| |done].
      destruct Ho as [? ? ? ? ? ? R]. constructor; simpl; try done. rewrite R. done.
Qed.

Lemma options_config_ok o cores :
  options_ok o -> max_message_bytes (config o) <= 4294967295 ->
  config_ok (Impl_config cores (server_config o)).
Proof.
  intros [? ? ? [? ?] ? ? R] Hm. unfold server_config.
  split_if; constructor; simpl; try done; rewrite R; simpl; lia.
Qed.

(** ** What a command line says

    The reference reading of the arguments: a list of settings, each an option
    with its value or the switch. *)
Inductive setting := Value (option value : list byte) | ThreadAffinity.

Inductive value_ok : list byte -> list byte -> Prop :=
| value_port v n : size_text v n -> 1 <= n <= 65535 -> value_ok (bstr "--port") v
| value_size name v n :
    name ∈ ["--workers"; "--max-connections"; "--max-message-bytes"; "--session-queue-bytes";
            "--global-queue-bytes"; "--metrics-interval-ms"]%string ->
    size_text v n -> value_ok (bstr name) v
| value_text name v : name ∈ ["--auth-token"; "--allowed-origin"]%string -> value_ok (bstr name) v.

Inductive command_line : list (list byte) -> list setting -> Prop :=
| command_nil : command_line [] []
| command_value option value args l :
    value_ok option value -> command_line args l ->
    command_line (option :: value :: args) (Value option value :: l)
| command_affinity args l :
    command_line args l -> command_line (bstr "--thread-affinity" :: args) (ThreadAffinity :: l).

Definition value_of (name : string) (s : setting) : option (list byte) :=
  match s with
  | Value option value => if bool_decide (option = bstr name) then Some value else None
  | ThreadAffinity => None
  end.

(** The last value given to an option decides; without one the field stays. *)
Definition given {A} (name : string) (l : list setting) (text : list byte -> A -> Prop) (before after : A) :=
  match last (omap (value_of name) l) with Some v => text v after | None => after = before end.

Definition same_text (v x : list byte) : Prop := x = v.
Definition interval_text (v : list byte) (x : Z) : Prop := exists n, size_text v n /\ x = to_int64 n.

Record settings_of (l : list setting) (before after : Options) : Prop := {
  so_port : given "--port" l size_text (port (config before)) (port (config after));
  so_workers : given "--workers" l size_text (worker_count (config before)) (worker_count (config after));
  so_connections :
    given "--max-connections" l size_text (max_connections (config before)) (max_connections (config after));
  so_message :
    given "--max-message-bytes" l size_text (max_message_bytes (config before)) (max_message_bytes (config after));
  so_session : given "--session-queue-bytes" l size_text
    (max_session_queued_bytes (config before)) (max_session_queued_bytes (config after));
  so_global : given "--global-queue-bytes" l size_text
    (max_global_queued_bytes (config before)) (max_global_queued_bytes (config after));
  so_token : given "--auth-token" l same_text (auth_token before) (auth_token after);
  so_origin : given "--allowed-origin" l same_text (allowed_origin before) (allowed_origin after);
  so_interval :
    given "--metrics-interval-ms" l interval_text (metrics_interval before) (metrics_interval after);
  so_affinity : enable_thread_affinity (config after) = true <->
    enable_thread_affinity (config before) = true \/ ThreadAffinity ∈ l;
}.

Lemma given_cons {A} name s l text (a b c : A) :
  given name [s] text a b -> given name l text b c -> given name (s :: l) text a c.
Proof.
  unfold given. simpl. destruct (value_of name s); simpl; rewrite ?last_cons;
    destruct (last _); intros H1 H2; subst; done.
Qed.

Lemma settings_of_cons s l o o1 o2 :
  settings_of [s] o o1 -> settings_of l o1 o2 -> settings_of (s :: l) o o2.
Proof.
  intros [] []. constructor; try (by eapply given_cons). set_solver.
Qed.

(** One option with its value: its own field is set, and no other. *)
Lemma apply_value_settings option value o :
  value_ok option value ->
  exists o', apply_value option value o = inr o' /\ settings_of [Value option value] o o'.
Proof.
  intros H. destruct H as [v n Hv Hn|name v n Hin Hv|name v Hin].
  - exists (set_config (set_port n (config o)) o). unfold apply_value.
    change (is_option (bstr "--port") "--port") with true. cbv iota.
    rewrite (size_text_parse v n) by done.
    replace ((n =? 0) || (65535 <? n)) with false by lia. split; [done|].
    constructor; try done. simpl. set_solver.
  - repeat (apply elem_of_cons in Hin as [->|Hin]); [..|by apply not_elem_of_nil in Hin];
      (eexists; split; [unfold apply_value, sized; rewrite (size_text_parse v n) by done; reflexivity|]);
      constructor; try done; try (by exists n); simpl; set_solver.
  - repeat (apply elem_of_cons in Hin as [->|Hin]); [..|by apply not_elem_of_nil in Hin];
      (eexists; split; [reflexivity|]); constructor; try done; simpl; set_solver.
Qed.

Lemma apply_value_valid option value o o' :
  existsb (is_option option) value_options = true -> apply_value option value o = inr o' ->
  value_ok option value.
Proof.
  assert (S : forall name set, sized value (bstr name) set o = inr o' -> exists n, size_text value n).
  { intros name set. unfold sized. destruct (ParseSize value _) as [|n] eqn:E; [done|]. intros _.
    exists n. by eapply parse_size_text. }
  unfold apply_value. cbn [existsb value_options].
  destruct (is_option option "--port") eqn:I.
  { apply bool_decide_eq_true in I as ->. intros _.
    destruct (ParseSize value _) as [|n] eqn:E; [done|]. split_if; [done|]. intros _.
    apply (value_port value n); [by eapply parse_size_text|].
    pose proof (parse_size_text _ _ _ E) as [? _]%size_text_range. lia. }
  clear I.
  do 5 (match goal with |- context [is_option option ?n] => destruct (is_option option n) eqn:I end;
    [apply bool_decide_eq_true in I as ->; intros _ [n Hn]%S; apply (value_size _ _ n); [set_solver|done]|clear I]).
  do 2 (match goal with |- context [is_option option ?n] => destruct (is_option option n) eqn:I end;
    [apply bool_decide_eq_true in I as ->; intros _ _; apply value_text; set_solver|clear I]).
  rewrite orb_false_r. intros ->%bool_decide_eq_true.
  destruct (ParseSize value _) as [|n] eqn:E; [done|]. intros _.
  apply (value_size _ _ n); [set_solver|by eapply parse_size_text].
Qed.

Lemma value_ok_option option value :
  value_ok option value -> existsb (is_option option) value_options = true.
Proof.
  intros H. apply existsb_exists.
  assert (E : exists name, name ∈ value_options /\ option = bstr name).
  { destruct H as [v n _ _|name v n Hin _|name v Hin]; eexists; (split; [|reflexivity]); set_solver. }
  destruct E as (name & Hin & ->). exists name. split; [by apply list_elem_of_In|].
  by apply bool_decide_eq_true.
Qed.

Lemma command_line_parse args l o :
  command_line args l -> exists o', parse_options args o = inr o' /\ settings_of l o o'.
Proof.
  intros H. revert o. induction H as [|option value args l V _ IH|args l _ IH]; intros o.
  - exists o. split; [done|]. constructor; try done. set_solver.
  - cbn [parse_options]. rewrite (value_ok_option option value V).
    destruct (apply_value_settings option value o V) as (o1 & -> & S1).
    destruct (IH o1) as (o2 & E & S2). exists o2. split; [done|by eapply settings_of_cons].
  - destruct (IH (set_config (set_affinity true (config o)) o)) as (o2 & E & S2). exists o2.
    split; [exact E|]. eapply settings_of_cons; [|exact S2]. constructor; try done. simpl. set_solver.
Qed.

Lemma parse_command_line args o o' : parse_options args o = inr o' -> exists l, command_line args l.
Proof.
  remember (length args) as n eqn:Hn. revert args o Hn.
  induction n as [n IH] using lt_wf_ind. intros [|option rest] o Hn H; cbn [parse_options] in H.
  { exists []. constructor. }
  destruct (existsb _ value_options) eqn:X.
  - destruct rest as [|value rest]; [done|].
    destruct (apply_value option value o) as [e|o1] eqn:A; [done|].
    destruct (IH (length rest) ltac:(simpl in Hn; lia) rest o1 eq_refl H) as [l L].
    exists (Value option value :: l). constructor; [by eapply apply_value_valid|done].
  - destruct (is_option option "--thread-affinity") eqn:I; [|done].
    apply bool_decide_eq_true in I as ->.
    destruct (IH (length rest) ltac:(simpl in Hn; lia) rest _ eq_refl H) as [l L].
    exists (ThreadAffinity :: l). by constructor.
Qed.

(** C39. The command line sets what it says: it is accepted exactly when it is a
    sequence of known options with good values and of the switch; then each field
    has the last value given to its own option, or what [main] starts with when
    there is none, thread affinity is on exactly with the switch, every other
    field has its default, only the allowed origin, if any, passes the validator,
    every size fits 64 bits, and the server's proofs apply whenever the message
    limit is at most 4 GiB. *)
Theorem main_options args token origin :
  ((exists o, parse_options args (initial_options token origin) = inr o) <->
   exists l, command_line args l) /\
  (forall o, parse_options args (initial_options token origin) = inr o ->
   (exists l, command_line args l /\ settings_of l (initial_options token origin) o) /\
   options_ok o /\
   (origin_validator (server_config o) = None <-> allowed_origin o = []) /\
   (forall f x, origin_validator (server_config o) = Some f -> (f x = true <-> x = allowed_origin o)) /\
   (forall cores, max_message_bytes (config o) <= 4294967295 ->
      config_ok (Impl_config cores (server_config o)))).
Proof.
  split.
  { split; [intros [o H]; by eapply parse_command_line|].
    intros [l H]. destruct (command_line_parse args l (initial_options token origin) H) as (o & E & _). eauto. }
  intros o H. assert (I0 : options_ok (initial_options token origin))
    by (constructor; simpl; try done; unfold is_u64, size_max; lia).
  destruct (parse_options_ok _ _ _ I0 H) as [Ho _].
  assert (V : origin_validator (config o) = None) by (rewrite (oo_rest _ Ho); done).
  assert (N : size_of (allowed_origin o) = 0 <-> allowed_origin o = [])
    by (split; [apply size_zero_nil|by intros ->]).
  split_and!; [|done|..|intros; by apply options_config_ok]; [|unfold server_config; destruct (size_of (allowed_origin o) =? 0) eqn:Z0;
    simpl; try (apply Z.eqb_eq in Z0 || apply Z.eqb_neq in Z0)..].
  - destruct (parse_command_line _ _ _ H) as [l L]. exists l. split; [exact L|].
    destruct (command_line_parse args l (initial_options token origin) L) as (o1 & E & S). rewrite H in E. by simplify_eq.
  - tauto.
  - split; [done|]. tauto.
  - intros f x. rewrite V. done.
  - intros f x [= <-]. rewrite bool_decide_eq_true. done.
Qed.

(** ** Who is authenticated *)

Section authentication.
Context (verify : list byte -> bool) (get : list byte -> NetworkMessage).
Context (finish : NetworkMessage -> list byte) (token : list byte).

(** The calls the server makes of the handlers [main] registers. *)
Definition main_after : list router_call -> ProtocolRouter :=
  after verify get finish (Some (main_authenticator token)) None.

(** [bytes] is an [Authenticate] message that carries the token. *)
Record presents_token (bytes : list byte) : Prop := {
  pt_verified : verify bytes = true;
  pt_version : protocol_version (get bytes) = ProtocolVersion;
  pt_payload : payload (get bytes) = P_Authenticate (Some (Some token));
}.

Lemma main_authenticator_spec t p :
  main_authenticator token t = Some p <-> t = token /\ p = bstr "service-user".
Proof.
  unfold main_authenticator. destruct (ConstantTimeEqual t token) eqn:E; simpl.
  - apply ConstantTimeEqual_spec in E. naive_solver.
  - split; [done|]. intros [-> _].
    pose proof (proj2 (ConstantTimeEqual_spec token token) eq_refl). congruence.
Qed.

Lemma Handle_principal now s bytes r t p :
  Principal t (Handle verify get finish (Some (main_authenticator token)) None now s bytes r).2 = Some p ->
  Principal t r = Some p \/ (t = s /\ p = bstr "service-user" /\ presents_token bytes).
Proof.
  unfold Handle. destruct (verify bytes) eqn:V; cbn [negb]; [|by left].
  split_if; [by left|]. destruct (payload_null _); [by left|].
  destruct (payload (get bytes)) eqn:P; try (by left).
  - destruct timestamp_ms; by left.
  - unfold HandleAuthenticate. destruct token0 as [[tk|]|]; try (by left).
    split_if; [by left|]. destruct (main_authenticator token tk) as [q|] eqn:A; [|by left].
    unfold result, reply, Principal. cbn [fst snd principals_ set_principals].
    rewrite lookup_insert. case_decide as D; [|by left]. intros [= <-].
    apply main_authenticator_spec in A as [-> ->]. right. split_and!; [done..|]. by constructor.
  - unfold HandleJoin. destruct (negb (IsAuthenticated s r)); [by left|].
    destruct room as [[room|]|]; try (by left). split_if; [by left|].
    destruct (Join _ s room (rooms_ r)) as [res rooms]. by left.
  - unfold HandleLeave. destruct room as [[room|]|]; try (by left). split_if; [by left|].
    destruct (Leave s room (rooms_ r)) as [res rooms]. by left.
  - unfold HandlePublish. destruct (negb (IsAuthenticated s r)); [by left|].
    split_if; [by left|]. split_if; by left.
Qed.

Lemma main_one_principal : one_principal (Some (main_authenticator token)).
Proof.
  intros f t t' p p' [= <-] [_ ->]%main_authenticator_spec [_ ->]%main_authenticator_spec. done.
Qed.

(** C23. Only the token lets a client in: after any messages and disconnections,
    a session has a principal only if it sent a well-formed [Authenticate]
    message with exactly the configured token, its principal is
    [service-user], every subscriber is such a session, and no session is
    subscribed to a booking room but that of [service-user]. *)
Theorem main_authentication calls s :
  let r := main_after calls in
  (forall p, Principal s r = Some p -> p = bstr "service-user" /\
     exists now bytes, CallHandle now s bytes ∈ calls /\ presents_token bytes) /\
  (forall room, subscribed (rooms_ r) s room ->
     Principal s r = Some (bstr "service-user") /\
     (starts_with room BookingPrefix = true -> room = bstr "booking:user:service-user")).
Proof.
  cbv zeta. assert (G : forall p, Principal s (main_after calls) = Some p -> p = bstr "service-user" /\
     exists now bytes, CallHandle now s bytes ∈ calls /\ presents_token bytes).
  { unfold main_after, after. induction calls as [|c calls IH] using rev_ind; intros p.
    { unfold Principal. simpl. by rewrite lookup_empty. }
    rewrite foldl_app. cbn [foldl run_call].
    assert (L : forall p, Principal s (foldl (run_call verify get finish
        (Some (main_authenticator token)) None) Router.construct calls) = Some p ->
      p = bstr "service-user" /\
      exists now bytes, CallHandle now s bytes ∈ calls ++ [c] /\ presents_token bytes).
    { intros q (E & now & bytes & Hin & Hp)%IH. split; [done|]. exists now, bytes.
      split; [apply elem_of_app; by left|done]. }
    destruct c as [now s' bytes|s']; cbn [run_call].
    - intros [H|(-> & -> & Hp)]%Handle_principal; [by apply L|]. split; [done|].
      exists now, bytes. split; [apply elem_of_app; right; by left|done].
    - intros H. apply L. revert H. unfold OnDisconnect, Principal. simpl.
      rewrite lookup_delete. by case_decide. }
  split; [exact G|]. intros room Hs.
  pose proof (after_wf verify get finish (Some (main_authenticator token)) None calls) as W.
  destruct (rw_authenticated _ _ W s room Hs) as [p P]. destruct (G p P) as [-> _].
  split; [exact P|]. intros B.
  pose proof (after_authorized verify get finish (Some (main_authenticator token)) None calls
    main_one_principal s room Hs) as A.
  unfold AuthorizeRoom in A. unfold main_after in P. rewrite P, B in A.
  apply bool_decide_eq_true in A. unfold starts_with in B. apply bool_decide_eq_true in B.
  rewrite <-(take_drop (length BookingPrefix) room), B, A. done.
Qed.
End authentication.

(** ** Witnesses *)

Lemma main_options_witness :
  exists o, parse_options [bstr "--port"; bstr "80"; bstr "--workers"; bstr "4"; bstr "--port"; bstr "9000"]
      (initial_options None None) = inr o /\ port (config o) = 9000 /\ worker_count (config o) = 4 /\
    config_ok (Impl_config 8 (server_config o)).
Proof.
  eexists. split; [vm_compute; reflexivity|]. split; [reflexivity|]. split; [reflexivity|].
  apply (main_options [bstr "--port"; bstr "80"; bstr "--workers"; bstr "4"; bstr "--port"; bstr "9000"] None None);
    [vm_compute; reflexivity|]. vm_compute. congruence.
Defined.
