(* ===== verification/Callbacks.v ===== *)
(** * Registered handlers (src/src/core/iocp_server.cpp, src/src/main.cpp)

    The three handlers of [IocpServer::Impl] as they are kept, registered and
    called; the ones [main] registers are the [Application] of the server. *)

From S2P Require Import Prelude SessionHandle ServerTypes Router Main.

(** What a handler is called with, and what it does to the application. *)
Definition MessageHandler (St : Type) : Type :=
  Z -> SessionHandle -> list byte -> St -> MessageDisposition * list (SessionHandle * list byte) * St.
Definition SessionHandler (St : Type) : Type := SessionHandle -> St -> St.

Section callbacks.
Context {St : Type}.

(** An empty [std::function] is [None]. *)
Record Callbacks := mkCallbacks {
  message_callback : option (MessageHandler St);
  connect_callback : option (SessionHandler St);
  disconnect_callback : option (SessionHandler St);
}.

Definition no_callbacks : Callbacks := mkCallbacks None None None.

Definition RegisterMessageHandler (value : option (MessageHandler St)) (i : Callbacks) : Callbacks :=
  mkCallbacks value (connect_callback i) (disconnect_callback i).
Definition RegisterConnectHandler (value : option (SessionHandler St)) (i : Callbacks) : Callbacks :=
  mkCallbacks (message_callback i) value (disconnect_callback i).
Definition RegisterDisconnectHandler (value : option (SessionHandler St)) (i : Callbacks) : Callbacks :=
  mkCallbacks (message_callback i) (connect_callback i) value.

Definition InvokeConnect (i : Callbacks) (h : SessionHandle) (st : St) : St :=
  match connect_callback i with Some callback => callback h st | None => st end.
Definition InvokeDisconnect (i : Callbacks) (h : SessionHandle) (st : St) : St :=
  match disconnect_callback i with Some callback => callback h st | None => st end.

(** The application a server with these handlers runs. *)
Definition callbacks_application (i : Callbacks) : Application St := {|
  message_handler := message_callback i;
  connect_handler := InvokeConnect i;
  disconnect_handler := InvokeDisconnect i;
|}.

(** The handlers are registered independently of each other; the last one counts. *)
Lemma register_frame m c d i :
  RegisterConnectHandler c (RegisterMessageHandler m i) = RegisterMessageHandler m (RegisterConnectHandler c i) /\
  RegisterDisconnectHandler d (RegisterMessageHandler m i) = RegisterMessageHandler m (RegisterDisconnectHandler d i) /\
  RegisterDisconnectHandler d (RegisterConnectHandler c i) = RegisterConnectHandler c (RegisterDisconnectHandler d i).
Proof. done. Qed.
End callbacks.
Arguments Callbacks : clear implicits.

Section main.
Context (verify : list byte -> bool) (get : list byte -> NetworkMessage) (finish : NetworkMessage -> list byte).

(** What [main] registers with the server. *)
Definition main_callbacks (auth_token : list byte) : Callbacks ProtocolRouter :=
  let authenticator := Some (main_authenticator auth_token) in
  RegisterDisconnectHandler (Some Router.OnDisconnect)
    (RegisterMessageHandler (Some (Router.Handle verify get finish authenticator None)) no_callbacks).

(** The application of [Main] is these handlers: nothing is called on a connect. *)
Lemma main_callbacks_application auth_token :
  callbacks_application (main_callbacks auth_token) = main_application verify get finish auth_token.
Proof. done. Qed.
End main.
