(* ===== verification/Program.v ===== *)
(** * The program around the server (src/src/main.cpp, src/src/core/iocp_server.hpp)

    [main] from its arguments to its exit code, against the interface of a server
    ([ServerImpl]); the Windows server of [Lifecycle] and the one of the other
    platforms implement it.  Each step of [main] up to an access of the flag, a
    wait or a call of [Stop] is one step here; the handlers of the workers run
    between them, and complete the outstanding operations while [Stop] waits.  The
    flag [stop_requested] is an oracle, asked once per load. *)

From S2P Require Import Prelude SessionHandle OutboundQueue ServerTypes Router Server.
From S2P Require Import SessionRegistry ServerInbound ServerInvariant ServerReceive ServerSteps ServerStream.
From S2P Require Import ServerProperties Shutdown Lifecycle Main Callbacks.

(** ** What the server reports *)

Record ServerMetricsSnapshot := mkSnapshot {
  sm_accepted_connections : Z;
  sm_active_connections : Z;
  sm_received_messages : Z;
  sm_sent_messages : Z;
  sm_malformed_messages : Z;
  sm_rejected_connections : Z;
  sm_send_failures : Z;
  sm_queued_bytes : Z;
  sm_inbound_bytes : Z;
}.

(** [AtomicMetrics::Snapshot] *)
Definition MetricsSnapshot (m : Metrics) : ServerMetricsSnapshot :=
  mkSnapshot (accepted_connections m) (active_connections m) (received_messages m) (sent_messages m)
    (malformed_total m) (rejected_connections m) (send_failures m) (queued_total m) (inbound_total m).

(** ** The interface *)

(** What [main] calls.  [works] is a step of the server's own threads; [Stop] is
    three parts: [stop_begin] up to its wait ([None] when it returns at once), the
    completions [drains] while it waits for what is [outstanding], and [stop_end];
    [destroy] is the destructors of the members. *)
Class ServerImpl (I : Type) := {
  initialize : I -> bool * I;
  start : I -> bool * I;
  works : I -> I -> Prop;
  stop_begin : I -> option I;
  drains : I -> I -> Prop;
  outstanding : I -> bool;
  stop_end : I -> I;
  destroy : I -> I;
  is_running : I -> bool;
  report : I -> ServerMetricsSnapshot;
}.

(** What [main] relies on: a server that is up stays so, and the wait of [Stop]
    has something to wait for that every completion brings closer to the end. *)
Class ServerLaws (I : Type) `{ServerImpl I} := {
  up : I -> Prop;
  stopping : I -> Prop;
  left_over : I -> nat;
  law_works i j : up i -> works i j -> up j;
  law_begin i j : up i -> stop_begin i = Some j -> stopping j;
  law_drain i j : stopping i -> drains i j -> stopping j /\ (left_over j < left_over i)%nat;
  law_outstanding i : stopping i -> outstanding i = true -> exists j, drains i j;
  law_end i : stopping i -> outstanding i = false -> up (stop_end i);
}.

(** ** [main] *)

(** The lines [main] writes. *)
Inductive line :=
| ErrorWhat (e : Exception)
| StartupFailed
| Ready (port : Z)
| MetricsLine (fields : list (string * Z)).

Definition metrics_line (m : ServerMetricsSnapshot) : line :=
  MetricsLine
    [("active_connections", sm_active_connections m); ("accepted_connections", sm_accepted_connections m);
     ("received_messages", sm_received_messages m); ("sent_messages", sm_sent_messages m);
     ("malformed_messages", sm_malformed_messages m); ("send_failures", sm_send_failures m);
     ("queued_bytes", sm_queued_bytes m); ("inbound_bytes", sm_inbound_bytes m)]%string.

(** [Environment(name)]: nothing when the lookup fails or there is no value. *)
Definition Environment (getenv : string -> bool * option (list byte)) (name : string) : option (list byte) :=
  let '(failed, value) := getenv name in if failed : bool then None else value.

Section main.
Context {I : Type} `{Srv : ServerImpl I}.
Context (getenv : string -> bool * option (list byte)) (stop_requested : nat -> bool).
Context (make : Options -> I).

Definition options : Options :=
  initial_options (Environment getenv "IOCP_AUTH_TOKEN") (Environment getenv "IOCP_ALLOWED_ORIGIN").

(** [server.Initialize() && server.Start()] *)
Definition startup (i : I) : bool * I :=
  let '(ok, i) := initialize i in if negb ok then (false, i) else start i.

(** Where [main] is.  [n] counts the loads of the flag, [lines] are those written;
    [calls] of [Stop] are still to come, that of [main] and that of the server's
    destructor. *)
Inductive main_state :=
| AtLoop (o : Options) (n : nat) (i : I) (lines : list line)      (** before the condition *)
| AtWait (o : Options) (n : nat) (i : I) (lines : list line)      (** in [wait_for] *)
| AtReport (o : Options) (n : nat) (i : I) (lines : list line)
| AtStop (code : Z) (calls : nat) (i : I) (lines : list line)
| InStop (code : Z) (calls : nat) (i : I) (lines : list line)     (** in the wait of [Stop] *)
| Exited (code : Z) (fin : option I) (lines : list line).

(** Up to the loop, or to the destructor of the server. *)
Definition main_begin (args : list (list byte)) : main_state :=
  match parse_options args options with
  | inl e => Exited 2 None [ErrorWhat e]
  | inr o =>
      let '(ok, i) := startup (make o) in
      if ok : bool then AtLoop o 0 i [Ready (port (config o))] else AtStop 1 1 i [StartupFailed]
  end.

(** The steps of [main], and the completions that [Stop] waits for. *)
Inductive main_step : main_state -> main_state -> Prop :=
| main_test o n i l :
    main_step (AtLoop o n i l) (if stop_requested n then AtStop 0 2 i l else AtWait o (S n) i l)
| main_woken o n i l :
    main_step (AtWait o n i l) (if stop_requested n then AtStop 0 2 i l else AtReport o (S n) i l)
| main_reports o n i l :
    main_step (AtReport o n i l) (AtLoop o n i (l ++ [metrics_line (report i)]))
| main_stop code calls i l :
    main_step (AtStop code (S calls) i l)
      (match stop_begin i with Some j => InStop code calls j l | None => AtStop code calls i l end)
| main_drain code calls i j l :
    drains i j -> main_step (InStop code calls i l) (InStop code calls j l)
| main_stopped code calls i l :
    outstanding i = false -> main_step (InStop code calls i l) (AtStop code calls (stop_end i) l)
| main_exit code i l :
    main_step (AtStop code 0 i l) (Exited code (Some (destroy i)) l).

(** The workers, while the server runs. *)
Inductive idle_step : main_state -> main_state -> Prop :=
| idle_loop o n i j l : works i j -> idle_step (AtLoop o n i l) (AtLoop o n j l)
| idle_wait o n i j l : works i j -> idle_step (AtWait o n i l) (AtWait o n j l)
| idle_report o n i j l : works i j -> idle_step (AtReport o n i l) (AtReport o n j l)
| idle_stop code calls i j l :
    is_running i = true -> works i j -> idle_step (AtStop code calls i l) (AtStop code calls j l).

Definition any_step (x y : main_state) : Prop := main_step x y \/ idle_step x y.

Definition exited (x : main_state) : bool := match x with Exited _ _ _ => true | _ => false end.

(** One step of [main] or one completion, with any work before it. *)
Definition round (y x : main_state) : Prop := exists x', rtc idle_step x x' /\ main_step x' y.

(** ** [main] returns *)

Section returns.
Context `{!ServerLaws I}.

(** The server is as [main] needs it. *)
Definition sane (x : main_state) : Prop :=
  match x with
  | AtLoop _ _ i _ | AtWait _ _ i _ | AtReport _ _ i _ | AtStop _ _ i _ => up i
  | InStop _ _ i _ => stopping i
  | Exited _ _ _ => True
  end.

Lemma main_step_sane x y : sane x -> main_step x y -> sane y.
Proof.
  intros Hx H. destruct H as [o n i l|o n i l|o n i l|code calls i l|code calls i j l D|code calls i l O|code i l]; simpl in *.
  1,2: by destruct (stop_requested n).
  - done.
  - destruct (stop_begin i) eqn:E; [by eapply law_begin|done].
  - by eapply law_drain.
  - by apply law_end.
  - done.
Qed.

Lemma idle_step_sane x y : sane x -> idle_step x y -> sane y.
Proof. intros Hx H. destruct H; simpl in *; by eapply law_works. Qed.

(** [main] is never stuck. *)
Lemma main_progress x : sane x -> exited x = false -> exists y, main_step x y.
Proof.
  destruct x as [o n i l|o n i l|o n i l|code calls i l|code calls i l|code fin l]; simpl; intros Hx E; try done.
  - eexists. apply main_test.
  - eexists. apply main_woken.
  - eexists. apply main_reports.
  - destruct calls; eexists; [apply main_exit|apply main_stop].
  - destruct (outstanding i) eqn:O.
    + destruct (law_outstanding i Hx O) as [j D]. eexists. by apply main_drain.
    + eexists. by apply main_stopped.
Qed.

(** The flag is set from its [m]-th load on. *)
Context (m : nat) (Hm : stop_requested m = true).

(** The parts of [main] that are left, and the operations [Stop] waits for. *)
Definition phase (x : main_state) : nat :=
  match x with
  | AtLoop _ n _ _ | AtWait _ n _ _ => 4 * (m - n) + 10
  | AtReport _ n _ _ => 4 * (m - n) + 11
  | AtStop _ calls _ _ => 2 * calls + 1
  | InStop _ calls _ _ => 2 * calls + 2
  | Exited _ _ _ => 0
  end.

Definition operations (x : main_state) : nat :=
  match x with InStop _ _ i _ => left_over i | _ => 0 end.

(** The [m]-th load is still to come, while [main] serves. *)
Definition loading (x : main_state) : Prop :=
  match x with
  | AtLoop _ n _ _ | AtWait _ n _ _ | AtReport _ n _ _ => (n <= m)%nat
  | _ => True
  end.

Lemma main_step_less x y :
  sane x -> loading x -> main_step x y ->
  loading y /\ (phase y < phase x \/ phase y = phase x /\ operations y < operations x)%nat.
Proof.
  intros Hx Ln H. assert (N : forall n, stop_requested n = false -> (n <= m)%nat -> (S n <= m)%nat).
  { intros n E L. destruct (decide (n = m)); [congruence|lia]. }
  destruct H as [o n i l|o n i l|o n i l|code calls i l|code calls i j l D|code calls i l O|code i l]; simpl in *.
  1,2: destruct (stop_requested n) eqn:E; simpl; [split; [done|lia]|specialize (N n E Ln); lia].
  - lia.
  - destruct (stop_begin i); simpl; (split; [done|lia]).
  - destruct (law_drain i j Hx D). split; [done|lia].
  - split; [done|lia].
  - split; [done|lia].
Qed.

Lemma idle_step_same x y :
  idle_step x y -> phase y = phase x /\ operations y = operations x /\ (loading x -> loading y).
Proof. by destruct 1. Qed.

Lemma idle_same x y :
  rtc idle_step x y -> sane x -> loading x ->
  sane y /\ loading y /\ phase y = phase x /\ operations y = operations x.
Proof.
  induction 1 as [|x y z H _ IH]; [done|]. intros Hx Ln.
  destruct (idle_step_same x y H) as (P & O & L). destruct (IH (idle_step_sane x y Hx H) (L Ln)) as (? & ? & -> & ->).
  done.
Qed.

Lemma rounds_end x : sane x -> loading x -> Acc round x.
Proof.
  remember (phase x) as p eqn:Hp. revert x Hp. induction p as [p IHp] using lt_wf_ind.
  intros x. remember (operations x) as k eqn:Hk. revert x Hk. induction k as [k IHk] using lt_wf_ind.
  intros x -> -> Hx Ln. constructor. intros y (x' & Id & B).
  destruct (idle_same x x' Id Hx Ln) as (Hx' & Ln' & P & O).
  destruct (main_step_less x' y Hx' Ln' B) as [Ly [L|[E L]]]; pose proof (main_step_sane x' y Hx' B) as Hy.
  - by apply (IHp (phase y) ltac:(lia) y eq_refl).
  - by apply (IHk (operations y) ltac:(lia) y eq_refl ltac:(lia)).
Qed.

Lemma runs_sane x y : rtc any_step x y -> sane x -> loading x -> sane y /\ loading y.
Proof.
  induction 1 as [|x y z H _ IH]; [done|]. intros Hx Ln. destruct H as [H|H].
  - destruct (main_step_less x y Hx Ln H) as [Ly _]. apply IH; [by eapply main_step_sane|done].
  - destruct (idle_step_same x y H) as (_ & _ & L). apply IH; [by eapply idle_step_sane|auto].
Qed.

(** A run of [main] and the completions alone. *)
Lemma can_exit (P : main_state -> Prop) x :
  (forall x y, P x -> main_step x y -> P y) -> sane x -> loading x -> P x ->
  exists y, rtc any_step x y /\ exited y = true /\ P y.
Proof.
  intros HP Hx Ln. pose proof (rounds_end x Hx Ln) as A. revert Hx Ln.
  induction A as [x _ IH]. intros Hx Ln Px. destruct (exited x) eqn:E; [by exists x|].
  destruct (main_progress x Hx E) as [y B]. destruct (main_step_less x y Hx Ln B) as [Ly _].
  destruct (IH y ltac:(by exists x) (main_step_sane x y Hx B) Ly (HP x y Px B)) as (z & R & Ez & Pz).
  exists z. split_and!; [|done..]. eapply rtc_l; [left; exact B|exact R].
Qed.

Lemma begin_sane args :
  (forall o b i, parse_options args options = inr o -> startup (make o) = (b, i) -> up i) ->
  sane (main_begin args) /\ loading (main_begin args).
Proof.
  intros Hup. unfold main_begin. destruct (parse_options args options) as [e|o]; [done|].
  destruct (startup (make o)) as [ok i] eqn:E. specialize (Hup o ok i eq_refl E).
  destruct ok; simpl; (split; [done|lia || done]).
Qed.
End returns.

(** What holds at the start and is kept by every step. *)
Lemma runs_keep (P : main_state -> Prop) x y :
  (forall x y, P x -> any_step x y -> P y) -> rtc any_step x y -> P x -> P y.
Proof. intros HP. induction 1; eauto. Qed.

(** A run in which [main] moves again as long as it has not exited. *)
Record fair_run (run : nat -> main_state) : Prop := {
  fr_step k : exited (run k) = false -> any_step (run k) (run (S k));
  fr_main k : exited (run k) = false ->
    exists l, (k <= l)%nat /\ (exited (run l) = true \/ main_step (run l) (run (S l)));
}.

(** Up to the next step of [main], or its end. *)
Lemma fair_next run d k :
  fair_run run -> (exited (run (k + d)%nat) = true \/ main_step (run (k + d)%nat) (run (S (k + d)))) ->
  (exists l, exited (run l) = true) \/ exists l, rtc idle_step (run k) (run l) /\ main_step (run l) (run (S l)).
Proof.
  intros F. revert k. induction d as [|d IH]; intros k H.
  - rewrite Nat.add_0_r in H. destruct H as [H|H]; [left; by exists k|right]. exists k. by split.
  - destruct (exited (run k)) eqn:E; [left; by exists k|].
    replace (k + S d)%nat with (S k + d)%nat in H by lia.
    destruct (fr_step run F k E) as [B|B]; [right; exists k; by split|].
    destruct (IH (S k) H) as [?|(l & Hi & Hm)]; [by left|right]. exists l. split; [by eapply rtc_l|done].
Qed.

Lemma fair_exits run k : fair_run run -> Acc round (run k) -> exists l, exited (run l) = true.
Proof.
  intros F A. remember (run k) as x eqn:Hx. revert k Hx. induction A as [x _ IH]. intros k ->.
  destruct (exited (run k)) eqn:E; [by exists k|].
  destruct (fr_main run F k E) as (l & L & H). replace l with (k + (l - k))%nat in H by lia.
  destruct (fair_next run _ k F H) as [X|(j & Hi & Hm)]; [exact X|].
  apply (IH (run (S j))) with (S j); [|done]. by exists (run j).
Qed.
End main.

(** ** The server of the other platforms *)

Section stub.
Context {St : Type}.

Record Stub := mkStub {
  stub_config : ServerConfig;
  stub_callbacks : Callbacks St;
}.

(** The handlers are kept and never called. *)
Definition stub_RegisterMessageHandler value (i : Stub) : Stub :=
  mkStub (stub_config i) (RegisterMessageHandler value (stub_callbacks i)).
Definition stub_RegisterConnectHandler value (i : Stub) : Stub :=
  mkStub (stub_config i) (RegisterConnectHandler value (stub_callbacks i)).
Definition stub_RegisterDisconnectHandler value (i : Stub) : Stub :=
  mkStub (stub_config i) (RegisterDisconnectHandler value (stub_callbacks i)).
Definition stub_Initialize (i : Stub) : bool * Stub := (false, i).
Definition stub_Start (i : Stub) : bool * Stub := (false, i).
Definition stub_Send (h : SessionHandle) (payload : SharedBuffer) (i : Stub) : bool * Stub := (false, i).
Definition stub_Close (h : SessionHandle) (code : Z) (reason : list byte) (i : Stub) : Stub := i.
Definition stub_Metrics (i : Stub) : ServerMetricsSnapshot := mkSnapshot 0 0 0 0 0 0 0 0 0.

#[export] Instance stub_server : ServerImpl Stub := {|
  initialize := stub_Initialize;
  start := stub_Start;
  works := fun _ _ => False;
  stop_begin := fun _ => None;    (* [Stop] does nothing *)
  drains := fun _ _ => False;
  outstanding := fun _ => false;
  stop_end := fun i => i;
  destroy := fun i => i;
  is_running := fun _ => false;
  report := stub_Metrics;
|}.

Definition make_stub (message : MessageHandler St) (disconnect : SessionHandler St) (o : Options) : Stub :=
  stub_RegisterDisconnectHandler (Some disconnect) (stub_RegisterMessageHandler (Some message)
    (mkStub (server_config o) no_callbacks)).

(** There the program never serves. *)
Lemma stub_exits getenv stop_requested message disconnect args code lines fin :
  rtc (any_step stop_requested) (main_begin getenv (make_stub message disconnect) args) (Exited code fin lines) ->
  (code = 2 /\ exists e, lines = [ErrorWhat e]) \/ (code = 1 /\ lines = [StartupFailed]).
Proof.
  intros R. set (P := fun x : main_state (I := Stub) => match x with
    | AtStop code _ _ l | Exited code _ l =>
        (code = 2 /\ exists e, l = [ErrorWhat e]) \/ (code = 1 /\ l = [StartupFailed])
    | _ => False end).
  apply (runs_keep stop_requested P _ _) in R; [exact R| |].
  - intros x y Hx [B|B]; destruct B; simpl in *; done.
  - unfold main_begin. destruct (parse_options args _) as [e|o]; simpl; eauto.
Qed.
End stub.
Arguments Stub : clear implicits.

(** ** The Windows server *)

Section workers.
Context {St T : Type} `{App : Application St} `{Tab : SessionTable SessionHandle T (fun h => h)}.
Context (config : ServerConfig) (os : nat -> bool) (clock : nat -> Z) (sys : nat -> bool).
#[local] Abbreviation Impl := (Impl St T).

(** What the workers and the timer do while [main] waits. *)
Inductive worker_step (i : Impl) : Impl -> Prop :=
| work_accept ok seen :
    (0 < accepts (server i))%nat -> next_session_id (server i) < size_max ->
    worker_step i (HandleAccept config os clock ok seen i)
| work_read k ok bytes s' :
    HandleRead config os clock k ok bytes (server i) = Some s' -> worker_step i (set_server s' i)
| work_write k ok n :
    0 <= n <= 4294967295 -> worker_step i (set_server (HandleWrite config os k ok n (server i)) i)
| work_timer : worker_step i (set_server (TimerTick config os clock (server i)) i).

(** The workers while [Stop] waits; the timer has been joined. *)
Inductive drain_step (i : Impl) : Impl -> Prop :=
| drain_accept ok seen :
    (0 < accepts (server i))%nat -> drain_step i (HandleAccept config os clock ok seen i)
| drain_read k ok bytes s' :
    is_Some (reads (server i) !! k) ->
    HandleRead config os clock k ok bytes (server i) = Some s' -> drain_step i (set_server s' i)
| drain_write k ok n :
    is_Some (writes (server i) !! k) -> 0 <= n <= 4294967295 ->
    drain_step i (set_server (HandleWrite config os k ok n (server i)) i).

(** The compare-exchange of [Stop], and what follows up to its wait. *)
Definition Stop_begin (i : Impl) : option Impl := if running (server i) then Some (StopBegin config i) else None.

(** What it waits for: the counter. *)
Definition Stop_outstanding (i : Impl) : bool := negb (u64 (outstanding_operations (server i)) =? 0).

(** Every operation at the port is an object of its own, at an address of 64 bits. *)
Definition addressable (i : Impl) : Prop := Z.of_nat (at_port (server i)) <= size_max.

(** The destructors of [listen_socket], [completion_port] and [winsock]. *)
Definition destroy_members (i : Impl) : Impl := set_winsock false (ResetPort false (ResetListen false i)).

Lemma worker_life i j : worker_step i j -> life_step config os clock sys i j.
Proof. destruct 1 as [ok seen A N|k ok bytes s E|k ok n N|]; [by apply life_accept|by eapply life_read|by apply life_write|apply life_timer]. Qed.

(** What [main] leaves behind. *)
Record released (i : Impl) : Prop := {
  rl_handles : open_handles i = 0;
  rl_listen : listen_socket i = false;
  rl_winsock : winsock_started i = false;
  rl_threads : workers i = 0 /\ timer_thread i = false;
  rl_running : running (server i) = false;
  rl_accepts : accepts (server i) = 0%nat;
  rl_down : all_down (server i);
}.

Context (Hc : config_ok config) (Hd : is_u64 (accept_depth config)).

(** The workers neither stop the server nor lose a socket. *)
Lemma worker_ok i j :
  life_ok config i -> worker_step i j ->
  life_ok config j /\ running (server j) = running (server i) /\ initialized j = initialized i /\ lost j = lost i.
Proof.
  intros Ok H. pose proof (lo_good _ _ Ok) as G. pose proof G as [Iv RD _]. destruct H as [ok seen A N|k ok bytes s' E|k ok n N|].
  - destruct (accept_ok config os clock Hc ok seen i Ok A N) as [Ok' L].
    destruct (HandleAccept_frame config os clock ok seen i A) as [_ (s & n & E)].
    split_and!; [done| |by rewrite E|done].
    rewrite HandleAccept_server. by apply (HandleAccept_good config os clock Hc).
  - destruct (read_ok config os clock Hc i k ok bytes s' Ok E) as [Ok' L]. split_and!; [done| |done..].
    destruct (HandleRead_ok config os clock Hc k ok bytes (server i) Iv RD) as (s2 & E2 & S2).
    simplify_eq. apply (st_running _ _ _ S2).
  - destruct (write_ok config os clock Hc i k ok n Ok N) as [Ok' L]. split_and!; [done| |done..].
    apply (st_running config (server i)). apply HandleWrite_settled; [done..|unfold size_max; lia].
  - pose proof (TimerTick_fine config os clock Hc (server i) Iv) as F.
    destruct (fine_only config i (TimerTick config os clock (server i)) Ok F) as [Ok' L];
      [intros Sp; by apply (stopped_inert config os clock)|].
    split_and!; [done| |done..]. apply (fw_running (server i)), (fine_follows config). exact F.
Qed.

Lemma idle_released i :
  life_ok config i -> initialized i = false ->
  released (destroy_members i) /\ open_sockets (destroy_members i) = lost i.
Proof.
  intros [G D P L R H Rest] I.
  assert (Ls : listen_socket i = false) by (destruct (listen_socket i); [by rewrite L in I|done]).
  assert (Rn : running (server i) = false)
    by (destruct (running (server i)); [by rewrite R in Ls|done]).
  destruct (Rest Rn) as (A & W & Tm); [congruence|].
  assert (E : destroy_members i = set_winsock false (Lifecycle.set_port false (set_listen false i))).
  { unfold destroy_members, ResetPort, ResetListen, closesocket, CloseHandle. rewrite Ls. simpl.
    by rewrite P, I. }
  rewrite E. split; [constructor; simpl; try done; [by rewrite H, I|by apply D]|].
  unfold lost. simpl. rewrite A, Ls. lia.
Qed.

(** While [Stop] waits every completion leaves one operation less. *)
Lemma drain_ok i j :
  life_ok config i -> running (server i) = false -> drain_step i j ->
  life_ok config j /\ running (server j) = false /\ S (at_port (server j)) = at_port (server i) /\
  initialized j = initialized i /\ listen_socket j = listen_socket i /\ lost j = lost i.
Proof.
  intros Ok Rn H. pose proof (lo_stopped config i Ok Rn) as Sp.
  assert (C : completion config os clock (server i) (server j)).
  { destruct H as [ok seen A|k ok bytes s' L E|k ok n L N].
    - rewrite HandleAccept_server. by constructor.
    - by eapply completion_read.
    - by constructor. }
  destruct (completion_stopped config os clock Hc _ _ Sp C) as [[G' R' D'] P].
  assert (F : initialized j = initialized i /\ listen_socket j = listen_socket i /\ lost j = lost i /\ life_ok config j).
  { destruct H as [ok seen A|k ok bytes s' L E|k ok n L N].
    - destruct (HandleAccept_frame config os clock ok seen i A) as [Lo (s & n & E)].
      rewrite E in *. simpl in *. split_and!; [done..|].
      destruct Ok as [G D Po Ls R Hh Rest]. constructor; simpl; try done; [by rewrite R'|].
      intros _ E1. destruct (Rest Rn E1) as (A0 & _). lia.
    - destruct (read_ok config os clock Hc i k ok bytes s' Ok E). by split_and!.
    - destruct (write_ok config os clock Hc i k ok n Ok N). by split_and!. }
  by destruct F as (? & ? & ? & ?).
Qed.

(** The counter is zero exactly when nothing is at the port. *)
Lemma outstanding_at_port i :
  life_ok config i -> addressable i -> Stop_outstanding i = negb (at_port (server i) =? 0)%nat.
Proof.
  intros Ok A. unfold Stop_outstanding, addressable in *. rewrite (good_outstanding config _ (lo_good _ _ Ok)).
  rewrite u64_small by (unfold is_u64; lia). f_equal. apply eq_true_iff_eq. rewrite Z.eqb_eq, Nat.eqb_eq. lia.
Qed.

(** As long as [Stop] waits, an operation can complete. *)
Lemma drain_exists i :
  life_ok config i -> addressable i -> running (server i) = false -> Stop_outstanding i = true ->
  exists j, drain_step i j.
Proof.
  intros Ok A Rn O. rewrite (outstanding_at_port i Ok A) in O. apply negb_true_iff, Nat.eqb_neq in O. clear A.
  destruct (completion_exists config os clock Hc (server i)) as [s' C]; [by apply (lo_stopped config i)|done|].
  destruct C as [k ok bytes s' L E|k ok m L N|ok seen A].
  - eexists. by eapply drain_read.
  - eexists. by apply (drain_write i k ok m).
  - eexists. by apply (drain_accept i ok seen).
Qed.
End workers.

Section engine.
Context {T : Type} `{Tab : SessionTable SessionHandle T (fun h => h)}.
Context (verify : list byte -> bool) (get : list byte -> NetworkMessage) (finish : NetworkMessage -> list byte).
Context (cores : Z) (os : nat -> bool) (clock : nat -> Z) (sys : nat -> bool).

(** The server and the router behind it, with what [main] made them from. *)
Record Engine := mkEngine { en_options : Options; en_impl : Impl ProtocolRouter T }.

#[local] Abbreviation handlers o := (callbacks_application (main_callbacks verify get finish (auth_token o))).

Definition engine_config (o : Options) : ServerConfig := Impl_config cores (server_config o).

Definition with_impl (o : Options) (r : bool * Impl ProtocolRouter T) : bool * Engine :=
  (r.1, mkEngine o r.2).

#[export] Instance windows_server : ServerImpl Engine := {|
  initialize e := with_impl (en_options e) (Initialize sys (en_impl e));
  start e := with_impl (en_options e)
    (Start (App := handlers (en_options e)) (engine_config (en_options e)) os sys (en_impl e));
  works e f := en_options f = en_options e /\
    worker_step (App := handlers (en_options e)) (engine_config (en_options e)) os clock (en_impl e) (en_impl f) /\
    addressable (en_impl f);
  stop_begin e := mkEngine (en_options e) <$>
    Stop_begin (App := handlers (en_options e)) (engine_config (en_options e)) (en_impl e);
  drains e f := en_options f = en_options e /\
    drain_step (App := handlers (en_options e)) (engine_config (en_options e)) os clock (en_impl e) (en_impl f);
  outstanding e := Stop_outstanding (en_impl e);
  stop_end e := mkEngine (en_options e) (StopEnd (en_impl e));
  destroy e := mkEngine (en_options e) (destroy_members (en_impl e));
  is_running e := running (server (en_impl e));
  report e := MetricsSnapshot (metrics (server (en_impl e)));
|}.

Definition make_windows (o : Options) : Engine := mkEngine o (Lifecycle.construct Router.construct).

Definition engine_ok (e : Engine) : Prop := life_ok (engine_config (en_options e)) (en_impl e).

Record fits (o : Options) : Prop := {
  fit_config : config_ok (engine_config o);
  fit_depth : is_u64 (accept_depth (engine_config o));
}.

Lemma engine_depth token origin args o :
  parse_options args (initial_options token origin) = inr o -> accept_depth (engine_config o) = 64.
Proof.
  intros E. assert (I0 : options_ok (initial_options token origin))
    by (constructor; simpl; try done; unfold is_u64, size_max; lia).
  destruct (parse_options_ok _ _ _ I0 E) as [Ho _].
  unfold engine_config, Impl_config, server_config. split_if; simpl; by rewrite (oo_rest _ Ho).
Qed.

Lemma engine_fits args token origin o :
  parse_options args (initial_options token origin) = inr o ->
  max_message_bytes (config o) <= 4294967295 -> fits o.
Proof.
  intros E M. assert (I0 : options_ok (initial_options token origin))
    by (constructor; simpl; try done; unfold is_u64, size_max; lia).
  destruct (parse_options_ok _ _ _ I0 E) as [Ho _].
  constructor; [by apply options_config_ok|]. rewrite (engine_depth _ _ _ _ E). unfold is_u64, size_max. lia.
Qed.

(** What the two calls of the startup leave: a server that runs, or one that is
    down; and the sockets that [Start] lost. *)
Record started (o : Options) (b : bool) (e : Engine) : Prop := {
  sd_options : en_options e = o;
  sd_ok : engine_ok e;
  sd_running : running (server (en_impl e)) = b;
  sd_down : b = false -> initialized (en_impl e) = false;
  sd_lost : 0 <= lost (en_impl e) <= accept_depth (engine_config o);
  sd_addressable : addressable (en_impl e);
}.

Lemma startup_ok o b e : fits o -> startup (make_windows o) = (b, e) -> started o b e.
Proof.
  intros Ft E. pose proof (fit_depth o Ft) as [Dp Dm]. unfold startup in E. cbn [initialize windows_server] in E.
  set (i0 := Lifecycle.construct Router.construct) in *. change (en_impl (make_windows o)) with i0 in E.
  assert (Ok0 : life_ok (engine_config o) i0) by (apply construct_ok; by destruct Ft).
  assert (L0 : lost i0 = 0) by done.
  destruct (initialize_ok (engine_config o) sys i0 Ok0) as (Ok1 & Es & L1).
  assert (C : let '(ok, i) := Initialize sys i0 in initialized i = ok /\ (ok = true -> listen_socket i = true)).
  { destruct (Initialize_cases sys i0 eq_refl eq_refl eq_refl) as (k & w & [-> | ->]); done. }
  destruct (Initialize sys i0) as [ok i1]. unfold with_impl in E. cbn [fst snd en_options make_windows] in *.
  destruct C as [I1 Ls]. assert (R1 : running (server i1) = false) by (by rewrite Es).
  destruct ok; cbn [negb] in E.
  2: { simplify_eq. constructor; simpl; try done; [rewrite L1, L0; lia|unfold addressable; by rewrite Es]. }
  cbn [start windows_server en_impl en_options] in E. specialize (Ls eq_refl).
  destruct (start_ok (App := handlers o) (engine_config o) os sys (fit_config o Ft) (fit_depth o Ft) i1 Ok1
    (fun _ => Ls)) as (Ok2 & Sv & L2).
  destruct (Start_answer (App := handlers o) (engine_config o) os sys (fit_depth o Ft) i1 Ok1 R1
    (fun _ => Ls)) as [Ra Ri].
  unfold with_impl in E. injection E as <- <-.
  constructor; [done|exact Ok2|exact Ra|exact Ri|cbn [en_impl]; lia|].
  pose proof (Start_at_port (App := handlers o) (engine_config o) os (server i0)) as B.
  change (at_port (server i0)) with 0%nat in B. unfold addressable. cbn [en_impl].
  destruct Sv as [-> | ->]; rewrite Es; [done|unfold size_max in *; lia].
Qed.

(** ** The laws *)

Definition engine_up (e : Engine) : Prop :=
  fits (en_options e) /\ engine_ok e /\ addressable (en_impl e) /\
  (running (server (en_impl e)) = false -> initialized (en_impl e) = false).

Record engine_stopping (e : Engine) : Prop := {
  eg_fits : fits (en_options e);
  eg_ok : engine_ok e;
  eg_running : running (server (en_impl e)) = false;
  eg_initialized : initialized (en_impl e) = true;
  eg_listen : listen_socket (en_impl e) = false;
  eg_addressable : addressable (en_impl e);
}.

Lemma engine_works e f :
  fits (en_options e) -> engine_ok e -> works e f ->
  en_options f = en_options e /\ engine_ok f /\ addressable (en_impl f) /\
  running (server (en_impl f)) = running (server (en_impl e)) /\
  initialized (en_impl f) = initialized (en_impl e) /\ lost (en_impl f) = lost (en_impl e).
Proof.
  intros Ft Ok (Eo & W & A). unfold engine_ok. rewrite Eo.
  destruct (worker_ok (App := handlers (en_options e)) _ os clock (fit_config _ Ft) _ _ Ok W) as (? & ? & ? & ?).
  by split_and!.
Qed.

Lemma engine_begin e f :
  fits (en_options e) -> engine_ok e -> addressable (en_impl e) -> stop_begin e = Some f ->
  en_options f = en_options e /\ engine_stopping f /\ lost (en_impl f) = lost (en_impl e).
Proof.
  intros Ft Ok A. destruct e as [o i]. cbn [stop_begin windows_server en_options en_impl] in *.
  unfold Stop_begin. destruct (running (server i)) eqn:R; [|done]. intros [= <-]. simpl. split; [done|].
  destruct (stop_begin_ok (App := handlers o) (engine_config o) (fit_config o Ft) i Ok) as (Ok1 & L & Es).
  split; [|done]. assert (F : initialized (StopBegin (App := handlers o) (engine_config o) i) = true /\
    listen_socket (StopBegin (App := handlers o) (engine_config o) i) = false).
  { unfold StopBegin. rewrite R. simpl. unfold closesocket. simpl.
    pose proof (lo_listen _ _ Ok (lo_running _ _ Ok R)) as Iz. simpl in Iz. by destruct (listen_socket i). }
  constructor; simpl; [done|done| |apply F..|].
  - rewrite Es. by apply StopSessions_running.
  - unfold addressable. by rewrite Es, StopSessions_at_port.
Qed.

Lemma engine_drain e f :
  engine_stopping e -> drains e f ->
  en_options f = en_options e /\ engine_stopping f /\ lost (en_impl f) = lost (en_impl e) /\
  S (at_port (server (en_impl f))) = at_port (server (en_impl e)).
Proof.
  intros [Ft Ok R I L A] [Eo D]. split; [done|].
  destruct (drain_ok (App := handlers (en_options e)) _ os clock (fit_config _ Ft) _ _ Ok R D)
    as (Ok' & R' & P & I' & L' & Lo). split; [|done].
  constructor; [by rewrite Eo|unfold engine_ok; by rewrite Eo|congruence..|]. unfold addressable in *. lia.
Qed.

Lemma engine_end e :
  engine_stopping e -> outstanding e = false ->
  en_options (stop_end e) = en_options e /\ engine_ok (stop_end e) /\
  addressable (en_impl (stop_end e)) /\
  running (server (en_impl (stop_end e))) = false /\ initialized (en_impl (stop_end e)) = false /\
  lost (en_impl (stop_end e)) = lost (en_impl e).
Proof.
  intros [Ft Ok R I L A] O. cbn [outstanding windows_server] in O. destruct e as [o i]. simpl in *.
  rewrite (outstanding_at_port (engine_config o) i Ok A) in O. apply negb_false_iff, Nat.eqb_eq in O.
  destruct (stop_end_ok (engine_config o) i Ok I L O) as [Ok' Lo].
  split_and!; [done|exact Ok'|unfold addressable; by rewrite StopEnd_server| |done|exact Lo].
  change (running (server (StopEnd i)) = false). by rewrite StopEnd_server.
Qed.

#[export] Instance windows_laws : ServerLaws Engine.
Proof.
  refine {| up := engine_up; stopping := engine_stopping; left_over e := at_port (server (en_impl e)) |}.
  - intros e f (Ft & Ok & A & D) W. destruct (engine_works e f Ft Ok W) as (Eo & Ok' & A' & R & I & _).
    split_and!; [by rewrite Eo|done|done|by rewrite R, I].
  - intros e f (Ft & Ok & A & D) E. by destruct (engine_begin e f Ft Ok A E) as (_ & ? & _).
  - intros e f Hs D. destruct (engine_drain e f Hs D) as (_ & ? & _ & P). split; [done|lia].
  - intros [o i] [Ft Ok R I L A] O.
    destruct (drain_exists (App := handlers o) (engine_config o) os clock (fit_config o Ft) i Ok A R O) as [j D].
    by exists (mkEngine o j).
  - intros e Hs O. destruct (engine_end e Hs O) as (Eo & Ok & A & _ & I & _).
    split_and!; [rewrite Eo; apply Hs|done|done|done].
Defined.

(** ** [main] with it *)

Context (getenv : string -> bool * option (list byte)) (stop_requested : nat -> bool).
#[local] Abbreviation opts := (options getenv).

Context (args : list (list byte)).
Context (Hm : forall o, parse_options args opts = inr o -> max_message_bytes (config o) <= 4294967295).

#[local] Abbreviation main_from := (main_begin getenv make_windows args).

Lemma args_fit o : parse_options args opts = inr o -> fits o.
Proof. intros E. eapply engine_fits; [exact E|by apply Hm]. Qed.

Lemma main_begin_sane m : sane main_from /\ loading m main_from.
Proof.
  apply begin_sane. intros o b e E S. pose proof (args_fit o E) as Ft.
  destruct (startup_ok o b e Ft S) as [Eo Ok R D _ A]. split_and!; [by rewrite Eo|done|done|]. rewrite R. exact D.
Qed.

(** C19. [main] returns, whatever the system answers and however its steps, the
    workers and the completions interleave, when the [m]-th load of the flag finds
    it set, no message limit exceeds 4 GiB and fewer than [2 ^ 64] connections are
    accepted and operations outstanding: from every state of a run either
    [main] has exited, or it or a completion that [Stop] waits for can move; there
    are finitely many such moves, whatever the workers do in between; so every run
    in which one of them comes again as long as [main] has not exited, exits. *)
Theorem main_returns m x :
  stop_requested m = true -> rtc (any_step stop_requested) main_from x ->
  (exited x = false -> exists y, main_step stop_requested x y) /\
  Acc (round stop_requested) x /\
  (forall run k, fair_run stop_requested run -> run k = x -> exists l, exited (run l) = true).
Proof.
  intros Sm R. destruct (main_begin_sane m) as [S0 L0].
  destruct (runs_sane stop_requested m Sm _ _ R S0 L0) as [Sx Lx].
  assert (A : Acc (round stop_requested) x) by (by eapply rounds_end). split_and!; [|exact A|].
  - exact (main_progress stop_requested x Sx).
  - intros run k F <-. by eapply fair_exits.
Qed.

(** ** How it ends *)

(** The sockets that [Start] loses in this run. *)
Definition lost_at_start (o : Options) : Z := lost (en_impl (startup (make_windows o)).2).

(** The lines at the [n]-th load, [k] loads behind the last report. *)
Definition served (o : Options) (n k : nat) (lines : list line) : Prop :=
  (forall j, (j < n)%nat -> stop_requested j = false) /\
  exists reports, lines = Ready (port (config o)) :: map metrics_line reports /\
    (2 * length reports + k <= n)%nat /\
    Forall (fun r => 0 <= sm_queued_bytes r <= max_global_queued_bytes (config o)) reports.

Definition outcome (o : Options) (code : Z) (lines : list line) : Prop :=
  code = 1 /\ lines = [StartupFailed] \/
  code = 0 /\ (exists n, stop_requested n = true) /\
  exists reports, lines = Ready (port (config o)) :: map metrics_line reports /\
    (forall n, stop_requested n = true -> (2 * length reports <= n)%nat) /\
    Forall (fun r => 0 <= sm_queued_bytes r <= max_global_queued_bytes (config o)) reports.

Lemma served_outcome o n k lines : served o n k lines -> stop_requested n = true -> outcome o 0 lines.
Proof.
  intros (N & reports & E & L & F) S. right. split_and!; [done|by exists n|]. exists reports.
  split_and!; [done| |done]. intros j Sj. destruct (decide (j < n)%nat) as [D|]; [|lia].
  rewrite N in Sj by done. done.
Qed.

(** One more load, which finds [false]. *)
Lemma served_load o n k lines :
  served o n k lines -> stop_requested n = false -> served o (S n) (S k) lines.
Proof.
  intros (N & reports & E & L & F) S. split.
  - intros j Lj. destruct (decide (j = n)) as [->|]; [done|]. apply N. lia.
  - exists reports. split_and!; [done|lia|done].
Qed.

Lemma report_limits e :
  fits (en_options e) -> engine_ok e ->
  0 <= sm_queued_bytes (report e) <= max_global_queued_bytes (config (en_options e)).
Proof.
  intros Ft [[I _ _] _ _ _ _ _ _]. destruct e as [o i].
  assert (E2 : max_global_queued_bytes (engine_config o) = max_global_queued_bytes (config o))
    by (unfold engine_config, server_config; by split_if).
  cbn [report windows_server en_options en_impl MetricsSnapshot sm_queued_bytes] in *. rewrite <-E2.
  pose proof (inv_queued_limit _ _ _ I). pose proof (total_nonneg' _ _ _ I). lia.
Qed.

Lemma served_report o n lines e :
  en_options e = o -> fits o -> engine_ok e -> served o n 2 lines ->
  served o n 0 (lines ++ [metrics_line (report e)]).
Proof.
  intros Eo Ft Ok (N & reports & -> & L & F). split; [done|]. exists (reports ++ [report e]). split_and!.
  - by rewrite map_app.
  - rewrite length_app. simpl. lia.
  - apply Forall_app. split; [done|]. apply Forall_singleton. subst o. by apply report_limits.
Qed.

(** A server made from these options, that lost what [Start] lost. *)
Record made (o : Options) (e : Engine) : Prop := {
  md_args : parse_options args opts = inr o;
  md_options : en_options e = o;
  md_ok : engine_ok e;
  md_lost : lost (en_impl e) = lost_at_start o;
  md_addressable : addressable (en_impl e);
}.

Definition main_inv (x : main_state) : Prop :=
  match x with
  | AtLoop o n e l => made o e /\ running (server (en_impl e)) = true /\ served o n 0 l
  | AtWait o n e l => made o e /\ running (server (en_impl e)) = true /\ served o n 1 l
  | AtReport o n e l => made o e /\ running (server (en_impl e)) = true /\ served o n 2 l
  | AtStop code calls e l => exists o, made o e /\ outcome o code l /\
      (running (server (en_impl e)) = false -> initialized (en_impl e) = false) /\
      (calls = 0%nat -> running (server (en_impl e)) = false)
  | InStop code calls e l => exists o, made o e /\ outcome o code l /\ engine_stopping e
  | Exited code None l => code = 2 /\ exists e, parse_options args opts = inl e /\ l = [ErrorWhat e]
  | Exited code (Some e) l => exists o, parse_options args opts = inr o /\ en_options e = o /\
      released (en_impl e) /\ open_sockets (en_impl e) = lost_at_start o /\ outcome o code l
  end.

Lemma made_works o e f : made o e -> works e f ->
  made o f /\ running (server (en_impl f)) = running (server (en_impl e)) /\
  initialized (en_impl f) = initialized (en_impl e).
Proof.
  intros [P Eo Ok L A] W. assert (Ft : fits (en_options e)) by (rewrite Eo; by apply args_fit).
  destruct (engine_works e f Ft Ok W) as (Ef & Ok' & A' & R & I & Lo). split_and!; [constructor|done|done]; congruence.
Qed.

Lemma main_inv_step x y : main_inv x -> any_step stop_requested x y -> main_inv y.
Proof.
  intros Hx [B|B]; destruct B as [o n e l|o n e l|o n e l|code calls e l|code calls e f l D|code calls e l O|code e l]
    || destruct B as [o n e f l W|o n e f l W|o n e f l W|code calls e f l R W]; cbn [main_inv] in *.
  - destruct Hx as (M & R & Sv). destruct (stop_requested n) eqn:Sn; cbn [main_inv];
      [exists o; split_and!; [done|by eapply served_outcome|congruence|done]|].
    split_and!; [done..|by apply served_load].
  - destruct Hx as (M & R & Sv). destruct (stop_requested n) eqn:Sn; cbn [main_inv];
      [exists o; split_and!; [done|by eapply served_outcome|congruence|done]|].
    split_and!; [done..|by apply served_load].
  - destruct Hx as (M & R & Sv). split_and!; [done..|]. destruct M as [P Eo Ok L A].
    apply served_report; [done|by apply args_fit|done..].
  - destruct Hx as (o & M & Oc & D & _). pose proof M as [P Eo Ok L A].
    assert (Ft : fits (en_options e)) by (rewrite Eo; by apply args_fit).
    destruct (stop_begin e) as [f|] eqn:E; cbn [main_inv]; exists o.
    + destruct (engine_begin e f Ft Ok A E) as (Ef & Hs & Lo). split_and!; [|done..].
      constructor; [done|congruence|apply Hs|congruence|apply Hs].
    + split_and!; [done..|]. intros _. cbn [stop_begin windows_server] in E. unfold Stop_begin in E.
      by destruct (running (server (en_impl e))).
  - destruct Hx as (o & [P Eo Ok L A] & Oc & Hs). destruct (engine_drain e f Hs D) as (Ef & Hs' & Lo & _).
    exists o. split_and!; [|done..]. constructor; [done|congruence|apply Hs'|congruence|apply Hs'].
  - destruct Hx as (o & [P Eo Ok L A] & Oc & Hs). destruct (engine_end e Hs O) as (Ef & Ok' & A' & R & I & Lo).
    exists o. split_and!; [|done..]. constructor; [done|congruence|done|congruence|done].
  - destruct Hx as (o & [P Eo Ok L A] & Oc & D & R). exists o. specialize (D (R eq_refl)).
    destruct (idle_released (engine_config (en_options e)) (en_impl e) Ok D) as [Rl So].
    split_and!; [done|done|exact Rl|rewrite <-L; exact So|done].
  - destruct Hx as (M & R & Sv). destruct (made_works o e f M W) as (M' & R' & _). split_and!; [done|congruence|done].
  - destruct Hx as (M & R & Sv). destruct (made_works o e f M W) as (M' & R' & _). split_and!; [done|congruence|done].
  - destruct Hx as (M & R & Sv). destruct (made_works o e f M W) as (M' & R' & _). split_and!; [done|congruence|done].
  - destruct Hx as (o & M & Oc & D & C). destruct (made_works o e f M W) as (M' & R' & I').
    exists o. split_and!; [done|done|by rewrite R', I'|by rewrite R'].
Qed.

Lemma main_begin_inv : main_inv main_from.
Proof.
  pose proof args_fit as Fit. unfold main_begin. destruct (parse_options args opts) as [e|o] eqn:E; [simpl; eauto|].
  destruct (startup (make_windows o)) as [ok e] eqn:S. destruct (startup_ok o ok e (Fit o eq_refl) S) as [Eo Ok R D _ A].
  assert (M : made o e) by (constructor; [done..|unfold lost_at_start; by rewrite S|done]).
  destruct ok; cbn [main_inv].
  - split_and!; [done|exact R|]. split; [intros j Lj; lia|]. exists []. split_and!; [done|simpl; lia|constructor].
  - exists o. split_and!; [done|by left|intros _; by apply D|done].
Qed.

End engine.

(** ** Witnesses *)

Definition sample_env (name : string) : bool * option (list byte) := (false, None).
Definition sample_args : list (list byte) := [bstr "--port"; bstr "9000"; bstr "--workers"; bstr "2"].
Definition no_message : NetworkMessage := mkMessage 0 0 0 0 P_NONE.

#[local] Instance sample_engine : ServerImpl (@Engine (list (gmap Z SessionHandle))) :=
  windows_server (fun _ => true) (fun _ => no_message) (fun _ => []) 4 sample_os sample_clock sample_os.

Lemma sample_limit o :
  parse_options sample_args (options sample_env) = inr o -> max_message_bytes (config o) <= 4294967295.
Proof.
  intros E. assert (X : match parse_options sample_args (options sample_env) with
    | inr o => max_message_bytes (config o) <=? 4294967295 | inl _ => true end = true) by (vm_compute; reflexivity).
  rewrite E in X. by apply Z.leb_le.
Qed.

(** A stop is requested after a while. *)
Definition stop_after (n : nat) : nat -> bool := fun k => (n <=? k)%nat.

#[local] Abbreviation sample_begin := (main_begin sample_env make_windows sample_args).

(** The run has begun; main is not stuck, and will exit. *)
Lemma main_returns_witness :
  stop_after 7 7 = true /\
  (exited sample_begin = false -> exists y, main_step (stop_after 7) sample_begin y) /\
  Acc (round (stop_after 7)) sample_begin.
Proof.
  split; [reflexivity|].
  destruct (main_returns (fun _ => true) (fun _ => no_message) (fun _ => []) 4 sample_os sample_clock sample_os
    sample_env (stop_after 7) sample_args sample_limit 7 sample_begin eq_refl (rtc_refl _ _)) as (P & A & _).
  by split.
Defined.

Lemma begin_shape {I : Type} (x : main_state (I := I)) :
  match x with AtLoop _ O _ [Ready p] => p =? 9000 | _ => false end = true ->
  exists o e, x = AtLoop o 0 e [Ready 9000].
Proof.
  destruct x as [o n e l| | | | |]; [|intros H; discriminate H..].
  destruct n; [|intros H; discriminate H].
  destruct l as [|[| |p|] [|]]; try (intros H; discriminate H). intros H. apply Z.eqb_eq in H. subst p. by exists o, e.
Qed.

(** The stop is requested at once. *)
Lemma main_sample_run :
  exists e, rtc (any_step (stop_after 0)) sample_begin (Exited 0 (Some e) [Ready 9000]).
Proof.
  destruct (main_begin_sane (fun _ => true) (fun _ => no_message) (fun _ => []) 4 sample_os sample_clock
    sample_os sample_env sample_args sample_limit 0) as [Sn Ln].
  destruct (begin_shape sample_begin) as (o & e & E); [vm_compute; reflexivity|]. unfold sample_engine in *. rewrite E in *. clear E.
  set (P := fun x : main_state (I := @Engine (list (gmap Z SessionHandle))) => match x with
    | AtStop code _ _ l | InStop code _ _ l | Exited code (Some _) l => code = 0 /\ l = [Ready 9000]
    | _ => False end).
  destruct (can_exit (stop_after 0) 0 eq_refl P (AtStop 0 2 e [Ready 9000])) as (y & R & Ey & Py).
  - clear -P. intros x y Px S. unfold P in *. clear P. destruct S as [| | |code calls i l| | |]; try (exact Px || destruct Px).
    destruct (stop_begin i); by split.
  - exact Sn.
  - done.
  - done.
  - destruct y as [| | | | |code [f|] l]; try done. destruct Py as [-> ->]. exists f.
    eapply rtc_l; [left; apply main_test|exact R].
Qed.

