(* ===== verification/StopSignal.v ===== *)
(** * Requesting the stop (src/src/main.cpp, [RequestStop] and the loop of [main])

    The thread of [main] and the threads the console handler runs on, each
    access of [stop_requested], [stop_cv] and [stop_mutex] as one step.  The
    handler takes no lock: it stores the flag, and notifies in a second step. *)

From S2P Require Import Prelude.

Inductive main_at :=
| Testing      (** before the condition of the [while] *)
| Locked       (** before [wait_for], [stop_mutex] held *)
| Waiting      (** in the wait set of [stop_cv], [stop_mutex] free *)
| Woken        (** [wait_for] has returned, before the second test *)
| Reporting
| Stopping.    (** behind the loop *)

#[export] Instance main_at_eq : EqDecision main_at.
Proof. solve_decision. Defined.

Record signals := mkSignals {
  stop_requested : bool;
  main : main_at;
  notifying : nat;         (** calls of [RequestStop] between the store and [notify_all] *)
  loads : list bool;       (** what [main] read of the flag, in order *)
  reports : nat;
}.

Definition signals_start : signals := mkSignals false Testing 0 [] 0.

(** The two steps of [RequestStop]. *)
Definition RequestStop_store (s : signals) : signals :=
  mkSignals true (main s) (S (notifying s)) (loads s) (reports s).

Definition RequestStop_notify (s : signals) : option signals :=
  match notifying s with
  | O => None
  | S n => Some (mkSignals (stop_requested s) (if decide (main s = Waiting) then Woken else main s) n
                   (loads s) (reports s))
  end.

Definition CTRL_C_EVENT : Z := 0.
Definition CTRL_CLOSE_EVENT : Z := 2.
Definition CTRL_SHUTDOWN_EVENT : Z := 6.

(** What the handler answers, and the state behind the store of the flag. *)
Definition ConsoleHandler (signal : Z) (s : signals) : bool * signals :=
  if (signal =? CTRL_C_EVENT) || (signal =? CTRL_CLOSE_EVENT) || (signal =? CTRL_SHUTDOWN_EVENT)
  then (true, RequestStop_store s) else (false, s).

Inductive actor := Main | Timeout | Console (signal : Z) | Notify.

(** One step; [None] when the actor cannot move.  [Timeout] also is a spurious
    wake-up; [Console] is an event of the console. *)
Definition signal_step (a : actor) (s : signals) : option signals :=
  match a with
  | Main =>
      let '(mkSignals flag m n l r) := s in
      match m with
      | Testing => Some (mkSignals flag (if flag then Stopping else Locked) n (l ++ [flag]) r)
      | Locked => Some (mkSignals flag Waiting n l r)
      | Woken => Some (mkSignals flag (if flag then Stopping else Reporting) n (l ++ [flag]) r)
      | Reporting => Some (mkSignals flag Testing n l (S r))
      | Waiting | Stopping => None
      end
  | Timeout =>
      let '(mkSignals flag m n l r) := s in
      if decide (m = Waiting) then Some (mkSignals flag Woken n l r) else None
  | Console signal => Some (ConsoleHandler signal s).2
  | Notify => RequestStop_notify s
  end.

Fixpoint signal_run (actors : list actor) (s : signals) : option signals :=
  match actors with
  | [] => Some s
  | a :: actors => s ← signal_step a s; signal_run actors s
  end.

(** The steps [main] has left once the flag is set. *)
Definition steps_left (m : main_at) : nat :=
  match m with Stopping => 0 | Testing | Woken => 1 | Waiting | Reporting => 2 | Locked => 3 end.

Definition waits_left (m : main_at) : nat := match m with Locked | Waiting => 1 | _ => 0 end.

Definition of_main (a : actor) : bool := match a with Main | Timeout => true | Console _ | Notify => false end.

Definition timed_out (a : actor) : bool := match a with Timeout => true | _ => false end.

(** Every test but the one that ends the loop has read [false], and there is a
    report behind every second one. *)
Definition consistent (s : signals) : Prop :=
  let odd := match main s with Locked | Waiting | Woken => 1 | _ => 0 end%nat in
  let pending := match main s with Reporting => 1 | _ => 0 end%nat in
  match main s with
  | Stopping => exists n, loads s = replicate n false ++ [true] /\ stop_requested s = true /\ reports s = Nat.div2 n
  | _ => loads s = replicate (2 * (reports s + pending) + odd) false
  end.

Lemma step_consistent a s t : consistent s -> signal_step a s = Some t -> consistent t.
Proof.
  destruct s as [flag m n l r]. unfold consistent. cbn [main loads reports stop_requested].
  intros C E. destruct a; simpl in E.
  - destruct m; simplify_eq; cbn [main loads reports stop_requested].
    + destruct flag; [eexists; split_and!; [done|done|]|]; cbn [main].
      * rewrite !Nat.add_0_r. by rewrite Nat.div2_double.
      * rewrite <-(replicate_S_end (2 * (r + 0) + 0)). f_equal. lia.
    + done.
    + destruct flag; [eexists; split_and!; [done|done|]|]; cbn [main].
      * rewrite Nat.add_0_r. replace (2 * r + 1)%nat with (S (2 * r)) by lia. by rewrite Nat.div2_succ_double.
      * rewrite <-(replicate_S_end (2 * (r + 0) + 1)). f_equal. lia.
    + f_equal. lia.
  - case_decide as D; [|done]. subst m. simplify_eq. cbn. done.
  - unfold ConsoleHandler, RequestStop_store in E. split_if_in E; simpl in E; simplify_eq; [|done].
    cbn. destruct m; try done. destruct C as (k & ? & ? & ?). by exists k.
  - unfold RequestStop_notify in E. cbn in E. destruct n; [done|]. simplify_eq. cbn. case_decide as D; [by subst m|]. done.
Qed.

(** A flag that is set stays set, and every step of [main] brings it closer to
    the end of the loop. *)
Lemma step_flagged a s t :
  signal_step a s = Some t -> stop_requested s = true ->
  stop_requested t = true /\
  (steps_left (main t) + (if of_main a then 1 else 0) <= steps_left (main s))%nat /\
  (waits_left (main t) + (if timed_out a then 1 else 0) <= waits_left (main s))%nat.
Proof.
  destruct s as [flag m n l r]. cbn [main stop_requested]. intros E ->. destruct a; simpl in E.
  - by destruct m; simplify_eq; split_and!; cbn; try lia.
  - case_decide as D; [|done]. subst m. by simplify_eq.
  - unfold ConsoleHandler, RequestStop_store in E.
    split_if_in E; simpl in E; simplify_eq; split_and!; simpl; try done; lia.
  - unfold RequestStop_notify in E. cbn in E. destruct n; [done|]. simplify_eq. cbn [stop_requested main of_main]. split; [done|].
    case_decide as D; [subst m; simpl; lia|simpl; lia].
Qed.

Lemma run_flagged actors s t :
  signal_run actors s = Some t -> stop_requested s = true ->
  stop_requested t = true /\
  (steps_left (main t) + length (filter (fun a => of_main a = true) actors) <= steps_left (main s))%nat /\
  (waits_left (main t) + length (filter (fun a => timed_out a = true) actors) <= waits_left (main s))%nat.
Proof.
  revert s. induction actors as [|a actors IH]; intros s E F; simpl in E; [simplify_eq; split_and!; [done|simpl; lia..]|].
  destruct (signal_step a s) as [s1|] eqn:E1; [|done]. simpl in E.
  destruct (step_flagged a s s1 E1 F) as (F1 & L1 & W1). destruct (IH s1 E F1) as (F2 & L2 & W2).
  rewrite !filter_cons. split_and!; [done| |].
  - case_decide as D; simpl; [rewrite D in L1; lia|]. destruct (of_main a); [done|lia].
  - case_decide as D; simpl; [rewrite D in W1; lia|]. destruct (timed_out a); [done|lia].
Qed.

Lemma run_consistent actors s t : consistent s -> signal_run actors s = Some t -> consistent t.
Proof.
  revert s. induction actors as [|a actors IH]; intros s C E; simpl in E; [by simplify_eq|].
  destruct (signal_step a s) as [s1|] eqn:E1; [|done]. eapply IH; [|exact E]. by eapply step_consistent.
Qed.

(** A run whose signal falls between the test and the wait. *)
Definition lost_run : list actor := [Main; Console CTRL_C_EVENT; Notify; Main].

(** The events of the console that ask for the end: Ctrl-C, the window closed,
    the system shut down. *)
Definition asks (a : actor) : Prop := exists signal, a = Console signal /\ signal ∈ [0; 2; 6].

Lemma ConsoleHandler_cases signal s :
  ConsoleHandler signal s = if bool_decide (signal ∈ [0; 2; 6]) then (true, RequestStop_store s) else (false, s).
Proof.
  unfold ConsoleHandler, CTRL_C_EVENT, CTRL_CLOSE_EVENT, CTRL_SHUTDOWN_EVENT.
  assert (E : (signal =? 0) || (signal =? 2) || (signal =? 6) = bool_decide (signal ∈ [0; 2; 6])); [|by rewrite E].
  apply eq_true_iff_eq. rewrite bool_decide_eq_true, !elem_of_cons, elem_of_nil. lia.
Qed.

(** Nothing else touches the flag. *)
Lemma step_flag a s t :
  signal_step a s = Some t -> (stop_requested t = true <-> stop_requested s = true \/ asks a).
Proof.
  intros E. assert (K : (forall signal, a <> Console signal) -> stop_requested t = stop_requested s).
  { intros N. destruct s as [flag m n l r], a as [| |signal|]; simpl in E; [| |by destruct (N signal)|].
    - by destruct m; simplify_eq.
    - by case_decide; simplify_eq.
    - unfold RequestStop_notify in E. simpl in E. by destruct n; simplify_eq. }
  destruct a as [| |signal|]; try (rewrite K by done; split; [by left|]; intros [?|(? & ? & _)]; done).
  simpl in E. rewrite ConsoleHandler_cases in E. clear K. unfold asks. case_bool_decide as D; simplify_eq; simpl.
  - split; [|done]. intros _. right. by exists signal.
  - split; [by left|]. intros [F|(signal' & [= <-] & F)]; done.
Qed.

Lemma run_flag actors s t :
  signal_run actors s = Some t ->
  (stop_requested t = true <-> stop_requested s = true \/ exists a, a ∈ actors /\ asks a).
Proof.
  revert s. induction actors as [|a actors IH]; intros s E; simpl in E.
  - simplify_eq. split; [by left|]. intros [F|(a & Hin & _)]; [done|by apply elem_of_nil in Hin].
  - destruct (signal_step a s) as [s1|] eqn:E1; [|done]. simpl in E.
    rewrite (IH s1 E), (step_flag a s s1 E1). setoid_rewrite elem_of_cons. naive_solver.
Qed.

(** C40. A stop is requested exactly by Ctrl-C, the closing of the window and a
    shutdown: for these three events, and no other, the handler answers [TRUE] and
    stores the flag, and the flag is set exactly when one of them has arrived.  A
    request is served, but may be served late.  However the threads interleave:
    [main] leaves the loop only when it was asked to, having read [false] before
    and reported behind every second test; once the flag is set it leaves after at
    most three more steps of its own, at most one of them the end of a wait by its
    timeout, and it is never stuck; a notification ends a wait at once.  But a
    signal between the test and the wait is lost: then nothing but the timeout, or
    another signal, ends the wait. *)
Theorem stop_request actors s :
  signal_run actors signals_start = Some s ->
  (forall signal t, ConsoleHandler signal t =
     if bool_decide (signal ∈ [0; 2; 6]) then (true, RequestStop_store t) else (false, t)) /\
  (stop_requested s = true <-> exists a, a ∈ actors /\ asks a) /\
  (main s = Stopping -> (exists a, a ∈ actors /\ asks a) /\
     exists n, loads s = replicate n false ++ [true] /\ reports s = Nat.div2 n) /\
  (stop_requested s = true ->
     (forall more t, signal_run more s = Some t ->
        (length (filter (fun a => of_main a = true) more) <= 3)%nat /\
        (length (filter (fun a => timed_out a = true) more) <= 1)%nat /\
        (main t <> Stopping -> is_Some (signal_step Main t) \/ is_Some (signal_step Timeout t)))) /\
  (main s = Waiting -> forall t, signal_step Notify s = Some t -> main t = Woken) /\
  (exists lost, signal_run lost_run signals_start = Some lost /\ stop_requested lost = true /\ main lost = Waiting /\
     signal_step Main lost = None /\ signal_step Notify lost = None).
Proof.
  intros R. pose proof (run_flag actors _ _ R) as Fl. simpl in Fl.
  assert (Fl' : stop_requested s = true <-> exists a, a ∈ actors /\ asks a)
    by (rewrite Fl; split; [intros [?|?]; done|by right]).
  split_and!.
  - apply ConsoleHandler_cases.
  - exact Fl'.
  - intros E. assert (C : consistent s) by (by eapply (run_consistent actors signals_start)).
    unfold consistent in C. rewrite E in C. destruct C as (n & ? & F & ?).
    split; [by apply Fl'|]. by exists n.
  - intros F more t E. destruct (run_flagged more s t E F) as (_ & L & W).
    assert (B : (steps_left (main s) <= 3 /\ waits_left (main s) <= 1)%nat) by (destruct (main s); simpl; lia).
    split_and!; [lia..|]. destruct t as [flag m n l r]. simpl. destruct m; try done; eauto.
  - destruct s as [flag m n l r]. unfold signal_step, RequestStop_notify. simpl. intros -> t. destruct n; [done|]. by intros [= <-].
  - eexists. by split_and!.
Qed.

(** One report, then the stop; and the signal that is lost. *)
Definition served_run : list actor :=
  [Main; Main; Timeout; Main; Main; Console 1; Main; Main; Console CTRL_CLOSE_EVENT; Notify; Main].

Lemma stop_request_witness :
  exists s, signal_run served_run signals_start = Some s /\
    (exists n, loads s = replicate n false ++ [true] /\ reports s = Nat.div2 n) /\
    exists lost, signal_run lost_run signals_start = Some lost /\ stop_requested lost = true /\ main lost = Waiting.
Proof.
  eexists. split; [reflexivity|].
  destruct (stop_request served_run _ eq_refl) as (_ & _ & P & _ & _ & lost & Q1 & Q2 & Q3 & _).
  split; [apply P; reflexivity|]. exists lost. by split_and!.
Defined.
